(* ===== verification/_CoqProject ===== *)
-Q . S2P
Prelude.v
Bytes.v
RustStr.v
External.v
Toy.v
Cursor.v
Identity.v
Credential.v
Native.v
Envelope.v
Transport.v
AuthWords.v
Pairing.v
Codecs.v
Wire.v
Access.v
NativeTables.v
NativeStore.v
StoreSample.v
StoreInv.v
StoreRetention.v
StoreOps.v
StoreContent.v
StoreQuota.v
StoreQueries.v
PairingStore.v
PairingInv.v
Service.v
ServiceInv.v
Delivery.v
Replay.v
SessionSafety.v
SessionActs.v
PrivateState.v
NoiseKeys.v
Pki.v
Runtime.v
RuntimeInv.v
KeyHistory.v
KnownRelays.v
Daemon.v
RelayClient.v
Keyed.v
Approvals.v
ApprovalsInv.v
Outbox.v
Encoder.v
Float64.v
PublisherCursor.v
Frames.v
FrameThread.v
PublisherRun.v
PublisherPolicy.v
Negotiation.v
Sources.v
FramesInv.v
Upload.v
ClientTrace.v
UploadInv.v
ViewerState.v
ViewerSession.v
ViewerHeadless.v
ViewerInv.v
EndToEnd.v
ViewerUi.v
