(* ===== verification/Prelude.v ===== *)
(** * A verification development of GlacialCast

    GlacialCast streams screens end to end encrypted.  Publishers ([gcpub])
    capture a screen, encode it and seal it under group keys; a relay
    ([gcrelay]) stores the sealed objects and forwards them without having the
    keys; viewers ([gcview]) decrypt, decode and show them.  This library models
    the crates [protocol], [relay], [publisher] and [viewer] under
    [src/crates/] and proves what makes them correct.  Paths below are relative
    to [src/crates/].

    ** How the parts interact

    A device has an identity (signing and key-agreement keys).  A publisher
    signs a descriptor for each stream, seals every media, epoch and cursor
    object under the key of the current group, and uploads the objects over a
    Noise connection whose relay key it pins.  The relay admits a session by its
    access policy (public, or by credentials and a revocation list of an offline
    authority), checks what it receives, stores it in SQLite tables with limits
    and retention, and answers subscriptions from the tables first and then from
    a live channel.  The key of a group reaches a viewer only in an envelope
    encrypted to that viewer's identity, which the publisher signs after a
    pairing ceremony that the two humans compare, with a mailbox at the relay
    between them.  The viewer verifies and buffers objects until it has their
    key, decrypts and decodes them in order, and shows them in a window of tiles.

    ** How the code is modelled

    A function of the source is a function of the same name where Rocq allows
    it.  A fallible function returns [result]; a [Result] whose error text is
    free is a [result string].  A fixed-width integer is a [Z] with its checks,
    saturation or wrap-around written out; a byte array of fixed length is a
    vector.  Randomness, clocks, the contents of files and what the disk does with
    a write ([PrivateState.disk_outcome]) are arguments.  Code
    that works on shared state is a program over an explicit world, and between
    two of its atomic steps an arbitrary environment may change what is shared,
    let time pass and make a write fail ([Service], [RelayClient], [Approvals],
    [Upload], [ViewerSession]): a theorem about such a program holds under every
    interleaving and against every peer.

    Code outside the repository is a class argument: Postcard ([Postcard]), the
    primitives ([Crypto]), the Noise state machines of [snow] ([Noise]), the
    parsing of socket addresses ([SocketAddrs]), the OpenH264 encoder and
    decoder, TOML, floating-point text and base64.  What a theorem relies on is
    stated as a class of laws ([PostcardLaws], [CryptoLaws], [NoiseLaws],
    [CodecsLaws] and so on) and it is documented behaviour: encodings decode to
    what was encoded, signatures verify, ciphertexts open under their key.
    Collision freedom is never assumed: where a statement needs it, its
    alternative names the two inputs that collide ([Identity.collides]), or the
    identity that shares a fingerprint and signed a stored row ([Replay.impostor]).  [Toy] implements all the
    interfaces with computable stand-ins, so that every theorem with hypotheses
    has a witness at a closed input.

    ** The files

    The foundation:
    - [Prelude]: results, saturating and checked arithmetic, the automation and
      the lemmas on lists and options that the components share.
    - [Bytes], [RustStr], [Float64]: byte strings, arrays and their order, Rust
      strings, and [f64] on the standard library's specification of it.
    - [External], [Toy], [Codecs]: the interfaces of external code, a concrete
      instance, and the formats of all the types that the relay stores.
    - [Keyed]: lists sorted by a key, as the private files store them.
    - [ClientTrace]: a program logic for what a client writes and reads.

    The protocol ([protocol/src/]):
    - [Cursor] ([cursor.rs]): [encode_cursor_batch], [decode_cursor_batch].
    - [Identity], [Credential] ([identity.rs], [credential.rs]): identities,
      signatures, requests, credentials, revocation lists, and their files.
    - [Native] ([native.rs]): descriptors, objects, [seal] and [open], the scan
      of H.264, group encryptors, the guard of live sequences.
    - [Envelope] ([envelope.rs]): content keys encrypted to a viewer.
    - [Transport] ([lib.rs]): clear frames, the Noise handshake and
      [NoiseSocket].
    - [AuthWords], [Pairing] ([auth_words.rs], [pairing.rs]): the ceremony.
    - [Wire] ([wire.rs]): the messages and their checks.
    - [PrivateState], [KnownRelays] ([private_state.rs], [trust.rs]): private
      files, and trust on first use for relay keys.
    - [NoiseKeys] ([lib.rs]): the private file of a Noise identity.
    - [Daemon] ([daemon.rs]): the arguments of a detached process and its control
      socket.

    The relay ([relay/src/]):
    - [Access] ([native_access.rs]): admission.
    - [NativeTables], [NativeStore] ([native_store.rs]): the tables with their
      constraints, and every operation of the store on them.  [StoreInv],
      [StoreRetention], [StoreOps], [StoreContent], [StoreQuota] and
      [StoreQueries] prove it; [StoreSample] is a small history for witnesses.
    - [PairingStore], [PairingInv] ([pairing_store.rs]): the mailbox.
    - [Service] ([native_service.rs]): the publisher and viewer sessions;
      proved in [ServiceInv], [Delivery], [Replay], [SessionSafety] and
      [SessionActs].
    - [Pki] ([native_pki.rs]): the commands of the offline authority.
    - [Runtime], [RuntimeInv] ([native_runtime.rs], and [config_path.rs] of the
      protocol): the configuration, the admission policy at the start, reloads
      of the revocation list and the retention task.

    The publisher ([publisher/src/]):
    - [Frames], [FrameThread], [FramesInv] ([lib.rs], [egl_readback.rs]): the
      buffers that the compositor delivers, their conversion to images, the
      read-back of GPU buffers and the sizes that reach the encoder.
    - [Negotiation] ([lib.rs]): the formats and buffers that the publisher asks of
      PipeWire, and the check of the negotiated size.
    - [Sources] ([lib.rs]): the desktop's interfaces and monitors, the targets of a
      process, and starting a capture again.
    - [PublisherCursor] ([lib.rs]): cursor metadata to cursor events.
    - [Encoder] ([encoder.rs], [lib.rs]): access units and the software encoder.
    - [PublisherRun], [PublisherPolicy] ([lib.rs], [native_admin.rs]): retrying,
      rates, labels; the client configuration and the viewer policy.
    - [KeyHistory] ([native_publish.rs]): the retained group keys.
    - [RelayClient] (shared with the viewer): connecting, writing and reading.
    - [Approvals], [ApprovalsInv], [Outbox] ([native_admin.rs]): the durable
      approvals, every command and the live worker.
    - [Upload], [UploadInv] ([native_publish.rs]): the upload session.

    The viewer ([viewer/src/lib.rs]):
    - [ViewerState]: the key cache and the files of publishers and pairings.
    - [ViewerSession], [ViewerInv]: refreshing, pairing, and subscriptions with
      their buffer and decoding.
    - [ViewerHeadless]: the start of a viewer and its modes without a window.
    - [ViewerUi]: [ViewerApp] and the worker of its commands.
    - [EndToEnd]: from the publisher's sealing to the viewer's window.

    ** What is proved

    - End to end: what a publisher seals is what the viewer shows, wherever the
      key arrives ([EndToEnd.sealed_stream_plays]); a viewer shows only what the
      verified publisher signed, in order and without gaps
      ([ViewerInv.playback_authentic]); the key of a group goes only to approved
      viewers ([UploadInv.group_keys_confined]).
    - The publisher's conversation is well formed against every relay
      ([UploadInv.upload_conversation]); no nonce repeats
      ([Native.seal_run_nonces]); commands and worker keep revocations and
      deliver offers and decisions at least once ([Outbox]).
    - The relay's store: its invariants hold in every reachable state
      ([StoreContent.reachable_consistent]), within its limits ([StoreQuota]);
      acknowledged objects are durable and retries idempotent, anchors are
      decodable ([StoreQueries]); retention terminates and removes exactly what
      is due ([StoreRetention]).
    - The relay's sessions: they keep the invariants ([ServiceInv]) and change only
      what the admitted identity may ([SessionActs]), deliver without gaps
      ([Delivery]) and catch up ([Replay]), acknowledge only what is stored and tell
      an unadmitted peer nothing but an error; a session whose credential is no
      longer active handles at most the message that it was waiting for
      ([SessionSafety]), and a revocation of the authority reaches the running
      sessions ([RuntimeInv]).
    - Pairing: an honest run goes from the request to the decision without a
      failing step, messages commit to one ceremony ([Pairing]), and the mailbox holds consistent records only ([PairingInv]).
    - Trust: relay pins never change and refine an abstract store of pins, also
      when the disk fails ([KnownRelays]), connections go on only under the pinned key
      ([RelayClient]), verified publishers stay ([ViewerState]).
    - Codecs and transport: canonical round trips ([Cursor], [Transport], and
      lemmas of the other formats beside them).
    - Capture: cursor metadata and frames are read within bounds and convert to
      what they show, up to the size that a vector can have ([PublisherCursor],
      [FramesInv]), an inspected frame is what
      its NAL units say ([Encoder]); an odd size is fatal to the publisher
      ([FramesInv.odd_picture_is_fatal]).  What is offered to PipeWire is readable
      ([Negotiation.offered_formats_readable]); a negotiated size other than the
      portal's fails the stream, and portal captures that start again all record
      the first source ([Sources.restarted_portal_targets_coincide]).
    - The viewer's state: the buffer and the key cache stay within their bounds
      ([ViewerInv.buffer_invariant], [ViewerState.key_cache_refines_queue]) and
      the window follows the catalog without panics ([ViewerUi]).

    ** Fuel

    A loop that is not structural takes fuel, and the fuel it is given is
    enough.  Loops that read the replies of a connection ([read_inbox],
    [refresh_inbox], [pairing_inbox]) and the playback of a subscription get one
    more turn than there are replies, and each turn takes one; [read_loop] of the
    transport gets one more than there are bytes, and each turn consumes a
    frame; [write_loop] advances by a full chunk in every turn but the last;
    [start_codes] gets the length of the access unit, [gcd] one more than its
    second argument, which decreases; [retention_loop] one more than there are
    groups, and each turn deletes one; [search_base] halves at most as often as
    there are elements.  The number of pages in [reanchor_from_store] is an
    argument of the relay's sessions, since other sessions may store objects
    while it reads: safety holds for every number, and
    [Replay.subscription_catches_up] gives one that suffices.  The endless loops
    of the program (sessions, the upload, the window, the tasks of the relay) run
    over the list of what happens to them.

    ** Not modelled

    - Devices and foreign libraries: the calls to PipeWire, libspa's pods, D-Bus,
      GBM, EGL, OpenH264 and its loading, the scaling of images, the drawing of
      egui.  What they answer is an argument where the code goes on with it.  The
      VA-API encoder is disabled at compile time, and with it the capture that
      passes DMA-BUF frames on.
    - Spawning processes, command-line grammars, signals, logging and printed
      text; the parsing of TOML, floating-point text and base64.
    - Opening the SQLite databases and the quarantine of an old one; the database
      is assumed to execute the statements of [NativeTables] in transactions.
    - The accept loops of the listeners, timers and the aborting of tasks; a
      timeout is an input of the program that waits.  Poisoned and advisory
      locks, a crash between two system calls, and zeroization. *)
From Stdlib Require Import ZArith Lia.
From stdpp Require Export base decidable numbers list gmap fin_maps strings vector sorting.

#[global] Open Scope Z_scope.

(** * Automation shared by every file *)

Create HintDb glacial.
Create HintDb glacial_arith.
Create Rewrite HintDb glacial_simpl.

(** Destruct existentials, conjunctions and products of the context. *)
Ltac split_hyps :=
  repeat match goal with
  | H : exists _, _ |- _ => destruct H
  | H : _ /\ _ |- _ => destruct H
  | x : (_ * _)%type |- _ => destruct x
  end.

(** * Results

    [result E A] is Rust's [Result<A, E>].  The [?] operator is the bind; an
    early [return Err(e)] under a condition is [reject_if]. *)

Inductive result (E A : Type) : Type :=
| Ok (a : A)
| Err (e : E).
Arguments Ok {E A} a.
Arguments Err {E A} e.

#[global] Instance result_ret E : MRet (result E) := fun A => Ok.
#[global] Instance result_bind E : MBind (result E) := fun A B f m =>
  match m with Ok a => f a | Err e => Err e end.
#[global] Instance result_fmap E : FMap (result E) := fun A B f m =>
  match m with Ok a => Ok (f a) | Err e => Err e end.
#[global] Instance result_eq_dec E A `{EqDecision E, EqDecision A} :
  EqDecision (result E A).
Proof. solve_decision. Defined.

Declare Scope glacial_scope.
Delimit Scope glacial_scope with glacial.
Notation "'let?' x := m 'in' k" := (mbind (fun x => k) m)
  (at level 10, x pattern, m at level 200, k at level 200,
   format "'[v' 'let?'  x  :=  m  'in' '/' k ']'") : glacial_scope.
Notation "m 'then?' k" := (mbind (fun _ => k) m)
  (at level 99, right associativity, k at level 200) : glacial_scope.
#[global] Open Scope glacial_scope.

(** [if cond { return Err(e) }] *)
Definition reject_if {E} (P : Prop) `{!Decision P} (e : E) : result E unit :=
  if decide P then Err e else Ok tt.

(** [result.map_err(f)] *)
Definition map_err {E F A} (f : E -> F) (r : result E A) : result F A :=
  match r with Ok a => Ok a | Err e => Err (f e) end.

(** [anyhow]'s [context]: the outermost message of the error chain. *)
Definition context {E A} (what : string) (r : result E A) : result string A :=
  map_err (fun _ => what) r.

(** [option.ok_or(e)] *)
Definition ok_or {E A} (o : option A) (e : E) : result E A :=
  match o with Some a => Ok a | None => Err e end.

(** [result.ok()] *)
Definition result_ok {E A} (r : result E A) : option A :=
  match r with Ok a => Some a | Err _ => None end.

(** [option.map(f).transpose()] for a fallible [f] *)
Definition opt_traverse {E A B} (f : A -> result E B) (o : option A) :
    result E (option B) :=
  match o with
  | Some a => Some <$> f a
  | None => Ok None
  end.

(** [option.is_some_and(p)] and [option.is_none_or(p)] *)
Definition is_some_and {A} (P : A -> Prop) (o : option A) : Prop :=
  match o with Some a => P a | None => False end.
Definition is_none_or {A} (P : A -> Prop) (o : option A) : Prop :=
  match o with Some a => P a | None => True end.
#[global] Instance is_some_and_dec {A} (P : A -> Prop) o
  `{forall x, Decision (P x)} : Decision (is_some_and P o).
Proof. destruct o; apply _. Defined.
#[global] Instance is_none_or_dec {A} (P : A -> Prop) o
  `{forall x, Decision (P x)} : Decision (is_none_or P o).
Proof. destruct o; apply _. Defined.

(** Collecting fallible results of a loop body in order. *)
Fixpoint mapR {E A B} (f : A -> result E B) (l : list A) : result E (list B) :=
  match l with
  | [] => Ok []
  | x :: l => let? y := f x in let? ys := mapR f l in Ok (y :: ys)
  end.

Definition is_ok {E A} (r : result E A) : bool :=
  match r with Ok _ => true | Err _ => false end.

Section result_lemmas.
Context {E : Type}.

Lemma Ok_inj {A} (a b : A) : @Ok E A a = Ok b -> a = b.
Proof. by intros [= ->]. Qed.

Lemma Err_inj {A} (a b : E) : @Err E A a = Err b -> a = b.
Proof. by intros [= ->]. Qed.

Lemma bind_Ok_inv {A B} (m : result E A) (k : A -> result E B) v :
  mbind k m = Ok v <-> exists x, m = Ok x /\ k x = Ok v.
Proof. destruct m; simpl; naive_solver. Qed.

Lemma fmap_Ok_inv {A B} (m : result E A) (f : A -> B) v :
  f <$> m = Ok v <-> exists x, m = Ok x /\ f x = v.
Proof. destruct m; simpl; naive_solver. Qed.

Lemma reject_if_Ok (P : Prop) `{!Decision P} (e : E) u :
  reject_if P e = Ok u <-> ~ P.
Proof. unfold reject_if. destruct u; case_decide; naive_solver. Qed.

Lemma reject_if_Err (P : Prop) `{!Decision P} (e e' : E) :
  reject_if P e = Err e' <-> P /\ e' = e.
Proof. unfold reject_if. case_decide; naive_solver. Qed.

Lemma reject_if_false (P : Prop) `{!Decision P} (e : E) :
  ~ P -> reject_if P e = Ok tt.
Proof. intros. by apply reject_if_Ok. Qed.

Lemma guard_bind {A} (P : Prop) `{!Decision P} (e : E) (k : result E A) v :
  (reject_if P e then? k) = Ok v <-> ~ P /\ k = Ok v.
Proof. unfold reject_if. case_decide; simpl; naive_solver. Qed.

Lemma unit_bind {A} (m : result E unit) (k : result E A) v :
  (m then? k) = Ok v <-> m = Ok tt /\ k = Ok v.
Proof. destruct m as [[]|]; simpl; naive_solver. Qed.

Lemma map_err_Ok {F A} (f : E -> F) (r : result E A) v :
  map_err f r = Ok v <-> r = Ok v.
Proof. destruct r; simpl; naive_solver. Qed.

Lemma ok_or_Ok {A} (o : option A) (e : E) v :
  ok_or o e = Ok v <-> o = Some v.
Proof. destruct o; simpl; naive_solver. Qed.

Lemma opt_traverse_Ok {A B} (f : A -> result E B) o v :
  opt_traverse f o = Ok v <->
  match o with
  | Some a => exists b, f a = Ok b /\ v = Some b
  | None => v = None
  end.
Proof.
  destruct o as [a|]; simpl; [|naive_solver].
  destruct (f a); simpl; naive_solver.
Qed.

Lemma mapR_Ok {A B} (f : A -> result E B) l ys :
  mapR f l = Ok ys <-> Forall2 (fun x y => f x = Ok y) l ys.
Proof.
  revert ys. induction l as [|x l IH]; intros ys; simpl.
  - split; [intros [= <-]; constructor | by inversion 1].
  - rewrite bind_Ok_inv. split.
    + intros (y & Hy & H). apply bind_Ok_inv in H as (zs & Hz & [= <-]).
      constructor; [done | by apply IH].
    + inversion_clear 1 as [|? y ? zs Hy Hz]. exists y. split; [done|].
      apply bind_Ok_inv. exists zs. split; [by apply IH | done].
Qed.

Lemma mapR_total {A B} (f : A -> result E B) l :
  (forall x, x ∈ l -> exists y, f x = Ok y) -> exists ys, mapR f l = Ok ys.
Proof.
  induction l as [|x l IH]; intros H; simpl; [by exists []|].
  destruct (H x) as [y ->]; [by left|]. destruct IH as [ys ->]; [|by eexists].
  intros z Hz. apply H. by right.
Qed.

Lemma mapR_elem {A B} (f : A -> result E B) l ys y :
  mapR f l = Ok ys -> y ∈ ys <-> exists x, x ∈ l /\ f x = Ok y.
Proof.
  rewrite mapR_Ok. induction 1 as [|x z l ys Hxz _ IH].
  - split; [by intros ?%not_elem_of_nil | by intros (? & ?%not_elem_of_nil & _)].
  - rewrite elem_of_cons, IH. split.
    + intros [->|(x' & ? & ?)]; [exists x | exists x']; (split; [|done]); by constructor.
    + intros (x' & [->|Hx']%elem_of_cons & Hf); [left; congruence|right; eauto].
Qed.
End result_lemmas.

Lemma context_Ok {E A} what (r : result E A) v : context what r = Ok v <-> r = Ok v.
Proof. apply map_err_Ok. Qed.

(** * Stateful operations that may fail

    [io E S A] threads a state of type [S]; the state survives an error. *)

Definition io (E S A : Type) : Type := S -> result E A * S.
#[global] Instance io_ret {E S} : MRet (io E S) := fun A a s => (Ok a, s).
#[global] Instance io_bind {E S} : MBind (io E S) := fun A B f m s =>
  match m s with
  | (Ok a, s) => f a s
  | (Err e, s) => (Err e, s)
  end.
Definition lift {E S A} (r : result E A) : io E S A := fun s => (r, s).

Section io_lemmas.
Context {E S : Type}.

Lemma io_bind_Ok {A B} (m : io E S A) (k : A -> io E S B) s v s' :
  (let? a := m in k a) s = (Ok v, s') <->
  exists a s1, m s = (Ok a, s1) /\ k a s1 = (Ok v, s').
Proof. unfold mbind, io_bind. destruct (m s) as [[a|e] s1]; naive_solver. Qed.

Lemma io_bind_run {A B} (m : io E S A) (k : A -> io E S B) s r s' :
  (let? a := m in k a) s = (r, s') ->
  (exists e, m s = (Err e, s') /\ r = Err e) \/
  (exists a s1, m s = (Ok a, s1) /\ k a s1 = (r, s')).
Proof. unfold mbind, io_bind. destruct (m s) as [[a|e] s1]; naive_solver. Qed.

(** Runs that agree after every success of the first step agree. *)
Lemma io_bind_ext {A B} (m : io E S A) (k1 k2 : A -> io E S B) s :
  (forall a s1, m s = (Ok a, s1) -> k1 a s1 = k2 a s1) ->
  (let? a := m in k1 a) s = (let? a := m in k2 a) s.
Proof. intros H. unfold mbind, io_bind. destruct (m s) as [[a|e] s1]; auto. Qed.

Lemma lift_Ok {A} (r : result E A) (s s' : S) v :
  lift r s = (Ok v, s') <-> r = Ok v /\ s' = s.
Proof. unfold lift. naive_solver. Qed.
End io_lemmas.

(** Turn every hypothesis saying that a computation returned [Ok] into what
    its guards and calls established. *)
Ltac res_inv :=
  repeat match goal with
  | H : Ok _ = Ok _ |- _ => apply Ok_inj in H; try subst
  | H : Err _ = Err _ |- _ => apply Err_inj in H; try subst
  | H : Err _ = Ok _ |- _ => discriminate H
  | H : Ok _ = Err _ |- _ => discriminate H
  | H : mbind _ _ = Ok _ |- _ => apply bind_Ok_inv in H as (? & ? & H)
  | H : fmap _ _ = Ok _ |- _ => apply fmap_Ok_inv in H as (? & ? & H)
  | H : reject_if _ _ = Ok _ |- _ => apply reject_if_Ok in H
  | H : map_err _ _ = Ok _ |- _ => apply map_err_Ok in H
  | H : ok_or _ _ = Ok _ |- _ => apply ok_or_Ok in H
  end.

Lemma not_or_and (P Q : Prop) : ~ (P \/ Q) -> ~ P /\ ~ Q.
Proof. tauto. Qed.

(** Split the negated disjunction of a guard that passed. *)
Ltac nor_inv :=
  repeat match goal with
  | H : ~ (_ \/ _) |- _ => apply not_or_and in H as [? H]
  | H : ~ ~ _ |- _ => apply dec_stable in H
  end.

(** Prove that a guard passes, then continue with the computation. *)
Ltac res_pass :=
  rewrite reject_if_false by (first [assumption | lia | naive_solver]); simpl.

(** * Machine integers

    Every integer of the source is modelled by [Z]; the operations below are
    the width-aware ones of Rust's standard library.  [usize] is 64 bits wide,
    as on the Linux targets the program supports. *)

Definition u16_max : Z := 65535.
Definition u32_max : Z := 4294967295.
Definition u64_max : Z := 18446744073709551615.
Definition i64_max : Z := 9223372036854775807.
Definition i64_min : Z := -9223372036854775808.

Definition u16_ok (z : Z) : Prop := 0 <= z <= u16_max.
Definition u32_ok (z : Z) : Prop := 0 <= z <= u32_max.
Definition u64_ok (z : Z) : Prop := 0 <= z <= u64_max.
Definition i64_ok (z : Z) : Prop := i64_min <= z <= i64_max.

#[global] Instance u16_ok_dec z : Decision (u16_ok z).
Proof. unfold u16_ok. apply _. Defined.
#[global] Instance u32_ok_dec z : Decision (u32_ok z).
Proof. unfold u32_ok. apply _. Defined.
#[global] Instance u64_ok_dec z : Decision (u64_ok z).
Proof. unfold u64_ok. apply _. Defined.
#[global] Instance i64_ok_dec z : Decision (i64_ok z).
Proof. unfold i64_ok. apply _. Defined.

Definition u64_saturating_add (a b : Z) : Z := Z.min u64_max (a + b).
Definition u64_saturating_sub (a b : Z) : Z := Z.max 0 (a - b).
Definition u64_saturating_mul (a b : Z) : Z := Z.min u64_max (a * b).
Definition u64_checked_add (a b : Z) : option Z :=
  if decide (a + b <= u64_max) then Some (a + b) else None.
Definition u64_checked_mul (a b : Z) : option Z :=
  if decide (a * b <= u64_max) then Some (a * b) else None.

Definition i64_clamp (z : Z) : Z := Z.max i64_min (Z.min i64_max z).
Definition i64_saturating_add (a b : Z) : Z := i64_clamp (a + b).
Definition i64_saturating_sub (a b : Z) : Z := i64_clamp (a - b).
Definition i64_checked_add (a b : Z) : option Z :=
  if decide (i64_ok (a + b)) then Some (a + b) else None.
Definition i64_checked_sub (a b : Z) : option Z :=
  if decide (i64_ok (a - b)) then Some (a - b) else None.

(** [u16::try_from], [u32::try_from], [i64::try_from], [u64::try_from] *)
Definition u16_try_from (z : Z) : option Z :=
  if decide (u16_ok z) then Some z else None.
Definition u32_try_from (z : Z) : option Z :=
  if decide (u32_ok z) then Some z else None.
Definition u64_try_from (z : Z) : option Z :=
  if decide (u64_ok z) then Some z else None.
Definition i64_try_from (z : Z) : option Z :=
  if decide (i64_ok z) then Some z else None.

Ltac unfold_ints :=
  unfold u16_ok, u32_ok, u64_ok, i64_ok, u64_saturating_add,
    u64_saturating_sub, u64_saturating_mul, i64_saturating_add,
    i64_saturating_sub, i64_clamp, u16_max, u32_max, u64_max, i64_max, i64_min
    in *.

(** Linear arithmetic after exposing the machine-integer bounds. *)
Ltac ints := unfold_ints; lia.

Section int_lemmas.
Lemma i64_try_from_Some z v : i64_try_from z = Some v <-> v = z /\ i64_ok z.
Proof. unfold i64_try_from. case_decide; naive_solver. Qed.
Lemma u64_try_from_Some z v : u64_try_from z = Some v <-> v = z /\ u64_ok z.
Proof. unfold u64_try_from. case_decide; naive_solver. Qed.
Lemma u32_try_from_Some z v : u32_try_from z = Some v <-> v = z /\ u32_ok z.
Proof. unfold u32_try_from. case_decide; naive_solver. Qed.
Lemma u16_try_from_Some z v : u16_try_from z = Some v <-> v = z /\ u16_ok z.
Proof. unfold u16_try_from. case_decide; naive_solver. Qed.
Lemma u64_checked_add_Some a b v :
  u64_checked_add a b = Some v <-> v = a + b /\ a + b <= u64_max.
Proof. unfold u64_checked_add. case_decide; naive_solver. Qed.
Lemma u64_checked_mul_Some a b v :
  u64_checked_mul a b = Some v <-> v = a * b /\ a * b <= u64_max.
Proof. unfold u64_checked_mul. case_decide; naive_solver. Qed.
Lemma i64_checked_sub_Some a b v :
  i64_checked_sub a b = Some v <-> v = a - b /\ i64_ok (a - b).
Proof. unfold i64_checked_sub. case_decide; naive_solver. Qed.
Lemma i64_checked_add_Some a b v :
  i64_checked_add a b = Some v <-> v = a + b /\ i64_ok (a + b).
Proof. unfold i64_checked_add. case_decide; naive_solver. Qed.
End int_lemmas.

(** Expose the successful branch of the checked conversions. *)
Ltac int_inv :=
  repeat match goal with
  | H : i64_try_from _ = Some _ |- _ => apply i64_try_from_Some in H as [? ?]
  | H : u64_try_from _ = Some _ |- _ => apply u64_try_from_Some in H as [? ?]
  | H : u32_try_from _ = Some _ |- _ => apply u32_try_from_Some in H as [? ?]
  | H : u16_try_from _ = Some _ |- _ => apply u16_try_from_Some in H as [? ?]
  | H : u64_checked_add _ _ = Some _ |- _ => apply u64_checked_add_Some in H as [? ?]
  | H : u64_checked_mul _ _ = Some _ |- _ => apply u64_checked_mul_Some in H as [? ?]
  | H : i64_checked_sub _ _ = Some _ |- _ => apply i64_checked_sub_Some in H as [? ?]
  | H : i64_checked_add _ _ = Some _ |- _ => apply i64_checked_add_Some in H as [? ?]
  end; subst.

(** * Lists and optional values *)

(** Lengths are [usize] values. *)
Abbreviation zlen l := (Z.of_nat (length l)).

Lemma zlen_nonneg {A} (l : list A) : 0 <= zlen l.
Proof. lia. Qed.

Lemma zlen_app {A} (l k : list A) : zlen (l ++ k) = zlen l + zlen k.
Proof. rewrite length_app. lia. Qed.

#[export] Hint Resolve zlen_nonneg : glacial_arith.
#[export] Hint Rewrite @zlen_app : glacial_simpl.

(** [slice.windows(2).any(p)], with [p] applied to each adjacent pair. *)
Fixpoint windows2_any {A} (p : A -> A -> bool) (l : list A) : bool :=
  match l with
  | x :: ((y :: _) as l') => p x y || windows2_any p l'
  | _ => false
  end.

Lemma windows2_any_false {A} (p : A -> A -> bool) (l : list A) :
  windows2_any p l = false <-> Sorted (fun x y => p x y = false) l.
Proof.
  induction l as [|x [|y l] IH]; simpl; [by split| by split; repeat constructor |].
  rewrite orb_false_iff, IH. split.
  - intros [? ?]. constructor; [done | by constructor].
  - inversion_clear 1 as [|? ? HS HH]. inversion_clear HH. done.
Qed.

Lemma Sorted_mono {A} (R S : A -> A -> Prop) (l : list A) :
  (forall x y, R x y -> S x y) -> Sorted R l -> Sorted S l.
Proof.
  intros HRS. induction 1 as [|x l _ IH HH]; constructor; [done|].
  destruct HH; constructor. auto.
Qed.

(** [ORDER BY ... LIMIT 1]: the first element of a list under a strict order. *)
Fixpoint select_first {A} (before : A -> A -> Prop) `{!RelDecision before} (l : list A) :
    option A :=
  match l with
  | [] => None
  | x :: l =>
      match select_first before l with
      | Some y => Some (if decide (before y x) then y else x)
      | None => Some x
      end
  end.

(** A strict order whose incomparability is transitive: an [ORDER BY] key. *)
Class OrderBy {A} (before : A -> A -> Prop) : Prop := {
  before_asym x y : before x y -> ~ before y x;
  before_split x y z : before x z -> before x y \/ before y z;
}.

#[global] Instance order_by_key {A} (f : A -> Z) : OrderBy (fun x y => f x < f y).
Proof. split; intros; lia. Qed.

Lemma select_first_None {A} (before : A -> A -> Prop) `{!RelDecision before} (l : list A) :
  select_first before l = None <-> l = [].
Proof. destruct l; simpl; [done|]. by destruct (select_first _ _). Qed.

Lemma select_first_Some {A} (before : A -> A -> Prop) `{!RelDecision before, !OrderBy before}
    (l : list A) (x : A) :
  select_first before l = Some x -> x ∈ l /\ forall y, y ∈ l -> ~ before y x.
Proof.
  revert x. induction l as [|a l IH]; intros x; simpl; [done|].
  destruct (select_first before l) as [y|] eqn:E.
  - intros [= <-]. destruct (IH y eq_refl) as [Hin Hmin]. case_decide as Hya.
    + split; [by right|]. intros z [->|Hz]%elem_of_cons; [by apply before_asym|auto].
    + split; [by left|]. intros z [->|Hz]%elem_of_cons Hb.
      * by destruct (before_asym _ _ Hb).
      * destruct (before_split _ y _ Hb); [by eapply Hmin | done].
  - intros [= <-]. apply select_first_None in E as ->. split; [by left|].
    intros z [->|Hz%not_elem_of_nil]%elem_of_cons Hb; [|done]. by destruct (before_asym _ _ Hb).
Qed.

(** [MIN] and [MAX] of a selection, [None] when it is empty. *)
Fixpoint list_min (l : list Z) : option Z :=
  match l with
  | [] => None
  | x :: l => Some (match list_min l with Some y => Z.min x y | None => x end)
  end.
Definition list_max (l : list Z) : option Z := Z.opp <$> list_min (Z.opp <$> l).

Lemma list_min_Some l v : list_min l = Some v -> v ∈ l /\ forall x, x ∈ l -> v <= x.
Proof.
  revert v. induction l as [|a l IH]; intros v; simpl; [done|].
  destruct (list_min l) as [y|] eqn:E; intros [= <-].
  - destruct (IH y eq_refl) as [Hin Hmin]. split.
    + destruct (Z.min_spec a y) as [[_ ->]|[_ ->]]; [by left | by right].
    + intros x [->|Hx]%elem_of_cons; [lia|]. specialize (Hmin x Hx). lia.
  - destruct l; [|done]. split; [by left|]. by intros x ->%list_elem_of_singleton.
Qed.

Lemma list_max_Some l v : list_max l = Some v -> v ∈ l /\ forall x, x ∈ l -> x <= v.
Proof.
  unfold list_max. intros (w & [Hin Hmin]%list_min_Some & ->)%fmap_Some.
  apply list_elem_of_fmap in Hin as (x & -> & Hx). rewrite Z.opp_involutive.
  split; [done|]. intros y Hy. specialize (Hmin (- y)).
  enough (- x <= - y) by lia. apply Hmin, list_elem_of_fmap. eauto.
Qed.

Lemma list_min_None l : list_min l = None <-> l = [].
Proof. by destruct l. Qed.

Lemma list_max_None l : list_max l = None <-> l = [].
Proof. unfold list_max. rewrite fmap_None, list_min_None. by destruct l. Qed.

(** Sum of a measure over the rows of a finite map. *)
Definition map_sum `{Countable K} {V} (f : K -> V -> Z) (m : gmap K V) : Z :=
  map_fold (fun k v acc => f k v + acc) 0 m.

Section map_sum.
Context `{Countable K} {V : Type}.
Implicit Types (m : gmap K V) (f g : K -> V -> Z).

Lemma map_sum_empty f : map_sum f ∅ = 0.
Proof. apply map_fold_empty. Qed.

Lemma map_sum_insert f m k v :
  m !! k = None -> map_sum f (<[k := v]> m) = f k v + map_sum f m.
Proof.
  intros Hk. unfold map_sum. rewrite map_fold_insert_L; [done | | done].
  intros. lia.
Qed.

Lemma map_sum_delete f m k v :
  m !! k = Some v -> map_sum f m = f k v + map_sum f (delete k m).
Proof.
  intros Hk. rewrite <-(insert_delete_id m k v Hk) at 1.
  rewrite map_sum_insert; [done | apply lookup_delete_eq].
Qed.

Lemma map_sum_update f m k v w :
  m !! k = Some v ->
  map_sum f (<[k := w]> m) = map_sum f m - f k v + f k w.
Proof.
  intros Hk. rewrite <-insert_delete_eq, map_sum_insert by apply lookup_delete_eq.
  rewrite (map_sum_delete f m k v Hk). lia.
Qed.

Lemma map_sum_ext f g m :
  (forall k v, m !! k = Some v -> f k v = g k v) -> map_sum f m = map_sum g m.
Proof.
  induction m as [|k v m Hk IH] using map_ind; intros Hfg; [done|].
  rewrite !map_sum_insert by done. rewrite Hfg by apply lookup_insert_eq.
  rewrite IH; [done|]. intros k' v' Hk'. apply Hfg.
  rewrite lookup_insert_ne; naive_solver.
Qed.

Lemma map_sum_nonneg f m :
  (forall k v, m !! k = Some v -> 0 <= f k v) -> 0 <= map_sum f m.
Proof.
  induction m as [|k v m Hk IH] using map_ind; intros Hf;
    [by rewrite map_sum_empty|].
  rewrite map_sum_insert by done.
  assert (0 <= f k v) by (apply Hf, lookup_insert_eq).
  assert (0 <= map_sum f m); [|lia].
  apply IH. intros k' v' Hk'. apply Hf. rewrite lookup_insert_ne; naive_solver.
Qed.

Lemma map_sum_zero f m :
  (forall k v, m !! k = Some v -> f k v = 0) -> map_sum f m = 0.
Proof.
  induction m as [|k v m Hk IH] using map_ind; intros Hf; [done|].
  rewrite map_sum_insert by done. rewrite Hf by apply lookup_insert_eq.
  rewrite IH; [done|]. intros k' v' Hk'. apply Hf.
  rewrite lookup_insert_ne; naive_solver.
Qed.

Lemma map_sum_lookup_le f m k v :
  (forall k v, m !! k = Some v -> 0 <= f k v) ->
  m !! k = Some v -> f k v <= map_sum f m.
Proof.
  intros Hf Hk. rewrite (map_sum_delete f m k v Hk).
  assert (0 <= map_sum f (delete k m)); [|lia].
  apply map_sum_nonneg. intros k' v' [_ Hk']%lookup_delete_Some. eauto.
Qed.

Lemma map_sum_filter f m (P : K * V -> Prop) `{forall x, Decision (P x)} :
  map_sum f (filter P m) =
  map_sum (fun k v => if decide (P (k, v)) then f k v else 0) m.
Proof.
  induction m as [|k v m Hk IH] using map_ind; [done|].
  rewrite map_sum_insert by done. case_decide as HP.
  - rewrite map_filter_insert_True by done.
    rewrite map_sum_insert, IH; [done|]. apply map_lookup_filter_None. auto.
  - rewrite map_filter_insert_False by done.
    rewrite delete_id by done. rewrite IH. lia.
Qed.
End map_sum.

(** Intervals of integers, in order. *)
Lemma take_seqZ n m len : take n (seqZ m len) = seqZ m (Z.min (Z.of_nat n) len).
Proof.
  apply list_eq. intros i. destruct (decide (i < n)%nat) as [Hi|Hi].
  - rewrite lookup_take_lt by done. destruct (decide (Z.of_nat i < len)).
    + by rewrite !lookup_seqZ_lt by lia.
    + by rewrite !lookup_seqZ_ge by lia.
  - by rewrite lookup_take_ge, lookup_seqZ_ge by lia.
Qed.

Lemma Sorted_seqZ n m : Sorted Z.le (seqZ m (Z.of_nat n)).
Proof.
  revert m. induction n as [|n IH]; intros m; [constructor|].
  rewrite seqZ_cons by lia. replace (Z.pred (Z.of_nat (S n))) with (Z.of_nat n) by lia.
  constructor; [apply IH|]. destruct n; [constructor|].
  rewrite seqZ_cons by lia. constructor. lia.
Qed.

(** A sorted duplicate-free list of an interval is the interval. *)
Lemma Sorted_interval (l : list Z) a len :
  Sorted Z.le l -> NoDup l -> (forall x, x ∈ l <-> a <= x < a + len) -> l = seqZ a len.
Proof.
  intros Hs Hnd Hin. eapply (Sorted_unique Z.le); [done| |].
  - destruct (decide (0 <= len)); [|by rewrite seqZ_nil by lia; constructor].
    rewrite <-(Z2Nat.id len) by done. apply Sorted_seqZ.
  - apply NoDup_Permutation; [done|apply NoDup_seqZ|]. intros x.
    by rewrite Hin, elem_of_seqZ.
Qed.
