(* ===== verification/Bytes.v ===== *)
(** Bytes, fixed-size arrays, big-endian integers and the lexicographic order
    that Rust derives for byte slices, arrays and [Uuid].

    A [u8] is a [Byte.byte]; [[u8; N]] is a length-indexed vector, so that a
    32-byte identifier cannot have another length; [Vec<u8>] is a list. *)
From Stdlib Require Import ZArith Lia.
From Stdlib Require Export Strings.Byte.
From stdpp Require Import countable.
From S2P Require Import Prelude.

(** * Single bytes *)

Abbreviation bytes := (list byte).

Definition Z_of_byte (b : byte) : Z := Z.of_N (Byte.to_N b).

(** [z as u8]: the low eight bits of [z]. *)
Definition byte_of_Z (z : Z) : byte :=
  match Byte.of_N (Z.to_N (z mod 256)) with Some b => b | None => x00 end.

#[global] Instance byte_eq_dec : EqDecision byte := Byte.byte_eq_dec.

Lemma Z_of_byte_range b : 0 <= Z_of_byte b < 256.
Proof. unfold Z_of_byte. pose proof (Byte.to_N_bounded b). lia. Qed.

Lemma byte_of_Z_of_byte b : byte_of_Z (Z_of_byte b) = b.
Proof.
  unfold byte_of_Z. rewrite Z.mod_small by apply Z_of_byte_range.
  unfold Z_of_byte. by rewrite N2Z.id, Byte.of_to_N.
Qed.

Lemma Z_of_byte_of_Z z : Z_of_byte (byte_of_Z z) = z mod 256.
Proof.
  unfold byte_of_Z, Z_of_byte.
  pose proof (Z.mod_pos_bound z 256 ltac:(lia)) as Hz.
  destruct (Byte.of_N _) as [b|] eqn:E.
  - apply Byte.to_of_N in E. rewrite E. lia.
  - apply Byte.of_N_None_iff in E. lia.
Qed.

Lemma Z_of_byte_inj a b : Z_of_byte a = Z_of_byte b -> a = b.
Proof. intros H. by rewrite <-(byte_of_Z_of_byte a), <-(byte_of_Z_of_byte b), H. Qed.

#[global] Instance byte_countable : Countable byte.
Proof.
  apply (inj_countable' Z_of_byte byte_of_Z), byte_of_Z_of_byte.
Defined.

(** * Fixed-size arrays *)

Abbreviation array n := (vec byte n).

(** [[0; N]] *)
Definition zeros (n : nat) : array n := Vector.const x00 n.

(** [arr.as_slice()] *)
Abbreviation slice v := (vec_to_list v).

(** [<[u8; N]>::try_from(slice)] *)
Fixpoint array_try_from (n : nat) (l : bytes) : option (array n) :=
  match n, l with
  | O, [] => Some [#]
  | S n, b :: l => vcons b <$> array_try_from n l
  | _, _ => None
  end.

Lemma array_try_from_slice n (v : array n) : array_try_from n (slice v) = Some v.
Proof. induction v as [|b n v IH]; simpl; [done|]. by rewrite IH. Qed.

(** Arrays as keys of finite maps, by an encoding that evaluates: eight bits
    for each byte. *)
Definition push_bit (b : bool) (p : positive) : positive := if b then xI p else xO p.
Definition pop_bit (p : positive) : option (bool * positive) :=
  match p with xI p => Some (true, p) | xO p => Some (false, p) | xH => None end.
Definition push_byte (b : byte) (p : positive) : positive :=
  let '(b0, (b1, (b2, (b3, (b4, (b5, (b6, b7))))))) := Byte.to_bits b in
  push_bit b0 (push_bit b1 (push_bit b2 (push_bit b3
    (push_bit b4 (push_bit b5 (push_bit b6 (push_bit b7 p))))))).
Definition pop_byte (p : positive) : option (byte * positive) :=
  '(b0, p) ← pop_bit p; '(b1, p) ← pop_bit p; '(b2, p) ← pop_bit p; '(b3, p) ← pop_bit p;
  '(b4, p) ← pop_bit p; '(b5, p) ← pop_bit p; '(b6, p) ← pop_bit p; '(b7, p) ← pop_bit p;
  Some (Byte.of_bits (b0, (b1, (b2, (b3, (b4, (b5, (b6, b7))))))), p).
Fixpoint pop_bytes (n : nat) (p : positive) : option (array n) :=
  match n with
  | O => Some [#]
  | S n => '(b, p) ← pop_byte p; v ← pop_bytes n p; Some (b ::: v)
  end.
Definition push_bytes {n} (v : array n) : positive := foldr push_byte xH (slice v).

Lemma pop_push_byte b p : pop_byte (push_byte b p) = Some (b, p).
Proof. by destruct b. Qed.

Lemma pop_push_bytes n (v : array n) : pop_bytes n (push_bytes v) = Some v.
Proof.
  unfold push_bytes. induction v as [|b n v IH]; [done|]. cbn [vec_to_list foldr pop_bytes].
  rewrite pop_push_byte. simpl. by rewrite IH.
Qed.

#[global] Instance array_countable n : Countable (array n) | 0 :=
  {| encode := push_bytes; decode := pop_bytes n; decode_encode := pop_push_bytes n |}.

Lemma array_try_from_Some n l (v : array n) :
  array_try_from n l = Some v <-> l = slice v.
Proof.
  split; [|intros ->; apply array_try_from_slice].
  revert l v. induction n as [|n IH]; intros [|c l] v; simpl; try done.
  - by inv_vec v.
  - destruct (array_try_from n l) as [w|] eqn:E; simpl; [|done].
    inv_vec v. intros b v [= -> H]%(f_equal (fmap (M:=option) vec_to_list)).
    simpl. f_equal. apply vec_to_list_inj2 in H as <-. by apply IH.
Qed.

Lemma array_try_from_is_Some n l :
  is_Some (array_try_from n l) <-> length l = n.
Proof.
  revert l. induction n as [|n IH]; intros [|b l]; simpl.
  - split; [done | by eexists].
  - split; [by intros [] | done].
  - split; [by intros [] | done].
  - rewrite fmap_is_Some, IH. split; lia.
Qed.

(** [A..++B..] split of an array into its first [n] bytes and the rest. *)
Lemma slice_app n m (v : array n) (w : array m) :
  slice (v +++ w) = slice v ++ slice w.
Proof. induction v; simpl; congruence. Qed.

Lemma slice_zeros n : slice (zeros n) = replicate n x00.
Proof. induction n; simpl; [done|]. unfold zeros in *. simpl. by rewrite IHn. Qed.

(** * Big-endian integers *)

(** [x.to_be_bytes()] for an integer of [n] bytes. *)
Fixpoint be_bytes (n : nat) (z : Z) : bytes :=
  match n with
  | O => []
  | S n => be_bytes n (z / 256) ++ [byte_of_Z z]
  end.

(** [uN::from_be_bytes(l)] *)
Definition be_value (l : bytes) : Z :=
  foldl (fun acc b => acc * 256 + Z_of_byte b) 0 l.

(** [iN::from_be_bytes(l)]: two's complement of the [n]-byte value. *)
Definition signed_of (n : nat) (z : Z) : Z :=
  if decide (z < 2 ^ (8 * Z.of_nat n - 1)) then z else z - 2 ^ (8 * Z.of_nat n).
Definition be_signed (l : bytes) : Z := signed_of (length l) (be_value l).

(** The array form of [to_be_bytes]. *)
Fixpoint be_array_acc (n : nat) (z : Z) : Z * array n :=
  match n with
  | O => (z, [#])
  | S n => let (q, v) := be_array_acc n z in (q / 256, byte_of_Z q ::: v)
  end.
Definition be_array (n : nat) (z : Z) : array n := (be_array_acc n z).2.

Lemma length_be_bytes n z : length (be_bytes n z) = n.
Proof.
  revert z. induction n as [|n IH]; intros z; simpl; [done|].
  rewrite length_app, IH. simpl. lia.
Qed.

Lemma be_value_snoc l b : be_value (l ++ [b]) = be_value l * 256 + Z_of_byte b.
Proof. unfold be_value. by rewrite foldl_app. Qed.

Lemma be_value_be_bytes n z : be_value (be_bytes n z) = z mod 256 ^ Z.of_nat n.
Proof.
  revert z. induction n as [|n IH]; intros z.
  - simpl. by rewrite Z.mod_1_r.
  - cbn [be_bytes]. rewrite be_value_snoc, IH, Z_of_byte_of_Z.
    rewrite Nat2Z.inj_succ, Z.pow_succ_r by lia.
    rewrite (Z.rem_mul_r z 256) by lia. lia.
Qed.

Lemma be_value_range l : 0 <= be_value l < 256 ^ zlen l.
Proof.
  induction l as [|b l IH] using rev_ind; [cbn; lia|].
  rewrite be_value_snoc, length_app, Nat2Z.inj_add. simpl length.
  rewrite Z.pow_add_r by lia. pose proof (Z_of_byte_range b). lia.
Qed.

Lemma be_bytes_be_value l : be_bytes (length l) (be_value l) = l.
Proof.
  induction l as [|b l IH] using rev_ind; [done|].
  rewrite length_app, Nat.add_comm, be_value_snoc. cbn [length Nat.add be_bytes].
  pose proof (Z_of_byte_range b) as Hb. f_equal; [|f_equal].
  - rewrite (Z.add_comm (_ * 256)), Z.div_add, Z.div_small by lia. done.
  - apply Z_of_byte_inj. rewrite Z_of_byte_of_Z.
    rewrite (Z.add_comm (_ * 256)), Z_mod_plus_full. by apply Z.mod_small.
Qed.

Lemma be_bytes_inj n a b :
  0 <= a < 256 ^ Z.of_nat n -> 0 <= b < 256 ^ Z.of_nat n ->
  be_bytes n a = be_bytes n b -> a = b.
Proof.
  intros Ha Hb H%(f_equal be_value).
  by rewrite !be_value_be_bytes, !Z.mod_small in H.
Qed.

Lemma be_value_inj l k : length l = length k -> be_value l = be_value k -> l = k.
Proof.
  intros Hl Hv. rewrite <-(be_bytes_be_value l), <-(be_bytes_be_value k). congruence.
Qed.

Lemma signed_of_mod (n : nat) (z : Z) :
  (0 < n)%nat ->
  - 2 ^ (8 * Z.of_nat n - 1) <= z < 2 ^ (8 * Z.of_nat n - 1) ->
  signed_of n (z mod 2 ^ (8 * Z.of_nat n)) = z.
Proof.
  intros Hn Hz. unfold signed_of.
  assert (2 ^ (8 * Z.of_nat n) = 2 * 2 ^ (8 * Z.of_nat n - 1)) as Hp.
  { rewrite <-Z.pow_succ_r by lia. f_equal. lia. }
  destruct (decide (0 <= z)).
  - rewrite Z.mod_small by lia. rewrite decide_True; lia.
  - replace (z mod _) with (z + 2 ^ (8 * Z.of_nat n)).
    + rewrite decide_False; lia.
    + apply Z.mod_unique_pos with (-1); lia.
Qed.

Lemma signed_of_range (n : nat) (z : Z) :
  (0 < n)%nat -> 0 <= z < 2 ^ (8 * Z.of_nat n) ->
  - 2 ^ (8 * Z.of_nat n - 1) <= signed_of n z < 2 ^ (8 * Z.of_nat n - 1).
Proof.
  intros Hn Hz. unfold signed_of.
  assert (2 ^ (8 * Z.of_nat n) = 2 * 2 ^ (8 * Z.of_nat n - 1)) as Hp.
  { rewrite <-Z.pow_succ_r by lia. f_equal. lia. }
  case_decide; lia.
Qed.

Lemma pow256 n : 256 ^ Z.of_nat n = 2 ^ (8 * Z.of_nat n).
Proof. rewrite Z.pow_mul_r by lia. done. Qed.

(** Reading back a signed integer written by [to_be_bytes]. *)
Lemma be_signed_be_bytes n z :
  (0 < n)%nat ->
  - 2 ^ (8 * Z.of_nat n - 1) <= z < 2 ^ (8 * Z.of_nat n - 1) ->
  be_signed (be_bytes n z) = z.
Proof.
  intros Hn Hz. unfold be_signed.
  rewrite length_be_bytes, be_value_be_bytes, pow256. by apply signed_of_mod.
Qed.

Lemma be_bytes_mod n z : be_bytes n (z mod 256 ^ Z.of_nat n) = be_bytes n z.
Proof.
  rewrite <-(be_value_be_bytes n z). rewrite <-(length_be_bytes n z) at 1.
  apply be_bytes_be_value.
Qed.

(** Writing a signed integer read by [from_be_bytes] gives the bytes back. *)
Lemma be_bytes_be_signed l : be_bytes (length l) (be_signed l) = l.
Proof.
  transitivity (be_bytes (length l) (be_value l)); [|apply be_bytes_be_value].
  unfold be_signed, signed_of. case_decide; [done|].
  rewrite <-pow256, <-be_bytes_mod, <-(Z_mod_plus_full (_ - _) 1).
  replace (_ - _ + _) with (be_value l) by lia. apply be_bytes_mod.
Qed.

Lemma be_bytes_cons n z :
  be_bytes (S n) z = byte_of_Z (z / 256 ^ Z.of_nat n) :: be_bytes n z.
Proof.
  revert z. induction n as [|n IH]; intros z.
  - simpl. by rewrite Z.div_1_r.
  - cbn [be_bytes]. cbn [be_bytes] in IH. rewrite IH.
    rewrite Nat2Z.inj_succ, Z.pow_succ_r, <-Z.div_div by lia. done.
Qed.

Lemma slice_be_array n z : slice (be_array n z) = be_bytes n z.
Proof.
  unfold be_array.
  enough ((be_array_acc n z).1 = z / 256 ^ Z.of_nat n /\
          slice (be_array_acc n z).2 = be_bytes n z) by naive_solver.
  induction n as [|n [IH1 IH2]]; [by rewrite Z.div_1_r|].
  rewrite be_bytes_cons. cbn [be_array_acc]. destruct (be_array_acc n z) as [q v].
  cbn in *. subst q. split; [|by rewrite IH2].
  rewrite Nat2Z.inj_succ, Z.pow_succ_r, Z.mul_comm, Z.div_div by lia. done.
Qed.

(** * Lexicographic order on byte strings ([Ord] of slices and arrays) *)

Fixpoint bytes_compare (a b : bytes) : comparison :=
  match a, b with
  | [], [] => Eq
  | [], _ :: _ => Lt
  | _ :: _, [] => Gt
  | x :: a, y :: b =>
      match Z.compare (Z_of_byte x) (Z_of_byte y) with
      | Eq => bytes_compare a b
      | c => c
      end
  end.

Definition bytes_lt (a b : bytes) : Prop := bytes_compare a b = Lt.
Definition bytes_le (a b : bytes) : Prop := bytes_compare a b <> Gt.

#[global] Instance bytes_lt_dec : RelDecision bytes_lt.
Proof. intros a b. unfold bytes_lt. solve_decision. Defined.
#[global] Instance bytes_le_dec : RelDecision bytes_le.
Proof. intros a b. unfold bytes_le. apply not_dec; solve_decision. Defined.

Lemma bytes_compare_eq a b : bytes_compare a b = Eq <-> a = b.
Proof.
  split; [|intros ->; induction b; simpl; [done|by rewrite Z.compare_refl]].
  revert b. induction a as [|x a IH]; intros [|y b]; simpl; try done.
  destruct (Z.compare_spec (Z_of_byte x) (Z_of_byte y)) as [E| |]; try done.
  intros H. f_equal; [by apply Z_of_byte_inj | by apply IH].
Qed.

Lemma bytes_compare_antisym a b : bytes_compare b a = CompOpp (bytes_compare a b).
Proof.
  revert b. induction a as [|x a IH]; intros [|y b]; simpl; try done.
  rewrite (Z.compare_antisym (Z_of_byte x)).
  destruct (Z.compare (Z_of_byte x) (Z_of_byte y)); simpl; auto.
Qed.

Lemma bytes_lt_irrefl a : ~ bytes_lt a a.
Proof. unfold bytes_lt. by rewrite (proj2 (bytes_compare_eq a a)). Qed.

Lemma bytes_lt_trans a b c : bytes_lt a b -> bytes_lt b c -> bytes_lt a c.
Proof.
  unfold bytes_lt. revert b c.
  induction a as [|x a IH]; intros [|y b] [|z c]; simpl; try done.
  destruct (Z.compare_spec (Z_of_byte x) (Z_of_byte y)) as [E1|L1|],
           (Z.compare_spec (Z_of_byte y) (Z_of_byte z)) as [E2|L2|]; try done.
  - rewrite E1, E2, Z.compare_refl. apply IH.
  - intros _ _. rewrite E1. by rewrite (proj2 (Z.compare_lt_iff _ _) L2).
  - intros _ _. rewrite <-E2. by rewrite (proj2 (Z.compare_lt_iff _ _) L1).
  - intros _ _. by rewrite (proj2 (Z.compare_lt_iff (Z_of_byte x) _)) by lia.
Qed.

Lemma bytes_le_lteq a b : bytes_le a b <-> bytes_lt a b \/ a = b.
Proof.
  unfold bytes_le, bytes_lt. rewrite <-bytes_compare_eq.
  destruct (bytes_compare a b); naive_solver.
Qed.

Lemma bytes_not_le a b : ~ bytes_le a b <-> bytes_lt b a.
Proof.
  unfold bytes_le, bytes_lt. rewrite (bytes_compare_antisym a b).
  destruct (bytes_compare a b); simpl; naive_solver.
Qed.

Lemma bytes_lt_total a b : bytes_lt a b \/ a = b \/ bytes_lt b a.
Proof.
  destruct (decide (bytes_le a b)) as [H|H].
  - apply bytes_le_lteq in H. naive_solver.
  - apply bytes_not_le in H. auto.
Qed.

#[global] Instance bytes_lt_strict : StrictOrder bytes_lt.
Proof. split; [exact bytes_lt_irrefl | exact bytes_lt_trans]. Qed.

#[global] Instance bytes_le_preorder : PreOrder bytes_le.
Proof.
  split; intros ?; intros; rewrite ?bytes_le_lteq in *; [by right|].
  destruct_or?; subst; eauto using bytes_lt_trans.
Qed.

#[global] Instance bytes_le_total : Total bytes_le.
Proof.
  intros a b. rewrite !bytes_le_lteq. pose proof (bytes_lt_total a b). naive_solver.
Qed.

(** The order of fixed-size arrays. *)
Definition array_lt {n} (a b : array n) : Prop := bytes_lt (slice a) (slice b).
Definition array_le {n} (a b : array n) : Prop := bytes_le (slice a) (slice b).
#[global] Instance array_lt_dec {n} : RelDecision (@array_lt n).
Proof. intros a b. unfold array_lt. apply _. Defined.
#[global] Instance array_le_dec {n} : RelDecision (@array_le n).
Proof. intros a b. unfold array_le. apply _. Defined.

#[global] Instance array_lt_strict {n} : StrictOrder (@array_lt n).
Proof.
  split; [intros a; apply bytes_lt_irrefl | intros a b c; apply bytes_lt_trans].
Qed.

#[global] Arguments zeros : simpl never.

(** [b"..."] byte-string literals. *)
Definition byte_string (s : string) : bytes := String.list_byte_of_string s.

(** [Uuid] is its sixteen bytes, ordered like them; the nil one is all zero. *)
Abbreviation uuid := (array 16).
Definition uuid_nil : uuid := zeros 16.
Definition is_nil (u : uuid) : Prop := u = uuid_nil.
#[global] Instance is_nil_dec u : Decision (is_nil u).
Proof. unfold is_nil. apply _. Defined.

(** [slice.strip_prefix(prefix)] *)
Fixpoint strip_prefix (prefix l : bytes) : option bytes :=
  match prefix, l with
  | [], _ => Some l
  | p :: prefix, b :: l => if decide (p = b) then strip_prefix prefix l else None
  | _ :: _, [] => None
  end.

Lemma strip_prefix_Some prefix l rest :
  strip_prefix prefix l = Some rest <-> l = prefix ++ rest.
Proof.
  revert l. induction prefix as [|p prefix IH]; intros [|b l]; simpl; try naive_solver.
  case_decide; [rewrite IH|]; naive_solver.
Qed.

#[global] Instance array_le_preorder {n} : PreOrder (@array_le n).
Proof.
  split; [by intros a; unfold array_le|].
  intros a b c. unfold array_le. apply bytes_le_preorder.
Qed.
#[global] Instance array_le_total {n} : Total (@array_le n).
Proof. intros a b. unfold array_le. apply bytes_le_total. Qed.

Lemma array_le_lteq {n} (a b : array n) : array_le a b <-> array_lt a b \/ a = b.
Proof.
  unfold array_le, array_lt. rewrite bytes_le_lteq.
  split; (intros [?|Heq]; [by left | right]); [|by subst].
  by apply vec_to_list_inj2 in Heq.
Qed.

#[global] Instance array_le_antisymm {n} : AntiSymm (=) (@array_le n).
Proof.
  intros a b [Hab|]%array_le_lteq Hba; [|done]. apply array_le_lteq in Hba as [Hba|]; [|done].
  by destruct (bytes_lt_irrefl (slice a)); eapply bytes_lt_trans.
Qed.

Lemma array_not_lt {n} (a b : array n) : ~ array_lt a b <-> array_le b a.
Proof.
  unfold array_lt, array_le. rewrite <-bytes_not_le. split; [apply dec_stable | tauto].
Qed.

(** * Sorted arrays of bytes *)

(** [slice.binary_search(x)]: the halving loop of the standard library on
    [size] elements from [base]; it ends after at most [fuel] halvings. *)
Fixpoint search_base {n} (fuel : nat) (l : list (array n)) (x : array n)
    (base size : nat) : nat :=
  match fuel with
  | O => base
  | S fuel =>
      if decide (size <= 1)%nat then base else
        let half := (size `div` 2)%nat in
        let mid := (base + half)%nat in
        let base := match l !! mid with
                    | Some y => if decide (array_lt x y) then base else mid
                    | None => base
                    end in
        search_base fuel l x base (size - half)
  end.
Definition binary_search {n} (l : list (array n)) (x : array n) : option nat :=
  let base := search_base (length l) l x 0 (length l) in
  match l !! base with
  | Some y => if decide (y = x) then Some base else None
  | None => None
  end.

Section binary_search.
Context {n : nat} (l : list (array n)) (x : array n).
Context (Hl : StronglySorted array_lt l).

Lemma sorted_index_lt i j a b :
  l !! i = Some a -> l !! j = Some b -> array_lt a b -> (i < j)%nat.
Proof using Hl.
  revert i j. induction Hl as [|y k Hk IH HF]; intros i j Hi Hj Hab; [done|].
  destruct i as [|i], j as [|j]; simplify_eq/=; try lia.
  - by apply bytes_lt_irrefl in Hab.
  - eapply Forall_lookup_1 in HF; [|done].
    destruct (bytes_lt_irrefl (slice a)). by eapply bytes_lt_trans.
  - assert (i < j)%nat by eauto. lia.
Qed.

Lemma sorted_lookup_inj i j a : l !! i = Some a -> l !! j = Some a -> i = j.
Proof using Hl.
  revert i j. induction Hl as [|y k Hk IH HF]; intros i j Hi Hj; [done|].
  destruct i as [|i], j as [|j]; simplify_eq/=; try done.
  - eapply Forall_lookup_1 in HF; [|done]. by apply bytes_lt_irrefl in HF.
  - eapply Forall_lookup_1 in HF; [|done]. by apply bytes_lt_irrefl in HF.
  - f_equal. eauto.
Qed.

(** The window still holds every position of the searched element. *)
Lemma search_base_spec fuel base size i :
  (size <= fuel)%nat -> (0 < size)%nat -> (base + size <= length l)%nat ->
  l !! i = Some x -> (base <= i < base + size)%nat ->
  search_base fuel l x base size = i.
Proof using Hl.
  revert base size. induction fuel as [|fuel IH]; intros base size Hf Hs Hb Hi Hr; [lia|].
  cbn [search_base].
  case_decide; [lia|].
  pose proof (Nat.div_lt size 2 ltac:(lia) ltac:(lia)).
  pose proof (Nat.Div0.mul_div_le size 2).
  assert (0 < size `div` 2)%nat by (enough (1 <= size `div` 2)%nat by lia; apply Nat.div_le_lower_bound; lia).
  destruct (l !! (base + size `div` 2)%nat) as [y|] eqn:Ey;
    [|apply lookup_ge_None in Ey; lia].
  case_decide as Hxy.
  - pose proof (sorted_index_lt _ _ _ _ Hi Ey Hxy). apply IH; try done; lia.
  - apply IH; try done; try lia. split; [|lia].
    apply array_not_lt in Hxy. apply array_le_lteq in Hxy as [Hyx| ->].
    + pose proof (sorted_index_lt _ _ _ _ Ey Hi Hyx). lia.
    + pose proof (sorted_lookup_inj _ _ _ Ey Hi). lia.
Qed.

(** On a strictly sorted slice the search finds exactly the members. *)
Lemma binary_search_member : is_Some (binary_search l x) <-> x ∈ l.
Proof using Hl.
  unfold binary_search. split.
  - intros [i H]. destruct (l !! _) eqn:E; [|done]. case_decide; [|done]. subst.
    by eapply list_elem_of_lookup_2.
  - intros [i Hi]%list_elem_of_lookup_1. pose proof (lookup_lt_Some _ _ _ Hi).
    rewrite (search_base_spec _ _ _ i) by (done || lia). rewrite Hi. by rewrite decide_True.
Qed.
End binary_search.
