(* ===== verification/RustStr.v ===== *)
(** Rust strings: a [str] is its sequence of Unicode scalar values, with the
    byte length, trimming and control-character tests of the standard library
    that the label checks of the protocol use. *)
From Stdlib Require Import ZArith Lia.
From S2P Require Import Prelude.

(** A [char] is its scalar value. *)
Abbreviation rstring := (list Z).

(** [char::len_utf8] *)
Definition len_utf8 (c : Z) : Z :=
  if decide (c < 128) then 1
  else if decide (c < 2048) then 2
  else if decide (c < 65536) then 3 else 4.

(** [str::len]: the number of UTF-8 bytes. *)
Definition str_len (s : rstring) : Z := foldr (fun c n => len_utf8 c + n) 0 s.

(** [char::is_whitespace]: the Unicode property White_Space. *)
Definition is_whitespace (c : Z) : Prop :=
  9 <= c <= 13 \/ c = 32 \/ c = 133 \/ c = 160 \/ c = 5760 \/
  8192 <= c <= 8202 \/ c = 8232 \/ c = 8233 \/ c = 8239 \/ c = 8287 \/ c = 12288.

(** [char::is_control]: the general category Cc. *)
Definition is_control (c : Z) : Prop := 0 <= c <= 31 \/ 127 <= c <= 159.

#[global] Instance is_whitespace_dec c : Decision (is_whitespace c).
Proof. unfold is_whitespace. apply _. Defined.
#[global] Instance is_control_dec c : Decision (is_control c).
Proof. unfold is_control. apply _. Defined.

Fixpoint trim_start (s : rstring) : rstring :=
  match s with
  | c :: s' => if decide (is_whitespace c) then trim_start s' else s
  | [] => []
  end.
Definition trim_end (s : rstring) : rstring := reverse (trim_start (reverse s)).

(** [str::trim] *)
Definition trim (s : rstring) : rstring := trim_end (trim_start s).

(** The shape shared by every label check of the protocol:
    [s.is_empty() || s.len() > max || s.trim() != s ||
     s.chars().any(char::is_control)]. *)
Definition bad_label (max : Z) (s : rstring) : Prop :=
  s = [] \/ str_len s > max \/ trim s <> s \/ Exists is_control s.

#[global] Instance bad_label_dec max s : Decision (bad_label max s).
Proof. unfold bad_label. apply _. Defined.

(** The string literals of the source are ASCII. *)
Definition ascii_str (s : string) : rstring :=
  (fun a => Z.of_N (Ascii.N_of_ascii a)) <$> String.list_ascii_of_string s.

Section lemmas.
Lemma trim_start_suffix s : exists p, s = p ++ trim_start s.
Proof.
  induction s as [|c s [p IH]]; simpl; [by exists []|].
  case_decide; [|by exists []]. exists (c :: p). by rewrite IH at 1.
Qed.

Lemma length_trim_start s : (length (trim_start s) <= length s)%nat.
Proof.
  destruct (trim_start_suffix s) as [p Hp].
  rewrite Hp at 2. rewrite length_app. lia.
Qed.

Lemma length_trim_end s : (length (trim_end s) <= length s)%nat.
Proof.
  unfold trim_end. rewrite length_reverse.
  etrans; [apply length_trim_start|]. by rewrite length_reverse.
Qed.

Lemma trim_start_fixed s :
  trim_start s = s <-> forall c, head s = Some c -> ~ is_whitespace c.
Proof.
  destruct s as [|c s]; simpl; [naive_solver|]. case_decide as Hc.
  - split; [|naive_solver]. intros H%(f_equal length).
    pose proof (length_trim_start s). simpl in H. lia.
  - naive_solver.
Qed.

Lemma trim_end_fixed s :
  trim_end s = s <-> forall c, last s = Some c -> ~ is_whitespace c.
Proof.
  unfold trim_end. rewrite <-head_reverse. rewrite <-trim_start_fixed.
  split; [intros H%(f_equal reverse); by rewrite reverse_involutive in H|].
  intros ->. apply reverse_involutive.
Qed.

(** A string equals its trimmed form when neither end is white space. *)
Lemma trim_fixed s :
  trim s = s <->
  (forall c, head s = Some c -> ~ is_whitespace c) /\
  (forall c, last s = Some c -> ~ is_whitespace c).
Proof.
  unfold trim. rewrite <-trim_start_fixed, <-trim_end_fixed. split.
  - intros H.
    assert (trim_start s = s) as Hs.
    { destruct (trim_start_suffix s) as [p Hp].
      pose proof (length_trim_end (trim_start s)) as Hl. rewrite H in Hl.
      rewrite Hp, length_app in Hl at 1.
      destruct p as [|c p]; simpl in *; [done|lia]. }
    by rewrite Hs in H.
  - by intros [-> ?].
Qed.

Lemma good_label max s :
  ~ bad_label max s <->
  s <> [] /\ str_len s <= max /\ trim s = s /\ Forall (fun c => ~ is_control c) s.
Proof.
  unfold bad_label. rewrite List.Forall_Exists_neg.
  destruct (decide (trim s = s)); [|naive_solver].
  destruct (decide (str_len s <= max)); naive_solver lia.
Qed.
End lemmas.
