(* ===== verification/External.v ===== *)
(** Interfaces of the code outside the repository: Postcard serialization and
    the cryptographic primitives.  The definitions of the development take
    them as class arguments; what the source relies on is stated as separate
    law classes, and [Toy] gives one concrete instance of everything so that
    witnesses evaluate. *)
From Stdlib Require Import ZArith Lia.
From S2P Require Import Prelude Bytes.

(** * Postcard *)

(** [postcard::Error] is only ever forwarded. *)
Inductive postcard_error : Type := PostcardError.
#[global] Instance postcard_error_eq_dec : EqDecision postcard_error.
Proof. solve_decision. Defined.

(** [postcard::to_stdvec] and [postcard::take_from_bytes]. *)
Class Postcard (T : Type) : Type := {
  to_stdvec : T -> result postcard_error bytes;
  take_from_bytes : bytes -> result postcard_error (T * bytes);
}.

(** Deserializing a serialized value gives it back and leaves what follows; a
    serialized value is a [Vec], whose length is a [usize]. *)
Class PostcardLaws (T : Type) `{!Postcard T} : Prop := {
  take_to_stdvec : forall (v : T) enc rest,
    to_stdvec v = Ok enc -> take_from_bytes (enc ++ rest) = Ok (v, rest);
  to_stdvec_len : forall (v : T) enc, to_stdvec v = Ok enc -> zlen enc <= u64_max;
}.

Section postcard_lemmas.
Context {T : Type} `{PostcardLaws T}.

Lemma take_to_stdvec_nil (v : T) enc :
  to_stdvec v = Ok enc -> take_from_bytes enc = Ok (v, []).
Proof. intros Hv. rewrite <-(app_nil_r enc). by apply take_to_stdvec. Qed.

(** Serialization is injective. *)
Lemma to_stdvec_inj (v w : T) enc : to_stdvec v = Ok enc -> to_stdvec w = Ok enc -> v = w.
Proof. intros Hv%take_to_stdvec_nil Hw%take_to_stdvec_nil. congruence. Qed.
End postcard_lemmas.

(** * Cryptographic primitives *)

(** SHA-256, Ed25519 ([ed25519-dalek]), X25519 and HPKE ([hpke]) and
    ChaCha20-Poly1305 ([chacha20poly1305]).  The ephemeral randomness that
    [single_shot_seal] draws is an argument. *)
Class Crypto : Type := {
  sha256 : bytes -> array 32;
  ed25519_key_valid : array 32 -> bool;
  ed25519_public : array 32 -> array 32;
  ed25519_sign : array 32 -> bytes -> array 64;
  ed25519_verify : array 32 -> bytes -> array 64 -> bool;
  x25519_secret_valid : array 32 -> bool;
  x25519_public_valid : array 32 -> bool;
  x25519_public : array 32 -> array 32;
  hpke_seal : array 32 -> bytes -> bytes -> bytes -> bytes -> option (array 32 * bytes);
  hpke_encapsulated_valid : array 32 -> bool;
  hpke_open : array 32 -> array 32 -> bytes -> bytes -> bytes -> option bytes;
  aead_encrypt : array 32 -> array 12 -> bytes -> bytes -> option bytes;
  aead_decrypt : array 32 -> array 12 -> bytes -> bytes -> option bytes;
}.

(** Documented behaviour of the primitives: a signature made with a secret key
    verifies under its public key, an authenticated ciphertext opens under the
    key, nonce and associated data it was made with and is sixteen bytes longer
    than its plaintext, and an HPKE ciphertext opens under the recipient's
    secret key. *)
Class CryptoLaws `{!Crypto} : Prop := {
  ed25519_public_valid sk : ed25519_key_valid (ed25519_public sk) = true;
  ed25519_correct sk msg :
    ed25519_verify (ed25519_public sk) msg (ed25519_sign sk msg) = true;
  x25519_public_is_valid sk :
    x25519_secret_valid sk = true -> x25519_public_valid (x25519_public sk) = true;
  hpke_correct sk info pt aad rnd enc ct :
    x25519_secret_valid sk = true ->
    hpke_seal (x25519_public sk) info pt aad rnd = Some (enc, ct) ->
    hpke_encapsulated_valid enc = true /\ hpke_open sk enc info ct aad = Some pt;
  aead_correct key nonce msg aad ct :
    aead_encrypt key nonce msg aad = Some ct ->
    aead_decrypt key nonce ct aad = Some msg;
  aead_length key nonce msg aad ct :
    aead_encrypt key nonce msg aad = Some ct -> zlen ct = zlen msg + 16;
}.

(** * Network addresses *)

(** [std::net::SocketAddr] with its textual form. *)
Class SocketAddrs : Type := {
  SocketAddr : Type;
  addr_to_string : SocketAddr -> string;
  addr_parse : string -> option SocketAddr;
}.
(** The textual form is parsed back. *)
Class SocketAddrsLaws `{!SocketAddrs} : Prop := {
  addr_parse_to_string a : addr_parse (addr_to_string a) = Some a;
}.

(** [entropy::random_nonzero]: draw until the value is not all zero.  The
    draws of the entropy source are the list; [None] means it was exhausted
    before the loop ended. *)
Fixpoint random_nonzero {n} (draws : list (array n)) : option (array n) :=
  match draws with
  | [] => None
  | d :: draws => if decide (d = zeros n) then random_nonzero draws else Some d
  end.

Lemma random_nonzero_spec {n} (draws : list (array n)) v :
  random_nonzero draws = Some v -> v <> zeros n /\ v ∈ draws.
Proof.
  induction draws as [|d draws IH]; simpl; [done|].
  case_decide; set_solver.
Qed.

Lemma random_nonzero_terminates {n} (draws : list (array n)) d :
  d ∈ draws -> d <> zeros n -> is_Some (random_nonzero draws).
Proof.
  induction draws as [|d' draws IH]; simpl; [by intros ?%not_elem_of_nil|].
  intros [->|Hd]%elem_of_cons Hz; case_decide; eauto. done.
Qed.
