(* ===== verification/Toy.v ===== *)
(** A concrete instance of the external interfaces, used by the witnesses to
    evaluate the development on closed inputs.  It is a self-delimiting
    serialization format and a set of keyed checksums that satisfy the laws of
    [External]; it models no security and nothing but witnesses uses it. *)
From Stdlib Require Import ZArith Lia.
From S2P Require Import Prelude Bytes External.

(** * Serialization *)

(** A format is an encoder and a prefix decoder. *)
Record format (T : Type) : Type := Format {
  f_enc : T -> bytes;
  f_dec : bytes -> option (T * bytes);
}.
Arguments Format {T} _ _.
Arguments f_enc {T} _ _.
Arguments f_dec {T} _ _.

Definition format_ok {T} (f : format T) : Prop :=
  forall v rest, f_dec f (f_enc f v ++ rest) = Some (v, rest).

(** Positives as their binary digits closed by a terminator byte. *)
Fixpoint enc_pos (p : positive) : bytes :=
  match p with
  | xH => [x02]
  | xO p => x00 :: enc_pos p
  | xI p => x01 :: enc_pos p
  end.
Fixpoint dec_pos (l : bytes) : option (positive * bytes) :=
  match l with
  | x02 :: l => Some (xH, l)
  | x00 :: l => match dec_pos l with Some (p, r) => Some (xO p, r) | None => None end
  | x01 :: l => match dec_pos l with Some (p, r) => Some (xI p, r) | None => None end
  | _ => None
  end.
Definition f_pos : format positive := Format enc_pos dec_pos.

Definition f_byte : format byte :=
  Format (fun b => [b]) (fun l => match l with b :: l => Some (b, l) | [] => None end).

(** Change of representation. *)
Definition f_iso {A B} (f : format A) (to : B -> A) (from : A -> option B) : format B :=
  Format (fun b => f_enc f (to b))
         (fun l => match f_dec f l with
                   | Some (a, r) => match from a with Some b => Some (b, r) | None => None end
                   | None => None
                   end).

Definition f_pair {A B} (f : format A) (g : format B) : format (A * B) :=
  Format (fun '(a, b) => f_enc f a ++ f_enc g b)
         (fun l => match f_dec f l with
                   | Some (a, r) =>
                       match f_dec g r with Some (b, r) => Some ((a, b), r) | None => None end
                   | None => None
                   end).

Definition f_Z : format Z :=
  f_iso f_pos (fun z => encode z) (fun p => decode p).
Definition f_nat : format nat :=
  f_iso f_pos Pos.of_succ_nat (fun p => Some (pred (Pos.to_nat p))).
Definition f_bool : format bool :=
  f_iso f_byte (fun b : bool => if b then x01 else x00)
        (fun b => match b with x01 => Some true | x00 => Some false | _ => None end).

Fixpoint dec_many {A} (f : format A) (n : nat) (l : bytes) : option (list A * bytes) :=
  match n with
  | O => Some ([], l)
  | S n =>
      match f_dec f l with
      | Some (a, r) => match dec_many f n r with
                       | Some (v, r) => Some (a :: v, r)
                       | None => None
                       end
      | None => None
      end
  end.
Definition f_list {A} (f : format A) : format (list A) :=
  Format (fun l => f_enc f_nat (length l) ++ concat (f_enc f <$> l))
         (fun l => match f_dec f_nat l with
                   | Some (n, r) => dec_many f n r
                   | None => None
                   end).
Definition f_option {A} (f : format A) : format (option A) :=
  f_iso (f_list f) (fun o => match o with Some a => [a] | None => [] end)
        (fun l => match l with [] => Some None | a :: _ => Some (Some a) end).
Definition f_array n : format (array n) :=
  Format (fun v => vec_to_list v)
         (fun l => match array_try_from n (take n l) with
                   | Some v => Some (v, drop n l)
                   | None => None
                   end).

(** The Postcard operations of a format. *)
Definition postcard_of {T} (f : format T) : Postcard T := {|
  to_stdvec v :=
    reject_if (zlen (f_enc f v) > u64_max) PostcardError then? Ok (f_enc f v);
  take_from_bytes l := ok_or (f_dec f l) PostcardError;
|}.

Create HintDb toy.

Lemma f_pos_ok : format_ok f_pos.
Proof. intros p rest. simpl. induction p as [p IH|p IH|]; simpl; by rewrite ?IH. Qed.
Lemma f_byte_ok : format_ok f_byte.
Proof. done. Qed.
Lemma f_iso_ok {A B} (f : format A) (to : B -> A) from :
  (forall b, from (to b) = Some b) -> format_ok f -> format_ok (f_iso f to from).
Proof. intros Hto Hf v rest. simpl. by rewrite Hf, Hto. Qed.
Lemma f_pair_ok {A B} (f : format A) (g : format B) :
  format_ok f -> format_ok g -> format_ok (f_pair f g).
Proof. intros Hf Hg [a b] rest. simpl. by rewrite <-app_assoc, Hf, Hg. Qed.
#[export] Hint Resolve f_pos_ok f_byte_ok f_pair_ok : toy.
Lemma f_Z_ok : format_ok f_Z.
Proof. apply f_iso_ok; [apply decode_encode | apply f_pos_ok]. Qed.
Lemma f_nat_ok : format_ok f_nat.
Proof. apply f_iso_ok; [|apply f_pos_ok]. intros n. f_equal. lia. Qed.
Lemma f_bool_ok : format_ok f_bool.
Proof. apply f_iso_ok; [by intros [] | apply f_byte_ok]. Qed.
Lemma f_list_ok {A} (f : format A) : format_ok f -> format_ok (f_list f).
Proof.
  intros Hf l rest. cbn [f_list f_enc f_dec]. rewrite <-app_assoc, f_nat_ok.
  enough (forall r, dec_many f (length l) (concat (f_enc f <$> l) ++ r) = Some (l, r)) by done.
  intros r. induction l as [|a l IH]; [done|]. cbn. by rewrite <-app_assoc, Hf, IH.
Qed.
#[export] Hint Resolve f_Z_ok f_nat_ok f_bool_ok f_list_ok : toy.
Lemma f_option_ok {A} (f : format A) : format_ok f -> format_ok (f_option f).
Proof. intros Hf. apply f_iso_ok; [by intros [] | auto with toy]. Qed.
Lemma f_array_ok n : format_ok (f_array n).
Proof.
  intros v rest. simpl. rewrite take_app_length', drop_app_length'
    by (by rewrite length_vec_to_list).
  by rewrite array_try_from_slice.
Qed.
#[export] Hint Resolve f_option_ok f_array_ok : toy.

Lemma postcard_of_laws {T} (f : format T) :
  format_ok f -> @PostcardLaws T (postcard_of f).
Proof.
  intros Hf. split.
  - intros v enc rest Hv. simpl in *. res_inv. by rewrite Hf.
  - intros v enc Hv. simpl in *. res_inv. lia.
Qed.

(** * Checksums *)

Definition toy_prime : Z := 2147483647.

Definition toy_hash (l : bytes) : array 32 :=
  be_array 32 (foldl (fun acc b => (acc * 31 + Z_of_byte b + 1) mod toy_prime) 1 l).

Definition toy_tag (l : bytes) : bytes := drop 16 (slice (toy_hash l)).

Definition toy_sign (sk : array 32) (msg : bytes) : array 64 :=
  sk +++ toy_hash (slice sk ++ msg).

Definition toy_aead (key : array 32) (nonce : array 12) (msg aad : bytes) : bytes :=
  msg ++ toy_tag (slice key ++ slice nonce ++ aad ++ msg).

#[export] Instance toy_crypto : Crypto := {|
  sha256 := toy_hash;
  ed25519_key_valid _ := true;
  ed25519_public sk := sk;
  ed25519_sign := toy_sign;
  ed25519_verify pk msg sig := bool_decide (sig = toy_sign pk msg);
  x25519_secret_valid _ := true;
  x25519_public_valid _ := true;
  x25519_public sk := sk;
  hpke_seal pk info pt aad rnd := Some (pk, pt ++ toy_tag (slice pk ++ info ++ aad ++ pt));
  hpke_encapsulated_valid _ := true;
  hpke_open sk enc info ct aad :=
    let pt := take (length ct - 16) ct in
    if decide (ct = pt ++ toy_tag (slice sk ++ info ++ aad ++ pt)) then Some pt else None;
  aead_encrypt key nonce msg aad := Some (toy_aead key nonce msg aad);
  aead_decrypt key nonce ct aad :=
    let msg := take (length ct - 16) ct in
    if decide (ct = toy_aead key nonce msg aad) then Some msg else None;
|}.

Lemma length_toy_tag l : length (toy_tag l) = 16%nat.
Proof. unfold toy_tag. by rewrite length_drop, length_vec_to_list. Qed.

Lemma take_tagged (msg l : bytes) :
  take (length (msg ++ toy_tag l) - 16) (msg ++ toy_tag l) = msg.
Proof.
  rewrite length_app, length_toy_tag, Nat.add_sub. apply take_app_length.
Qed.

#[export] Instance toy_crypto_laws : CryptoLaws.
Proof.
  split; simpl; try done.
  - intros. by apply bool_decide_eq_true.
  - intros ??????? _ [= <- <-]. split; [done|]. by rewrite take_tagged, decide_True.
  - intros key nonce msg aad ? [= <-].
    assert (take (length (toy_aead key nonce msg aad) - 16) (toy_aead key nonce msg aad)
            = msg) as -> by apply take_tagged.
    by rewrite decide_True.
  - intros ????? [= <-]. unfold toy_aead. rewrite length_app, length_toy_tag. lia.
Qed.

(** * Addresses *)

#[export] Instance toy_addrs : SocketAddrs :=
  {| SocketAddr := string; addr_to_string a := a; addr_parse := Some |}.
#[export] Instance toy_addrs_laws : SocketAddrsLaws.
Proof. by split. Qed.
