(* ===== verification/Cursor.v ===== *)
(** [crates/protocol/src/cursor.rs]: the binary format of cursor batches.  The
    encoder, the bounded reader and the decoder are executable and use no
    external code; the theorems state that they are inverse to each other,
    that decoding accepts canonical bytes only, and what a decoded batch
    satisfies. *)
From Stdlib Require Import ZArith Lia.
From S2P Require Import Prelude Bytes.

Definition MAX_CURSOR_PLAINTEXT_LEN : Z := 4 * 1024 * 1024.
Definition MAX_CURSOR_BITMAP_SIDE : Z := 512.
Definition CURSOR_BATCH_HEADER_LEN : Z := 14.
Definition CURSOR_EVENT_LEN : Z := 33.
Definition CURSOR_BITMAP_HEADER_LEN : Z := 20.

Inductive CursorError : Type := TooLarge | Malformed.
#[global] Instance CursorError_eq_dec : EqDecision CursorError.
Proof. solve_decision. Defined.

Record CursorBitmap : Type := {
  bitmap_width : Z;
  bitmap_height : Z;
  hotspot_x : Z;
  hotspot_y : Z;
  rgba : bytes;
}.

Record CursorEvent : Type := {
  timestamp : Z;
  x_micropixels : Z;
  y_micropixels : Z;
  visible : bool;
  bitmap_id : Z;
  bitmap : option CursorBitmap;
}.

Record CursorBatch : Type := {
  source_width : Z;
  source_height : Z;
  events : list CursorEvent;
}.

Record CursorContext : Type := {
  ctx_stream_id : uuid;
  ctx_epoch_id : uuid;
  ctx_sequence : Z;
  ctx_start_timestamp : Z;
  ctx_source_width : Z;
  ctx_source_height : Z;
}.

#[global] Instance CursorBitmap_eq_dec : EqDecision CursorBitmap.
Proof. solve_decision. Defined.
#[global] Instance CursorEvent_eq_dec : EqDecision CursorEvent.
Proof. solve_decision. Defined.
#[global] Instance CursorBatch_eq_dec : EqDecision CursorBatch.
Proof. solve_decision. Defined.

(** Integer types of the fields. *)
Definition i32_ok (z : Z) : Prop := - 2147483648 <= z <= 2147483647.
Definition bitmap_typed (b : CursorBitmap) : Prop :=
  u32_ok (bitmap_width b) /\ u32_ok (bitmap_height b) /\
  i32_ok (hotspot_x b) /\ i32_ok (hotspot_y b).
Definition event_typed (e : CursorEvent) : Prop :=
  u64_ok (timestamp e) /\ i64_ok (x_micropixels e) /\ i64_ok (y_micropixels e) /\
  u64_ok (bitmap_id e) /\
  match bitmap e with Some b => bitmap_typed b | None => True end.
Definition batch_typed (b : CursorBatch) : Prop :=
  u32_ok (source_width b) /\ u32_ok (source_height b) /\ Forall event_typed (events b).

(** * Validation *)

(** [encoded_len]: the length accumulated event by event, checked against the
    plaintext bound after each of them. *)
Fixpoint encoded_len_from (length : Z) (es : list CursorEvent) : result CursorError Z :=
  match es with
  | [] => Ok length
  | event :: es =>
      let? length := ok_or (u64_checked_add length CURSOR_EVENT_LEN) TooLarge in
      let? length :=
        match bitmap event with
        | Some b =>
            ok_or (value ← u64_checked_add length CURSOR_BITMAP_HEADER_LEN;
                   u64_checked_add value (zlen (rgba b))) TooLarge
        | None => Ok length
        end in
      reject_if (length > MAX_CURSOR_PLAINTEXT_LEN) TooLarge then?
      encoded_len_from length es
  end.

Definition encoded_len (batch : CursorBatch) : result CursorError Z :=
  let? _ := ok_or (u16_try_from (zlen (events batch))) TooLarge in
  encoded_len_from CURSOR_BATCH_HEADER_LEN (events batch).

Definition validate_bitmap (event : CursorEvent) (b : CursorBitmap) :
    result CursorError unit :=
  let expected_len :=
    pixels ← u64_checked_mul (bitmap_width b) (bitmap_height b);
    u64_checked_mul pixels 4 in
  reject_if
    (bitmap_id event = 0 \/ bitmap_width b = 0 \/ bitmap_height b = 0 \/
     bitmap_width b > MAX_CURSOR_BITMAP_SIDE \/
     bitmap_height b > MAX_CURSOR_BITMAP_SIDE \/
     hotspot_x b < 0 \/ hotspot_y b < 0 \/
     Z.abs (hotspot_x b) >= bitmap_width b \/
     Z.abs (hotspot_y b) >= bitmap_height b \/
     expected_len <> Some (zlen (rgba b)))
    Malformed.

Definition validate_event (max_x max_y : Z) (previous : option Z) (event : CursorEvent) :
    result CursorError unit :=
  reject_if (is_some_and (fun value => timestamp event < value) previous) Malformed then?
  (if visible event then
     reject_if (~ (0 <= x_micropixels event <= max_x) \/
                ~ (0 <= y_micropixels event <= max_y)) Malformed
   else
     reject_if (x_micropixels event <> 0 \/ y_micropixels event <> 0 \/
                is_Some (bitmap event)) Malformed) then?
  match bitmap event with
  | Some b => validate_bitmap event b
  | None => Ok tt
  end.

Fixpoint validate_events (max_x max_y : Z) (previous : option Z)
    (es : list CursorEvent) : result CursorError unit :=
  match es with
  | [] => Ok tt
  | event :: es =>
      validate_event max_x max_y previous event then?
      validate_events max_x max_y (Some (timestamp event)) es
  end.

Definition validate_cursor_batch (batch : CursorBatch) : result CursorError unit :=
  reject_if
    (source_width batch = 0 \/ source_height batch = 0 \/
     source_width batch > u16_max \/ source_height batch > u16_max \/
     events batch = []) Malformed then?
  let max_x := source_width batch * 1000000 in
  let max_y := source_height batch * 1000000 in
  validate_events max_x max_y None (events batch) then?
  encoded_len batch then?
  Ok tt.

Definition validate_cursor_context (batch : CursorBatch) (context : CursorContext) :
    result CursorError unit :=
  reject_if
    (is_nil (ctx_stream_id context) \/ is_nil (ctx_epoch_id context) \/
     source_width batch <> ctx_source_width context \/
     source_height batch <> ctx_source_height context \/
     (timestamp <$> head (events batch)) <> Some (ctx_start_timestamp context))
    Malformed.

(** * Encoding *)

Definition event_flags (event : CursorEvent) : Z :=
  Z.lor (Z.b2z (visible event))
        (Z.shiftl (Z.b2z (bool_decide (is_Some (bitmap event)))) 1).

Definition encode_bitmap (b : CursorBitmap) : result CursorError bytes :=
  let? rgba_len := ok_or (u32_try_from (zlen (rgba b))) TooLarge in
  Ok (be_bytes 4 (bitmap_width b) ++ be_bytes 4 (bitmap_height b) ++
      be_bytes 4 (hotspot_x b) ++ be_bytes 4 (hotspot_y b) ++
      be_bytes 4 rgba_len ++ rgba b).

Definition encode_event (event : CursorEvent) : result CursorError bytes :=
  let? tail :=
    match bitmap event with
    | Some b => encode_bitmap b
    | None => Ok []
    end in
  Ok (be_bytes 8 (timestamp event) ++ be_bytes 8 (x_micropixels event) ++
      be_bytes 8 (y_micropixels event) ++ [byte_of_Z (event_flags event)] ++
      be_bytes 8 (bitmap_id event) ++ tail).

Definition GCC1 : bytes := byte_string "GCC1".

Definition encode_cursor_batch (context : CursorContext) (batch : CursorBatch) :
    result CursorError bytes :=
  validate_cursor_batch batch then?
  validate_cursor_context batch context then?
  encoded_len batch then?
  let? event_count := ok_or (u16_try_from (zlen (events batch))) TooLarge in
  let? body := mapR encode_event (events batch) in
  Ok (GCC1 ++ be_bytes 4 (source_width batch) ++ be_bytes 4 (source_height batch) ++
      be_bytes 2 event_count ++ concat body).

(** * The bounded reader *)

Record Reader : Type := { r_bytes : bytes; r_offset : Z }.

Definition reader_new (l : bytes) : Reader := {| r_bytes := l; r_offset := 0 |}.

(** [bytes.get(start..end)] *)
Definition get_range (l : bytes) (start stop : Z) : option bytes :=
  if decide (start <= stop <= zlen l)
  then Some (take (Z.to_nat (stop - start)) (drop (Z.to_nat start) l)) else None.

Definition reader_take (r : Reader) (length : Z) : result CursorError (bytes * Reader) :=
  let? stop := ok_or (u64_checked_add (r_offset r) length) Malformed in
  let? value := ok_or (get_range (r_bytes r) (r_offset r) stop) Malformed in
  Ok (value, {| r_bytes := r_bytes r; r_offset := stop |}).

(** [take(n)?.try_into()] followed by [from_be_bytes] *)
Definition reader_array (n : nat) (r : Reader) : result CursorError (array n * Reader) :=
  let? (value, r) := reader_take r (Z.of_nat n) in
  let? value := ok_or (array_try_from n value) Malformed in
  Ok (value, r).
Definition reader_uint (n : nat) (r : Reader) : result CursorError (Z * Reader) :=
  let? (value, r) := reader_array n r in Ok (be_value (slice value), r).
Definition reader_int (n : nat) (r : Reader) : result CursorError (Z * Reader) :=
  let? (value, r) := reader_array n r in Ok (be_signed (slice value), r).

Definition reader_u8 (r : Reader) : result CursorError (Z * Reader) :=
  let? (value, r) := reader_take r 1 in
  let? b := ok_or (head value) Malformed in
  Ok (Z_of_byte b, r).
Definition reader_u16 := reader_uint 2.
Definition reader_u32 := reader_uint 4.
Definition reader_u64 := reader_uint 8.
Definition reader_i32 := reader_int 4.
Definition reader_i64 := reader_int 8.

Definition reader_is_empty (r : Reader) : Prop := r_offset r = zlen (r_bytes r).
Definition reader_remaining (r : Reader) : Z :=
  u64_saturating_sub (zlen (r_bytes r)) (r_offset r).
#[global] Instance reader_is_empty_dec r : Decision (reader_is_empty r).
Proof. unfold reader_is_empty. apply _. Defined.

(** * Decoding *)

Definition decode_bitmap (r : Reader) : result CursorError (CursorBitmap * Reader) :=
  let? (width, r) := reader_u32 r in
  let? (height, r) := reader_u32 r in
  let? (hx, r) := reader_i32 r in
  let? (hy, r) := reader_i32 r in
  let? (rgba_len, r) := reader_u32 r in
  let? (pixels, r) := reader_take r rgba_len in
  Ok ({| bitmap_width := width; bitmap_height := height;
         hotspot_x := hx; hotspot_y := hy; rgba := pixels |}, r).

Definition decode_event (r : Reader) : result CursorError (CursorEvent * Reader) :=
  let? (ts, r) := reader_u64 r in
  let? (x, r) := reader_i64 r in
  let? (y, r) := reader_i64 r in
  let? (flags, r) := reader_u8 r in
  reject_if (Z.land flags 252 <> 0) Malformed then?
  let? (id, r) := reader_u64 r in
  let? (bm, r) :=
    if decide (Z.land flags 2 <> 0)
    then let? (b, r) := decode_bitmap r in Ok (Some b, r)
    else Ok (None, r) in
  Ok ({| timestamp := ts; x_micropixels := x; y_micropixels := y;
         visible := bool_decide (Z.land flags 1 <> 0); bitmap_id := id; bitmap := bm |}, r).

Fixpoint decode_events (count : nat) (r : Reader) :
    result CursorError (list CursorEvent * Reader) :=
  match count with
  | O => Ok ([], r)
  | S count =>
      let? (event, r) := decode_event r in
      let? (es, r) := decode_events count r in
      Ok (event :: es, r)
  end.

Definition decode_cursor_batch (context : CursorContext) (input : bytes) :
    result CursorError CursorBatch :=
  reject_if (zlen input > MAX_CURSOR_PLAINTEXT_LEN) TooLarge then?
  let r := reader_new input in
  let? (magic, r) := reader_take r 4 in
  reject_if (magic <> GCC1) Malformed then?
  let? (width, r) := reader_u32 r in
  let? (height, r) := reader_u32 r in
  let? (event_count, r) := reader_u16 r in
  reject_if (reader_remaining r < u64_saturating_mul event_count CURSOR_EVENT_LEN)
    Malformed then?
  let? (es, r) := decode_events (Z.to_nat event_count) r in
  reject_if (~ reader_is_empty r) Malformed then?
  let batch := {| source_width := width; source_height := height; events := es |} in
  validate_cursor_batch batch then?
  validate_cursor_context batch context then?
  Ok batch.

(** * The reader against the bytes that remain *)

(** [reader_at r l]: the reader is in bounds and [l] is what it has not read. *)
Definition reader_at (r : Reader) (l : bytes) : Prop :=
  0 <= r_offset r <= zlen (r_bytes r) /\ zlen (r_bytes r) <= u64_max /\
  drop (Z.to_nat (r_offset r)) (r_bytes r) = l.

(** A reader operation parses the image of an encoder: it returns an admissible
    value on its encoding and leaves the tail, and whatever it returns is an
    admissible value whose encoding it consumed. *)
Record parses {A} (p : Reader -> result CursorError (A * Reader))
    (enc : A -> bytes) (ok : A -> Prop) : Prop := {
  parses_complete r a tail :
    ok a -> reader_at r (enc a ++ tail) -> exists r', p r = Ok (a, r') /\ reader_at r' tail;
  parses_sound r l a r' :
    reader_at r l -> p r = Ok (a, r') ->
    ok a /\ exists tail, l = enc a ++ tail /\ reader_at r' tail;
}.

Section reader.
Lemma reader_at_new l : zlen l <= u64_max -> reader_at (reader_new l) l.
Proof. intros. split; [simpl; lia | done]. Qed.

Lemma reader_at_remaining r l : reader_at r l -> reader_remaining r = zlen l.
Proof.
  intros (? & ? & <-). unfold reader_remaining. rewrite length_drop. ints.
Qed.

Lemma reader_at_empty r l : reader_at r l -> reader_is_empty r <-> l = [].
Proof.
  intros (? & ? & <-). unfold reader_is_empty. rewrite <-length_zero_iff_nil.
  rewrite length_drop. lia.
Qed.

Lemma reader_take_app r v tail :
  reader_at r (v ++ tail) ->
  exists r', reader_take r (zlen v) = Ok (v, r') /\ reader_at r' tail.
Proof.
  intros (Ho & Hb & Hl).
  assert (zlen (r_bytes r) = r_offset r + zlen v + zlen tail) as Hlen.
  { apply (f_equal length) in Hl. rewrite length_drop, length_app in Hl. lia. }
  unfold reader_take, u64_checked_add, get_range.
  rewrite decide_True by lia. simpl. rewrite decide_True by lia. simpl.
  eexists. split.
  - do 2 f_equal. rewrite Hl. replace (Z.to_nat _) with (length v) by lia.
    apply take_app_length.
  - split; [simpl; lia|]. split; [done|]. simpl.
    rewrite Z2Nat.inj_add, <-drop_drop, Hl, Nat2Z.id by lia. apply drop_app_length.
Qed.

Lemma reader_take_sound r l n v r' :
  reader_at r l -> reader_take r n = Ok (v, r') -> 0 <= n ->
  zlen v = n /\ exists tail, l = v ++ tail /\ reader_at r' tail.
Proof.
  intros (Ho & Hb & Hl) H Hn. unfold reader_take in H. res_inv. int_inv.
  unfold get_range in *. case_decide; simplify_eq.
  replace (_ + n - _) with n by lia.
  rewrite length_take, length_drop. split; [lia|].
  eexists. split; [by rewrite (take_drop (Z.to_nat n))|].
  split; [simpl; lia|]. split; [done|]. simpl.
  by rewrite Z2Nat.inj_add, <-drop_drop by lia.
Qed.

Lemma reader_array_parses n : parses (reader_array n) (fun v => slice v) (fun _ => True).
Proof.
  split.
  - intros r v tail _ H.
    destruct (reader_take_app _ _ _ H) as (r' & Hr & Hat). exists r'. split; [|done].
    unfold reader_array. rewrite length_vec_to_list in Hr. rewrite Hr. simpl.
    by rewrite array_try_from_slice.
  - intros r l v r' Hat H. unfold reader_array in H. res_inv. split_hyps. res_inv.
    match goal with H : array_try_from _ _ = _ |- _ =>
      apply array_try_from_Some in H; simplify_eq/= end.
    eapply reader_take_sound in Hat as (_ & ?); [|done|lia]. done.
Qed.

Lemma be_array_slice_value n (v : array n) : be_bytes n (be_value (slice v)) = slice v.
Proof. rewrite <-(length_vec_to_list v) at 1. apply be_bytes_be_value. Qed.

Lemma be_array_slice_signed n (v : array n) : be_bytes n (be_signed (slice v)) = slice v.
Proof. rewrite <-(length_vec_to_list v) at 1. apply be_bytes_be_signed. Qed.

Lemma reader_uint_parses n (ok : Z -> Prop) :
  (forall z, ok z <-> 0 <= z < 256 ^ Z.of_nat n) -> parses (reader_uint n) (be_bytes n) ok.
Proof.
  intros Hok. destruct (reader_array_parses n) as [Hc Hs]. split.
  - intros r z tail Hz%Hok H. rewrite <-slice_be_array in H.
    destruct (Hc _ _ _ I H) as (r' & Hr & ?). exists r'. split; [|done].
    unfold reader_uint. rewrite Hr. simpl.
    by rewrite slice_be_array, be_value_be_bytes, Z.mod_small.
  - intros r l z r' Hat H. unfold reader_uint in H.
    apply bind_Ok_inv in H as ([v r''] & Hr' & H). simplify_eq/=.
    destruct (Hs _ _ _ _ Hat Hr') as (_ & tail & ? & ?). rewrite be_array_slice_value. split; [|eauto].
    apply Hok. pose proof (be_value_range (slice v)) as Hr.
    by rewrite length_vec_to_list in Hr.
Qed.

Lemma reader_int_parses n (ok : Z -> Prop) :
  (0 < n)%nat ->
  (forall z, ok z <-> - 2 ^ (8 * Z.of_nat n - 1) <= z < 2 ^ (8 * Z.of_nat n - 1)) ->
  parses (reader_int n) (be_bytes n) ok.
Proof.
  intros Hn Hok. destruct (reader_array_parses n) as [Hc Hs]. split.
  - intros r z tail Hz%Hok H. rewrite <-slice_be_array in H.
    destruct (Hc _ _ _ I H) as (r' & Hr & ?). exists r'. split; [|done].
    unfold reader_int. rewrite Hr. simpl. by rewrite slice_be_array, be_signed_be_bytes.
  - intros r l z r' Hat H. unfold reader_int in H.
    apply bind_Ok_inv in H as ([v r''] & Hr' & H). simplify_eq/=.
    destruct (Hs _ _ _ _ Hat Hr') as (_ & tail & ? & ?). rewrite be_array_slice_signed. split; [|eauto].
    apply Hok. pose proof (be_value_range (slice v)) as Hr.
    unfold be_signed. rewrite length_vec_to_list in *. apply signed_of_range; [done|].
    by rewrite <-pow256.
Qed.

Lemma reader_u16_parses : parses reader_u16 (be_bytes 2) u16_ok.
Proof. apply reader_uint_parses. intros. ints. Qed.
Lemma reader_u32_parses : parses reader_u32 (be_bytes 4) u32_ok.
Proof. apply reader_uint_parses. intros. ints. Qed.
Lemma reader_u64_parses : parses reader_u64 (be_bytes 8) u64_ok.
Proof. apply reader_uint_parses. intros. ints. Qed.
Lemma reader_i32_parses : parses reader_i32 (be_bytes 4) i32_ok.
Proof. apply reader_int_parses; [lia|]. intros. unfold i32_ok. lia. Qed.
Lemma reader_i64_parses : parses reader_i64 (be_bytes 8) i64_ok.
Proof. apply reader_int_parses; [lia|]. intros. ints. Qed.

Lemma reader_u8_parses :
  parses reader_u8 (fun z => [byte_of_Z z]) (fun z => 0 <= z < 256).
Proof.
  split.
  - intros r z tail Hz H. destruct (reader_take_app _ [byte_of_Z z] _ H) as (r' & Hr & ?).
    exists r'. split; [|done]. unfold reader_u8. change (zlen [_]) with 1 in Hr. rewrite Hr. simpl.
    by rewrite Z_of_byte_of_Z, Z.mod_small.
  - intros r l z r' Hat H. unfold reader_u8 in H.
    apply bind_Ok_inv in H as ([b r''] & Hr' & H). res_inv.
    eapply reader_take_sound in Hat as (Hl & tail & -> & ?); [|done|lia].
    destruct b as [|c [|]]; simplify_eq/=; try lia.
    rewrite byte_of_Z_of_byte. split; [apply Z_of_byte_range | eauto].
Qed.

Lemma reader_take_parses n :
  0 <= n -> parses (fun r => reader_take r n) (fun v => v) (fun v => zlen v = n).
Proof.
  intros Hn. split.
  - intros r v tail <- H. by apply reader_take_app.
  - intros r l v r' Hat H. by eapply reader_take_sound.
Qed.

Lemma parses_bind_complete {A B} (p : Reader -> result CursorError (A * Reader))
    enc ok (k : A * Reader -> result CursorError (B * Reader)) r a rest (b : B) tail :
  parses p enc ok -> ok a -> reader_at r (enc a ++ rest) ->
  (forall r', reader_at r' rest -> exists r'', k (a, r') = Ok (b, r'') /\ reader_at r'' tail) ->
  exists r'', mbind k (p r) = Ok (b, r'') /\ reader_at r'' tail.
Proof.
  intros Hp Ha Hr Hk. destruct (parses_complete _ _ _ Hp _ _ _ Ha Hr) as (r' & -> & Hr').
  by apply Hk.
Qed.

Lemma parses_bind_sound {A B} (p : Reader -> result CursorError (A * Reader))
    enc ok (k : A * Reader -> result CursorError B) r l v :
  parses p enc ok -> reader_at r l -> mbind k (p r) = Ok v ->
  exists a r' rest, ok a /\ l = enc a ++ rest /\ reader_at r' rest /\ k (a, r') = Ok v.
Proof.
  intros Hp Hr H. apply bind_Ok_inv in H as ([a r'] & Ha & H).
  destruct (parses_sound _ _ _ Hp _ _ _ _ Hr Ha) as (? & rest & ? & ?). eauto 10.
Qed.
End reader.

#[export] Hint Resolve reader_u8_parses reader_u16_parses reader_u32_parses
  reader_u64_parses reader_i32_parses reader_i64_parses : glacial.

(** Run a chain of reads on an encoding, and read off a chain that succeeded. *)
Ltac parse_forward :=
  repeat (eapply parses_bind_complete;
          [solve [eauto with glacial] | | eassumption | ];
          [solve [eassumption | done | cbn beta; lia] |];
          intros ? ?; simpl).
Ltac parse_backward_step H :=
  let a := fresh "a" in let r := fresh "r" in let rest := fresh "rest" in
  let Hok := fresh "Hok" in let Heq := fresh "Heq" in let Hat := fresh "Hat" in
  eapply parses_bind_sound in H; [| solve [eauto with glacial] | eassumption];
  destruct H as (a & r & rest & Hok & Heq & Hat & H); simpl in H.
Ltac parse_backward H := repeat parse_backward_step H.

(** * Bitmaps and events *)

Definition bitmap_bytes (b : CursorBitmap) : bytes :=
  be_bytes 4 (bitmap_width b) ++ be_bytes 4 (bitmap_height b) ++
  be_bytes 4 (hotspot_x b) ++ be_bytes 4 (hotspot_y b) ++
  be_bytes 4 (zlen (rgba b)) ++ rgba b.

Definition bitmap_sized (b : CursorBitmap) : Prop :=
  bitmap_typed b /\ u32_ok (zlen (rgba b)).

Definition event_bytes (e : CursorEvent) : bytes :=
  be_bytes 8 (timestamp e) ++ be_bytes 8 (x_micropixels e) ++
  be_bytes 8 (y_micropixels e) ++ [byte_of_Z (event_flags e)] ++
  be_bytes 8 (bitmap_id e) ++ match bitmap e with Some b => bitmap_bytes b | None => [] end.

Definition event_sized (e : CursorEvent) : Prop :=
  event_typed e /\ is_none_or (fun b => u32_ok (zlen (rgba b))) (bitmap e).

#[global] Arguments be_bytes : simpl never.

Section events.
Lemma decode_bitmap_parses : parses decode_bitmap bitmap_bytes bitmap_sized.
Proof.
  split.
  - intros r b tail [(? & ? & ? & ?) ?] Hat. unfold decode_bitmap.
    unfold bitmap_bytes in Hat. rewrite <-!app_assoc in Hat.
    parse_forward.
    eapply (parses_bind_complete (fun r => reader_take r (zlen (rgba b))));
      [apply reader_take_parses; lia| |eassumption|]; [done|].
    intros rf Hrf. exists rf. by destruct b.
  - intros r l b r' Hat H. unfold decode_bitmap in H. parse_backward H.
    match type of H with context [reader_take _ ?n] =>
      eapply (parses_bind_sound (fun r => reader_take r n)) in H;
      [|apply reader_take_parses; unfold u32_ok in *; lia|eassumption] end.
    destruct H as (v & ? & ? & ? & ? & ? & ?). simplify_eq/=.
    split; [by repeat split; simpl; unfold u32_ok, i32_ok in *; lia|].
    eexists. split; [|eassumption]. unfold bitmap_bytes. simpl. by rewrite <-?app_assoc.
Qed.

Lemma event_flags_range e : 0 <= event_flags e < 4.
Proof. unfold event_flags. case_bool_decide; destruct (visible e); by vm_compute. Qed.

Lemma event_flags_bits e :
  Z.land (event_flags e) 252 = 0 /\
  bool_decide (Z.land (event_flags e) 1 <> 0) = visible e /\
  (Z.land (event_flags e) 2 <> 0 <-> is_Some (bitmap e)).
Proof.
  unfold event_flags. destruct (bitmap e), (visible e); vm_compute; naive_solver.
Qed.

(** A flag byte without reserved bits is the one of the decoded event. *)
Lemma event_flags_decoded e z :
  0 <= z < 256 -> Z.land z 252 = 0 ->
  visible e = bool_decide (Z.land z 1 <> 0) ->
  (is_Some (bitmap e) <-> Z.land z 2 <> 0) ->
  event_flags e = z.
Proof.
  intros Hz H Hv Hb.
  assert (z < 4) as Hlt.
  { replace z with (Z.land z (Z.lor 252 3)).
    - rewrite Z.land_lor_distr_r, H. change 3 with (Z.ones 2).
      rewrite Z.lor_0_l, Z.land_ones by lia. apply Z.mod_pos_bound. lia.
    - change (Z.lor 252 3) with (Z.ones 8). rewrite Z.land_ones by lia.
      by apply Z.mod_small. }
  unfold event_flags. rewrite Hv.
  assert (z = 0 \/ z = 1 \/ z = 2 \/ z = 3) as Hcase by lia.
  destruct_or! Hcase; subst; simpl in *; case_bool_decide; try done; naive_solver.
Qed.

Lemma decode_event_parses : parses decode_event event_bytes event_sized.
Proof.
  split.
  - intros r e tail [(? & ? & ? & ? & Hb) Hs] Hat. unfold decode_event.
    unfold event_bytes in Hat. rewrite <-!app_assoc in Hat.
    destruct (event_flags_bits e) as (Hf & Hv & Hbm). pose proof (event_flags_range e).
    parse_forward. rewrite reject_if_false by (intros []; done). simpl. parse_forward.
    destruct (bitmap e) as [b|] eqn:Eb.
    + rewrite decide_True by naive_solver.
      destruct (parses_complete _ _ _ decode_bitmap_parses _ b tail ltac:(by split)
                  ltac:(eassumption)) as (r'' & -> & ?).
      exists r''. split; [|done]. simpl. rewrite Hv, <-Eb. by destruct e.
    + rewrite decide_False by (intros []%Hbm; done). simpl. eexists. split; [|eassumption].
      rewrite Hv, <-Eb. by destruct e.
  - intros r l e r' Hat H. unfold decode_event in H. parse_backward H.
    apply bind_Ok_inv in H as (? & Hf & H). apply reject_if_Ok, dec_stable in Hf.
    parse_backward H.
    case_decide as Hbit.
    + apply bind_Ok_inv in H as ([bm r5] & H5 & H). apply bind_Ok_inv in H5 as ([b r6] & H6 & H5).
      destruct (parses_sound _ _ _ decode_bitmap_parses _ _ _ _ ltac:(eassumption) H6)
        as ([? ?] & rest' & ? & ?). simplify_eq/=.
      split; [unfold event_sized, event_typed; simpl; tauto|]. exists rest'. split; [|done].
      unfold event_bytes. rewrite (event_flags_decoded _ a2) by (simpl; naive_solver).
      simpl. by rewrite <-?app_assoc.
    + simplify_eq/=. split; [unfold event_sized, event_typed; simpl; tauto|]. eexists. split; [|eassumption].
      unfold event_bytes. rewrite (event_flags_decoded _ a2) by (simpl; naive_solver).
      simpl. by rewrite <-?app_assoc.
Qed.
End events.

(** * Batches *)

Definition events_bytes (es : list CursorEvent) : bytes := concat (event_bytes <$> es).

Definition batch_bytes (b : CursorBatch) : bytes :=
  GCC1 ++ be_bytes 4 (source_width b) ++ be_bytes 4 (source_height b) ++
  be_bytes 2 (zlen (events b)) ++ events_bytes (events b).

Section batches.
Lemma decode_events_parses n :
  parses (decode_events n) events_bytes (fun es => Forall event_sized es /\ length es = n).
Proof.
  induction n as [|n [IHc IHs]]; split.
  - intros r es tail [_ ->%length_zero_iff_nil] Hat. simpl. eauto.
  - intros r l es r' Hat [= <- <-]. split; [done|]. by exists l.
  - intros r es tail [Hok Hn] Hat. destruct es as [|e es]; [done|].
    inversion_clear Hok as [|? ? He Hes]. injection Hn as Hn.
    unfold events_bytes in Hat. cbn in Hat. rewrite <-app_assoc in Hat.
    destruct (parses_complete _ _ _ decode_event_parses _ _ _ He Hat) as (r1 & Hr1 & Hat1).
    destruct (IHc _ _ _ (conj Hes Hn) Hat1) as (r2 & Hr2 & Hat2).
    exists r2. split; [|done]. simpl. rewrite Hr1. simpl. by rewrite Hr2.
  - intros r l es r' Hat H. simpl in H.
    apply bind_Ok_inv in H as ([e r1] & H1 & H). apply bind_Ok_inv in H as ([es' r2] & H2 & H).
    destruct (parses_sound _ _ _ decode_event_parses _ _ _ _ Hat H1) as (He & t1 & -> & Hat1).
    destruct (IHs _ _ _ _ Hat1 H2) as ([Hes Hn] & t2 & -> & Hat2). simplify_eq/=.
    split; [by split; [constructor|]|]. exists t2. split; [|done].
    unfold events_bytes. cbn. by rewrite <-app_assoc.
Qed.

Lemma length_event_bytes e :
  zlen (event_bytes e) =
  CURSOR_EVENT_LEN +
  match bitmap e with Some b => CURSOR_BITMAP_HEADER_LEN + zlen (rgba b) | None => 0 end.
Proof.
  unfold event_bytes, bitmap_bytes, CURSOR_EVENT_LEN, CURSOR_BITMAP_HEADER_LEN.
  destruct (bitmap e); rewrite ?length_app, ?length_be_bytes; simpl; lia.
Qed.

(** [encoded_len_from] is the exact length and checks the bound at each event. *)
Lemma encoded_len_from_Ok len es n :
  encoded_len_from len es = Ok n ->
  n = len + zlen (events_bytes es) /\ (es <> [] -> n <= MAX_CURSOR_PLAINTEXT_LEN).
Proof.
  revert len. induction es as [|e es IH]; intros len H; simpl in H.
  - simplify_eq. split; [unfold events_bytes; simpl; lia | done].
  - apply bind_Ok_inv in H as (l1 & H1 & H). apply ok_or_Ok in H1. int_inv.
    apply bind_Ok_inv in H as (l2 & H2 & H). apply bind_Ok_inv in H as (? & H3 & H).
    apply reject_if_Ok in H3. apply IH in H as (-> & Hn).
    assert (l2 = len + zlen (event_bytes e)) as ->.
    { rewrite length_event_bytes. destruct (bitmap e); [|simplify_eq; lia].
      apply ok_or_Ok, bind_Some in H2 as (? & ? & ?). int_inv. lia. }
    unfold events_bytes in *. cbn. rewrite length_app. split; [lia|]. intros _.
    destruct es; [|by apply Hn]. simpl in *. lia.
Qed.

Lemma batch_bytes_length b :
  zlen (batch_bytes b) = CURSOR_BATCH_HEADER_LEN + zlen (events_bytes (events b)).
Proof.
  unfold batch_bytes, CURSOR_BATCH_HEADER_LEN. rewrite !length_app, !length_be_bytes.
  simpl. lia.
Qed.

Lemma encoded_len_Ok b n :
  encoded_len b = Ok n ->
  n = zlen (batch_bytes b) /\ u16_ok (zlen (events b)) /\
  (events b <> [] -> n <= MAX_CURSOR_PLAINTEXT_LEN).
Proof.
  unfold encoded_len. intros H. res_inv. int_inv.
  apply encoded_len_from_Ok in H as [-> ?]. by rewrite batch_bytes_length.
Qed.

(** What validation establishes of one event. *)
Definition event_valid (max_x max_y : Z) (e : CursorEvent) : Prop :=
  (if visible e then 0 <= x_micropixels e <= max_x /\ 0 <= y_micropixels e <= max_y
   else x_micropixels e = 0 /\ y_micropixels e = 0 /\ bitmap e = None) /\
  is_none_or (fun b =>
    bitmap_id e <> 0 /\ 0 < bitmap_width b <= MAX_CURSOR_BITMAP_SIDE /\
    0 < bitmap_height b <= MAX_CURSOR_BITMAP_SIDE /\
    0 <= hotspot_x b < bitmap_width b /\ 0 <= hotspot_y b < bitmap_height b /\
    zlen (rgba b) = bitmap_width b * bitmap_height b * 4) (bitmap e).

Lemma validate_bitmap_Ok e b :
  bitmap_typed b -> validate_bitmap e b = Ok tt ->
  bitmap_id e <> 0 /\ 0 < bitmap_width b <= MAX_CURSOR_BITMAP_SIDE /\
  0 < bitmap_height b <= MAX_CURSOR_BITMAP_SIDE /\
  0 <= hotspot_x b < bitmap_width b /\ 0 <= hotspot_y b < bitmap_height b /\
  zlen (rgba b) = bitmap_width b * bitmap_height b * 4.
Proof.
  intros Ht H. destruct Ht as (? & ? & ? & ?). unfold validate_bitmap in H. apply reject_if_Ok in H.
  nor_inv. apply bind_Some in H as (? & ? & ?). int_inv. unfold u32_ok, i32_ok in *. lia.
Qed.

Lemma validate_event_Ok mx my prev e :
  event_typed e -> validate_event mx my prev e = Ok tt ->
  event_valid mx my e /\ is_none_or (fun t => t <= timestamp e) prev.
Proof.
  intros (_ & _ & _ & _ & Ht) H. unfold validate_event in H.
  apply bind_Ok_inv in H as ([] & H1%reject_if_Ok & H).
  apply bind_Ok_inv in H as ([] & H2 & H). split; [split|].
  - destruct (visible e); apply reject_if_Ok in H2; nor_inv.
    + done.
    + by rewrite <-eq_None_not_Some in H2.
  - destruct (bitmap e); [|done]. by apply validate_bitmap_Ok.
  - destruct prev; simpl in *; lia.
Qed.

Lemma validate_events_Ok mx my prev es :
  Forall event_typed es -> validate_events mx my prev es = Ok tt ->
  Forall (event_valid mx my) es /\
  Sorted Z.le (option_list prev ++ (timestamp <$> es)).
Proof.
  intros Ht. revert prev. induction Ht as [|e es He Ht IH]; intros prev H; simpl in H.
  - split; [done|]. destruct prev; simpl; repeat constructor.
  - apply bind_Ok_inv in H as ([] & H1 & H).
    apply validate_event_Ok in H1 as [? ?]; [|done]. apply IH in H as [? HS].
    split; [by constructor|]. destruct prev; simpl in *; [|done]. constructor; [done|by constructor].
Qed.
End batches.

Section cursor_theorems.
Context (context : CursorContext).

(** What a validated batch satisfies. *)
Definition batch_valid (b : CursorBatch) : Prop :=
  0 < source_width b <= u16_max /\ 0 < source_height b <= u16_max /\
  events b <> [] /\ u16_ok (zlen (events b)) /\
  Forall (event_valid (source_width b * 1000000) (source_height b * 1000000)) (events b) /\
  Sorted Z.le (timestamp <$> events b) /\
  zlen (batch_bytes b) <= MAX_CURSOR_PLAINTEXT_LEN.

Lemma validate_cursor_batch_Ok b :
  batch_typed b -> validate_cursor_batch b = Ok tt ->
  batch_valid b /\ encoded_len b = Ok (zlen (batch_bytes b)).
Proof.
  intros Ht H. destruct Ht as (Hw & Hh & Ht). unfold validate_cursor_batch in H.
  apply bind_Ok_inv in H as ([] & H1%reject_if_Ok & H).
  apply bind_Ok_inv in H as ([] & H2 & H). apply bind_Ok_inv in H as (n & H3 & _).
  pose proof H3 as (-> & Hc & Hmax)%encoded_len_Ok. split; [|done].
  apply validate_events_Ok in H2 as [Hv HS]; [|done]. simpl in HS.
  unfold batch_valid, u32_ok in *. nor_inv. split_and!; try done; try lia. auto.
Qed.

Lemma event_valid_sized mx my e : event_typed e -> event_valid mx my e -> event_sized e.
Proof.
  intros Ht [_ Hb]. split; [done|]. destruct (bitmap e) as [b|]; [|done]. simpl in *.
  destruct Hb as (_ & Hw & Hh & _ & _ & ->). unfold MAX_CURSOR_BITMAP_SIDE in *. unfold_ints. nia.
Qed.

Lemma encode_event_sized e : event_sized e -> encode_event e = Ok (event_bytes e).
Proof.
  intros [_ Hs]. unfold encode_event, event_bytes, encode_bitmap, bitmap_bytes.
  destruct (bitmap e) as [b|]; simpl in *; [|done].
  assert (u32_try_from (zlen (rgba b)) = Some (zlen (rgba b))) as ->
    by by apply u32_try_from_Some.
  done.
Qed.

Lemma encode_event_Ok e out : encode_event e = Ok out -> out = event_bytes e.
Proof.
  unfold encode_event, event_bytes, encode_bitmap, bitmap_bytes.
  destruct (bitmap e) as [b|]; simpl; [|by intros [= <-]].
  intros H. res_inv. int_inv. done.
Qed.

Lemma encode_events_sized es :
  Forall event_sized es -> mapR encode_event es = Ok (event_bytes <$> es).
Proof.
  intros Hs. apply mapR_Ok, Forall2_fmap_r, Forall_Forall2_diag.
  eapply Forall_impl; [done|]. apply encode_event_sized.
Qed.

Lemma encode_cursor_batch_bytes b :
  batch_typed b -> validate_cursor_batch b = Ok tt ->
  validate_cursor_context b context = Ok tt ->
  encode_cursor_batch context b = Ok (batch_bytes b).
Proof.
  intros Ht Hv Hc. pose proof (validate_cursor_batch_Ok _ Ht Hv) as [Hb Hlen].
  unfold encode_cursor_batch. rewrite Hv, Hc, Hlen. simpl.
  destruct Hb as (_ & _ & _ & Hn & Hes & _ & _). destruct Ht as (_ & _ & Ht).
  assert (u16_try_from (zlen (events b)) = Some (zlen (events b))) as ->
    by by apply u16_try_from_Some.
  simpl. rewrite encode_events_sized; [done|].
  apply Forall_forall. intros e He. eapply event_valid_sized;
    [by eapply Forall_forall in Ht | by eapply Forall_forall in Hes].
Qed.

Lemma encode_cursor_batch_Ok b out :
  encode_cursor_batch context b = Ok out ->
  validate_cursor_batch b = Ok tt /\ validate_cursor_context b context = Ok tt.
Proof.
  unfold encode_cursor_batch. intros H.
  apply bind_Ok_inv in H as ([] & H1 & H). by apply bind_Ok_inv in H as ([] & H2 & H).
Qed.

Lemma decode_batch_bytes b :
  batch_typed b -> validate_cursor_batch b = Ok tt ->
  validate_cursor_context b context = Ok tt ->
  decode_cursor_batch context (batch_bytes b) = Ok b.
Proof.
  intros Ht Hv Hc. pose proof (validate_cursor_batch_Ok _ Ht Hv) as [Hb _].
  destruct Hb as (Hw & Hh & _ & Hn & Hes & _ & Hmax). destruct Ht as (Hwt & Hht & Ht).
  unfold decode_cursor_batch. rewrite reject_if_false by lia. cbn [mbind result_bind].
  assert (reader_at (reader_new (batch_bytes b)) (batch_bytes b)) as Hat.
  { apply reader_at_new. unfold MAX_CURSOR_PLAINTEXT_LEN in *. ints. }
  unfold batch_bytes in Hat at 2.
  destruct (reader_take_app _ _ _ Hat) as (r1 & E1 & Hat1).
  change (zlen GCC1) with 4 in E1. rewrite E1. cbn [mbind result_bind].
  rewrite reject_if_false by (intros []; done). cbn [mbind result_bind].
  destruct (parses_complete _ _ _ reader_u32_parses _ _ _ Hwt Hat1) as (r2 & -> & Hat2). simpl.
  destruct (parses_complete _ _ _ reader_u32_parses _ _ _ Hht Hat2) as (r3 & -> & Hat3). simpl.
  destruct (parses_complete _ _ _ reader_u16_parses _ _ _ Hn Hat3) as (r4 & -> & Hat4). simpl.
  rewrite (reader_at_remaining _ _ Hat4).
  assert (zlen (events b) * CURSOR_EVENT_LEN <= zlen (events_bytes (events b))) as Hlow.
  { unfold events_bytes. clear. induction (events b) as [|e es IH]; [done|].
    cbn. rewrite length_app. pose proof (length_event_bytes e) as He.
    unfold CURSOR_EVENT_LEN, CURSOR_BITMAP_HEADER_LEN in *.
    destruct (bitmap e); cbn in *; lia. }
  rewrite reject_if_false by (unfold u64_saturating_mul; lia). simpl.
  rewrite Nat2Z.id.
  assert (Forall event_sized (events b)) as Hs.
  { apply Forall_forall. intros e He. eapply event_valid_sized;
    [by eapply Forall_forall in Ht | by eapply Forall_forall in Hes]. }
  rewrite <-(app_nil_r (events_bytes _)) in Hat4.
  destruct (parses_complete _ _ _ (decode_events_parses _) _ _ _ (conj Hs eq_refl) Hat4)
    as (r5 & -> & Hat5). simpl.
  rewrite reject_if_false by (intros Hne; by apply Hne, (reader_at_empty _ _ Hat5)). simpl.
  destruct b. simpl in *. by rewrite Hv, Hc.
Qed.

Lemma decode_cursor_batch_sound b input :
  decode_cursor_batch context input = Ok b ->
  batch_typed b /\ input = batch_bytes b /\ validate_cursor_batch b = Ok tt /\
  validate_cursor_context b context = Ok tt.
Proof.
  unfold decode_cursor_batch. intros H.
  apply bind_Ok_inv in H as ([] & H1%reject_if_Ok & H).
  assert (reader_at (reader_new input) input) as Hat.
  { apply reader_at_new. unfold MAX_CURSOR_PLAINTEXT_LEN in *. ints. }
  apply bind_Ok_inv in H as ([m r1] & E1 & H).
  apply (reader_take_sound _ _ _ _ _ Hat) in E1 as (_ & t1 & -> & Hat1); [|lia].
  apply bind_Ok_inv in H as ([] & H2%reject_if_Ok%dec_stable & H). subst m.
  parse_backward H.
  apply bind_Ok_inv in H as ([] & H3 & H). apply bind_Ok_inv in H as ([es r5] & E2 & H).
  destruct (parses_sound _ _ _ (decode_events_parses _) _ _ _ _ ltac:(eassumption) E2)
    as ([Hes Hn] & t5 & ? & Hat5).
  apply bind_Ok_inv in H as ([] & H4%reject_if_Ok%dec_stable & H).
  apply (reader_at_empty _ _ Hat5) in H4 as ->.
  apply bind_Ok_inv in H as ([] & Hv & H). apply bind_Ok_inv in H as ([] & Hc & [= <-]).
  simplify_eq. split_and!; try done.
  - split_and!; try done. eapply Forall_impl; [done|]. by intros ? [].
  - unfold batch_bytes. simpl. rewrite app_nil_r, Hn, Z2Nat.id by (unfold u16_ok in *; lia).
    done.
Qed.

(** C36: decoding and encoding of cursor batches are inverse: the decoder
    returns a batch exactly on the canonical encoding of that batch, for
    every context and every input. *)
Theorem cursor_decode_iff_encode b input :
  decode_cursor_batch context input = Ok b <->
  batch_typed b /\ encode_cursor_batch context b = Ok input.
Proof.
  split.
  - intros (Ht & -> & Hv & Hc)%decode_cursor_batch_sound.
    split; [done|]. by apply encode_cursor_batch_bytes.
  - intros [Ht H]. pose proof (encode_cursor_batch_Ok _ _ H) as [Hv Hc].
    rewrite encode_cursor_batch_bytes in H by done. simplify_eq.
    by apply decode_batch_bytes.
Qed.

(** A decoded batch matches its context and satisfies the invariant of
    the format: bounded dimensions, a nonempty and bounded list of events
    with nondecreasing timestamps, positions inside the source, and bitmaps
    whose size, hotspot and pixel length agree. *)
Theorem cursor_decoded_valid b input :
  decode_cursor_batch context input = Ok b ->
  batch_valid b /\ source_width b = ctx_source_width context /\
  source_height b = ctx_source_height context /\
  timestamp <$> head (events b) = Some (ctx_start_timestamp context).
Proof.
  intros (Ht & -> & Hv & Hc)%decode_cursor_batch_sound.
  split; [by apply validate_cursor_batch_Ok|].
  unfold validate_cursor_context in Hc. apply reject_if_Ok in Hc. nor_inv. done.
Qed.

(** Every validated batch encodes, within the plaintext bound, to the
    length that [encoded_len] computes without building the encoding. *)
Theorem cursor_validated_encodes b :
  batch_typed b -> validate_cursor_batch b = Ok tt ->
  validate_cursor_context b context = Ok tt ->
  exists out, encode_cursor_batch context b = Ok out /\
    encoded_len b = Ok (zlen out) /\ zlen out <= MAX_CURSOR_PLAINTEXT_LEN.
Proof.
  intros Ht Hv Hc. exists (batch_bytes b). split; [by apply encode_cursor_batch_bytes|].
  apply validate_cursor_batch_Ok in Hv as [Hb ?]; [|done]. split; [done|]. apply Hb.
Qed.
End cursor_theorems.

(** A batch with a visible event carrying a bitmap and a hidden one. *)
Definition sample_context : CursorContext := {|
  ctx_stream_id := Vector.const x01 16; ctx_epoch_id := Vector.const x02 16;
  ctx_sequence := 1; ctx_start_timestamp := 10;
  ctx_source_width := 1920; ctx_source_height := 1080 |}.
Definition sample_batch : CursorBatch := {|
  source_width := 1920; source_height := 1080;
  events := [
    {| timestamp := 10; x_micropixels := 5000000; y_micropixels := 0; visible := true;
       bitmap_id := 7;
       bitmap := Some {| bitmap_width := 1; bitmap_height := 2; hotspot_x := 0;
                         hotspot_y := 1; rgba := replicate 8 xff |} |};
    {| timestamp := 12; x_micropixels := 0; y_micropixels := 0; visible := false;
       bitmap_id := 0; bitmap := None |}] |}.

Lemma sample_batch_typed : batch_typed sample_batch.
Proof.
  unfold batch_typed, event_typed, bitmap_typed. cbn. split_and!; try ints.
  repeat constructor; simpl; unfold i32_ok; ints.
Qed.

Lemma cursor_decoded_valid_witness :
  exists input, batch_valid sample_batch /\
    decode_cursor_batch sample_context input = Ok sample_batch.
Proof.
  exists (batch_bytes sample_batch).
  assert (decode_cursor_batch sample_context (batch_bytes sample_batch) = Ok sample_batch)
    as H by (vm_compute; reflexivity).
  split; [|exact H]. exact (proj1 (cursor_decoded_valid _ _ _ H)).
Defined.

Lemma cursor_validated_encodes_witness :
  exists out, encode_cursor_batch sample_context sample_batch = Ok out /\
    encoded_len sample_batch = Ok (zlen out) /\ zlen out <= MAX_CURSOR_PLAINTEXT_LEN.
Proof.
  apply cursor_validated_encodes;
    [exact sample_batch_typed | vm_compute; reflexivity | vm_compute; reflexivity].
Defined.
