(* ===== verification/Identity.v ===== *)
(** [crates/protocol/src/identity.rs]: application identities, the
    domain-separated signing digest and the private identity file.

    Serialization and the primitives are the parameters of [External].  The
    theorems state that the signed preimage determines the domain and the
    value, that what a secret signs its public identity verifies, and that the
    identity file round-trips and accepts nothing else. *)
From Stdlib Require Import ZArith Lia.
From S2P Require Import Prelude Bytes External Toy.

Definition IDENTITY_VERSION : Z := 1.
Definition IDENTITY_ID_LEN : nat := 32.
Definition IDENTITY_KEY_LEN : nat := 32.
Definition SIGNATURE_LEN : nat := 64.

Definition IDENTITY_FILE_MAGIC : bytes := byte_string "GCIK1".
Definition SIGNATURE_PREFIX : bytes := byte_string "glacialcast-signature-v1".
Definition IDENTITY_FINGERPRINT_PREFIX : bytes := byte_string "glacialcast-identity-v1".

(** * Signatures *)

Record SignatureBytes : Type := { first : array 32; second : array 32 }.
#[global] Instance SignatureBytes_eq_dec : EqDecision SignatureBytes.
Proof. solve_decision. Defined.

Definition signature_from_bytes (l : array 64) : SignatureBytes :=
  let (first, second) := Vector.splitat 32 (r := 32) l in
  {| first := first; second := second |}.
Definition signature_to_bytes (s : SignatureBytes) : array 64 := first s +++ second s.

Inductive IdentityError : Type :=
| IdentityUnsupportedVersion (version : Z)
| InvalidKey
| IdentityInvalidSignature
| IdentityPostcard (e : postcard_error)
| IdentityIo.
#[global] Instance IdentityError_eq_dec : EqDecision IdentityError.
Proof. solve_decision. Defined.

(** * Public identities *)

Record IdentityPublic : Type := {
  id_version : Z;
  signing_key : array 32;
  kem_key : array 32;
}.
#[global] Instance IdentityPublic_eq_dec : EqDecision IdentityPublic.
Proof. solve_decision. Defined.

Record StoredIdentity : Type := {
  stored_version : Z;
  stored_signing_secret : array 32;
  stored_kem_secret : array 32;
}.

Record IdentitySecret : Type := {
  signing_secret : array 32;
  kem_secret : array 32;
}.
#[global] Instance IdentitySecret_eq_dec : EqDecision IdentitySecret.
Proof. solve_decision. Defined.

Section identity.
Context `{crypto : !Crypto}.

Definition identity_validate (id : IdentityPublic) : result IdentityError unit :=
  reject_if (id_version id <> IDENTITY_VERSION)
    (IdentityUnsupportedVersion (id_version id)) then?
  reject_if (ed25519_key_valid (signing_key id) = false) InvalidKey then?
  reject_if (kem_key id = zeros 32) InvalidKey then?
  reject_if (x25519_public_valid (kem_key id) = false) InvalidKey.

(** [verifying_key] and [kem_public_key] return the decoded key, which is
    determined by its 32 bytes. *)
Definition verifying_key (id : IdentityPublic) : result IdentityError (array 32) :=
  identity_validate id then?
  reject_if (ed25519_key_valid (signing_key id) = false) InvalidKey then?
  Ok (signing_key id).
Definition kem_public_key (id : IdentityPublic) : result IdentityError (array 32) :=
  identity_validate id then?
  reject_if (x25519_public_valid (kem_key id) = false) InvalidKey then?
  Ok (kem_key id).

Definition identity_id `{!Postcard IdentityPublic} (id : IdentityPublic) :
    result IdentityError (array 32) :=
  identity_validate id then?
  let? encoded := map_err IdentityPostcard (to_stdvec id) in
  Ok (sha256 (IDENTITY_FINGERPRINT_PREFIX ++ encoded)).

(** ** Signing *)

Definition canonical {T} `{!Postcard T} (value : T) : result IdentityError bytes :=
  map_err IdentityPostcard (to_stdvec value).

(** The bytes that [signing_digest] feeds to the hash. *)
Definition signing_preimage (domain encoded : bytes) : bytes :=
  SIGNATURE_PREFIX ++ be_bytes 2 (zlen domain) ++ domain ++
  be_bytes 8 (zlen encoded) ++ encoded.

Definition signing_digest {T} `{!Postcard T} (domain : bytes) (value : T) :
    result IdentityError (array 32) :=
  let? encoded := canonical value in
  let? _ := ok_or (u16_try_from (zlen domain)) InvalidKey in
  Ok (sha256 (signing_preimage domain encoded)).

Definition sign {T} `{!Postcard T} (secret : IdentitySecret) (domain : bytes)
    (value : T) : result IdentityError SignatureBytes :=
  let? digest := signing_digest domain value in
  Ok (signature_from_bytes (ed25519_sign (signing_secret secret) (slice digest))).

Definition verify {T} `{!Postcard T} (identity : IdentityPublic) (domain : bytes)
    (value : T) (signature : SignatureBytes) : result IdentityError unit :=
  let? digest := signing_digest domain value in
  let? key := verifying_key identity in
  reject_if (ed25519_verify key (slice digest) (signature_to_bytes signature) = false)
    IdentityInvalidSignature.

(** ** Secrets *)

Definition identity_public (s : IdentitySecret) : result IdentityError IdentityPublic :=
  reject_if (x25519_secret_valid (kem_secret s) = false) InvalidKey then?
  let kem_key := x25519_public (kem_secret s) in
  reject_if (kem_key = zeros 32) InvalidKey then?
  Ok {| id_version := IDENTITY_VERSION;
        signing_key := ed25519_public (signing_secret s);
        kem_key := kem_key |}.

Definition kem_private_key (s : IdentitySecret) : result IdentityError (array 32) :=
  reject_if (x25519_secret_valid (kem_secret s) = false) InvalidKey then?
  Ok (kem_secret s).

Definition from_private_bytes (signing kem : array 32) :
    result IdentityError IdentitySecret :=
  reject_if (signing = zeros 32 \/ kem = zeros 32) InvalidKey then?
  let identity := {| signing_secret := signing; kem_secret := kem |} in
  identity_public identity then?
  Ok identity.

(** [generate]: the draws of the entropy source and the secret that
    [Kem::gen_keypair] produced are arguments. *)
Definition identity_generate (draws : list (array 32)) (kem : array 32) :
    option IdentitySecret :=
  signing ← random_nonzero draws;
  Some {| signing_secret := signing; kem_secret := kem |}.

(** ** The identity file *)

Context `{!Postcard StoredIdentity}.

Definition identity_encode (s : IdentitySecret) : result IdentityError bytes :=
  let stored := {| stored_version := IDENTITY_VERSION;
                   stored_signing_secret := signing_secret s;
                   stored_kem_secret := kem_secret s |} in
  let? payload := map_err IdentityPostcard (to_stdvec stored) in
  Ok (IDENTITY_FILE_MAGIC ++ payload).

Definition identity_decode (l : bytes) : result IdentityError IdentitySecret :=
  let? payload := ok_or (strip_prefix IDENTITY_FILE_MAGIC l) InvalidKey in
  let? (stored, remainder) := map_err IdentityPostcard (take_from_bytes payload) in
  reject_if (remainder <> []) InvalidKey then?
  reject_if (stored_version stored <> IDENTITY_VERSION)
    (IdentityUnsupportedVersion (stored_version stored)) then?
  reject_if (stored_signing_secret stored = zeros 32 \/
             stored_kem_secret stored = zeros 32) InvalidKey then?
  from_private_bytes (stored_signing_secret stored) (stored_kem_secret stored).

(** [load_or_create_identity] against the outcomes of the file operations:
    the first read, the exclusive creation and the read after losing the
    race to another creator.  The result also says what was created. *)
Inductive read_outcome : Type := ReadOk (l : bytes) | ReadNotFound | ReadFailed.
Inductive create_outcome : Type := Created | CreateExists | CreateFailed.

Definition load_or_create_identity (first_read : read_outcome)
    (generated : IdentitySecret) (create : bytes -> create_outcome)
    (second_read : read_outcome) : result IdentityError IdentitySecret :=
  match first_read with
  | ReadOk l => identity_decode l
  | ReadFailed => Err IdentityIo
  | ReadNotFound =>
      let? encoded := identity_encode generated in
      match create encoded with
      | Created => Ok generated
      | CreateExists =>
          match second_read with
          | ReadOk l => identity_decode l
          | ReadNotFound | ReadFailed => Err IdentityIo
          end
      | CreateFailed => Err IdentityIo
      end
  end.

(** * Theorems *)

Context `{crypto_laws : !CryptoLaws}.

Lemma signature_bytes_round s : signature_to_bytes (signature_from_bytes s) = s.
Proof.
  unfold signature_to_bytes, signature_from_bytes.
  destruct (Vector.splitat 32 (r := 32) s) as [v w] eqn:E.
  by rewrite (Vector.append_splitat v w s E).
Qed.

Lemma signing_preimage_inj d e d' e' :
  zlen d <= u16_max -> zlen d' <= u16_max -> zlen e <= u64_max -> zlen e' <= u64_max ->
  signing_preimage d e = signing_preimage d' e' -> d = d' /\ e = e'.
Proof.
  intros ???? H. unfold signing_preimage in H. apply app_inv_head in H.
  apply app_inj_1 in H as [Hd H]; [|by rewrite !length_be_bytes].
  apply be_bytes_inj in Hd; [|ints..].
  apply app_inj_1 in H as [-> H]; [|lia].
  by apply app_inj_1 in H as [_ ->]; [|by rewrite !length_be_bytes].
Qed.

Lemma signing_digest_Ok {T} `{!Postcard T} d (v : T) h :
  signing_digest d v = Ok h <->
  exists e, to_stdvec v = Ok e /\ zlen d <= u16_max /\ h = sha256 (signing_preimage d e).
Proof.
  unfold signing_digest, canonical. split.
  - intros H. res_inv. int_inv. unfold u16_ok in *. naive_solver.
  - intros (e & -> & Hd & ->). simpl.
    assert (u16_try_from (zlen d) = Some (zlen d)) as -> by (apply u16_try_from_Some; ints).
    done.
Qed.

Lemma identity_public_Ok s p :
  identity_public s = Ok p ->
  x25519_secret_valid (kem_secret s) = true /\ x25519_public (kem_secret s) <> zeros 32 /\
  p = {| id_version := IDENTITY_VERSION; signing_key := ed25519_public (signing_secret s);
         kem_key := x25519_public (kem_secret s) |}.
Proof.
  unfold identity_public. intros H. res_inv. by apply not_false_iff_true in H0.
Qed.

(** The public identity of a secret is valid. *)
Lemma identity_public_valid s p :
  identity_public s = Ok p -> identity_validate p = Ok tt /\
    verifying_key p = Ok (ed25519_public (signing_secret s)).
Proof.
  intros (Hv & Hz & ->)%identity_public_Ok.
  assert (forall i, signing_key i = ed25519_public (signing_secret s) ->
    kem_key i = x25519_public (kem_secret s) -> id_version i = IDENTITY_VERSION ->
    identity_validate i = Ok tt) as Hval.
  { intros i Hs Hk Hi. unfold identity_validate. rewrite Hs, Hk, Hi.
    rewrite ed25519_public_valid, x25519_public_is_valid by done.
    rewrite !reject_if_false by done. done. }
  split; [by apply Hval|]. unfold verifying_key. rewrite Hval by done. simpl.
  by rewrite ed25519_public_valid.
Qed.

Lemma verify_Ok {T} `{!Postcard T} id d (v : T) sig :
  verify id d v sig = Ok tt <->
  exists h k, signing_digest d v = Ok h /\ verifying_key id = Ok k /\
    ed25519_verify k (slice h) (signature_to_bytes sig) = true.
Proof.
  unfold verify. split.
  - intros H. res_inv. eexists _, _. by apply not_false_iff_true in H.
  - intros (h & k & -> & -> & H). simpl. by rewrite H.
Qed.

(** Two given inputs that SHA-256 does not tell apart. *)
Definition collides (x y : bytes) : Prop := x <> y /\ sha256 x = sha256 y.

(** Equal signing digests of two values of one type mean the same domain
    and the same value, unless the two inputs that are hashed collide: a
    signature for one protocol step cannot be read as a signature for another. *)
Theorem signing_digest_binds {T} `{!Postcard T, !PostcardLaws T} d1 d2 (v1 v2 : T) e1 e2 h :
  to_stdvec v1 = Ok e1 -> to_stdvec v2 = Ok e2 ->
  signing_digest d1 v1 = Ok h -> signing_digest d2 v2 = Ok h ->
  (d1 = d2 /\ v1 = v2) \/ collides (signing_preimage d1 e1) (signing_preimage d2 e2).
Proof.
  intros Henc1 Henc2 (e1' & H1 & Hd1 & E1)%signing_digest_Ok (e2' & H2 & Hd2 & E2)%signing_digest_Ok.
  rewrite H1 in Henc1. rewrite H2 in Henc2. injection Henc1 as ->. injection Henc2 as ->.
  destruct (decide (signing_preimage d1 e1 = signing_preimage d2 e2)) as [E|E].
  - left. apply signing_preimage_inj in E as [-> ->]; eauto using to_stdvec_len.
    split; [done|]. by eapply to_stdvec_inj.
  - right. split; [done|]. by rewrite <-E1.
Qed.

(** What a secret identity signs, its public identity verifies under the
    same domain and value. *)
Lemma sign_verify {T} `{!Postcard T} s p d (v : T) sig :
  identity_public s = Ok p -> sign s d v = Ok sig -> verify p d v sig = Ok tt.
Proof.
  intros Hp Hs. unfold sign in Hs. res_inv. apply verify_Ok.
  apply identity_public_valid in Hp as [_ Hk]. eexists _, _. split_and!; [done..|].
  rewrite signature_bytes_round. apply ed25519_correct.
Qed.

Lemma from_private_bytes_Ok a b s :
  from_private_bytes a b = Ok s <->
  a <> zeros 32 /\ b <> zeros 32 /\ s = {| signing_secret := a; kem_secret := b |} /\
  exists p, identity_public s = Ok p.
Proof.
  unfold from_private_bytes. split.
  - intros H. res_inv. naive_solver.
  - intros (Ha & Hb & -> & p & Hp). rewrite reject_if_false by tauto. simpl. by rewrite Hp.
Qed.

(** The private identity file round-trips: what an admissible secret
    encodes to is decoded to that secret, and is refused as soon as a byte
    follows it. *)
Theorem identity_file_roundtrip `{!PostcardLaws StoredIdentity} s l rest :
  from_private_bytes (signing_secret s) (kem_secret s) = Ok s ->
  identity_encode s = Ok l ->
  identity_decode (l ++ rest) = if decide (rest = []) then Ok s else Err InvalidKey.
Proof.
  intros Hs He. unfold identity_encode in He. res_inv. unfold identity_decode.
  erewrite (proj2 (strip_prefix_Some _ _ _)) by (by rewrite <-app_assoc).
  simpl. erewrite take_to_stdvec by done. simpl.
  pose proof Hs as (? & ? & _)%from_private_bytes_Ok.
  unfold reject_if. repeat case_decide; naive_solver.
Qed.
End identity.

(** ** Witnesses *)

Definition f_identity_public : format IdentityPublic :=
  f_iso (f_pair f_Z (f_pair (f_array 32) (f_array 32)))
    (fun i => (id_version i, (signing_key i, kem_key i)))
    (fun '(v, (s, k)) =>
       Some {| id_version := v; signing_key := s; kem_key := k |}).
Definition f_stored_identity : format StoredIdentity :=
  f_iso (f_pair f_Z (f_pair (f_array 32) (f_array 32)))
    (fun i => (stored_version i, (stored_signing_secret i, stored_kem_secret i)))
    (fun '(v, (s, k)) =>
       Some {| stored_version := v; stored_signing_secret := s; stored_kem_secret := k |}).
#[local] Instance toy_stored : Postcard StoredIdentity := postcard_of f_stored_identity.
#[local] Instance toy_identity_public : Postcard IdentityPublic :=
  postcard_of f_identity_public.
#[local] Instance toy_stored_laws : PostcardLaws StoredIdentity.
Proof. apply postcard_of_laws, f_iso_ok; [by intros [] | auto with toy]. Defined.

Lemma f_identity_public_ok : format_ok f_identity_public.
Proof. apply f_iso_ok; [by intros [] | auto with toy]. Qed.
#[export] Hint Resolve f_identity_public_ok : toy.

Definition sample_secret : IdentitySecret :=
  {| signing_secret := Vector.const x05 32; kem_secret := Vector.const x06 32 |}.
Definition sample_public : IdentityPublic :=
  {| id_version := 1; signing_key := Vector.const x05 32; kem_key := Vector.const x06 32 |}.
#[local] Instance toy_nat_bytes : Postcard bytes := postcard_of (f_list f_byte).
#[local] Instance toy_bytes_laws : PostcardLaws bytes.
Proof. apply postcard_of_laws. auto with toy. Defined.

Lemma signing_digest_binds_witness :
  exists h e, signing_digest (byte_string "domain") [x01] = Ok h /\ to_stdvec [x01] = Ok e /\
  ((byte_string "domain" = byte_string "domain" /\ [x01] = [x01]) \/
   collides (signing_preimage (byte_string "domain") e) (signing_preimage (byte_string "domain") e)).
Proof.
  do 2 eexists. split; [vm_compute; reflexivity|]. split; [vm_compute; reflexivity|].
  eapply signing_digest_binds; vm_compute; reflexivity.
Defined.

Lemma identity_file_roundtrip_witness :
  exists l, identity_decode (l ++ []) = Ok sample_secret /\
            identity_decode (l ++ [x00]) = Err InvalidKey.
Proof.
  eexists. split.
  - refine (eq_trans (identity_file_roundtrip sample_secret _ [] _ _) _);
      vm_compute; reflexivity.
  - refine (eq_trans (identity_file_roundtrip sample_secret _ [x00] _ _) _);
      vm_compute; reflexivity.
Defined.
