(* ===== verification/Credential.v ===== *)
(** [crates/protocol/src/credential.rs]: the offline certificate authority,
    credential requests, role credentials and signed revocation lists.

    Time and randomness are arguments.  The theorems state that issuing and
    verifying agree, what an accepted credential is bound to, that revocation
    by binary search is exactly membership of the serial, and that the codecs
    accept canonical bytes only. *)
From Stdlib Require Import ZArith Lia.
From S2P Require Import Prelude Bytes RustStr External Toy Identity.

Definition CREDENTIAL_VERSION : Z := 1.
Definition MAX_CREDENTIAL_SUBJECT_LEN : Z := 128.
Definition MAX_REVOKED_SERIALS : Z := 16384.
Definition REQUEST_DOMAIN : bytes := byte_string "glacialcast-credential-request-v1".
Definition CREDENTIAL_DOMAIN : bytes := byte_string "glacialcast-native-credential-v1".
Definition REVOCATION_DOMAIN : bytes := byte_string "glacialcast-native-crl-v1".
Definition AUTHORITY_ID_DOMAIN : bytes := byte_string "glacialcast-native-ca-v1".
Definition AUTHORITY_FILE_MAGIC : bytes := byte_string "GCCA1".
Definition CLOCK_SKEW_MS : Z := 5 * 60 * 1000.
Definition MAX_CREDENTIAL_LIFETIME_MS : Z := 10 * 366 * 24 * 60 * 60 * 1000.

Inductive CredentialRole : Type := RolePublisher | RoleViewer.
#[global] Instance CredentialRole_eq_dec : EqDecision CredentialRole.
Proof. solve_decision. Defined.

Inductive CredentialError : Type :=
| CredUnsupportedVersion (version : Z)
| InvalidMetadata (what : string)
| CredInvalidSignature
| WrongIssuer
| WrongRole
| NotYetValid
| Expired
| Revoked
| WrongNoiseKey
| CredIdentity (e : IdentityError)
| CredPostcard (e : postcard_error)
| CredIo.
#[global] Instance CredentialError_eq_dec : EqDecision CredentialError.
Proof. solve_decision. Defined.

Definition validate_subject (subject : rstring) : result CredentialError unit :=
  reject_if (bad_label MAX_CREDENTIAL_SUBJECT_LEN subject)
    (InvalidMetadata "invalid subject").

Definition validate_time_range (not_before_ms not_after_ms : Z) :
    result CredentialError unit :=
  let? lifetime := ok_or (i64_checked_sub not_after_ms not_before_ms)
                     (InvalidMetadata "validity range overflows") in
  reject_if (lifetime <= 0 \/ lifetime > MAX_CREDENTIAL_LIFETIME_MS)
    (InvalidMetadata "invalid validity range").

(** * Data *)

Record CertificateAuthorityPublic : Type := {
  ca_version : Z;
  ca_signing_key : array 32;
}.

Record CertificateAuthoritySecret : Type := { ca_secret : array 32 }.

Record CredentialRequestBody : Type := {
  req_version : Z;
  req_subject : rstring;
  req_role : CredentialRole;
  req_noise_static_key : array 32;
  req_identity : IdentityPublic;
  req_nonce : array 16;
  req_issued_at_ms : Z;
  req_expires_at_ms : Z;
}.
Record CredentialRequest : Type := {
  request_body : CredentialRequestBody;
  request_signature : SignatureBytes;
}.

Record NativeCredentialBody : Type := {
  cred_version : Z;
  issuer_id : array 32;
  serial : array 16;
  cred_request_id : array 32;
  subject : rstring;
  role : CredentialRole;
  not_before_ms : Z;
  not_after_ms : Z;
  noise_static_key : array 32;
  identity : IdentityPublic;
}.
Record NativeCredential : Type := {
  cred_body : NativeCredentialBody;
  cred_signature : SignatureBytes;
}.

Record RevocationListBody : Type := {
  crl_version : Z;
  crl_issuer_id : array 32;
  generated_at_ms : Z;
  crl_expires_at_ms : Z;
  serials : list (array 16);
}.
Record RevocationList : Type := {
  crl_body : RevocationListBody;
  crl_signature : SignatureBytes;
}.

(** Canonical decoding shared by requests, credentials and revocation lists:
    nothing may follow the value and its encoding must be the input. *)
Definition decode_canonical {T} `{!Postcard T} (trailing noncanonical : string)
    (l : bytes) : result CredentialError T :=
  let? (value, remainder) := map_err CredPostcard (take_from_bytes l) in
  reject_if (remainder <> []) (InvalidMetadata trailing) then?
  let? encoded := map_err CredPostcard (to_stdvec value) in
  reject_if (encoded <> l) (InvalidMetadata noncanonical) then?
  Ok value.

Section credential.
Context `{crypto : !Crypto}.
Context `{!Postcard IdentityPublic, !Postcard CertificateAuthorityPublic}.
Context `{!Postcard CredentialRequestBody, !Postcard CredentialRequest}.
Context `{!Postcard NativeCredentialBody, !Postcard NativeCredential}.
Context `{!Postcard RevocationListBody, !Postcard RevocationList}.
Context `{!Postcard (Z * array 32)}.

(** * The authority *)

Definition authority_id (ca : CertificateAuthorityPublic) :
    result CredentialError (array 32) :=
  reject_if (ca_version ca <> CREDENTIAL_VERSION)
    (CredUnsupportedVersion (ca_version ca)) then?
  reject_if (ed25519_key_valid (ca_signing_key ca) = false)
    (InvalidMetadata "invalid CA public key") then?
  let? encoded := map_err CredPostcard (to_stdvec ca) in
  Ok (sha256 (AUTHORITY_ID_DOMAIN ++ encoded)).

Definition authority_verifying_key (ca : CertificateAuthorityPublic) :
    result CredentialError (array 32) :=
  authority_id ca then?
  reject_if (ed25519_key_valid (ca_signing_key ca) = false)
    (InvalidMetadata "invalid CA public key") then?
  Ok (ca_signing_key ca).

Definition authority_encode (ca : CertificateAuthorityPublic) :
    result CredentialError bytes :=
  authority_id ca then?
  map_err CredPostcard (to_stdvec ca).

Definition authority_decode (l : bytes) : result CredentialError CertificateAuthorityPublic :=
  let? (authority, remainder) := map_err CredPostcard (take_from_bytes l) in
  reject_if (remainder <> []) (InvalidMetadata "trailing CA data") then?
  authority_id authority then?
  Ok authority.

(** [CertificateAuthoritySecret::generate] from the draws of the entropy source. *)
Definition authority_generate (draws : list (array 32)) : option CertificateAuthoritySecret :=
  signing_secret ← random_nonzero draws;
  Some {| ca_secret := signing_secret |}.

Definition authority_public (ca : CertificateAuthoritySecret) : CertificateAuthorityPublic :=
  {| ca_version := CREDENTIAL_VERSION; ca_signing_key := ed25519_public (ca_secret ca) |}.

Definition authority_sign {T} `{!Postcard T} (ca : CertificateAuthoritySecret)
    (domain : bytes) (value : T) : result CredentialError SignatureBytes :=
  let? digest := map_err CredIdentity (signing_digest domain value) in
  Ok (signature_from_bytes (ed25519_sign (ca_secret ca) (slice digest))).

Definition authority_secret_encode (ca : CertificateAuthoritySecret) :
    result CredentialError bytes :=
  let? payload := map_err CredPostcard (to_stdvec (CREDENTIAL_VERSION, ca_secret ca)) in
  Ok (AUTHORITY_FILE_MAGIC ++ payload).

Definition authority_secret_decode (l : bytes) :
    result CredentialError CertificateAuthoritySecret :=
  let? payload := ok_or (strip_prefix AUTHORITY_FILE_MAGIC l)
                    (InvalidMetadata "invalid CA file magic") in
  let? ((version, signing_secret), remainder) :=
    map_err CredPostcard (take_from_bytes payload) in
  reject_if (remainder <> []) (InvalidMetadata "trailing CA key data") then?
  reject_if (version <> CREDENTIAL_VERSION) (CredUnsupportedVersion version) then?
  reject_if (signing_secret = zeros 32) (InvalidMetadata "zero CA private key") then?
  let authority := {| ca_secret := signing_secret |} in
  authority_id (authority_public authority) then?
  Ok authority.

(** * Requests *)

Definition request_encode (r : CredentialRequest) : result CredentialError bytes :=
  map_err CredPostcard (to_stdvec r).
Definition request_decode : bytes -> result CredentialError CredentialRequest :=
  decode_canonical "trailing or non-canonical credential request"
                   "trailing or non-canonical credential request".

(** [CredentialRequest::new]; [draws] are the nonces the entropy source
    offers, and the result is [None] when it is exhausted. *)
Definition request_new (identity : IdentitySecret) (subject : rstring)
    (role : CredentialRole) (noise_static_key : array 32)
    (issued_at_ms expires_at_ms : Z) (draws : list (array 16)) :
    option (result CredentialError CredentialRequest) :=
  match
    validate_subject subject then?
    validate_time_range issued_at_ms expires_at_ms then?
    reject_if (noise_static_key = zeros 32) (InvalidMetadata "zero Noise static key")
  with
  | Err e => Some (Err e)
  | Ok _ =>
      nonce ← random_nonzero draws;
      Some (
        let? public := map_err CredIdentity (identity_public identity) in
        let body := {|
          req_version := CREDENTIAL_VERSION; req_subject := subject; req_role := role;
          req_noise_static_key := noise_static_key; req_identity := public;
          req_nonce := nonce; req_issued_at_ms := issued_at_ms;
          req_expires_at_ms := expires_at_ms |} in
        let? signature := map_err CredIdentity (sign identity REQUEST_DOMAIN body) in
        Ok {| request_body := body; request_signature := signature |})
  end.

Definition request_signature_error (error : IdentityError) : CredentialError :=
  match error with
  | IdentityInvalidSignature => CredInvalidSignature
  | other => CredIdentity other
  end.

Definition request_verify (r : CredentialRequest) (now_ms max_lifetime_ms : Z) :
    result CredentialError unit :=
  let body := request_body r in
  reject_if (req_version body <> CREDENTIAL_VERSION)
    (CredUnsupportedVersion (req_version body)) then?
  validate_subject (req_subject body) then?
  map_err CredIdentity (identity_validate (req_identity body)) then?
  reject_if (req_noise_static_key body = zeros 32 \/ req_nonce body = zeros 16)
    (InvalidMetadata "zero Noise static key or request nonce") then?
  validate_time_range (req_issued_at_ms body) (req_expires_at_ms body) then?
  let? lifetime := ok_or (i64_checked_sub (req_expires_at_ms body) (req_issued_at_ms body))
                     (InvalidMetadata "request lifetime overflows") in
  reject_if (max_lifetime_ms <= 0 \/ lifetime > max_lifetime_ms)
    (InvalidMetadata "request lifetime exceeds policy") then?
  reject_if (req_issued_at_ms body > i64_saturating_add now_ms CLOCK_SKEW_MS) NotYetValid then?
  reject_if (req_expires_at_ms body <= now_ms) Expired then?
  map_err request_signature_error
    (verify (req_identity body) REQUEST_DOMAIN body (request_signature r)).

Definition request_id (r : CredentialRequest) : result CredentialError (array 32) :=
  let? encoded := map_err CredPostcard (to_stdvec r) in
  Ok (sha256 encoded).

(** * Issuing *)

(** [CertificateAuthoritySecret::issue]; [None] when the entropy source is
    exhausted while a serial is drawn. *)
Definition issue (ca : CertificateAuthoritySecret) (request : CredentialRequest)
    (now_ms not_after_ms max_request_lifetime_ms : Z) (draws : list (array 16)) :
    option (result CredentialError NativeCredential) :=
  match
    request_verify request now_ms max_request_lifetime_ms then?
    validate_time_range now_ms not_after_ms
  with
  | Err e => Some (Err e)
  | Ok _ =>
      serial ← random_nonzero draws;
      Some (
        let? issuer_id := authority_id (authority_public ca) in
        let? request_id := request_id request in
        let body := {|
          cred_version := CREDENTIAL_VERSION; issuer_id := issuer_id; serial := serial;
          cred_request_id := request_id; subject := req_subject (request_body request);
          role := req_role (request_body request); not_before_ms := now_ms;
          not_after_ms := not_after_ms;
          noise_static_key := req_noise_static_key (request_body request);
          identity := req_identity (request_body request) |} in
        let? signature := authority_sign ca CREDENTIAL_DOMAIN body in
        Ok {| cred_body := body; cred_signature := signature |})
  end.

Definition sign_revocations (ca : CertificateAuthoritySecret)
    (generated_at_ms expires_at_ms : Z) (serials : list (array 16)) :
    result CredentialError RevocationList :=
  validate_time_range generated_at_ms expires_at_ms then?
  reject_if (zlen serials > MAX_REVOKED_SERIALS)
    (InvalidMetadata "too many revoked serials") then?
  let serials := merge_sort array_le serials in
  reject_if (windows2_any (fun a b => bool_decide (a = b)) serials = true)
    (InvalidMetadata "duplicate revoked serial") then?
  let? issuer_id := authority_id (authority_public ca) in
  let body := {|
    crl_version := CREDENTIAL_VERSION; crl_issuer_id := issuer_id;
    generated_at_ms := generated_at_ms; crl_expires_at_ms := expires_at_ms;
    serials := serials |} in
  let? signature := authority_sign ca REVOCATION_DOMAIN body in
  Ok {| crl_body := body; crl_signature := signature |}.

(** * Verification *)

(** The signature check shared by credentials and revocation lists. *)
Definition authority_verify {T} `{!Postcard T} (authority : CertificateAuthorityPublic)
    (domain : bytes) (body : T) (signature : SignatureBytes) :
    result CredentialError unit :=
  let? digest := map_err CredIdentity (signing_digest domain body) in
  let? key := authority_verifying_key authority in
  reject_if (ed25519_verify key (slice digest) (signature_to_bytes signature) = false)
    CredInvalidSignature.

Definition revocation_encode (c : RevocationList) : result CredentialError bytes :=
  map_err CredPostcard (to_stdvec c).
Definition revocation_decode : bytes -> result CredentialError RevocationList :=
  decode_canonical "trailing revocation-list data" "non-canonical revocation-list data".

Definition revocation_verify_at (list : RevocationList)
    (authority : CertificateAuthorityPublic) (now_ms : Z) : result CredentialError unit :=
  let body := crl_body list in
  reject_if (crl_version body <> CREDENTIAL_VERSION)
    (CredUnsupportedVersion (crl_version body)) then?
  validate_time_range (generated_at_ms body) (crl_expires_at_ms body) then?
  reject_if (zlen (serials body) > MAX_REVOKED_SERIALS)
    (InvalidMetadata "too many revoked serials") then?
  reject_if (windows2_any (fun a b => bool_decide (array_le b a)) (serials body) = true)
    (InvalidMetadata "revoked serials are not sorted and unique") then?
  let? id := authority_id authority in
  reject_if (crl_issuer_id body <> id) WrongIssuer then?
  authority_verify authority REVOCATION_DOMAIN body (crl_signature list) then?
  reject_if (now_ms < generated_at_ms body) NotYetValid then?
  reject_if (now_ms >= crl_expires_at_ms body) Expired.

Definition credential_encode (c : NativeCredential) : result CredentialError bytes :=
  map_err CredPostcard (to_stdvec c).
Definition credential_decode : bytes -> result CredentialError NativeCredential :=
  decode_canonical "trailing or non-canonical credential data"
                   "trailing or non-canonical credential data".

Definition credential_verify_at (c : NativeCredential)
    (authority : CertificateAuthorityPublic) (revocations : option RevocationList)
    (expected_role : CredentialRole) (session_key : array 32) (now_ms : Z) :
    result CredentialError unit :=
  let body := cred_body c in
  reject_if (cred_version body <> CREDENTIAL_VERSION)
    (CredUnsupportedVersion (cred_version body)) then?
  validate_subject (subject body) then?
  validate_time_range (not_before_ms body) (not_after_ms body) then?
  map_err CredIdentity (identity_validate (identity body)) then?
  reject_if (cred_request_id body = zeros 32 \/ serial body = zeros 16 \/
             noise_static_key body = zeros 32)
    (InvalidMetadata "zero request, serial, or Noise identity") then?
  let? id := authority_id authority in
  reject_if (issuer_id body <> id) WrongIssuer then?
  authority_verify authority CREDENTIAL_DOMAIN body (cred_signature c) then?
  reject_if (role body <> expected_role) WrongRole then?
  reject_if (noise_static_key body <> session_key) WrongNoiseKey then?
  reject_if (now_ms < not_before_ms body) NotYetValid then?
  reject_if (now_ms >= not_after_ms body) Expired then?
  match revocations with
  | Some list =>
      revocation_verify_at list authority now_ms then?
      reject_if (is_Some (binary_search (serials (crl_body list)) (serial body))) Revoked
  | None => Ok tt
  end.

(** * What verification accepts *)

(** A signature of [authority] over [body] in [domain]. *)
Definition authority_signed {T} `{!Postcard T} (authority : CertificateAuthorityPublic)
    (domain : bytes) (body : T) (signature : SignatureBytes) : Prop :=
  exists digest, signing_digest domain body = Ok digest /\
    ed25519_verify (ca_signing_key authority) (slice digest)
      (signature_to_bytes signature) = true.

Definition time_range_valid (start stop : Z) : Prop :=
  i64_ok (stop - start) /\ 0 < stop - start <= MAX_CREDENTIAL_LIFETIME_MS.

Definition revocations_accepted (list : RevocationList)
    (authority : CertificateAuthorityPublic) (now_ms : Z) : Prop :=
  let body := crl_body list in
  crl_version body = CREDENTIAL_VERSION /\
  time_range_valid (generated_at_ms body) (crl_expires_at_ms body) /\
  zlen (serials body) <= MAX_REVOKED_SERIALS /\
  StronglySorted array_lt (serials body) /\
  authority_id authority = Ok (crl_issuer_id body) /\
  authority_signed authority REVOCATION_DOMAIN body (crl_signature list) /\
  generated_at_ms body <= now_ms < crl_expires_at_ms body.

Definition credential_accepted (c : NativeCredential)
    (authority : CertificateAuthorityPublic) (revocations : option RevocationList)
    (expected_role : CredentialRole) (session_key : array 32) (now_ms : Z) : Prop :=
  let body := cred_body c in
  cred_version body = CREDENTIAL_VERSION /\
  ~ bad_label MAX_CREDENTIAL_SUBJECT_LEN (subject body) /\
  time_range_valid (not_before_ms body) (not_after_ms body) /\
  identity_validate (identity body) = Ok tt /\
  cred_request_id body <> zeros 32 /\ serial body <> zeros 16 /\
  noise_static_key body <> zeros 32 /\
  authority_id authority = Ok (issuer_id body) /\
  authority_signed authority CREDENTIAL_DOMAIN body (cred_signature c) /\
  role body = expected_role /\ noise_static_key body = session_key /\
  not_before_ms body <= now_ms < not_after_ms body /\
  is_none_or (fun list => revocations_accepted list authority now_ms /\
    serial body ∉ serials (crl_body list)) revocations.

Lemma validate_time_range_Ok a b :
  validate_time_range a b = Ok tt <-> time_range_valid a b.
Proof.
  unfold validate_time_range, time_range_valid, i64_checked_sub. case_decide; simpl.
  - rewrite reject_if_Ok. intuition lia.
  - split; [done|]. by intros [? _].
Qed.

Lemma authority_id_key authority id :
  authority_id authority = Ok id ->
  authority_verifying_key authority = Ok (ca_signing_key authority).
Proof.
  intros Hid. unfold authority_verifying_key. rewrite Hid. simpl.
  unfold authority_id in Hid. res_inv. by rewrite reject_if_false.
Qed.

Lemma authority_verify_Ok {T} `{!Postcard T} authority id domain (body : T) signature :
  authority_id authority = Ok id ->
  authority_verify authority domain body signature = Ok tt <->
  authority_signed authority domain body signature.
Proof.
  intros Hid. unfold authority_verify, authority_signed. rewrite (authority_id_key _ _ Hid).
  destruct (signing_digest domain body) as [h|]; simpl; [|naive_solver].
  rewrite reject_if_Ok, not_false_iff_true. naive_solver.
Qed.

Lemma sorted_check {n} (l : list (array n)) :
  windows2_any (fun a b => bool_decide (array_le b a)) l <> true <->
  StronglySorted array_lt l.
Proof.
  rewrite not_true_iff_false, windows2_any_false. split.
  - intros H. apply Sorted_StronglySorted; [apply _|].
    eapply Sorted_mono; [|done]. intros a b Hab%bool_decide_eq_false.
    unfold array_lt, array_le in *. by apply bytes_not_le.
  - intros H%StronglySorted_Sorted. eapply Sorted_mono; [|done]. intros a b Hab.
    apply bool_decide_eq_false. unfold array_lt, array_le in *. by apply bytes_not_le.
Qed.

Lemma revocation_verify_at_Ok list authority now_ms :
  revocation_verify_at list authority now_ms = Ok tt <->
  revocations_accepted list authority now_ms.
Proof.
  unfold revocation_verify_at, revocations_accepted.
  rewrite guard_bind, unit_bind, !guard_bind, validate_time_range_Ok, sorted_check.
  destruct (authority_id authority) as [id|] eqn:Hid; simpl; [|naive_solver].
  rewrite !guard_bind, unit_bind, guard_bind, reject_if_Ok.
  rewrite (authority_verify_Ok _ id) by done.
  split; intros; destruct_and?; nor_inv; split_and!; try done; try lia; congruence.
Qed.

(** Every check of [credential_verify_at], as one condition. *)
Lemma credential_verify_Ok c authority revocations expected_role session_key now_ms :
  credential_verify_at c authority revocations expected_role session_key now_ms = Ok tt <->
  credential_accepted c authority revocations expected_role session_key now_ms.
Proof.
  unfold credential_verify_at, credential_accepted, validate_subject.
  rewrite !guard_bind, unit_bind, validate_time_range_Ok, unit_bind, map_err_Ok, guard_bind.
  destruct (authority_id authority) as [id|] eqn:Hid; simpl; [|naive_solver].
  rewrite !guard_bind, unit_bind, !guard_bind, (authority_verify_Ok _ id) by done.
  assert (match revocations with
    | Some list =>
      revocation_verify_at list authority now_ms then?
      reject_if (is_Some (binary_search (serials (crl_body list)) (serial (cred_body c)))) Revoked
    | None => Ok tt end = Ok tt <->
    is_none_or (fun list => revocations_accepted list authority now_ms /\
      serial (cred_body c) ∉ serials (crl_body list)) revocations) as ->.
  { destruct revocations as [list|]; simpl; [|done].
    rewrite unit_bind, revocation_verify_at_Ok, reject_if_Ok. split; intros [Ha Hb]; split; try done.
    - rewrite <-binary_search_member; [done | apply Ha].
    - rewrite binary_search_member; [done | apply Ha]. }
  split; intros; destruct_and?; nor_inv; split_and!; try done; try lia; try congruence; try tauto.
Qed.

(** A credential is accepted exactly when its version, subject, validity
    range and identity are well formed, the configured authority issued and
    signed it, it is bound to the expected role and to the Noise key of the
    session, the time is inside its validity, and the revocation list, itself
    current and signed, does not contain its serial: the binary search over
    the list decides membership. *)
Theorem credential_verify_iff c authority revocations expected_role session_key now_ms :
  credential_verify_at c authority revocations expected_role session_key now_ms = Ok tt <->
  credential_accepted c authority revocations expected_role session_key now_ms.
Proof. apply credential_verify_Ok. Qed.

(** * Issuing and revoking *)

Context `{crypto_laws : !CryptoLaws}.

Lemma authority_sign_signed {T} `{!Postcard T} ca domain (body : T) signature :
  authority_sign ca domain body = Ok signature ->
  authority_signed (authority_public ca) domain body signature.
Proof.
  unfold authority_sign, authority_signed. intros H. res_inv.
  eexists. split; [done|]. rewrite signature_bytes_round. apply ed25519_correct.
Qed.

Lemma request_verify_Ok r now_ms max :
  request_verify r now_ms max = Ok tt ->
  ~ bad_label MAX_CREDENTIAL_SUBJECT_LEN (req_subject (request_body r)) /\
  identity_validate (req_identity (request_body r)) = Ok tt /\
  req_noise_static_key (request_body r) <> zeros 32.
Proof.
  unfold request_verify, validate_subject.
  rewrite !guard_bind, unit_bind, map_err_Ok, guard_bind. naive_solver.
Qed.

Lemma issue_Ok ca request now_ms until max draws c :
  issue ca request now_ms until max draws = Some (Ok c) ->
  request_verify request now_ms max = Ok tt /\ time_range_valid now_ms until /\
  serial (cred_body c) <> zeros 16 /\
  authority_id (authority_public ca) = Ok (issuer_id (cred_body c)) /\
  authority_signed (authority_public ca) CREDENTIAL_DOMAIN (cred_body c) (cred_signature c) /\
  cred_version (cred_body c) = CREDENTIAL_VERSION /\
  request_id request = Ok (cred_request_id (cred_body c)) /\
  subject (cred_body c) = req_subject (request_body request) /\
  role (cred_body c) = req_role (request_body request) /\
  not_before_ms (cred_body c) = now_ms /\ not_after_ms (cred_body c) = until /\
  noise_static_key (cred_body c) = req_noise_static_key (request_body request) /\
  identity (cred_body c) = req_identity (request_body request).
Proof.
  unfold issue. destruct (_ then? _) as [[]|] eqn:Hreq; [|done].
  rewrite unit_bind, validate_time_range_Ok in Hreq.
  intros (sn & Hsn & H)%bind_Some. apply random_nonzero_spec in Hsn as [Hsn _].
  injection H as H. res_inv. simpl. split_and!; try done; try apply Hreq.
  by eapply authority_sign_signed.
Qed.

Lemma sign_revocations_Ok ca from until sns list :
  sign_revocations ca from until sns = Ok list ->
  serials (crl_body list) ≡ₚ sns /\
  generated_at_ms (crl_body list) = from /\ crl_expires_at_ms (crl_body list) = until /\
  forall now_ms, from <= now_ms < until ->
    revocations_accepted list (authority_public ca) now_ms.
Proof.
  unfold sign_revocations. rewrite unit_bind, guard_bind, guard_bind.
  intros (Ht%validate_time_range_Ok & Hlen & Hdup & H). res_inv. simpl.
  split; [apply merge_sort_Permutation|]. do 2 (split; [done|]). intros now Hnow.
  unfold revocations_accepted. simpl. split_and!; try done; try lia.
  - erewrite Permutation_length by apply merge_sort_Permutation. lia.
  - apply not_true_iff_false, windows2_any_false in Hdup.
    apply sorted_check. rewrite not_true_iff_false, windows2_any_false.
    pose proof (Sorted_merge_sort array_le sns) as Hs. revert Hdup Hs.
    generalize (merge_sort array_le sns) as l.
    induction l as [|a l IH]; intros Hd Hs; [constructor|].
    inversion_clear Hd as [|? ? Hd1 Hd2]. inversion_clear Hs as [|? ? Hs1 Hs2].
    constructor; [by apply IH|]. destruct l as [|b l]; constructor.
    inversion_clear Hd2 as [|? ? Hne%bool_decide_eq_false].
    inversion_clear Hs2 as [|? ? Hab].
    apply bool_decide_eq_false. intros Hba. by apply Hne, (anti_symm array_le).
  - by apply authority_sign_signed.
Qed.

(** Revocation is checked after everything else. *)
Lemma verify_at_revocations c authority list r k now_ms :
  credential_verify_at c authority (Some list) r k now_ms =
  (credential_verify_at c authority None r k now_ms then?
   revocation_verify_at list authority now_ms then?
   reject_if (is_Some (binary_search (serials (crl_body list)) (serial (cred_body c)))) Revoked).
Proof.
  unfold credential_verify_at.
  repeat match goal with |- mbind _ ?m = _ => destruct m; simpl; [|reflexivity] end.
  reflexivity.
Qed.

(** An issued credential is accepted, for the role and the Noise key of
    its request and during its validity, until a revocation list signed by the
    same authority contains its serial, and is then refused as revoked. *)
Theorem issued_credential_revocation ca request now_ms until max draws c
    from crl_until sns list at_ms :
  issue ca request now_ms until max draws = Some (Ok c) ->
  cred_request_id (cred_body c) <> zeros 32 ->
  sign_revocations ca from crl_until sns = Ok list ->
  now_ms <= at_ms < until -> from <= at_ms < crl_until ->
  credential_verify_at c (authority_public ca) (Some list)
    (req_role (request_body request)) (req_noise_static_key (request_body request)) at_ms =
  if decide (serial (cred_body c) ∈ sns) then Err Revoked else Ok tt.
Proof.
  intros (Hreq & Ht & Hsn & Hid & Hsig & Hv & Hrid & Hsj & Hro & Hnb & Hna & Hk & Hi)%issue_Ok Hrz
    (Hperm & _ & _ & Hcrl)%sign_revocations_Ok Hat Hat2.
  apply request_verify_Ok in Hreq as (Hsub & Hival & Hkey).
  assert (forall revs, is_none_or (fun l => revocations_accepted l (authority_public ca) at_ms /\
      serial (cred_body c) ∉ serials (crl_body l)) revs ->
    credential_verify_at c (authority_public ca) revs
      (req_role (request_body request)) (req_noise_static_key (request_body request)) at_ms
    = Ok tt) as Hok.
  { intros revs Hrevs. apply credential_verify_Ok. unfold credential_accepted.
    rewrite Hv, Hsj, Hro, Hnb, Hna, Hk, Hi.
    split_and!; try done; try apply Ht; lia. }
  rewrite verify_at_revocations, (Hok None I). simpl.
  rewrite (proj2 (revocation_verify_at_Ok _ _ _) (Hcrl at_ms Hat2)). simpl.
  assert (is_Some (binary_search (serials (crl_body list)) (serial (cred_body c))) <->
    serial (cred_body c) ∈ sns) as Hbs.
  { rewrite <-Hperm. apply binary_search_member, (Hcrl at_ms Hat2). }
  unfold reject_if. repeat case_decide; try done; tauto.
Qed.

(** A request made with a valid identity is verified by the authority
    while it is fresh, under any lifetime policy that allows it. *)
Theorem new_request_verifies secret subject role key issued expires draws r now_ms max :
  request_new secret subject role key issued expires draws = Some (Ok r) ->
  issued <= i64_saturating_add now_ms CLOCK_SKEW_MS -> now_ms < expires ->
  expires - issued <= max ->
  request_verify r now_ms max = Ok tt.
Proof.
  unfold request_new. destruct (_ then? _) as [[]|] eqn:Hpre; [|done].
  rewrite !unit_bind, reject_if_Ok, validate_time_range_Ok in Hpre.
  destruct Hpre as (Hsub & Ht & Hkey). intros (nonce & Hn & H)%bind_Some Hi He Hmax.
  apply random_nonzero_spec in Hn as [Hn _]. injection H as H. res_inv.
  match goal with H : identity_public _ = Ok _ |- _ =>
    pose proof H as [Hval _]%identity_public_valid; rename H into Hpub end.
  unfold request_verify. simpl. rewrite Hsub, Hval. simpl.
  rewrite guard_bind. split; [by intros [?|?]|].
  rewrite unit_bind. split; [by apply validate_time_range_Ok|].
  destruct Ht as [Ht1 Ht2]. unfold i64_checked_sub. rewrite decide_True by done. simpl.
  rewrite !guard_bind, map_err_Ok. split_and!; try lia. by eapply sign_verify.
Qed.
End credential.

(** The codecs of requests, credentials and revocation lists are inverse
    and canonical: a value is decoded exactly from its own encoding. *)
Theorem decode_canonical_iff {T} `{!Postcard T, !PostcardLaws T} m1 m2 l (v : T) :
  decode_canonical m1 m2 l = Ok v <-> to_stdvec v = Ok l.
Proof.
  unfold decode_canonical. split.
  - intros ([w rest] & Ht%map_err_Ok & H)%bind_Ok_inv. rewrite guard_bind in H.
    destruct H as [_ (e & He%map_err_Ok & H)%bind_Ok_inv]. rewrite guard_bind in H.
    destruct H as [->%dec_stable H]. by simplify_eq.
  - intros Hv. rewrite (take_to_stdvec_nil _ _ Hv). cbn [map_err mbind result_bind].
    rewrite guard_bind. split; [by intros []|]. rewrite Hv. cbn [map_err mbind result_bind].
    rewrite guard_bind. split; [by intros []|done].
Qed.

(** ** Witnesses *)

#[local] Existing Instance toy_identity_public.

Definition f_role : format CredentialRole :=
  f_iso f_bool (fun r => bool_decide (r = RolePublisher))
    (fun b : bool => Some (if b then RolePublisher else RoleViewer)).
Definition f_signature : format SignatureBytes :=
  f_iso (f_pair (f_array 32) (f_array 32)) (fun s => (first s, second s))
    (fun '(a, b) => Some {| first := a; second := b |}).
Definition f_authority_public : format CertificateAuthorityPublic :=
  f_iso (f_pair f_Z (f_array 32)) (fun a => (ca_version a, ca_signing_key a))
    (fun '(v, k) => Some {| ca_version := v; ca_signing_key := k |}).
Definition f_request_body : format CredentialRequestBody :=
  f_iso (f_pair (f_pair (f_pair f_Z (f_list f_Z)) (f_pair f_role (f_array 32)))
           (f_pair (f_pair f_identity_public (f_array 16)) (f_pair f_Z f_Z)))
    (fun b => (((req_version b, req_subject b), (req_role b, req_noise_static_key b)),
               ((req_identity b, req_nonce b), (req_issued_at_ms b, req_expires_at_ms b))))
    (fun '(((v, s), (r, k)), ((i, n), (a, e))) =>
       Some {| req_version := v; req_subject := s; req_role := r; req_noise_static_key := k;
               req_identity := i; req_nonce := n; req_issued_at_ms := a;
               req_expires_at_ms := e |}).
Definition f_request : format CredentialRequest :=
  f_iso (f_pair f_request_body f_signature)
    (fun r => (request_body r, request_signature r))
    (fun '(b, s) => Some {| request_body := b; request_signature := s |}).
Definition f_credential_body : format NativeCredentialBody :=
  f_iso (f_pair (f_pair (f_pair f_Z (f_array 32)) (f_pair (f_array 16) (f_array 32)))
           (f_pair (f_pair (f_list f_Z) f_role)
              (f_pair (f_pair f_Z f_Z) (f_pair (f_array 32) f_identity_public))))
    (fun b => (((cred_version b, issuer_id b), (serial b, cred_request_id b)),
               ((subject b, role b),
                ((not_before_ms b, not_after_ms b), (noise_static_key b, identity b)))))
    (fun '(((v, i), (n, q)), ((s, r), ((a, e), (k, p)))) =>
       Some {| cred_version := v; issuer_id := i; serial := n; cred_request_id := q;
               subject := s; role := r; not_before_ms := a; not_after_ms := e;
               noise_static_key := k; identity := p |}).
Definition f_revocation_body : format RevocationListBody :=
  f_iso (f_pair (f_pair f_Z (f_array 32)) (f_pair (f_pair f_Z f_Z) (f_list (f_array 16))))
    (fun b => ((crl_version b, crl_issuer_id b),
               ((generated_at_ms b, crl_expires_at_ms b), serials b)))
    (fun '((v, i), ((a, e), l)) =>
       Some {| crl_version := v; crl_issuer_id := i; generated_at_ms := a;
               crl_expires_at_ms := e; serials := l |}).

Lemma f_signature_ok : format_ok f_signature.
Proof. apply f_iso_ok; [by intros [] | auto with toy]. Qed.
Lemma f_role_ok : format_ok f_role.
Proof. apply f_iso_ok; [by intros [] | auto with toy]. Qed.
#[export] Hint Resolve f_signature_ok f_role_ok : toy.
Lemma f_request_body_ok : format_ok f_request_body.
Proof. apply f_iso_ok; [by intros [] | auto 10 with toy]. Qed.
#[export] Hint Resolve f_request_body_ok : toy.

#[local] Instance toy_authority_public : Postcard CertificateAuthorityPublic :=
  postcard_of f_authority_public.
#[local] Instance toy_request_body : Postcard CredentialRequestBody :=
  postcard_of f_request_body.
#[local] Instance toy_request : Postcard CredentialRequest := postcard_of f_request.
#[local] Instance toy_request_laws : PostcardLaws CredentialRequest.
Proof. apply postcard_of_laws, f_iso_ok; [by intros [] | auto with toy]. Defined.
#[local] Instance toy_credential_body : Postcard NativeCredentialBody :=
  postcard_of f_credential_body.
#[local] Instance toy_revocation_body : Postcard RevocationListBody :=
  postcard_of f_revocation_body.

Definition sample_ca : CertificateAuthoritySecret := {| ca_secret := Vector.const x09 32 |}.
Definition sample_request : CredentialRequest :=
  match request_new sample_secret (ascii_str "desk") RoleViewer (Vector.const x07 32)
          1000 90000 [zeros 16; Vector.const x01 16] with
  | Some (Ok r) => r
  | _ => {| request_body := {|
              req_version := 0; req_subject := []; req_role := RoleViewer;
              req_noise_static_key := zeros 32; req_identity := sample_public;
              req_nonce := zeros 16; req_issued_at_ms := 0; req_expires_at_ms := 0 |};
            request_signature := {| first := zeros 32; second := zeros 32 |} |}
  end.

Lemma new_request_verifies_witness : request_verify sample_request 2000 100000 = Ok tt.
Proof.
  apply (new_request_verifies sample_secret (ascii_str "desk") RoleViewer
           (Vector.const x07 32) 1000 90000 [zeros 16; Vector.const x01 16]);
    [vm_compute; reflexivity | vm_compute; discriminate | reflexivity | discriminate].
Defined.

Lemma issued_credential_revocation_witness :
  exists c l0 l1,
    credential_verify_at c (authority_public sample_ca) (Some l0) RoleViewer
      (Vector.const x07 32) 5000 = Ok tt /\
    credential_verify_at c (authority_public sample_ca) (Some l1) RoleViewer
      (Vector.const x07 32) 5000 = Err Revoked.
Proof.
  eexists _, _, _. split.
  - refine (eq_trans (issued_credential_revocation sample_ca sample_request 2000 80000
      100000 [Vector.const x03 16] _ 1500 9000 [Vector.const x04 16; Vector.const x02 16] _
      5000 _ _ _ _ _) _); vm_compute;
      first [reflexivity | discriminate | split; [discriminate | reflexivity]].
  - refine (eq_trans (issued_credential_revocation sample_ca sample_request 2000 80000
      100000 [Vector.const x03 16] _ 1500 9000 [Vector.const x04 16; Vector.const x03 16] _
      5000 _ _ _ _ _) _); vm_compute;
      first [reflexivity | discriminate | split; [discriminate | reflexivity]].
Defined.

Lemma decode_canonical_iff_witness :
  exists l, request_decode l = Ok sample_request /\ to_stdvec sample_request = Ok l.
Proof.
  eexists. split; [apply decode_canonical_iff|]; vm_compute; reflexivity.
Defined.
