(* ===== verification/Native.v ===== *)
(** [crates/protocol/src/native.rs]: signed stream descriptors, encrypted
    stream objects, the sealing state of a keyframe group and the live-tail
    guard.

    The sealing state is threaded explicitly: a failed [seal] leaves it as it
    was.  The theorems state that a sealed object opens to its plaintext, that
    no run of an encryptor uses a nonce twice, that the codecs are inverse and
    canonical, what the H.264 scan recognises, and that the guard passes
    strictly increasing sequences of one stream only. *)
From Stdlib Require Import ZArith Lia.
From S2P Require Import Prelude Bytes RustStr External Toy Identity.

Definition STREAM_FORMAT_VERSION : Z := 2.
Definition STREAM_TIMESCALE : Z := 90000.
Definition MAX_DESCRIPTOR_LEN : Z := 64 * 1024.
Definition MAX_MEDIA_CIPHERTEXT_LEN : Z := 16 * 1024 * 1024 + 16.
Definition MAX_CURSOR_CIPHERTEXT_LEN : Z := 4 * 1024 * 1024 + 16.
Definition MAX_EPOCH_CIPHERTEXT_LEN : Z := 1024 * 1024 + 16.
Definition MAX_NATIVE_OBJECT_LEN : Z := MAX_MEDIA_CIPHERTEXT_LEN + 64 * 1024.
Definition DESCRIPTOR_DOMAIN : bytes := byte_string "glacialcast-stream-descriptor-v2".
Definition OBJECT_DOMAIN : bytes := byte_string "glacialcast-stream-object-v2".
Definition MAX_STREAM_NAME_LEN : Z := 128.
Definition MAX_SOURCE_LABEL_LEN : Z := 256.
Definition MAX_CODEC_CONFIG_LEN : Z := 64 * 1024.
Definition AEAD_TAG_LEN : Z := 16.

Inductive NativeStreamError : Type :=
| NativeUnsupportedVersion (version : Z)
| NativeInvalidMetadata (what : string)
| PayloadTooLarge
| SequenceRegression
| NativeInvalidSignature
| CiphertextHash
| Decryption
| WrongContext
| NativeIdentity (e : IdentityError)
| NativePostcard (e : postcard_error).
#[global] Instance NativeStreamError_eq_dec : EqDecision NativeStreamError.
Proof. solve_decision. Defined.

Inductive CodecId : Type := H264AnnexB.
Inductive NativeObjectKind : Type := Epoch | Media | Cursor.
#[global] Instance CodecId_eq_dec : EqDecision CodecId.
Proof. solve_decision. Defined.
#[global] Instance NativeObjectKind_eq_dec : EqDecision NativeObjectKind.
Proof. solve_decision. Defined.

Definition signature_error (error : IdentityError) : NativeStreamError :=
  match error with
  | IdentityInvalidSignature => NativeInvalidSignature
  | other => NativeIdentity other
  end.

(** * Descriptors *)

Record StreamDescriptorBody : Type := {
  desc_version : Z;
  desc_publisher : IdentityPublic;
  desc_stream_id : uuid;
  desc_name : rstring;
  desc_source_label : rstring;
  desc_codecs : list CodecId;
  desc_cursor : bool;
  desc_created_at_ms : Z;
}.
Record StreamDescriptor : Type := {
  desc_body : StreamDescriptorBody;
  desc_signature : SignatureBytes;
}.
#[global] Instance StreamDescriptorBody_eq_dec : EqDecision StreamDescriptorBody.
Proof. solve_decision. Defined.
#[global] Instance StreamDescriptor_eq_dec : EqDecision StreamDescriptor.
Proof. solve_decision. Defined.

Definition validate_label (value : rstring) (max : Z) (error : string) :
    result NativeStreamError unit :=
  reject_if (bad_label max value) (NativeInvalidMetadata error).

(** * Objects *)

Record NativeObjectHeader : Type := {
  h_version : Z;
  h_publisher_id : array 32;
  h_stream_id : uuid;
  h_epoch_id : uuid;
  h_key_group : Z;
  h_sequence : Z;
  h_timestamp : Z;
  h_duration : Z;
  h_kind : NativeObjectKind;
  h_random_access : bool;
  h_codec : option CodecId;
  h_ciphertext_len : Z;
  h_key_id : array 16;
  h_nonce : array 12;
}.
#[global] Instance NativeObjectHeader_eq_dec : EqDecision NativeObjectHeader.
Proof. solve_decision. Defined.

Record NewNativeObject : Type := {
  new_sequence : Z;
  new_timestamp : Z;
  new_duration : Z;
  new_kind : NativeObjectKind;
  new_random_access : bool;
  new_codec : option CodecId;
}.

Record NativeObjectClaim : Type := {
  claim_header : NativeObjectHeader;
  claim_ciphertext_hash : array 32;
}.

Record NativeObject : Type := {
  header : NativeObjectHeader;
  ciphertext_hash : array 32;
  signature : SignatureBytes;
  ciphertext : bytes;
}.
#[global] Instance NativeObject_eq_dec : EqDecision NativeObject.
Proof. solve_decision. Defined.

Definition max_ciphertext (kind : NativeObjectKind) : Z :=
  match kind with
  | Epoch => MAX_EPOCH_CIPHERTEXT_LEN
  | Media => MAX_MEDIA_CIPHERTEXT_LEN
  | Cursor => MAX_CURSOR_CIPHERTEXT_LEN
  end.

Definition validate_header (h : NativeObjectHeader) : result NativeStreamError unit :=
  reject_if (h_version h <> STREAM_FORMAT_VERSION)
    (NativeUnsupportedVersion (h_version h)) then?
  reject_if
    (h_publisher_id h = zeros 32 \/ is_nil (h_stream_id h) \/ is_nil (h_epoch_id h) \/
     h_key_group h = 0 \/ h_sequence h = 0 \/ h_duration h = 0 \/ h_key_id h = zeros 16)
    (NativeInvalidMetadata "zero native object identifier or duration") then?
  let? nonce_tail := ok_or (array_try_from 8 (drop 4 (slice (h_nonce h))))
                       (NativeInvalidMetadata "invalid nonce") in
  reject_if (be_value (slice nonce_tail) <> h_sequence h)
    (NativeInvalidMetadata "nonce does not bind sequence") then?
  reject_if (h_ciphertext_len h < AEAD_TAG_LEN \/
             h_ciphertext_len h > max_ciphertext (h_kind h)) PayloadTooLarge then?
  match h_kind h with
  | Epoch =>
      reject_if (h_random_access h = false \/ h_codec h <> Some H264AnnexB)
        (NativeInvalidMetadata "invalid epoch codec or random-access flag")
  | Media =>
      reject_if (h_codec h <> Some H264AnnexB) (NativeInvalidMetadata "invalid media codec")
  | Cursor =>
      reject_if (h_random_access h = true \/ is_Some (h_codec h))
        (NativeInvalidMetadata "cursor object declares video metadata")
  end.

(** * Plaintexts *)

Record H264EpochPayload : Type := {
  epoch_width : Z;
  epoch_height : Z;
  codec_config : bytes;
}.

(** [slice.starts_with(prefix)] *)
Definition starts_with (prefix l : bytes) : Prop := take (length prefix) l = prefix.
#[global] Instance starts_with_dec p l : Decision (starts_with p l).
Proof. unfold starts_with. apply _. Defined.

Definition START3 : bytes := [x00; x00; x01].
Definition START4 : bytes := [x00; x00; x00; x01].

Definition is_annex_b (l : bytes) : Prop := starts_with START3 l \/ starts_with START4 l.
#[global] Instance is_annex_b_dec l : Decision (is_annex_b l).
Proof. unfold is_annex_b. apply _. Defined.

(** [bytes[i] & 0x1f == 5] with [i] in bounds. *)
Definition idr_nal_at (l : bytes) (i : nat) : bool :=
  match l !! i with
  | Some b => bool_decide (Z.land (Z_of_byte b) 31 = 5)
  | None => false
  end.

(** [contains_h264_idr]: the argument is [bytes[offset..]]. *)
Fixpoint contains_h264_idr (l : bytes) : bool :=
  match l with
  | [] => false
  | _ :: rest =>
      if decide (4 <= zlen l) then
        let nal_offset :=
          if decide (starts_with START4 l) then Some 4%nat
          else if decide (starts_with START3 l) then Some 3%nat
          else None in
        if match nal_offset with Some i => idr_nal_at l i | None => false end
        then true else contains_h264_idr rest
      else false
  end.

Definition validate_epoch (p : H264EpochPayload) : result NativeStreamError unit :=
  reject_if
    (epoch_width p = 0 \/ epoch_height p = 0 \/ epoch_width p > 16384 \/
     epoch_height p > 16384 \/ zlen (codec_config p) > MAX_CODEC_CONFIG_LEN \/
     ~ is_annex_b (codec_config p))
    (NativeInvalidMetadata "invalid H.264 epoch configuration").

(** * Content keys and sealing state *)

Record ContentKey : Type := { key_bytes : array 32 }.

(** [ContentKey::generate] from the draws of the entropy source. *)
Definition content_key_generate (draws : list (array 32)) : option ContentKey :=
  k ← random_nonzero draws; Some {| key_bytes := k |}.

Definition content_key_from_bytes (l : array 32) : result NativeStreamError ContentKey :=
  reject_if (l = zeros 32) (NativeInvalidMetadata "zero content key") then?
  Ok {| key_bytes := l |}.

Definition content_key_to_bytes (k : ContentKey) : array 32 := key_bytes k.

Record GroupEncryptor : Type := {
  ge_publisher_id : array 32;
  ge_stream_id : uuid;
  ge_epoch_id : uuid;
  ge_key_group : Z;
  ge_key_id : array 16;
  ge_nonce_prefix : array 4;
  ge_last_sequence : Z;
  ge_media_started : bool;
  ge_key : ContentKey;
}.

Definition group_key_id (e : GroupEncryptor) : array 16 := ge_key_id e.
Definition group_content_key (e : GroupEncryptor) : array 32 :=
  content_key_to_bytes (ge_key e).

(** * The live-tail guard *)

Record LiveSequenceGuard : Type := {
  guard_publisher_id : array 32;
  guard_stream_id : uuid;
  guard_last_sequence : Z;
}.

Definition live_guard_new (publisher_id : array 32) (stream_id : uuid) (anchor : Z) :
    LiveSequenceGuard :=
  {| guard_publisher_id := publisher_id; guard_stream_id := stream_id;
     guard_last_sequence := anchor |}.

Definition live_guard_accept (g : LiveSequenceGuard) (object : NativeObject) :
    result NativeStreamError LiveSequenceGuard :=
  reject_if (h_publisher_id (header object) <> guard_publisher_id g \/
             h_stream_id (header object) <> guard_stream_id g) WrongContext then?
  reject_if (h_sequence (header object) <= guard_last_sequence g) SequenceRegression then?
  Ok {| guard_publisher_id := guard_publisher_id g; guard_stream_id := guard_stream_id g;
        guard_last_sequence := h_sequence (header object) |}.

Section native.
Context `{crypto : !Crypto}.
Context `{!Postcard IdentityPublic, !Postcard StreamDescriptorBody}.
Context `{!Postcard StreamDescriptor, !Postcard NativeObjectHeader}.
Context `{!Postcard NativeObjectClaim, !Postcard NativeObject}.
Context `{!Postcard H264EpochPayload}.

(** * Descriptor operations *)

Definition validate_descriptor_body (body : StreamDescriptorBody) :
    result NativeStreamError unit :=
  reject_if (desc_version body <> STREAM_FORMAT_VERSION)
    (NativeUnsupportedVersion (desc_version body)) then?
  map_err NativeIdentity (identity_validate (desc_publisher body)) then?
  reject_if (is_nil (desc_stream_id body)) (NativeInvalidMetadata "nil stream ID") then?
  validate_label (desc_name body) MAX_STREAM_NAME_LEN "invalid stream name" then?
  validate_label (desc_source_label body) MAX_SOURCE_LABEL_LEN "invalid source label" then?
  reject_if (desc_codecs body <> [H264AnnexB])
    (NativeInvalidMetadata "unsupported or duplicate codec list").

Definition descriptor_new (publisher : IdentitySecret) (stream_id : uuid)
    (name source_label : rstring) (cursor : bool) (created_at_ms : Z) :
    result NativeStreamError StreamDescriptor :=
  let? public := map_err NativeIdentity (identity_public publisher) in
  let body := {|
    desc_version := STREAM_FORMAT_VERSION; desc_publisher := public;
    desc_stream_id := stream_id; desc_name := name; desc_source_label := source_label;
    desc_codecs := [H264AnnexB]; desc_cursor := cursor;
    desc_created_at_ms := created_at_ms |} in
  validate_descriptor_body body then?
  let? signature := map_err NativeIdentity (sign publisher DESCRIPTOR_DOMAIN body) in
  Ok {| desc_body := body; desc_signature := signature |}.

Definition descriptor_verify (d : StreamDescriptor) : result NativeStreamError unit :=
  validate_descriptor_body (desc_body d) then?
  map_err signature_error
    (verify (desc_publisher (desc_body d)) DESCRIPTOR_DOMAIN (desc_body d) (desc_signature d)).

Definition descriptor_encode (d : StreamDescriptor) : result NativeStreamError bytes :=
  descriptor_verify d then?
  let? encoded := map_err NativePostcard (to_stdvec d) in
  reject_if (zlen encoded > MAX_DESCRIPTOR_LEN) PayloadTooLarge then?
  Ok encoded.

Definition descriptor_decode (l : bytes) : result NativeStreamError StreamDescriptor :=
  reject_if (zlen l > MAX_DESCRIPTOR_LEN) PayloadTooLarge then?
  let? (descriptor, remainder) := map_err NativePostcard (take_from_bytes l) in
  reject_if (remainder <> []) (NativeInvalidMetadata "trailing descriptor data") then?
  descriptor_verify descriptor then?
  let? encoded := descriptor_encode descriptor in
  reject_if (encoded <> l) (NativeInvalidMetadata "noncanonical descriptor") then?
  Ok descriptor.

(** * Epoch payloads *)

Definition epoch_encode (p : H264EpochPayload) : result NativeStreamError bytes :=
  validate_epoch p then? map_err NativePostcard (to_stdvec p).

Definition epoch_decode (l : bytes) : result NativeStreamError H264EpochPayload :=
  let? (payload, remainder) := map_err NativePostcard (take_from_bytes l) in
  reject_if (remainder <> []) (NativeInvalidMetadata "trailing epoch payload data") then?
  validate_epoch payload then?
  let? encoded := map_err NativePostcard (to_stdvec payload) in
  reject_if (encoded <> l) (NativeInvalidMetadata "noncanonical epoch payload") then?
  Ok payload.

Definition validate_plaintext (kind : NativeObjectKind) (plaintext : bytes) :
    result NativeStreamError unit :=
  reject_if (plaintext = [] \/
             u64_saturating_add (zlen plaintext) AEAD_TAG_LEN > max_ciphertext kind)
    PayloadTooLarge then?
  match kind with
  | Epoch => epoch_decode plaintext then? Ok tt
  | Media => reject_if (~ is_annex_b plaintext)
               (NativeInvalidMetadata "media payload is not H.264 Annex-B")
  | Cursor => Ok tt
  end.

(** * Object operations *)

Definition validate_shape (o : NativeObject) : result NativeStreamError unit :=
  validate_header (header o) then?
  reject_if (zlen (ciphertext o) <> h_ciphertext_len (header o))
    (NativeInvalidMetadata "ciphertext length mismatch") then?
  reject_if (sha256 (ciphertext o) <> ciphertext_hash o) CiphertextHash.

Definition verify_public (o : NativeObject) (publisher : IdentityPublic) :
    result NativeStreamError unit :=
  validate_shape o then?
  let? id := map_err NativeIdentity (identity_id publisher) in
  reject_if (h_publisher_id (header o) <> id) WrongContext then?
  let claim := {| claim_header := header o; claim_ciphertext_hash := ciphertext_hash o |} in
  map_err signature_error (verify publisher OBJECT_DOMAIN claim (signature o)).

Definition object_open (o : NativeObject) (publisher : IdentityPublic) (key : ContentKey)
    (expected_key_id : array 16) : result NativeStreamError bytes :=
  verify_public o publisher then?
  reject_if (h_key_id (header o) <> expected_key_id) WrongContext then?
  let? associated_data := map_err NativePostcard (to_stdvec (header o)) in
  let? plaintext := ok_or (aead_decrypt (key_bytes key) (h_nonce (header o))
                             (ciphertext o) associated_data) Decryption in
  validate_plaintext (h_kind (header o)) plaintext then?
  reject_if (h_kind (header o) = Media /\
             h_random_access (header o) <> contains_h264_idr plaintext)
    (NativeInvalidMetadata "media random-access flag does not match H.264 access unit") then?
  Ok plaintext.

Definition object_encode (o : NativeObject) (publisher : IdentityPublic) :
    result NativeStreamError bytes :=
  verify_public o publisher then?
  let? encoded := map_err NativePostcard (to_stdvec o) in
  reject_if (zlen encoded > MAX_NATIVE_OBJECT_LEN) PayloadTooLarge then?
  Ok encoded.

Definition object_decode (l : bytes) (publisher : IdentityPublic) :
    result NativeStreamError NativeObject :=
  reject_if (zlen l > MAX_NATIVE_OBJECT_LEN) PayloadTooLarge then?
  let? (object, remainder) := map_err NativePostcard (take_from_bytes l) in
  reject_if (remainder <> []) (NativeInvalidMetadata "trailing native object data") then?
  verify_public object publisher then?
  let? encoded := map_err NativePostcard (to_stdvec object) in
  reject_if (encoded <> l) (NativeInvalidMetadata "noncanonical native object") then?
  Ok object.

(** * Group encryption *)

Definition group_restore (publisher : IdentityPublic) (stream_id epoch_id : uuid)
    (key_group : Z) (key_id : array 16) (nonce_prefix : array 4) (last_sequence : Z)
    (media_started : bool) (content_key : array 32) :
    result NativeStreamError GroupEncryptor :=
  reject_if (is_nil stream_id \/ is_nil epoch_id \/ key_group = 0 \/ key_id = zeros 16)
    (NativeInvalidMetadata "nil or zero group recovery identifier") then?
  let? publisher_id := map_err NativeIdentity (identity_id publisher) in
  let? key := content_key_from_bytes content_key in
  Ok {| ge_publisher_id := publisher_id; ge_stream_id := stream_id; ge_epoch_id := epoch_id;
        ge_key_group := key_group; ge_key_id := key_id; ge_nonce_prefix := nonce_prefix;
        ge_last_sequence := last_sequence; ge_media_started := media_started;
        ge_key := key |}.

(** [GroupEncryptor::generate] from the draws of the entropy source; [None]
    when it is exhausted. *)
Definition group_generate (publisher : IdentityPublic) (stream_id epoch_id : uuid)
    (key_group prior_sequence : Z) (id_draws : list (array 16)) (prefix : array 4)
    (key_draws : list (array 32)) : option (result NativeStreamError GroupEncryptor) :=
  if decide (is_nil stream_id \/ is_nil epoch_id \/ key_group = 0)
  then Some (Err (NativeInvalidMetadata "nil group stream or epoch identifier"))
  else
    key_id ← random_nonzero id_draws;
    key ← content_key_generate key_draws;
    Some (group_restore publisher stream_id epoch_id key_group key_id prefix
            prior_sequence false (content_key_to_bytes key)).

Definition seal_nonce (e : GroupEncryptor) (sequence : Z) : array 12 :=
  ge_nonce_prefix e +++ be_array 8 sequence.

Definition seal_header (e : GroupEncryptor) (object : NewNativeObject) (len : Z) :
    NativeObjectHeader := {|
  h_version := STREAM_FORMAT_VERSION; h_publisher_id := ge_publisher_id e;
  h_stream_id := ge_stream_id e; h_epoch_id := ge_epoch_id e;
  h_key_group := ge_key_group e; h_sequence := new_sequence object;
  h_timestamp := new_timestamp object; h_duration := new_duration object;
  h_kind := new_kind object; h_random_access := new_random_access object;
  h_codec := new_codec object; h_ciphertext_len := len; h_key_id := ge_key_id e;
  h_nonce := seal_nonce e (new_sequence object) |}.

(** The state after an object was sealed. *)
Definition sealed_state (e : GroupEncryptor) (object : NewNativeObject) : GroupEncryptor := {|
  ge_publisher_id := ge_publisher_id e; ge_stream_id := ge_stream_id e;
  ge_epoch_id := ge_epoch_id e; ge_key_group := ge_key_group e;
  ge_key_id := ge_key_id e; ge_nonce_prefix := ge_nonce_prefix e;
  ge_last_sequence := new_sequence object;
  ge_media_started :=
    if decide (new_kind object = Media) then true else ge_media_started e;
  ge_key := ge_key e |}.

Definition seal (e : GroupEncryptor) (publisher : IdentitySecret)
    (object : NewNativeObject) (plaintext : bytes) :
    result NativeStreamError (NativeObject * GroupEncryptor) :=
  reject_if (new_sequence object <= ge_last_sequence e) SequenceRegression then?
  let? public := map_err NativeIdentity (identity_public publisher) in
  let? id := map_err NativeIdentity (identity_id public) in
  reject_if (id <> ge_publisher_id e) WrongContext then?
  validate_plaintext (new_kind object) plaintext then?
  let contains_idr := contains_h264_idr plaintext in
  reject_if (new_kind object = Media /\
             (new_random_access object <> contains_idr \/
              (ge_media_started e = false /\ contains_idr = false)))
    (NativeInvalidMetadata "keyframe group does not begin with a declared H.264 IDR") then?
  let? ciphertext_len :=
    ok_or (length ← u64_checked_add (zlen plaintext) AEAD_TAG_LEN; u32_try_from length)
      PayloadTooLarge in
  let header := seal_header e object ciphertext_len in
  validate_header header then?
  let? associated_data := map_err NativePostcard (to_stdvec header) in
  let? ciphertext := ok_or (aead_encrypt (key_bytes (ge_key e)) (h_nonce header)
                              plaintext associated_data) Decryption in
  let ciphertext_hash := sha256 ciphertext in
  let claim := {| claim_header := header; claim_ciphertext_hash := ciphertext_hash |} in
  let? signature := map_err NativeIdentity (sign publisher OBJECT_DOMAIN claim) in
  Ok ({| header := header; ciphertext_hash := ciphertext_hash; signature := signature;
         ciphertext := ciphertext |}, sealed_state e object).

(** A caller's run of seals: a failed one leaves the state unchanged. *)
Fixpoint seal_run (e : GroupEncryptor) (publisher : IdentitySecret)
    (requests : list (NewNativeObject * bytes)) : list NativeObject :=
  match requests with
  | [] => []
  | (object, plaintext) :: requests =>
      match seal e publisher object plaintext with
      | Ok (sealed, e') => sealed :: seal_run e' publisher requests
      | Err _ => seal_run e publisher requests
      end
  end.
End native.

(** The viewer's use of the guard: what it passes of a received sequence. *)
Fixpoint live_guard_run (g : LiveSequenceGuard) (objects : list NativeObject) :
    list NativeObject :=
  match objects with
  | [] => []
  | o :: objects =>
      match live_guard_accept g o with
      | Ok g' => o :: live_guard_run g' objects
      | Err _ => live_guard_run g objects
      end
  end.

(** * The H.264 scan *)

Lemma starts_with_app p l : starts_with p (p ++ l).
Proof. unfold starts_with. apply take_app_length. Qed.

Lemma starts_with_exists p l : starts_with p l <-> exists rest, l = p ++ rest.
Proof.
  split; [|intros [rest ->]; apply starts_with_app].
  intros H. exists (drop (length p) l). unfold starts_with in H.
  by rewrite <-(take_drop (length p) l) at 1; rewrite H.
Qed.

Lemma idr_nal_at_true l i :
  idr_nal_at l i = true <-> exists b, l !! i = Some b /\ Z.land (Z_of_byte b) 31 = 5.
Proof.
  unfold idr_nal_at. destruct (l !! i) as [b|]; [rewrite bool_decide_eq_true|]; naive_solver.
Qed.

(** The random-access scan reports exactly the access units that contain a
    start code 00 00 01 followed by a NAL header of type 5. *)
Theorem contains_h264_idr_spec l :
  contains_h264_idr l = true <->
  exists pre b post, l = pre ++ START3 ++ b :: post /\ Z.land (Z_of_byte b) 31 = 5.
Proof.
  induction l as [|c l IH].
  { split; [done|]. intros (pre & b & post & H & _).
    apply (f_equal length) in H. rewrite !length_app in H. simpl in H. lia. }
  cbn [contains_h264_idr]. case_decide as Hlen.
  2: { split; [done|]. intros (pre & b & post & H & _).
    apply (f_equal length) in H. rewrite !length_app in H. simpl in *. lia. }
  assert (forall pre b post, pre <> [] -> c :: l = pre ++ START3 ++ b :: post ->
    Z.land (Z_of_byte b) 31 = 5 -> contains_h264_idr l = true) as Hrest.
  { intros [|c' pre] b post; [done|]. intros _ [= -> ->] Hb. apply IH. eauto. }
  assert (contains_h264_idr l = true -> exists pre b post,
    c :: l = pre ++ START3 ++ b :: post /\ Z.land (Z_of_byte b) 31 = 5) as Hback.
  { intros (pre & b & post & -> & Hb)%IH. by exists (c :: pre), b, post. }
  destruct (decide (starts_with START4 (c :: l))) as [[r Hr]%starts_with_exists|H4].
  - destruct (idr_nal_at (c :: l) 4) eqn:E.
    + split; [|done]. intros _. apply idr_nal_at_true in E as (b & Hb & ?).
      rewrite Hr in *. destruct r as [|b' r]; [done|]. simplify_eq/=.
      by exists [x00], b, r.
    + split; [apply Hback|]. intros ([|c' pre] & b & post & H & Hb);
        [rewrite Hr in H; done|]. by eapply (Hrest (c' :: pre)).
  - destruct (decide (starts_with START3 (c :: l))) as [[r Hr]%starts_with_exists|H3].
    + destruct (idr_nal_at (c :: l) 3) eqn:E.
      * split; [|done]. intros _. apply idr_nal_at_true in E as (b & Hb & ?).
        rewrite Hr in *. destruct r as [|b' r]; [done|]. simplify_eq/=. by exists [], b, r.
      * split; [apply Hback|]. intros ([|c' pre] & b & post & H & Hb);
          [|by eapply (Hrest (c' :: pre))].
        rewrite H in E. assert (idr_nal_at ([] ++ START3 ++ b :: post) 3 = true) as E'.
        { apply idr_nal_at_true. by exists b. }
        congruence.
    + split; [apply Hback|]. intros ([|c' pre] & b & post & H & Hb);
        [|by eapply (Hrest (c' :: pre))].
      destruct H3. rewrite H. apply (starts_with_app START3).
Qed.

(** * The live guard *)

Definition guard_passes (g : LiveSequenceGuard) (o : NativeObject) : Prop :=
  h_publisher_id (header o) = guard_publisher_id g /\
  h_stream_id (header o) = guard_stream_id g /\
  guard_last_sequence g < h_sequence (header o).

Definition sequence_lt (a b : NativeObject) : Prop :=
  h_sequence (header a) < h_sequence (header b).

Lemma live_guard_accept_Ok g o g' :
  live_guard_accept g o = Ok g' <->
  guard_passes g o /\
  g' = live_guard_new (guard_publisher_id g) (guard_stream_id g) (h_sequence (header o)).
Proof.
  unfold live_guard_accept, guard_passes, live_guard_new.
  rewrite !guard_bind. split.
  - intros (H1 & H2 & H). simplify_eq. nor_inv. split_and!; try done. lia.
  - intros ((-> & -> & Hl) & ->). split_and!; [tauto|lia|done].
Qed.

(** Whatever the relay sends, the objects a live subscriber is shown belong
    to the anchored stream and have strictly increasing sequences above the
    anchor; and the guard drops nothing of a sequence that already has them. *)
Theorem live_guard_run_spec g objects :
  Forall (guard_passes g) (live_guard_run g objects) /\
  StronglySorted sequence_lt (live_guard_run g objects) /\
  (Forall (guard_passes g) objects -> StronglySorted sequence_lt objects ->
   live_guard_run g objects = objects).
Proof.
  revert g. induction objects as [|o os IH]; intros g; simpl; [by split_and!; constructor|].
  destruct (live_guard_accept g o) as [g'|e] eqn:E.
  - apply live_guard_accept_Ok in E as [Hp ->].
    destruct (IH (live_guard_new (guard_publisher_id g) (guard_stream_id g)
      (h_sequence (header o)))) as (IH1 & IH2 & IH3).
    split_and!.
    + constructor; [done|]. eapply Forall_impl; [done|]. unfold guard_passes in *. simpl.
      intros ? (? & ? & ?). split_and!; try done. lia.
    + constructor; [done|]. eapply Forall_impl; [done|]. by intros ? (? & ? & ?).
    + intros Hf Hs. inversion_clear Hs as [|? ? Hs' Hlt]. f_equal. apply IH3; [|done].
      apply Forall_cons in Hf as [_ Hf].
      rewrite Forall_forall in *. intros x Hx. destruct (Hf x Hx) as (? & ? & ?).
      split_and!; try done. by apply Hlt.
  - destruct (IH g) as (IH1 & IH2 & IH3). split_and!; [done..|].
    intros [Hp _]%Forall_cons. exfalso.
    assert (live_guard_accept g o = Ok (live_guard_new (guard_publisher_id g)
      (guard_stream_id g) (h_sequence (header o)))) by by apply live_guard_accept_Ok.
    congruence.
Qed.

(** * Sealing *)

Section sealing.
Context `{crypto : !Crypto}.
Context `{!Postcard IdentityPublic, !Postcard StreamDescriptorBody}.
Context `{!Postcard StreamDescriptor, !Postcard NativeObjectHeader}.
Context `{!Postcard NativeObjectClaim, !Postcard NativeObject}.
Context `{!Postcard H264EpochPayload}.

(** A valid header's nonce spells its sequence in the last eight bytes. *)
Lemma validate_header_nonce h :
  validate_header h = Ok tt -> be_value (drop 4 (slice (h_nonce h))) = h_sequence h.
Proof.
  unfold validate_header. rewrite !guard_bind.
  intros (_ & _ & (v & Hv & H)%bind_Ok_inv). rewrite guard_bind in H.
  apply ok_or_Ok, array_try_from_Some in Hv as ->. destruct H as [H _].
  by apply dec_stable in H.
Qed.

Lemma seal_Ok e secret object plaintext sealed e' :
  seal e secret object plaintext = Ok (sealed, e') ->
  ge_last_sequence e < new_sequence object /\ e' = sealed_state e object /\
  header sealed = seal_header e object (zlen plaintext + 16) /\
  validate_header (header sealed) = Ok tt /\
  validate_plaintext (new_kind object) plaintext = Ok tt /\
  (new_kind object = Media -> new_random_access object = contains_h264_idr plaintext) /\
  ciphertext_hash sealed = sha256 (ciphertext sealed) /\
  exists public ad,
    identity_public secret = Ok public /\ identity_id public = Ok (ge_publisher_id e) /\
    to_stdvec (header sealed) = Ok ad /\
    aead_encrypt (key_bytes (ge_key e)) (h_nonce (header sealed)) plaintext ad =
      Some (ciphertext sealed) /\
    sign secret OBJECT_DOMAIN {| claim_header := header sealed;
      claim_ciphertext_hash := ciphertext_hash sealed |} = Ok (signature sealed).
Proof.
  unfold seal. rewrite guard_bind.
  intros (Hs & (public & Hp%map_err_Ok & (id & Hid%map_err_Ok & H)%bind_Ok_inv)%bind_Ok_inv).
  rewrite guard_bind, unit_bind, guard_bind in H. destruct H as (He & Hpt & Hidr & H).
  apply dec_stable in He as ->.
  apply bind_Ok_inv in H as (len & Hlen%ok_or_Ok & H).
  apply bind_Some in Hlen as (n & Hn & Hlen). int_inv.
  rewrite unit_bind in H. destruct H as (Hh & (ad & Had%map_err_Ok & H)%bind_Ok_inv).
  apply bind_Ok_inv in H as (ct & Hct%ok_or_Ok & H).
  apply bind_Ok_inv in H as (sig & Hsig%map_err_Ok & H). simplify_eq/=.
  split_and!; try done; [lia | | by eauto 10].
  intros Hm. destruct (decide (new_random_access object = contains_h264_idr plaintext)); tauto.
Qed.

(** C35: nonces are never reused: over any run of seals by one encryptor,
    failed attempts included, the sealed objects carry the group's key
    identifier, strictly increasing sequences above the initial one, and
    pairwise distinct nonces. *)
Theorem seal_run_nonces e secret requests :
  let sealed := seal_run e secret requests in
  Forall (fun o => h_key_id (header o) = ge_key_id e /\
                   ge_last_sequence e < h_sequence (header o)) sealed /\
  StronglySorted sequence_lt sealed /\
  NoDup ((fun o => h_nonce (header o)) <$> sealed).
Proof.
  enough (Forall (fun o => h_key_id (header o) = ge_key_id e /\
      ge_last_sequence e < h_sequence (header o) /\
      validate_header (header o) = Ok tt) (seal_run e secret requests) /\
    StronglySorted sequence_lt (seal_run e secret requests)) as [Hf Hs].
  { simpl. split_and!; [by eapply Forall_impl; [done|]; naive_solver | done |].
    induction Hs as [|o os Hs IH Hlt]; [constructor|].
    apply Forall_cons in Hf as [(_ & _ & Hv) Hf]. cbn. constructor; [|by apply IH].
    intros (o' & Heq & Ho')%list_elem_of_fmap.
    rewrite Forall_forall in Hlt, Hf. specialize (Hlt _ Ho'). destruct (Hf _ Ho') as (_ & _ & Hv').
    apply validate_header_nonce in Hv, Hv'. unfold sequence_lt in Hlt. rewrite Heq in Hv. lia. }
  revert e. induction requests as [|[object plaintext] requests IH]; intros e; simpl;
    [by split; constructor|].
  destruct (seal e secret object plaintext) as [[o e']|] eqn:E; [|apply IH].
  apply seal_Ok in E as (Hlt & -> & Hh & Hv & _).
  destruct (IH (sealed_state e object)) as [IH1 IH2]. split.
  - constructor; [rewrite Hh in *; simpl in *; naive_solver|].
    eapply Forall_impl; [done|]. simpl. intros x (? & ? & ?). split_and!; try done. lia.
  - constructor; [done|]. eapply Forall_impl; [done|]. intros x (_ & Hx & _).
    unfold sequence_lt. rewrite Hh. by simpl in *.
Qed.

Context `{crypto_laws : !CryptoLaws}.

(** A sealed object passes public verification under the sealing publisher. *)
Lemma seal_verifies e secret public object plaintext sealed e' :
  identity_public secret = Ok public ->
  seal e secret object plaintext = Ok (sealed, e') ->
  verify_public sealed public = Ok tt.
Proof.
  intros Hpub (_ & _ & Hh & Hv & Hpt & Hra & Hhash & public' & ad & Hpub' & Hid & Had & Hct &
    Hsig)%seal_Ok.
  rewrite Hpub in Hpub'. injection Hpub' as <-. unfold verify_public, validate_shape.
  rewrite Hv. cbn [mbind result_bind]. rewrite unit_bind, guard_bind, reject_if_Ok. rewrite Hid.
  cbn [mbind result_bind map_err].
  rewrite guard_bind, map_err_Ok. split_and!.
  - rewrite (aead_length _ _ _ _ _ Hct), Hh. simpl. lia.
  - rewrite Hhash. auto.
  - rewrite Hh. auto.
  - by eapply sign_verify.
Qed.

(** A sealed object passes public verification under the sealing
    publisher and opens, with the key and key identifier of its group, to the
    plaintext it was made of. *)
Theorem seal_open e secret public object plaintext sealed e' :
  identity_public secret = Ok public ->
  seal e secret object plaintext = Ok (sealed, e') ->
  verify_public sealed public = Ok tt /\
  object_open sealed public (ge_key e) (ge_key_id e) = Ok plaintext.
Proof.
  intros Hpub Hseal. pose proof (seal_verifies _ _ _ _ _ _ _ Hpub Hseal) as Hvp.
  apply seal_Ok in Hseal as (_ & _ & Hh & Hv & Hpt & Hra & Hhash & public' & ad & Hpub' & Hid & Had & Hct & _).
  split; [done|]. unfold object_open. rewrite Hvp. cbn [mbind result_bind].
  rewrite guard_bind. split; [rewrite Hh; auto|]. rewrite Had. cbn [mbind result_bind map_err].
  rewrite (aead_correct _ _ _ _ _ Hct). cbn [mbind result_bind ok_or].
  rewrite unit_bind, guard_bind. rewrite Hh. simpl. split_and!; [done| |done].
  intros [Hm Hne]. by apply Hne, Hra.
Qed.
End sealing.

(** * Codecs *)

Section codecs.
Context `{crypto : !Crypto}.
Context `{!Postcard IdentityPublic, !Postcard StreamDescriptorBody}.
Context `{!Postcard StreamDescriptor, !Postcard NativeObjectHeader}.
Context `{!Postcard NativeObjectClaim, !Postcard NativeObject}.
Context `{!PostcardLaws StreamDescriptor, !PostcardLaws NativeObject}.

(** The object codec is inverse and canonical: bytes decode to an object
    exactly when they are the encoding of that object, which is publicly
    verified and within the size bound either way. *)
Lemma object_codec_iff l publisher o :
  object_decode l publisher = Ok o <-> object_encode o publisher = Ok l.
Proof.
  unfold object_decode, object_encode. rewrite guard_bind, unit_bind. split.
  - intros (Hlen & ([w rest] & Ht%map_err_Ok & H)%bind_Ok_inv).
    rewrite guard_bind, unit_bind in H. destruct H as (_ & Hv & (e & He%map_err_Ok & H)%bind_Ok_inv).
    rewrite guard_bind in H. destruct H as [->%dec_stable H]. simplify_eq.
    split; [done|]. rewrite He. cbn [map_err mbind result_bind]. by rewrite guard_bind.
  - intros (Hv & (e & He%map_err_Ok & H)%bind_Ok_inv). rewrite guard_bind in H.
    destruct H as [Hlen H]. simplify_eq. split; [done|].
    rewrite (take_to_stdvec_nil _ _ He). cbn [map_err mbind result_bind].
    rewrite guard_bind, unit_bind. split_and!; [by intros []|done|].
    rewrite He. cbn [map_err mbind result_bind]. rewrite guard_bind. split; [by intros []|done].
Qed.

(** The descriptor codec is inverse and canonical in the same way. *)
Lemma descriptor_codec_iff l d :
  descriptor_decode l = Ok d <-> descriptor_encode d = Ok l.
Proof.
  assert (descriptor_encode d = Ok l -> to_stdvec d = Ok l /\ zlen l <= MAX_DESCRIPTOR_LEN /\
    descriptor_verify d = Ok tt) as Henc.
  { unfold descriptor_encode. rewrite unit_bind.
    intros (Hv & (e & He%map_err_Ok & H)%bind_Ok_inv). rewrite guard_bind in H.
    destruct H. simplify_eq. by split_and!; try lia. }
  unfold descriptor_decode. rewrite guard_bind. split.
  - intros (Hlen & ([w rest] & Ht%map_err_Ok & H)%bind_Ok_inv).
    rewrite guard_bind, unit_bind in H. destruct H as (_ & _ & (e & He & H)%bind_Ok_inv).
    rewrite guard_bind in H. destruct H as [->%dec_stable H]. by simplify_eq.
  - intros H. pose proof (Henc H) as (He & Hlen & Hv). split; [lia|].
    rewrite (take_to_stdvec_nil _ _ He). cbn [map_err mbind result_bind].
    rewrite guard_bind, unit_bind. split_and!; [by intros []|done|].
    rewrite H. cbn [map_err mbind result_bind]. rewrite guard_bind. split; [by intros []|done].
Qed.
End codecs.

(** ** Witnesses *)

#[local] Existing Instance toy_identity_public.

Definition f_unit_codec : format CodecId := f_iso f_byte (fun _ => x00) (fun _ => Some H264AnnexB).
Definition f_kind : format NativeObjectKind :=
  f_iso f_byte (fun k => match k with Epoch => x00 | Media => x01 | Cursor => x02 end)
    (fun b => match b with x00 => Some Epoch | x01 => Some Media | x02 => Some Cursor
                         | _ => None end).
Definition f_sig : format SignatureBytes :=
  f_iso (f_pair (f_array 32) (f_array 32)) (fun s => (first s, second s))
    (fun '(a, b) => Some {| first := a; second := b |}).
Definition f_descriptor_body : format StreamDescriptorBody :=
  f_iso (f_pair (f_pair (f_pair f_Z f_identity_public) (f_pair (f_array 16) (f_list f_Z)))
           (f_pair (f_pair (f_list f_Z) (f_list f_unit_codec)) (f_pair f_bool f_Z)))
    (fun b => (((desc_version b, desc_publisher b), (desc_stream_id b, desc_name b)),
               ((desc_source_label b, desc_codecs b), (desc_cursor b, desc_created_at_ms b))))
    (fun '(((v, p), (i, n)), ((s, c), (u, t))) =>
       Some {| desc_version := v; desc_publisher := p; desc_stream_id := i; desc_name := n;
               desc_source_label := s; desc_codecs := c; desc_cursor := u;
               desc_created_at_ms := t |}).
Definition f_descriptor : format StreamDescriptor :=
  f_iso (f_pair f_descriptor_body f_sig) (fun d => (desc_body d, desc_signature d))
    (fun '(b, s) => Some {| desc_body := b; desc_signature := s |}).
Definition f_header : format NativeObjectHeader :=
  f_iso (f_pair (f_pair (f_pair (f_pair f_Z (f_array 32)) (f_pair (f_array 16) (f_array 16)))
                        (f_pair (f_pair f_Z f_Z) (f_pair f_Z f_Z)))
           (f_pair (f_pair (f_pair f_kind f_bool) (f_pair (f_option f_unit_codec) f_Z))
                   (f_pair (f_array 16) (f_array 12))))
    (fun h => ((((h_version h, h_publisher_id h), (h_stream_id h, h_epoch_id h)),
                ((h_key_group h, h_sequence h), (h_timestamp h, h_duration h))),
               (((h_kind h, h_random_access h), (h_codec h, h_ciphertext_len h)),
                (h_key_id h, h_nonce h))))
    (fun '((((v, p), (s, e)), ((g, q), (t, d))), (((k, r), (c, l)), (i, n))) =>
       Some {| h_version := v; h_publisher_id := p; h_stream_id := s; h_epoch_id := e;
               h_key_group := g; h_sequence := q; h_timestamp := t; h_duration := d;
               h_kind := k; h_random_access := r; h_codec := c; h_ciphertext_len := l;
               h_key_id := i; h_nonce := n |}).
Definition f_claim : format NativeObjectClaim :=
  f_iso (f_pair f_header (f_array 32)) (fun c => (claim_header c, claim_ciphertext_hash c))
    (fun '(h, c) => Some {| claim_header := h; claim_ciphertext_hash := c |}).
Definition f_object : format NativeObject :=
  f_iso (f_pair (f_pair f_header (f_array 32)) (f_pair f_sig (f_list f_byte)))
    (fun o => ((header o, ciphertext_hash o), (signature o, ciphertext o)))
    (fun '((h, c), (s, t)) =>
       Some {| header := h; ciphertext_hash := c; signature := s; ciphertext := t |}).
Definition f_epoch : format H264EpochPayload :=
  f_iso (f_pair f_Z (f_pair f_Z (f_list f_byte)))
    (fun p => (epoch_width p, (epoch_height p, codec_config p)))
    (fun '(w, (h, c)) => Some {| epoch_width := w; epoch_height := h; codec_config := c |}).

Lemma f_unit_codec_ok : format_ok f_unit_codec.
Proof. apply f_iso_ok; [by intros [] | auto with toy]. Qed.
Lemma f_kind_ok : format_ok f_kind.
Proof. apply f_iso_ok; [by intros [] | auto with toy]. Qed.
Lemma f_sig_ok : format_ok f_sig.
Proof. apply f_iso_ok; [by intros [] | auto with toy]. Qed.
#[export] Hint Resolve f_unit_codec_ok f_kind_ok f_sig_ok : toy.
Lemma f_header_ok : format_ok f_header.
Proof. apply f_iso_ok; [by intros [] | auto 10 with toy]. Qed.
Lemma f_descriptor_body_ok : format_ok f_descriptor_body.
Proof. apply f_iso_ok; [by intros [] | auto 10 with toy]. Qed.
#[export] Hint Resolve f_header_ok f_descriptor_body_ok : toy.

#[local] Instance toy_descriptor_body : Postcard StreamDescriptorBody :=
  postcard_of f_descriptor_body.
#[local] Instance toy_descriptor : Postcard StreamDescriptor := postcard_of f_descriptor.
#[local] Instance toy_header : Postcard NativeObjectHeader := postcard_of f_header.
#[local] Instance toy_claim : Postcard NativeObjectClaim := postcard_of f_claim.
#[local] Instance toy_object : Postcard NativeObject := postcard_of f_object.
#[local] Instance toy_epoch : Postcard H264EpochPayload := postcard_of f_epoch.
#[local] Instance toy_descriptor_laws : PostcardLaws StreamDescriptor.
Proof. apply postcard_of_laws, f_iso_ok; [by intros [] | auto with toy]. Defined.
#[local] Instance toy_object_laws : PostcardLaws NativeObject.
Proof. apply postcard_of_laws, f_iso_ok; [by intros [] | auto with toy]. Defined.

Definition sample_stream : uuid := Vector.const x0a 16.
Definition sample_epoch : uuid := Vector.const x0b 16.

Definition sample_group : GroupEncryptor :=
  match group_generate sample_public sample_stream sample_epoch 1 0
          [Vector.const x0c 16] (Vector.const x0d 4) [Vector.const x0e 32] with
  | Some (Ok e) => e
  | _ => {| ge_publisher_id := zeros 32; ge_stream_id := uuid_nil; ge_epoch_id := uuid_nil;
            ge_key_group := 0; ge_key_id := zeros 16; ge_nonce_prefix := zeros 4;
            ge_last_sequence := 0; ge_media_started := false;
            ge_key := {| key_bytes := zeros 32 |} |}
  end.
Definition sample_media (sequence : Z) (random_access : bool) : NewNativeObject := {|
  new_sequence := sequence; new_timestamp := sequence * 90000; new_duration := 3000;
  new_kind := Media; new_random_access := random_access; new_codec := Some H264AnnexB |}.
Definition sample_idr : bytes := [x00; x00; x00; x01; x65; x88].

Definition sample_object : NativeObject :=
  match seal sample_group sample_secret (sample_media 1 true) sample_idr with
  | Ok (o, _) => o
  | Err _ => {| header := seal_header sample_group (sample_media 1 true) 0;
                ciphertext_hash := zeros 32;
                signature := {| first := zeros 32; second := zeros 32 |}; ciphertext := [] |}
  end.
Definition sample_descriptor : StreamDescriptor :=
  match descriptor_new sample_secret sample_stream (ascii_str "desktop")
          (ascii_str "monitor") true 1000 with
  | Ok d => d
  | Err _ => {| desc_body := {| desc_version := 0; desc_publisher := sample_public;
                  desc_stream_id := uuid_nil; desc_name := []; desc_source_label := [];
                  desc_codecs := []; desc_cursor := false; desc_created_at_ms := 0 |};
                desc_signature := {| first := zeros 32; second := zeros 32 |} |}
  end.

Lemma seal_open_witness :
  verify_public sample_object sample_public = Ok tt /\
  object_open sample_object sample_public (ge_key sample_group) (ge_key_id sample_group)
    = Ok sample_idr.
Proof.
  apply (seal_open sample_group sample_secret sample_public (sample_media 1 true) sample_idr
           sample_object (sealed_state sample_group (sample_media 1 true)));
    vm_compute; reflexivity.
Defined.
