(* ===== verification/Envelope.v ===== *)
(** [crates/protocol/src/envelope.rs]: content keys encrypted to one viewer and
    signed by the publisher.

    The theorems state that the addressed viewer, and no viewer with another
    fingerprint, opens an envelope to the sealed key, and that the codec is
    inverse and canonical. *)
From Stdlib Require Import ZArith Lia.
From S2P Require Import Prelude Bytes External Toy Identity.

Definition KEY_ENVELOPE_VERSION : Z := 1.
Definition MAX_KEY_ENVELOPE_LEN : Z := 1024.
Definition ENVELOPE_DOMAIN : bytes := byte_string "glacialcast-key-envelope-v1".
Definition HPKE_INFO_PREFIX : bytes := byte_string "glacialcast-hpke-content-key-v1".
Definition HPKE_CIPHERTEXT_LEN : Z := 32 + 16.

Inductive EnvelopeError : Type :=
| EnvelopeUnsupportedVersion (version : Z)
| EnvelopeInvalidMetadata (what : string)
| WrongRecipient
| WrongPublisher
| EnvelopeHpke
| EnvelopeIdentity (e : IdentityError).
#[global] Instance EnvelopeError_eq_dec : EqDecision EnvelopeError.
Proof. solve_decision. Defined.

Record KeyEnvelopeHeader : Type := {
  eh_version : Z;
  eh_publisher_id : array 32;
  eh_recipient_id : array 32;
  eh_stream_id : uuid;
  eh_epoch_id : uuid;
  eh_key_group_id : Z;
  eh_key_id : array 16;
}.

Record KeyEnvelope : Type := {
  env_header : KeyEnvelopeHeader;
  env_encapsulated_key : array 32;
  env_ciphertext : bytes;
  env_signature : SignatureBytes;
}.
#[global] Instance KeyEnvelopeHeader_eq_dec : EqDecision KeyEnvelopeHeader.
Proof. solve_decision. Defined.
#[global] Instance KeyEnvelope_eq_dec : EqDecision KeyEnvelope.
Proof. solve_decision. Defined.

(** The signed part of an envelope. *)
Record UnsignedEnvelope : Type := {
  un_header : KeyEnvelopeHeader;
  un_encapsulated_key : array 32;
  un_ciphertext : bytes;
}.

Definition envelope_header_validate (h : KeyEnvelopeHeader) : result EnvelopeError unit :=
  reject_if (eh_version h <> KEY_ENVELOPE_VERSION)
    (EnvelopeUnsupportedVersion (eh_version h)) then?
  reject_if (is_nil (eh_stream_id h) \/ is_nil (eh_epoch_id h) \/ eh_key_group_id h = 0)
    (EnvelopeInvalidMetadata "invalid stream key-group identity") then?
  reject_if (eh_publisher_id h = zeros 32 \/ eh_recipient_id h = zeros 32 \/
             eh_key_id h = zeros 16)
    (EnvelopeInvalidMetadata "zero identity or key identifier").

Definition envelope_validate_shape (e : KeyEnvelope) : result EnvelopeError unit :=
  envelope_header_validate (env_header e) then?
  reject_if (zlen (env_ciphertext e) <> HPKE_CIPHERTEXT_LEN)
    (EnvelopeInvalidMetadata "unexpected HPKE ciphertext length").

Section envelope.
Context `{crypto : !Crypto}.
Context `{!Postcard IdentityPublic, !Postcard KeyEnvelopeHeader}.
Context `{!Postcard UnsignedEnvelope, !Postcard KeyEnvelope}.

(** The [info] and associated data of the HPKE operations. *)
Definition hpke_context (h : KeyEnvelopeHeader) : result EnvelopeError (bytes * bytes) :=
  let? aad := map_err EnvelopeIdentity (canonical h) in
  Ok (HPKE_INFO_PREFIX ++ aad, aad).

Definition unsigned_of (e : KeyEnvelope) : UnsignedEnvelope :=
  {| un_header := env_header e; un_encapsulated_key := env_encapsulated_key e;
     un_ciphertext := env_ciphertext e |}.

(** [KeyEnvelope::seal]; [rnd] is the randomness of the encapsulation. *)
Definition envelope_seal (publisher : IdentitySecret) (recipient : IdentityPublic)
    (stream_id epoch_id : uuid) (key_group_id : Z) (key_id : array 16)
    (content_key : array 32) (rnd : bytes) : result EnvelopeError KeyEnvelope :=
  let? publisher_public := map_err EnvelopeIdentity (identity_public publisher) in
  map_err EnvelopeIdentity (identity_validate recipient) then?
  let? publisher_id := map_err EnvelopeIdentity (identity_id publisher_public) in
  let? recipient_id := map_err EnvelopeIdentity (identity_id recipient) in
  let header := {|
    eh_version := KEY_ENVELOPE_VERSION; eh_publisher_id := publisher_id;
    eh_recipient_id := recipient_id; eh_stream_id := stream_id; eh_epoch_id := epoch_id;
    eh_key_group_id := key_group_id; eh_key_id := key_id |} in
  envelope_header_validate header then?
  let? (info, aad) := hpke_context header in
  let? recipient_key := map_err EnvelopeIdentity (kem_public_key recipient) in
  let? (encapsulated_key, ciphertext) :=
    ok_or (hpke_seal recipient_key info (slice content_key) aad rnd) EnvelopeHpke in
  reject_if (zlen ciphertext <> HPKE_CIPHERTEXT_LEN)
    (EnvelopeInvalidMetadata "unexpected HPKE ciphertext length") then?
  let unsigned := {| un_header := header; un_encapsulated_key := encapsulated_key;
                     un_ciphertext := ciphertext |} in
  let? signature := map_err EnvelopeIdentity (sign publisher ENVELOPE_DOMAIN unsigned) in
  Ok {| env_header := header; env_encapsulated_key := encapsulated_key;
        env_ciphertext := ciphertext; env_signature := signature |}.

Definition envelope_verify_public (e : KeyEnvelope) (publisher : IdentityPublic) :
    result EnvelopeError unit :=
  envelope_validate_shape e then?
  map_err EnvelopeIdentity (identity_validate publisher) then?
  let? id := map_err EnvelopeIdentity (identity_id publisher) in
  reject_if (eh_publisher_id (env_header e) <> id) WrongPublisher then?
  map_err EnvelopeIdentity (verify publisher ENVELOPE_DOMAIN (unsigned_of e) (env_signature e))
  then? Ok tt.

Definition envelope_open (e : KeyEnvelope) (recipient : IdentitySecret)
    (publisher : IdentityPublic) : result EnvelopeError (array 32) :=
  envelope_verify_public e publisher then?
  let? recipient_public := map_err EnvelopeIdentity (identity_public recipient) in
  let? id := map_err EnvelopeIdentity (identity_id recipient_public) in
  reject_if (eh_recipient_id (env_header e) <> id) WrongRecipient then?
  let? (info, aad) := hpke_context (env_header e) in
  let? private_key := map_err EnvelopeIdentity (kem_private_key recipient) in
  reject_if (hpke_encapsulated_valid (env_encapsulated_key e) = false) EnvelopeHpke then?
  let? plaintext := ok_or (hpke_open private_key (env_encapsulated_key e) info
                             (env_ciphertext e) aad) EnvelopeHpke in
  ok_or (array_try_from 32 plaintext) (EnvelopeInvalidMetadata "unexpected content key length").

Definition envelope_encode (e : KeyEnvelope) (publisher : IdentityPublic) :
    result EnvelopeError bytes :=
  envelope_verify_public e publisher then?
  let? encoded := map_err EnvelopeIdentity (canonical e) in
  reject_if (zlen encoded > MAX_KEY_ENVELOPE_LEN)
    (EnvelopeInvalidMetadata "key envelope too large") then?
  Ok encoded.

Definition envelope_decode (l : bytes) (publisher : IdentityPublic) :
    result EnvelopeError KeyEnvelope :=
  reject_if (zlen l > MAX_KEY_ENVELOPE_LEN)
    (EnvelopeInvalidMetadata "key envelope too large") then?
  let? (envelope, remainder) :=
    map_err EnvelopeIdentity (map_err IdentityPostcard (take_from_bytes l)) in
  reject_if (remainder <> []) (EnvelopeInvalidMetadata "trailing key envelope data") then?
  envelope_verify_public envelope publisher then?
  let? encoded := map_err EnvelopeIdentity (canonical envelope) in
  reject_if (encoded <> l) (EnvelopeInvalidMetadata "noncanonical key envelope") then?
  Ok envelope.

(** * Theorems *)

Lemma identity_id_valid id h : identity_id id = Ok h -> identity_validate id = Ok tt.
Proof. unfold identity_id. rewrite unit_bind. by intros [? _]. Qed.

Lemma canonical_Ok {T} `{!Postcard T} (v : T) l : canonical v = Ok l <-> to_stdvec v = Ok l.
Proof. unfold canonical. by rewrite map_err_Ok. Qed.

Lemma hpke_context_Ok h p :
  hpke_context h = Ok p ->
  exists aad, canonical h = Ok aad /\ p = (HPKE_INFO_PREFIX ++ aad, aad).
Proof. unfold hpke_context. intros H. res_inv. eauto. Qed.

(** Everything a successful [seal] established. *)
Lemma envelope_seal_Ok publisher recipient sid eid g kid key rnd e :
  envelope_seal publisher recipient sid eid g kid key rnd = Ok e ->
  envelope_validate_shape e = Ok tt /\
  exists pub aad kem,
    identity_public publisher = Ok pub /\
    identity_id pub = Ok (eh_publisher_id (env_header e)) /\
    identity_id recipient = Ok (eh_recipient_id (env_header e)) /\
    hpke_context (env_header e) = Ok (HPKE_INFO_PREFIX ++ aad, aad) /\
    kem_public_key recipient = Ok kem /\
    hpke_seal kem (HPKE_INFO_PREFIX ++ aad) (slice key) aad rnd =
      Some (env_encapsulated_key e, env_ciphertext e) /\
    sign publisher ENVELOPE_DOMAIN (unsigned_of e) = Ok (env_signature e).
Proof.
  unfold envelope_seal. intros (pub & Hpub%map_err_Ok & H)%bind_Ok_inv.
  rewrite unit_bind in H. destruct H as (_ & (pid & Hpid%map_err_Ok & H)%bind_Ok_inv).
  apply bind_Ok_inv in H as (rid & Hrid%map_err_Ok & H).
  rewrite unit_bind in H. destruct H as (Hval & ([info aad] & Hctx & H)%bind_Ok_inv).
  pose proof (hpke_context_Ok _ _ Hctx) as (aad' & _ & [= -> ->]).
  apply bind_Ok_inv in H as (kem & Hkem%map_err_Ok & H).
  apply bind_Ok_inv in H as ([enc ct] & Hseal%ok_or_Ok & H).
  rewrite guard_bind in H. destruct H as (Hlen & (sig & Hsig%map_err_Ok & H)%bind_Ok_inv).
  simplify_eq. split.
  - unfold envelope_validate_shape. by rewrite unit_bind, reject_if_Ok.
  - by exists pub, aad', kem.
Qed.

Context `{crypto_laws : !CryptoLaws}.

(** The header names the group that the key belongs to. *)
Lemma envelope_seal_group publisher recipient sid eid g kid key rnd e :
  envelope_seal publisher recipient sid eid g kid key rnd = Ok e ->
  eh_stream_id (env_header e) = sid /\ eh_epoch_id (env_header e) = eid /\
  eh_key_group_id (env_header e) = g /\ eh_key_id (env_header e) = kid.
Proof.
  unfold envelope_seal. intros (pub & _ & H)%bind_Ok_inv.
  rewrite unit_bind in H. destruct H as (_ & (pid & _ & H)%bind_Ok_inv).
  apply bind_Ok_inv in H as (rid & _ & H). rewrite unit_bind in H. destruct H as [_ H].
  apply bind_Ok_inv in H as ([info aad] & _ & H). apply bind_Ok_inv in H as (kem & _ & H).
  apply bind_Ok_inv in H as ([enc ct] & _ & H). rewrite guard_bind in H. destruct H as [_ H].
  apply bind_Ok_inv in H as (sig & _ & [= <-]). done.
Qed.

Lemma envelope_seal_public publisher recipient sid eid g kid key rnd e pub :
  envelope_seal publisher recipient sid eid g kid key rnd = Ok e ->
  identity_public publisher = Ok pub -> envelope_verify_public e pub = Ok tt.
Proof.
  intros (Hshape & pub' & aad & kem & Hpub & Hpid & _ & _ & _ & _ & Hsig)%envelope_seal_Ok Hp.
  rewrite Hpub in Hp. injection Hp as ->. unfold envelope_verify_public.
  rewrite Hshape, (identity_id_valid _ _ Hpid), Hpid. cbn [mbind result_bind map_err].
  rewrite guard_bind, unit_bind, map_err_Ok. split_and!; [by intros []| |done].
  by eapply sign_verify.
Qed.

(** An envelope sealed to a viewer verifies under its publisher; the
    addressed viewer opens it to the sealed content key, and a viewer with any
    other fingerprint is refused as the wrong recipient. *)
Theorem envelope_seal_open publisher pub recipient sid eid g kid key rnd e viewer vpub vid :
  envelope_seal publisher recipient sid eid g kid key rnd = Ok e ->
  identity_public publisher = Ok pub ->
  identity_public viewer = Ok vpub -> identity_id vpub = Ok vid ->
  (vpub = recipient -> envelope_open e viewer pub = Ok key) /\
  (identity_id recipient <> Ok vid -> envelope_open e viewer pub = Err WrongRecipient).
Proof.
  intros Hseal Hpub Hv Hvid. pose proof (envelope_seal_public _ _ _ _ _ _ _ _ _ _ Hseal Hpub) as Hvp.
  apply envelope_seal_Ok in Hseal as (_ & pub' & aad & kem & _ & _ & Hrid & Hctx & Hkem & Hs & _).
  unfold envelope_open. rewrite Hvp, Hv. cbn [mbind result_bind map_err]. rewrite Hvid.
  cbn [mbind result_bind map_err]. split.
  - intros ->. rewrite guard_bind. split; [congruence|]. rewrite Hctx.
    cbn [mbind result_bind map_err].
    pose proof Hv as (Hxv & _ & Hrec)%identity_public_Ok.
    assert (kem = x25519_public (kem_secret viewer)) as ->.
    { unfold kem_public_key in Hkem. rewrite unit_bind, guard_bind in Hkem.
      destruct Hkem as (_ & _ & [= <-]). by rewrite Hrec. }
    destruct (hpke_correct _ _ _ _ _ _ _ Hxv Hs) as [Henc Hopen].
    unfold kem_private_key. rewrite Hxv.
    rewrite (reject_if_false (true = false)) by done. cbn [mbind result_bind map_err].
    rewrite guard_bind. split; [by rewrite Henc|]. rewrite Hopen. cbn [mbind result_bind ok_or].
    by rewrite array_try_from_slice.
  - intros Hne. assert (eh_recipient_id (env_header e) <> vid) as Hid.
    { intros Heq. apply Hne. by rewrite Hrid, Heq. }
    by rewrite (proj2 (reject_if_Err _ _ _) (conj Hid eq_refl)).
Qed.

(** The envelope codec is inverse and canonical: bytes decode to an
    envelope exactly when they are its encoding. *)
Lemma envelope_codec_iff `{!PostcardLaws KeyEnvelope} l publisher e :
  envelope_decode l publisher = Ok e <-> envelope_encode e publisher = Ok l.
Proof.
  unfold envelope_decode, envelope_encode. rewrite guard_bind, unit_bind. split.
  - intros (Hlen & ([w rest] & _ & H)%bind_Ok_inv).
    rewrite guard_bind, unit_bind in H. destruct H as (_ & Hv & (c & Hc & H)%bind_Ok_inv).
    rewrite guard_bind in H. destruct H as [->%dec_stable H]. simplify_eq.
    split; [done|]. rewrite Hc. cbn [mbind result_bind]. by rewrite guard_bind.
  - intros (Hv & (c & Hc & H)%bind_Ok_inv). rewrite guard_bind in H.
    destruct H as [Hlen H]. simplify_eq. split; [done|].
    pose proof Hc as Ht%map_err_Ok%canonical_Ok.
    rewrite (take_to_stdvec_nil _ _ Ht). cbn [map_err mbind result_bind].
    rewrite guard_bind, unit_bind. split_and!; [by intros []|done|].
    rewrite Hc. cbn [mbind result_bind]. rewrite guard_bind. split; [by intros []|done].
Qed.
End envelope.

(** ** Witnesses *)

#[local] Existing Instance toy_identity_public.

Definition f_envelope_header : format KeyEnvelopeHeader :=
  f_iso (f_pair (f_pair f_Z (f_pair (f_array 32) (f_array 32)))
           (f_pair (f_pair (f_array 16) (f_array 16)) (f_pair f_Z (f_array 16))))
    (fun h => ((eh_version h, (eh_publisher_id h, eh_recipient_id h)),
               ((eh_stream_id h, eh_epoch_id h), (eh_key_group_id h, eh_key_id h))))
    (fun '((v, (p, r)), ((s, e), (g, k))) =>
       Some {| eh_version := v; eh_publisher_id := p; eh_recipient_id := r;
               eh_stream_id := s; eh_epoch_id := e; eh_key_group_id := g; eh_key_id := k |}).
Definition f_unsigned : format UnsignedEnvelope :=
  f_iso (f_pair f_envelope_header (f_pair (f_array 32) (f_list f_byte)))
    (fun u => (un_header u, (un_encapsulated_key u, un_ciphertext u)))
    (fun '(h, (k, c)) =>
       Some {| un_header := h; un_encapsulated_key := k; un_ciphertext := c |}).
Definition f_envelope : format KeyEnvelope :=
  f_iso (f_pair (f_pair f_envelope_header (f_array 32))
           (f_pair (f_list f_byte) (f_pair (f_array 32) (f_array 32))))
    (fun e => ((env_header e, env_encapsulated_key e),
               (env_ciphertext e, (first (env_signature e), second (env_signature e)))))
    (fun '((h, k), (c, (a, b))) =>
       Some {| env_header := h; env_encapsulated_key := k; env_ciphertext := c;
               env_signature := {| first := a; second := b |} |}).
#[local] Instance toy_envelope_header : Postcard KeyEnvelopeHeader :=
  postcard_of f_envelope_header.
#[local] Instance toy_unsigned : Postcard UnsignedEnvelope := postcard_of f_unsigned.
#[local] Instance toy_envelope : Postcard KeyEnvelope := postcard_of f_envelope.

Lemma f_envelope_header_ok : format_ok f_envelope_header.
Proof. apply f_iso_ok; [by intros [] | auto 10 with toy]. Qed.
#[export] Hint Resolve f_envelope_header_ok : toy.
#[local] Instance toy_envelope_laws : PostcardLaws KeyEnvelope.
Proof. apply postcard_of_laws, f_iso_ok; [by intros [? ? ? []] | auto 10 with toy]. Defined.

Definition sample_viewer : IdentitySecret :=
  {| signing_secret := Vector.const x15 32; kem_secret := Vector.const x16 32 |}.
Definition sample_viewer_public : IdentityPublic :=
  {| id_version := 1; signing_key := Vector.const x15 32; kem_key := Vector.const x16 32 |}.
Definition sample_envelope : KeyEnvelope :=
  match envelope_seal sample_secret sample_viewer_public (Vector.const x0a 16)
          (Vector.const x0b 16) 1 (Vector.const x0c 16) (Vector.const x0e 32) [] with
  | Ok e => e
  | Err _ => {| env_header := {| eh_version := 0; eh_publisher_id := zeros 32;
                  eh_recipient_id := zeros 32; eh_stream_id := uuid_nil;
                  eh_epoch_id := uuid_nil; eh_key_group_id := 0; eh_key_id := zeros 16 |};
                env_encapsulated_key := zeros 32; env_ciphertext := [];
                env_signature := {| first := zeros 32; second := zeros 32 |} |}
  end.

Lemma envelope_seal_open_witness :
  envelope_open sample_envelope sample_viewer sample_public = Ok (Vector.const x0e 32) /\
  envelope_open sample_envelope sample_secret sample_public = Err WrongRecipient.
Proof.
  split.
  - edestruct (envelope_seal_open sample_secret sample_public sample_viewer_public
      (Vector.const x0a 16) (Vector.const x0b 16) 1 (Vector.const x0c 16)
      (Vector.const x0e 32) [] sample_envelope sample_viewer sample_viewer_public)
      as [H _]; [vm_compute; reflexivity .. |].
    apply H. reflexivity.
  - edestruct (envelope_seal_open sample_secret sample_public sample_viewer_public
      (Vector.const x0a 16) (Vector.const x0b 16) 1 (Vector.const x0c 16)
      (Vector.const x0e 32) [] sample_envelope sample_secret sample_public)
      as [_ H]; [vm_compute; reflexivity .. |].
    apply H. vm_compute. discriminate.
Defined.
