(* ===== verification/Transport.v ===== *)
(** The transport of [crates/protocol/src/lib.rs]: length-prefixed clear frames,
    the Noise XX handshake drivers and [NoiseSocket], which segments Postcard
    messages across Noise records.

    A socket is the bytes still to be read from the peer, the bytes written so
    far and the state of the Noise transport; an operation maps a socket to its
    result and the socket it leaves.  The Noise state machines are those of the
    [snow] crate: class arguments with the behaviour relied on as laws. *)
From Stdlib Require Import ZArith Lia.
From S2P Require Import Prelude Bytes External Toy.

Definition PROTOCOL_VERSION : Z := 9.
Definition MAX_FRAME_LEN : Z := 32 * 1024 * 1024.
Definition MAX_WIRE_PACKET_LEN : Z := 65535.
Definition MAX_NOISE_PLAINTEXT_LEN : Z := 60 * 1024.
Definition NOISE_SEGMENT_MAGIC : bytes := byte_string "GCN1".
Definition NOISE_SEGMENT_HEADER_LEN : Z := 12.
Definition NOISE_KEY_LEN : Z := 32.

Inductive ProtocolError : Type :=
| FrameTooLarge (n : Z)
| MalformedFrame
| ProtoNoise (what : string)
| ProtoIo
| ProtoPostcard (e : postcard_error)
| InvalidNoiseKeyLength (n : Z).

(** * Noise state machines *)

(** [snow::TransportState] and [snow::HandshakeState]; [None] is an error of
    the library. *)
Class Noise : Type := {
  transport_state : Type;
  transport_write : transport_state -> bytes -> option (bytes * transport_state);
  transport_read : transport_state -> bytes -> option (bytes * transport_state);
  handshake_state : Type;
  build_initiator : array 32 -> option handshake_state;
  build_responder : array 32 -> option handshake_state;
  handshake_write : handshake_state -> bytes -> option (bytes * handshake_state);
  handshake_read : handshake_state -> bytes -> option (bytes * handshake_state);
  get_remote_static : handshake_state -> option bytes;
  into_transport : handshake_state -> option transport_state;
}.

(** What a sender's and a receiver's transport agree on: the receiver opens the
    sender's records in order, and a record is sixteen bytes longer than its
    plaintext. *)
Class NoiseLaws `{!Noise} (paired : transport_state -> transport_state -> Prop) : Prop := {
  paired_message a b msg ct a' :
    paired a b -> transport_write a msg = Some (ct, a') ->
    exists b', transport_read b ct = Some (msg, b') /\ paired a' b';
  record_len a msg ct a' : transport_write a msg = Some (ct, a') -> zlen ct = zlen msg + 16;
}.

(** * Segments *)

Definition noise_segment (total_len offset : Z) (chunk : bytes) : result ProtocolError bytes :=
  reject_if (total_len > u32_max \/ offset > u32_max \/
             u64_saturating_add offset (zlen chunk) > total_len) MalformedFrame then?
  Ok (NOISE_SEGMENT_MAGIC ++ be_bytes 4 total_len ++ be_bytes 4 offset ++ chunk).

Record NoiseSegment : Type := {
  total_len : Z;
  seg_offset : Z;
  chunk : bytes;
}.

Definition parse_noise_segment (segment : bytes) : result ProtocolError NoiseSegment :=
  reject_if (zlen segment < NOISE_SEGMENT_HEADER_LEN \/ take 4 segment <> NOISE_SEGMENT_MAGIC)
    MalformedFrame then?
  let total_len := be_value (take 4 (drop 4 segment)) in
  let offset := be_value (take 4 (drop 8 segment)) in
  let chunk := drop 12 segment in
  reject_if (offset > total_len \/ u64_saturating_add offset (zlen chunk) > total_len)
    MalformedFrame then?
  Ok {| total_len := total_len; seg_offset := offset; chunk := chunk |}.

(** * Streams and sockets *)

(** What remains to be read from the peer and what was written to it. *)
Record Stream : Type := {
  stream_in : bytes;
  stream_out : bytes;
}.
Definition set_in (l : bytes) (s : Stream) : Stream :=
  {| stream_in := l; stream_out := stream_out s |}.
Definition add_out (l : bytes) (s : Stream) : Stream :=
  {| stream_in := stream_in s; stream_out := stream_out s ++ l |}.

(** [write_all] and [read_exact]; the end of the stream is an I/O error. *)
Definition write_all (l : bytes) : io ProtocolError Stream unit := fun s => (Ok tt, add_out l s).
Definition read_exact (n : nat) : io ProtocolError Stream bytes := fun s =>
  if decide (length (stream_in s) < n)%nat then (Err ProtoIo, set_in [] s)
  else (Ok (take n (stream_in s)), set_in (drop n (stream_in s)) s).

(** * Clear frames *)

Definition write_clear_frame (data : bytes) : io ProtocolError Stream unit :=
  lift (reject_if (zlen data > MAX_WIRE_PACKET_LEN) (FrameTooLarge (zlen data))) then?
  let? length := lift (ok_or (u32_try_from (zlen data)) (FrameTooLarge (zlen data))) in
  write_all (be_bytes 4 length) then?
  write_all data.

Definition read_clear_frame : io ProtocolError Stream bytes :=
  let? len := read_exact 4 in
  let len := be_value len in
  lift (reject_if (len > MAX_WIRE_PACKET_LEN) (FrameTooLarge len)) then?
  read_exact (Z.to_nat len).

Section transport.
Context `{noise : !Noise}.

(** * Handshakes *)

Definition noise_call {A} (what : string) (o : option A) : result ProtocolError A :=
  ok_or o (ProtoNoise what).

Definition remote_noise_static (hs : handshake_state) (role : string) :
    result ProtocolError (array 32) :=
  let? key := noise_call ("Noise XX omitted " +:+ role +:+ " static key") (get_remote_static hs) in
  ok_or (array_try_from 32 key) (InvalidNoiseKeyLength (zlen key)).

Definition initiator_handshake_xx (local_private_key : array 32)
    (verify_remote : array 32 -> result ProtocolError unit) :
    io ProtocolError Stream (transport_state * array 32) :=
  let? hs := lift (noise_call "initiator" (build_initiator local_private_key)) in
  let? (buf, hs) := lift (noise_call "write" (handshake_write hs [])) in
  write_clear_frame buf then?
  let? message := read_clear_frame in
  let? (_, hs) := lift (noise_call "read" (handshake_read hs message)) in
  let? remote_static := lift (remote_noise_static hs "responder") in
  lift (verify_remote remote_static) then?
  let? (buf, hs) := lift (noise_call "write" (handshake_write hs [])) in
  write_clear_frame buf then?
  let? transport := lift (noise_call "transport" (into_transport hs)) in
  mret (transport, remote_static).

Definition responder_handshake_xx (local_private_key : array 32) :
    io ProtocolError Stream (transport_state * array 32) :=
  let? hs := lift (noise_call "responder" (build_responder local_private_key)) in
  let? message := read_clear_frame in
  let? (_, hs) := lift (noise_call "read" (handshake_read hs message)) in
  let? (buf, hs) := lift (noise_call "write" (handshake_write hs [])) in
  write_clear_frame buf then?
  let? message := read_clear_frame in
  let? (_, hs) := lift (noise_call "read" (handshake_read hs message)) in
  let? remote_static := lift (remote_noise_static hs "initiator") in
  let? transport := lift (noise_call "transport" (into_transport hs)) in
  mret (transport, remote_static).

Record NoiseKeypair : Type := {
  private : array 32;
  public : array 32;
}.

(** [NoiseKeypair::validate_xx] with the private key of the generated peer. *)
Definition validate_xx (k : NoiseKeypair) (peer_private : bytes) :
    result ProtocolError unit :=
  let? peer_private :=
    ok_or (array_try_from 32 peer_private) (InvalidNoiseKeyLength (zlen peer_private)) in
  let? initiator := noise_call "initiator" (build_initiator (private k)) in
  let? responder := noise_call "responder" (build_responder peer_private) in
  let? (message, initiator) := noise_call "write" (handshake_write initiator []) in
  let? (_, responder) := noise_call "read" (handshake_read responder message) in
  let? (message, responder) := noise_call "write" (handshake_write responder []) in
  let? (_, initiator) := noise_call "read" (handshake_read initiator message) in
  let? (message, _) := noise_call "write" (handshake_write initiator []) in
  let? (_, responder) := noise_call "read" (handshake_read responder message) in
  let? learned := noise_call "Noise XX omitted initiator static key"
                    (get_remote_static responder) in
  reject_if (learned <> slice (public k))
    (ProtoNoise "Noise private and public keys do not match").

(** [generate_noise_keypair] with the key pair that [Builder::generate_keypair]
    returned and the one its validation generates. *)
Definition generate_noise_keypair (private public peer_private : bytes) :
    result ProtocolError NoiseKeypair :=
  let? private := ok_or (array_try_from 32 private) (InvalidNoiseKeyLength (zlen private)) in
  let? public := ok_or (array_try_from 32 public) (InvalidNoiseKeyLength (zlen public)) in
  let keypair := {| private := private; public := public |} in
  validate_xx keypair peer_private then?
  Ok keypair.

(** * Sockets *)

Record Socket : Type := {
  stream : Stream;
  transport : transport_state;
}.
Definition on_stream {A} (m : io ProtocolError Stream A) : io ProtocolError Socket A := fun s =>
  let '(r, st) := m (stream s) in (r, {| stream := st; transport := transport s |}).

Definition seal_record (segment : bytes) : io ProtocolError Socket bytes := fun s =>
  match transport_write (transport s) segment with
  | Some (ct, t) => (Ok ct, {| stream := stream s; transport := t |})
  | None => (Err (ProtoNoise "write"), s)
  end.
Definition open_record (record : bytes) : io ProtocolError Socket bytes := fun s =>
  match transport_read (transport s) record with
  | Some (msg, t) => (Ok msg, {| stream := stream s; transport := t |})
  | None => (Err (ProtoNoise "read"), s)
  end.

(** * Messages *)

(** [NoiseSocket::write] after serialization; every iteration but the last
    advances by a full chunk. *)
Definition chunk_len : Z := MAX_NOISE_PLAINTEXT_LEN - NOISE_SEGMENT_HEADER_LEN.
Fixpoint write_loop (fuel : nat) (plain : bytes) (offset : Z) : io ProtocolError Socket unit :=
  match fuel with
  | O => lift (Err MalformedFrame)
  | S fuel =>
      let stop := Z.min (u64_saturating_add offset chunk_len) (zlen plain) in
      let? segment := lift (noise_segment (zlen plain) offset
                        (take (Z.to_nat (stop - offset)) (drop (Z.to_nat offset) plain))) in
      let? encrypted := seal_record segment in
      on_stream (write_clear_frame encrypted) then?
      if decide (stop = zlen plain) then mret tt else write_loop fuel plain stop
  end.

Definition write {T} `{!Postcard T} (message : T) : io ProtocolError Socket unit :=
  let? plain := lift (map_err ProtoPostcard (to_stdvec message)) in
  lift (reject_if (zlen plain > MAX_FRAME_LEN) (FrameTooLarge (zlen plain))) then?
  write_loop (S (length plain)) plain 0.

(** The checks of one received segment, with the accumulated message. *)
Definition accept_segment (max_len : Z) (expected_total : option Z) (plain_message : bytes)
    (segment : NoiseSegment) : result ProtocolError bytes :=
  reject_if (total_len segment > max_len) (FrameTooLarge (total_len segment)) then?
  reject_if (is_some_and (fun expected => expected <> total_len segment) expected_total)
    MalformedFrame then?
  reject_if (seg_offset segment <> zlen plain_message \/
             u64_saturating_add (seg_offset segment) (zlen (chunk segment)) > total_len segment)
    MalformedFrame then?
  reject_if (chunk segment = [] /\ zlen plain_message < total_len segment) MalformedFrame then?
  Ok (plain_message ++ chunk segment).

(** The loop of [NoiseSocket::read_limited]; every iteration consumes a frame. *)
Fixpoint read_loop {T} `{!Postcard T} (fuel : nat) (max_len : Z) (expected_total : option Z)
    (plain_message : bytes) : io ProtocolError Socket T :=
  match fuel with
  | O => lift (Err MalformedFrame)
  | S fuel =>
      let? encrypted := on_stream read_clear_frame in
      let? segment := open_record encrypted in
      let? segment := lift (parse_noise_segment segment) in
      let? plain_message := lift (accept_segment max_len expected_total plain_message segment) in
      if decide (zlen plain_message = total_len segment) then
        let? (message, remainder) :=
          lift (map_err ProtoPostcard (take_from_bytes plain_message)) in
        lift (reject_if (remainder <> []) MalformedFrame) then?
        mret message
      else read_loop fuel max_len (Some (total_len segment)) plain_message
  end.

Definition read_limited {T} `{!Postcard T} (max_len : Z) : io ProtocolError Socket T := fun s =>
  read_loop (S (length (stream_in (stream s)))) (Z.min max_len MAX_FRAME_LEN) None [] s.

Definition read {T} `{!Postcard T} : io ProtocolError Socket T := read_limited MAX_FRAME_LEN.

(** * The monad and the frames *)

#[local] Arguments be_bytes : simpl never.

Lemma on_stream_Ok {A} (m : io ProtocolError Stream A) s v s' :
  on_stream m s = (Ok v, s') <->
  exists st, m (stream s) = (Ok v, st) /\ s' = {| stream := st; transport := transport s |}.
Proof. unfold on_stream. destruct (m (stream s)) as [r st]. naive_solver. Qed.

Lemma read_exact_app n l rest s :
  length l = n -> stream_in s = l ++ rest -> read_exact n s = (Ok l, set_in rest s).
Proof.
  intros Hn Hs. unfold read_exact. rewrite decide_False
    by (rewrite Hs, length_app; lia).
  by rewrite Hs, take_app_length', drop_app_length' by done.
Qed.

Lemma write_clear_frame_Ok data s u s' :
  write_clear_frame data s = (Ok u, s') ->
  zlen data <= MAX_WIRE_PACKET_LEN /\ s' = add_out (be_bytes 4 (zlen data) ++ data) s.
Proof.
  unfold write_clear_frame.
  intros (? & s1 & [Hlen ->]%lift_Ok & (n & s2 & [Hn ->]%lift_Ok & H)%io_bind_Ok)%io_bind_Ok.
  apply reject_if_Ok in Hlen. apply ok_or_Ok, u32_try_from_Some in Hn as [-> _].
  apply io_bind_Ok in H as (? & s3 & [= <- <-] & [= <- <-]).
  split; [lia|]. unfold add_out. cbn [stream_in stream_out]. by rewrite <-app_assoc.
Qed.

Lemma read_clear_frame_app data rest s :
  zlen data <= MAX_WIRE_PACKET_LEN ->
  stream_in s = (be_bytes 4 (zlen data) ++ data) ++ rest ->
  read_clear_frame s = (Ok data, set_in rest s).
Proof.
  intros Hlen Hs. unfold read_clear_frame. rewrite <-app_assoc in Hs. apply io_bind_Ok.
  exists (be_bytes 4 (zlen data)), (set_in (data ++ rest) s). split.
  { apply read_exact_app; [apply length_be_bytes|done]. }
  rewrite be_value_be_bytes, Z.mod_small by (unfold MAX_WIRE_PACKET_LEN in *; lia).
  apply io_bind_Ok. exists tt, (set_in (data ++ rest) s). split.
  { apply lift_Ok. split; [|done]. apply reject_if_Ok. lia. }
  etrans; [apply (read_exact_app _ data rest (set_in (data ++ rest) s)); [lia|done]|done].
Qed.

Lemma noise_segment_parse t o c seg :
  0 <= t -> 0 <= o -> noise_segment t o c = Ok seg ->
  parse_noise_segment seg = Ok {| total_len := t; seg_offset := o; chunk := c |} /\
  u64_saturating_add o (zlen c) <= t.
Proof.
  intros Ht Ho. unfold noise_segment. rewrite guard_bind. intros [Hn <-%Ok_inj]. nor_inv.
  unfold parse_noise_segment.
  assert (length NOISE_SEGMENT_MAGIC = 4%nat) as Hm by done.
  pose proof (length_be_bytes 4 t) as Hbt. pose proof (length_be_bytes 4 o) as Hbo.
  rewrite !take_app_length', drop_app_length' by done.
  rewrite take_app_length' by done.
  replace (drop 8 _) with (be_bytes 4 o ++ c)
    by (rewrite app_assoc, drop_app_length' by (by rewrite length_app, Hm, Hbt); done).
  replace (drop 12 _) with c
    by (rewrite !app_assoc, drop_app_length' by (by rewrite !length_app, Hm, Hbt, Hbo); done).
  rewrite take_app_length' by done.
  rewrite !be_value_be_bytes, !Z.mod_small by (unfold u32_max in *; lia).
  rewrite !guard_bind. split; [split; [|split; [ints|done]]|lia].
  rewrite !length_app, Hm, Hbt, Hbo. unfold NOISE_SEGMENT_HEADER_LEN.
  intros [?|?]; [lia|done].
Qed.

(** * Messages *)

Lemma accept_segment_append max expected plain offset c :
  zlen plain <= max -> zlen plain <= u32_max -> 0 <= offset -> offset + zlen c <= zlen plain ->
  (expected = None \/ expected = Some (zlen plain)) -> (c = [] -> plain = []) ->
  accept_segment max expected (take (Z.to_nat offset) plain)
    {| total_len := zlen plain; seg_offset := offset; chunk := c |} =
  Ok (take (Z.to_nat offset) plain ++ c).
Proof.
  intros Hmax H32 Ho Hc Hexp Hne. unfold accept_segment. simpl.
  assert (zlen (take (Z.to_nat offset) plain) = offset) as Hlen
    by (rewrite length_take; lia).
  rewrite Hlen, !guard_bind. split_and!; [lia| | | |done].
  - destruct Hexp as [-> | ->]; simpl; [by intros []|lia].
  - intros [?|?]; [lia|]. ints.
  - intros [Hn ?]. specialize (Hne Hn). subst plain. simpl in *. lia.
Qed.

Section messages.
Context (paired : transport_state -> transport_state -> Prop) `{!NoiseLaws paired}.
Context `{!Postcard T}.

(** One iteration of the writer, as a record the receiver opens. *)
Lemma write_loop_step fuel plain offset s u s' :
  0 <= offset <= zlen plain -> zlen plain <= MAX_FRAME_LEN ->
  write_loop (S fuel) plain offset s = (Ok u, s') ->
  let stop := Z.min (offset + chunk_len) (zlen plain) in
  let c := take (Z.to_nat (stop - offset)) (drop (Z.to_nat offset) plain) in
  exists seg ct t, noise_segment (zlen plain) offset c = Ok seg /\
    transport_write (transport s) seg = Some (ct, t) /\ zlen ct <= MAX_WIRE_PACKET_LEN /\
    let s1 := {| stream := add_out (be_bytes 4 (zlen ct) ++ ct) (stream s); transport := t |} in
    if decide (stop = zlen plain) then s' = s1 else write_loop fuel plain stop s1 = (Ok u, s').
Proof using Type.
  intros Ho Hmax H. cbn [write_loop] in H.
  replace (u64_saturating_add offset chunk_len) with (offset + chunk_len) in H
    by (unfold chunk_len, MAX_NOISE_PLAINTEXT_LEN, NOISE_SEGMENT_HEADER_LEN, MAX_FRAME_LEN in *; ints).
  apply io_bind_Ok in H as (seg & s1 & [Hseg ->]%lift_Ok & H).
  apply io_bind_Ok in H as (ct & s2 & Hct & H).
  unfold seal_record in Hct. destruct (transport_write _ _) as [[ct' t]|] eqn:Ht; [|done].
  injection Hct as -> <-. apply io_bind_Ok in H as ([] & s3 & Hf & H).
  apply on_stream_Ok in Hf as (st & [Hlen ->]%write_clear_frame_Ok & ->). simpl in H.
  exists seg, ct, t. split_and!; try done. simpl.
  case_decide; [|done]. by injection H as _ <-.
Qed.

(** One iteration of the reader on a record that opens to a valid segment. *)
Lemma read_loop_step fuel max expected plain s ct rest seg tB segment plain' :
  zlen ct <= MAX_WIRE_PACKET_LEN -> stream_in (stream s) = (be_bytes 4 (zlen ct) ++ ct) ++ rest ->
  transport_read (transport s) ct = Some (seg, tB) -> parse_noise_segment seg = Ok segment ->
  accept_segment max expected plain segment = Ok plain' ->
  read_loop (S fuel) max expected plain s =
    (if decide (zlen plain' = total_len segment) then
       (let? (message, remainder) :=
          lift (map_err ProtoPostcard (take_from_bytes (T := T) plain')) in
        lift (reject_if (remainder <> []) MalformedFrame) then? mret message)
     else read_loop fuel max (Some (total_len segment)) plain')
    {| stream := set_in rest (stream s); transport := tB |}.
Proof using Type.
  intros Hlen Hin Hr Hparse Hacc. cbn [read_loop].
  unfold mbind at 1, io_bind at 1, on_stream. rewrite (read_clear_frame_app ct rest) by done.
  unfold mbind at 1, io_bind at 1, open_record. cbn [transport stream]. rewrite Hr.
  unfold mbind at 1, io_bind at 1, lift at 1. rewrite Hparse.
  unfold mbind at 1, io_bind at 1, lift at 1. by rewrite Hacc.
Qed.

Lemma write_loop_read fuel plain offset sA u sA' max (message : T) :
  0 <= offset <= zlen plain -> (offset = zlen plain -> plain = []) ->
  zlen plain <= MAX_FRAME_LEN -> zlen plain <= max ->
  take_from_bytes plain = Ok (message, []) ->
  write_loop fuel plain offset sA = (Ok u, sA') ->
  exists out, stream sA' = add_out out (stream sA) /\
    forall sB rest fuelB expected, paired (transport sA) (transport sB) ->
      (expected = None \/ expected = Some (zlen plain)) ->
      stream_in (stream sB) = out ++ rest -> (length out <= fuelB)%nat ->
      exists tB, paired (transport sA') tB /\
        read_loop fuelB max expected (take (Z.to_nat offset) plain) sB =
          (Ok message, {| stream := set_in rest (stream sB); transport := tB |}).
Proof using NoiseLaws0.
  revert offset sA. induction fuel as [|fuel IH]; intros offset sA Ho Hend Hframe Hmax Hdec H; [done|].
  apply write_loop_step in H; [|done..].
  set (stop := Z.min (offset + chunk_len) (zlen plain)) in *.
  set (c := take (Z.to_nat (stop - offset)) (drop (Z.to_nat offset) plain)) in *.
  destruct H as (seg & ct & t & Hseg & Hw & Hlen & H). cbn [stream transport] in H.
  assert (zlen c = stop - offset) as Hc.
  { unfold c. rewrite length_take, length_drop.
    unfold stop, chunk_len, MAX_NOISE_PLAINTEXT_LEN, NOISE_SEGMENT_HEADER_LEN in *. lia. }
  assert (offset < zlen plain -> offset < stop) as Hadv
    by (unfold stop, chunk_len, MAX_NOISE_PLAINTEXT_LEN, NOISE_SEGMENT_HEADER_LEN; lia).
  assert (take (Z.to_nat offset) plain ++ c = take (Z.to_nat stop) plain) as Happ.
  { unfold c. rewrite take_take_drop. f_equal. lia. }
  assert (c = [] -> plain = []) as Hne.
  { intros Hnil. rewrite Hnil in Hc. simpl in Hc. apply Hend.
    destruct (decide (offset < zlen plain)) as [Hlt|]; [specialize (Hadv Hlt)|]; lia. }
  destruct (noise_segment_parse _ _ _ _ (Zle_0_nat _) (proj1 Ho) Hseg) as [Hparse _].
  assert (forall expected, expected = None \/ expected = Some (zlen plain) ->
    accept_segment max expected (take (Z.to_nat offset) plain)
      {| total_len := zlen plain; seg_offset := offset; chunk := c |} =
    Ok (take (Z.to_nat stop) plain)) as Hacc.
  { intros expected Hexp. rewrite accept_segment_append, Happ; try done; [|lia..].
    unfold MAX_FRAME_LEN in *. ints. }
  assert (zlen (take (Z.to_nat stop) plain) = stop) as Hstop
    by (rewrite length_take; unfold stop, chunk_len, MAX_NOISE_PLAINTEXT_LEN,
          NOISE_SEGMENT_HEADER_LEN in *; lia).
  case_decide as Hd.
  - subst sA'. eexists. split; [done|]. intros sB rest fuelB expected Hpair Hexp Hin Hfuel.
    destruct (paired_message _ _ _ _ _ Hpair Hw) as (tB & Hr & Hpair'). exists tB.
    split; [done|]. rewrite length_app, length_be_bytes in Hfuel.
    destruct fuelB as [|fuelB]; [lia|].
    rewrite (read_loop_step _ _ _ _ _ _ rest _ _ _ _ Hlen Hin Hr Hparse (Hacc _ Hexp)).
    rewrite Hstop, decide_True by done. rewrite take_ge by lia. by rewrite Hdec.
  - destruct (IH stop _ ltac:(lia) ltac:(lia) Hframe Hmax Hdec H) as (out & Hout & Hread).
    eexists ((be_bytes 4 (zlen ct) ++ ct) ++ out). split.
    { rewrite Hout. unfold add_out. cbn [stream stream_in stream_out]. by rewrite <-app_assoc. }
    intros sB rest fuelB expected Hpair Hexp Hin Hfuel.
    destruct (paired_message _ _ _ _ _ Hpair Hw) as (tB & Hr & Hpair').
    rewrite !length_app, length_be_bytes in Hfuel. destruct fuelB as [|fuelB]; [lia|].
    rewrite <-app_assoc in Hin.
    rewrite (read_loop_step _ _ _ _ _ _ _ _ _ _ _ Hlen Hin Hr Hparse (Hacc _ Hexp)).
    rewrite Hstop, decide_False by done.
    apply (Hread {| stream := set_in (out ++ rest) (stream sB); transport := tB |} rest fuelB);
      [done|by right|done|lia].
Qed.

(** C37: a message written to one end of a Noise session is what the other end
    reads, whatever follows it on the wire: the segments reassemble to the
    serialized message, the reader consumes exactly the records of the message,
    and both ends stay in step for the next one. *)
Theorem socket_message_roundtrip `{!PostcardLaws T} (message : T) sA sA' sB max rest :
  paired (transport sA) (transport sB) -> write message sA = (Ok tt, sA') ->
  (forall enc, to_stdvec message = Ok enc -> zlen enc <= max) ->
  exists out, stream sA' = add_out out (stream sA) /\
    (stream_in (stream sB) = out ++ rest ->
     exists tB, paired (transport sA') tB /\
       read_limited max sB =
         (Ok message, {| stream := set_in rest (stream sB); transport := tB |})).
Proof using NoiseLaws0.
  intros Hpair H Hmax. unfold write in H.
  apply io_bind_Ok in H as (plain & s1 & [Hp%map_err_Ok ->]%lift_Ok & H).
  apply io_bind_Ok in H as ([] & s1 & [Hlen%reject_if_Ok ->]%lift_Ok & H).
  specialize (Hmax _ Hp). pose proof (take_to_stdvec_nil _ _ Hp) as Hdec.
  eapply (write_loop_read _ _ _ _ _ _ (Z.min max MAX_FRAME_LEN) message) in H
    as (out & Hout & Hread); [|lia|by destruct plain|lia|lia|done].
  exists out. split; [done|]. intros Hin.
  apply (Hread sB rest _ None); [done|by left|done|rewrite Hin, length_app; lia].
Qed.

(** * Bounds and termination of the loops *)

Lemma read_exact_shrinks n s l s' :
  read_exact n s = (Ok l, s') ->
  length l = n /\ stream_in s = l ++ stream_in s' /\ stream_out s' = stream_out s.
Proof using Type.
  unfold read_exact. case_decide; [done|]. intros [= <- <-]. simpl.
  rewrite length_take, take_drop. split_and!; [lia|done|done].
Qed.

Lemma read_clear_frame_shrinks s data s' :
  read_clear_frame s = (Ok data, s') ->
  exists consumed, stream_in s = consumed ++ stream_in s' /\ consumed <> [] /\
    stream_out s' = stream_out s /\ zlen data <= MAX_WIRE_PACKET_LEN.
Proof using Type.
  unfold read_clear_frame.
  intros (l & s1 & (H1 & H2 & H3)%read_exact_shrinks & H)%io_bind_Ok.
  apply io_bind_Ok in H as ([] & s2 & [Hlen%reject_if_Ok ->]%lift_Ok & H).
  apply read_exact_shrinks in H as (H4 & H5 & H6). exists (l ++ data).
  rewrite H2, H5, <-app_assoc, H6, H3.
  split_and!; try done; [|unfold MAX_WIRE_PACKET_LEN in *; lia].
  intros [-> _]%app_nil. done.
Qed.

(** More fuel than input bytes never changes what the reader does. *)
Lemma read_loop_fuel f1 f2 max expected plain s :
  (length (stream_in (stream s)) < f1)%nat -> (length (stream_in (stream s)) < f2)%nat ->
  read_loop (T := T) f1 max expected plain s = read_loop f2 max expected plain s.
Proof using Type.
  revert f2 expected plain s. induction f1 as [|f1 IH]; intros [|f2] expected plain s H1 H2;
    [lia..|].
  cbn [read_loop]. apply io_bind_ext. intros data s1 Hf.
  apply on_stream_Ok in Hf as (st & (l & Hl & Hne & _)%read_clear_frame_shrinks & ->).
  assert (length (stream_in st) < f1 /\ length (stream_in st) < f2)%nat as [Hlt1 Hlt2].
  { rewrite Hl, length_app in H1, H2. destruct l; [done|]. simpl in *. lia. }
  apply io_bind_ext. intros seg s2 Ho. unfold open_record in Ho.
  destruct (transport_read _ _) as [[seg' t]|]; [|done]. injection Ho as -> <-.
  apply io_bind_ext. intros segment s3 [_ ->]%lift_Ok.
  apply io_bind_ext. intros plain' s4 [_ ->]%lift_Ok.
  case_decide; [done|]. by apply IH.
Qed.

(** What the reader accepts was accumulated within its limit. *)
Lemma read_loop_bounded fuel max expected plain s (message : T) s' :
  read_loop fuel max expected plain s = (Ok message, s') ->
  (exists body, zlen body <= max /\ take_from_bytes body = Ok (message, [])) /\
  (exists consumed, stream_in (stream s) = consumed ++ stream_in (stream s')) /\
  stream_out (stream s') = stream_out (stream s).
Proof using Type.
  revert expected plain s. induction fuel as [|fuel IH]; intros expected plain s H; [done|].
  cbn [read_loop] in H. apply io_bind_Ok in H as (data & s1 & Hf & H).
  apply on_stream_Ok in Hf as (st & (l & Hl & Hne & Hout & _)%read_clear_frame_shrinks & ->).
  apply io_bind_Ok in H as (seg & s2 & Ho & H). unfold open_record in Ho.
  destruct (transport_read _ _) as [[seg' t]|]; [|done]. injection Ho as -> <-.
  apply io_bind_Ok in H as (segment & s3 & [_ ->]%lift_Ok & H).
  apply io_bind_Ok in H as (plain' & s4 & [Hacc ->]%lift_Ok & H).
  assert (total_len segment <= max) as Htot.
  { unfold accept_segment in Hacc. rewrite guard_bind in Hacc. lia. }
  case_decide as Hd.
  - apply io_bind_Ok in H as ([m rem] & s5 & [Hdec%map_err_Ok ->]%lift_Ok & H).
    apply io_bind_Ok in H as ([] & s6 & [Hrem%reject_if_Ok%dec_stable ->]%lift_Ok & H).
    injection H as -> <-. subst rem. simpl. split_and!; [|by exists l|done].
    exists plain'. split; [lia|done].
  - apply IH in H as (Hbody & (l2 & Hl2) & Hout2). cbn [stream] in Hl2, Hout2.
    split_and!; [done| |congruence]. exists (l ++ l2). by rewrite Hl, Hl2, app_assoc.
Qed.

(** Reading is safe against any peer: the loop ends by itself (fuel beyond
    the number of available bytes changes nothing), nothing is written, and a
    message is only delivered when its whole serialized form was accumulated
    within the caller's limit and the global one. *)
Theorem read_limited_safe max s :
  (forall fuel, (length (stream_in (stream s)) < fuel)%nat ->
     read_loop (T := T) fuel (Z.min max MAX_FRAME_LEN) None [] s = read_limited max s) /\
  forall (message : T) s', read_limited max s = (Ok message, s') ->
    (exists body, zlen body <= max /\ zlen body <= MAX_FRAME_LEN /\
       take_from_bytes body = Ok (message, [])) /\
    (exists consumed, stream_in (stream s) = consumed ++ stream_in (stream s')) /\
    stream_out (stream s') = stream_out (stream s).
Proof using Type.
  split.
  - intros fuel Hf. apply read_loop_fuel; lia.
  - intros message s' ((body & Hb & Hd) & Hc & Ho)%read_loop_bounded.
    split_and!; try done. exists body. split_and!; [lia|lia|done].
Qed.

(** The writer's loop ends within the fuel it is given. *)
Lemma write_loop_fuel f1 f2 plain offset s :
  0 <= offset <= zlen plain -> zlen plain <= MAX_FRAME_LEN ->
  (Z.to_nat (zlen plain - offset) < f1)%nat -> (Z.to_nat (zlen plain - offset) < f2)%nat ->
  write_loop f1 plain offset s = write_loop f2 plain offset s.
Proof using Type.
  revert f2 offset s. induction f1 as [|f1 IH]; intros [|f2] offset s Ho Hmax H1 H2; [lia..|].
  cbn [write_loop].
  replace (u64_saturating_add offset chunk_len) with (offset + chunk_len)
    by (unfold chunk_len, MAX_NOISE_PLAINTEXT_LEN, NOISE_SEGMENT_HEADER_LEN, MAX_FRAME_LEN in *; ints).
  apply io_bind_ext. intros seg s1 _. apply io_bind_ext. intros ct s2 _.
  apply io_bind_ext. intros _ s3 _.
  case_decide as Hd; [done|].
  apply IH; unfold chunk_len, MAX_NOISE_PLAINTEXT_LEN, NOISE_SEGMENT_HEADER_LEN in *; lia.
Qed.
End messages.

(** * Handshakes *)

Lemma write_clear_frame_out data s r s' :
  write_clear_frame data s = (r, s') ->
  stream_out s' = stream_out s \/
  stream_out s' = stream_out s ++ be_bytes 4 (zlen data) ++ data.
Proof.
  intros H. destruct r as [u|e].
  - apply write_clear_frame_Ok in H as [_ ->]. by right.
  - left. unfold write_clear_frame in H.
    apply io_bind_run in H as [(e' & [= _ <-] & _)|([] & s1 & [_ ->]%lift_Ok & H)]; [done|].
    apply io_bind_run in H as [(e' & [= _ <-] & _)|(n & s2 & [_ ->]%lift_Ok & H)]; [done|].
    done.
Qed.

Lemma read_clear_frame_out s r s' :
  read_clear_frame s = (r, s') -> stream_out s' = stream_out s.
Proof.
  assert (forall n s r s', read_exact n s = (r, s') -> stream_out s' = stream_out s) as Hre.
  { unfold read_exact. intros n s0 r0 s1. case_decide; by intros [= <- <-]. }
  unfold read_clear_frame.
  intros [(e & H%Hre & _)|(l & s1 & H1%Hre & H)]%io_bind_run; [done|].
  apply io_bind_run in H as [(e & [= _ <-] & _)|([] & s2 & [_ ->]%lift_Ok & H%Hre)];
    congruence.
Qed.

(** An initiator never completes a handshake with a relay its policy
    rejects: a completed session is with an accepted key, and as long as no key
    was accepted nothing beyond the first handshake frame, which carries no
    identity, is ever written. *)
Theorem rejected_relay_withheld key verify s r s' :
  initiator_handshake_xx key verify s = (r, s') ->
  (forall t k, r = Ok (t, k) -> verify k = Ok tt) /\
  ((exists k, verify k = Ok tt) \/ stream_out s' = stream_out s \/
   exists hs buf hs', build_initiator key = Some hs /\ handshake_write hs [] = Some (buf, hs') /\
     stream_out s' = stream_out s ++ be_bytes 4 (zlen buf) ++ buf).
Proof.
  unfold initiator_handshake_xx.
  intros [(e & [= _ <-] & ->)|(hs & s1 & [Hi ->]%lift_Ok & H)]%io_bind_run.
  { split; [done|]. by right; left. }
  apply io_bind_run in H as [(e & [= _ <-] & ->)|([buf hs1] & s1 & [Hw ->]%lift_Ok & H)].
  { split; [done|]. by right; left. }
  apply ok_or_Ok in Hi, Hw.
  assert (forall st, stream_out st = stream_out s \/
      stream_out st = stream_out s ++ be_bytes 4 (zlen buf) ++ buf ->
    stream_out st = stream_out s \/
    exists hs buf hs', build_initiator key = Some hs /\ handshake_write hs [] = Some (buf, hs') /\
      stream_out st = stream_out s ++ be_bytes 4 (zlen buf) ++ buf) as Hfirst
    by (intros st [?|?]; [by left|right; eauto 10]).
  apply io_bind_run in H as [(e & Ho%write_clear_frame_out & ->)|([] & s1 & Ho%write_clear_frame_out & H)].
  { split; [done|]. right. by apply Hfirst. }
  apply io_bind_run in H as [(e & Hr%read_clear_frame_out & ->)|(msg & s2 & Hr%read_clear_frame_out & H)].
  { split; [done|]. right. apply Hfirst. by rewrite Hr. }
  apply io_bind_run in H as [(e & [= _ <-] & ->)|([p hs2] & s3 & [_ ->]%lift_Ok & H)].
  { split; [done|]. right. apply Hfirst. by rewrite Hr. }
  apply io_bind_run in H as [(e & [= _ <-] & ->)|(k & s3 & [_ ->]%lift_Ok & H)].
  { split; [done|]. right. apply Hfirst. by rewrite Hr. }
  apply io_bind_run in H as [(e & [= _ <-] & ->)|([] & s3 & [Hv ->]%lift_Ok & H)].
  { split; [done|]. right. apply Hfirst. by rewrite Hr. }
  split; [|left; by exists k]. intros t k' ->.
  apply io_bind_Ok in H as ([buf2 hs3] & s3 & _ & H).
  apply io_bind_Ok in H as ([] & s4 & _ & H). apply io_bind_Ok in H as (t' & s5 & _ & H).
  by injection H as _ <- _.
Qed.
End transport.

(** ** Witnesses *)

(** A counter as transport state and public keys equal to private ones; the
    three handshake messages are a hello and the two static keys. *)
Record toy_handshake : Type := {
  th_key : array 32;
  th_sent : nat;
  th_initiator : bool;
  th_remote : option bytes;
}.
#[export] Instance toy_noise : Noise := {|
  transport_state := nat;
  transport_write n msg := Some (msg ++ toy_tag (be_bytes 8 (Z.of_nat n) ++ msg), S n);
  transport_read n ct :=
    let msg := take (length ct - 16) ct in
    if decide (ct = msg ++ toy_tag (be_bytes 8 (Z.of_nat n) ++ msg)) then Some (msg, S n)
    else None;
  handshake_state := toy_handshake;
  build_initiator key :=
    Some {| th_key := key; th_sent := 0; th_initiator := true; th_remote := None |};
  build_responder key :=
    Some {| th_key := key; th_sent := 0; th_initiator := false; th_remote := None |};
  handshake_write hs _ :=
    Some (if decide (th_initiator hs = true /\ th_sent hs = 0%nat) then [x01]
          else slice (th_key hs),
          {| th_key := th_key hs; th_sent := S (th_sent hs); th_initiator := th_initiator hs;
             th_remote := th_remote hs |});
  handshake_read hs msg :=
    Some ([], {| th_key := th_key hs; th_sent := th_sent hs; th_initiator := th_initiator hs;
                 th_remote := Some msg |});
  get_remote_static := th_remote;
  into_transport _ := Some 0%nat;
|}.

#[export] Instance toy_noise_laws : @NoiseLaws toy_noise eq.
Proof.
  split.
  - intros a b msg ct a' <- [= <- <-]. exists (S a). split; [|done]. simpl.
    by rewrite take_tagged, decide_True.
  - intros a msg ct a' [= <- <-]. rewrite length_app, length_toy_tag. lia.
Qed.

#[local] Instance toy_bytes : Postcard bytes := postcard_of (f_list f_byte).
#[local] Instance toy_bytes_laws : PostcardLaws bytes.
Proof. apply postcard_of_laws. auto with toy. Qed.

Definition sample_socket (input : bytes) : Socket :=
  {| stream := {| stream_in := input; stream_out := [] |}; transport := 0%nat |}.

Lemma socket_message_roundtrip_witness :
  let sA' := (write [x07; x08; x09] (sample_socket [])).2 in
  let r := read_limited (T := bytes) 100 (sample_socket (stream_out (stream sA') ++ [xff])) in
  r.1 = Ok [x07; x08; x09] /\ stream_in (stream r.2) = [xff].
Proof.
  intros sA'.
  assert (write [x07; x08; x09] (sample_socket []) = (Ok tt, sA')) as Hok.
  { transitivity ((write [x07; x08; x09] (sample_socket [])).1, sA');
      [apply surjective_pairing|]. apply (f_equal (fun r => (r, sA'))). vm_compute. reflexivity. }
  assert (forall enc, to_stdvec [x07; x08; x09] = Ok enc -> zlen enc <= 100) as Hlen.
  { intros enc Henc. vm_compute in Henc. injection Henc as <-. vm_compute. discriminate. }
  clearbody sA'. intros r.
  destruct (socket_message_roundtrip eq [x07; x08; x09] (sample_socket []) sA'
    {| stream := {| stream_in := stream_out (stream sA') ++ [xff]; stream_out := [] |};
       transport := transport (sample_socket []) |} 100 [xff] eq_refl Hok Hlen)
    as (out & Hs & Hread).
  destruct Hread as (tB & _ & Hr); [rewrite Hs; reflexivity|].
  unfold r, sample_socket. cbn [transport sample_socket] in Hr. rewrite Hr.
  split; reflexivity.
Defined.

Lemma read_limited_safe_witness :
  exists message s', read_limited (T := bytes) 100
      (sample_socket (stream_out (stream (write [x07] (sample_socket [])).2))) = (Ok message, s') /\
    stream_out (stream s') = [].
Proof.
  destruct (read_limited (T := bytes) 100
    (sample_socket (stream_out (stream (write [x07] (sample_socket [])).2)))) as [[m|] s'] eqn:E.
  - exists m, s'. split; [done|].
    destruct (read_limited_safe (T := bytes) 100
      (sample_socket (stream_out (stream (write [x07] (sample_socket [])).2)))) as [_ H].
    destruct (H _ _ E) as (_ & _ & ->). done.
  - exfalso. apply (f_equal (fun p => is_ok p.1)) in E. vm_compute in E. discriminate.
Defined.

(** A relay whose key the policy refuses is sent the hello only. *)
Lemma rejected_relay_withheld_witness :
  let s := {| stream_in := be_bytes 4 32 ++ slice (Vector.const x09 32); stream_out := [] |} in
  let run := initiator_handshake_xx (Vector.const x07 32) (fun _ => Err MalformedFrame) s in
  is_ok run.1 = false /\ stream_out run.2 = be_bytes 4 1 ++ [x01].
Proof.
  intros s run. destruct (rejected_relay_withheld (Vector.const x07 32)
    (fun _ => Err MalformedFrame) s run.1 run.2 (surjective_pairing run)) as [Hok _].
  split; [|vm_compute; reflexivity]. destruct (run.1) as [[t k]|] eqn:E; [|done].
  by specialize (Hok t k eq_refl).
Defined.
