(* ===== verification/AuthWords.v ===== *)
(** [crates/protocol/src/auth_words.rs]: the word list that renders pairing
    authentication strings, and why its words can be read back. *)
From Stdlib Require Import ZArith Lia.
From S2P Require Import Prelude.

(** The contents of [crates/protocol/wordlist.txt]. *)
Definition WORDLIST_SOURCE : string :=
"able
about
acid
acorn
acre
actor
adapt
add
adobe
adult
afar
affix
afoot
after
again
agent
agile
aglow
ahead
aide
aim
air
aisle
ajar
alarm
album
alert
algae
alias
alley
aloe
alpha
altar
amber
amend
amid
ample
amuse
angel
ankle
annex
ant
anvil
apart
apex
apple
apron
aqua
arbor
arch
area
argue
arid
arm
aroma
array
art
ash
aside
ask
aspen
asset
atlas
atom
attic
audio
auger
aunt
auto
avail
avert
avid
away
awoke
axis
baby
back
badge
bagel
bake
balm
band
barn
bass
bath
bay
bead
bee
began
being
belt
bend
berry
best
bet
bib
bicep
bid
big
bike
bill
bin
biome
bird
bison
bit
black
bleak
blimp
blob
blue
boat
body
bogus
boil
bold
bond
book
born
boss
both
bough
bow
box
boy
brag
brew
brim
broad
brush
bud
bugle
build
bulb
bunk
burly
bus
but
buy
buzz
cabin
cacao
cadet
cage
cake
calf
camp
canal
cap
car
cash
catch
cause
cave
cedar
cell
cent
chain
chef
chin
chop
chunk
cider
cigar
cinch
city
civic
clad
clean
clip
cloak
club
coal
cobra
cocoa
cod
cog
coil
coke
cold
comb
cone
cook
copy
cord
cost
cot
couch
cove
cow
cozy
crab
crew
crib
crop
crumb
cry
cube
cuff
cult
cup
curb
cut
cycle
dab
daily
dam
dance
dare
dash
data
dawn
day
deal
debt
deck
deep
defy
delay
demo
dent
depot
derby
desk
deter
dew
dial
dice
diet
dig
dill
dime
dine
dip
dirt
disc
ditch
dive
dizzy
dock
dodge
dog
doll
dome
donor
door
dose
dot
dough
dove
down
dozen
drag
dream
drip
drop
drum
dry
duck
due
dug
duke
dull
dune
dusk
duty
dwarf
dwell
dye
each
eager
ear
ease
eat
echo
edge
edit
eel
egg
eight
elbow
elder
elect
elf
elk
elm
else
elude
ember
emit
empty
enact
end
enjoy
enter
envoy
epic
equal
era
error
erupt
essay
etch
ethic
evade
even
evict
evoke
exam
excel
exit
expel
extra
fable
face
fade
fair
fake
fall
fame
fan
far
fast
fate
fault
favor
fawn
fax
feast
fee
felt
fence
fern
fetch
fever
few
fiber
field
fifty
fig
file
find
fire
fish
fit
five
fix
flag
fled
flip
flow
flu
fly
foam
focus
fog
foil
fold
fond
food
for
four
fox
frame
free
frog
fruit
fudge
fuel
full
fun
fur
fuse
fuzzy
gain
gala
game
gap
gas
gate
gauge
gave
gaze
gear
gecko
gem
germ
get
ghost
giant
gift
gill
girl
give
glad
gleam
glide
glow
glue
glyph
gnome
goal
gold
gone
good
gorge
got
gourd
gown
grab
grew
grid
grow
grub
guard
guess
guide
gulf
gum
gust
gut
guy
gym
habit
hail
half
ham
hand
happy
hard
hash
hat
haul
have
hawk
hay
haze
head
hedge
heel
held
hem
hen
herb
hex
hid
high
hike
hill
hint
hip
hire
hiss
hive
hoax
hobby
hoist
hold
home
honk
hood
hope
horn
hose
hot
hour
hover
howl
hub
hue
huge
hull
hump
hunt
hurl
husk
hut
hydra
hymn
ice
icon
idea
idle
igloo
ill
image
imply
inch
index
ingot
ink
inlet
inn
input
into
iris
iron
issue
item
ivory
ivy
jade
jail
jam
jar
jaw
jazz
jeans
jelly
jet
jewel
job
jog
join
joke
jolt
joy
judge
jug
juice
july
jump
june
jury
just
kale
kayak
keen
kelp
kept
key
kick
kid
kilt
kind
kiosk
kiss
kit
kiwi
knack
knee
knit
knob
koala
lab
lace
lady
lake
lamb
land
lap
lark
last
late
laugh
lava
law
layer
lazy
leaf
ledge
leek
left
leg
lemon
lend
less
let
level
liar
libel
lid
life
light
like
lily
limb
line
lion
lip
list
liter
live
llama
load
lobby
lock
lodge
loft
log
long
look
lord
lose
lot
loud
love
low
loyal
luck
lull
lump
lung
lure
lush
lute
lyric
macaw
mad
magic
maid
major
make
malt
man
map
mare
mask
mate
maze
meal
medal
meet
melt
memo
mend
mercy
mesa
metal
micro
midst
might
mild
mimic
mind
mist
mix
moat
mock
model
moist
mold
money
mood
mop
more
moss
moth
mound
move
much
mud
mug
mule
mural
muse
mute
myrrh
myth
nacho
nail
name
nap
nasal
navy
near
neck
need
neon
nerve
nest
net
never
new
next
nice
niece
night
nine
noble
node
noise
nomad
none
nook
north
nose
note
novel
now
numb
nurse
nut
nylon
oak
oar
oasis
oat
obey
oboe
odd
ode
odor
ogre
oil
okay
old
omit
once
one
only
onto
onyx
opal
open
our
out
oval
oven
owl
own
pace
pad
page
paid
pale
pan
park
pass
path
pave
paw
pay
peak
peck
peel
pen
perk
pest
pick
pie
pike
pile
pin
pipe
pit
plan
plot
plug
pod
poem
pole
pond
pool
pork
pose
pot
pour
pray
prey
prod
puck
puff
pull
puma
pure
push
put
quit
race
raft
rag
raid
rake
ramp
rank
rare
rash
rate
raw
ray
read
red
reed
rely
rent
rest
rib
rice
ride
rim
ring
riot
ripe
rise
road
robe
rock
rod
role
roof
rope
rose
row
ruby
rug
ruin
rule
run
rush
rye
sack
sad
safe
sage
said
salt
same
sand
sash
save
saw
say
scan
sea
seed
self
send
set
sew
shed
ship
shoe
shut
shy
sick
side
sift
sigh
silk
sing
sip
sit
six
size
ski
sky
slab
sled
slim
slot
slug
snap
snow
snug
soak
sock
soda
sofa
soil
sold
some
song
soon
sort
soul
span
spin
spot
spur
spy
star
stem
stir
stop
stub
such
suit
sum
sun
sure
swan
swim
tack
tag
tail
take
tale
tame
tan
tape
tarp
task
tax
tea
tech
tell
ten
term
test
text
that
then
thin
thus
tide
tie
tile
time
tin
tip
toad
toe
tofu
toga
toil
told
tomb
tone
took
top
torn
toss
tote
tour
tow
toy
tram
tree
trim
trot
true
try
tub
tuck
tuft
tuna
turf
tusk
twig
two
type
ugly
undo
unit
upon
urge
use
van
vary
vase
veal
veer
veil
vent
verb
vest
vet
via
view
vine
visa
void
volt
vote
wade
wag
wait
wake
walk
want
ward
wash
watt
wave
wax
way
weak
web
weed
weld
went
were
west
wet
what
when
whim
whom
why
wick
wide
wife
wig
wild
win
wipe
wire
wise
with
woke
wolf
wood
word
wrap
wren
yak
yam
yard
yawn
year
yell
yes
yet
yoga
yolk
your
zeal
zero
zest
zinc
zip
zone
zoo
".
Definition WORDLIST_LEN : nat := 1024.

(** [str::lines] on text whose lines end in a line feed. *)
Fixpoint lines_from (line s : string) : list string :=
  match s with
  | EmptyString => if decide (line = EmptyString) then [] else [line]
  | String c s =>
      if decide (c = Ascii.ascii_of_nat 10) then line :: lines_from EmptyString s
      else lines_from (line +:+ String c EmptyString) s
  end.
Definition lines : string -> list string := lines_from EmptyString.

(** [wordlist]; its assertion on the number of words is [length_wordlist]. *)
Definition wordlist : list string :=
  filter (fun line => line <> EmptyString) (lines WORDLIST_SOURCE).

Lemma length_wordlist : length wordlist = WORDLIST_LEN.
Proof. vm_compute. reflexivity. Qed.

(** * Reading words back *)

Definition lowercase (s : string) : bool :=
  forallb (fun c => let n := Ascii.nat_of_ascii c in (97 <=? n)%nat && (n <=? 122)%nat)
    (String.list_ascii_of_string s).

(** The rank of a word of at most five letters in alphabetical order. *)
Definition word_key (s : string) : Z :=
  foldl (fun acc c => acc * 128 + Z.of_nat (Ascii.nat_of_ascii c)) 0
    (take 5 (String.list_ascii_of_string s ++ replicate 5 Ascii.zero)).

Lemma wordlist_checked :
  forallb lowercase wordlist &&
  negb (windows2_any (fun a b => negb (a <? b)) (word_key <$> wordlist)) = true.
Proof. vm_compute. reflexivity. Qed.

Lemma wordlist_lowercase w : w ∈ wordlist -> lowercase w = true.
Proof.
  pose proof wordlist_checked as [H _]%andb_true_iff. rewrite forallb_forall in H.
  intros Hw. apply H. by apply list_elem_of_In.
Qed.

Lemma wordlist_lookup_inj i j w : wordlist !! i = Some w -> wordlist !! j = Some w -> i = j.
Proof.
  apply NoDup_lookup. apply (NoDup_fmap_1 word_key).
  pose proof wordlist_checked as [_ H]%andb_true_iff.
  apply negb_true_iff, windows2_any_false in H.
  assert (StronglySorted Z.lt (word_key <$> wordlist)) as HS.
  { apply Sorted_StronglySorted; [intros ???; lia|].
    eapply Sorted_mono; [|exact H]. intros x y Hxy%negb_false_iff. lia. }
  clear H. induction HS as [|x l _ IH HF]; constructor; [|done].
  intros Hx. rewrite Forall_forall in HF. specialize (HF x Hx). lia.
Qed.

(** A word up to a separator that is not a letter. *)
Lemma word_prefix_inj c a b s t :
  lowercase (String c EmptyString) = false -> lowercase a = true -> lowercase b = true ->
  a +:+ String c s = b +:+ String c t -> a = b /\ s = t.
Proof.
  intros Hc. revert b. induction a as [|x a IH]; intros [|y b] Ha Hb H; simpl in *.
  - by injection H.
  - injection H as -> _. unfold lowercase in Hb, Hc. simpl in *. rewrite andb_true_r in Hc.
    by rewrite Hc in Hb.
  - injection H as -> _. unfold lowercase in Ha, Hc. simpl in *. rewrite andb_true_r in Hc.
    by rewrite Hc in Ha.
  - unfold lowercase in Ha, Hb. simpl in *. apply andb_true_iff in Ha as [_ Ha], Hb as [_ Hb].
    injection H as -> H. by destruct (IH b Ha Hb H) as [-> ->].
Qed.
