(* ===== verification/Pairing.v ===== *)
(** [crates/protocol/src/pairing.rs]: the four signed messages that pair a
    viewer with a publisher (request, offer, viewer confirmation, publisher
    decision), the transcript hash that both sides derive and the
    authentication string that the two humans compare.

    The theorems state that an honest run completes, that a confirmation or a
    manual decision commits its signer to one request and one offer, that a
    decision is accepted exactly under the documented conditions, and that two
    authentication strings agree exactly when the transcript bits they render
    agree. *)
From Stdlib Require Import ZArith Lia.
From S2P Require Import Prelude Bytes RustStr External Toy Identity Credential Transport AuthWords.

Definition PAIRING_VERSION : Z := 2.
Definition MAX_PAIRING_MESSAGE_LEN : Z := 32 * 1024.
Definition MAX_DEVICE_LABEL_LEN : Z := 128.
Definition REQUEST_DOMAIN : bytes := byte_string "glacialcast-pair-request-v2".
Definition OFFER_DOMAIN : bytes := byte_string "glacialcast-pair-offer-v2".
Definition CONFIRM_DOMAIN : bytes := byte_string "glacialcast-pair-viewer-confirm-v2".
Definition DECISION_DOMAIN : bytes := byte_string "glacialcast-pair-publisher-decision-v2".
Definition TRANSCRIPT_DOMAIN : bytes := byte_string "glacialcast-pair-transcript-v2".
Definition REQUEST_ID_DOMAIN : bytes := byte_string "glacialcast-pair-request-id-v2".
Definition CLOCK_SKEW_MS : Z := 5 * 60 * 1000.

Inductive PairingError : Type :=
| PairUnsupportedVersion
| PairInvalidMetadata (what : string)
| PairInvalidSignature
| PairNotYetValid
| PairExpired
| TranscriptMismatch
| PairPostcard (e : postcard_error)
| PairIdentity (e : IdentityError).
#[global] Instance PairingError_eq_dec : EqDecision PairingError.
Proof. solve_decision. Defined.

Definition validate_time (issued_at_ms expires_at_ms now_ms max_lifetime_ms : Z) :
    result PairingError unit :=
  let? lifetime := ok_or (i64_checked_sub expires_at_ms issued_at_ms)
                     (PairInvalidMetadata "pairing time range overflows") in
  reject_if (lifetime <= 0 \/ max_lifetime_ms <= 0 \/ lifetime > max_lifetime_ms)
    (PairInvalidMetadata "pairing lifetime exceeds policy") then?
  reject_if (issued_at_ms > i64_saturating_add now_ms CLOCK_SKEW_MS) PairNotYetValid then?
  reject_if (expires_at_ms <= now_ms) PairExpired.

Definition validate_device_label (label : rstring) : result PairingError unit :=
  reject_if (bad_label MAX_DEVICE_LABEL_LEN label) (PairInvalidMetadata "invalid device label").

Definition map_signature (error : IdentityError) : PairingError :=
  match error with
  | IdentityInvalidSignature => PairInvalidSignature
  | other => PairIdentity other
  end.

(** * Messages *)

Record PairRequestBody : Type := {
  prq_version : Z;
  prq_protocol_version : Z;
  prq_publisher : IdentityPublic;
  prq_stream_id : uuid;
  prq_viewer : IdentityPublic;
  prq_viewer_credential : option NativeCredential;
  prq_device_label : rstring;
  prq_nonce : array 32;
  prq_issued_at_ms : Z;
  prq_expires_at_ms : Z;
}.

Record PairRequest : Type := {
  prq_body : PairRequestBody;
  prq_signature : SignatureBytes;
}.

Record PairOfferBody : Type := {
  off_version : Z;
  off_request_id : array 32;
  off_publisher : IdentityPublic;
  off_viewer_id : array 32;
  off_nonce : array 32;
  off_relay_context : array 32;
  off_issued_at_ms : Z;
  off_expires_at_ms : Z;
}.

Record PairOffer : Type := {
  off_body : PairOfferBody;
  off_signature : SignatureBytes;
}.

Record PairTranscript : Type := {
  tr_protocol_version : Z;
  tr_request : PairRequest;
  tr_offer : PairOffer;
}.

Record ViewerConfirmationBody : Type := {
  cnf_version : Z;
  cnf_request_id : array 32;
  cnf_transcript_hash : array 32;
  cnf_viewer_id : array 32;
  cnf_confirmed_at_ms : Z;
}.

Record ViewerConfirmation : Type := {
  cnf_body : ViewerConfirmationBody;
  cnf_signature : SignatureBytes;
}.

Inductive PairDecisionReason : Type :=
| ManualVerified
| TrustedViewerCa
| OpenPolicy
| ReasonRejected.
#[global] Instance PairDecisionReason_eq_dec : EqDecision PairDecisionReason.
Proof. solve_decision. Defined.

Record PublisherDecisionBody : Type := {
  dec_version : Z;
  dec_request_id : array 32;
  dec_viewer_id : array 32;
  dec_stream_id : uuid;
  dec_transcript_hash : array 32;
  dec_approved : bool;
  dec_reason : PairDecisionReason;
  dec_decided_at_ms : Z;
}.

Record PublisherDecision : Type := {
  dec_body : PublisherDecisionBody;
  dec_signature : SignatureBytes;
}.

(** * Codec *)

Definition encode_bounded {T} `{!Postcard T} (value : T) : result PairingError bytes :=
  let? encoded := map_err PairPostcard (to_stdvec value) in
  reject_if (zlen encoded > MAX_PAIRING_MESSAGE_LEN)
    (PairInvalidMetadata "pairing message too large") then?
  Ok encoded.

Definition decode_bounded {T} `{!Postcard T} (l : bytes) : result PairingError T :=
  reject_if (zlen l > MAX_PAIRING_MESSAGE_LEN)
    (PairInvalidMetadata "pairing message too large") then?
  let? (value, remainder) := map_err PairPostcard (take_from_bytes l) in
  reject_if (remainder <> [])
    (PairInvalidMetadata "trailing or noncanonical pairing data") then?
  let? encoded := map_err PairPostcard (to_stdvec value) in
  reject_if (encoded <> l) (PairInvalidMetadata "trailing or noncanonical pairing data") then?
  Ok value.

Section pairing.
Context `{crypto : !Crypto}.
Context `{!Postcard IdentityPublic}.
Context `{!Postcard PairRequestBody, !Postcard PairRequest, !Postcard PairOfferBody}.
Context `{!Postcard PairTranscript, !Postcard ViewerConfirmationBody}.
Context `{!Postcard PublisherDecisionBody}.

(** What [domain_hash] feeds to the hash. *)
Definition domain_preimage (domain encoded : bytes) : bytes :=
  domain ++ be_bytes 8 (zlen encoded) ++ encoded.

Definition domain_hash {T} `{!Postcard T} (domain : bytes) (value : T) :
    result PairingError (array 32) :=
  let? encoded := map_err PairPostcard (to_stdvec value) in
  Ok (sha256 (domain_preimage domain encoded)).

(** [identity.id()?] and [identity.validate()?] *)
Definition pair_id (id : IdentityPublic) : result PairingError (array 32) :=
  map_err PairIdentity (identity_id id).

(** * Requests *)

Definition validate_request_metadata (body : PairRequestBody) : result PairingError unit :=
  reject_if (prq_version body <> PAIRING_VERSION \/
             prq_protocol_version body <> PROTOCOL_VERSION) PairUnsupportedVersion then?
  map_err PairIdentity (identity_validate (prq_publisher body)) then?
  map_err PairIdentity (identity_validate (prq_viewer body)) then?
  reject_if (is_nil (prq_stream_id body)) (PairInvalidMetadata "nil requested stream") then?
  reject_if (is_some_and (fun credential =>
      role (cred_body credential) <> RoleViewer \/
      identity (cred_body credential) <> prq_viewer body) (prq_viewer_credential body))
    (PairInvalidMetadata "viewer credential does not match requesting identity") then?
  validate_device_label (prq_device_label body) then?
  reject_if (prq_nonce body = zeros 32) (PairInvalidMetadata "zero request nonce") then?
  reject_if (prq_expires_at_ms body <= prq_issued_at_ms body)
    (PairInvalidMetadata "invalid request time range").

(** [PairRequest::new_with_credential]; [None] when the entropy source is
    exhausted while the nonce is drawn. *)
Definition new_with_credential (viewer : IdentitySecret) (publisher : IdentityPublic)
    (stream_id : uuid) (device_label : rstring) (viewer_credential : option NativeCredential)
    (issued_at_ms expires_at_ms : Z) (draws : list (array 32)) :
    option (result PairingError PairRequest) :=
  match
    validate_device_label device_label then?
    map_err PairIdentity (identity_validate publisher) then?
    map_err PairIdentity (identity_public viewer)
  with
  | Err e => Some (Err e)
  | Ok public =>
      nonce ← random_nonzero draws;
      Some (
        let body := {|
          prq_version := PAIRING_VERSION; prq_protocol_version := PROTOCOL_VERSION;
          prq_publisher := publisher; prq_stream_id := stream_id; prq_viewer := public;
          prq_viewer_credential := viewer_credential; prq_device_label := device_label;
          prq_nonce := nonce; prq_issued_at_ms := issued_at_ms;
          prq_expires_at_ms := expires_at_ms |} in
        validate_request_metadata body then?
        let? signature := map_err PairIdentity (sign viewer REQUEST_DOMAIN body) in
        Ok {| prq_body := body; prq_signature := signature |})
  end.

Definition pair_request_new (viewer : IdentitySecret) (publisher : IdentityPublic)
    (stream_id : uuid) (device_label : rstring) (issued_at_ms expires_at_ms : Z)
    (draws : list (array 32)) : option (result PairingError PairRequest) :=
  new_with_credential viewer publisher stream_id device_label None issued_at_ms
    expires_at_ms draws.

Definition pair_request_verify (r : PairRequest) (now_ms max_lifetime_ms : Z) :
    result PairingError unit :=
  validate_request_metadata (prq_body r) then?
  validate_time (prq_issued_at_ms (prq_body r)) (prq_expires_at_ms (prq_body r)) now_ms
    max_lifetime_ms then?
  map_err map_signature
    (verify (prq_viewer (prq_body r)) REQUEST_DOMAIN (prq_body r) (prq_signature r)).

Definition pair_request_id (r : PairRequest) : result PairingError (array 32) :=
  domain_hash REQUEST_ID_DOMAIN r.

Definition pair_request_encode (r : PairRequest) : result PairingError bytes :=
  validate_request_metadata (prq_body r) then?
  encode_bounded r.

Definition pair_request_decode (l : bytes) : result PairingError PairRequest :=
  let? request := decode_bounded l in
  validate_request_metadata (prq_body request) then?
  Ok request.

(** * Offers *)

Definition validate_offer_metadata (body : PairOfferBody) : result PairingError unit :=
  reject_if (off_version body <> PAIRING_VERSION) PairUnsupportedVersion then?
  map_err PairIdentity (identity_validate (off_publisher body)) then?
  reject_if (off_request_id body = zeros 32 \/ off_viewer_id body = zeros 32 \/
             off_nonce body = zeros 32 \/ off_relay_context body = zeros 32 \/
             off_expires_at_ms body <= off_issued_at_ms body)
    (PairInvalidMetadata "invalid offer metadata").

Definition offer_new (publisher : IdentitySecret) (request : PairRequest)
    (relay_context : array 32) (issued_at_ms expires_at_ms max_request_lifetime_ms : Z)
    (draws : list (array 32)) : option (result PairingError PairOffer) :=
  match
    pair_request_verify request issued_at_ms max_request_lifetime_ms then?
    let? public := map_err PairIdentity (identity_public publisher) in
    reject_if (public <> prq_publisher (prq_body request) \/ relay_context = zeros 32)
      TranscriptMismatch then?
    let? request_id := pair_request_id request in
    let? viewer_id := pair_id (prq_viewer (prq_body request)) in
    Ok (public, request_id, viewer_id)
  with
  | Err e => Some (Err e)
  | Ok (public, request_id, viewer_id) =>
      nonce ← random_nonzero draws;
      Some (
        let body := {|
          off_version := PAIRING_VERSION; off_request_id := request_id;
          off_publisher := public; off_viewer_id := viewer_id; off_nonce := nonce;
          off_relay_context := relay_context; off_issued_at_ms := issued_at_ms;
          off_expires_at_ms := expires_at_ms |} in
        validate_offer_metadata body then?
        let? signature := map_err PairIdentity (sign publisher OFFER_DOMAIN body) in
        Ok {| off_body := body; off_signature := signature |})
  end.

Definition offer_verify (o : PairOffer) (request : PairRequest) (now_ms max_lifetime_ms : Z) :
    result PairingError unit :=
  validate_offer_metadata (off_body o) then?
  pair_request_verify request now_ms max_lifetime_ms then?
  validate_time (off_issued_at_ms (off_body o)) (off_expires_at_ms (off_body o)) now_ms
    max_lifetime_ms then?
  let? request_id := pair_request_id request in
  reject_if (off_request_id (off_body o) <> request_id \/
             off_publisher (off_body o) <> prq_publisher (prq_body request))
    TranscriptMismatch then?
  let? viewer_id := pair_id (prq_viewer (prq_body request)) in
  reject_if (off_viewer_id (off_body o) <> viewer_id) TranscriptMismatch then?
  map_err map_signature
    (verify (off_publisher (off_body o)) OFFER_DOMAIN (off_body o) (off_signature o)).

(** * Transcripts *)

Definition transcript_hash (request : PairRequest) (offer : PairOffer) :
    result PairingError (array 32) :=
  validate_request_metadata (prq_body request) then?
  validate_offer_metadata (off_body offer) then?
  let? request_id := pair_request_id request in
  reject_if (off_request_id (off_body offer) <> request_id \/
             off_publisher (off_body offer) <> prq_publisher (prq_body request))
    TranscriptMismatch then?
  let? viewer_id := pair_id (prq_viewer (prq_body request)) in
  reject_if (off_viewer_id (off_body offer) <> viewer_id) TranscriptMismatch then?
  domain_hash TRANSCRIPT_DOMAIN {|
    tr_protocol_version := PROTOCOL_VERSION; tr_request := request; tr_offer := offer |}.

(** [{digits:02}] *)
Definition decimal_digit (n : Z) : Ascii.ascii := Ascii.ascii_of_nat (48 + Z.to_nat n).
Definition two_digits (n : Z) : string :=
  String (decimal_digit (n / 10)) (String (decimal_digit (n mod 10)) EmptyString).

(** [words[i]]; the indices below are ten bits wide, as is the list. *)
Definition word (i : Z) : string := default EmptyString (wordlist !! Z.to_nat i).

(** The rendering of a hash. *)
Definition render (hash : array 32) : string :=
  let bits := be_value (take 4 (slice hash)) in
  let first := word (Z.land (Z.shiftr bits 22) 0x3ff) in
  let second := word (Z.land (Z.shiftr bits 12) 0x3ff) in
  let third := word (Z.land (Z.shiftr bits 2) 0x3ff) in
  let digits := be_value (take 2 (drop 4 (slice hash))) mod 100 in
  first +:+ "-" +:+ second +:+ "-" +:+ third +:+ " " +:+ two_digits digits.

Definition authentication_string (request : PairRequest) (offer : PairOffer) :
    result PairingError string :=
  let? hash := transcript_hash request offer in
  Ok (render hash).

(** * Viewer confirmations *)

Definition confirmation_approve (viewer : IdentitySecret) (request : PairRequest)
    (offer : PairOffer) (confirmed_at_ms : Z) : result PairingError ViewerConfirmation :=
  let? public := map_err PairIdentity (identity_public viewer) in
  let? viewer_id := pair_id public in
  let? expected := pair_id (prq_viewer (prq_body request)) in
  reject_if (viewer_id <> expected) TranscriptMismatch then?
  let? request_id := pair_request_id request in
  let? hash := transcript_hash request offer in
  let body := {|
    cnf_version := PAIRING_VERSION; cnf_request_id := request_id;
    cnf_transcript_hash := hash; cnf_viewer_id := viewer_id;
    cnf_confirmed_at_ms := confirmed_at_ms |} in
  let? signature := map_err PairIdentity (sign viewer CONFIRM_DOMAIN body) in
  Ok {| cnf_body := body; cnf_signature := signature |}.

Definition confirmation_verify (c : ViewerConfirmation) (request : PairRequest)
    (offer : PairOffer) : result PairingError unit :=
  reject_if (cnf_version (cnf_body c) <> PAIRING_VERSION) TranscriptMismatch then?
  let? request_id := pair_request_id request in
  reject_if (cnf_request_id (cnf_body c) <> request_id) TranscriptMismatch then?
  let? hash := transcript_hash request offer in
  reject_if (cnf_transcript_hash (cnf_body c) <> hash) TranscriptMismatch then?
  let? viewer_id := pair_id (prq_viewer (prq_body request)) in
  reject_if (cnf_viewer_id (cnf_body c) <> viewer_id) TranscriptMismatch then?
  map_err map_signature
    (verify (prq_viewer (prq_body request)) CONFIRM_DOMAIN (cnf_body c) (cnf_signature c)).

(** * Publisher decisions *)

Definition validate_decision (body : PublisherDecisionBody) : result PairingError unit :=
  reject_if (dec_version body <> PAIRING_VERSION \/ dec_request_id body = zeros 32 \/
             dec_viewer_id body = zeros 32 \/ is_nil (dec_stream_id body))
    (PairInvalidMetadata "invalid decision metadata") then?
  match dec_approved body, dec_reason body, bool_decide (dec_transcript_hash body = zeros 32) with
  | true, ManualVerified, false
  | true, TrustedViewerCa, true
  | true, OpenPolicy, true
  | false, ReasonRejected, true => Ok tt
  | _, _, _ => Err (PairInvalidMetadata "decision reason does not match approval state")
  end.

Definition decision_sign (publisher : IdentitySecret) (body : PublisherDecisionBody) :
    result PairingError PublisherDecision :=
  validate_decision body then?
  let? signature := map_err PairIdentity (sign publisher DECISION_DOMAIN body) in
  Ok {| dec_body := body; dec_signature := signature |}.

(** [publisher.public()? != request.body.publisher] *)
Definition owns_request (publisher : IdentitySecret) (request : PairRequest) :
    result PairingError unit :=
  let? public := map_err PairIdentity (identity_public publisher) in
  reject_if (public <> prq_publisher (prq_body request)) TranscriptMismatch.

Definition decision_for (request : PairRequest) (transcript : result PairingError (array 32))
    (approved : bool) (reason : PairDecisionReason) (decided_at_ms : Z) :
    result PairingError PublisherDecisionBody :=
  let? request_id := pair_request_id request in
  let? viewer_id := pair_id (prq_viewer (prq_body request)) in
  let? transcript := transcript in
  Ok {| dec_version := PAIRING_VERSION; dec_request_id := request_id;
        dec_viewer_id := viewer_id; dec_stream_id := prq_stream_id (prq_body request);
        dec_transcript_hash := transcript; dec_approved := approved; dec_reason := reason;
        dec_decided_at_ms := decided_at_ms |}.

Definition reject (publisher : IdentitySecret) (request : PairRequest) (decided_at_ms : Z) :
    result PairingError PublisherDecision :=
  owns_request publisher request then?
  let? body := decision_for request (Ok (zeros 32)) false ReasonRejected decided_at_ms in
  decision_sign publisher body.

Definition approve_manual (publisher : IdentitySecret) (request : PairRequest)
    (offer : PairOffer) (confirmation : ViewerConfirmation) (decided_at_ms : Z) :
    result PairingError PublisherDecision :=
  confirmation_verify confirmation request offer then?
  owns_request publisher request then?
  let? body := decision_for request (transcript_hash request offer) true ManualVerified
                 decided_at_ms in
  decision_sign publisher body.

Definition approve_by_policy (publisher : IdentitySecret) (request : PairRequest)
    (reason : PairDecisionReason) (decided_at_ms : Z) : result PairingError PublisherDecision :=
  owns_request publisher request then?
  reject_if (reason <> TrustedViewerCa /\ reason <> OpenPolicy)
    (PairInvalidMetadata "invalid automatic approval reason") then?
  let? body := decision_for request (Ok (zeros 32)) true reason decided_at_ms in
  decision_sign publisher body.

Definition decision_verify (d : PublisherDecision) (request : PairRequest)
    (publisher : IdentityPublic) : result PairingError unit :=
  validate_decision (dec_body d) then?
  reject_if (publisher <> prq_publisher (prq_body request)) TranscriptMismatch then?
  let? request_id := pair_request_id request in
  reject_if (dec_request_id (dec_body d) <> request_id) TranscriptMismatch then?
  let? viewer_id := pair_id (prq_viewer (prq_body request)) in
  reject_if (dec_viewer_id (dec_body d) <> viewer_id \/
             dec_stream_id (dec_body d) <> prq_stream_id (prq_body request))
    TranscriptMismatch then?
  map_err map_signature
    (verify publisher DECISION_DOMAIN (dec_body d) (dec_signature d)).

(** * Inversion of the operations *)

(** The input of the hash of a value in a domain. *)
Definition hash_input {T} `{!Postcard T} (domain : bytes) (value : T) : bytes :=
  domain_preimage domain (match to_stdvec value with Ok encoded => encoded | Err _ => [] end).

(** The offer answers the request: the check shared by [offer_verify] and
    [transcript_hash]. *)
Definition answers (offer : PairOffer) (request : PairRequest) : Prop :=
  pair_request_id request = Ok (off_request_id (off_body offer)) /\
  off_publisher (off_body offer) = prq_publisher (prq_body request) /\
  pair_id (prq_viewer (prq_body request)) = Ok (off_viewer_id (off_body offer)).

Lemma i64_checked_sub_ok {a b v e} :
  ok_or (i64_checked_sub a b) (PairInvalidMetadata e) = Ok v <-> v = a - b /\ i64_ok (a - b).
Proof. by rewrite ok_or_Ok, i64_checked_sub_Some. Qed.

Lemma validate_time_Ok issued expires now max :
  validate_time issued expires now max = Ok tt <->
  i64_ok (expires - issued) /\ 0 < expires - issued <= max /\
  issued <= i64_saturating_add now CLOCK_SKEW_MS /\ now < expires.
Proof.
  unfold validate_time. rewrite bind_Ok_inv. setoid_rewrite i64_checked_sub_ok.
  setoid_rewrite guard_bind. setoid_rewrite guard_bind. setoid_rewrite reject_if_Ok.
  split.
  - intros (? & [-> ?] & ? & ? & ?). nor_inv. by split_and!; [|lia..].
  - intros (? & ? & ? & ?). exists (expires - issued). by split_and!; [..|lia|lia|lia].
Qed.

Lemma map_signature_Ok (r : result IdentityError unit) :
  map_err map_signature r = Ok tt <-> r = Ok tt.
Proof. apply map_err_Ok. Qed.

Lemma answers_Ok {A} offer request (k : array 32 -> result PairingError A) v :
  (let? request_id := pair_request_id request in
   reject_if (off_request_id (off_body offer) <> request_id \/
              off_publisher (off_body offer) <> prq_publisher (prq_body request))
     TranscriptMismatch then?
   let? viewer_id := pair_id (prq_viewer (prq_body request)) in
   reject_if (off_viewer_id (off_body offer) <> viewer_id) TranscriptMismatch then?
   k viewer_id) = Ok v <->
  answers offer request /\ k (off_viewer_id (off_body offer)) = Ok v.
Proof.
  unfold answers. split.
  - intros (i & Hi & H)%bind_Ok_inv. apply guard_bind in H as [Hn H]. nor_inv.
    apply bind_Ok_inv in H as (w & Hw & H). apply guard_bind in H as [Hv%dec_stable H].
    rewrite Hi, Hw. by subst.
  - intros [(Hi & Hp & Hv) H]. rewrite Hi, Hv. cbn [mbind result_bind].
    rewrite guard_bind. split; [by intros []|]. cbn [mbind result_bind].
    rewrite guard_bind. by split; [intros []|].
Qed.

Lemma pair_request_verify_Ok r now max :
  pair_request_verify r now max = Ok tt <->
  validate_request_metadata (prq_body r) = Ok tt /\
  validate_time (prq_issued_at_ms (prq_body r)) (prq_expires_at_ms (prq_body r)) now max = Ok tt /\
  verify (prq_viewer (prq_body r)) REQUEST_DOMAIN (prq_body r) (prq_signature r) = Ok tt.
Proof. unfold pair_request_verify. by rewrite !unit_bind, map_signature_Ok. Qed.

Lemma offer_verify_Ok o r now max :
  offer_verify o r now max = Ok tt <->
  validate_offer_metadata (off_body o) = Ok tt /\ pair_request_verify r now max = Ok tt /\
  validate_time (off_issued_at_ms (off_body o)) (off_expires_at_ms (off_body o)) now max = Ok tt /\
  answers o r /\
  verify (off_publisher (off_body o)) OFFER_DOMAIN (off_body o) (off_signature o) = Ok tt.
Proof. unfold offer_verify. by rewrite !unit_bind, answers_Ok, map_signature_Ok. Qed.

Lemma transcript_hash_Ok r o h :
  transcript_hash r o = Ok h <->
  validate_request_metadata (prq_body r) = Ok tt /\ validate_offer_metadata (off_body o) = Ok tt /\
  answers o r /\
  domain_hash TRANSCRIPT_DOMAIN {| tr_protocol_version := PROTOCOL_VERSION; tr_request := r;
    tr_offer := o |} = Ok h.
Proof. unfold transcript_hash. by rewrite !unit_bind, answers_Ok. Qed.

Lemma confirmation_verify_Ok c r o :
  confirmation_verify c r o = Ok tt <->
  cnf_version (cnf_body c) = PAIRING_VERSION /\
  pair_request_id r = Ok (cnf_request_id (cnf_body c)) /\
  transcript_hash r o = Ok (cnf_transcript_hash (cnf_body c)) /\
  pair_id (prq_viewer (prq_body r)) = Ok (cnf_viewer_id (cnf_body c)) /\
  verify (prq_viewer (prq_body r)) CONFIRM_DOMAIN (cnf_body c) (cnf_signature c) = Ok tt.
Proof.
  unfold confirmation_verify. rewrite guard_bind. split.
  - intros [Hv%dec_stable (i & Hi & H)%bind_Ok_inv]. apply guard_bind in H as [Hi'%dec_stable H].
    apply bind_Ok_inv in H as (h & Hh & H). apply guard_bind in H as [Hh'%dec_stable H].
    apply bind_Ok_inv in H as (w & Hw & H). apply guard_bind in H as [Hw'%dec_stable H].
    rewrite map_signature_Ok in H. by subst.
  - intros (Hv & Hi & Hh & Hw & Hs). split; [by intros []|]. rewrite Hi, Hh, Hw.
    cbn [mbind result_bind]. rewrite guard_bind. split; [by intros []|].
    rewrite guard_bind. split; [by intros []|]. rewrite guard_bind. split; [by intros []|].
    by apply map_signature_Ok.
Qed.

(** The combinations of outcome, reason and transcript that a decision may
    carry. *)
Definition decision_shape (body : PublisherDecisionBody) : Prop :=
  match dec_reason body with
  | ManualVerified => dec_approved body = true /\ dec_transcript_hash body <> zeros 32
  | TrustedViewerCa | OpenPolicy => dec_approved body = true /\ dec_transcript_hash body = zeros 32
  | ReasonRejected => dec_approved body = false /\ dec_transcript_hash body = zeros 32
  end.

Lemma validate_decision_Ok body :
  validate_decision body = Ok tt <->
  dec_version body = PAIRING_VERSION /\ dec_request_id body <> zeros 32 /\
  dec_viewer_id body <> zeros 32 /\ ~ is_nil (dec_stream_id body) /\ decision_shape body.
Proof.
  unfold validate_decision, decision_shape. rewrite guard_bind.
  case_bool_decide; destruct (dec_approved body), (dec_reason body);
    split; intros ?; destruct_and?; nor_inv; split_and?; try done; try tauto; naive_solver.
Qed.

Lemma decision_verify_Ok d r p :
  decision_verify d r p = Ok tt <->
  validate_decision (dec_body d) = Ok tt /\ p = prq_publisher (prq_body r) /\
  pair_request_id r = Ok (dec_request_id (dec_body d)) /\
  pair_id (prq_viewer (prq_body r)) = Ok (dec_viewer_id (dec_body d)) /\
  dec_stream_id (dec_body d) = prq_stream_id (prq_body r) /\
  verify p DECISION_DOMAIN (dec_body d) (dec_signature d) = Ok tt.
Proof.
  unfold decision_verify. rewrite unit_bind, guard_bind. split.
  - intros (Hv & Hp%dec_stable & H). split_and!; try done;
      apply bind_Ok_inv in H as (i & Hi & H); apply guard_bind in H as [Hi'%dec_stable H];
      apply bind_Ok_inv in H as (w & Hw & H); apply guard_bind in H as [Hn H]; nor_inv;
      rewrite map_signature_Ok in H; by subst.
  - intros (Hv & -> & Hi & Hw & Hs & H). split_and!; [done|by intros []|].
    rewrite Hi, Hw. cbn [mbind result_bind]. rewrite guard_bind. split; [by intros []|].
    rewrite guard_bind. split; [by intros []|]. by apply map_signature_Ok.
Qed.

(** * Theorems *)

Section bindings.
Context `{!PostcardLaws PairRequest, !PostcardLaws PairTranscript}.

Lemma domain_hash_Ok {T} `{!Postcard T} d (v : T) h :
  domain_hash d v = Ok h <->
  exists e, to_stdvec v = Ok e /\ h = sha256 (domain_preimage d e).
Proof using Type.
  unfold domain_hash. split; [intros H; res_inv; naive_solver|]. by intros (e & -> & ->).
Qed.

(** Within one domain the hash determines the value, unless the inputs made of
    the two values collide. *)
Lemma domain_hash_binds {T} `{!Postcard T, !PostcardLaws T} d (v w : T) h :
  domain_hash d v = Ok h -> domain_hash d w = Ok h ->
  v = w \/ collides (hash_input d v) (hash_input d w).
Proof using Type.
  intros (e1 & H1 & E1)%domain_hash_Ok (e2 & H2 & E2)%domain_hash_Ok.
  unfold hash_input. rewrite H1, H2.
  destruct (decide (domain_preimage d e1 = domain_preimage d e2)) as [E|E].
  - left. unfold domain_preimage in E. apply app_inv_head in E.
    apply app_inj_1 in E as [_ ->]; [|by rewrite !length_be_bytes].
    by eapply to_stdvec_inj.
  - right. split; [done|congruence].
Qed.

(** The inputs of the request id and of the transcript hash. *)
Definition request_input (r : PairRequest) : bytes := hash_input REQUEST_ID_DOMAIN r.
Definition transcript_input (r : PairRequest) (o : PairOffer) : bytes :=
  hash_input TRANSCRIPT_DOMAIN {|
    tr_protocol_version := PROTOCOL_VERSION; tr_request := r; tr_offer := o |}.

(** C39: every later message commits to the earlier ones.  An offer or a publisher
    decision that is accepted for two requests is accepted for one request, unless
    the encodings of these two requests, as they are hashed into request ids,
    collide under SHA-256; a viewer confirmation that is accepted for two pairs of
    request and offer is accepted for one pair, unless the encodings of these two
    transcripts collide. *)
Theorem pairing_messages_bind r1 r2 o1 o2 :
  (forall o now1 now2 m1 m2, offer_verify o r1 now1 m1 = Ok tt ->
     offer_verify o r2 now2 m2 = Ok tt ->
     r1 = r2 \/ collides (request_input r1) (request_input r2)) /\
  (forall c, confirmation_verify c r1 o1 = Ok tt -> confirmation_verify c r2 o2 = Ok tt ->
     (r1 = r2 /\ o1 = o2) \/ collides (transcript_input r1 o1) (transcript_input r2 o2)) /\
  (forall d p1 p2, decision_verify d r1 p1 = Ok tt -> decision_verify d r2 p2 = Ok tt ->
     r1 = r2 \/ collides (request_input r1) (request_input r2)).
Proof.
  split_and!.
  - intros o now1 now2 m1 m2 (_ & _ & _ & (H1 & _) & _)%offer_verify_Ok
      (_ & _ & _ & (H2 & _) & _)%offer_verify_Ok. by eapply domain_hash_binds.
  - intros c (_ & _ & (_ & _ & _ & H1)%transcript_hash_Ok & _)%confirmation_verify_Ok
      (_ & _ & (_ & _ & _ & H2)%transcript_hash_Ok & _)%confirmation_verify_Ok.
    destruct (domain_hash_binds _ _ _ _ H1 H2) as [[= -> ->]|]; auto.
  - intros d p1 p2 (_ & _ & H1 & _)%decision_verify_Ok (_ & _ & H2 & _)%decision_verify_Ok.
    by eapply domain_hash_binds.
Qed.
End bindings.

(** A decision is accepted exactly when it is well formed, its outcome and
    its reason agree, it is addressed to this request, viewer and stream, and
    the publisher of the request signed it. *)
Theorem decision_verify_iff d r p :
  decision_verify d r p = Ok tt <->
  (dec_version (dec_body d) = PAIRING_VERSION /\ dec_request_id (dec_body d) <> zeros 32 /\
   dec_viewer_id (dec_body d) <> zeros 32 /\ ~ is_nil (dec_stream_id (dec_body d)) /\
   decision_shape (dec_body d)) /\
  (p = prq_publisher (prq_body r) /\
   pair_request_id r = Ok (dec_request_id (dec_body d)) /\
   pair_id (prq_viewer (prq_body r)) = Ok (dec_viewer_id (dec_body d)) /\
   dec_stream_id (dec_body d) = prq_stream_id (prq_body r)) /\
  verify p DECISION_DOMAIN (dec_body d) (dec_signature d) = Ok tt.
Proof. rewrite decision_verify_Ok, validate_decision_Ok. naive_solver. Qed.

Section runs.
Context `{crypto_laws : !CryptoLaws}.

Lemma owns_request_Ok s r :
  owns_request s r = Ok tt <-> identity_public s = Ok (prq_publisher (prq_body r)).
Proof using Type.
  unfold owns_request. split.
  - intros H. res_inv. apply dec_stable in H. congruence.
  - intros ->. cbn [map_err mbind result_bind]. apply reject_if_Ok. by intros [].
Qed.

Lemma new_with_credential_Ok viewer publisher stream label cred issued expires draws r :
  new_with_credential viewer publisher stream label cred issued expires draws = Some (Ok r) ->
  validate_request_metadata (prq_body r) = Ok tt /\
  verify (prq_viewer (prq_body r)) REQUEST_DOMAIN (prq_body r) (prq_signature r) = Ok tt /\
  identity_public viewer = Ok (prq_viewer (prq_body r)) /\
  prq_issued_at_ms (prq_body r) = issued /\ prq_expires_at_ms (prq_body r) = expires /\
  prq_publisher (prq_body r) = publisher.
Proof using Type*.
  unfold new_with_credential. destruct (_ then? _) as [public|] eqn:Hpre; [|done].
  intros (nonce & _ & H)%bind_Some. injection H as H.
  rewrite !unit_bind in Hpre. destruct Hpre as (_ & _ & Hpub%map_err_Ok).
  rewrite unit_bind in H. destruct H as [Hmeta H].
  apply bind_Ok_inv in H as (sig & Hsig%map_err_Ok & [= <-]). simpl.
  split_and!; try done. by eapply sign_verify.
Qed.

Lemma offer_new_Ok publisher r ctx issued expires max draws o :
  offer_new publisher r ctx issued expires max draws = Some (Ok o) ->
  pair_request_verify r issued max = Ok tt /\ validate_offer_metadata (off_body o) = Ok tt /\
  answers o r /\ verify (off_publisher (off_body o)) OFFER_DOMAIN (off_body o) (off_signature o) = Ok tt /\
  identity_public publisher = Ok (prq_publisher (prq_body r)) /\
  off_issued_at_ms (off_body o) = issued /\ off_expires_at_ms (off_body o) = expires.
Proof using Type*.
  unfold offer_new. destruct (_ then? _) as [[[public i] w]|] eqn:Hpre; [|done].
  intros (nonce & _ & H)%bind_Some. injection H as H.
  rewrite unit_bind in Hpre. destruct Hpre as [Hreq Hpre].
  apply bind_Ok_inv in Hpre as (p & Hp%map_err_Ok & Hpre). rewrite guard_bind in Hpre.
  destruct Hpre as [Hown Hpre]. nor_inv. subst p.
  apply bind_Ok_inv in Hpre as (i' & Hi & Hpre). apply bind_Ok_inv in Hpre as (w' & Hw & Hpre).
  injection Hpre as <- -> ->. rewrite unit_bind in H. destruct H as [Hmeta H].
  apply bind_Ok_inv in H as (sig & Hsig%map_err_Ok & [= <-]). unfold answers. simpl.
  split_and!; try done. by eapply sign_verify.
Qed.

Lemma confirmation_approve_Ok viewer r o t c :
  validate_request_metadata (prq_body r) = Ok tt ->
  identity_public viewer = Ok (prq_viewer (prq_body r)) ->
  confirmation_approve viewer r o t = Ok c -> confirmation_verify c r o = Ok tt.
Proof using Type*.
  intros Hmeta Hpub. unfold confirmation_approve. rewrite Hpub. cbn [map_err mbind result_bind].
  intros (w & Hw & H)%bind_Ok_inv. rewrite Hw in H. cbn [mbind result_bind] in H.
  rewrite guard_bind in H. destruct H as [_ H].
  apply bind_Ok_inv in H as (i & Hi & H). apply bind_Ok_inv in H as (h & Hh & H).
  apply bind_Ok_inv in H as (sig & Hsig%map_err_Ok & [= <-]).
  apply confirmation_verify_Ok. simpl. split_and!; try done. by eapply sign_verify.
Qed.

Lemma decision_sign_Ok publisher p body d :
  identity_public publisher = Ok p -> decision_sign publisher body = Ok d ->
  dec_body d = body /\ validate_decision body = Ok tt /\
  verify p DECISION_DOMAIN (dec_body d) (dec_signature d) = Ok tt.
Proof using Type*.
  intros Hp. unfold decision_sign. rewrite unit_bind. intros [Hv H].
  apply bind_Ok_inv in H as (sig & Hsig%map_err_Ok & [= <-]). simpl.
  split_and!; try done. by eapply sign_verify.
Qed.

(** Every decision the publisher signs for its own request is verified. *)
Lemma decision_for_verifies publisher r transcript approved reason t body d :
  owns_request publisher r = Ok tt ->
  decision_for r transcript approved reason t = Ok body -> decision_sign publisher body = Ok d ->
  decision_verify d r (prq_publisher (prq_body r)) = Ok tt /\
  dec_approved (dec_body d) = approved /\ dec_reason (dec_body d) = reason /\
  transcript = Ok (dec_transcript_hash (dec_body d)).
Proof using Type*.
  intros Hown%owns_request_Ok Hfor Hsign.
  destruct (decision_sign_Ok _ _ _ _ Hown Hsign) as (Hb & Hval & Hver).
  unfold decision_for in Hfor. apply bind_Ok_inv in Hfor as (i & Hi & H).
  apply bind_Ok_inv in H as (w & Hw & H). apply bind_Ok_inv in H as (h & Hh & [= H]).
  rewrite decision_verify_Ok. rewrite Hb in *. subst body. simpl in *. by split_and!.
Qed.

(** * Progress *)

Definition encodes {T} `{!Postcard T} (v : T) : Prop := is_ok (to_stdvec v) = true.

(** A value that can be serialized can be signed. *)
Lemma sign_total {T} `{!Postcard T} s d (v : T) :
  is_Some (u16_try_from (zlen d)) -> encodes v -> exists sig, sign s d v = Ok sig.
Proof using Type.
  intros [n Hd]. unfold encodes, sign, signing_digest, canonical. rewrite Hd.
  destruct (to_stdvec v) as [e|]; [|done]. intros _. eexists. reflexivity.
Qed.

(** The bodies of the four messages of a run. *)
Definition run_request (w p : IdentityPublic) (stream : uuid) (label : rstring)
    (cred : option NativeCredential) (nonce : array 32) (issued expires : Z) : PairRequestBody := {|
  prq_version := PAIRING_VERSION; prq_protocol_version := PROTOCOL_VERSION;
  prq_publisher := p; prq_stream_id := stream; prq_viewer := w; prq_viewer_credential := cred;
  prq_device_label := label; prq_nonce := nonce; prq_issued_at_ms := issued;
  prq_expires_at_ms := expires |}.
Definition run_offer (i : array 32) (p : IdentityPublic) (wid nonce ctx : array 32)
    (issued expires : Z) : PairOfferBody := {|
  off_version := PAIRING_VERSION; off_request_id := i; off_publisher := p; off_viewer_id := wid;
  off_nonce := nonce; off_relay_context := ctx; off_issued_at_ms := issued;
  off_expires_at_ms := expires |}.
Definition run_confirmation (i h wid : array 32) (t : Z) : ViewerConfirmationBody := {|
  cnf_version := PAIRING_VERSION; cnf_request_id := i; cnf_transcript_hash := h;
  cnf_viewer_id := wid; cnf_confirmed_at_ms := t |}.
Definition run_decision (i wid : array 32) (stream : uuid) (h : array 32) (t : Z) :
    PublisherDecisionBody := {|
  dec_version := PAIRING_VERSION; dec_request_id := i; dec_viewer_id := wid;
  dec_stream_id := stream; dec_transcript_hash := h; dec_approved := true;
  dec_reason := ManualVerified; dec_decided_at_ms := t |}.

Section progress.
Context (viewer publisher : IdentitySecret) (w p : IdentityPublic) (wid : array 32).
Context (Hviewer : identity_public viewer = Ok w) (Hpublisher : identity_public publisher = Ok p).
Context (Hwid : pair_id w = Ok wid) (Hwid0 : wid <> zeros 32).

(** The viewer's request. *)
Lemma request_progress stream label cred issued expires draws nonce :
  ~ is_nil stream -> validate_device_label label = Ok tt ->
  is_none_or (fun c => role (cred_body c) = RoleViewer /\ identity (cred_body c) = w) cred ->
  issued < expires -> random_nonzero draws = Some nonce ->
  encodes (run_request w p stream label cred nonce issued expires) ->
  exists r, new_with_credential viewer p stream label cred issued expires draws = Some (Ok r) /\
    prq_body r = run_request w p stream label cred nonce issued expires /\
    validate_request_metadata (prq_body r) = Ok tt /\
    verify w REQUEST_DOMAIN (prq_body r) (prq_signature r) = Ok tt.
Proof using Hviewer Hpublisher crypto_laws.
  intros Hs Hl Hc Ht Hn He. pose proof (identity_public_valid _ _ Hviewer) as [Hwv _].
  pose proof (identity_public_valid _ _ Hpublisher) as [Hpv _].
  pose proof (random_nonzero_spec _ _ Hn) as [Hn0 _].
  assert (validate_request_metadata (run_request w p stream label cred nonce issued expires) = Ok tt) as Hm.
  { unfold validate_request_metadata. rewrite !unit_bind, !reject_if_Ok. simpl. rewrite Hpv, Hwv.
    split_and!; [tauto|done..| |done|done|lia]. destruct cred; simpl in *; tauto. }
  destruct (sign_total (T := PairRequestBody) viewer REQUEST_DOMAIN _ ltac:(by eexists) He) as [sig Hsig].
  eexists. unfold new_with_credential. rewrite Hl, Hpv, Hviewer. cbn [map_err mbind result_bind].
  rewrite Hn. cbn [mbind option_bind]. fold (run_request w p stream label cred nonce issued expires).
  rewrite Hm, Hsig. cbn [map_err mbind result_bind].
  split; [reflexivity|]. split_and!; [done..|]. by eapply sign_verify.
Qed.

(** The publisher's offer, for a request of this viewer to this publisher. *)
Lemma offer_progress r i ctx issued expires max draws nonce :
  pair_request_verify r issued max = Ok tt -> prq_publisher (prq_body r) = p ->
  prq_viewer (prq_body r) = w -> pair_request_id r = Ok i -> i <> zeros 32 ->
  ctx <> zeros 32 -> issued < expires -> random_nonzero draws = Some nonce ->
  encodes (run_offer i p wid nonce ctx issued expires) ->
  exists o, offer_new publisher r ctx issued expires max draws = Some (Ok o) /\
    off_body o = run_offer i p wid nonce ctx issued expires /\
    validate_offer_metadata (off_body o) = Ok tt /\ answers o r /\
    verify p OFFER_DOMAIN (off_body o) (off_signature o) = Ok tt.
Proof using Hpublisher Hwid Hwid0 crypto_laws.
  intros Hr Hp Hw Hi Hi0 Hctx Ht Hn He. pose proof (random_nonzero_spec _ _ Hn) as [Hn0 _].
  pose proof (identity_public_valid _ _ Hpublisher) as [Hpv _].
  assert (validate_offer_metadata (run_offer i p wid nonce ctx issued expires) = Ok tt) as Hm.
  { unfold validate_offer_metadata. rewrite guard_bind, unit_bind. simpl. rewrite Hpv.
    split_and!; [tauto|done|]. apply reject_if_Ok. intros [|[|[|[]]]]; try done. lia. }
  destruct (sign_total (T := PairOfferBody) publisher OFFER_DOMAIN _ ltac:(by eexists) He) as [sig Hsig].
  eexists. unfold offer_new. rewrite Hr, Hpublisher, Hi, Hw, Hwid. cbn [map_err mbind result_bind].
  rewrite reject_if_false by (rewrite Hp; tauto). cbn [mbind result_bind].
  rewrite Hn. cbn [mbind option_bind]. fold (run_offer i p wid nonce ctx issued expires).
  rewrite Hm, Hsig. cbn [map_err mbind result_bind].
  split; [reflexivity|]. unfold answers. simpl. rewrite Hw, Hp.
  split_and!; [done..|]. by eapply sign_verify.
Qed.

Lemma transcript_total r o h :
  validate_request_metadata (prq_body r) = Ok tt -> validate_offer_metadata (off_body o) = Ok tt ->
  answers o r ->
  domain_hash TRANSCRIPT_DOMAIN {| tr_protocol_version := PROTOCOL_VERSION; tr_request := r;
    tr_offer := o |} = Ok h -> transcript_hash r o = Ok h.
Proof using Type. intros. by apply transcript_hash_Ok. Qed.

(** The viewer's confirmation. *)
Lemma confirmation_progress r o i h t :
  prq_viewer (prq_body r) = w -> pair_request_id r = Ok i -> transcript_hash r o = Ok h ->
  encodes (run_confirmation i h wid t) ->
  exists c, confirmation_approve viewer r o t = Ok c /\ confirmation_verify c r o = Ok tt.
Proof using Hviewer Hwid crypto_laws.
  intros Hw Hi Hh He. destruct (sign_total (T := ViewerConfirmationBody) viewer CONFIRM_DOMAIN _ ltac:(by eexists) He) as [sig Hsig].
  assert (exists c, confirmation_approve viewer r o t = Ok c) as [c Hc].
  { unfold confirmation_approve. rewrite Hviewer, Hw, Hwid, Hi, Hh. cbn [map_err mbind result_bind].
    rewrite Hwid. cbn [mbind result_bind].
    rewrite reject_if_false by tauto. cbn [mbind result_bind].
    fold (run_confirmation i h wid t). rewrite Hsig. eexists. reflexivity. }
  exists c. split; [done|]. eapply confirmation_approve_Ok; [|by rewrite Hw|exact Hc].
  by apply transcript_hash_Ok in Hh as [? _].
Qed.

(** The publisher's decision, once the viewer has confirmed. *)
Lemma decision_progress r o c i h t :
  prq_publisher (prq_body r) = p -> prq_viewer (prq_body r) = w -> pair_request_id r = Ok i ->
  i <> zeros 32 -> transcript_hash r o = Ok h -> h <> zeros 32 ->
  confirmation_verify c r o = Ok tt -> encodes (run_decision i wid (prq_stream_id (prq_body r)) h t) ->
  exists d, approve_manual publisher r o c t = Ok d /\ decision_verify d r p = Ok tt /\
    dec_body d = run_decision i wid (prq_stream_id (prq_body r)) h t.
Proof using Hpublisher Hwid Hwid0 crypto_laws.
  intros Hp Hw Hi Hi0 Hh Hh0 Hc He. destruct (sign_total (T := PublisherDecisionBody) publisher DECISION_DOMAIN _ ltac:(by eexists) He) as [sig Hsig].
  assert (owns_request publisher r = Ok tt) as Hown by (apply owns_request_Ok; by rewrite Hp).
  assert (~ is_nil (prq_stream_id (prq_body r))) as Hs.
  { apply transcript_hash_Ok in Hh as [Hm _]. unfold validate_request_metadata in Hm.
    rewrite !unit_bind, !reject_if_Ok in Hm. tauto. }
  assert (validate_decision (run_decision i wid (prq_stream_id (prq_body r)) h t) = Ok tt) as Hval.
  { apply validate_decision_Ok. by unfold decision_shape. }
  assert (decision_for r (transcript_hash r o) true ManualVerified t =
    Ok (run_decision i wid (prq_stream_id (prq_body r)) h t)) as Hfor.
  { unfold decision_for. rewrite Hi, Hw, Hwid, Hh. reflexivity. }
  assert (exists d, decision_sign publisher (run_decision i wid (prq_stream_id (prq_body r)) h t) = Ok d)
    as [d Hd].
  { unfold decision_sign. rewrite Hval, Hsig. eexists. reflexivity. }
  exists d. split_and!.
  - unfold approve_manual. rewrite Hc, Hown, Hfor. exact Hd.
  - rewrite <-Hp. by eapply decision_for_verifies.
  - rewrite <-Hp in Hpublisher. by apply (decision_sign_Ok _ _ _ _ Hpublisher Hd).
Qed.
End progress.

(** C38: an honest run completes.  From two identities, a well-formed device
    label, stream and credential, time ranges that are not empty and randomness
    that is not all zero, and as long as the values at hand serialize and their
    hashes are not zero, none of the four steps fails: the viewer makes its
    request; for a request that is still fresh the publisher makes its offer; the
    viewer confirms; the publisher approves.  The request and the offer are
    accepted while they are fresh, the confirmation and the decision always, and
    the decision grants access with the transcript that both sides display. *)
Theorem manual_pairing_completes viewer publisher w p wid stream label cred i0 e0 d0 n0
    ctx i1 e1 m1 d1 n1 t t' :
  identity_public viewer = Ok w -> identity_public publisher = Ok p ->
  pair_id w = Ok wid -> wid <> zeros 32 ->
  ~ is_nil stream -> validate_device_label label = Ok tt ->
  is_none_or (fun c => role (cred_body c) = RoleViewer /\ identity (cred_body c) = w) cred ->
  i0 < e0 -> random_nonzero d0 = Some n0 -> encodes (run_request w p stream label cred n0 i0 e0) ->
  ctx <> zeros 32 -> i1 < e1 -> random_nonzero d1 = Some n1 ->
  exists r, new_with_credential viewer p stream label cred i0 e0 d0 = Some (Ok r) /\
    (forall now max, validate_time i0 e0 now max = Ok tt -> pair_request_verify r now max = Ok tt) /\
    forall i, pair_request_id r = Ok i -> i <> zeros 32 -> validate_time i0 e0 i1 m1 = Ok tt ->
      encodes (run_offer i p wid n1 ctx i1 e1) ->
    exists o, offer_new publisher r ctx i1 e1 m1 d1 = Some (Ok o) /\
      (forall now max, validate_time i0 e0 now max = Ok tt -> validate_time i1 e1 now max = Ok tt ->
         offer_verify o r now max = Ok tt) /\
      forall h, domain_hash TRANSCRIPT_DOMAIN {| tr_protocol_version := PROTOCOL_VERSION;
          tr_request := r; tr_offer := o |} = Ok h -> h <> zeros 32 ->
        encodes (run_confirmation i h wid t) -> encodes (run_decision i wid stream h t') ->
      exists c d, confirmation_approve viewer r o t = Ok c /\ confirmation_verify c r o = Ok tt /\
        approve_manual publisher r o c t' = Ok d /\ decision_verify d r p = Ok tt /\
        dec_approved (dec_body d) = true /\
        transcript_hash r o = Ok (dec_transcript_hash (dec_body d)).
Proof.
  intros Hv Hp Hwid Hwid0 Hs Hl Hcred Ht0 Hn0 He0 Hctx Ht1 Hn1.
  destruct (request_progress viewer publisher w p Hv Hp stream label cred i0 e0 d0 n0)
    as (r & Hr & Hb & Hm & Hsig); [done..|].
  assert (forall now max, validate_time i0 e0 now max = Ok tt -> pair_request_verify r now max = Ok tt) as Hver.
  { intros now max Ht. apply pair_request_verify_Ok. by rewrite Hb in *. }
  exists r. split_and!; [done..|]. intros i Hi Hi0 Hfresh He1.
  destruct (offer_progress publisher w p wid Hp Hwid Hwid0 r i ctx i1 e1 m1 d1 n1)
    as (o & Ho & Hob & Hom & Hans & Hosig); [by auto|by rewrite Hb|by rewrite Hb|done..|].
  exists o. split_and!; [done| |].
  { intros now max Ht Ht'. apply offer_verify_Ok. split_and!; [done|by auto|by rewrite Hob|done|by rewrite Hob in *]. }
  intros h Hh Hh0 He2 He3.
  assert (transcript_hash r o = Ok h) as Hth by by apply transcript_total.
  destruct (confirmation_progress viewer w wid Hv Hwid r o i h t) as (c & Hc & Hcv); [by rewrite Hb|done..|].
  destruct (decision_progress publisher w p wid Hp Hwid Hwid0 r o c i h t') as (d & Hd & Hdv & Hdb);
    [by rewrite Hb|by rewrite Hb|done..|by rewrite Hb|].
  exists c, d. by rewrite Hdb.
Qed.

(** A manual approval never exists without the viewer's yes: the viewer
    named in the request signed exactly this transcript, and the approval
    carries its hash and verifies for this request. *)
Theorem manual_approval_confirmed publisher r o c t d :
  approve_manual publisher r o c t = Ok d ->
  verify (prq_viewer (prq_body r)) CONFIRM_DOMAIN (cnf_body c) (cnf_signature c) = Ok tt /\
  transcript_hash r o = Ok (cnf_transcript_hash (cnf_body c)) /\
  cnf_transcript_hash (cnf_body c) = dec_transcript_hash (dec_body d) /\
  pair_request_id r = Ok (cnf_request_id (cnf_body c)) /\
  answers o r /\ dec_reason (dec_body d) = ManualVerified /\
  decision_verify d r (prq_publisher (prq_body r)) = Ok tt.
Proof.
  unfold approve_manual. rewrite !unit_bind. intros (Hc & Hown & Hd).
  apply bind_Ok_inv in Hd as (body & Hbody & Hd).
  destruct (decision_for_verifies _ _ _ _ _ _ _ _ Hown Hbody Hd) as (Hdv & _ & Hreason & Hh).
  apply confirmation_verify_Ok in Hc as (_ & Hi & Hth & _ & Hs).
  pose proof Hth as (_ & _ & Hans & _)%transcript_hash_Ok.
  split_and!; try done. rewrite Hth in Hh. by injection Hh.
Qed.
End runs.
End pairing.

(** * Codec and rendering *)

(** Pairing messages are decoded exactly from their own bounded encodings;
    for requests the metadata is checked on both sides. *)
Theorem pair_request_codec_iff `{crypto : !Crypto, pc : !Postcard PairRequest, pcl : !PostcardLaws PairRequest} l r :
  pair_request_decode l = Ok r <-> pair_request_encode r = Ok l.
Proof.
  unfold pair_request_decode, pair_request_encode, decode_bounded, encode_bounded.
  rewrite unit_bind. split.
  - intros (r' & H & H')%bind_Ok_inv. rewrite unit_bind in H'. destruct H' as [Hm [= ->]].
    rewrite guard_bind in H. destruct H as [Hlen H].
    apply bind_Ok_inv in H as ([v rest] & Ht%map_err_Ok & H). rewrite guard_bind in H.
    destruct H as [Hr%dec_stable H]. apply bind_Ok_inv in H as (e & He%map_err_Ok & H).
    rewrite guard_bind in H. destruct H as [->%dec_stable [= ->]].
    rewrite He. cbn [map_err mbind result_bind]. by rewrite guard_bind.
  - intros [Hm H]. apply bind_Ok_inv in H as (e & He%map_err_Ok & H). rewrite guard_bind in H.
    destruct H as [Hlen [= ->]]. apply bind_Ok_inv. exists r. split.
    + rewrite guard_bind. split; [done|]. rewrite (take_to_stdvec_nil _ _ He).
      cbn [map_err mbind result_bind]. rewrite guard_bind. split; [by intros []|]. rewrite He.
      cbn [map_err mbind result_bind]. rewrite guard_bind. by split; [intros []|].
    + by rewrite Hm.
Qed.

Lemma word_spec i :
  0 <= i < 1024 -> lowercase (word i) = true /\ wordlist !! Z.to_nat i = Some (word i).
Proof.
  intros Hi. destruct (lookup_lt_is_Some_2 wordlist (Z.to_nat i)) as [w Hw].
  { rewrite length_wordlist. unfold WORDLIST_LEN. lia. }
  unfold word. rewrite Hw. split; [|done]. by eapply wordlist_lowercase, list_elem_of_lookup_2.
Qed.

Lemma word_inj i j : 0 <= i < 1024 -> 0 <= j < 1024 -> word i = word j -> i = j.
Proof.
  intros Hi Hj E. destruct (word_spec i Hi) as [_ H1]. destruct (word_spec j Hj) as [_ H2].
  rewrite E in H1. pose proof (wordlist_lookup_inj _ _ _ H1 H2). lia.
Qed.

Lemma two_digits_inj n m : 0 <= n < 100 -> 0 <= m < 100 -> two_digits n = two_digits m -> n = m.
Proof.
  assert (forall a b, 0 <= a < 10 -> 0 <= b < 10 -> decimal_digit a = decimal_digit b -> a = b)
    as Hd.
  { intros a b Ha Hb H%(f_equal Ascii.nat_of_ascii). unfold decimal_digit in H.
    rewrite !Ascii.nat_ascii_embedding in H by lia. lia. }
  intros Hn Hm [= H1%Hd H2%Hd]; Z.to_euclidean_division_equations; lia.
Qed.

(** The ten bits of a 32-bit value that select a word. *)
Lemma ten_bits b k : 0 <= k -> Z.land (Z.shiftr b k) 0x3ff = (b / 2 ^ k) mod 1024.
Proof.
  intros Hk. rewrite Z.shiftr_div_pow2 by done. change 0x3ff with (Z.ones 10).
  by rewrite Z.land_ones by lia.
Qed.

(** The authentication string is faithful: two strings are equal exactly
    when the first thirty bits of the two transcript hashes and the decimal
    suffix agree, so comparing them aloud compares 36 bits of the transcript. *)
Theorem render_faithful h1 h2 :
  render h1 = render h2 <->
  be_value (take 4 (slice h1)) / 4 = be_value (take 4 (slice h2)) / 4 /\
  be_value (take 2 (drop 4 (slice h1))) mod 100 = be_value (take 2 (drop 4 (slice h2))) mod 100.
Proof.
  unfold render.
  assert (forall h : array 32, 0 <= be_value (take 4 (slice h)) < 2 ^ 32) as Hb.
  { intros h. pose proof (be_value_range (take 4 (slice h))) as H.
    rewrite length_take, length_vec_to_list in H. by replace (256 ^ _) with (2 ^ 32) in H. }
  generalize (Hb h1) (Hb h2). clear Hb.
  generalize (be_value (take 4 (slice h1))) (be_value (take 4 (slice h2))).
  generalize (be_value (take 2 (drop 4 (slice h1)))) (be_value (take 2 (drop 4 (slice h2)))).
  intros d1 d2 b1 b2 Hb1 Hb2. rewrite !ten_bits by lia.
  pose proof (fun b k => Z.mod_pos_bound (b / 2 ^ k) 1024 eq_refl) as Hr.
  pose proof (fun b k => proj1 (word_spec _ (Hr b k))) as Hl.
  split.
  - intros H.
    apply word_prefix_inj in H as [E1%word_inj H]; [|auto..].
    apply word_prefix_inj in H as [E2%word_inj H]; [|auto..].
    apply word_prefix_inj in H as [E3%word_inj H]; [|auto..].
    apply two_digits_inj in H; [|apply Z.mod_pos_bound; lia..]. split; [|done].
    change (2 ^ 22) with 4194304 in *. change (2 ^ 12) with 4096 in *.
    change (2 ^ 2) with 4 in *. change (2 ^ 32) with 4294967296 in *.
    clear Hr Hl H. Z.to_euclidean_division_equations. lia.
  - intros [E ->].
    assert (forall k, 2 <= k -> b1 / 2 ^ k = b2 / 2 ^ k) as Hk.
    { intros k Hk. replace (2 ^ k) with (4 * 2 ^ (k - 2))
        by (change 4 with (2 ^ 2); rewrite <-Z.pow_add_r by lia; f_equal; lia).
      by rewrite <-!Z.div_div, E by lia. }
    by rewrite !Hk by lia.
Qed.

(** ** Witnesses *)

#[local] Existing Instance toy_identity_public.
#[local] Existing Instance toy_authority_public.
#[local] Existing Instance toy_request_body.
#[local] Existing Instance toy_request.
#[local] Existing Instance toy_credential_body.
#[local] Existing Instance toy_revocation_body.
#[local] Existing Instance toy_request_laws.

Definition f_credential : format NativeCredential :=
  f_iso (f_pair f_credential_body f_signature)
    (fun c => (cred_body c, cred_signature c))
    (fun '(b, s) => Some {| cred_body := b; cred_signature := s |}).
Definition f_pair_request_body : format PairRequestBody :=
  f_iso (f_pair (f_pair (f_pair f_Z f_Z) (f_pair f_identity_public (f_array 16)))
           (f_pair (f_pair f_identity_public (f_option f_credential))
              (f_pair (f_pair (f_list f_Z) (f_array 32)) (f_pair f_Z f_Z))))
    (fun b => (((prq_version b, prq_protocol_version b), (prq_publisher b, prq_stream_id b)),
               ((prq_viewer b, prq_viewer_credential b),
                ((prq_device_label b, prq_nonce b), (prq_issued_at_ms b, prq_expires_at_ms b)))))
    (fun '(((v, q), (p, s)), ((w, c), ((l, n), (a, e)))) =>
       Some {| prq_version := v; prq_protocol_version := q; prq_publisher := p;
               prq_stream_id := s; prq_viewer := w; prq_viewer_credential := c;
               prq_device_label := l; prq_nonce := n; prq_issued_at_ms := a;
               prq_expires_at_ms := e |}).
Definition f_pair_request : format PairRequest :=
  f_iso (f_pair f_pair_request_body f_signature)
    (fun r => (prq_body r, prq_signature r))
    (fun '(b, s) => Some {| prq_body := b; prq_signature := s |}).
Definition f_offer_body : format PairOfferBody :=
  f_iso (f_pair (f_pair (f_pair f_Z (f_array 32)) (f_pair f_identity_public (f_array 32)))
           (f_pair (f_pair (f_array 32) (f_array 32)) (f_pair f_Z f_Z)))
    (fun b => (((off_version b, off_request_id b), (off_publisher b, off_viewer_id b)),
               ((off_nonce b, off_relay_context b), (off_issued_at_ms b, off_expires_at_ms b))))
    (fun '(((v, i), (p, w)), ((n, c), (a, e))) =>
       Some {| off_version := v; off_request_id := i; off_publisher := p; off_viewer_id := w;
               off_nonce := n; off_relay_context := c; off_issued_at_ms := a;
               off_expires_at_ms := e |}).
Definition f_offer : format PairOffer :=
  f_iso (f_pair f_offer_body f_signature)
    (fun o => (off_body o, off_signature o))
    (fun '(b, s) => Some {| off_body := b; off_signature := s |}).
Definition f_transcript : format PairTranscript :=
  f_iso (f_pair f_Z (f_pair f_pair_request f_offer))
    (fun t => (tr_protocol_version t, (tr_request t, tr_offer t)))
    (fun '(v, (r, o)) =>
       Some {| tr_protocol_version := v; tr_request := r; tr_offer := o |}).
Definition f_confirmation_body : format ViewerConfirmationBody :=
  f_iso (f_pair (f_pair f_Z (f_array 32)) (f_pair (f_array 32) (f_pair (f_array 32) f_Z)))
    (fun b => ((cnf_version b, cnf_request_id b),
               (cnf_transcript_hash b, (cnf_viewer_id b, cnf_confirmed_at_ms b))))
    (fun '((v, i), (h, (w, t))) =>
       Some {| cnf_version := v; cnf_request_id := i; cnf_transcript_hash := h;
               cnf_viewer_id := w; cnf_confirmed_at_ms := t |}).
Definition f_reason : format PairDecisionReason :=
  f_iso f_Z (fun r => match r with ManualVerified => 0 | TrustedViewerCa => 1 | OpenPolicy => 2
                      | ReasonRejected => 3 end)
    (fun z => match z with 0 => Some ManualVerified | 1 => Some TrustedViewerCa
              | 2 => Some OpenPolicy | 3 => Some ReasonRejected | _ => None end).
Definition f_decision_body : format PublisherDecisionBody :=
  f_iso (f_pair (f_pair (f_pair f_Z (f_array 32)) (f_pair (f_array 32) (f_array 16)))
           (f_pair (f_pair (f_array 32) f_bool) (f_pair f_reason f_Z)))
    (fun b => (((dec_version b, dec_request_id b), (dec_viewer_id b, dec_stream_id b)),
               ((dec_transcript_hash b, dec_approved b), (dec_reason b, dec_decided_at_ms b))))
    (fun '(((v, i), (w, s)), ((h, a), (r, t))) =>
       Some {| dec_version := v; dec_request_id := i; dec_viewer_id := w; dec_stream_id := s;
               dec_transcript_hash := h; dec_approved := a; dec_reason := r;
               dec_decided_at_ms := t |}).

Lemma f_credential_ok : format_ok f_credential.
Proof.
  apply f_iso_ok; [by intros []|]. apply f_pair_ok; [|auto with toy].
  apply f_iso_ok; [by intros [] | auto 10 with toy].
Qed.
#[export] Hint Resolve f_credential_ok : toy.
Lemma f_pair_request_ok : format_ok f_pair_request.
Proof.
  apply f_iso_ok; [by intros []|]. apply f_pair_ok; [|auto with toy].
  apply f_iso_ok; [by intros [] | auto 12 with toy].
Qed.
Lemma f_offer_ok : format_ok f_offer.
Proof.
  apply f_iso_ok; [by intros []|]. apply f_pair_ok; [|auto with toy].
  apply f_iso_ok; [by intros [] | auto 12 with toy].
Qed.
#[export] Hint Resolve f_pair_request_ok f_offer_ok : toy.

#[local] Instance toy_pair_request_body : Postcard PairRequestBody :=
  postcard_of f_pair_request_body.
#[local] Instance toy_pair_request : Postcard PairRequest := postcard_of f_pair_request.
#[local] Instance toy_offer_body : Postcard PairOfferBody := postcard_of f_offer_body.
#[local] Instance toy_offer : Postcard PairOffer := postcard_of f_offer.
#[local] Instance toy_transcript : Postcard PairTranscript := postcard_of f_transcript.
#[local] Instance toy_confirmation_body : Postcard ViewerConfirmationBody :=
  postcard_of f_confirmation_body.
#[local] Instance toy_decision_body : Postcard PublisherDecisionBody :=
  postcard_of f_decision_body.
Definition f_confirmation : format ViewerConfirmation :=
  f_iso (f_pair f_confirmation_body f_signature)
    (fun c => (cnf_body c, cnf_signature c))
    (fun '(b, s) => Some {| cnf_body := b; cnf_signature := s |}).
Definition f_decision : format PublisherDecision :=
  f_iso (f_pair f_decision_body f_signature)
    (fun d => (dec_body d, dec_signature d))
    (fun '(b, s) => Some {| dec_body := b; dec_signature := s |}).
Lemma f_reason_ok : format_ok f_reason.
Proof. apply f_iso_ok; [by intros [] | auto with toy]. Qed.
#[export] Hint Resolve f_reason_ok : toy.
#[local] Instance toy_confirmation : Postcard ViewerConfirmation := postcard_of f_confirmation.
#[local] Instance toy_decision : Postcard PublisherDecision := postcard_of f_decision.
#[local] Instance toy_confirmation_laws : PostcardLaws ViewerConfirmation.
Proof.
  apply postcard_of_laws, f_iso_ok; [by intros []|]. apply f_pair_ok; [|auto with toy].
  apply f_iso_ok; [by intros [] | auto 10 with toy].
Defined.
#[local] Instance toy_decision_laws : PostcardLaws PublisherDecision.
Proof.
  apply postcard_of_laws, f_iso_ok; [by intros []|]. apply f_pair_ok; [|auto with toy].
  apply f_iso_ok; [by intros [] | auto 10 with toy].
Defined.
#[local] Instance toy_pair_request_laws : PostcardLaws PairRequest.
Proof. apply postcard_of_laws. auto with toy. Defined.
#[local] Instance toy_offer_laws : PostcardLaws PairOffer.
Proof. apply postcard_of_laws. auto with toy. Defined.
#[local] Instance toy_transcript_laws : PostcardLaws PairTranscript.
Proof. apply postcard_of_laws, f_iso_ok; [by intros []|]. auto with toy. Defined.

(** A publisher (the identity of [Identity]) and a viewer that pair. *)
Definition sample_viewer : IdentitySecret :=
  {| signing_secret := Vector.const x15 32; kem_secret := Vector.const x16 32 |}.
Definition sample_stream : uuid := Vector.const x31 16.
Definition sample_pairing : option (PairRequest * PairOffer * ViewerConfirmation * PublisherDecision) :=
  match pair_request_new sample_viewer sample_public sample_stream (ascii_str "desk")
          1000 90000 [Vector.const x41 32] with
  | Some (Ok r) =>
      match offer_new sample_secret r (Vector.const x42 32) 2000 80000 100000
              [Vector.const x43 32] with
      | Some (Ok o) =>
          match confirmation_approve sample_viewer r o 3000 with
          | Ok c =>
              match approve_manual sample_secret r o c 4000 with
              | Ok d => Some (r, o, c, d)
              | Err _ => None
              end
          | Err _ => None
          end
      | _ => None
      end
  | _ => None
  end.

Lemma sample_pairing_steps r o c d :
  sample_pairing = Some (r, o, c, d) ->
  new_with_credential sample_viewer sample_public sample_stream (ascii_str "desk") None
    1000 90000 [Vector.const x41 32] = Some (Ok r) /\
  offer_new sample_secret r (Vector.const x42 32) 2000 80000 100000 [Vector.const x43 32]
    = Some (Ok o) /\
  confirmation_approve sample_viewer r o 3000 = Ok c /\
  approve_manual sample_secret r o c 4000 = Ok d /\
  confirmation_verify c r o = Ok tt.
Proof.
  unfold sample_pairing, pair_request_new.
  destruct (new_with_credential _ _ _ _ _ _ _ _) as [[r'|]|] eqn:Hr; [|done..].
  destruct (offer_new _ _ _ _ _ _ _) as [[o'|]|] eqn:Ho; [|done..].
  destruct (confirmation_approve _ _ _ _) as [c'|] eqn:Hc; [|done].
  destruct (approve_manual _ _ _ _ _) as [d'|] eqn:Hd; [|done].
  intros [= <- <- <- <-]. split_and!; [exact eq_refl|done..|].
  unfold approve_manual in Hd. by rewrite unit_bind in Hd; destruct Hd.
Qed.

(** The run evaluates, and its request fits a message. *)
Lemma sample_pairing_runs :
  match sample_pairing with
  | Some (r, _, _, _) => is_ok (pair_request_encode r)
  | None => false
  end = true.
Proof. vm_compute. reflexivity. Qed.

(** The conditions on the values that come up in the run. *)
Definition sample_viewer_identity : IdentityPublic :=
  match identity_public sample_viewer with Ok w => w | Err _ => sample_public end.
Definition sample_viewer_id : array 32 :=
  match pair_id sample_viewer_identity with Ok i => i | Err _ => zeros 32 end.
Definition sample_run_request : option (result PairingError PairRequest) :=
  new_with_credential sample_viewer sample_public sample_stream (ascii_str "desk") None
    1000 90000 [Vector.const x41 32].
Definition sample_run_offer (r : PairRequest) : option (result PairingError PairOffer) :=
  offer_new sample_secret r (Vector.const x42 32) 2000 80000 100000 [Vector.const x43 32].
Definition sample_offer_fits (r : PairRequest) : bool :=
  match pair_request_id r with
  | Ok i => bool_decide (i <> zeros 32) && is_ok (to_stdvec
      (run_offer i sample_public sample_viewer_id (Vector.const x43 32) (Vector.const x42 32) 2000 80000))
  | Err _ => false
  end.
Definition sample_rest_fits (r : PairRequest) (o : PairOffer) : bool :=
  match pair_request_id r, domain_hash TRANSCRIPT_DOMAIN {|
      tr_protocol_version := PROTOCOL_VERSION; tr_request := r; tr_offer := o |} with
  | Ok i, Ok h => bool_decide (h <> zeros 32) &&
      is_ok (to_stdvec (run_confirmation i h sample_viewer_id 3000)) &&
      is_ok (to_stdvec (run_decision i sample_viewer_id sample_stream h 4000))
  | _, _ => false
  end.
Lemma sample_run_fits :
  match sample_run_request with
  | Some (Ok r) => sample_offer_fits r &&
      match sample_run_offer r with Some (Ok o) => sample_rest_fits r o | _ => false end
  | _ => false
  end = true.
Proof. vm_compute. reflexivity. Qed.
Lemma sample_offer_fits_inv r :
  sample_offer_fits r = true -> exists i, pair_request_id r = Ok i /\ i <> zeros 32 /\
    encodes (run_offer i sample_public sample_viewer_id (Vector.const x43 32) (Vector.const x42 32) 2000 80000).
Proof.
  unfold sample_offer_fits. destruct (pair_request_id r) as [i|]; [|done].
  intros [Hi He]%andb_true_iff. exists i. split_and!; [done| |exact He].
  by apply bool_decide_eq_true in Hi.
Qed.
Lemma sample_rest_fits_inv r o i :
  sample_rest_fits r o = true -> pair_request_id r = Ok i ->
  exists h, domain_hash TRANSCRIPT_DOMAIN {|
      tr_protocol_version := PROTOCOL_VERSION; tr_request := r; tr_offer := o |} = Ok h /\
    h <> zeros 32 /\ encodes (run_confirmation i h sample_viewer_id 3000) /\
    encodes (run_decision i sample_viewer_id sample_stream h 4000).
Proof.
  unfold sample_rest_fits. intros H Hi. rewrite Hi in H.
  destruct (domain_hash _ _) as [h|]; [|done]. exists h.
  apply andb_true_iff in H as [[Hh H1]%andb_true_iff H2]. split_and!; [done| |done|done].
  by apply bool_decide_eq_true in Hh.
Qed.

Lemma manual_pairing_completes_witness :
  exists r o c d, sample_run_request = Some (Ok r) /\ pair_request_verify r 5000 100000 = Ok tt /\
    sample_run_offer r = Some (Ok o) /\ offer_verify o r 5000 100000 = Ok tt /\
    confirmation_approve sample_viewer r o 3000 = Ok c /\
    approve_manual sample_secret r o c 4000 = Ok d /\ decision_verify d r sample_public = Ok tt.
Proof.
  pose proof sample_run_fits as Hfits.
  destruct (manual_pairing_completes sample_viewer sample_secret sample_viewer_identity sample_public
    sample_viewer_id sample_stream (ascii_str "desk") None 1000 90000 [Vector.const x41 32]
    (Vector.const x41 32) (Vector.const x42 32) 2000 80000 100000 [Vector.const x43 32]
    (Vector.const x43 32) 3000 4000) as (r & Hr & Hver & Hoffer).
  1-2: vm_compute; reflexivity.
  1: vm_compute; reflexivity.
  1: vm_compute; discriminate.
  1: discriminate.
  1: vm_compute; reflexivity.
  1: exact I.
  1: reflexivity.
  1: vm_compute; reflexivity.
  1: vm_compute; reflexivity.
  1: discriminate.
  1: reflexivity.
  1: vm_compute; reflexivity.
  change (sample_run_request = Some (Ok r)) in Hr. rewrite Hr in Hfits.
  apply andb_true_iff in Hfits as [Hfit Hfits].
  apply sample_offer_fits_inv in Hfit as (i & Hi & Hi0 & He).
  destruct (Hoffer i Hi Hi0 eq_refl He) as (o & Ho & Hov & Hrest).
  change (sample_run_offer r = Some (Ok o)) in Ho. rewrite Ho in Hfits.
  apply (sample_rest_fits_inv r o i) in Hfits as (h & Hh & Hh0 & He1 & He2); [|exact Hi].
  destruct (Hrest h Hh Hh0 He1 He2) as (c & d & Hc & _ & Hd & Hdv & _).
  exists r, o, c, d. split; [exact Hr|]. split; [exact (Hver 5000 100000 eq_refl)|].
  split; [exact Ho|]. split; [exact (Hov 5000 100000 eq_refl eq_refl)|].
  split; [exact Hc|]. split; [exact Hd|exact Hdv].
Defined.

Lemma manual_approval_confirmed_witness :
  match sample_pairing with
  | Some (r, o, c, d) => transcript_hash r o = Ok (dec_transcript_hash (dec_body d))
  | None => False
  end.
Proof.
  pose proof sample_pairing_runs as Hrun. pose proof sample_pairing_steps as Hsteps.
  destruct sample_pairing as [[[[r o] c] d]|]; [|discriminate].
  destruct (Hsteps r o c d eq_refl) as (_ & _ & _ & Hd & _).
  destruct (manual_approval_confirmed sample_secret r o c 4000 d Hd) as (_ & H & E' & _).
  rewrite <-E'. exact H.
Defined.

Lemma pairing_messages_bind_witness :
  match sample_pairing with
  | Some (r, o, c, _) => confirmation_verify c r o = Ok tt /\
      forall r' o', confirmation_verify c r' o' = Ok tt ->
        (r = r' /\ o = o') \/ collides (transcript_input r o) (transcript_input r' o')
  | None => False
  end.
Proof.
  pose proof sample_pairing_runs as Hrun. pose proof sample_pairing_steps as Hsteps.
  destruct sample_pairing as [[[[r o] c] d]|]; [|discriminate].
  destruct (Hsteps r o c d eq_refl) as (_ & _ & _ & _ & Hc).
  split; [exact Hc|]. intros r' o'.
  destruct (pairing_messages_bind r r' o o') as (_ & H & _). exact (H c Hc).
Defined.

Lemma pair_request_codec_iff_witness :
  match sample_pairing with
  | Some (r, _, _, _) => exists l, pair_request_encode r = Ok l /\ pair_request_decode l = Ok r
  | None => False
  end.
Proof.
  pose proof sample_pairing_runs as Hrun.
  destruct sample_pairing as [[[[r o] c] d]|]; [|discriminate].
  destruct (pair_request_encode r) as [l|] eqn:El; [|discriminate].
  exists l. split; [reflexivity | apply pair_request_codec_iff; exact El].
Defined.
