(* ===== verification/Codecs.v ===== *)
(** The serialization formats of one relay, bundled as an interface: every type
    that the relay stores or signs has a Postcard format, and the formats obey
    the laws of [External].  The clients of the wire and store components take
    one [Codecs] instead of a format for each type. *)
From Stdlib Require Import ZArith Lia.
From S2P Require Import Prelude Bytes External Toy Identity Credential Native Envelope Pairing.

Class Codecs : Type := {
  codec_identity :: Postcard IdentityPublic;
  codec_authority :: Postcard CertificateAuthorityPublic;
  codec_credential_request_body :: Postcard CredentialRequestBody;
  codec_credential_request :: Postcard CredentialRequest;
  codec_credential_body :: Postcard NativeCredentialBody;
  codec_credential :: Postcard NativeCredential;
  codec_revocation_body :: Postcard RevocationListBody;
  codec_revocation :: Postcard RevocationList;
  codec_authority_file :: Postcard (Z * array 32);
  codec_descriptor_body :: Postcard StreamDescriptorBody;
  codec_descriptor :: Postcard StreamDescriptor;
  codec_object_header :: Postcard NativeObjectHeader;
  codec_object_claim :: Postcard NativeObjectClaim;
  codec_object :: Postcard NativeObject;
  codec_epoch :: Postcard H264EpochPayload;
  codec_envelope_header :: Postcard KeyEnvelopeHeader;
  codec_unsigned_envelope :: Postcard UnsignedEnvelope;
  codec_envelope :: Postcard KeyEnvelope;
  codec_pair_request_body :: Postcard PairRequestBody;
  codec_pair_request :: Postcard PairRequest;
  codec_offer_body :: Postcard PairOfferBody;
  codec_offer :: Postcard PairOffer;
  codec_transcript :: Postcard PairTranscript;
  codec_confirmation_body :: Postcard ViewerConfirmationBody;
  codec_confirmation :: Postcard ViewerConfirmation;
  codec_decision_body :: Postcard PublisherDecisionBody;
  codec_decision :: Postcard PublisherDecision;
}.

(** The laws that the stores rely on. *)
Class CodecsLaws `{!Codecs} : Prop := {
  codec_identity_laws :: PostcardLaws IdentityPublic;
  codec_descriptor_laws :: PostcardLaws StreamDescriptor;
  codec_object_laws :: PostcardLaws NativeObject;
  codec_envelope_laws :: PostcardLaws KeyEnvelope;
  codec_pair_request_laws :: PostcardLaws PairRequest;
  codec_offer_laws :: PostcardLaws PairOffer;
  codec_transcript_laws :: PostcardLaws PairTranscript;
  codec_confirmation_laws :: PostcardLaws ViewerConfirmation;
  codec_decision_laws :: PostcardLaws PublisherDecision;
}.

(** ** The concrete formats of the witnesses *)

#[local] Existing Instance toy_identity_public.
#[local] Existing Instance toy_authority_public.
#[local] Existing Instance toy_request_body.
#[local] Existing Instance toy_request.
#[local] Existing Instance toy_credential_body.
#[local] Existing Instance toy_revocation_body.
#[local] Existing Instance toy_descriptor_body.
#[local] Existing Instance toy_descriptor.
#[local] Existing Instance toy_header.
#[local] Existing Instance toy_claim.
#[local] Existing Instance toy_object.
#[local] Existing Instance toy_epoch.
#[local] Existing Instance toy_descriptor_laws.
#[local] Existing Instance toy_object_laws.
#[local] Existing Instance toy_envelope_header.
#[local] Existing Instance toy_unsigned.
#[local] Existing Instance toy_envelope.
#[local] Existing Instance toy_envelope_laws.
#[local] Existing Instance toy_pair_request_body.
#[local] Existing Instance toy_pair_request.
#[local] Existing Instance toy_offer_body.
#[local] Existing Instance toy_offer.
#[local] Existing Instance toy_transcript.
#[local] Existing Instance toy_confirmation_body.
#[local] Existing Instance toy_decision_body.
#[local] Existing Instance toy_confirmation.
#[local] Existing Instance toy_decision.
#[local] Existing Instance toy_confirmation_laws.
#[local] Existing Instance toy_decision_laws.
#[local] Existing Instance toy_pair_request_laws.
#[local] Existing Instance toy_offer_laws.
#[local] Existing Instance toy_transcript_laws.

#[local] Instance toy_credential : Postcard NativeCredential := postcard_of f_credential.
Definition f_revocation : format RevocationList :=
  f_iso (f_pair f_revocation_body f_signature)
    (fun c => (crl_body c, crl_signature c))
    (fun '(b, s) => Some {| crl_body := b; crl_signature := s |}).
#[local] Instance toy_revocation : Postcard RevocationList := postcard_of f_revocation.
#[local] Instance toy_authority_file : Postcard (Z * array 32) :=
  postcard_of (f_pair f_Z (f_array 32)).
#[local] Instance toy_identity_laws : PostcardLaws IdentityPublic.
Proof. apply postcard_of_laws, f_identity_public_ok. Defined.
#[export] Instance toy_codecs : Codecs.
Proof. constructor; apply _. Defined.
#[export] Instance toy_codecs_laws : CodecsLaws.
Proof. constructor; apply _. Defined.
