(* ===== verification/Wire.v ===== *)
(** [crates/protocol/src/wire.rs]: the messages between publishers, viewers and
    the relay, their structural checks and the bounded canonical codec. *)
From Stdlib Require Import ZArith Lia.
From S2P Require Import Prelude Bytes RustStr External Toy Identity Credential Native Envelope.
From S2P Require Import Transport Pairing.

Definition MAX_STREAMS_PER_MESSAGE : Z := 4096.
Definition MAX_ERROR_DETAIL_LEN : Z := 512.

Inductive WireError : Type :=
| WireUnsupportedVersion (version : Z)
| WireTooLarge
| WireInvalid (what : string)
| WirePostcard (e : postcard_error).
#[global] Instance WireError_eq_dec : EqDecision WireError.
Proof. solve_decision. Defined.

(** [result.map_err(|_| WireError::Invalid(what))] *)
Definition invalid_if_err {E A} (what : string) (r : result E A) : result WireError A :=
  map_err (fun _ => WireInvalid what) r.

(** * Messages *)

Inductive RelayAccessMode : Type := AccessPublic | AccessSigned.
#[global] Instance RelayAccessMode_eq_dec : EqDecision RelayAccessMode.
Proof. solve_decision. Defined.

Record SessionHello : Type := {
  hello_protocol_version : Z;
  hello_role : CredentialRole;
  hello_identity : IdentityPublic;
  hello_credential : option NativeCredential;
}.

Record RelayWelcome : Type := {
  wel_protocol_version : Z;
  access_mode : RelayAccessMode;
  relay_time_ms : Z;
  credential_expires_at_ms : option Z;
}.

Record PublisherResumeStream : Type := {
  prs_stream_id : uuid;
  prs_next_sequence : Z;
  prs_epoch_id : uuid;
  prs_key_group : Z;
}.

Record RelayResumeStream : Type := {
  rrs_stream_id : uuid;
  rrs_committed_through : Z;
}.

Record RetainedBounds : Type := {
  rb_oldest_sequence : Z;
  rb_newest_sequence : Z;
  rb_oldest_timestamp : Z;
  rb_newest_timestamp : Z;
}.

Record CatalogEntry : Type := {
  ce_descriptor : StreamDescriptor;
  ce_publisher_online : bool;
  ce_retained : option RetainedBounds;
}.

(** Where a subscription begins. *)
Inductive SubscriptionStart : Type :=
| Live
| OldestRetained
| StartSequence (sequence : Z)
| StartTimestamp (timestamp : Z).
#[global] Instance SubscriptionStart_eq_dec : EqDecision SubscriptionStart.
Proof. solve_decision. Defined.

Inductive RelayErrorCode : Type :=
| Unauthorized | CredentialExpired | WrongRole | NotFound | RateLimited
| HistoryUnavailable | ProtocolViolation | StorageFailure.
#[global] Instance RelayErrorCode_eq_dec : EqDecision RelayErrorCode.
Proof. solve_decision. Defined.

Record RelayError : Type := {
  err_code : RelayErrorCode;
  err_detail : rstring;
}.

Inductive PublisherMessage : Type :=
| PubHello (hello : SessionHello)
| PubResume (publisher_id : array 32) (streams : list PublisherResumeStream)
| PubDescriptor (descriptor : StreamDescriptor)
| PubObject (object : NativeObject)
| PubKeyEnvelope (envelope : KeyEnvelope)
| PubPairOffer (offer : PairOffer)
| PubPairDecision (decision : PublisherDecision)
| PubFetchPairingInbox
| PubPing (now_ms : Z).

Inductive RelayPublisherMessage `{!SocketAddrs} : Type :=
| RpWelcome (welcome : RelayWelcome)
| RpResumeState (streams : list RelayResumeStream)
| RpPublishAck (stream_id : uuid) (committed_through : Z)
| RpPairRequest (request : PairRequest) (source_addr : SocketAddr) (received_at_ms : Z)
| RpViewerConfirmation (confirmation : ViewerConfirmation)
| RpPairingAck (request_id : array 32)
| RpPairingInboxComplete
| RpError (error : RelayError)
| RpPong (now_ms : Z).

Inductive ViewerMessage : Type :=
| VwHello (hello : SessionHello)
| VwCatalog
| VwPairRequest (request : PairRequest)
| VwPairConfirmation (confirmation : ViewerConfirmation)
| VwFetchInbox
| VwSubscribe (publisher_id : array 32) (stream_id : uuid) (start : SubscriptionStart)
| VwReanchor (after_sequence : Z)
| VwPing (now_ms : Z).

Inductive RelayViewerMessage : Type :=
| RvWelcome (welcome : RelayWelcome)
| RvCatalog (entries : list CatalogEntry)
| RvPairOffer (offer : PairOffer)
| RvPairDecision (decision : PublisherDecision)
| RvKeyEnvelope (envelope : KeyEnvelope)
| RvPairingQueued (request_id : array 32)
| RvInboxComplete
| RvSubscriptionStarted (first_sequence : Z) (retained : option RetainedBounds) (live : bool)
| RvObject (object : NativeObject)
| RvLive (through_sequence : Z)
| RvError (error : RelayError)
| RvPong (now_ms : Z).

(** * Structural checks *)

Definition check_version (version : Z) : result WireError unit :=
  reject_if (version <> PROTOCOL_VERSION) (WireUnsupportedVersion version).

Definition validate_welcome (welcome : RelayWelcome) : result WireError unit :=
  check_version (wel_protocol_version welcome) then?
  match access_mode welcome, credential_expires_at_ms welcome with
  | AccessPublic, None | AccessSigned, Some _ => Ok tt
  | _, _ => Err (WireInvalid "relay welcome admission mode and expiry disagree")
  end.

(** The loop of [sorted_unique_streams]. *)
Fixpoint sorted_unique_from (previous : option uuid) (stream_ids : list uuid) :
    result WireError unit :=
  match stream_ids with
  | [] => Ok tt
  | stream_id :: stream_ids =>
      reject_if (is_some_and (fun prior => array_le stream_id prior) previous)
        (WireInvalid "stream records are not sorted and unique") then?
      sorted_unique_from (Some stream_id) stream_ids
  end.
Definition sorted_unique_streams : list uuid -> result WireError unit := sorted_unique_from None.

Definition validate_confirmation_shape (c : ViewerConfirmation) : result WireError unit :=
  reject_if (cnf_version (cnf_body c) <> PAIRING_VERSION \/
             cnf_request_id (cnf_body c) = zeros 32 \/
             cnf_transcript_hash (cnf_body c) = zeros 32 \/
             cnf_viewer_id (cnf_body c) = zeros 32) (WireInvalid "invalid viewer confirmation").

Definition validate_decision_shape (d : PublisherDecision) : result WireError unit :=
  reject_if (dec_version (dec_body d) <> PAIRING_VERSION \/
             dec_request_id (dec_body d) = zeros 32 \/ dec_viewer_id (dec_body d) = zeros 32 \/
             is_nil (dec_stream_id (dec_body d))) (WireInvalid "invalid publisher decision").

Definition bounds_validate (b : RetainedBounds) : result WireError unit :=
  reject_if (rb_oldest_sequence b = 0 \/ rb_oldest_sequence b > rb_newest_sequence b \/
             rb_oldest_timestamp b > rb_newest_timestamp b)
    (WireInvalid "invalid retained bounds").

Definition error_validate (e : RelayError) : result WireError unit :=
  reject_if (str_len (err_detail e) > MAX_ERROR_DETAIL_LEN \/ trim (err_detail e) <> err_detail e \/
             Exists is_control (err_detail e)) (WireInvalid "invalid relay error detail").

Section wire.
Context `{crypto : !Crypto, addrs : !SocketAddrs}.
Context `{!Postcard IdentityPublic, !Postcard StreamDescriptorBody, !Postcard PairRequest}.

Definition validate_offer_shape (o : PairOffer) : result WireError unit :=
  invalid_if_err "invalid offer publisher" (identity_validate (off_publisher (off_body o))) then?
  reject_if (off_version (off_body o) <> PAIRING_VERSION \/ off_request_id (off_body o) = zeros 32 \/
             off_viewer_id (off_body o) = zeros 32 \/ off_nonce (off_body o) = zeros 32 \/
             off_relay_context (off_body o) = zeros 32 \/
             off_expires_at_ms (off_body o) <= off_issued_at_ms (off_body o))
    (WireInvalid "invalid pair offer").

Definition hello_validate (h : SessionHello) (expected_role : CredentialRole) :
    result WireError unit :=
  check_version (hello_protocol_version h) then?
  reject_if (hello_role h <> expected_role) (WireInvalid "session hello has the wrong role") then?
  invalid_if_err "invalid session identity" (identity_validate (hello_identity h)) then?
  reject_if (is_some_and (fun credential =>
      role (cred_body credential) <> expected_role \/
      identity (cred_body credential) <> hello_identity h) (hello_credential h))
    (WireInvalid "credential role or identity differs from session") then?
  reject_if (is_some_and (fun credential =>
      cred_version (cred_body credential) <> CREDENTIAL_VERSION \/
      bad_label MAX_CREDENTIAL_SUBJECT_LEN (subject (cred_body credential))) (hello_credential h))
    (WireInvalid "invalid credential metadata").

Definition publisher_message_validate (m : PublisherMessage) : result WireError unit :=
  match m with
  | PubHello hello => hello_validate hello RolePublisher
  | PubResume publisher_id streams =>
      reject_if (publisher_id = zeros 32 \/ zlen streams > MAX_STREAMS_PER_MESSAGE \/
                 Exists (fun s => is_nil (prs_stream_id s) \/ prs_next_sequence s = 0 \/
                                  is_nil (prs_epoch_id s) \/ prs_key_group s = 0) streams)
        (WireInvalid "invalid publisher resume state") then?
      sorted_unique_streams (prs_stream_id <$> streams)
  | PubDescriptor descriptor =>
      invalid_if_err "invalid stream descriptor" (descriptor_verify descriptor)
  | PubObject object => invalid_if_err "invalid native object" (validate_shape object)
  | PubKeyEnvelope envelope =>
      invalid_if_err "invalid key envelope" (envelope_validate_shape envelope)
  | PubPairOffer offer => validate_offer_shape offer
  | PubPairDecision decision => validate_decision_shape decision
  | PubFetchPairingInbox | PubPing _ => Ok tt
  end.

Definition relay_publisher_message_validate (m : RelayPublisherMessage) : result WireError unit :=
  match m with
  | RpWelcome welcome => validate_welcome welcome
  | RpResumeState streams =>
      reject_if (zlen streams > MAX_STREAMS_PER_MESSAGE \/
                 Exists (fun s => is_nil (rrs_stream_id s)) streams)
        (WireInvalid "invalid relay resume state") then?
      sorted_unique_streams (rrs_stream_id <$> streams)
  | RpPublishAck stream_id committed_through =>
      reject_if (is_nil stream_id \/ committed_through = 0)
        (WireInvalid "invalid publish acknowledgement")
  | RpPairRequest request _ _ =>
      invalid_if_err "invalid pairing request" (pair_request_encode request) then? Ok tt
  | RpViewerConfirmation confirmation => validate_confirmation_shape confirmation
  | RpPairingAck request_id =>
      reject_if (request_id = zeros 32) (WireInvalid "invalid pairing acknowledgement")
  | RpError error => error_validate error
  | RpPairingInboxComplete | RpPong _ => Ok tt
  end.

Definition viewer_message_validate (m : ViewerMessage) : result WireError unit :=
  match m with
  | VwHello hello => hello_validate hello RoleViewer
  | VwPairRequest request =>
      invalid_if_err "invalid pairing request" (pair_request_encode request) then? Ok tt
  | VwPairConfirmation confirmation => validate_confirmation_shape confirmation
  | VwSubscribe publisher_id stream_id start =>
      reject_if (publisher_id = zeros 32 \/ is_nil stream_id \/ start = StartSequence 0)
        (WireInvalid "invalid subscription request")
  | VwReanchor after_sequence =>
      reject_if (after_sequence = 0) (WireInvalid "invalid subscription re-anchor")
  | VwCatalog | VwFetchInbox | VwPing _ => Ok tt
  end.

(** The checks of one catalog entry. *)
Definition catalog_entry_validate (entry : CatalogEntry) : result WireError uuid :=
  invalid_if_err "invalid catalog descriptor" (descriptor_verify (ce_descriptor entry)) then?
  opt_traverse bounds_validate (ce_retained entry) then?
  Ok (desc_stream_id (desc_body (ce_descriptor entry))).

Definition relay_viewer_message_validate (m : RelayViewerMessage) : result WireError unit :=
  match m with
  | RvWelcome welcome => validate_welcome welcome
  | RvCatalog entries =>
      reject_if (zlen entries > MAX_STREAMS_PER_MESSAGE)
        (WireInvalid "catalog contains too many streams") then?
      let? stream_ids := mapR catalog_entry_validate entries in
      sorted_unique_streams stream_ids
  | RvPairOffer offer => validate_offer_shape offer
  | RvPairDecision decision => validate_decision_shape decision
  | RvKeyEnvelope envelope =>
      invalid_if_err "invalid key envelope" (envelope_validate_shape envelope)
  | RvPairingQueued request_id =>
      reject_if (request_id = zeros 32) (WireInvalid "invalid queued pairing request ID")
  | RvSubscriptionStarted first_sequence retained _ =>
      reject_if (first_sequence = 0) (WireInvalid "invalid subscription anchor") then?
      opt_traverse bounds_validate retained then? Ok tt
  | RvObject object => invalid_if_err "invalid native object" (validate_shape object)
  | RvLive through_sequence =>
      reject_if (through_sequence = 0) (WireInvalid "invalid live-tail sequence")
  | RvError error => error_validate error
  | RvInboxComplete | RvPong _ => Ok tt
  end.

(** * The message families and their codec *)

Class NativeWireMessage (T : Type) : Type := validate_wire : T -> result WireError unit.
#[global] Instance publisher_message_wire : NativeWireMessage PublisherMessage :=
  publisher_message_validate.
#[global] Instance relay_publisher_message_wire : NativeWireMessage RelayPublisherMessage :=
  relay_publisher_message_validate.
#[global] Instance viewer_message_wire : NativeWireMessage ViewerMessage :=
  viewer_message_validate.
#[global] Instance relay_viewer_message_wire : NativeWireMessage RelayViewerMessage :=
  relay_viewer_message_validate.

Definition encode_native_message {T} `{!NativeWireMessage T, !Postcard T} (message : T) :
    result WireError bytes :=
  validate_wire message then?
  let? encoded := map_err WirePostcard (to_stdvec message) in
  reject_if (zlen encoded > MAX_FRAME_LEN) WireTooLarge then?
  Ok encoded.

Definition decode_native_message {T} `{!NativeWireMessage T, !Postcard T} (l : bytes) :
    result WireError T :=
  reject_if (zlen l > MAX_FRAME_LEN) WireTooLarge then?
  let? (message, remainder) := map_err WirePostcard (take_from_bytes l) in
  reject_if (remainder <> []) (WireInvalid "trailing native message data") then?
  validate_wire message then?
  let? encoded := map_err WirePostcard (to_stdvec message) in
  reject_if (encoded <> l) (WireInvalid "noncanonical native message") then?
  Ok message.
End wire.
