(* ===== verification/Access.v ===== *)
(** [crates/relay/src/native_access.rs]: the relay's admission policy.  The lock
    around the revocation list is taken for one read or one assignment, so the
    policy is the value it holds; a poisoned lock (a panic while it is held) is
    not modelled. *)
From Stdlib Require Import ZArith Lia.
From S2P Require Import Prelude Bytes RustStr External Toy Identity Credential Codecs Wire.

Inductive NativeAccessPolicy : Type :=
| Public
| Signed (authority : CertificateAuthorityPublic) (revocations : option RevocationList).

Record NativeAdmission : Type := {
  adm_mode : RelayAccessMode;
  adm_expires_at_ms : option Z;
  adm_credential_serial : option (array 16);
}.

Inductive NativeAccessError : Type :=
| AccessWrongRole
| MissingCredential
| AccessCredential (e : CredentialError)
| Unavailable.

Section access.
Context `{crypto : !Crypto}.
Context `{!Postcard IdentityPublic, !Postcard CertificateAuthorityPublic}.
Context `{!Postcard CredentialRequestBody, !Postcard CredentialRequest}.
Context `{!Postcard NativeCredentialBody, !Postcard NativeCredential}.
Context `{!Postcard RevocationListBody, !Postcard RevocationList}.
Context `{!Postcard (Z * array 32)}.

Definition admit_session (policy : NativeAccessPolicy) (hello : SessionHello)
    (expected_role : CredentialRole) (authenticated_noise_key : array 32) (now_ms : Z) :
    result NativeAccessError NativeAdmission :=
  reject_if (hello_role hello <> expected_role) AccessWrongRole then?
  match policy with
  | Public => Ok {| adm_mode := AccessPublic; adm_expires_at_ms := None;
                    adm_credential_serial := None |}
  | Signed authority revocations =>
      let? credential := ok_or (hello_credential hello) MissingCredential in
      reject_if (identity (cred_body credential) <> hello_identity hello)
        (AccessCredential (InvalidMetadata
           "credential application identity differs from session")) then?
      map_err AccessCredential
        (credential_verify_at credential authority revocations expected_role
           authenticated_noise_key now_ms) then?
      Ok {| adm_mode := AccessSigned;
            adm_expires_at_ms := Some (not_after_ms (cred_body credential));
            adm_credential_serial := Some (serial (cred_body credential)) |}
  end.

Definition replace_revocations (policy : NativeAccessPolicy)
    (revocations : option RevocationList) (now_ms : Z) :
    result NativeAccessError NativeAccessPolicy :=
  match policy with
  | Public => Err Unavailable
  | Signed authority _ =>
      opt_traverse (fun list => map_err AccessCredential
                                  (revocation_verify_at list authority now_ms)) revocations then?
      Ok (Signed authority revocations)
  end.

Definition ensure_active (policy : NativeAccessPolicy) (admission : NativeAdmission)
    (now_ms : Z) : result NativeAccessError unit :=
  match policy with
  | Public => Ok tt
  | Signed authority revocations =>
      reject_if (is_none_or (fun expiry => now_ms >= expiry) (adm_expires_at_ms admission))
        (AccessCredential Expired) then?
      let? serial := ok_or (adm_credential_serial admission) Unavailable in
      match revocations with
      | Some list =>
          map_err AccessCredential (revocation_verify_at list authority now_ms) then?
          reject_if (is_Some (binary_search (serials (crl_body list)) serial))
            (AccessCredential Revoked)
      | None => Ok tt
      end
  end.

(** * Theorems *)

(** A revocation list that lets a serial pass at this time. *)
Definition not_revoked (authority : CertificateAuthorityPublic)
    (revocations : option RevocationList) (serial : array 16) (now_ms : Z) : Prop :=
  is_none_or (fun list => revocations_accepted list authority now_ms /\
                          serial ∉ serials (crl_body list)) revocations.

Lemma ensure_active_Ok authority revocations admission now_ms :
  ensure_active (Signed authority revocations) admission now_ms = Ok tt <->
  exists expiry serial, adm_expires_at_ms admission = Some expiry /\
    adm_credential_serial admission = Some serial /\ now_ms < expiry /\
    not_revoked authority revocations serial now_ms.
Proof.
  unfold ensure_active, not_revoked. rewrite guard_bind.
  destruct (adm_expires_at_ms admission) as [expiry|]; simpl; [|naive_solver].
  destruct (adm_credential_serial admission) as [sn|]; simpl; [|naive_solver].
  assert (match revocations with
    | Some list =>
      map_err AccessCredential (revocation_verify_at list authority now_ms) then?
      reject_if (is_Some (binary_search (serials (crl_body list)) sn)) (AccessCredential Revoked)
    | None => Ok tt end = Ok tt <->
    is_none_or (fun list => revocations_accepted list authority now_ms /\
      sn ∉ serials (crl_body list)) revocations) as ->.
  { destruct revocations as [list|]; simpl; [|done].
    rewrite unit_bind, map_err_Ok, revocation_verify_at_Ok, reject_if_Ok.
    split; intros [Ha Hb]; (split; [done|]).
    - rewrite <-binary_search_member; [done | apply Ha].
    - rewrite binary_search_member; [done | apply Ha]. }
  split; [intros [? ?]; exists expiry, sn; split_and!; done || lia|].
  intros (? & ? & [= <-] & [= <-] & ? & ?). split; [lia|done].
Qed.

(** Admission to a signed relay means a presented credential that is
    accepted for this role, this Noise key and the identity of the session; the
    admission records its expiry and serial. *)
Theorem signed_admission_iff authority revocations hello role key now_ms admission :
  admit_session (Signed authority revocations) hello role key now_ms = Ok admission <->
  hello_role hello = role /\
  exists credential, hello_credential hello = Some credential /\
    identity (cred_body credential) = hello_identity hello /\
    credential_accepted credential authority revocations role key now_ms /\
    admission = {| adm_mode := AccessSigned;
      adm_expires_at_ms := Some (not_after_ms (cred_body credential));
      adm_credential_serial := Some (serial (cred_body credential)) |}.
Proof.
  unfold admit_session. rewrite guard_bind. split.
  - intros [Hr%dec_stable H]. apply bind_Ok_inv in H as (c & Hc%ok_or_Ok & H).
    rewrite guard_bind, unit_bind, map_err_Ok, credential_verify_Ok in H.
    destruct H as (Hid%dec_stable & Hacc & [= <-]). eauto 10.
  - intros [Hr (c & Hc & Hid & Hacc & ->)]. split; [by intros []|]. rewrite Hc. simpl.
    rewrite guard_bind, unit_bind, map_err_Ok, credential_verify_Ok.
    split; [by intros []|done].
Qed.

(** An admitted session stays active exactly until its credential expires
    or the current revocation list is stale or contains its serial: a list
    installed during the session takes effect at the next check. *)
Theorem admitted_session_active authority revocations hello role key admitted_ms admission
    revocations' policy' installed_ms now_ms :
  admit_session (Signed authority revocations) hello role key admitted_ms = Ok admission ->
  replace_revocations (Signed authority revocations) revocations' installed_ms = Ok policy' ->
  exists credential, hello_credential hello = Some credential /\
    (ensure_active policy' admission now_ms = Ok tt <->
     now_ms < not_after_ms (cred_body credential) /\
     not_revoked authority revocations' (serial (cred_body credential)) now_ms).
Proof.
  unfold admit_session. rewrite guard_bind. intros [_ H] Hrep.
  apply bind_Ok_inv in H as (c & Hc%ok_or_Ok & H). rewrite guard_bind, unit_bind in H.
  destruct H as (_ & _ & [= <-]). exists c. split; [done|].
  unfold replace_revocations in Hrep. apply bind_Ok_inv in Hrep as (? & _ & [= <-]).
  rewrite ensure_active_Ok. simpl. naive_solver.
Qed.
End access.

(** ** Witnesses *)

(** A viewer whose credential is revoked during its session. *)
Definition sample_hello (credential : NativeCredential) : SessionHello := {|
  hello_protocol_version := 9; hello_role := RoleViewer; hello_identity := sample_public;
  hello_credential := Some credential |}.
Definition sample_credential : option NativeCredential :=
  match issue sample_ca sample_request 2000 80000 100000 [Vector.const x03 16] with
  | Some (Ok c) => Some c
  | _ => None
  end.
Definition sample_admission : option (NativeCredential * NativeAdmission) :=
  match sample_credential with
  | Some c =>
      match admit_session (Signed (authority_public sample_ca) None) (sample_hello c) RoleViewer
              (Vector.const x07 32) 3000 with
      | Ok a => Some (c, a)
      | Err _ => None
      end
  | None => None
  end.
Definition sample_revocations (serial : array 16) : result CredentialError RevocationList :=
  sign_revocations sample_ca 1500 9000 [serial].

Lemma sample_admission_runs :
  match sample_admission, sample_revocations (Vector.const x03 16) with
  | Some (c, a), Ok l =>
      match replace_revocations (Signed (authority_public sample_ca) None) (Some l) 4000 with
      | Ok policy => bool_decide (serial (cred_body c) ∈ serials (crl_body l))
      | Err _ => false
      end
  | _, _ => false
  end = true.
Proof. vm_compute. reflexivity. Qed.

Lemma sample_admission_steps c a :
  sample_admission = Some (c, a) ->
  admit_session (Signed (authority_public sample_ca) None) (sample_hello c) RoleViewer
    (Vector.const x07 32) 3000 = Ok a.
Proof.
  unfold sample_admission. destruct sample_credential as [c'|]; [|done].
  destruct (admit_session _ _ _ _ _) as [a'|] eqn:Ha; [|done]. by intros [= <- <-].
Qed.

Lemma admitted_session_active_witness :
  match sample_admission, sample_revocations (Vector.const x03 16) with
  | Some (c, a), Ok l => exists policy',
      replace_revocations (Signed (authority_public sample_ca) None) (Some l) 4000 = Ok policy' /\
      ensure_active policy' a 5000 <> Ok tt
  | _, _ => False
  end.
Proof.
  pose proof sample_admission_runs as Hrun. pose proof sample_admission_steps as Hsteps.
  destruct sample_admission as [[c a]|]; [|discriminate].
  destruct (sample_revocations _) as [l|]; [|discriminate].
  destruct (replace_revocations _ _ _) as [policy'|] eqn:Hp; [|discriminate].
  exists policy'. split; [reflexivity|]. intros Hact.
  destruct (admitted_session_active _ _ _ _ _ _ _ _ _ _ 5000 (Hsteps c a eq_refl) Hp)
    as (c' & Hc & Hiff).
  injection Hc as <-. apply Hiff in Hact as [_ [_ Hnin]]. apply bool_decide_eq_true in Hrun.
  exact (Hnin Hrun).
Defined.
