(* ===== verification/NativeTables.v ===== *)
(** The relay's SQLite tables ([initialize_schema] in
    [crates/relay/src/native_store.rs]) and the statements the store executes
    on them.

    A table is a finite map from its primary key to its row.  A statement that
    violates a CHECK, PRIMARY KEY or FOREIGN KEY constraint, or overflows an
    INTEGER column, fails; deleting a group cascades to its objects and
    envelopes.  Column lengths are part of the types.  A failed statement
    aborts the operation, whose transaction is rolled back, so errors carry no
    table state. *)
From Stdlib Require Import ZArith Lia.
From S2P Require Import Prelude Bytes.

(** * Rows *)

Record StreamRow : Type := {
  s_publisher_id : array 32;
  s_descriptor : bytes;
  s_high_water : Z;
  s_active_epoch : option uuid;
  s_active_group : option Z;
}.

Record GroupRow : Type := {
  g_key_id : array 16;
  g_first_sequence : Z;
  g_last_sequence : Z;
  g_first_timestamp : Z;
  g_last_timestamp : Z;
  g_received_first_ms : Z;
  g_received_last_ms : Z;
  g_retained_bytes : Z;
  g_complete : bool;
}.

Record ObjectRow : Type := {
  o_epoch_id : uuid;
  o_key_group : Z;
  o_received_at_ms : Z;
  o_object : bytes;
}.

Record EnvelopeRow : Type := {
  e_key_id : array 16;
  e_received_at_ms : Z;
  e_envelope : bytes;
}.

(** The primary keys. *)
Abbreviation group_key := (uuid * uuid * Z)%type.
Abbreviation object_key := (uuid * Z)%type.
Abbreviation envelope_key := (group_key * array 32)%type.

Record Db : Type := {
  streams : gmap uuid StreamRow;
  groups : gmap group_key GroupRow;
  objects : gmap object_key ObjectRow;
  envelopes : gmap envelope_key EnvelopeRow;
}.

Definition empty_db : Db :=
  {| streams := ∅; groups := ∅; objects := ∅; envelopes := ∅ |}.

Definition set_streams (f : gmap uuid StreamRow -> gmap uuid StreamRow) (db : Db) : Db :=
  {| streams := f (streams db); groups := groups db; objects := objects db;
     envelopes := envelopes db |}.
Definition set_groups (f : gmap group_key GroupRow -> gmap group_key GroupRow) (db : Db) : Db :=
  {| streams := streams db; groups := f (groups db); objects := objects db;
     envelopes := envelopes db |}.
Definition set_objects (f : gmap object_key ObjectRow -> gmap object_key ObjectRow)
    (db : Db) : Db :=
  {| streams := streams db; groups := groups db; objects := f (objects db);
     envelopes := envelopes db |}.
Definition set_envelopes (f : gmap envelope_key EnvelopeRow -> gmap envelope_key EnvelopeRow)
    (db : Db) : Db :=
  {| streams := streams db; groups := groups db; objects := objects db;
     envelopes := f (envelopes db) |}.

(** The group an object belongs to. *)
Definition object_group (stream_id : uuid) (o : ObjectRow) : group_key :=
  (stream_id, o_epoch_id o, o_key_group o).

(** * Constraints *)

Definition stream_check (r : StreamRow) : Prop :=
  0 <= s_high_water r /\ is_none_or (fun g => 0 < g) (s_active_group r).

Definition group_check (k : group_key) (r : GroupRow) : Prop :=
  0 < k.2 /\ 0 < g_first_sequence r /\ g_first_sequence r <= g_last_sequence r /\
  0 <= g_first_timestamp r /\ g_first_timestamp r <= g_last_timestamp r /\
  0 <= g_retained_bytes r.

Definition object_check (k : object_key) (r : ObjectRow) : Prop :=
  0 < k.2 /\ 0 < o_key_group r.

#[global] Instance stream_check_dec r : Decision (stream_check r).
Proof. unfold stream_check. apply _. Defined.
#[global] Instance group_check_dec k r : Decision (group_check k r).
Proof. unfold group_check. apply _. Defined.
#[global] Instance object_check_dec k r : Decision (object_check k r).
Proof. unfold object_check. apply _. Defined.

(** * Statements

    The last argument of each is the error context of the caller. *)

Definition insert_stream (db : Db) (k : uuid) (r : StreamRow) (ctx : string) :
    result string Db :=
  reject_if (is_Some (streams db !! k)) ctx then?
  reject_if (~ stream_check r) ctx then?
  Ok (set_streams <[k := r]> db).

(** [UPDATE streams SET ... WHERE stream_id = k] *)
Definition update_stream (db : Db) (k : uuid) (f : StreamRow -> StreamRow) (ctx : string) :
    result string Db :=
  match streams db !! k with
  | Some r =>
      reject_if (~ stream_check (f r)) ctx then?
      Ok (set_streams <[k := f r]> db)
  | None => Ok db
  end.

Definition insert_group (db : Db) (k : group_key) (r : GroupRow) (ctx : string) :
    result string Db :=
  reject_if (is_Some (groups db !! k)) ctx then?
  reject_if (~ group_check k r) ctx then?
  reject_if (streams db !! k.1.1 = None) ctx then?
  Ok (set_groups <[k := r]> db).

(** [UPDATE groups SET ... WHERE stream_id = ? AND epoch_id = ? AND
    key_group = ?]; [f] fails when a column overflows. *)
Definition update_group (db : Db) (k : group_key) (f : GroupRow -> option GroupRow)
    (ctx : string) : result string Db :=
  match groups db !! k with
  | Some r =>
      let? r := ok_or (f r) ctx in
      reject_if (~ group_check k r) ctx then?
      Ok (set_groups <[k := r]> db)
  | None => Ok db
  end.

(** [DELETE FROM groups WHERE ...] with ON DELETE CASCADE. *)
Definition delete_group (db : Db) (k : group_key) : Db := {|
  streams := streams db;
  groups := delete k (groups db);
  objects := filter (fun '(ok, o) => object_group ok.1 o <> k) (objects db);
  envelopes := filter (fun '(ek, _) => ek.1 <> k) (envelopes db) |}.

Definition insert_object (db : Db) (k : object_key) (r : ObjectRow) (ctx : string) :
    result string Db :=
  reject_if (is_Some (objects db !! k)) ctx then?
  reject_if (~ object_check k r) ctx then?
  reject_if (groups db !! object_group k.1 r = None) ctx then?
  Ok (set_objects <[k := r]> db).

Definition insert_envelope (db : Db) (k : envelope_key) (r : EnvelopeRow) (ctx : string) :
    result string Db :=
  reject_if (is_Some (envelopes db !! k)) ctx then?
  reject_if (~ 0 < k.1.2) ctx then?
  reject_if (groups db !! k.1 = None) ctx then?
  Ok (set_envelopes <[k := r]> db).

(** * Aggregates *)

(** [SUM] over an INTEGER column fails when the sum overflows. *)
Definition sql_sum {K V} `{Countable K} (f : K -> V -> Z) (m : gmap K V) (ctx : string) :
    result string Z :=
  ok_or (i64_try_from (map_sum f m)) ctx.

(** Bytes of the rows that belong to one group. *)
Definition object_bytes (k : group_key) (ok : object_key) (o : ObjectRow) : Z :=
  if decide (object_group ok.1 o = k) then zlen (o_object o) else 0.
Definition envelope_bytes (k : group_key) (ek : envelope_key) (e : EnvelopeRow) : Z :=
  if decide (ek.1 = k) then zlen (e_envelope e) else 0.

(** [COUNT] of the rows that belong to one group. *)
Definition object_one (k : group_key) (ok : object_key) (o : ObjectRow) : Z :=
  if decide (object_group ok.1 o = k) then 1 else 0.
Definition envelope_one (k : group_key) (ek : envelope_key) (e : EnvelopeRow) : Z :=
  if decide (ek.1 = k) then 1 else 0.
Definition group_object_count (db : Db) (k : group_key) : Z :=
  map_sum (object_one k) (objects db).
Definition group_envelope_count (db : Db) (k : group_key) : Z :=
  map_sum (envelope_one k) (envelopes db).

(** The retained bytes of one stream, of one publisher and of the relay. *)
Definition stream_group_bytes (stream_id : uuid) (k : group_key) (g : GroupRow) : Z :=
  if decide (k.1.1 = stream_id) then g_retained_bytes g else 0.
Definition publisher_group_bytes (db : Db) (publisher_id : array 32) (k : group_key)
    (g : GroupRow) : Z :=
  match streams db !! k.1.1 with
  | Some s => if decide (s_publisher_id s = publisher_id) then g_retained_bytes g else 0
  | None => 0
  end.
Definition stream_bytes (db : Db) (stream_id : uuid) : Z :=
  map_sum (stream_group_bytes stream_id) (groups db).
Definition publisher_bytes (db : Db) (publisher_id : array 32) : Z :=
  map_sum (publisher_group_bytes db publisher_id) (groups db).
Definition total_bytes (db : Db) : Z :=
  map_sum (fun _ g => g_retained_bytes g) (groups db).

(** [COUNT] of the streams of one publisher. *)
Definition publisher_stream_one (publisher_id : array 32) (_ : uuid) (s : StreamRow) : Z :=
  if decide (s_publisher_id s = publisher_id) then 1 else 0.
Definition publisher_stream_count (db : Db) (publisher_id : array 32) : Z :=
  map_sum (publisher_stream_one publisher_id) (streams db).
Definition stream_count (db : Db) : Z := map_sum (fun _ _ => 1) (streams db).

(** The groups of one stream, with their keys. *)
Definition stream_groups (db : Db) (stream_id : uuid) : list (group_key * GroupRow) :=
  filter (fun '(k, _) => k.1.1 = stream_id) (map_to_list (groups db)).

Lemma elem_of_stream_groups db sid k g :
  (k, g) ∈ stream_groups db sid <-> groups db !! k = Some g /\ k.1.1 = sid.
Proof.
  unfold stream_groups. rewrite list_elem_of_filter, elem_of_map_to_list. naive_solver.
Qed.
