(* ===== verification/NativeStore.v ===== *)
(** [NativeStore] of [crates/relay/src/native_store.rs]: every operation of the
    relay's durable store as a function from the tables to a result and new
    tables.  An error leaves the tables as they were (the transaction is rolled
    back).  Time is an argument; the database itself is assumed to execute the
    statements of [NativeTables]. *)
From Stdlib Require Import ZArith Lia.
From S2P Require Import Prelude Bytes External Identity Native Envelope Wire NativeTables.

Definition MAX_LIST_OBJECTS : Z := 16384.

(** * Configuration *)

Record NativeStoreLimits : Type := {
  max_streams : Z;
  max_streams_per_publisher : Z;
  max_objects_per_group : Z;
  max_group_bytes : Z;
  max_envelopes_per_group : Z;
  max_total_bytes : Z;
  max_publisher_bytes : Z;
}.

Definition default_limits : NativeStoreLimits := {|
  max_streams := 1024; max_streams_per_publisher := 16; max_objects_per_group := 4096;
  max_group_bytes := 64 * 1024 * 1024; max_envelopes_per_group := 128;
  max_total_bytes := 10 * 1024 * 1024 * 1024; max_publisher_bytes := 1024 * 1024 * 1024 |}.

(** [NativeStoreInner] without its handles; [retention_age] is in nanoseconds. *)
Record StoreConfig : Type := {
  retention_bytes : option Z;
  retention_age : option Z;
  limits : NativeStoreLimits;
}.

(** The checks of [open_with_limits]. *)
Definition open_with_limits (retention_bytes retention_age : option Z)
    (limits : NativeStoreLimits) : result string StoreConfig :=
  reject_if (retention_bytes = Some 0 \/ retention_age = Some 0)
    "native retention limits must be positive when configured" then?
  reject_if
    (max_streams limits = 0 \/ max_streams_per_publisher limits = 0 \/
     max_streams_per_publisher limits > max_streams limits \/
     max_objects_per_group limits = 0 \/ max_group_bytes limits = 0 \/
     max_envelopes_per_group limits = 0 \/ max_total_bytes limits = 0 \/
     max_publisher_bytes limits = 0 \/
     max_publisher_bytes limits > max_total_bytes limits)
    "native store hard limits are zero or inconsistent" then?
  Ok {| retention_bytes := retention_bytes; retention_age := retention_age;
        limits := limits |}.

(** * Results *)

Record NativeCommit : Type := {
  committed_through : Z;
  evicted_groups : nat;
  inserted : bool;
}.

Record NativeRetainedBounds : Type := {
  oldest_sequence : Z;
  newest_sequence : Z;
  oldest_timestamp : Z;
  newest_timestamp : Z;
}.

Record NativeStreamSummary : Type := {
  sum_publisher_id : array 32;
  sum_high_water : Z;
  sum_retained_bytes : Z;
  sum_retained : option NativeRetainedBounds;
}.

Inductive GroupItemKind : Type := GroupObject | GroupEnvelope.

Record GroupGrowth : Type := {
  gr_publisher_id : array 32;
  gr_stream_id : uuid;
  gr_epoch_id : uuid;
  gr_key_group : Z;
  gr_added_bytes : Z;
  gr_item_kind : GroupItemKind;
}.

Definition to_sql_u64 (value : Z) (field : string) : result string Z :=
  ok_or (i64_try_from value) (field +:+ " exceeds the durable SQLite bound").
Definition from_sql_u64 (value : Z) (field : string) : result string Z :=
  ok_or (u64_try_from value) (field +:+ " is negative in durable state").

(** [u64::try_from(count).unwrap_or(u64::MAX)] *)
Definition count_or_max (count : Z) : Z := default u64_max (u64_try_from count).

Definition group_before (x y : group_key * GroupRow) : Prop :=
  g_first_sequence x.2 < g_first_sequence y.2.
Definition group_after (x y : group_key * GroupRow) : Prop :=
  g_first_sequence y.2 < g_first_sequence x.2.
Definition group_later (x y : group_key * GroupRow) : Prop :=
  g_first_timestamp y.2 < g_first_timestamp x.2 \/
  g_first_timestamp y.2 = g_first_timestamp x.2 /\
  g_first_sequence y.2 < g_first_sequence x.2.
#[global] Instance group_before_dec : RelDecision group_before.
Proof. intros x y. unfold group_before. apply _. Defined.
#[global] Instance group_after_dec : RelDecision group_after.
Proof. intros x y. unfold group_after. apply _. Defined.
#[global] Instance group_later_dec : RelDecision group_later.
Proof. intros x y. unfold group_later. apply _. Defined.
#[global] Instance group_before_order : OrderBy group_before.
Proof. unfold group_before. split; intros; lia. Qed.
#[global] Instance group_after_order : OrderBy group_after.
Proof. unfold group_after. split; intros; lia. Qed.
#[global] Instance group_later_order : OrderBy group_later.
Proof. unfold group_later. split; intros; lia. Qed.

(** [WHERE stream_id = ? AND complete = 1] *)
Definition complete_groups (db : Db) (stream_id : uuid) : list (group_key * GroupRow) :=
  filter (fun '(_, g) => g_complete g = true) (stream_groups db stream_id).

(** [SELECT ... WHERE complete = 1 ORDER BY first_sequence LIMIT 1] *)
Definition oldest_complete (db : Db) (stream_id : uuid) : option (group_key * GroupRow) :=
  select_first group_before (complete_groups db stream_id).

Section store.
Context `{crypto : !Crypto}.
Context `{!Postcard IdentityPublic, !Postcard StreamDescriptorBody}.
Context `{!Postcard StreamDescriptor, !Postcard NativeObjectHeader}.
Context `{!Postcard NativeObjectClaim, !Postcard NativeObject}.
Context `{!Postcard KeyEnvelopeHeader, !Postcard UnsignedEnvelope, !Postcard KeyEnvelope}.
Context (cfg : StoreConfig).

(** [descriptor_in_transaction] and [descriptor_in_connection] *)
Definition descriptor_in (db : Db) (stream_id : uuid) :
    result string (option StreamDescriptor) :=
  opt_traverse (fun encoded => context "decoding native descriptor" (descriptor_decode encoded))
    (s_descriptor <$> streams db !! stream_id).

(** * Descriptors *)

Definition put_descriptor (db : Db) (descriptor : StreamDescriptor) : result string Db :=
  let? encoded := context "encoding native descriptor" (descriptor_encode descriptor) in
  let stream_id := desc_stream_id (desc_body descriptor) in
  let? publisher_id := context "fingerprinting descriptor publisher"
                         (identity_id (desc_publisher (desc_body descriptor))) in
  match streams db !! stream_id with
  | Some existing =>
      reject_if (s_publisher_id existing <> publisher_id)
        "stream ID is already owned by another publisher" then?
      if decide (s_descriptor existing <> encoded) then
        update_stream db stream_id
          (fun r => {| s_publisher_id := s_publisher_id r; s_descriptor := encoded;
                       s_high_water := s_high_water r; s_active_epoch := s_active_epoch r;
                       s_active_group := s_active_group r |})
          "updating native descriptor"
      else Ok db
  | None =>
      reject_if
        (count_or_max (stream_count db) >= max_streams (limits cfg) \/
         count_or_max (publisher_stream_count db publisher_id) >=
           max_streams_per_publisher (limits cfg))
        "native stream descriptor limit reached" then?
      insert_stream db stream_id
        {| s_publisher_id := publisher_id; s_descriptor := encoded; s_high_water := 0;
           s_active_epoch := None; s_active_group := None |}
        "inserting native descriptor"
  end.

(** * Resource limits *)

Definition check_group_growth (db : Db) (growth : GroupGrowth) : result string unit :=
  let? key_group := to_sql_u64 (gr_key_group growth) "resource-limit key group" in
  let k := (gr_stream_id growth, gr_epoch_id growth, key_group) in
  let? group := ok_or (groups db !! k) "reading group byte usage" in
  let item_count :=
    match gr_item_kind growth with
    | GroupObject => group_object_count db k
    | GroupEnvelope => group_envelope_count db k
    end in
  let item_limit :=
    match gr_item_kind growth with
    | GroupObject => max_objects_per_group (limits cfg)
    | GroupEnvelope => max_envelopes_per_group (limits cfg)
    end in
  reject_if (count_or_max item_count >= item_limit)
    "native keyframe group resource limit reached" then?
  let? group_bytes := from_sql_u64 (g_retained_bytes group) "group byte usage" in
  reject_if (u64_saturating_add group_bytes (gr_added_bytes growth) >
             max_group_bytes (limits cfg))
    "native keyframe group resource limit reached" then?
  let? total := sql_sum (fun _ g => g_retained_bytes g) (groups db)
                  "summing relay retained bytes" in
  let? publisher := sql_sum (publisher_group_bytes db (gr_publisher_id growth)) (groups db)
                      "summing publisher retained bytes" in
  let? total := from_sql_u64 total "relay retained bytes" in
  reject_if (u64_saturating_add total (gr_added_bytes growth) > max_total_bytes (limits cfg))
    "native relay or publisher byte quota reached" then?
  let? publisher := from_sql_u64 publisher "publisher retained bytes" in
  reject_if (u64_saturating_add publisher (gr_added_bytes growth) >
             max_publisher_bytes (limits cfg))
    "native relay or publisher byte quota reached".

(** * Retention *)

(** The age cutoff: groups last received before it have expired. *)
Definition retention_cutoff (now_ms : Z) : option Z :=
  (fun age => i64_saturating_sub now_ms (default i64_max (i64_try_from (age `div` 1000000))))
    <$> retention_age cfg.

(** [stream_bytes()]: only evaluated when a byte limit is configured. *)
Definition bytes_exceeded (db : Db) (stream_id : uuid) : result string bool :=
  match retention_bytes cfg with
  | Some limit =>
      let? bytes := sql_sum (stream_group_bytes stream_id) (groups db)
                      "summing native retained bytes" in
      let? bytes := from_sql_u64 bytes "retained byte count" in
      Ok (bool_decide (bytes > limit))
  | None => Ok false
  end.

(** The eviction loop; each iteration removes a group, so that one more
    iteration than there are groups reaches its [break]. *)
Fixpoint retention_loop (fuel : nat) (db : Db) (stream_id : uuid) (cutoff : option Z)
    (removed : nat) : result string (nat * Db) :=
  match fuel with
  | O => Ok (removed, db)
  | S fuel =>
      let? exceeded := bytes_exceeded db stream_id in
      match oldest_complete db stream_id with
      | None => Ok (removed, db)
      | Some (k, g) =>
          let age_exceeded := is_some_and (fun cutoff => g_received_last_ms g < cutoff) cutoff in
          if decide (exceeded = false /\ ~ age_exceeded) then Ok (removed, db)
          else retention_loop fuel (delete_group db k) stream_id cutoff (S removed)
      end
  end.

Definition enforce_retention (db : Db) (stream_id : uuid) (now_ms : Z) :
    result string (nat * Db) :=
  retention_loop (S (size (groups db))) db stream_id (retention_cutoff now_ms) 0.

(** The streams in identifier order. *)
Definition stream_ids (db : Db) : list uuid :=
  merge_sort array_le (map_to_list (streams db)).*1.

Fixpoint enforce_retention_streams (db : Db) (now_ms : Z) (ids : list uuid) (removed : nat) :
    result string (nat * Db) :=
  match ids with
  | [] => Ok (removed, db)
  | stream_id :: ids =>
      let? (n, db) := enforce_retention db stream_id now_ms in
      enforce_retention_streams db now_ms ids (removed + n)
  end.

Definition enforce_retention_at (db : Db) (now_ms : Z) : result string (nat * Db) :=
  enforce_retention_streams db now_ms (stream_ids db) 0.

(** * Objects *)

(** [validate_group_progression] *)
Definition validate_group_progression (active_epoch : option uuid) (active_group : option Z)
    (new_epoch : uuid) (new_group : Z) (object : NativeObject) : result string unit :=
  match active_epoch, active_group with
  | Some active_epoch, Some active_group =>
      reject_if (active_epoch = new_epoch /\ new_group <= active_group)
        "native key group regressed within one epoch"
  | _, _ => Ok tt
  end then?
  reject_if (h_kind (header object) = Cursor \/ h_random_access (header object) = false)
    "new native group does not begin at a random-access video boundary".

(** [UPDATE groups SET complete = 1] *)
Definition mark_complete (g : GroupRow) : GroupRow := {|
  g_key_id := g_key_id g; g_first_sequence := g_first_sequence g;
  g_last_sequence := g_last_sequence g; g_first_timestamp := g_first_timestamp g;
  g_last_timestamp := g_last_timestamp g; g_received_first_ms := g_received_first_ms g;
  g_received_last_ms := g_received_last_ms g; g_retained_bytes := g_retained_bytes g;
  g_complete := true |}.

(** Completing the group named by the active columns of a stream; a NULL
    column matches no row. *)
Definition complete_active (db : Db) (stream_id : uuid) (active_epoch : option uuid)
    (active_group : option Z) (ctx : string) : result string Db :=
  match active_epoch, active_group with
  | Some epoch_id, Some key_group =>
      update_group db (stream_id, epoch_id, key_group) (fun g => Some (mark_complete g)) ctx
  | _, _ => Ok db
  end.

Definition set_active (epoch_id : option uuid) (key_group : option Z) (r : StreamRow) :
    StreamRow := {|
  s_publisher_id := s_publisher_id r; s_descriptor := s_descriptor r;
  s_high_water := s_high_water r; s_active_epoch := epoch_id;
  s_active_group := key_group |}.

Definition set_high_water (sequence : Z) (r : StreamRow) : StreamRow := {|
  s_publisher_id := s_publisher_id r; s_descriptor := s_descriptor r;
  s_high_water := sequence; s_active_epoch := s_active_epoch r;
  s_active_group := s_active_group r |}.

(** The row of a group that the object at [sequence] starts. *)
Definition new_group (object : NativeObject) (sequence timestamp received_at_ms : Z) :
    GroupRow := {|
  g_key_id := h_key_id (header object); g_first_sequence := sequence;
  g_last_sequence := sequence; g_first_timestamp := timestamp;
  g_last_timestamp := timestamp; g_received_first_ms := received_at_ms;
  g_received_last_ms := received_at_ms; g_retained_bytes := 0; g_complete := false |}.

(** Entering the object's group: a change of group completes the previous one
    and starts a new one, otherwise the key must be the group's. *)
Definition enter_group (db : Db) (stream : StreamRow) (object : NativeObject)
    (sequence key_group received_at_ms : Z) : result string Db :=
  let stream_id := h_stream_id (header object) in
  let epoch_id := h_epoch_id (header object) in
  let k := (stream_id, epoch_id, key_group) in
  if decide (s_active_epoch stream <> Some epoch_id \/ s_active_group stream <> Some key_group)
  then
    let? db := complete_active db stream_id (s_active_epoch stream) (s_active_group stream)
                 "completing previous native group" in
    validate_group_progression (s_active_epoch stream) (s_active_group stream)
      epoch_id key_group object then?
    let? timestamp := to_sql_u64 (h_timestamp (header object)) "object timestamp" in
    let? db := insert_group db k (new_group object sequence timestamp received_at_ms)
                 "starting native keyframe group" in
    update_stream db stream_id (set_active (Some epoch_id) (Some key_group))
      "setting active native group"
  else
    let? group := ok_or (groups db !! k) "reading active group key ID" in
    reject_if (g_key_id group <> h_key_id (header object))
      "native group changed key ID without rotating group" then?
    Ok db.

(** The accounting of one object in its group; the byte sum may overflow its
    column. *)
Definition grow_group (sequence timestamp received_at_ms added : Z) (g : GroupRow) :
    option GroupRow :=
  retained ← i64_checked_add (g_retained_bytes g) added;
  Some {|
    g_key_id := g_key_id g; g_first_sequence := g_first_sequence g;
    g_last_sequence := sequence; g_first_timestamp := g_first_timestamp g;
    g_last_timestamp := timestamp; g_received_first_ms := g_received_first_ms g;
    g_received_last_ms := Z.max (g_received_last_ms g) received_at_ms;
    g_retained_bytes := retained; g_complete := g_complete g |}.

(** The new row and its accounting, with the high-water mark. *)
Definition append_object (db : Db) (object : NativeObject) (encoded : bytes)
    (sequence key_group received_at_ms : Z) : result string Db :=
  let stream_id := h_stream_id (header object) in
  let k := (stream_id, h_epoch_id (header object), key_group) in
  let? db := insert_object db (stream_id, sequence)
    {| o_epoch_id := h_epoch_id (header object); o_key_group := key_group;
       o_received_at_ms := received_at_ms; o_object := encoded |}
    "inserting native object" in
  let? object_bytes := to_sql_u64 (zlen encoded) "object byte count" in
  let? timestamp := to_sql_u64 (h_timestamp (header object)) "object timestamp" in
  let? db := update_group db k (grow_group sequence timestamp received_at_ms object_bytes)
    "updating native group accounting" in
  update_stream db stream_id (set_high_water sequence) "updating native high-water mark".

Definition store_object (db : Db) (object : NativeObject) (received_at_ms : Z) :
    result string (NativeCommit * Db) :=
  context "validating native object shape" (validate_shape object) then?
  let stream_id := h_stream_id (header object) in
  let? descriptor := descriptor_in db stream_id in
  let? descriptor := ok_or descriptor "native object stream has no descriptor" in
  let publisher := desc_publisher (desc_body descriptor) in
  context "verifying native object publisher" (verify_public object publisher) then?
  let? encoded := context "encoding native object" (object_encode object publisher) in
  let? sequence := to_sql_u64 (h_sequence (header object)) "object sequence" in
  match objects db !! (stream_id, sequence) with
  | Some existing =>
      reject_if (o_object existing <> encoded)
        "native sequence already exists with different content" then?
      Ok ({| committed_through := h_sequence (header object); evicted_groups := 0;
             inserted := false |}, db)
  | None =>
      let? stream := ok_or (streams db !! stream_id)
                       "reading native stream high-water mark" in
      let? expected := ok_or (i64_checked_add (s_high_water stream) 1)
                         "native sequence space exhausted" in
      reject_if (sequence <> expected) "native sequence is out of order" then?
      let? key_group := to_sql_u64 (h_key_group (header object)) "key group" in
      let? db := enter_group db stream object sequence key_group received_at_ms in
      let? publisher_id := context "invalid identity" (identity_id publisher) in
      check_group_growth db
        {| gr_publisher_id := publisher_id; gr_stream_id := stream_id;
           gr_epoch_id := h_epoch_id (header object);
           gr_key_group := h_key_group (header object); gr_added_bytes := zlen encoded;
           gr_item_kind := GroupObject |} then?
      let? db := append_object db object encoded sequence key_group received_at_ms in
      let? (evicted, db) := enforce_retention db stream_id received_at_ms in
      Ok ({| committed_through := h_sequence (header object); evicted_groups := evicted;
             inserted := true |}, db)
  end.

(** * Envelopes *)

Definition add_envelope_bytes (added : Z) (g : GroupRow) : option GroupRow :=
  retained ← i64_checked_add (g_retained_bytes g) added;
  Some {|
    g_key_id := g_key_id g; g_first_sequence := g_first_sequence g;
    g_last_sequence := g_last_sequence g; g_first_timestamp := g_first_timestamp g;
    g_last_timestamp := g_last_timestamp g; g_received_first_ms := g_received_first_ms g;
    g_received_last_ms := g_received_last_ms g; g_retained_bytes := retained;
    g_complete := g_complete g |}.

Definition store_envelope (db : Db) (envelope : KeyEnvelope) (received_at_ms : Z) :
    result string (bool * Db) :=
  context "validating key envelope shape" (envelope_validate_shape envelope) then?
  let stream_id := eh_stream_id (env_header envelope) in
  let epoch_id := eh_epoch_id (env_header envelope) in
  let? descriptor := descriptor_in db stream_id in
  let? descriptor := ok_or descriptor "key envelope stream has no descriptor" in
  let publisher := desc_publisher (desc_body descriptor) in
  context "verifying key envelope publisher" (envelope_verify_public envelope publisher) then?
  let? encoded := context "encoding key envelope" (envelope_encode envelope publisher) in
  let? key_group := to_sql_u64 (eh_key_group_id (env_header envelope)) "envelope key group" in
  let k := (stream_id, epoch_id, key_group) in
  match groups db !! k with
  | None => Ok (false, db)
  | Some group =>
      reject_if (g_key_id group <> eh_key_id (env_header envelope))
        "key envelope contradicts the retained ciphertext group key" then?
      match envelopes db !! (k, eh_recipient_id (env_header envelope)) with
      | Some _ => Ok (false, db)
      | None =>
          let? publisher_id := context "invalid identity" (identity_id publisher) in
          check_group_growth db
            {| gr_publisher_id := publisher_id; gr_stream_id := stream_id;
               gr_epoch_id := epoch_id;
               gr_key_group := eh_key_group_id (env_header envelope);
               gr_added_bytes := zlen encoded; gr_item_kind := GroupEnvelope |} then?
          let? db := insert_envelope db (k, eh_recipient_id (env_header envelope))
            {| e_key_id := eh_key_id (env_header envelope);
               e_received_at_ms := received_at_ms; e_envelope := encoded |}
            "inserting viewer envelope" in
          let? added := to_sql_u64 (zlen encoded) "envelope byte count" in
          let? db := update_group db k (add_envelope_bytes added)
            "updating envelope group accounting" in
          let? (_, db) := enforce_retention db stream_id received_at_ms in
          Ok (true, db)
      end
  end.

(** [finalize_stream]: the end of a publisher session completes its group. *)
Definition finalize_stream (db : Db) (stream_id : uuid) : result string Db :=
  match streams db !! stream_id with
  | Some {| s_active_epoch := Some epoch_id; s_active_group := Some key_group |} =>
      let? db := complete_active db stream_id (Some epoch_id) (Some key_group)
                   "completing disconnected stream group" in
      update_stream db stream_id (set_active None None) "clearing disconnected stream group"
  | _ => Ok db
  end.

(** * Queries *)

Definition get_object (db : Db) (stream_id : uuid) (sequence : Z) :
    result string (option NativeObject) :=
  let? descriptor := descriptor_in db stream_id in
  match descriptor with
  | None => Ok None
  | Some descriptor =>
      let? sequence := to_sql_u64 sequence "object sequence" in
      opt_traverse
        (fun row => context "decoding stored native object"
           (object_decode (o_object row) (desc_publisher (desc_body descriptor))))
        (objects db !! (stream_id, sequence))
  end.

(** [SELECT ... WHERE stream_id = ? AND sequence > ? ORDER BY sequence LIMIT ?] *)
Definition sequence_le (x y : Z * ObjectRow) : Prop := x.1 <= y.1.
#[local] Instance sequence_le_dec : RelDecision sequence_le.
Proof. intros x y. unfold sequence_le. apply _. Defined.
Definition objects_after (db : Db) (stream_id : uuid) (after_sequence : Z) :
    list (Z * ObjectRow) :=
  merge_sort sequence_le
    (omap (fun '((s, q), o) => if decide (s = stream_id /\ after_sequence < q)
                               then Some (q, o) else None)
       (map_to_list (objects db))).

Definition list_objects (db : Db) (stream_id : uuid) (after_sequence limit : Z) :
    result string (list NativeObject) :=
  reject_if (limit = 0 \/ limit > MAX_LIST_OBJECTS)
    "native object list limit is outside 1..=16384" then?
  let? descriptor := descriptor_in db stream_id in
  let? descriptor := ok_or descriptor "native stream has no descriptor" in
  let? after_sequence := to_sql_u64 after_sequence "object sequence" in
  mapR (fun '(_, row) => context "decoding listed native object"
          (object_decode (o_object row) (desc_publisher (desc_body descriptor))))
    (take (Z.to_nat limit) (objects_after db stream_id after_sequence)).

(** The viewer's envelopes of a stream joined with their groups, in descending
    order of the group's first sequence. *)
Definition first_sequence_ge (x y : Z * EnvelopeRow) : Prop := y.1 <= x.1.
#[local] Instance first_sequence_ge_dec : RelDecision first_sequence_ge.
Proof. intros x y. unfold first_sequence_ge. apply _. Defined.
Definition recipient_envelopes (db : Db) (stream_id : uuid) (recipient_id : array 32) :
    list (Z * EnvelopeRow) :=
  merge_sort first_sequence_ge
    (omap (fun '((k, r), e) =>
             if decide (k.1.1 = stream_id /\ r = recipient_id)
             then (fun g => (g_first_sequence g, e)) <$> groups db !! k else None)
       (map_to_list (envelopes db))).

Definition list_envelopes (db : Db) (stream_id : uuid) (recipient_id : array 32) (limit : Z) :
    result string (list KeyEnvelope) :=
  reject_if (recipient_id = zeros 32 \/ limit = 0 \/ limit > MAX_LIST_OBJECTS)
    "invalid native envelope list request" then?
  let? descriptor := descriptor_in db stream_id in
  let? descriptor := ok_or descriptor "native stream has no descriptor" in
  mapR (fun '(_, row) => context "decoding stored viewer envelope"
          (envelope_decode (e_envelope row) (desc_publisher (desc_body descriptor))))
    (take (Z.to_nat limit) (recipient_envelopes db stream_id recipient_id)).

Definition get_envelope (db : Db) (stream_id epoch_id : uuid) (key_group : Z)
    (recipient_id : array 32) : result string (option KeyEnvelope) :=
  reject_if (is_nil stream_id \/ is_nil epoch_id \/ key_group = 0 \/ recipient_id = zeros 32)
    "invalid native envelope lookup" then?
  let? descriptor := descriptor_in db stream_id in
  let? descriptor := ok_or descriptor "native stream has no descriptor" in
  let? key_group := to_sql_u64 key_group "envelope key group" in
  opt_traverse
    (fun row => context "decoding exact viewer envelope"
       (envelope_decode (e_envelope row) (desc_publisher (desc_body descriptor))))
    (envelopes db !! ((stream_id, epoch_id, key_group), recipient_id)).

Definition descriptor (db : Db) (stream_id : uuid) :
    result string (option StreamDescriptor) := descriptor_in db stream_id.

Definition high_water (db : Db) (stream_id : uuid) : result string (option Z) :=
  opt_traverse (fun r => from_sql_u64 (s_high_water r) "high-water mark")
    (streams db !! stream_id).

Definition retained_bounds (db : Db) (stream_id : uuid) :
    result string (option NativeRetainedBounds) :=
  let rows := complete_groups db stream_id in
  opt_traverse
    (fun '(((oldest, newest), oldest_ts), newest_ts) =>
       let? oldest := from_sql_u64 oldest "oldest retained sequence" in
       let? newest := from_sql_u64 newest "newest retained sequence" in
       let? oldest_ts := from_sql_u64 oldest_ts "oldest retained timestamp" in
       let? newest_ts := from_sql_u64 newest_ts "newest retained timestamp" in
       Ok {| oldest_sequence := oldest; newest_sequence := newest;
             oldest_timestamp := oldest_ts; newest_timestamp := newest_ts |})
    (oldest ← list_min ((fun x => g_first_sequence x.2) <$> rows);
     newest ← list_max ((fun x => g_last_sequence x.2) <$> rows);
     oldest_ts ← list_min ((fun x => g_first_timestamp x.2) <$> rows);
     newest_ts ← list_max ((fun x => g_last_timestamp x.2) <$> rows);
     Some (((oldest, newest), oldest_ts), newest_ts)).

Definition subscription_anchor (db : Db) (stream_id : uuid) (start : SubscriptionStart) :
    result string Z :=
  let? stream := ok_or (streams db !! stream_id) "subscription stream does not exist" in
  let? high := from_sql_u64 (s_high_water stream) "subscription high-water" in
  let? next_live := ok_or (u64_checked_add high 1) "native sequence space exhausted" in
  match start with
  | Live =>
      match select_first group_after (stream_groups db stream_id) with
      | Some (_, g) => from_sql_u64 (g_first_sequence g) "current group first sequence"
      | None => Ok next_live
      end
  | _ =>
      let? selected :=
        match start with
        | Live => Err "live returned above"
        | OldestRetained => Ok (oldest_complete db stream_id)
        | StartSequence sequence =>
            let? sequence := to_sql_u64 sequence "subscription sequence" in
            Ok (select_first group_after
                  (filter (fun '(_, g) => g_first_sequence g <= sequence)
                     (stream_groups db stream_id)))
        | StartTimestamp timestamp =>
            let? timestamp := to_sql_u64 timestamp "subscription timestamp" in
            Ok (select_first group_later
                  (filter (fun '(_, g) => g_first_timestamp g <= timestamp)
                     (stream_groups db stream_id)))
        end in
      match selected with
      | Some (_, g) => from_sql_u64 (g_first_sequence g) "subscription anchor"
      | None => Ok next_live
      end
  end.

Definition summary (db : Db) (stream_id : uuid) (row : StreamRow) :
    result string (uuid * NativeStreamSummary) :=
  let? bytes := sql_sum (stream_group_bytes stream_id) (groups db)
                  "reading native stream summaries" in
  let? high := from_sql_u64 (s_high_water row) "summary high-water" in
  let? bytes := from_sql_u64 bytes "summary byte count" in
  let? retained := retained_bounds db stream_id in
  Ok (stream_id, {| sum_publisher_id := s_publisher_id row; sum_high_water := high;
                    sum_retained_bytes := bytes; sum_retained := retained |}).

Definition summaries (db : Db) : result string (list (uuid * NativeStreamSummary)) :=
  mapR (fun stream_id =>
          let? row := ok_or (streams db !! stream_id) "reading native stream summaries" in
          summary db stream_id row)
    (stream_ids db).
End store.

(** * Runs of the store *)

(** One committed operation of the relay on the tables. *)
Inductive store_step `{crypto : !Crypto} `{!Postcard IdentityPublic}
    `{!Postcard StreamDescriptorBody} `{!Postcard StreamDescriptor}
    `{!Postcard NativeObjectHeader} `{!Postcard NativeObjectClaim} `{!Postcard NativeObject}
    `{!Postcard KeyEnvelopeHeader} `{!Postcard UnsignedEnvelope} `{!Postcard KeyEnvelope}
    (cfg : StoreConfig) (db : Db) : Db -> Prop :=
| step_put_descriptor d db' :
    put_descriptor cfg db d = Ok db' -> store_step cfg db db'
| step_store_object o now commit db' :
    store_object cfg db o now = Ok (commit, db') -> store_step cfg db db'
| step_store_envelope e now stored db' :
    store_envelope cfg db e now = Ok (stored, db') -> store_step cfg db db'
| step_enforce_retention now n db' :
    enforce_retention_at cfg db now = Ok (n, db') -> store_step cfg db db'
| step_finalize stream_id db' :
    finalize_stream db stream_id = Ok db' -> store_step cfg db db'.

(** The tables reachable from an empty store. *)
Inductive reachable `{crypto : !Crypto} `{!Postcard IdentityPublic}
    `{!Postcard StreamDescriptorBody} `{!Postcard StreamDescriptor}
    `{!Postcard NativeObjectHeader} `{!Postcard NativeObjectClaim} `{!Postcard NativeObject}
    `{!Postcard KeyEnvelopeHeader} `{!Postcard UnsignedEnvelope} `{!Postcard KeyEnvelope}
    (cfg : StoreConfig) : Db -> Prop :=
| reachable_empty : reachable cfg empty_db
| reachable_step db db' : reachable cfg db -> store_step cfg db db' -> reachable cfg db'.
