(* ===== verification/StoreSample.v ===== *)
(** A small concrete history of the relay's store, on the checksums of [Toy]:
    two groups of one stream, the first with a viewer envelope.  Only witnesses
    use it. *)
From Stdlib Require Import ZArith Lia.
From S2P Require Import Prelude Bytes External Toy Identity Native Envelope Wire NativeTables Codecs.
From S2P Require Import NativeStore.

Definition sample_config : StoreConfig :=
  {| retention_bytes := Some 1000000; retention_age := Some 3600000000000;
     limits := default_limits |}.

Definition sample_group2 : GroupEncryptor :=
  match group_generate sample_public sample_stream sample_epoch 2 2
          [Vector.const x1c 16] (Vector.const x1d 4) [Vector.const x1e 32] with
  | Some (Ok e) => e
  | _ => sample_group
  end.

(** The objects of the history, in order. *)
Definition sealed_object (e : GroupEncryptor) (sequence : Z) (random_access : bool)
    (plaintext : bytes) : NativeObject :=
  match seal e sample_secret (sample_media sequence random_access) plaintext with
  | Ok (o, _) => o
  | Err _ => sample_object
  end.
Definition sample_delta : NativeObject := Eval vm_compute in
  sealed_object (sealed_state sample_group (sample_media 1 true)) 2 false
    [x00; x00; x00; x01; x41; x9a].
Definition sample_key2 : NativeObject := Eval vm_compute in
  sealed_object sample_group2 3 true sample_idr.

(** The tables an operation leaves. *)
Definition after {A} (r : result string (A * Db)) (db : Db) : Db :=
  match r with Ok (_, db) => db | Err _ => db end.
Definition after_unit (r : result string Db) (db : Db) : Db :=
  match r with Ok db => db | Err _ => db end.

Definition sample_db0 : Db :=
  after_unit (put_descriptor sample_config empty_db sample_descriptor) empty_db.
Definition sample_db1 : Db :=
  after (store_object sample_config sample_db0 sample_object 1000) sample_db0.
Definition sample_db2 : Db :=
  after (store_object sample_config sample_db1 sample_delta 1040) sample_db1.
Definition sample_db3 : Db :=
  after (store_envelope sample_config sample_db2 sample_envelope 1050) sample_db2.
Definition sample_db : Db :=
  after (store_object sample_config sample_db3 sample_key2 1080) sample_db3.

Lemma after_ok {A} (r : result string (A * Db)) db :
  is_ok r = true -> exists a, r = Ok (a, after r db).
Proof. destruct r as [[a db']|]; [|done]. by exists a. Defined.

Lemma after_unit_ok (r : result string Db) db : is_ok r = true -> r = Ok (after_unit r db).
Proof. by destruct r. Defined.

Lemma sample_object_reachable db o now :
  reachable sample_config db -> is_ok (store_object sample_config db o now) = true ->
  reachable sample_config (after (store_object sample_config db o now) db).
Proof.
  intros Hre Hok. destruct (after_ok _ db Hok) as [c Hc].
  eapply reachable_step; [done|]. by eapply step_store_object.
Defined.

Lemma sample_reachable0 : reachable sample_config sample_db0.
Proof.
  eapply reachable_step; [apply reachable_empty|].
  apply step_put_descriptor with (d := sample_descriptor).
  apply after_unit_ok. vm_compute. reflexivity.
Defined.
Lemma sample_reachable1 : reachable sample_config sample_db1.
Proof. apply sample_object_reachable; [apply sample_reachable0|vm_compute; reflexivity]. Defined.
Lemma sample_reachable2 : reachable sample_config sample_db2.
Proof. apply sample_object_reachable; [apply sample_reachable1|vm_compute; reflexivity]. Defined.
Lemma sample_reachable3 : reachable sample_config sample_db3.
Proof.
  destruct (after_ok (store_envelope sample_config sample_db2 sample_envelope 1050) sample_db2)
    as [b Hb]; [vm_compute; reflexivity|].
  eapply reachable_step; [apply sample_reachable2|]. by eapply step_store_envelope.
Defined.
Lemma sample_reachable : reachable sample_config sample_db.
Proof. apply sample_object_reachable; [apply sample_reachable3|vm_compute; reflexivity]. Defined.

Example sample_db_shape :
  size (streams sample_db) = 1%nat /\ size (groups sample_db) = 2%nat /\
  size (objects sample_db) = 3%nat /\ size (envelopes sample_db) = 1%nat.
Proof. vm_compute. done. Qed.
