(* ===== verification/StoreInv.v ===== *)
(** The structural invariant of the relay's tables and its preservation by the
    elementary changes that the store's operations are made of. *)
From Stdlib Require Import ZArith Lia.
From S2P Require Import Prelude Bytes NativeTables NativeStore.

(** * The invariant

    Groups belong to streams, envelopes to groups; a group's objects are
    exactly the sequences of its range, so that the ranges of one stream are
    disjoint; from the first sequence of any retained group up to the
    high-water mark nothing is missing; the only incomplete group of a stream
    is the active one, which ends at the high-water mark; the byte accounting
    of a group is the sum of its rows; everything fits its INTEGER column. *)
Record wf (db : Db) : Prop := {
  wf_stream s r :
    streams db !! s = Some r -> stream_check r /\ s_high_water r <= i64_max;
  wf_group k g :
    groups db !! k = Some g ->
    group_check k g /\ k.2 <= i64_max /\ g_last_timestamp g <= i64_max /\
    g_retained_bytes g <= i64_max /\
    exists r, streams db !! k.1.1 = Some r /\ g_last_sequence g <= s_high_water r;
  wf_envelope ek e :
    envelopes db !! ek = Some e ->
    exists g, groups db !! ek.1 = Some g /\ e_key_id e = g_key_id g;
  wf_object s q o :
    objects db !! (s, q) = Some o ->
    exists g, groups db !! object_group s o = Some g /\
      g_first_sequence g <= q <= g_last_sequence g;
  wf_filled k g q :
    groups db !! k = Some g -> g_first_sequence g <= q <= g_last_sequence g ->
    exists o, objects db !! (k.1.1, q) = Some o /\ object_group k.1.1 o = k;
  wf_suffix k g r q :
    groups db !! k = Some g -> streams db !! k.1.1 = Some r ->
    g_first_sequence g <= q <= s_high_water r -> is_Some (objects db !! (k.1.1, q));
  wf_active s r :
    streams db !! s = Some r ->
    match s_active_epoch r, s_active_group r with
    | Some e, Some n =>
        exists g, groups db !! (s, e, n) = Some g /\ g_complete g = false /\
          g_last_sequence g = s_high_water r
    | None, None => True
    | _, _ => False
    end;
  wf_incomplete k g :
    groups db !! k = Some g -> g_complete g = false ->
    exists r, streams db !! k.1.1 = Some r /\ s_active_epoch r = Some k.1.2 /\
      s_active_group r = Some k.2;
  wf_bytes k g :
    groups db !! k = Some g ->
    g_retained_bytes g = map_sum (object_bytes k) (objects db) +
                         map_sum (envelope_bytes k) (envelopes db);
}.

Lemma wf_empty : wf empty_db.
Proof. split; simpl; intros *; rewrite ?lookup_empty; done. Qed.

(** * Statements *)

Lemma insert_group_Ok db k r ctx db' :
  insert_group db k r ctx = Ok db' ->
  groups db !! k = None /\ group_check k r /\ is_Some (streams db !! k.1.1) /\
  db' = set_groups <[k := r]> db.
Proof.
  unfold insert_group. rewrite !guard_bind. intros (H1 & H2 & H3 & [= <-]).
  apply eq_None_not_Some in H1. apply dec_stable in H2.
  split_and!; try done. by apply not_eq_None_Some.
Qed.

Lemma update_group_Ok db k f ctx db' :
  update_group db k f ctx = Ok db' ->
  (groups db !! k = None /\ db' = db) \/
  exists g g', groups db !! k = Some g /\ f g = Some g' /\ group_check k g' /\
    db' = set_groups <[k := g']> db.
Proof.
  unfold update_group. destruct (groups db !! k) as [g|]; [|intros [= <-]; by left].
  intros (g' & Hf%ok_or_Ok & H)%bind_Ok_inv. rewrite guard_bind in H.
  destruct H as [H%dec_stable [= <-]]. right. eauto 10.
Qed.

Lemma update_stream_Ok db k f ctx db' :
  update_stream db k f ctx = Ok db' ->
  (streams db !! k = None /\ db' = db) \/
  exists r, streams db !! k = Some r /\ stream_check (f r) /\
    db' = set_streams <[k := f r]> db.
Proof.
  unfold update_stream. destruct (streams db !! k) as [r|]; [|intros [= <-]; by left].
  rewrite guard_bind. intros [H%dec_stable [= <-]]. right. eauto.
Qed.

Lemma insert_object_Ok db k r ctx db' :
  insert_object db k r ctx = Ok db' ->
  objects db !! k = None /\ object_check k r /\ db' = set_objects <[k := r]> db.
Proof.
  unfold insert_object. rewrite !guard_bind. intros (H1 & H2 & _ & [= <-]).
  apply eq_None_not_Some in H1. by apply dec_stable in H2.
Qed.

Lemma insert_envelope_Ok db k r ctx db' :
  insert_envelope db k r ctx = Ok db' ->
  envelopes db !! k = None /\ db' = set_envelopes <[k := r]> db.
Proof.
  unfold insert_envelope. rewrite !guard_bind. intros (H1 & _ & _ & [= <-]).
  by apply eq_None_not_Some in H1.
Qed.

(** * Consequences *)

Section consequences.
Context (db : Db) (Hwf : wf db).

(** The ranges of two groups of one stream are disjoint. *)
Lemma wf_disjoint k1 g1 k2 g2 q :
  groups db !! k1 = Some g1 -> groups db !! k2 = Some g2 -> k1.1.1 = k2.1.1 ->
  g_first_sequence g1 <= q <= g_last_sequence g1 ->
  g_first_sequence g2 <= q <= g_last_sequence g2 -> k1 = k2.
Proof using Hwf.
  intros H1 H2 Hs Hq1 Hq2.
  destruct (wf_filled _ Hwf _ _ _ H1 Hq1) as (o1 & Ho1 & <-).
  destruct (wf_filled _ Hwf _ _ _ H2 Hq2) as (o2 & Ho2 & Hk2). simpl in *. congruence.
Qed.

Lemma wf_range k g :
  groups db !! k = Some g ->
  0 < g_first_sequence g /\ g_first_sequence g <= g_last_sequence g /\
  g_last_sequence g <= i64_max.
Proof using Hwf.
  intros H. destruct (wf_group _ Hwf _ _ H) as ((? & ? & ? & _) & _ & _ & _ & r & Hr & ?).
  destruct (wf_stream _ Hwf _ _ Hr). lia.
Qed.

(** A group without a row has no objects and no envelopes. *)
Lemma wf_no_group_bytes k :
  groups db !! k = None ->
  map_sum (object_bytes k) (objects db) = 0 /\ map_sum (envelope_bytes k) (envelopes db) = 0.
Proof using Hwf.
  intros Hk. split; apply map_sum_zero.
  - intros [s q] o Ho. unfold object_bytes. case_decide as E; [|done]. simpl in E.
    destruct (wf_object _ Hwf _ _ _ Ho) as (g & Hg & _). congruence.
  - intros ek e He. unfold envelope_bytes. case_decide as E; [|done].
    destruct (wf_envelope _ Hwf _ _ He) as (g & Hg & _). congruence.
Qed.

Lemma wf_object_high_water s q o :
  objects db !! (s, q) = Some o ->
  exists r, streams db !! s = Some r /\ 0 < q <= s_high_water r.
Proof using Hwf.
  intros Ho. destruct (wf_object _ Hwf _ _ _ Ho) as (g & Hg & Hq).
  destruct (wf_group _ Hwf _ _ Hg) as ((_ & ? & _) & _ & _ & _ & r & Hr & ?).
  exists r. simpl in Hr. split; [done|lia].
Qed.

(** Nothing is stored above the high-water mark. *)
Lemma wf_fresh s r : streams db !! s = Some r -> objects db !! (s, s_high_water r + 1) = None.
Proof using Hwf.
  intros Hr. apply eq_None_not_Some. intros [o Ho].
  apply wf_object_high_water in Ho as (r' & ? & ?). simplify_eq. lia.
Qed.

(** A group above every complete one is the active one. *)
Lemma wf_active_group s r e n :
  streams db !! s = Some r -> s_active_epoch r = Some e -> s_active_group r = Some n ->
  exists g, groups db !! (s, e, n) = Some g /\ g_complete g = false /\
    g_last_sequence g = s_high_water r.
Proof using Hwf. intros Hr He Hn. pose proof (wf_active _ Hwf _ _ Hr). by rewrite He, Hn in *. Qed.
End consequences.

(** * Elementary changes *)

(** Case analysis on a lookup in a map with one row replaced. *)
Ltac lookups :=
  repeat match goal with
  | H : <[_ := _]> _ !! _ = Some _ |- _ => apply lookup_insert_Some in H as [[? ?]|[? ?]]
  | H : delete _ _ !! _ = Some _ |- _ => apply lookup_delete_Some in H as [? ?]
  | H : filter _ _ !! _ = Some _ |- _ => apply map_lookup_filter_Some in H as [? ?]
  end; simplify_eq/=.

(** Completing the active group of a stream. *)
Definition close_group (db : Db) (k : group_key) (r : StreamRow) (g : GroupRow) : Db :=
  set_streams <[k.1.1 := set_active None None r]> (set_groups <[k := mark_complete g]> db).

Lemma wf_close db s e n r g :
  wf db -> streams db !! s = Some r -> s_active_epoch r = Some e -> s_active_group r = Some n ->
  groups db !! (s, e, n) = Some g -> wf (close_group db (s, e, n) r g).
Proof.
  intros Hwf Hr He Hn Hg. unfold close_group.
  pose proof (wf_group _ Hwf _ _ Hg) as (Hgc & Hn64 & Hts & Hrb & r' & Hr' & Hhw).
  simpl in *. simplify_eq. split; simpl.
  - intros s' r' H. lookups; [|by eapply wf_stream].
    destruct (wf_stream _ Hwf _ _ Hr) as [[? ?] ?]. by split; [split|].
  - intros k' g' H. lookups.
    + split_and!; try done. exists (set_active None None r). by rewrite lookup_insert_eq.
    + destruct (wf_group _ Hwf _ _ ltac:(eassumption)) as (? & ? & ? & ? & r1 & Hr1 & ?).
      split_and!; try done. destruct (decide (k'.1.1 = s)) as [Heq|].
      * exists (set_active None None r). rewrite Heq in *. rewrite lookup_insert_eq.
        by simplify_eq.
      * exists r1. by rewrite lookup_insert_ne.
  - intros ek e' H. destruct (wf_envelope _ Hwf _ _ H) as (g' & Hg' & ?).
    destruct (decide (ek.1 = (s, e, n))) as [Heq|].
    + rewrite Heq in *. exists (mark_complete g). rewrite lookup_insert_eq. by simplify_eq.
    + exists g'. by rewrite lookup_insert_ne.
  - intros s' q o H. destruct (wf_object _ Hwf _ _ _ H) as (g' & Hg' & ?).
    destruct (decide (object_group s' o = (s, e, n))) as [Heq|].
    + rewrite Heq in *. exists (mark_complete g). rewrite lookup_insert_eq. by simplify_eq.
    + exists g'. by rewrite lookup_insert_ne.
  - intros k' g' q H Hq. lookups;
      [by apply (wf_filled _ Hwf (s, e, n) g) | by eapply wf_filled].
  - intros k' g' r1 q H Hr1 Hq. apply lookup_insert_Some in H as [[<- <-]|[_ H]].
    + simpl in Hr1. rewrite lookup_insert_eq in Hr1. simplify_eq.
      by apply (wf_suffix _ Hwf (s, e, n) g r).
    + apply lookup_insert_Some in Hr1 as [[Hs <-]|[_ Hr1]].
      * apply (wf_suffix _ Hwf k' g' r); [done|by rewrite <-Hs|done].
      * by apply (wf_suffix _ Hwf k' g' r1).
  - intros s' r1 H. lookups; [done|]. pose proof (wf_active _ Hwf _ _ ltac:(eassumption)) as Ha.
    destruct (s_active_epoch r1) as [e1|], (s_active_group r1) as [n1|]; try done.
    destruct Ha as (g1 & Hg1 & ?). exists g1. rewrite lookup_insert_ne; [done|naive_solver].
  - intros k' g' H Hc. lookups.
    destruct (wf_incomplete _ Hwf _ _ ltac:(eassumption) Hc) as (r1 & Hr1 & Hae & Han).
    destruct (decide (k'.1.1 = s)) as [Heq|].
    + destruct k' as [[s' e'] n']. naive_solver.
    + exists r1. by rewrite lookup_insert_ne.
  - intros k' g' H. lookups; by apply (wf_bytes _ Hwf).
Qed.

(** Appending the object at the next sequence to its group, which is new or
    the active one. *)
Definition append_db (db : Db) (k : group_key) (r : StreamRow) (g : GroupRow) (q : Z)
    (o : ObjectRow) : Db := {|
  streams := <[k.1.1 := r]> (streams db); groups := <[k := g]> (groups db);
  objects := <[(k.1.1, q) := o]> (objects db); envelopes := envelopes db |}.

Section append.
Context (db : Db) (k : group_key) (r r' : StreamRow) (g' : GroupRow) (q : Z) (o : ObjectRow).
Context (Hwf : wf db) (Hr : streams db !! k.1.1 = Some r).
Context (Hq : q = s_high_water r + 1) (Hq64 : q <= i64_max).
Context (Hr' : s_high_water r' = q /\ s_active_epoch r' = Some k.1.2 /\
               s_active_group r' = Some k.2).
Context (Ho : object_group k.1.1 o = k).
Context (Hcheck : group_check k g') (Hk64 : k.2 <= i64_max).
Context (Hts : g_last_timestamp g' <= i64_max) (Hrb : g_retained_bytes g' <= i64_max).
Context (Hlast : g_last_sequence g' = q) (Hinc : g_complete g' = false).
Context (Hbytes : g_retained_bytes g' =
  default 0 (g_retained_bytes <$> groups db !! k) + zlen (o_object o)).
Context (Hprev : match groups db !! k with
  | Some g => g_first_sequence g' = g_first_sequence g /\ g_key_id g' = g_key_id g /\
              g_last_sequence g = s_high_water r
  | None => g_first_sequence g' = q
  end).
Context (Hothers : forall k0 g0, groups db !! k0 = Some g0 -> k0.1.1 = k.1.1 -> k0 <> k ->
  g_complete g0 = true).

Lemma append_fresh : objects db !! (k.1.1, q) = None.
Proof using Hwf Hr Hq. rewrite Hq. by apply wf_fresh. Qed.

Lemma append_objects_old s p x :
  objects db !! (s, p) = Some x ->
  objects (append_db db k r' g' q o) !! (s, p) = Some x.
Proof using Hwf Hr Hq.
  intros H. simpl. rewrite lookup_insert_ne; [done|]. intros [= <- <-].
  by rewrite append_fresh in H.
Qed.

Lemma wf_append : wf (append_db db k r' g' q o).
Proof using All.
  pose proof append_fresh as Hfresh. destruct Hr' as (Hhw & Hae & Han).
  pose proof (wf_stream _ Hwf _ _ Hr) as [[Hhw0 _] Hhw64]. split.
  - simpl. intros s r0 H. lookups; [|by eapply wf_stream].
    unfold stream_check. rewrite Han. simpl. split; [|lia]. split; [lia|]. apply Hcheck.
  - simpl. intros k0 g0 H. lookups.
    + split_and!; try done. exists r'. rewrite lookup_insert_eq. split; [done|lia].
    + destruct (wf_group _ Hwf _ _ ltac:(eassumption)) as (? & ? & ? & ? & r1 & Hr1 & ?).
      split_and!; try done. destruct (decide (k.1.1 = k0.1.1)) as [Heq|].
      * exists r'. rewrite Heq, lookup_insert_eq. split; [done|]. rewrite <-Heq in Hr1.
        simplify_eq. lia.
      * exists r1. by rewrite lookup_insert_ne.
  - simpl. intros ek x H. destruct (wf_envelope _ Hwf _ _ H) as (g0 & Hg0 & ?).
    destruct (decide (k = ek.1)) as [Heq|].
    + exists g'. rewrite Heq, lookup_insert_eq. split; [done|]. subst k. rewrite Hg0 in Hprev.
      destruct Hprev as (_ & -> & _). done.
    + exists g0. by rewrite lookup_insert_ne.
  - simpl. intros s p x H. apply lookup_insert_Some in H as [[Heq <-]|[Hne H]].
    + injection Heq as <- <-. exists g'. rewrite Ho. simpl. rewrite lookup_insert_eq.
      split; [done|]. destruct Hcheck as (_ & _ & ? & _). lia.
    + destruct (wf_object _ Hwf _ _ _ H) as (g0 & Hg0 & ?).
      destruct (decide (k = object_group s x)) as [Heq|].
      * exists g'. simpl. rewrite <-Heq, lookup_insert_eq. split; [done|].
        rewrite <-Heq in Hg0. rewrite Hg0 in Hprev. lia.
      * exists g0. simpl. by rewrite lookup_insert_ne.
  - intros k0 g0 p H Hp. simpl in H. apply lookup_insert_Some in H as [[<- <-]|[Hne H]].
    + destruct (decide (p = q)) as [->|Hpq]; [exists o; simpl; by rewrite lookup_insert_eq|].
      destruct (groups db !! k) as [g|] eqn:Hg; [|lia].
      destruct (wf_filled _ Hwf _ _ p Hg) as (x & Hx & ?); [lia|].
      exists x. split; [by apply append_objects_old | done].
    + destruct (wf_filled _ Hwf _ _ p H Hp) as (x & Hx & ?).
      exists x. split; [by apply append_objects_old | done].
  - intros k0 g0 r0 p H H0 Hp. simpl in H, H0.
    assert (k0.1.1 = k.1.1 -> p = q \/ is_Some (objects db !! (k0.1.1, p))) as Hin.
    { intros Hs. destruct (decide (p = q)) as [->|]; [by left|]. right.
      rewrite Hs in H0 |- *. rewrite lookup_insert_eq in H0. injection H0 as <-.
      apply lookup_insert_Some in H as [[Heq <-]|[Hne H]].
      - destruct (groups db !! k) as [g|] eqn:Hg; [|lia].
        eapply (wf_suffix _ Hwf k); [done|done|lia].
      - rewrite <-Hs. eapply (wf_suffix _ Hwf k0); [done|by rewrite Hs|lia]. }
    destruct (decide (k0.1.1 = k.1.1)) as [Hs|Hs].
    + destruct (Hin Hs) as [->|[x Hx]]; [|exists x; by apply append_objects_old].
      rewrite Hs. simpl. by rewrite lookup_insert_eq.
    + rewrite lookup_insert_ne in H0 by done. apply lookup_insert_Some in H as [[<- <-]|[Hne H]];
        [done|]. destruct (wf_suffix _ Hwf _ _ _ _ H H0 Hp) as [x Hx].
      exists x. by apply append_objects_old.
  - simpl. intros s r0 H. apply lookup_insert_Some in H as [[<- <-]|[Hne H]].
    + rewrite Hae, Han. exists g'. destruct k as [[s e] n]. simpl.
      rewrite lookup_insert_eq. split_and!; [done..|lia].
    + pose proof (wf_active _ Hwf _ _ H) as Ha.
      destruct (s_active_epoch r0) as [e1|], (s_active_group r0) as [n1|]; try done.
      destruct Ha as (g1 & Hg1 & ?). exists g1. rewrite lookup_insert_ne; [done|].
      intros ->. by apply Hne.
  - simpl. intros k0 g0 H Hc. apply lookup_insert_Some in H as [[<- <-]|[Hne H]].
    + exists r'. rewrite lookup_insert_eq. done.
    + destruct (decide (k0.1.1 = k.1.1)) as [Hs|Hs]; [by rewrite (Hothers _ _ H) in Hc|].
      destruct (wf_incomplete _ Hwf _ _ H Hc) as (r1 & ? & ?).
      exists r1. by rewrite lookup_insert_ne.
  - simpl. intros k0 g0 H. rewrite map_sum_insert by done. unfold object_bytes at 1. simpl.
    rewrite Ho. apply lookup_insert_Some in H as [[<- <-]|[Hne H]].
    + rewrite decide_True by done. destruct (groups db !! k) as [g|] eqn:Hg; simpl in Hbytes.
      * rewrite Hbytes, (wf_bytes _ Hwf _ _ Hg). lia.
      * destruct (wf_no_group_bytes _ Hwf _ Hg) as [-> ->]. lia.
    + rewrite decide_False by done. by apply (wf_bytes _ Hwf).
Qed.
End append.

(** Rows that survive the deletion of a group keep their accounting. *)
Lemma delete_object_bytes db k k' :
  k' <> k -> map_sum (object_bytes k') (objects (delete_group db k)) =
             map_sum (object_bytes k') (objects db).
Proof.
  intros Hne. simpl. rewrite map_sum_filter. apply map_sum_ext. intros [s q] o _. simpl.
  unfold object_bytes. simpl. repeat case_decide; congruence.
Qed.

Lemma delete_envelope_bytes db k k' :
  k' <> k -> map_sum (envelope_bytes k') (envelopes (delete_group db k)) =
             map_sum (envelope_bytes k') (envelopes db).
Proof.
  intros Hne. simpl. rewrite map_sum_filter. apply map_sum_ext. intros ek e _. simpl.
  unfold envelope_bytes. repeat case_decide; congruence.
Qed.

Lemma delete_group_object db k s q o :
  objects db !! (s, q) = Some o -> object_group s o <> k ->
  objects (delete_group db k) !! (s, q) = Some o.
Proof. intros Ho Hne. simpl. by apply map_lookup_filter_Some. Qed.

(** Evicting the oldest complete group of a stream. *)
Lemma wf_delete db k g :
  wf db -> groups db !! k = Some g -> g_complete g = true ->
  (forall k0 g0, groups db !! k0 = Some g0 -> k0.1.1 = k.1.1 -> g_complete g0 = true ->
     g_first_sequence g <= g_first_sequence g0) ->
  wf (delete_group db k).
Proof.
  intros Hwf Hg Hc Hold.
  (* the rows of a remaining group do not belong to the deleted one *)
  assert (forall k0 g0 r p x, groups db !! k0 = Some g0 -> k <> k0 ->
    streams db !! k0.1.1 = Some r -> g_first_sequence g0 <= p <= s_high_water r ->
    objects db !! (k0.1.1, p) = Some x -> object_group k0.1.1 x <> k) as Hkeep.
  { intros k0 g0 r p x Hg0 Hne Hr Hp Hx Heq.
    destruct (wf_object _ Hwf _ _ _ Hx) as (g1 & Hg1 & Hp1). rewrite Heq, Hg in Hg1. injection Hg1 as <-.
    assert (k0.1.1 = k.1.1) as Hs by by rewrite <-Heq.
    pose proof (wf_range _ Hwf _ _ Hg0) as (_ & Hr0 & _).
    destruct (g_complete g0) eqn:Hc0.
    - pose proof (Hold _ _ Hg0 Hs Hc0). apply Hne.
      eapply (wf_disjoint _ Hwf k g k0 g0 (g_first_sequence g0)); try done. lia.
    - destruct (wf_incomplete _ Hwf _ _ Hg0 Hc0) as (r0 & Hr' & Hae & Han).
      rewrite Hr in Hr'. injection Hr' as <-.
      destruct (wf_active_group _ Hwf _ _ _ _ Hr Hae Han) as (g2 & Hg2 & _ & Hl).
      destruct k0 as [[s e] n]. simpl in *. rewrite Hg0 in Hg2. injection Hg2 as <-. apply Hne.
      eapply (wf_disjoint _ Hwf k g (s, e, n) g0 p); try done. lia. }
  split.
  - apply (wf_stream _ Hwf).
  - simpl. intros k0 g0 H. lookups. by apply (wf_group _ Hwf).
  - simpl. intros ek e H. lookups. destruct (wf_envelope _ Hwf _ _ ltac:(eassumption)) as (g0 & ? & ?).
    exists g0. by rewrite lookup_delete_ne.
  - simpl. intros s q o H. lookups. destruct (wf_object _ Hwf _ _ _ ltac:(eassumption)) as (g0 & ? & ?).
    exists g0. by rewrite lookup_delete_ne.
  - simpl. intros k0 g0 q H Hq. lookups.
    destruct (wf_filled _ Hwf _ _ q ltac:(eassumption) Hq) as (x & Hx & Hgx).
    exists x. split; [|done]. apply (delete_group_object db k); [done|]. by rewrite Hgx.
  - simpl. intros k0 g0 r q H Hr Hq. lookups.
    destruct (wf_suffix _ Hwf _ _ _ q ltac:(eassumption) Hr Hq) as [x Hx].
    exists x. apply (delete_group_object db k); [done|]. by eapply Hkeep.
  - simpl. intros s r Hr. pose proof (wf_active _ Hwf _ _ Hr) as Ha.
    destruct (s_active_epoch r) as [e|], (s_active_group r) as [n|]; try done.
    destruct Ha as (g1 & Hg1 & Hc1 & ?). exists g1. rewrite lookup_delete_ne; [done|].
    intros ->. congruence.
  - simpl. intros k0 g0 H Hc0. lookups. by eapply (wf_incomplete _ Hwf).
  - intros k0 g0 H. apply (lookup_delete_Some (groups db)) in H as [Hne H].
    rewrite delete_object_bytes, delete_envelope_bytes by done. by apply (wf_bytes _ Hwf).
Qed.

(** Adding an envelope to a retained group. *)
Definition add_envelope_db (db : Db) (k : group_key) (g' : GroupRow) (recipient : array 32)
    (e : EnvelopeRow) : Db := {|
  streams := streams db; groups := <[k := g']> (groups db); objects := objects db;
  envelopes := <[(k, recipient) := e]> (envelopes db) |}.

Lemma wf_add_envelope db k g g' recipient e :
  wf db -> groups db !! k = Some g -> envelopes db !! (k, recipient) = None ->
  e_key_id e = g_key_id g -> add_envelope_bytes (zlen (e_envelope e)) g = Some g' ->
  group_check k g' -> wf (add_envelope_db db k g' recipient e).
Proof.
  intros Hwf Hg Hfresh Hkey Hadd Hcheck. unfold add_envelope_bytes in Hadd.
  apply bind_Some in Hadd as (n & [-> Hn64]%i64_checked_add_Some & [= <-]).
  pose proof (wf_group _ Hwf _ _ Hg) as (_ & Hk64 & Hts & _ & Hr).
  split; simpl.
  - apply (wf_stream _ Hwf).
  - intros k0 g0 H. lookups; [|by apply (wf_group _ Hwf)]. split_and!; try done.
    unfold i64_ok in Hn64. lia.
  - intros ek x H. assert (forall g0, groups db !! ek.1 = Some g0 -> e_key_id x = g_key_id g0 ->
      exists g1, <[k := {| g_key_id := g_key_id g; g_first_sequence := g_first_sequence g;
        g_last_sequence := g_last_sequence g; g_first_timestamp := g_first_timestamp g;
        g_last_timestamp := g_last_timestamp g; g_received_first_ms := g_received_first_ms g;
        g_received_last_ms := g_received_last_ms g;
        g_retained_bytes := g_retained_bytes g + zlen (e_envelope e);
        g_complete := g_complete g |}]> (groups db) !! ek.1 = Some g1 /\
      e_key_id x = g_key_id g1) as Hex.
    { intros g0 Hg0 Hx. destruct (decide (k = ek.1)) as [Heq|].
      - subst k. rewrite lookup_insert_eq. eexists. split; [done|]. simpl. congruence.
      - exists g0. by rewrite lookup_insert_ne. }
    apply lookup_insert_Some in H as [[<- <-]|[_ H]]; [by eapply Hex|].
    destruct (wf_envelope _ Hwf _ _ H) as (g0 & ? & ?). eauto.
  - intros s q o H. destruct (wf_object _ Hwf _ _ _ H) as (g0 & Hg0 & ?).
    destruct (decide (k = object_group s o)) as [Heq|].
    + rewrite <-Heq in *. rewrite lookup_insert_eq. simplify_eq. eauto.
    + exists g0. by rewrite lookup_insert_ne.
  - intros k0 g0 q H Hq. apply lookup_insert_Some in H as [[<- <-]|[_ H]];
      [by apply (wf_filled _ Hwf k g) | by apply (wf_filled _ Hwf k0 g0)].
  - intros k0 g0 r q H Hr0 Hq. apply lookup_insert_Some in H as [[<- <-]|[_ H]];
      [by apply (wf_suffix _ Hwf k g r) | by apply (wf_suffix _ Hwf k0 g0 r)].
  - intros s r0 Hr0. pose proof (wf_active _ Hwf _ _ Hr0) as Ha.
    destruct (s_active_epoch r0) as [e0|], (s_active_group r0) as [n0|]; try done.
    destruct Ha as (g1 & Hg1 & ?). destruct (decide (k = (s, e0, n0))) as [->|].
    + rewrite lookup_insert_eq. simplify_eq. eauto.
    + exists g1. by rewrite lookup_insert_ne.
  - intros k0 g0 H Hc. apply lookup_insert_Some in H as [[<- <-]|[_ H]];
      [by apply (wf_incomplete _ Hwf k g) | by apply (wf_incomplete _ Hwf k0 g0)].
  - intros k0 g0 H. rewrite map_sum_insert by done. unfold envelope_bytes at 1. simpl.
    apply lookup_insert_Some in H as [[<- <-]|[Hne H]]; simpl.
    + rewrite decide_True by done. rewrite (wf_bytes _ Hwf _ _ Hg). lia.
    + rewrite decide_False by done. by apply (wf_bytes _ Hwf).
Qed.

(** A change of a stream row that keeps its high-water mark and active group. *)
Lemma wf_update_stream db s r r' :
  wf db -> streams db !! s = Some r -> s_high_water r' = s_high_water r ->
  s_active_epoch r' = s_active_epoch r -> s_active_group r' = s_active_group r ->
  wf (set_streams <[s := r']> db).
Proof.
  intros Hwf Hr Hh He Hn.
  assert (forall s0 r0, <[s := r']> (streams db) !! s0 = Some r0 ->
    exists r1, streams db !! s0 = Some r1 /\ s_high_water r0 = s_high_water r1 /\
      s_active_epoch r0 = s_active_epoch r1 /\ s_active_group r0 = s_active_group r1) as Hback.
  { intros s0 r0 H. apply lookup_insert_Some in H as [[<- <-]|[_ H]]; eauto. }
  assert (forall s0 r0, streams db !! s0 = Some r0 ->
    exists r1, <[s := r']> (streams db) !! s0 = Some r1 /\ s_high_water r0 = s_high_water r1 /\
      s_active_epoch r0 = s_active_epoch r1 /\ s_active_group r0 = s_active_group r1) as Hforth.
  { intros s0 r0 H. destruct (decide (s = s0)) as [<-|].
    - exists r'. rewrite lookup_insert_eq. simplify_eq. naive_solver.
    - exists r0. by rewrite lookup_insert_ne. }
  split; simpl; try apply Hwf.
  - intros s0 r0 (r1 & H1 & Hh1 & _ & Hn1)%Hback.
    pose proof (wf_stream _ Hwf _ _ H1) as [[? ?] ?]. unfold stream_check.
    rewrite Hh1, Hn1. done.
  - intros k g H. destruct (wf_group _ Hwf _ _ H) as (? & ? & ? & ? & r0 & Hr0 & ?).
    split_and!; try done. destruct (Hforth _ _ Hr0) as (r1 & ? & Heq & _).
    exists r1. split; [done|lia].
  - intros k g r0 q Hg (r1 & H1 & Hh1 & _)%Hback Hq. rewrite Hh1 in Hq.
    by eapply (wf_suffix _ Hwf).
  - intros s0 r0 (r1 & H1 & Hh1 & He1 & Hn1)%Hback. rewrite Hh1, He1, Hn1.
    by apply (wf_active _ Hwf).
  - intros k g Hg Hc. destruct (wf_incomplete _ Hwf _ _ Hg Hc) as (r0 & Hr0 & ? & ?).
    destruct (Hforth _ _ Hr0) as (r1 & ? & _ & Heq1 & Heq2).
    exists r1. split_and!; congruence.
Qed.

(** A new stream has no rows yet. *)
Lemma wf_new_stream db s r :
  wf db -> streams db !! s = None -> s_high_water r = 0 ->
  s_active_epoch r = None -> s_active_group r = None ->
  wf (set_streams <[s := r]> db).
Proof.
  intros Hwf Hs Hh He Hn.
  assert (forall k g, groups db !! k = Some g -> k.1.1 <> s) as Hno.
  { intros k g Hg <-. destruct (wf_group _ Hwf _ _ Hg) as (_ & _ & _ & _ & r0 & ? & _).
    congruence. }
  split; simpl; try apply Hwf.
  - intros s0 r0 H. lookups; [|by eapply (wf_stream _ Hwf)].
    unfold stream_check, i64_max. rewrite Hh, Hn. simpl. lia.
  - intros k g H. destruct (wf_group _ Hwf _ _ H) as (? & ? & ? & ? & r0 & ?).
    split_and!; try done. exists r0. rewrite lookup_insert_ne; [done|]. by apply not_eq_sym, (Hno k g).
  - intros k g r0 q Hg Hr Hq. rewrite lookup_insert_ne in Hr by by apply not_eq_sym, (Hno k g).
    by eapply (wf_suffix _ Hwf).
  - intros s0 r0 H. lookups; [by rewrite He, Hn | by apply (wf_active _ Hwf)].
  - intros k g Hg Hc. destruct (wf_incomplete _ Hwf _ _ Hg Hc) as (r0 & ?).
    exists r0. rewrite lookup_insert_ne; [done|]. by apply not_eq_sym, (Hno k g).
Qed.
