(* ===== verification/StoreRetention.v ===== *)
(** Retention of the relay's store: what [enforce_retention] removes, why it
    stops and that it always does. *)
From Stdlib Require Import ZArith Lia.
From S2P Require Import Prelude Bytes NativeTables NativeStore StoreInv.

Section retention.
Context (cfg : StoreConfig).

(** The group's removal is demanded by the byte limit of its stream or by its
    age. *)
Definition demanded (db : Db) (s : uuid) (cutoff : option Z) (g : GroupRow) : Prop :=
  is_some_and (fun limit => limit < stream_bytes db s) (retention_bytes cfg) \/
  is_some_and (fun cutoff => g_received_last_ms g < cutoff) cutoff.

(** [evictions s cutoff db n db']: removing [n] groups of stream [s], each
    demanded and the oldest complete one at its turn, leads from [db] to [db']. *)
Inductive evictions (s : uuid) (cutoff : option Z) : Db -> nat -> Db -> Prop :=
| evictions_none db : evictions s cutoff db 0 db
| evictions_one db k g n db' :
    oldest_complete db s = Some (k, g) -> demanded db s cutoff g ->
    evictions s cutoff (delete_group db k) n db' -> evictions s cutoff db (S n) db'.

(** Nothing more is demanded. *)
Definition retention_stable (db : Db) (s : uuid) (cutoff : option Z) : Prop :=
  match oldest_complete db s with
  | Some (_, g) => ~ demanded db s cutoff g
  | None => True
  end.

Lemma oldest_complete_Some db s k g :
  oldest_complete db s = Some (k, g) ->
  groups db !! k = Some g /\ k.1.1 = s /\ g_complete g = true /\
  forall k0 g0, groups db !! k0 = Some g0 -> k0.1.1 = s -> g_complete g0 = true ->
    g_first_sequence g <= g_first_sequence g0.
Proof.
  unfold oldest_complete, complete_groups. intros [Hin Hmin]%select_first_Some; [|apply _].
  apply list_elem_of_filter in Hin as [Hc Hin]. apply elem_of_stream_groups in Hin as [Hg Hs].
  split_and!; try done. intros k0 g0 Hg0 Hs0 Hc0.
  assert (~ group_before (k0, g0) (k, g)) as Hn.
  { apply Hmin, list_elem_of_filter. split; [done|]. by apply elem_of_stream_groups. }
  unfold group_before in Hn. simpl in Hn. lia.
Qed.

Lemma wf_delete_oldest db s k g :
  wf db -> oldest_complete db s = Some (k, g) -> wf (delete_group db k).
Proof.
  intros Hwf (Hg & <- & Hc & Hmin)%oldest_complete_Some. by eapply wf_delete.
Qed.

Lemma evictions_wf s cutoff db n db' : evictions s cutoff db n db' -> wf db -> wf db'.
Proof. induction 1; eauto using wf_delete_oldest. Qed.

Lemma wf_sum_nonneg db f :
  wf db -> (forall k g, f k g = 0 \/ f k g = g_retained_bytes g) -> 0 <= map_sum f (groups db).
Proof.
  intros Hwf Hf. apply map_sum_nonneg. intros k g Hg.
  pose proof (wf_group _ Hwf _ _ Hg) as [(_ & _ & _ & _ & _ & ?) _].
  destruct (Hf k g) as [-> | ->]; lia.
Qed.

Lemma stream_group_bytes_cases s k g :
  stream_group_bytes s k g = 0 \/ stream_group_bytes s k g = g_retained_bytes g.
Proof. unfold stream_group_bytes. case_decide; auto. Qed.

(** The measured bytes of a stream, when the sum does not overflow. *)
Lemma bytes_exceeded_Ok db s :
  wf db -> stream_bytes db s <= i64_max ->
  bytes_exceeded cfg db s =
  Ok (bool_decide (is_some_and (fun limit => limit < stream_bytes db s) (retention_bytes cfg))).
Proof.
  intros Hwf Hmax. unfold bytes_exceeded. destruct (retention_bytes cfg) as [limit|]; [|done].
  pose proof (wf_sum_nonneg db _ Hwf (stream_group_bytes_cases s)) as Hnn.
  unfold stream_bytes in *. unfold sql_sum.
  assert (i64_try_from (map_sum (stream_group_bytes s) (groups db)) =
    Some (map_sum (stream_group_bytes s) (groups db))) as ->
    by (apply i64_try_from_Some; ints).
  simpl. unfold from_sql_u64.
  assert (u64_try_from (map_sum (stream_group_bytes s) (groups db)) =
    Some (map_sum (stream_group_bytes s) (groups db))) as ->
    by (apply u64_try_from_Some; ints).
  simpl. f_equal. apply bool_decide_ext. lia.
Qed.

Lemma delete_group_sum db k g f :
  groups db !! k = Some g ->
  map_sum f (groups db) = f k g + map_sum f (groups (delete_group db k)).
Proof. intros Hg. simpl. by apply map_sum_delete. Qed.

Lemma size_delete_group db k g :
  groups db !! k = Some g -> size (groups db) = S (size (groups (delete_group db k))).
Proof.
  intros Hg. simpl. rewrite map_size_delete_Some by by eexists.
  assert (size (groups db) <> 0)%nat; [|lia].
  intros Hz%map_size_empty_inv. by rewrite Hz in Hg.
Qed.

Lemma retention_loop_spec fuel db s cutoff removed :
  wf db -> stream_bytes db s <= i64_max -> (size (groups db) < fuel)%nat ->
  exists n db', retention_loop cfg fuel db s cutoff removed = Ok ((removed + n)%nat, db') /\
    evictions s cutoff db n db' /\ retention_stable db' s cutoff.
Proof.
  revert db removed. induction fuel as [|fuel IH]; intros db removed Hwf Hmax Hfuel; [lia|].
  cbn [retention_loop]. rewrite bytes_exceeded_Ok by done. cbn [mbind result_bind].
  destruct (oldest_complete db s) as [[k g]|] eqn:Hold.
  2: { exists 0%nat, db. rewrite Nat.add_0_r. unfold retention_stable. rewrite Hold.
       split_and!; [done|constructor|done]. }
  case_decide as Hstop.
  - destruct Hstop as [Hb%bool_decide_eq_false Ha]. exists 0%nat, db. rewrite Nat.add_0_r.
    unfold retention_stable. rewrite Hold. split_and!; [done|constructor|].
    intros [?|?]; tauto.
  - pose proof (oldest_complete_Some _ _ _ _ Hold) as (Hg & Hs & _).
    pose proof (wf_delete_oldest _ _ _ _ Hwf Hold) as Hwf'.
    destruct (IH (delete_group db k) (S removed)) as (n & db' & Hrun & Hev & Hst).
    + done.
    + unfold stream_bytes in *. rewrite (delete_group_sum _ _ _ _ Hg) in Hmax.
      pose proof (wf_group _ Hwf _ _ Hg) as [(_ & _ & _ & _ & _ & ?) _].
      destruct (stream_group_bytes_cases s k g) as [Hz|Hz]; rewrite Hz in Hmax; lia.
    + pose proof (size_delete_group _ _ _ Hg). lia.
    + exists (S n), db'. rewrite Hrun. split_and!; [f_equal; f_equal; lia| |done].
      econstructor; [done| |done]. unfold demanded.
      destruct (decide (is_some_and (fun limit => limit < stream_bytes db s)
        (retention_bytes cfg))) as [|Hb]; [by left|]. right.
      apply dec_stable. intros Ha. apply Hstop. by rewrite bool_decide_eq_false_2.
Qed.

(** What a series of evictions leaves alone. *)
Lemma evictions_frame s cutoff db n db' :
  evictions s cutoff db n db' ->
  streams db' = streams db /\
  (forall k g, groups db' !! k = Some g -> groups db !! k = Some g) /\
  (forall k g, groups db !! k = Some g -> g_complete g = false \/ k.1.1 <> s ->
     groups db' !! k = Some g) /\
  (forall k, objects db' !! k = None \/ objects db' !! k = objects db !! k) /\
  (forall k, envelopes db' !! k = None \/ envelopes db' !! k = envelopes db !! k).
Proof.
  induction 1 as [db|db k g n db' Hold Hd Hev (IH1 & IH2 & IH3 & IH4 & IH5)]; [by eauto 10|].
  apply oldest_complete_Some in Hold as (Hg & Hs & Hc & _). split_and!.
  - done.
  - intros k0 g0 H%IH2. simpl in H. by apply lookup_delete_Some in H as [_ ?].
  - intros k0 g0 Hg0 Hcase. apply IH3; [|done]. simpl. rewrite lookup_delete_ne; [done|].
    intros <-. rewrite Hg in Hg0. injection Hg0 as <-.
    destruct Hcase as [?|Hn]; [congruence|by apply Hn].
  - intros k0. destruct (IH4 k0) as [|Heq]; [by left|]. rewrite Heq. simpl.
    destruct (objects db !! k0) as [o|] eqn:Ho.
    + destruct (decide (object_group k0.1 o = k)).
      * left. apply map_lookup_filter_None. right. intros x Hx Hn. by simplify_eq/=.
      * right. by apply map_lookup_filter_Some.
    + left. apply map_lookup_filter_None. by left.
  - intros k0. destruct (IH5 k0) as [|Heq]; [by left|]. rewrite Heq. simpl.
    destruct (envelopes db !! k0) as [e|] eqn:He.
    + destruct (decide (k0.1 = k)).
      * left. apply map_lookup_filter_None. right. intros x Hx Hn. by simplify_eq/=.
      * right. by apply map_lookup_filter_Some.
    + left. apply map_lookup_filter_None. by left.
Qed.

(** An object whose group survives the evictions survives them. *)
Lemma evictions_object s cutoff db n db' s0 q o g :
  evictions s cutoff db n db' -> objects db !! (s0, q) = Some o ->
  groups db' !! object_group s0 o = Some g -> objects db' !! (s0, q) = Some o.
Proof.
  induction 1 as [|db k g0 n db' Hold Hd Hev IH]; [done|]. intros Ho Hg. apply IH; [|done].
  apply delete_group_object; [done|]. intros <-.
  apply (evictions_frame _ _ _ _ _ Hev) in Hg. simpl in Hg.
  by rewrite lookup_delete_eq in Hg.
Qed.

(** An envelope whose group survives the evictions survives them. *)
Lemma evictions_envelope s cutoff db n db' ek e g :
  evictions s cutoff db n db' -> envelopes db !! ek = Some e ->
  groups db' !! ek.1 = Some g -> envelopes db' !! ek = Some e.
Proof.
  induction 1 as [|db k g0 n db' Hold Hd Hev IH]; [done|]. intros He Hg. apply IH; [|done].
  apply map_lookup_filter_Some. split; [done|]. intros <-.
  apply (evictions_frame _ _ _ _ _ Hev) in Hg. simpl in Hg.
  by rewrite lookup_delete_eq in Hg.
Qed.

(** C34: retention terminates on every well-formed store and is exact: it
    removes complete groups of the stream one at a time, the oldest first, each
    only while the byte or age limit demands it, and stops when the oldest
    complete group is no longer demanded; the incomplete group, the other
    streams and all high-water marks are untouched. *)
Theorem enforce_retention_exact db s now_ms :
  wf db -> stream_bytes db s <= i64_max ->
  exists n db', enforce_retention cfg db s now_ms = Ok (n, db') /\
    evictions s (retention_cutoff cfg now_ms) db n db' /\
    retention_stable db' s (retention_cutoff cfg now_ms) /\
    wf db' /\ streams db' = streams db /\
    forall k g, groups db !! k = Some g -> g_complete g = false \/ k.1.1 <> s ->
      groups db' !! k = Some g.
Proof.
  intros Hwf Hmax.
  destruct (retention_loop_spec (S (size (groups db))) db s (retention_cutoff cfg now_ms) 0)
    as (n & db' & Hrun & Hev & Hst); [done..|lia|].
  exists n, db'. pose proof (evictions_frame _ _ _ _ _ Hev) as (? & _ & ? & _).
  split_and!; try done. by eapply evictions_wf.
Qed.

Lemma bytes_exceeded_inv db s b :
  bytes_exceeded cfg db s = Ok b ->
  b = bool_decide (is_some_and (fun limit => limit < stream_bytes db s) (retention_bytes cfg)).
Proof.
  unfold bytes_exceeded, stream_bytes. destruct (retention_bytes cfg) as [limit|];
    [|by intros [= <-]].
  intros (x & Hx & H)%bind_Ok_inv. apply bind_Ok_inv in H as (y & Hy & [= <-]).
  unfold sql_sum, from_sql_u64 in *. apply ok_or_Ok in Hx, Hy. int_inv.
  apply bool_decide_ext. simpl. lia.
Qed.

Lemma retention_loop_inv fuel db s cutoff removed n db' :
  (size (groups db) < fuel)%nat ->
  retention_loop cfg fuel db s cutoff removed = Ok (n, db') ->
  exists m, n = (removed + m)%nat /\ evictions s cutoff db m db' /\
    retention_stable db' s cutoff.
Proof.
  revert db removed. induction fuel as [|fuel IH]; intros db removed Hfuel H; [lia|].
  cbn [retention_loop] in H. apply bind_Ok_inv in H as (b & ->%bytes_exceeded_inv & H).
  destruct (oldest_complete db s) as [[k g]|] eqn:Hold.
  2: { simplify_eq. exists 0%nat. unfold retention_stable. rewrite Hold.
       split_and!; [lia|constructor|done]. }
  case_decide as Hstop.
  - destruct Hstop as [Hb%bool_decide_eq_false Ha]. simplify_eq. exists 0%nat.
    unfold retention_stable. rewrite Hold. split_and!; [lia|constructor|].
    intros [?|?]; tauto.
  - pose proof (oldest_complete_Some _ _ _ _ Hold) as (Hg & _).
    pose proof (size_delete_group _ _ _ Hg).
    apply IH in H as (m & -> & Hev & Hst); [|lia].
    exists (S m). split_and!; [lia| |done]. econstructor; [done| |done].
    unfold demanded.
    destruct (decide (is_some_and (fun limit => limit < stream_bytes db s)
      (retention_bytes cfg))) as [|Hb]; [by left|]. right.
    apply dec_stable. intros Ha. apply Hstop. by rewrite bool_decide_eq_false_2.
Qed.

Lemma enforce_retention_inv db s now_ms n db' :
  enforce_retention cfg db s now_ms = Ok (n, db') ->
  evictions s (retention_cutoff cfg now_ms) db n db' /\
  retention_stable db' s (retention_cutoff cfg now_ms).
Proof.
  intros (m & -> & ? & ?)%retention_loop_inv; [done|lia].
Qed.

(** A property that every eviction of the oldest complete group preserves is
    preserved by retention. *)
Lemma evictions_preserve (P : Db -> Prop) s cutoff db n db' :
  (forall db k g, P db -> oldest_complete db s = Some (k, g) -> P (delete_group db k)) ->
  evictions s cutoff db n db' -> P db -> P db'.
Proof. intros HP. induction 1; eauto. Qed.

Lemma retention_streams_preserve (P : Db -> Prop) now_ms ids db removed n db' :
  (forall s db k g, P db -> oldest_complete db s = Some (k, g) -> P (delete_group db k)) ->
  enforce_retention_streams cfg db now_ms ids removed = Ok (n, db') -> P db -> P db'.
Proof.
  intros HP. revert db removed. induction ids as [|s ids IH]; intros db removed; simpl.
  - by intros [= <- <-].
  - intros ([m db1] & [Hev _]%enforce_retention_inv & H)%bind_Ok_inv HPdb.
    eapply IH; [done|]. eapply evictions_preserve; eauto.
Qed.
End retention.
