(* ===== verification/StoreOps.v ===== *)
(** What each committed operation of the relay's store does to the tables, in
    the terms of the elementary changes of [StoreInv], and that every reachable
    store is well formed. *)
From Stdlib Require Import ZArith Lia.
From S2P Require Import Prelude Bytes External Toy Identity Native Envelope Codecs Wire NativeTables.
From S2P Require Import NativeStore StoreSample StoreInv StoreRetention.

Lemma to_sql_u64_Ok z f v : to_sql_u64 z f = Ok v <-> v = z /\ i64_ok z.
Proof. unfold to_sql_u64. by rewrite ok_or_Ok, i64_try_from_Some. Qed.

Lemma from_sql_u64_Ok z f v : from_sql_u64 z f = Ok v <-> v = z /\ u64_ok z.
Proof. unfold from_sql_u64. by rewrite ok_or_Ok, u64_try_from_Some. Qed.

Lemma sql_sum_Ok {K V} `{Countable K} (f : K -> V -> Z) (m : gmap K V) ctx v :
  sql_sum f m ctx = Ok v <-> v = map_sum f m /\ i64_ok (map_sum f m).
Proof. unfold sql_sum. by rewrite ok_or_Ok, i64_try_from_Some. Qed.

Section ops.
Context `{crypto : !Crypto}.
Context `{!Postcard IdentityPublic, !Postcard StreamDescriptorBody}.
Context `{!Postcard StreamDescriptor, !Postcard NativeObjectHeader}.
Context `{!Postcard NativeObjectClaim, !Postcard NativeObject}.
Context `{!Postcard KeyEnvelopeHeader, !Postcard UnsignedEnvelope, !Postcard KeyEnvelope}.
Context (cfg : StoreConfig).

(** * Entering a group *)

(** The tables before the object's group is entered: a change of group has
    completed the previous one. *)
Definition group_base (db : Db) (s : uuid) (r : StreamRow) (e : uuid) (n : Z) : Db :=
  if decide (s_active_epoch r <> Some e \/ s_active_group r <> Some n) then
    match s_active_epoch r, s_active_group r with
    | Some e0, Some n0 =>
        match groups db !! (s, e0, n0) with
        | Some g => close_group db (s, e0, n0) r g
        | None => db
        end
    | _, _ => db
    end
  else db.

(** The stream row in those tables. *)
Definition base_row (r : StreamRow) (e : uuid) (n : Z) : StreamRow :=
  if decide (s_active_epoch r <> Some e \/ s_active_group r <> Some n) then
    set_active None None r
  else r.

Lemma group_base_spec db s r e n :
  wf db -> streams db !! s = Some r ->
  wf (group_base db s r e n) /\
  streams (group_base db s r e n) !! s = Some (base_row r e n) /\
  objects (group_base db s r e n) = objects db /\
  envelopes (group_base db s r e n) = envelopes db /\
  (forall r', <[s := r']> (streams (group_base db s r e n)) = <[s := r']> (streams db)).
Proof.
  intros Hwf Hr. unfold group_base, base_row. case_decide as Hch; [|done].
  destruct (s_active_epoch r) as [e0|] eqn:He, (s_active_group r) as [n0|] eqn:Hn.
  - destruct (wf_active_group _ Hwf _ _ _ _ Hr He Hn) as (g & Hg & _). rewrite Hg. split_and!.
    + by eapply wf_close.
    + simpl. by rewrite lookup_insert_eq.
    + done.
    + done.
    + intros r'. simpl. by rewrite insert_insert_eq.
  - pose proof (wf_active _ Hwf _ _ Hr) as Ha. by rewrite He, Hn in Ha.
  - pose proof (wf_active _ Hwf _ _ Hr) as Ha. by rewrite He, Hn in Ha.
  - split_and!; try done. rewrite Hr. f_equal. destruct r; simpl in *. by subst.
Qed.

(** The groups of the base: the previous one is complete, the others are as
    they were, and all complete unless the object continues the active group. *)
Lemma group_base_groups db s r e n :
  wf db -> streams db !! s = Some r ->
  (forall k g, groups (group_base db s r e n) !! k = Some g ->
     exists g0, groups db !! k = Some g0 /\ (g = g0 \/ g = mark_complete g0)) /\
  (forall k g0, groups db !! k = Some g0 ->
     exists g, groups (group_base db s r e n) !! k = Some g /\ (g = g0 \/ g = mark_complete g0)).
Proof.
  intros Hwf Hr. unfold group_base. case_decide as Hch; [|by eauto 10].
  destruct (s_active_epoch r) as [e0|], (s_active_group r) as [n0|]; try by eauto 10.
  destruct (groups db !! (s, e0, n0)) as [g1|] eqn:Hg; [|by eauto 10].
  simpl. split.
  - intros k g H. lookups; eauto 10.
  - intros k g0 H. destruct (decide ((s, e0, n0) = k)) as [<-|].
    + rewrite lookup_insert_eq. simplify_eq. eauto 10.
    + rewrite lookup_insert_ne by done. eauto 10.
Qed.

Lemma group_base_others db s r e n k g :
  wf db -> streams db !! s = Some r -> groups (group_base db s r e n) !! k = Some g ->
  k.1.1 = s -> k <> (s, e, n) -> g_complete g = true.
Proof.
  intros Hwf Hr Hg Hs Hne. destruct (g_complete g) eqn:Hc; [done|]. exfalso.
  destruct (group_base_spec _ _ _ e n Hwf Hr) as (Hwf' & Hr' & _).
  destruct (wf_incomplete _ Hwf' _ _ Hg Hc) as (r0 & Hr0 & He & Hn).
  rewrite Hs, Hr' in Hr0. injection Hr0 as <-. unfold base_row in *.
  case_decide as Hch; [done|]. destruct k as [[s0 e0] n0]. simpl in *. subst s0.
  apply Hne. repeat f_equal; [|].
  - destruct (decide (s_active_epoch r = Some e)); [congruence|tauto].
  - destruct (decide (s_active_group r = Some n)); [congruence|tauto].
Qed.

(** The tables once the group is entered: the group row exists. *)
Record entered (db : Db) (s : uuid) (r : StreamRow) (o : NativeObject) (q n now : Z)
    (db1 : Db) : Prop := {
  ent_streams : <[s := set_active (Some (h_epoch_id (header o))) (Some n) r]> (streams db) =
                streams db1;
  ent_objects : objects db1 = objects db;
  ent_envelopes : envelopes db1 = envelopes db;
  ent_group :
    let k := (s, h_epoch_id (header o), n) in
    let base := group_base db s r (h_epoch_id (header o)) n in
    exists g, groups db1 = <[k := g]> (groups base) /\ g_complete g = false /\
      g_key_id g = h_key_id (header o) /\
      match groups base !! k with
      | Some g0 => g = g0 /\ g_last_sequence g = s_high_water r
      | None => g = new_group o q (h_timestamp (header o)) now /\
                h_random_access (header o) = true /\ h_kind (header o) <> Cursor
      end;
}.

Lemma enter_group_entered db s r o q n now db1 :
  wf db -> streams db !! s = Some r -> h_stream_id (header o) = s ->
  enter_group db r o q n now = Ok db1 -> entered db s r o q n now db1.
Proof.
  intros Hwf Hr <- H. unfold enter_group in H. unfold group_base.
  case_decide as Hch.
  - apply bind_Ok_inv in H as (db0 & H0 & H). rewrite unit_bind in H. destruct H as [Hprog H].
    apply bind_Ok_inv in H as (ts & [-> Hts]%to_sql_u64_Ok & H).
    apply bind_Ok_inv in H as (db2 & H2 & H).
    apply insert_group_Ok in H2 as (Hfresh & Hchk & _ & ->).
    assert (h_random_access (header o) = true /\ h_kind (header o) <> Cursor) as Hra.
    { unfold validate_group_progression in Hprog. rewrite unit_bind, reject_if_Ok in Hprog.
      destruct Hprog as [_ Hn]. nor_inv. by apply not_false_iff_true in Hn. }
    assert (streams db0 = streams db /\ objects db0 = objects db /\ envelopes db0 = envelopes db
      /\ groups db0 = groups (group_base db (h_stream_id (header o)) r
                                (h_epoch_id (header o)) n)) as (Hs0 & Ho0 & He0 & Hg0).
    { unfold group_base. rewrite decide_True by done. unfold complete_active in H0.
      destruct (s_active_epoch r) as [e0|] eqn:He, (s_active_group r) as [n0|] eqn:Hn;
        try by simplify_eq.
      destruct (wf_active_group _ Hwf _ _ _ _ Hr He Hn) as (g & Hg & _). rewrite Hg.
      apply update_group_Ok in H0 as [[? _]|(g0 & g1 & Hg0 & [= <-] & _ & ->)]; [congruence|].
      simplify_eq. done. }
    apply update_stream_Ok in H as [[Hn _]|(r1 & Hr1 & _ & ->)]; simpl in *;
      [rewrite Hs0 in Hn; congruence|].
    rewrite Hs0, Hr in Hr1. injection Hr1 as <-. split; simpl.
    + by rewrite Hs0.
    + done.
    + done.
    + eexists. rewrite Hg0 in *. split; [done|]. split_and!; [done|done|].
      rewrite Hfresh. done.
  - apply bind_Ok_inv in H as (g & Hg%ok_or_Ok & H). rewrite guard_bind in H.
    destruct H as [Hkey%dec_stable [= <-]].
    assert (s_active_epoch r = Some (h_epoch_id (header o)) /\ s_active_group r = Some n)
      as [He Hn].
    { split; apply dec_stable; tauto. }
    destruct (wf_active_group _ Hwf _ _ _ _ Hr He Hn) as (g0 & Hg0 & Hc & Hl).
    simplify_eq. split; try done.
    + rewrite insert_id; [done|]. rewrite Hr. f_equal. destruct r. simpl in *. by subst.
    + unfold group_base. rewrite decide_False by done. exists g. simpl.
      rewrite insert_id by done. rewrite Hg. done.
Qed.

(** * Appending an object *)

Definition object_row (o : NativeObject) (n now : Z) (enc : bytes) : ObjectRow :=
  {| o_epoch_id := h_epoch_id (header o); o_key_group := n; o_received_at_ms := now;
     o_object := enc |}.

(** The stream row after the append. *)
Definition appended_row (r : StreamRow) (o : NativeObject) (n q : Z) : StreamRow :=
  set_high_water q (set_active (Some (h_epoch_id (header o))) (Some n) r).

Lemma append_object_Ok db s r o q n now db1 enc db2 :
  entered db s r o q n now db1 -> h_stream_id (header o) = s ->
  append_object db1 o enc q n now = Ok db2 ->
  let k := (s, h_epoch_id (header o), n) in
  exists g1 g', groups db1 !! k = Some g1 /\
    grow_group q (h_timestamp (header o)) now (zlen enc) g1 = Some g' /\
    group_check k g' /\ h_timestamp (header o) <= i64_max /\
    object_check (s, q) (object_row o n now enc) /\ objects db !! (s, q) = None /\
    db2 = append_db db1 k (appended_row r o n q) g' q (object_row o n now enc) /\
    db2 = append_db (group_base db s r (h_epoch_id (header o)) n) k
            (appended_row r o n q) g' q (object_row o n now enc).
Proof.
  intros [Hstr Hobj Henv (g & Hgr & _)] <- H. unfold append_object in H.
  apply bind_Ok_inv in H as (dba & Ha & H).
  apply insert_object_Ok in Ha as (Hfresh & Hochk & ->).
  apply bind_Ok_inv in H as (ob & [-> Hob]%to_sql_u64_Ok & H).
  apply bind_Ok_inv in H as (ts & [-> Hts]%to_sql_u64_Ok & H).
  apply bind_Ok_inv in H as (dbb & Hb & H).
  set (s := h_stream_id (header o)) in *. set (k := (s, h_epoch_id (header o), n)) in *.
  assert (groups db1 !! k = Some g) as Hg1 by by rewrite Hgr, lookup_insert_eq.
  apply update_group_Ok in Hb as [[Hn _]|(g1 & g' & Hg & Hgrow & Hchk & ->)];
    [simpl in Hn; congruence|]. simpl in Hg.
  apply update_stream_Ok in H as [[Hn _]|(r1 & Hr1 & _ & ->)]; simpl in *.
  { rewrite <-Hstr, lookup_insert_eq in Hn. done. }
  rewrite <-Hstr, lookup_insert_eq in Hr1. injection Hr1 as <-.
  exists g1, g'. split_and!; try done; try (unfold i64_ok in *; lia).
  - by rewrite <-Hobj.
  - unfold append_db, set_streams, set_groups, set_objects. simpl. f_equal.
    + by rewrite <-Hstr, insert_insert_eq; unfold group_base; case_decide;
        repeat case_match; simpl; rewrite ?insert_insert_eq.
    + by rewrite Hgr, insert_insert_eq.
    + rewrite Hobj. f_equal. unfold group_base. by repeat case_match.
    + rewrite Henv. unfold group_base. by repeat case_match.
Qed.

(** The outcome of an object that was not stored before. *)
Record object_inserted (db : Db) (o : NativeObject) (now : Z) (commit : NativeCommit)
    (db' : Db) : Prop := {
  ins_descriptor : exists d pid,
    descriptor_in db (h_stream_id (header o)) = Ok (Some d) /\
    identity_id (desc_publisher (desc_body d)) = Ok pid /\
    exists enc, object_encode o (desc_publisher (desc_body d)) = Ok enc /\
    let s := h_stream_id (header o) in
    let q := h_sequence (header o) in
    let n := h_key_group (header o) in
    let k := (s, h_epoch_id (header o), n) in
    exists r db1 g1 g' db2 m,
      streams db !! s = Some r /\ q = s_high_water r + 1 /\ q <= i64_max /\ i64_ok n /\
      entered db s r o q n now db1 /\
      check_group_growth cfg db1
        {| gr_publisher_id := pid; gr_stream_id := s; gr_epoch_id := h_epoch_id (header o);
           gr_key_group := n; gr_added_bytes := zlen enc; gr_item_kind := GroupObject |} = Ok tt /\
      groups db1 !! k = Some g1 /\
      grow_group q (h_timestamp (header o)) now (zlen enc) g1 = Some g' /\
      group_check k g' /\ h_timestamp (header o) <= i64_max /\ 0 < n /\
      objects db !! (s, q) = None /\
      db2 = append_db db1 k (appended_row r o n q) g' q (object_row o n now enc) /\
      db2 = append_db (group_base db s r (h_epoch_id (header o)) n) k
              (appended_row r o n q) g' q (object_row o n now enc) /\
      enforce_retention cfg db2 s now = Ok (m, db') /\
      commit = {| committed_through := q; evicted_groups := m; inserted := true |};
}.

(** The outcome of a byte-identical retry. *)
Definition object_retried (db : Db) (o : NativeObject) (commit : NativeCommit) (db' : Db) : Prop :=
  db' = db /\
  commit = {| committed_through := h_sequence (header o); evicted_groups := 0;
              inserted := false |} /\
  exists d row, descriptor_in db (h_stream_id (header o)) = Ok (Some d) /\
    objects db !! (h_stream_id (header o), h_sequence (header o)) = Some row /\
    object_encode o (desc_publisher (desc_body d)) = Ok (o_object row).

Lemma store_object_Ok db o now commit db' :
  wf db -> store_object cfg db o now = Ok (commit, db') ->
  object_retried db o commit db' \/ object_inserted db o now commit db'.
Proof.
  intros Hwf H. unfold store_object in H. rewrite unit_bind in H. destruct H as [_ H].
  apply bind_Ok_inv in H as (od & Hd & H). apply bind_Ok_inv in H as (d & Hsome%ok_or_Ok & H).
  subst od. rewrite unit_bind in H. destruct H as [_ H].
  apply bind_Ok_inv in H as (enc & Henc%context_Ok & H).
  apply bind_Ok_inv in H as (q & [-> Hq]%to_sql_u64_Ok & H).
  destruct (objects db !! _) as [row|] eqn:Hrow.
  - left. rewrite guard_bind in H. destruct H as [Heq%dec_stable H]. simplify_eq.
    split_and!; try done. by exists d, row.
  - right. apply bind_Ok_inv in H as (r & Hr%ok_or_Ok & H).
    apply bind_Ok_inv in H as (x & Hx%ok_or_Ok & H). apply i64_checked_add_Some in Hx as [-> Hx].
    rewrite guard_bind in H. destruct H as [Heq%dec_stable H].
    apply bind_Ok_inv in H as (n & [-> Hn]%to_sql_u64_Ok & H).
    apply bind_Ok_inv in H as (db1 & H1 & H).
    apply bind_Ok_inv in H as (pid & Hpid%context_Ok & H).
    rewrite unit_bind in H. destruct H as [Hgrow H].
    apply bind_Ok_inv in H as (db2 & H2 & H). apply bind_Ok_inv in H as ([m db3] & H3 & H).
    simplify_eq. pose proof (enter_group_entered _ _ _ _ _ _ _ _ Hwf Hr eq_refl H1) as Hent.
    destruct (append_object_Ok _ _ _ _ _ _ _ _ _ _ Hent eq_refl H2)
      as (g1 & g' & ? & ? & ? & ? & [_ ?] & ? & ? & ?).
    split. exists d, pid. split_and!; [done..|]. exists enc. split; [done|]. simpl.
    exists r, db1, g1, g', db2, m. unfold i64_ok in *. split_and!; try done; lia.
Qed.

(** * Well-formedness of every operation *)

Lemma grow_group_Some q ts now added g g' :
  grow_group q ts now added g = Some g' ->
  g_key_id g' = g_key_id g /\ g_first_sequence g' = g_first_sequence g /\
  g_last_sequence g' = q /\ g_last_timestamp g' = ts /\ g_complete g' = g_complete g /\
  g_retained_bytes g' = g_retained_bytes g + added /\ g_retained_bytes g' <= i64_max.
Proof.
  unfold grow_group. intros (x & [-> Hx]%i64_checked_add_Some & [= <-])%bind_Some.
  unfold i64_ok in Hx. by split_and!; try done; simpl; lia.
Qed.

Lemma entered_append_wf db s r o q n now db1 enc g1 g' :
  wf db -> streams db !! s = Some r -> h_stream_id (header o) = s ->
  entered db s r o q n now db1 -> q = s_high_water r + 1 -> q <= i64_max -> i64_ok n ->
  let k := (s, h_epoch_id (header o), n) in
  groups db1 !! k = Some g1 ->
  grow_group q (h_timestamp (header o)) now (zlen enc) g1 = Some g' ->
  group_check k g' -> h_timestamp (header o) <= i64_max ->
  wf (append_db (group_base db s r (h_epoch_id (header o)) n) k (appended_row r o n q) g' q
        (object_row o n now enc)).
Proof.
  intros Hwf Hr Hs Hent Hq Hq64 Hn k Hg1 Hgrow Hchk Hts.
  destruct (group_base_spec _ _ _ (h_epoch_id (header o)) n Hwf Hr) as (Hbwf & Hbr & _).
  destruct (ent_group _ _ _ _ _ _ _ _ Hent) as (g & Hgr & Hinc & Hkey & Hcase).
  assert (g1 = g) as ->. { rewrite Hgr, lookup_insert_eq in Hg1. by simplify_eq. }
  apply grow_group_Some in Hgrow as (Hkid & Hf & Hl & Hlt & Hc & Hrb & Hrb64).
  assert (s_high_water (base_row r (h_epoch_id (header o)) n) = s_high_water r) as Hhw
    by (unfold base_row; by case_decide).
  eapply wf_append; try done; simpl; rewrite ?Hhw; try done; try lia.
  - unfold i64_ok in Hn. lia.
  - congruence.
  - rewrite Hrb. fold k in Hcase.
    destruct (groups (group_base db s r (h_epoch_id (header o)) n) !! k) as [g0|];
      destruct Hcase as [-> _]; done.
  - fold k in Hcase.
    destruct (groups (group_base db s r (h_epoch_id (header o)) n) !! k) as [g0|];
      destruct Hcase as [-> ?]; done.
  - intros k0 g0 Hg0 Hks Hne. by apply (group_base_others db s r (h_epoch_id (header o)) n k0).
Qed.

Lemma store_object_wf db o now commit db' :
  wf db -> store_object cfg db o now = Ok (commit, db') -> wf db'.
Proof.
  intros Hwf [[-> _]|[Hins]]%store_object_Ok; [done| |done].
  destruct Hins as (d & pid & _ & _ & enc & _ & Hins). simpl in Hins.
  destruct Hins as (r & db1 & g1 & g' & db2 & m & Hr & Hq & Hq64 & Hn & Hent & _ & Hg1 & Hgrow &
    Hchk & Hts & Hn0 & _ & _ & -> & Hret & _).
  apply enforce_retention_inv in Hret as [Hev _].
  eapply evictions_wf; [done|]. by eapply entered_append_wf.
Qed.

(** The outcome of an envelope that is stored. *)
Lemma store_envelope_Ok db e now stored db' :
  store_envelope cfg db e now = Ok (stored, db') ->
  (stored = false /\ db' = db) \/
  exists d pid enc g g' m,
    stored = true /\
    let h := env_header e in
    let k := (eh_stream_id h, eh_epoch_id h, eh_key_group_id h) in
    let row := {| e_key_id := eh_key_id h; e_received_at_ms := now; e_envelope := enc |} in
    descriptor_in db (eh_stream_id h) = Ok (Some d) /\
    identity_id (desc_publisher (desc_body d)) = Ok pid /\
    envelope_encode e (desc_publisher (desc_body d)) = Ok enc /\
    groups db !! k = Some g /\ g_key_id g = eh_key_id h /\
    envelopes db !! (k, eh_recipient_id h) = None /\
    check_group_growth cfg db
      {| gr_publisher_id := pid; gr_stream_id := eh_stream_id h; gr_epoch_id := eh_epoch_id h;
         gr_key_group := eh_key_group_id h; gr_added_bytes := zlen enc;
         gr_item_kind := GroupEnvelope |} = Ok tt /\
    add_envelope_bytes (zlen enc) g = Some g' /\ group_check k g' /\
    enforce_retention cfg (add_envelope_db db k g' (eh_recipient_id h) row)
      (eh_stream_id h) now = Ok (m, db').
Proof.
  intros H. unfold store_envelope in H. rewrite unit_bind in H. destruct H as [_ H].
  apply bind_Ok_inv in H as (od & Hd & H). apply bind_Ok_inv in H as (d & Hsome%ok_or_Ok & H).
  subst od. rewrite unit_bind in H. destruct H as [_ H].
  apply bind_Ok_inv in H as (enc & Henc%context_Ok & H).
  apply bind_Ok_inv in H as (n & [-> Hn]%to_sql_u64_Ok & H).
  destruct (groups db !! _) as [g|] eqn:Hg; [|simplify_eq; by left].
  rewrite guard_bind in H. destruct H as [Hkey%dec_stable H].
  destruct (envelopes db !! _) as [row|] eqn:Hrow; [simplify_eq; by left|]. right.
  apply bind_Ok_inv in H as (pid & Hpid%context_Ok & H).
  rewrite unit_bind in H. destruct H as [Hgrow H].
  apply bind_Ok_inv in H as (dba & [_ ->]%insert_envelope_Ok & H).
  apply bind_Ok_inv in H as (len & [-> Hlen]%to_sql_u64_Ok & H).
  apply bind_Ok_inv in H as (dbb & Hb & H).
  apply update_group_Ok in Hb as [[Hnone _]|(g0 & g' & Hg0 & Hadd & Hchk & ->)];
    [simpl in Hnone; congruence|]. simpl in Hg0. rewrite Hg in Hg0. injection Hg0 as <-.
  apply bind_Ok_inv in H as ([m db3] & Hret & H). simplify_eq.
  exists d, pid, enc, g, g', m. by split_and!.
Qed.

Lemma store_envelope_wf db e now stored db' :
  wf db -> store_envelope cfg db e now = Ok (stored, db') -> wf db'.
Proof.
  intros Hwf [[_ ->]|(d & pid & enc & g & g' & m & _ & Hins)]%store_envelope_Ok; [done|].
  destruct Hins as (_ & _ & _ & Hg & Hkey & Hfresh & _ & Hadd & Hchk & Hret).
  apply enforce_retention_inv in Hret as [Hev _].
  eapply evictions_wf; [done|]. by eapply wf_add_envelope.
Qed.

Lemma put_descriptor_Ok db d db' :
  put_descriptor cfg db d = Ok db' ->
  exists enc pid, descriptor_encode d = Ok enc /\
    identity_id (desc_publisher (desc_body d)) = Ok pid /\
    let s := desc_stream_id (desc_body d) in
    match streams db !! s with
    | Some r => s_publisher_id r = pid /\
        db' = set_streams <[s := {| s_publisher_id := s_publisher_id r; s_descriptor := enc;
          s_high_water := s_high_water r; s_active_epoch := s_active_epoch r;
          s_active_group := s_active_group r |}]> db
    | None =>
        count_or_max (stream_count db) < max_streams (limits cfg) /\
        count_or_max (publisher_stream_count db pid) <
          max_streams_per_publisher (limits cfg) /\
        db' = set_streams <[s := {| s_publisher_id := pid; s_descriptor := enc;
          s_high_water := 0; s_active_epoch := None; s_active_group := None |}]> db
    end.
Proof.
  intros H. unfold put_descriptor in H.
  apply bind_Ok_inv in H as (enc & Henc%context_Ok & H).
  apply bind_Ok_inv in H as (pid & Hpid%context_Ok & H).
  exists enc, pid. split_and!; [done..|]. simpl.
  destruct (streams db !! _) as [r|] eqn:Hr.
  - rewrite guard_bind in H. destruct H as [Hp%dec_stable H]. split; [done|].
    case_decide as Hd.
    + apply update_stream_Ok in H as [[? _]|(r' & Hr' & _ & ->)]; congruence.
    + injection H as <-. unfold set_streams.
      rewrite insert_id; [by destruct db|]. rewrite Hr. f_equal.
      destruct r. simpl in *. by subst.
  - rewrite guard_bind in H. destruct H as [Hlim H]. nor_inv.
    split_and!; [lia..|]. unfold insert_stream in H. rewrite !guard_bind in H.
    destruct H as (_ & _ & [= <-]). done.
Qed.

Lemma put_descriptor_wf db d db' : wf db -> put_descriptor cfg db d = Ok db' -> wf db'.
Proof.
  intros Hwf (enc & pid & _ & _ & H)%put_descriptor_Ok. simpl in H.
  destruct (streams db !! _) as [r|] eqn:Hr.
  - destruct H as [_ ->]. by eapply wf_update_stream.
  - destruct H as (_ & _ & ->). by apply wf_new_stream.
Qed.

Lemma finalize_stream_Ok db s db' :
  wf db -> finalize_stream db s = Ok db' ->
  db' = db \/
  exists r e n g, streams db !! s = Some r /\ s_active_epoch r = Some e /\
    s_active_group r = Some n /\ groups db !! (s, e, n) = Some g /\
    db' = close_group db (s, e, n) r g.
Proof.
  intros Hwf H. unfold finalize_stream in H.
  destruct (streams db !! s) as [[pid desc hw [e|] [n|]]|] eqn:Hr; try by (simplify_eq; left).
  right. apply bind_Ok_inv in H as (db0 & H0 & H). simpl in H0.
  destruct (wf_active_group _ Hwf _ _ _ _ Hr eq_refl eq_refl) as (g & Hg & _).
  apply update_group_Ok in H0 as [[? _]|(g0 & g1 & Hg0 & [= <-] & _ & ->)]; [congruence|].
  rewrite Hg in Hg0. injection Hg0 as <-.
  apply update_stream_Ok in H as [[Hn _]|(r & Hr' & _ & ->)]; simpl in *; [congruence|].
  rewrite Hr in Hr'. injection Hr' as <-. by eexists _, e, n, g.
Qed.

Lemma finalize_stream_wf db s db' : wf db -> finalize_stream db s = Ok db' -> wf db'.
Proof.
  intros Hwf [->|(r & e & n & g & ? & ? & ? & ? & ->)]%finalize_stream_Ok; [done| |done].
  by eapply wf_close.
Qed.

Lemma store_step_wf db db' : wf db -> store_step cfg db db' -> wf db'.
Proof.
  intros Hwf [d db1 H|o now c db1 H|e now b db1 H|now n db1 H|s db1 H].
  - by eapply put_descriptor_wf.
  - by eapply store_object_wf.
  - by eapply store_envelope_wf.
  - eapply (retention_streams_preserve cfg wf); [|done..]. by eauto using wf_delete_oldest.
  - by eapply finalize_stream_wf.
Qed.

Lemma reachable_wf db : reachable cfg db -> wf db.
Proof. induction 1 as [|db db' _ IH Hstep]; [apply wf_empty | by eapply store_step_wf]. Qed.
End ops.

(** ** Witness of [StoreRetention.enforce_retention_exact]: an hour and more
    later the complete group of the sample is evicted. *)
Lemma enforce_retention_exact_witness :
  exists n db', enforce_retention sample_config sample_db sample_stream 4000000 = Ok (n, db') /\
    retention_stable sample_config db' sample_stream
      (retention_cutoff sample_config 4000000).
Proof.
  destruct (enforce_retention_exact sample_config sample_db sample_stream 4000000)
    as (n & db' & Hrun & _ & Hst & _); [|vm_compute; discriminate|eauto].
  apply (reachable_wf sample_config), sample_reachable.
Defined.
