(* ===== verification/StoreContent.v ===== *)
(** What the rows of the relay's store contain: every stored object and
    envelope is the canonical encoding of a verified value of the stream's
    publisher, filed under the keys of its own header.  From it follow durable
    retrieval and the idempotence of retries. *)
From Stdlib Require Import ZArith Lia.
From S2P Require Import Prelude Bytes External Toy Identity Native Envelope Codecs Wire NativeTables.
From S2P Require Import NativeStore StoreSample StoreInv StoreRetention StoreOps.

Section content.
Context `{crypto : !Crypto}.
Context `{!Postcard IdentityPublic, !Postcard StreamDescriptorBody}.
Context `{!Postcard StreamDescriptor, !Postcard NativeObjectHeader}.
Context `{!Postcard NativeObjectClaim, !Postcard NativeObject}.
Context `{!Postcard KeyEnvelopeHeader, !Postcard UnsignedEnvelope, !Postcard KeyEnvelope}.
Context `{!PostcardLaws StreamDescriptor, !PostcardLaws NativeObject}.
Context `{!PostcardLaws KeyEnvelope}.
Context (cfg : StoreConfig).

(** The three codecs of what the relay stores are inverse and canonical:
    bytes decode to a descriptor, an object or an envelope exactly when they are
    the encoding of that value under the same publisher, so that every stored
    value has one byte form and no other bytes are accepted for it. *)
Theorem stored_codecs_canonical l publisher :
  (forall d, descriptor_decode l = Ok d <-> descriptor_encode d = Ok l) /\
  (forall o, object_decode l publisher = Ok o <-> object_encode o publisher = Ok l) /\
  (forall e, envelope_decode l publisher = Ok e <-> envelope_encode e publisher = Ok l).
Proof.
  split_and!; intros; [apply descriptor_codec_iff|apply object_codec_iff|apply envelope_codec_iff].
Qed.

(** The row of a stream holds a valid descriptor of its publisher. *)
Definition stream_content (s : uuid) (r : StreamRow) : Prop :=
  exists d, descriptor_encode d = Ok (s_descriptor r) /\
    desc_stream_id (desc_body d) = s /\
    identity_id (desc_publisher (desc_body d)) = Ok (s_publisher_id r).

(** The row of an object holds a verified object of its place. *)
Definition object_content (pid : array 32) (key_id : array 16) (s : uuid) (q : Z)
    (row : ObjectRow) : Prop :=
  exists o p, object_encode o p = Ok (o_object row) /\ identity_id p = Ok pid /\
    h_stream_id (header o) = s /\ h_sequence (header o) = q /\
    h_epoch_id (header o) = o_epoch_id row /\ h_key_group (header o) = o_key_group row /\
    h_key_id (header o) = key_id.

(** The row of an envelope holds a verified envelope of its place. *)
Definition envelope_content (pid : array 32) (ek : envelope_key) (row : EnvelopeRow) : Prop :=
  exists e p, envelope_encode e p = Ok (e_envelope row) /\ identity_id p = Ok pid /\
    ((eh_stream_id (env_header e), eh_epoch_id (env_header e)), eh_key_group_id (env_header e))
      = ek.1 /\
    eh_recipient_id (env_header e) = ek.2 /\ eh_key_id (env_header e) = e_key_id row.

Record content (db : Db) : Prop := {
  ct_stream s r : streams db !! s = Some r -> stream_content s r;
  ct_object s q row :
    objects db !! (s, q) = Some row ->
    exists r g, streams db !! s = Some r /\ groups db !! object_group s row = Some g /\
      object_content (s_publisher_id r) (g_key_id g) s q row;
  ct_envelope ek row :
    envelopes db !! ek = Some row ->
    exists r, streams db !! ek.1.1.1 = Some r /\ envelope_content (s_publisher_id r) ek row;
}.

Lemma content_empty : content empty_db.
Proof. split; simpl; intros *; by rewrite lookup_empty. Qed.

Lemma descriptor_in_content db s d :
  content db -> descriptor_in db s = Ok (Some d) ->
  exists r, streams db !! s = Some r /\
    identity_id (desc_publisher (desc_body d)) = Ok (s_publisher_id r) /\
    descriptor_encode d = Ok (s_descriptor r).
Proof.
  intros Hct H. unfold descriptor_in in H. apply opt_traverse_Ok in H.
  destruct (streams db !! s) as [r|] eqn:Hr; simpl in H; [|done].
  destruct H as (d' & Hd%context_Ok & [= <-]). apply descriptor_codec_iff in Hd.
  exists r. split_and!; try done.
  destruct (ct_stream _ Hct _ _ Hr) as (d0 & Hd0 & _ & Hid).
  apply descriptor_codec_iff in Hd0, Hd. rewrite Hd in Hd0. by simplify_eq.
Qed.

(** A well-filed store answers every descriptor query. *)
Lemma descriptor_in_total db s r :
  content db -> streams db !! s = Some r ->
  exists d, descriptor_in db s = Ok (Some d) /\
    identity_id (desc_publisher (desc_body d)) = Ok (s_publisher_id r).
Proof.
  intros Hct Hr. destruct (ct_stream _ Hct _ _ Hr) as (d & Hd & _ & Hid).
  exists d. split; [|done]. apply descriptor_codec_iff in Hd.
  unfold descriptor_in. rewrite Hr. simpl. by rewrite Hd.
Qed.

(** * Preservation *)

(** Changes that keep publishers and group keys keep the content of old rows. *)
Lemma content_frame db db' :
  content db ->
  (forall s r, streams db' !! s = Some r -> stream_content s r) ->
  (forall s r, streams db !! s = Some r ->
     exists r', streams db' !! s = Some r' /\ s_publisher_id r' = s_publisher_id r) ->
  (forall s q row, objects db' !! (s, q) = Some row -> objects db !! (s, q) = Some row /\
     (forall g, groups db !! object_group s row = Some g ->
        exists g', groups db' !! object_group s row = Some g' /\ g_key_id g' = g_key_id g)) ->
  (forall ek row, envelopes db' !! ek = Some row -> envelopes db !! ek = Some row) ->
  content db'.
Proof.
  intros Hct Hs Hp Ho He. split; [done| |].
  - intros s q row H. destruct (Ho _ _ _ H) as [H0 Hg].
    destruct (ct_object _ Hct _ _ _ H0) as (r & g & Hr & Hgr & Hc).
    destruct (Hp _ _ Hr) as (r' & ? & Hpid). destruct (Hg _ Hgr) as (g' & ? & Hkey).
    exists r', g'. by rewrite Hpid, Hkey.
  - intros ek row H%He. destruct (ct_envelope _ Hct _ _ H) as (r & Hr & Hc).
    destruct (Hp _ _ Hr) as (r' & ? & Hpid). exists r'. by rewrite Hpid.
Qed.

Lemma content_delete db s k g :
  wf db -> content db -> oldest_complete db s = Some (k, g) -> content (delete_group db k).
Proof.
  intros Hwf Hct _. eapply content_frame; simpl; eauto.
  - apply Hct.
  - intros s0 q row H. apply map_lookup_filter_Some in H as [H Hne]. split; [done|].
    intros g0 Hg0. exists g0. rewrite lookup_delete_ne; [done|]. by intros ->.
  - intros ek row H. by apply map_lookup_filter_Some in H as [H _].
Qed.

Lemma content_set_stream db s r r' :
  content db -> streams db !! s = Some r -> s_publisher_id r' = s_publisher_id r ->
  s_descriptor r' = s_descriptor r -> content (set_streams <[s := r']> db).
Proof.
  intros Hct Hr Hp Hd. eapply content_frame; simpl; eauto.
  - intros s0 r0 H. lookups; [|by apply Hct]. destruct (ct_stream _ Hct _ _ Hr) as (d & ?).
    exists d. by rewrite Hp, Hd.
  - intros s0 r0 H. destruct (decide (s = s0)) as [<-|].
    + exists r'. rewrite lookup_insert_eq. by simplify_eq.
    + exists r0. by rewrite lookup_insert_ne.
Qed.

Lemma content_set_group db k g g' :
  content db -> groups db !! k = Some g -> g_key_id g' = g_key_id g ->
  content (set_groups <[k := g']> db).
Proof.
  intros Hct Hg Hk. eapply content_frame; simpl; eauto; [apply Hct|].
  intros s q row H. split; [done|]. intros g0 Hg0.
  destruct (decide (k = object_group s row)) as [->|].
  - exists g'. rewrite lookup_insert_eq. by simplify_eq.
  - exists g0. by rewrite lookup_insert_ne.
Qed.

Lemma content_close db k r g :
  content db -> streams db !! k.1.1 = Some r -> groups db !! k = Some g ->
  content (close_group db k r g).
Proof.
  intros Hct Hr Hg. unfold close_group. eapply content_set_stream; [|done..].
  by eapply content_set_group.
Qed.

Lemma content_base db s r e n :
  wf db -> content db -> streams db !! s = Some r -> content (group_base db s r e n).
Proof.
  intros Hwf Hct Hr. unfold group_base. repeat case_match; try done. by apply content_close.
Qed.

Lemma content_append db k r r' g' q row :
  wf db -> content db -> streams db !! k.1.1 = Some r -> s_publisher_id r' = s_publisher_id r ->
  s_descriptor r' = s_descriptor r -> object_group k.1.1 row = k ->
  match groups db !! k with Some g => g_key_id g' = g_key_id g | None => True end ->
  object_content (s_publisher_id r) (g_key_id g') k.1.1 q row ->
  content (append_db db k r' g' q row).
Proof.
  intros Hwf Hct Hr Hp Hd Hk Hkey Hobj.
  assert (forall s r0, streams db !! s = Some r0 ->
    exists r1, <[k.1.1 := r']> (streams db) !! s = Some r1 /\
      s_publisher_id r1 = s_publisher_id r0) as Hstr.
  { intros s r0 H. destruct (decide (k.1.1 = s)) as [<-|].
    - exists r'. rewrite lookup_insert_eq. by simplify_eq.
    - exists r0. by rewrite lookup_insert_ne. }
  split; simpl.
  - intros s r0 H. lookups; [|by apply Hct]. destruct (ct_stream _ Hct _ _ Hr) as (d & ?).
    exists d. by rewrite Hp, Hd.
  - intros s p x H. apply lookup_insert_Some in H as [[Heq <-]|[_ H]].
    + injection Heq as <- <-. exists r', g'. rewrite Hk, !lookup_insert_eq. by rewrite Hp.
    + destruct (ct_object _ Hct _ _ _ H) as (r0 & g0 & Hr0 & Hg0 & Hc).
      destruct (Hstr _ _ Hr0) as (r1 & ? & Hpid). exists r1.
      destruct (decide (k = object_group s x)) as [Heq|].
      * exists g'. rewrite <-Heq, lookup_insert_eq. rewrite <-Heq in Hg0. rewrite Hg0 in Hkey.
        by rewrite Hpid, Hkey.
      * exists g0. rewrite (lookup_insert_ne (groups db)) by done. by rewrite Hpid.
  - intros ek x H. destruct (ct_envelope _ Hct _ _ H) as (r0 & Hr0 & Hc).
    destruct (Hstr _ _ Hr0) as (r1 & ? & Hpid). exists r1. by rewrite Hpid.
Qed.

Lemma group_base_row db s r e n :
  streams db !! s = Some r ->
  exists r0, streams (group_base db s r e n) !! s = Some r0 /\
    s_publisher_id r0 = s_publisher_id r /\ s_descriptor r0 = s_descriptor r.
Proof.
  intros Hr. unfold group_base. repeat case_match; simpl; rewrite ?lookup_insert_eq; eauto.
Qed.

Lemma store_object_content db o now commit db' :
  wf db -> content db -> store_object cfg db o now = Ok (commit, db') -> content db'.
Proof.
  intros Hwf Hct H. destruct (store_object_Ok _ _ _ _ _ _ Hwf H) as [[-> _]|[Hins]]; [done|].
  destruct Hins as (d & pid & Hd & Hpid & enc & Henc & Hins). simpl in Hins.
  destruct Hins as (r & db1 & g1 & g' & db2 & m & Hr & Hq & Hq64 & Hn & Hent & _ & Hg1 & Hgrow &
    Hchk & Hts & Hn0 & _ & _ & -> & Hret & _).
  apply enforce_retention_inv in Hret as [Hev _].
  destruct (descriptor_in_content _ _ _ Hct Hd) as (r' & Hr' & Hp & _).
  rewrite Hr in Hr'. injection Hr' as <-.
  eapply (evictions_preserve cfg (fun db => wf db /\ content db)); [|done|].
  { intros db0 k0 g0 [? ?] ?. split; [by eapply wf_delete_oldest | by eapply content_delete]. }
  split; [by eapply entered_append_wf|].
  destruct (group_base_spec _ _ _ (h_epoch_id (header o)) (h_key_group (header o)) Hwf Hr)
    as (Hbwf & _).
  destruct (group_base_row db _ r (h_epoch_id (header o)) (h_key_group (header o)) Hr)
    as (r0 & Hr0 & Hpr0 & Hdr0).
  destruct (ent_group _ _ _ _ _ _ _ _ Hent) as (g & Hgr & _ & Hkey & Hcase).
  rewrite Hgr, lookup_insert_eq in Hg1. injection Hg1 as <-.
  apply grow_group_Some in Hgrow as (Hkid & _).
  eapply content_append; try done; simpl; [by apply content_base|..].
  - destruct (groups _ !! _) as [g0|] in Hcase |- *; [|done].
    destruct Hcase as [-> _]. done.
  - exists o, (desc_publisher (desc_body d)). simpl. rewrite Hkid, Hkey. split_and!; try done.
    by rewrite Hpr0.
Qed.

Lemma content_add_envelope db k g g' recipient row r :
  content db -> groups db !! k = Some g -> g_key_id g' = g_key_id g ->
  streams db !! k.1.1 = Some r -> envelope_content (s_publisher_id r) (k, recipient) row ->
  content (add_envelope_db db k g' recipient row).
Proof.
  intros Hct Hg Hkey Hr Hrow.
  pose proof (content_set_group _ _ _ _ Hct Hg Hkey) as Hc. split.
  - apply Hct.
  - apply (ct_object _ Hc).
  - simpl. intros ek x H. apply lookup_insert_Some in H as [[<- <-]|[_ H]]; [eauto|].
    by apply (ct_envelope _ Hct).
Qed.

Lemma store_envelope_content db e now stored db' :
  wf db -> content db -> store_envelope cfg db e now = Ok (stored, db') -> content db'.
Proof.
  intros Hwf Hct [[_ ->]|(d & pid & enc & g & g' & m & _ & Hins)]%store_envelope_Ok; [done|].
  destruct Hins as (Hd & Hpid & Henc & Hg & Hkey & Hfresh & _ & Hadd & Hchk & Hret).
  apply enforce_retention_inv in Hret as [Hev _].
  destruct (descriptor_in_content _ _ _ Hct Hd) as (r & Hr & Hp & _).
  eapply (evictions_preserve cfg (fun db => wf db /\ content db)); [|done|].
  { intros db0 k0 g0 [? ?] ?. split; [by eapply wf_delete_oldest | by eapply content_delete]. }
  split; [by eapply wf_add_envelope|].
  eapply content_add_envelope; try done.
  - unfold add_envelope_bytes in Hadd. by apply bind_Some in Hadd as (? & _ & [= <-]).
  - exists e, (desc_publisher (desc_body d)). by split_and!.
Qed.

Lemma put_descriptor_content db d db' :
  wf db -> content db -> put_descriptor cfg db d = Ok db' -> content db'.
Proof.
  intros Hwf Hct (enc & pid & Henc & Hpid & H)%put_descriptor_Ok. simpl in H.
  set (s := desc_stream_id (desc_body d)) in *.
  assert (forall r', s_descriptor r' = enc -> s_publisher_id r' = pid -> stream_content s r')
    as Hnew.
  { intros r' Hd Hp. exists d. by rewrite Hd, Hp. }
  destruct (streams db !! s) as [r|] eqn:Hr.
  - destruct H as [Hp ->]. eapply content_frame; simpl; eauto.
    + intros s0 r0 H. lookups; [by apply Hnew | by apply Hct].
    + intros s0 r0 H. destruct (decide (s = s0)) as [<-|].
      * rewrite lookup_insert_eq. simplify_eq. eauto.
      * exists r0. by rewrite lookup_insert_ne.
  - destruct H as (_ & _ & ->). eapply content_frame; simpl; eauto.
    + intros s0 r0 H. lookups; [by apply Hnew | by apply Hct].
    + intros s0 r0 H. exists r0. rewrite lookup_insert_ne; [done|]. intros <-. congruence.
Qed.

Lemma store_step_content db db' :
  wf db -> content db -> store_step cfg db db' -> content db'.
Proof.
  intros Hwf Hct [d db1 H|o now c db1 H|e now b db1 H|now n db1 H|s db1 H].
  - by eapply put_descriptor_content.
  - by eapply store_object_content.
  - by eapply store_envelope_content.
  - eapply (retention_streams_preserve cfg (fun db => wf db /\ content db)); [|done|done].
    intros s db0 k0 g0 [? ?] ?. split; [by eapply wf_delete_oldest | by eapply content_delete].
  - apply finalize_stream_Ok in H as [->|(r & e & n & g & ? & ? & ? & ? & ->)]; [done| |done].
    by eapply content_close.
Qed.

Lemma reachable_content db : reachable cfg db -> content db.
Proof.
  induction 1 as [|db db' Hre IH Hstep]; [apply content_empty|].
  eapply store_step_content; [|done..]. by eapply reachable_wf.
Qed.

(** C32: both invariants hold in every reachable store: whatever sequence of
    descriptors, objects, envelopes, retention passes and session ends the relay
    commits, groups hold exactly the objects of their range, the history from
    any retained group to the high-water mark has no gap, only the active group
    is incomplete and the byte accounting is the stored size; and every row is
    the canonical encoding of a verified value of the stream's publisher filed
    under its own keys. *)
Theorem reachable_consistent db : reachable cfg db -> wf db /\ content db.
Proof. eauto using reachable_wf, reachable_content. Qed.
End content.

(** ** Witnesses *)

Lemma stored_codecs_canonical_witness :
  exists l, object_encode sample_object sample_public = Ok l /\
    object_decode l sample_public = Ok sample_object.
Proof.
  eexists. split; [|apply (stored_codecs_canonical _ _)]; vm_compute; reflexivity.
Defined.

Lemma reachable_consistent_witness : wf sample_db /\ content sample_db.
Proof. apply (reachable_consistent sample_config), sample_reachable. Defined.
