(* ===== verification/StoreQuota.v ===== *)
(** The hard limits of the relay's store: no sequence of operations a hostile
    publisher can cause makes the store exceed its configured limits. *)
From Stdlib Require Import ZArith Lia.
From S2P Require Import Prelude Bytes External Toy Identity Native Envelope Codecs Wire NativeTables.
From S2P Require Import NativeStore StoreSample StoreInv StoreRetention StoreOps StoreContent.

(** The limits are [u64] values that passed [open_with_limits]. *)
Definition limits_typed (l : NativeStoreLimits) : Prop :=
  u64_ok (max_streams l) /\ u64_ok (max_streams_per_publisher l) /\
  u64_ok (max_objects_per_group l) /\ u64_ok (max_group_bytes l) /\
  u64_ok (max_envelopes_per_group l) /\ u64_ok (max_total_bytes l) /\
  u64_ok (max_publisher_bytes l).

Record quota (cfg : StoreConfig) (db : Db) : Prop := {
  q_total : total_bytes db <= max_total_bytes (limits cfg);
  q_publisher p : publisher_bytes db p <= max_publisher_bytes (limits cfg);
  q_group k g :
    groups db !! k = Some g -> g_retained_bytes g <= max_group_bytes (limits cfg);
  q_objects k : group_object_count db k <= max_objects_per_group (limits cfg);
  q_envelopes k : group_envelope_count db k <= max_envelopes_per_group (limits cfg);
  q_streams : stream_count db <= max_streams (limits cfg);
  q_publisher_streams p :
    publisher_stream_count db p <= max_streams_per_publisher (limits cfg);
}.

Lemma quota_empty cfg : limits_typed (limits cfg) -> quota cfg empty_db.
Proof.
  intros Hl. unfold limits_typed, u64_ok in Hl.
  split; intros; unfold total_bytes, publisher_bytes, group_object_count, group_envelope_count,
    stream_count, publisher_stream_count; simpl; rewrite ?map_sum_empty; try lia.
  match goal with H : groups _ !! _ = Some _ |- _ => simpl in H; by rewrite lookup_empty in H end.
Qed.

Lemma count_or_max_lt c limit : u64_ok limit -> count_or_max c < limit -> 0 <= c -> c < limit.
Proof.
  unfold count_or_max, u64_try_from. intros Hl H Hc. case_decide; simpl in *; [done|].
  unfold u64_ok in *. lia.
Qed.

Lemma saturating_add_le a b limit :
  u64_ok limit -> 0 <= a <= i64_max -> 0 <= b <= i64_max ->
  u64_saturating_add a b <= limit -> a + b <= limit.
Proof. ints. Qed.

Section growth.
Context (cfg : StoreConfig) (Hcfg : limits_typed (limits cfg)).

(** Counting rows. *)
Lemma object_count_nonneg db k : 0 <= group_object_count db k.
Proof. apply map_sum_nonneg. intros. unfold object_one. case_decide; lia. Qed.
Lemma envelope_count_nonneg db k : 0 <= group_envelope_count db k.
Proof. apply map_sum_nonneg. intros. unfold envelope_one. case_decide; lia. Qed.

(** What the growth check of a new row established. *)
Lemma check_group_growth_Ok db growth :
  let k := (gr_stream_id growth, gr_epoch_id growth, gr_key_group growth) in
  (forall g, groups db !! k = Some g -> g_retained_bytes g <= i64_max) ->
  gr_added_bytes growth <= i64_max -> 0 <= gr_added_bytes growth ->
  check_group_growth cfg db growth = Ok tt ->
  exists g, groups db !! k = Some g /\
    match gr_item_kind growth with
    | GroupObject => group_object_count db k < max_objects_per_group (limits cfg)
    | GroupEnvelope => group_envelope_count db k < max_envelopes_per_group (limits cfg)
    end /\
    g_retained_bytes g + gr_added_bytes growth <= max_group_bytes (limits cfg) /\
    total_bytes db + gr_added_bytes growth <= max_total_bytes (limits cfg) /\
    publisher_bytes db (gr_publisher_id growth) + gr_added_bytes growth <=
      max_publisher_bytes (limits cfg).
Proof using Hcfg.
  intros k Hwf Ha Ha0 H. subst k. destruct Hcfg as (_ & _ & Lo & Lg & Le & Lt & Lp).
  unfold check_group_growth in H.
  apply bind_Ok_inv in H as (n & [-> Hn]%to_sql_u64_Ok & H).
  apply bind_Ok_inv in H as (g & Hg%ok_or_Ok & H). rewrite guard_bind in H.
  destruct H as [Hcount H].
  apply bind_Ok_inv in H as (gb & [-> Hgb]%from_sql_u64_Ok & H). rewrite guard_bind in H.
  destruct H as [Hgroup H].
  apply bind_Ok_inv in H as (t & [-> Ht]%sql_sum_Ok & H).
  apply bind_Ok_inv in H as (p & [-> Hp]%sql_sum_Ok & H).
  apply bind_Ok_inv in H as (t & [-> Ht0]%from_sql_u64_Ok & H). rewrite guard_bind in H.
  destruct H as [Htotal H].
  apply bind_Ok_inv in H as (p & [-> Hp0]%from_sql_u64_Ok & H). apply reject_if_Ok in H.
  exists g. pose proof (Hwf _ Hg) as Hgb64.
  unfold total_bytes, publisher_bytes. unfold i64_ok, u64_ok in *. split_and!; [done|..].
  - destruct (gr_item_kind growth); apply count_or_max_lt; try done;
      try apply object_count_nonneg; try apply envelope_count_nonneg; lia.
  - apply saturating_add_le; [done|lia..].
  - apply saturating_add_le; [done|lia..].
  - apply saturating_add_le; [done|lia..].
Qed.

(** Deleting a group only decreases what is limited. *)
Lemma publisher_group_bytes_cases db p k g :
  publisher_group_bytes db p k g = 0 \/ publisher_group_bytes db p k g = g_retained_bytes g.
Proof. unfold publisher_group_bytes. case_match; [case_decide|]; auto. Qed.

Lemma map_sum_filter_le `{Countable K} {V} (f : K -> V -> Z) (m : gmap K V) (P : K * V -> Prop)
    `{forall x, Decision (P x)} :
  (forall k v, 0 <= f k v) -> map_sum f (filter P m) <= map_sum f m.
Proof.
  intros Hf. rewrite map_sum_filter.
  induction m as [|k v m Hk IH] using map_ind; [done|].
  rewrite !map_sum_insert by done. pose proof (Hf k v). case_decide; lia.
Qed.

Lemma quota_delete db s k g :
  wf db -> quota cfg db -> oldest_complete db s = Some (k, g) -> quota cfg (delete_group db k).
Proof.
  intros Hwf Hq (Hg & _)%oldest_complete_Some.
  assert (forall f, f k g = 0 \/ f k g = g_retained_bytes g ->
    map_sum f (groups (delete_group db k)) <= map_sum f (groups db)) as Hle.
  { intros f Hf. rewrite (delete_group_sum _ _ _ f Hg).
    pose proof (wf_group _ Hwf _ _ Hg) as [(_ & _ & _ & _ & _ & ?) _]. lia. }
  split.
  - etrans; [apply Hle; auto|]. apply Hq.
  - intros p. etrans; [apply (Hle (publisher_group_bytes db p)), publisher_group_bytes_cases|].
    apply Hq.
  - intros k0 g0 H. simpl in H. lookups. by eapply (q_group _ _ Hq).
  - intros k0. etrans; [|apply (q_objects _ _ Hq k0)]. apply map_sum_filter_le.
    intros. unfold object_one. case_decide; lia.
  - intros k0. etrans; [|apply (q_envelopes _ _ Hq k0)]. apply map_sum_filter_le.
    intros. unfold envelope_one. case_decide; lia.
  - apply Hq.
  - apply Hq.
Qed.

(** The effect of a stream row change that keeps the publisher. *)
Lemma publisher_bytes_set_stream db s r r' p gs :
  streams db !! s = Some r -> s_publisher_id r' = s_publisher_id r ->
  map_sum (publisher_group_bytes (set_streams <[s := r']> db) p) gs =
  map_sum (publisher_group_bytes db p) gs.
Proof.
  intros Hr Hp. apply map_sum_ext. intros k g _. unfold publisher_group_bytes. simpl.
  destruct (decide (s = k.1.1)) as [<-|].
  - by rewrite lookup_insert_eq, Hr, Hp.
  - by rewrite lookup_insert_ne.
Qed.

Lemma stream_counts_update db s r r' :
  streams db !! s = Some r -> s_publisher_id r' = s_publisher_id r ->
  stream_count (set_streams <[s := r']> db) = stream_count db /\
  forall p, publisher_stream_count (set_streams <[s := r']> db) p = publisher_stream_count db p.
Proof.
  intros Hr Hp. unfold stream_count, publisher_stream_count. simpl. split.
  - rewrite (map_sum_update _ _ _ r) by done. lia.
  - intros p. rewrite (map_sum_update _ _ _ r) by done. unfold publisher_stream_one.
    rewrite Hp. lia.
Qed.

Lemma quota_set_stream db s r r' :
  quota cfg db -> streams db !! s = Some r -> s_publisher_id r' = s_publisher_id r ->
  quota cfg (set_streams <[s := r']> db).
Proof.
  intros Hq Hr Hp. destruct (stream_counts_update db s r r' Hr Hp) as [Hc Hpc].
  split; try apply Hq.
  - intros p. unfold publisher_bytes.
    etrans; [|apply (q_publisher _ _ Hq p)]. simpl. by rewrite (publisher_bytes_set_stream db s r).
  - rewrite Hc. apply Hq.
  - intros p. rewrite Hpc. apply Hq.
Qed.

(** Replacing a group row by one with as many retained bytes. *)
Lemma quota_set_group db k g g' :
  quota cfg db -> groups db !! k = Some g -> g_retained_bytes g' = g_retained_bytes g ->
  quota cfg (set_groups <[k := g']> db).
Proof.
  intros Hq Hg Hb. split; try apply Hq.
  - unfold total_bytes. simpl. rewrite (map_sum_update _ _ _ g) by done. rewrite Hb.
    pose proof (q_total _ _ Hq). unfold total_bytes in *. lia.
  - intros p. unfold publisher_bytes. simpl. rewrite (map_sum_update _ _ _ g) by done.
    pose proof (q_publisher _ _ Hq p) as H0. unfold publisher_bytes, publisher_group_bytes in *.
    simpl. rewrite Hb. lia.
  - simpl. intros k0 g0 H. lookups; [rewrite Hb|]; by eapply (q_group _ _ Hq).
Qed.

(** A group that starts empty. *)
Lemma quota_new_group db k g :
  limits_typed (limits cfg) -> quota cfg db -> groups db !! k = None -> g_retained_bytes g = 0 ->
  quota cfg (set_groups <[k := g]> db).
Proof.
  intros (_ & _ & _ & Hg & _) Hq Hk Hb. split; try apply Hq.
  - unfold total_bytes. simpl. rewrite map_sum_insert by done. rewrite Hb. apply Hq.
  - intros p. unfold publisher_bytes. simpl. rewrite map_sum_insert by done.
    pose proof (q_publisher _ _ Hq p) as H0. unfold publisher_bytes, publisher_group_bytes in *.
    simpl. rewrite Hb. case_match; [case_decide|]; lia.
  - simpl. intros k0 g0 H. lookups; [unfold u64_ok in Hg; lia|]. by eapply (q_group _ _ Hq).
Qed.

Lemma quota_close db k r g :
  quota cfg db -> streams db !! k.1.1 = Some r -> groups db !! k = Some g ->
  quota cfg (close_group db k r g).
Proof.
  intros Hq Hr Hg. unfold close_group. eapply quota_set_stream; [|done|done].
  by eapply quota_set_group.
Qed.

(** Growing a group by a row that the limits admit. *)
Lemma quota_grow_group db k g g' r added :
  quota cfg db -> groups db !! k = Some g -> g_retained_bytes g' = g_retained_bytes g + added ->
  streams db !! k.1.1 = Some r ->
  g_retained_bytes g + added <= max_group_bytes (limits cfg) ->
  total_bytes db + added <= max_total_bytes (limits cfg) ->
  publisher_bytes db (s_publisher_id r) + added <= max_publisher_bytes (limits cfg) ->
  quota cfg (set_groups <[k := g']> db).
Proof.
  intros Hq Hg Hb Hr Hgroup Htotal Hpub. split; try apply Hq.
  - unfold total_bytes in *. simpl. rewrite (map_sum_update _ _ _ g) by done. lia.
  - intros p. pose proof (q_publisher _ _ Hq p) as Hp. unfold publisher_bytes in *. simpl.
    rewrite (map_sum_update _ _ _ g) by done.
    unfold publisher_group_bytes in *. simpl in *. rewrite Hr. case_decide; [subst|]; lia.
  - simpl. intros k0 g0 H. lookups; [lia|]. by eapply (q_group _ _ Hq).
Qed.

Lemma quota_insert_object db s q row :
  quota cfg db -> objects db !! (s, q) = None ->
  group_object_count db (object_group s row) < max_objects_per_group (limits cfg) ->
  quota cfg (set_objects <[(s, q) := row]> db).
Proof.
  intros Hq Hfresh Hc. split; try apply Hq.
  intros k. pose proof (q_objects _ _ Hq k) as Hk. unfold group_object_count in *. simpl.
  rewrite map_sum_insert by done. unfold object_one at 1. simpl. case_decide; [subst|]; lia.
Qed.

Lemma quota_insert_envelope db k recipient row :
  quota cfg db -> envelopes db !! (k, recipient) = None ->
  group_envelope_count db k < max_envelopes_per_group (limits cfg) ->
  quota cfg (set_envelopes <[(k, recipient) := row]> db).
Proof.
  intros Hq Hfresh Hc. split; try apply Hq.
  intros k0. pose proof (q_envelopes _ _ Hq k0) as Hk. unfold group_envelope_count in *. simpl.
  rewrite map_sum_insert by done. unfold envelope_one at 1. simpl. case_decide; [subst|]; lia.
Qed.

Section quota_ops.
Context `{crypto : !Crypto}.
Context `{!Postcard IdentityPublic, !Postcard StreamDescriptorBody}.
Context `{!Postcard StreamDescriptor, !Postcard NativeObjectHeader}.
Context `{!Postcard NativeObjectClaim, !Postcard NativeObject}.
Context `{!Postcard KeyEnvelopeHeader, !Postcard UnsignedEnvelope, !Postcard KeyEnvelope}.
Context `{!PostcardLaws StreamDescriptor, !PostcardLaws NativeObject}.
Context `{!PostcardLaws KeyEnvelope}.


(** The entered tables are the base with the group row and the active columns. *)
Lemma entered_db db s r o q n now db1 :
  wf db -> streams db !! s = Some r -> entered db s r o q n now db1 ->
  exists g, db1 = set_streams <[s := set_active (Some (h_epoch_id (header o))) (Some n) r]>
    (set_groups <[(s, h_epoch_id (header o), n) := g]>
       (group_base db s r (h_epoch_id (header o)) n)) /\
    match groups (group_base db s r (h_epoch_id (header o)) n)
            !! (s, h_epoch_id (header o), n) with
    | Some g0 => g = g0
    | None => g_retained_bytes g = 0
    end.
Proof.
  intros Hwf Hr [Hs Ho He (g & Hg & _ & _ & Hcase)]. exists g.
  destruct (group_base_spec _ _ _ (h_epoch_id (header o)) n Hwf Hr) as (_ & _ & Hbo & Hbe & Hbs).
  split.
  - destruct db1. unfold set_streams, set_groups. simpl in *. by rewrite Hbs, Hs, Hbo, Hbe, Ho, He, Hg.
  - destruct (groups _ !! _) in Hcase |- *; [by destruct Hcase|]. by destruct Hcase as [-> _].
Qed.

Lemma quota_base db s r e n :
  quota cfg db -> streams db !! s = Some r -> quota cfg (group_base db s r e n).
Proof. intros Hq Hr. unfold group_base. repeat case_match; try done. by apply quota_close. Qed.

Lemma quota_entered db s r o q n now db1 :
  wf db -> streams db !! s = Some r -> entered db s r o q n now db1 -> quota cfg db ->
  quota cfg db1.
Proof using Hcfg.
  intros Hwf Hr Hent Hq. destruct (entered_db _ _ _ _ _ _ _ _ Hwf Hr Hent) as (g & -> & Hg).
  pose proof (quota_base db s r (h_epoch_id (header o)) n Hq Hr) as Hqb.
  destruct (group_base_row db s r (h_epoch_id (header o)) n Hr) as (r0 & Hr0 & Hp & _).
  eapply quota_set_stream; [|simpl; done|done].
  destruct (groups _ !! _) as [g0|] eqn:Hg0 in Hg.
  - subst g0. by eapply quota_set_group.
  - by apply quota_new_group.
Qed.

Lemma object_encode_len o p enc :
  object_encode o p = Ok enc -> zlen enc <= MAX_NATIVE_OBJECT_LEN.
Proof.
  unfold object_encode. rewrite unit_bind. intros (_ & (e & _ & H)%bind_Ok_inv).
  rewrite guard_bind in H. destruct H as [? [= <-]]. lia.
Qed.

Lemma envelope_encode_len e p enc :
  envelope_encode e p = Ok enc -> zlen enc <= MAX_KEY_ENVELOPE_LEN.
Proof.
  unfold envelope_encode. rewrite unit_bind. intros (_ & (x & _ & H)%bind_Ok_inv).
  rewrite guard_bind in H. destruct H as [? [= <-]]. lia.
Qed.

(** The entered tables satisfy what the growth check reads. *)
Lemma entered_lookup db s r o q n now db1 :
  entered db s r o q n now db1 ->
  streams db1 !! s = Some (set_active (Some (h_epoch_id (header o))) (Some n) r) /\
  objects db1 = objects db /\ envelopes db1 = envelopes db.
Proof. intros [Hs Ho He _]. by rewrite <-Hs, lookup_insert_eq. Qed.

Lemma store_object_quota db o now commit db' :
  wf db -> content db -> quota cfg db -> store_object cfg db o now = Ok (commit, db') ->
  quota cfg db'.
Proof using Hcfg PostcardLaws0.
  intros Hwf Hct Hq H. destruct (store_object_Ok _ _ _ _ _ _ Hwf H) as [[-> _]|[Hins]]; [done|].
  destruct Hins as (d & pid & Hd & Hpid & enc & Henc & Hins). simpl in Hins.
  destruct Hins as (r & db1 & g1 & g' & db2 & m & Hr & Hseq & Hq64 & Hn & Hent & Hgrowth & Hg1 &
    Hgrow & Hchk & Hts & Hn0 & Hfresh & Hdb2 & Hdb2' & Hret & _).
  apply enforce_retention_inv in Hret as [Hev _].
  destruct (descriptor_in_content _ _ _ Hct Hd) as (r' & Hr' & Hp & _).
  rewrite Hr in Hr'. injection Hr' as <-. rewrite Hpid in Hp. injection Hp as ->.
  eapply (evictions_preserve cfg (fun db => wf db /\ quota cfg db)); [|done|].
  { intros db0 k0 g0 [? ?] ?. split; [by eapply wf_delete_oldest | by eapply quota_delete]. }
  split; [rewrite Hdb2'; by eapply entered_append_wf|].
  pose proof (quota_entered _ _ _ _ _ _ _ _ Hwf Hr Hent Hq) as Hq1.
  pose proof (object_encode_len _ _ _ Henc) as Hlen.
  destruct (entered_lookup _ _ _ _ _ _ _ _ Hent) as (Hr1 & Ho1 & He1).
  apply grow_group_Some in Hgrow as (_ & _ & _ & _ & _ & Hrb & Hrb64).
  edestruct (check_group_growth_Ok db1) as (g & Hg & Hcount & Hgb & Htb & Hpb);
    [| | |exact Hgrowth|]; simpl in *.
  { intros g Hg. rewrite Hg1 in Hg. injection Hg as <-. lia. }
  { unfold MAX_NATIVE_OBJECT_LEN, MAX_MEDIA_CIPHERTEXT_LEN, i64_max in *. lia. }
  { lia. }
  rewrite Hg1 in Hg. injection Hg as <-.
  replace db2 with (set_streams <[h_stream_id (header o) :=
      appended_row r o (h_key_group (header o)) (h_sequence (header o))]>
    (set_objects <[(h_stream_id (header o), h_sequence (header o)) :=
       object_row o (h_key_group (header o)) now enc]>
       (set_groups <[(h_stream_id (header o), h_epoch_id (header o), h_key_group (header o))
          := g']> db1))) by (by rewrite Hdb2; destruct db1).
  eapply quota_set_stream; [|simpl; done|done].
  apply quota_insert_object; [|simpl; by rewrite Ho1|done].
  by eapply quota_grow_group.
Qed.

Lemma store_envelope_quota db e now stored db' :
  wf db -> content db -> quota cfg db -> store_envelope cfg db e now = Ok (stored, db') ->
  quota cfg db'.
Proof using Hcfg PostcardLaws0.
  intros Hwf Hct Hq [[_ ->]|(d & pid & enc & g & g' & m & _ & Hins)]%store_envelope_Ok; [done|].
  destruct Hins as (Hd & Hpid & Henc & Hg & Hkey & Hfresh & Hgrowth & Hadd & Hchk & Hret).
  apply enforce_retention_inv in Hret as [Hev _].
  destruct (descriptor_in_content _ _ _ Hct Hd) as (r & Hr & Hp & _).
  rewrite Hpid in Hp. injection Hp as ->.
  eapply (evictions_preserve cfg (fun db => wf db /\ quota cfg db)); [|done|].
  { intros db0 k0 g0 [? ?] ?. split; [by eapply wf_delete_oldest | by eapply quota_delete]. }
  split; [by eapply wf_add_envelope|].
  pose proof (envelope_encode_len _ _ _ Henc) as Hlen.
  pose proof (wf_group _ Hwf _ _ Hg) as (_ & _ & _ & Hg64 & _).
  edestruct (check_group_growth_Ok db) as (g0 & Hg0 & Hcount & Hgb & Htb & Hpb);
    [| | |exact Hgrowth|]; simpl in *.
  { intros g0 Hg0. rewrite Hg in Hg0. injection Hg0 as <-. lia. }
  { unfold MAX_KEY_ENVELOPE_LEN, i64_max in *. lia. }
  { lia. }
  rewrite Hg in Hg0. injection Hg0 as <-.
  unfold add_envelope_bytes in Hadd.
  apply bind_Some in Hadd as (x & [-> _]%i64_checked_add_Some & [= <-]).
  change (quota cfg (set_envelopes <[((eh_stream_id (env_header e), eh_epoch_id (env_header e),
    eh_key_group_id (env_header e)), eh_recipient_id (env_header e)) :=
    {| e_key_id := eh_key_id (env_header e); e_received_at_ms := now; e_envelope := enc |}]>
    (set_groups <[(eh_stream_id (env_header e), eh_epoch_id (env_header e),
      eh_key_group_id (env_header e)) := {| g_key_id := g_key_id g;
      g_first_sequence := g_first_sequence g; g_last_sequence := g_last_sequence g;
      g_first_timestamp := g_first_timestamp g; g_last_timestamp := g_last_timestamp g;
      g_received_first_ms := g_received_first_ms g; g_received_last_ms := g_received_last_ms g;
      g_retained_bytes := g_retained_bytes g + zlen enc; g_complete := g_complete g |}]> db))).
  apply quota_insert_envelope; [|done|done]. by eapply quota_grow_group.
Qed.

Lemma stream_counts_nonneg db p :
  0 <= stream_count db /\ 0 <= publisher_stream_count db p.
Proof.
  split; apply map_sum_nonneg; intros; unfold publisher_stream_one; [lia|]. case_decide; lia.
Qed.

Lemma put_descriptor_quota db d db' :
  wf db -> quota cfg db -> put_descriptor cfg db d = Ok db' -> quota cfg db'.
Proof using Hcfg.
  intros Hwf Hq (enc & pid & Henc & Hpid & H)%put_descriptor_Ok. simpl in H.
  destruct (streams db !! _) as [r|] eqn:Hr.
  - destruct H as [Hp ->]. by eapply quota_set_stream.
  - destruct H as (Hn & Hpn & ->). destruct Hcfg as (Ls & Lp & _).
    apply count_or_max_lt in Hn; [|done|by apply (stream_counts_nonneg db pid)].
    apply count_or_max_lt in Hpn; [|done|by apply (stream_counts_nonneg db pid)].
    split; try apply Hq.
    + intros p. etrans; [|apply (q_publisher _ _ Hq p)]. unfold publisher_bytes. simpl.
      apply Z.eq_le_incl, map_sum_ext. intros k g Hg. unfold publisher_group_bytes. simpl.
      rewrite lookup_insert_ne; [done|]. intros Heq.
      destruct (wf_group _ Hwf _ _ Hg) as (_ & _ & _ & _ & r & Hr' & _).
      rewrite <-Heq in Hr'. congruence.
    + unfold stream_count in *. simpl. rewrite map_sum_insert by done. lia.
    + intros p. pose proof (q_publisher_streams _ _ Hq p) as Hp.
      unfold publisher_stream_count in *. simpl. rewrite map_sum_insert by done.
      unfold publisher_stream_one at 1. simpl. case_decide; [subst|]; lia.
Qed.

Lemma store_step_quota db db' :
  wf db -> content db -> quota cfg db -> store_step cfg db db' -> quota cfg db'.
Proof using Hcfg PostcardLaws0.
  intros Hwf Hct Hq [d db1 H|o now c db1 H|e now b db1 H|now n db1 H|s db1 H].
  - by eapply put_descriptor_quota.
  - by eapply store_object_quota.
  - by eapply store_envelope_quota.
  - eapply (retention_streams_preserve cfg (fun db => wf db /\ quota cfg db)); [|done|done].
    intros s db0 k0 g0 [? ?] ?. split; [by eapply wf_delete_oldest | by eapply quota_delete].
  - apply finalize_stream_Ok in H as [->|(r & e & n & g & ? & ? & ? & ? & ->)]; [done| |done].
    by apply quota_close.
Qed.

(** C33: no reachable store exceeds its hard limits: the retained bytes of the
    relay, of each publisher and of each group, the objects and envelopes of
    each group and the streams of the relay and of each publisher stay within
    the configured bounds, whatever clients send. *)
Theorem reachable_quota db : reachable cfg db -> quota cfg db.
Proof using Hcfg PostcardLaws0 PostcardLaws1 PostcardLaws2.
  induction 1 as [|db db' Hre IH Hstep]; [by apply quota_empty|].
  eapply store_step_quota; [| |done..]; [by eapply reachable_wf|by eapply reachable_content].
Qed.
End quota_ops.
End growth.

Lemma reachable_quota_witness : quota sample_config sample_db.
Proof.
  refine (reachable_quota sample_config _ sample_db sample_reachable).
  unfold limits_typed, u64_ok. vm_compute. repeat split; discriminate.
Defined.
