(* ===== verification/StoreQueries.v ===== *)
(** What the relay's store answers: durable and idempotent appends, gapless
    object lists, subscription anchors from which a viewer can decode, and
    retained bounds.  The file first adds the last invariant these rest on: a
    group begins at a random-access video object. *)
From Stdlib Require Import ZArith Lia.
From S2P Require Import Prelude Bytes External Toy Identity Native Envelope Codecs Wire NativeTables.
From S2P Require Import NativeStore StoreSample StoreInv StoreRetention StoreOps StoreContent.

(** The objects of a stream are those of one interval that ends at the
    high-water mark. *)
Lemma retained_interval db s r :
  wf db -> streams db !! s = Some r ->
  exists first, 0 < first <= s_high_water r + 1 /\
    (forall q, is_Some (objects db !! (s, q)) <-> first <= q <= s_high_water r) /\
    (forall k g, groups db !! k = Some g -> k.1.1 = s -> first <= g_first_sequence g) /\
    (first <= s_high_water r ->
     exists k g, groups db !! k = Some g /\ k.1.1 = s /\ first = g_first_sequence g).
Proof.
  intros Hwf Hr. pose proof (wf_stream _ Hwf _ _ Hr) as [[Hhw _] _].
  destruct (select_first group_before (stream_groups db s)) as [[k g]|] eqn:Hsel.
  - apply select_first_Some in Hsel as [Hin Hmin]; [|apply _].
    apply elem_of_stream_groups in Hin as [Hg Hs].
    assert (forall k0 g0, groups db !! k0 = Some g0 -> k0.1.1 = s ->
      g_first_sequence g <= g_first_sequence g0) as Hle.
    { intros k0 g0 Hg0 Hs0. assert (~ group_before (k0, g0) (k, g)) as Hn
        by (by apply Hmin, elem_of_stream_groups). unfold group_before in Hn. simpl in Hn. lia. }
    destruct (wf_range _ Hwf _ _ Hg) as (Hpos & Hfl & _).
    destruct (wf_group _ Hwf _ _ Hg) as (_ & _ & _ & _ & r' & Hr' & Hlast).
    rewrite Hs, Hr in Hr'. injection Hr' as <-.
    exists (g_first_sequence g). split_and!; [lia|lia| |done|eauto].
    intros q. split.
    + intros [o Ho]. destruct (wf_object _ Hwf _ _ _ Ho) as (g0 & Hg0 & Hq).
      specialize (Hle _ _ Hg0 eq_refl).
      destruct (wf_object_high_water _ Hwf _ _ _ Ho) as (r' & ? & ?). simplify_eq. lia.
    + intros Hq. rewrite <-Hs. eapply wf_suffix; [done..|by rewrite Hs|done].
  - rewrite select_first_None in Hsel.
    assert (forall k g, groups db !! k = Some g -> k.1.1 <> s) as Hno.
    { intros k g Hg Hs. assert ((k, g) ∈ stream_groups db s) as Hin
        by (by apply elem_of_stream_groups). rewrite Hsel in Hin. by apply not_elem_of_nil in Hin. }
    exists (s_high_water r + 1). split_and!; [lia|lia| | |lia].
    + intros q. split; [|lia]. intros [o Ho].
      destruct (wf_object _ Hwf _ _ _ Ho) as (g0 & Hg0 & _). by destruct (Hno _ _ Hg0).
    + intros k g Hg Hs. by destruct (Hno _ _ Hg).
Qed.

Section queries.
Context `{crypto : !Crypto}.
Context `{!Postcard IdentityPublic, !Postcard StreamDescriptorBody}.
Context `{!Postcard StreamDescriptor, !Postcard NativeObjectHeader}.
Context `{!Postcard NativeObjectClaim, !Postcard NativeObject}.
Context `{!Postcard KeyEnvelopeHeader, !Postcard UnsignedEnvelope, !Postcard KeyEnvelope}.
Context `{!PostcardLaws StreamDescriptor, !PostcardLaws NativeObject}.
Context `{!PostcardLaws KeyEnvelope}.
Context (cfg : StoreConfig).

(** * Groups begin at a random-access boundary *)

Definition boundary_row (row : ObjectRow) : Prop :=
  exists o p, object_encode o p = Ok (o_object row) /\ h_random_access (header o) = true /\
    h_kind (header o) <> Cursor.

Definition boundaries (db : Db) : Prop :=
  forall k g row, groups db !! k = Some g ->
    objects db !! (k.1.1, g_first_sequence g) = Some row -> boundary_row row.

Lemma boundaries_frame db db' :
  boundaries db ->
  (forall k g', groups db' !! k = Some g' ->
     exists g, groups db !! k = Some g /\ g_first_sequence g' = g_first_sequence g) ->
  (forall ok row, objects db' !! ok = Some row -> objects db !! ok = Some row) ->
  boundaries db'.
Proof.
  intros Hb Hg Ho k g' row H Hrow. destruct (Hg _ _ H) as (g & ? & Hf).
  rewrite Hf in Hrow. eauto.
Qed.

Lemma boundaries_delete db k : boundaries db -> boundaries (delete_group db k).
Proof.
  intros Hb. eapply boundaries_frame; [done|simpl..].
  - intros k0 g H. lookups. eauto.
  - intros ok row H. by apply map_lookup_filter_Some in H as [? _].
Qed.

Lemma boundaries_set_group db k g g' :
  boundaries db -> groups db !! k = Some g -> g_first_sequence g' = g_first_sequence g ->
  boundaries (set_groups <[k := g']> db).
Proof.
  intros Hb Hg Hf. eapply boundaries_frame; [done|simpl|done].
  intros k0 g0 H. lookups; eauto.
Qed.

Lemma boundaries_base db s r e n :
  boundaries db -> boundaries (group_base db s r e n).
Proof.
  intros Hb. unfold group_base. repeat case_match; try done.
  unfold close_group. by eapply (boundaries_set_group db).
Qed.

Lemma store_object_boundaries db o now commit db' :
  wf db -> content db -> boundaries db -> store_object cfg db o now = Ok (commit, db') ->
  boundaries db'.
Proof.
  intros Hwf Hct Hb H. destruct (store_object_Ok _ _ _ _ _ _ Hwf H) as [[-> _]|[Hins]]; [done|].
  destruct Hins as (d & pid & Hd & Hpid & enc & Henc & Hins). simpl in Hins.
  destruct Hins as (r & db1 & g1 & g' & db2 & m & Hr & Hq & Hq64 & Hn & Hent & _ & Hg1 & Hgrow &
    Hchk & Hts & Hn0 & _ & _ & -> & Hret & _).
  apply enforce_retention_inv in Hret as [Hev _].
  eapply (evictions_preserve cfg boundaries); [|done|]; [by eauto using boundaries_delete|].
  set (k := (h_stream_id (header o), h_epoch_id (header o), h_key_group (header o))) in *.
  destruct (group_base_spec _ _ _ (h_epoch_id (header o)) (h_key_group (header o)) Hwf Hr)
    as (Hbwf & Hbr & Hbo & _).
  pose proof (boundaries_base db (h_stream_id (header o)) r (h_epoch_id (header o))
    (h_key_group (header o)) Hb) as Hbb.
  destruct (ent_group _ _ _ _ _ _ _ _ Hent) as (g & Hgr & _ & _ & Hcase). fold k in Hgr, Hcase.
  rewrite Hgr, lookup_insert_eq in Hg1. injection Hg1 as <-.
  apply grow_group_Some in Hgrow as (_ & Hfirst & _).
  intros k0 g0 row H0 Hrow. simpl in H0, Hrow.
  apply lookup_insert_Some in Hrow as [[Heq <-]|[Hne Hrow]].
  - exists o, (desc_publisher (desc_body d)). split; [done|].
    apply lookup_insert_Some in H0 as [[<- <-]|[Hk H0]].
    + destruct (groups _ !! k) as [gb|] eqn:Hgb in Hcase.
      * destruct Hcase as [-> _]. destruct (wf_range _ Hbwf _ _ Hgb) as (_ & Hfl & _).
        destruct (wf_group _ Hbwf _ _ Hgb) as (_ & _ & _ & _ & rb & Hrb & Hlast).
        simpl in Hrb. rewrite Hbr in Hrb. injection Hrb as <-.
        assert (s_high_water (base_row r (h_epoch_id (header o)) (h_key_group (header o))) =
          s_high_water r) as Hhw by (unfold base_row; by case_decide).
        injection Heq as Heq. lia.
      * by destruct Hcase as (_ & ? & ?).
    + injection Heq as Hs Hf. destruct (wf_range _ Hbwf _ _ H0) as (_ & Hfl & _).
      destruct (wf_group _ Hbwf _ _ H0) as (_ & _ & _ & _ & rb & Hrb & Hlast).
      rewrite <-Hs, Hbr in Hrb. injection Hrb as <-.
      assert (s_high_water (base_row r (h_epoch_id (header o)) (h_key_group (header o))) =
        s_high_water r) as Hhw by (unfold base_row; by case_decide). lia.
  - apply lookup_insert_Some in H0 as [[<- <-]|[Hk H0]]; [|by eapply Hbb].
    rewrite Hfirst in Hne, Hrow. destruct (groups _ !! k) as [gb|] eqn:Hgb in Hcase.
    + destruct Hcase as [-> _]. by eapply Hbb.
    + destruct Hcase as (-> & _ & _). by destruct Hne.
Qed.

Lemma store_step_boundaries db db' :
  wf db -> content db -> boundaries db -> store_step cfg db db' -> boundaries db'.
Proof.
  intros Hwf Hct Hb [d db1 H|o now c db1 H|e now b db1 H|now n db1 H|s db1 H].
  - apply put_descriptor_Ok in H as (enc & pid & _ & _ & H). simpl in H.
    destruct (streams db !! _); [destruct H as [_ ->]|destruct H as (_ & _ & ->)];
      by eapply boundaries_frame; [|simpl; eauto|].
  - by eapply store_object_boundaries.
  - apply store_envelope_Ok in H as [[_ ->]|(d & pid & enc & g & g' & m & _ & H)]; [done|].
    destruct H as (_ & _ & _ & Hg & _ & _ & _ & Hadd & _ & Hret).
    apply enforce_retention_inv in Hret as [Hev _].
    eapply (evictions_preserve cfg boundaries); [|done|]; [by eauto using boundaries_delete|].
    apply bind_Some in Hadd as (x & _ & [= <-]). by eapply (boundaries_set_group db).
  - eapply (retention_streams_preserve cfg boundaries); [|done|done].
    by eauto using boundaries_delete.
  - apply finalize_stream_Ok in H as [->|(r & e & n & g & Hr & _ & _ & Hg & ->)]; [done| |done].
    by eapply (boundaries_set_group db).
Qed.

Lemma reachable_boundaries db : reachable cfg db -> boundaries db.
Proof.
  induction 1 as [|db db' Hre IH Hstep].
  - intros k g row H. simpl in H. by rewrite lookup_empty in H.
  - eapply store_step_boundaries; [..|done]; eauto using reachable_wf, reachable_content.
Qed.

(** * Durable appends *)

(** A byte-identical retry of a stored object is acknowledged and changes
    nothing. *)
Lemma store_object_retry db o now d row :
  validate_shape o = Ok tt -> descriptor_in db (h_stream_id (header o)) = Ok (Some d) ->
  verify_public o (desc_publisher (desc_body d)) = Ok tt ->
  object_encode o (desc_publisher (desc_body d)) = Ok (o_object row) ->
  i64_ok (h_sequence (header o)) ->
  objects db !! (h_stream_id (header o), h_sequence (header o)) = Some row ->
  store_object cfg db o now =
    Ok ({| committed_through := h_sequence (header o); evicted_groups := 0;
           inserted := false |}, db).
Proof.
  intros Hshape Hd Hv Henc Hq Hrow. unfold store_object. rewrite unit_bind.
  split; [by rewrite Hshape|]. rewrite Hd. cbn [mbind result_bind ok_or].
  rewrite unit_bind. split; [by rewrite Hv|]. rewrite Henc.
  cbn [mbind result_bind context map_err].
  assert (to_sql_u64 (h_sequence (header o)) "object sequence" = Ok (h_sequence (header o))) as ->
    by (by apply to_sql_u64_Ok).
  cbn [mbind result_bind]. rewrite Hrow, guard_bind. split; [by intros []|done].
Qed.

(** The guards an accepted object passed. *)
Lemma store_object_guards db o now commit db' :
  store_object cfg db o now = Ok (commit, db') ->
  validate_shape o = Ok tt /\ i64_ok (h_sequence (header o)) /\
  exists d enc, descriptor_in db (h_stream_id (header o)) = Ok (Some d) /\
    verify_public o (desc_publisher (desc_body d)) = Ok tt /\
    object_encode o (desc_publisher (desc_body d)) = Ok enc.
Proof.
  intros H. unfold store_object in H. rewrite unit_bind in H. destruct H as [Hshape%context_Ok H].
  apply bind_Ok_inv in H as (od & Hd & H). apply bind_Ok_inv in H as (d & Hsome%ok_or_Ok & H).
  subst od. rewrite unit_bind in H. destruct H as [Hv%context_Ok H].
  apply bind_Ok_inv in H as (enc & Henc%context_Ok & H).
  apply bind_Ok_inv in H as (q & [-> Hq]%to_sql_u64_Ok & _). eauto 10.
Qed.

Lemma get_object_row db s q d row o :
  descriptor_in db s = Ok (Some d) -> i64_ok q -> objects db !! (s, q) = Some row ->
  object_encode o (desc_publisher (desc_body d)) = Ok (o_object row) ->
  get_object db s q = Ok (Some o).
Proof.
  intros Hd Hq Hrow Henc. unfold get_object. rewrite Hd. cbn [mbind result_bind].
  assert (to_sql_u64 q "object sequence" = Ok q) as -> by (by apply to_sql_u64_Ok).
  cbn [mbind result_bind]. apply opt_traverse_Ok. rewrite Hrow. exists o. split; [|done].
  by apply context_Ok, object_codec_iff.
Qed.

Lemma descriptor_in_row db db' s r r' :
  streams db !! s = Some r -> streams db' !! s = Some r' -> s_descriptor r' = s_descriptor r ->
  descriptor_in db' s = descriptor_in db s.
Proof. intros Hr Hr' Hd. unfold descriptor_in. rewrite Hr, Hr'. simpl. by rewrite Hd. Qed.

(** What an accepted object leaves in the tables, first time or retry. *)
Lemma store_object_row db o now commit db' :
  wf db -> store_object cfg db o now = Ok (commit, db') ->
  committed_through commit = h_sequence (header o) /\
  descriptor_in db' (h_stream_id (header o)) = descriptor_in db (h_stream_id (header o)) /\
  (exists d row, descriptor_in db (h_stream_id (header o)) = Ok (Some d) /\
    objects db' !! (h_stream_id (header o), h_sequence (header o)) = Some row /\
    object_encode o (desc_publisher (desc_body d)) = Ok (o_object row)) /\
  (if inserted commit then
     exists r r', streams db !! h_stream_id (header o) = Some r /\
       streams db' !! h_stream_id (header o) = Some r' /\
       s_high_water r + 1 = h_sequence (header o) /\ s_high_water r' = h_sequence (header o)
   else db' = db).
Proof.
  intros Hwf [(-> & -> & d & row & Hd & Hrow & Henc)|[Hins]]%store_object_Ok; [| |done].
  { split_and!; simpl; eauto 10. }
  destruct Hins as (d & pid & Hd & Hpid & enc & Henc & Hins). simpl in Hins.
  destruct Hins as (r & db1 & g1 & g' & db2 & m & Hr & Hq & Hq64 & Hn & Hent & _ & Hg1 & Hgrow &
    Hchk & Hts & Hn0 & _ & Hdb2 & _ & Hret & ->).
  apply enforce_retention_inv in Hret as [Hev _].
  pose proof (evictions_frame _ _ _ _ _ _ Hev) as (Hstr & _ & Hgr & _).
  destruct (ent_group _ _ _ _ _ _ _ _ Hent) as (g & Hgr1 & Hinc & _).
  rewrite Hgr1, lookup_insert_eq in Hg1. injection Hg1 as <-.
  apply grow_group_Some in Hgrow as (_ & _ & _ & _ & Hc & _).
  set (k := (h_stream_id (header o), h_epoch_id (header o), h_key_group (header o))) in *.
  set (row := object_row o (h_key_group (header o)) now enc).
  assert (groups db2 !! k = Some g') as Hk by (by rewrite Hdb2; simpl; rewrite lookup_insert_eq).
  assert (streams db' !! h_stream_id (header o) =
    Some (appended_row r o (h_key_group (header o)) (h_sequence (header o)))) as Hr'
    by (rewrite Hstr, Hdb2; simpl; by rewrite lookup_insert_eq).
  split_and!; [done|by eapply descriptor_in_row| |].
  - exists d, row. split_and!; [done| |done]. eapply evictions_object; [done| |].
    + rewrite Hdb2. simpl. by rewrite lookup_insert_eq.
    + apply Hgr; [exact Hk|]. left. by rewrite Hc.
  - simpl. exists r. eexists. split_and!; [done|exact Hr'|lia|done].
Qed.

(** C5: an acknowledged object is durable: the acknowledgement names its
    sequence, a read of that sequence returns exactly that object, a first
    insertion extends the gapless history by one, and from then on only the same
    object is ever accepted at that sequence, as a retry that changes nothing. *)
Theorem store_object_durable db o now commit db' :
  reachable cfg db -> store_object cfg db o now = Ok (commit, db') ->
  let s := h_stream_id (header o) in
  let q := h_sequence (header o) in
  committed_through commit = q /\ get_object db' s q = Ok (Some o) /\
  (if inserted commit
   then high_water db s = Ok (Some (q - 1)) /\ high_water db' s = Ok (Some q)
   else db' = db) /\
  (forall now', store_object cfg db' o now' =
     Ok ({| committed_through := q; evicted_groups := 0; inserted := false |}, db')) /\
  (forall o' now' commit' db'', h_stream_id (header o') = s -> h_sequence (header o') = q ->
     store_object cfg db' o' now' = Ok (commit', db'') -> o' = o /\ db'' = db').
Proof.
  intros Hre H s q. pose proof (reachable_wf _ _ Hre) as Hwf.
  destruct (store_object_guards _ _ _ _ _ H) as (Hshape & Hq & d0 & enc & Hd0 & Hv & _).
  destruct (store_object_row _ _ _ _ _ Hwf H) as (Hc & Hdd & (d & row & Hd & Hrow & Henc) & Hins).
  assert (d0 = d) as -> by congruence. rewrite <-Hdd in Hd.
  pose proof (store_object_wf _ _ _ _ _ _ Hwf H) as Hwf'.
  split_and!; [done|by eapply get_object_row| | |].
  - destruct (inserted commit); [|done]. destruct Hins as (r & r' & Hr & Hr' & Hhw & Hhw').
    destruct (wf_stream _ Hwf _ _ Hr) as [[? _] ?]. destruct (wf_stream _ Hwf' _ _ Hr') as [[? _] ?].
    unfold high_water, s, q. rewrite Hr, Hr'.
    split; apply opt_traverse_Ok; eexists; (split; [|done]); apply from_sql_u64_Ok; ints.
  - intros now'. by eapply store_object_retry.
  - intros o' now' commit' db'' Hs Hqq H'.
    destruct (store_object_Ok _ _ _ _ _ _ Hwf' H') as
      [(-> & -> & d' & row' & Hd' & Hrow' & Henc')|[Hins']].
    + split; [|done]. rewrite Hs, Hqq in *. unfold s, q in *.
      assert (d' = d) as -> by congruence. rewrite Hrow in Hrow'. injection Hrow' as <-.
      apply object_codec_iff in Henc, Henc'. congruence.
    + destruct Hins' as (d' & pid & _ & _ & enc' & _ & Hins'). simpl in Hins'.
      destruct Hins' as (r & db1 & g1 & g' & db2 & m & _ & _ & _ & _ & _ & _ & _ & _ & _ & _ & _ &
        Hfresh & _). rewrite Hs, Hqq in Hfresh. unfold s, q in Hfresh. congruence.
Qed.

(** * Object lists *)

Lemma Forall2_elem {A B} (P : A -> B -> Prop) l k :
  Forall2 P l k -> Forall2 (fun x y => x ∈ l /\ P x y) l k.
Proof.
  intros H. apply Forall2_same_length_lookup. split; [by eapply Forall2_length|].
  intros i x y Hx Hy. split; [by eapply list_elem_of_lookup_2|by eapply Forall2_lookup_lr].
Qed.

Lemma elem_of_objects_after db s after q row :
  (q, row) ∈ objects_after db s after <-> objects db !! (s, q) = Some row /\ after < q.
Proof.
  unfold objects_after. rewrite merge_sort_Permutation, list_elem_of_omap. split.
  - intros ([[s' q'] row'] & Hin%elem_of_map_to_list & H).
    case_decide as Hd; [|done]. simplify_eq. by destruct Hd as [<- ?].
  - intros [Ho Ha]. exists ((s, q), row). split; [by apply elem_of_map_to_list|].
    by rewrite decide_True.
Qed.

Lemma objects_after_NoDup db s after : NoDup (objects_after db s after).*1.
Proof.
  unfold objects_after. rewrite merge_sort_Permutation.
  pose proof (NoDup_fst_map_to_list (objects db)) as Hnd. revert Hnd.
  generalize (map_to_list (objects db)). intros l. induction l as [|[[s' q] row] l IH];
    [intros; constructor|].
  cbn [omap list_omap fmap list_fmap fst]. rewrite NoDup_cons. intros [Hnin Hnd].
  case_decide as Hd; [|by apply IH]. cbn. rewrite NoDup_cons. split; [|by apply IH].
  intros ([q' row'] & Heq & Hin)%list_elem_of_fmap. simpl in Heq. subst q'. apply Hnin.
  apply list_elem_of_omap in Hin as ([[s2 q2] row2] & Hin & H).
  case_decide as Hd2; [|done]. simplify_eq.
  apply list_elem_of_fmap. exists ((s2, q), row'). destruct Hd as [-> _], Hd2 as [-> _]. done.
Qed.

Lemma objects_after_keys db s after r first :
  wf db -> streams db !! s = Some r ->
  (forall q, is_Some (objects db !! (s, q)) <-> first <= q <= s_high_water r) ->
  (objects_after db s after).*1 =
    seqZ (Z.max (after + 1) first) (s_high_water r + 1 - Z.max (after + 1) first).
Proof.
  intros Hwf Hr Hall. apply Sorted_interval.
  - eapply Sorted_fmap; [|apply Sorted_merge_sort].
    + by intros [x a] [y b].
    + intros x y. unfold sequence_le. lia.
  - apply objects_after_NoDup.
  - intros q. rewrite list_elem_of_fmap. split.
    + intros ([q' row] & -> & [Ho Ha]%elem_of_objects_after). simpl.
      assert (first <= q' <= s_high_water r) by (by apply Hall; eexists). lia.
    + intros Hq. destruct (proj2 (Hall q)) as [row Ho]; [lia|].
      exists (q, row). split; [done|]. apply elem_of_objects_after. split; [done|lia].
Qed.

(** An encoding determines its object, whatever the publisher. *)
Lemma object_encode_inj o o' p p' enc :
  object_encode o p = Ok enc -> object_encode o' p' = Ok enc -> o = o'.
Proof.
  unfold object_encode. rewrite !unit_bind.
  intros [_ (e & He%map_err_Ok & H)%bind_Ok_inv] [_ (e' & He'%map_err_Ok & H')%bind_Ok_inv].
  rewrite guard_bind in H, H'. destruct H as [_ [= ->]], H' as [_ [= ->]].
  by eapply to_stdvec_inj.
Qed.

(** A decoded row is the object of its key. *)
Lemma decoded_object db s q row p o :
  content db -> objects db !! (s, q) = Some row -> object_decode (o_object row) p = Ok o ->
  h_stream_id (header o) = s /\ h_sequence (header o) = q /\
  object_encode o p = Ok (o_object row).
Proof.
  intros Hct Hrow Hdec%object_codec_iff.
  destruct (ct_object _ Hct _ _ _ Hrow) as (r & g & _ & _ & o0 & p0 & Henc & _ & Hs & Hq & _).
  pose proof (object_encode_inj _ _ _ _ _ Hdec Henc) as ->. by split_and!.
Qed.

Lemma list_objects_run db s after limit l :
  reachable cfg db -> list_objects db s after limit = Ok l ->
  exists r first, streams db !! s = Some r /\
    (forall q, is_Some (objects db !! (s, q)) <-> first <= q <= s_high_water r) /\
    (h_sequence ∘ header) <$> l =
      seqZ (Z.max (after + 1) first)
        (Z.min limit (s_high_water r + 1 - Z.max (after + 1) first)) /\
    Forall (fun o => h_stream_id (header o) = s /\
              get_object db s (h_sequence (header o)) = Ok (Some o)) l.
Proof.
  intros Hre H. pose proof (reachable_wf _ _ Hre) as Hwf.
  pose proof (reachable_content _ _ Hre) as Hct. unfold list_objects in H.
  rewrite guard_bind in H. destruct H as [Hlim H]. nor_inv.
  apply bind_Ok_inv in H as (od & Hd & H). apply bind_Ok_inv in H as (d & Hsome%ok_or_Ok & H).
  subst od. apply bind_Ok_inv in H as (a & [-> Ha]%to_sql_u64_Ok & H).
  destruct (descriptor_in_content _ _ _ Hct Hd) as (r & Hr & _).
  destruct (retained_interval _ _ _ Hwf Hr) as (first & Hf & Hall & _).
  pose proof (objects_after_keys _ _ after _ _ Hwf Hr Hall) as Hkeys.
  apply mapR_Ok, Forall2_elem in H.
  assert (Forall2 (fun x o => h_sequence (header o) = x.1 /\ h_stream_id (header o) = s /\
            get_object db s (h_sequence (header o)) = Ok (Some o))
            (take (Z.to_nat limit) (objects_after db s after)) l) as Hl.
  { eapply Forall2_impl; [exact H|]. intros [q row] o [Hin Hdec]. simpl.
    assert ((q, row) ∈ objects_after db s after) as Hi by (eapply subseteq_take; exact Hin).
    apply elem_of_objects_after in Hi as [Hrow Hq]. apply context_Ok in Hdec.
    destruct (decoded_object _ _ _ _ _ _ Hct Hrow Hdec) as (? & Hseq & Henc).
    split_and!; [done..|]. rewrite Hseq. eapply get_object_row; try done.
    destruct (wf_object_high_water _ Hwf _ _ _ Hrow) as (r' & Hr' & ?).
    destruct (wf_stream _ Hwf _ _ Hr'). unfold i64_ok, i64_min in *. lia. }
  exists r, first. split_and!; [done|done| |].
  - transitivity ((take (Z.to_nat limit) (objects_after db s after)).*1).
    + symmetry. apply list_eq_Forall2, Forall2_fmap_2. eapply Forall2_impl; [exact Hl|].
      intros x o [Hq _]. by symmetry.
    + rewrite fmap_take, Hkeys, take_seqZ.
      destruct (decide (0 <= limit)); [f_equal; lia | by rewrite !seqZ_nil by lia].
  - eapply Forall2_Forall_r; [exact Hl|]. apply Forall_true. by intros x o [_ ?].
Qed.

(** An object list is gapless: it holds the stored objects of the stream
    after the given sequence, one for each sequence in order and without a hole
    up to the limit or the high-water mark; the only sequences it passes over
    are those already evicted, below the first retained one. *)
Theorem list_objects_gapless db s after limit l :
  reachable cfg db -> list_objects db s after limit = Ok l ->
  exists r first, streams db !! s = Some r /\
    (forall q, is_Some (objects db !! (s, q)) <-> first <= q <= s_high_water r) /\
    (h_sequence ∘ header) <$> l =
      seqZ (Z.max (after + 1) first)
        (Z.min limit (s_high_water r + 1 - Z.max (after + 1) first)) /\
    Forall (fun o => h_stream_id (header o) = s /\
              get_object db s (h_sequence (header o)) = Ok (Some o)) l.
Proof. apply list_objects_run. Qed.

(** * Subscription anchors *)

(** The groups a start request may select, and which of two it prefers. *)
Definition candidate (start : SubscriptionStart) (g : GroupRow) : Prop :=
  match start with
  | Live => True
  | OldestRetained => g_complete g = true
  | StartSequence sequence => g_first_sequence g <= sequence
  | StartTimestamp timestamp => g_first_timestamp g <= timestamp
  end.
Definition at_least_as_good (start : SubscriptionStart) (g g' : GroupRow) : Prop :=
  match start with
  | Live | StartSequence _ => g_first_sequence g' <= g_first_sequence g
  | OldestRetained => g_first_sequence g <= g_first_sequence g'
  | StartTimestamp _ => g_first_timestamp g' <= g_first_timestamp g
  end.
(** The number of the request fits the database's INTEGER. *)
Definition start_fits (start : SubscriptionStart) : Prop :=
  match start with
  | StartSequence n | StartTimestamp n => i64_ok n
  | _ => True
  end.

(** The selection made for a start request. *)
Definition selection (db : Db) (s : uuid) (start : SubscriptionStart) :
    option (group_key * GroupRow) :=
  match start with
  | Live => select_first group_after (stream_groups db s)
  | OldestRetained => oldest_complete db s
  | StartSequence n =>
      select_first group_after
        (filter (fun '(_, g) => g_first_sequence g <= n) (stream_groups db s))
  | StartTimestamp n =>
      select_first group_later
        (filter (fun '(_, g) => g_first_timestamp g <= n) (stream_groups db s))
  end.

Lemma selection_Some db s start k g :
  selection db s start = Some (k, g) ->
  groups db !! k = Some g /\ k.1.1 = s /\ candidate start g /\
  forall k' g', groups db !! k' = Some g' -> k'.1.1 = s -> candidate start g' ->
    at_least_as_good start g g'.
Proof.
  destruct start; unfold selection, oldest_complete, complete_groups;
    (intros [Hin Hbest]%select_first_Some; [|apply _]);
    first [apply elem_of_stream_groups in Hin as [Hg Hs]
          |apply list_elem_of_filter in Hin as [Hc [Hg Hs]%elem_of_stream_groups]]; simpl; split_and!; try done;
    intros k' g' Hg' Hs' Hc';
    match type of Hbest with forall y, _ -> ~ ?before y _ =>
      assert (~ before (k', g') (k, g)) as Hn
    end;
    try (apply Hbest; rewrite ?list_elem_of_filter, elem_of_stream_groups; auto);
    unfold group_after, group_before, group_later in Hn; simpl in Hn; lia.
Qed.

Lemma selection_None db s start :
  selection db s start = None ->
  forall k g, groups db !! k = Some g -> k.1.1 = s -> ~ candidate start g.
Proof.
  intros H k g Hg Hs Hc.
  assert ((k, g) ∈ stream_groups db s) as Hin by (by apply elem_of_stream_groups).
  destruct start; unfold selection, oldest_complete, complete_groups in H;
    rewrite select_first_None in H; [by rewrite H in Hin; apply not_elem_of_nil in Hin|..];
    (apply (not_elem_of_nil (k, g)); rewrite <-H; apply list_elem_of_filter; split; [exact Hc|exact Hin]).
Qed.

Lemma subscription_anchor_selection db s start r :
  wf db -> streams db !! s = Some r -> start_fits start ->
  subscription_anchor db s start =
    Ok (match selection db s start with
        | Some (_, g) => g_first_sequence g
        | None => s_high_water r + 1
        end).
Proof.
  intros Hwf Hr Hfit. unfold subscription_anchor. rewrite Hr. cbn [ok_or mbind result_bind].
  pose proof (wf_stream _ Hwf _ _ Hr) as [[Hhw _] Hmax].
  assert (from_sql_u64 (s_high_water r) "subscription high-water" = Ok (s_high_water r)) as ->
    by (apply from_sql_u64_Ok; ints).
  cbn [mbind result_bind].
  assert (u64_checked_add (s_high_water r) 1 = Some (s_high_water r + 1)) as ->
    by (apply u64_checked_add_Some; ints).
  cbn [ok_or mbind result_bind].
  assert (forall k g ctx, selection db s start = Some (k, g) ->
    from_sql_u64 (g_first_sequence g) ctx = Ok (g_first_sequence g)) as Hfrom.
  { intros k g ctx (Hg & _)%selection_Some. apply from_sql_u64_Ok. split; [done|].
    pose proof (wf_range _ Hwf _ _ Hg). ints. }
  destruct start; simpl in Hfit; cbn [selection] in *;
    try match goal with |- context [to_sql_u64 ?n ?f] =>
      assert (to_sql_u64 n f = Ok n) as -> by (by apply to_sql_u64_Ok) end;
    cbn [mbind result_bind];
    match goal with |- context [match ?x with Some _ => _ | None => _ end] =>
      destruct x as [[k g]|] eqn:E; [by eapply Hfrom|done] end.
Qed.

(** C24: every subscription of a known stream gets an anchor from which its
    viewer can decode: the anchor is the first sequence of the best retained
    group for the request, whose object is a random-access one, or the sequence
    after the high-water mark when no retained group qualifies; and every
    sequence from the anchor to the high-water mark is stored. *)
Theorem subscription_anchor_decodable db s start r :
  reachable cfg db -> streams db !! s = Some r -> start_fits start ->
  exists a, subscription_anchor db s start = Ok a /\ 0 < a <= s_high_water r + 1 /\
    (forall q, a <= q <= s_high_water r -> is_Some (objects db !! (s, q))) /\
    ((a = s_high_water r + 1 /\
      forall k g, groups db !! k = Some g -> k.1.1 = s -> ~ candidate start g) \/
     (exists k g, groups db !! k = Some g /\ k.1.1 = s /\ candidate start g /\
        a = g_first_sequence g /\
        (forall k' g', groups db !! k' = Some g' -> k'.1.1 = s -> candidate start g' ->
           at_least_as_good start g g') /\
        (forall o, get_object db s a = Ok (Some o) -> h_random_access (header o) = true))).
Proof.
  intros Hre Hr Hfit. pose proof (reachable_wf _ _ Hre) as Hwf.
  pose proof (reachable_content _ _ Hre) as Hct. pose proof (reachable_boundaries _ Hre) as Hb.
  pose proof (wf_stream _ Hwf _ _ Hr) as [[Hhw _] Hmax].
  eexists. split; [by apply subscription_anchor_selection|].
  destruct (selection db s start) as [[k g]|] eqn:E.
  - apply selection_Some in E as (Hg & Hs & Hc & Hbest).
    destruct (wf_range _ Hwf _ _ Hg) as (Hpos & Hfl & _).
    destruct (wf_group _ Hwf _ _ Hg) as (_ & _ & _ & _ & r' & Hr' & Hlast).
    rewrite Hs, Hr in Hr'. injection Hr' as <-. split; [lia|]. split.
    { intros q Hq. rewrite <-Hs. eapply wf_suffix; [done..|by rewrite Hs|done]. }
    right. exists k, g. split_and!; try done. intros o Ho.
    unfold get_object in Ho. apply bind_Ok_inv in Ho as ([d|] & Hd & Ho); [|done].
    apply bind_Ok_inv in Ho as (q & [-> Hq]%to_sql_u64_Ok & Ho). apply opt_traverse_Ok in Ho.
    destruct (objects db !! _) as [row|] eqn:Hrow; [|done].
    destruct Ho as (o' & Hdec%context_Ok & [= <-]). rewrite <-Hs in Hrow.
    destruct (Hb _ _ _ Hg Hrow) as (o1 & p1 & Henc1 & Hra & _).
    destruct (decoded_object _ _ _ _ _ _ Hct Hrow Hdec) as (_ & _ & Henc).
    by rewrite (object_encode_inj _ _ _ _ _ Henc Henc1).
  - split; [lia|]. split; [lia|]. left. split; [done|]. by apply selection_None.
Qed.

(** * Retained bounds *)

Lemma elem_of_complete_groups db s k g :
  (k, g) ∈ complete_groups db s <-> groups db !! k = Some g /\ k.1.1 = s /\ g_complete g = true.
Proof.
  unfold complete_groups. rewrite list_elem_of_filter, elem_of_stream_groups. tauto.
Qed.

(** The extremes of a column over the complete groups. *)
Lemma complete_min db s (f : group_key * GroupRow -> Z) v :
  list_min (f <$> complete_groups db s) = Some v ->
  (exists k g, groups db !! k = Some g /\ k.1.1 = s /\ g_complete g = true /\ f (k, g) = v) /\
  forall k g, groups db !! k = Some g -> k.1.1 = s -> g_complete g = true -> v <= f (k, g).
Proof.
  intros [([k g] & -> & (Hg & Hs & Hc)%elem_of_complete_groups)%list_elem_of_fmap Hmin]%list_min_Some.
  split; [eauto 10|]. intros k' g' Hg' Hs' Hc'. apply Hmin, list_elem_of_fmap.
  exists (k', g'). split; [done|]. by apply elem_of_complete_groups.
Qed.

Lemma complete_max db s (f : group_key * GroupRow -> Z) v :
  list_max (f <$> complete_groups db s) = Some v ->
  (exists k g, groups db !! k = Some g /\ k.1.1 = s /\ g_complete g = true /\ f (k, g) = v) /\
  forall k g, groups db !! k = Some g -> k.1.1 = s -> g_complete g = true -> f (k, g) <= v.
Proof.
  intros [([k g] & -> & (Hg & Hs & Hc)%elem_of_complete_groups)%list_elem_of_fmap Hmax]%list_max_Some.
  split; [eauto 10|]. intros k' g' Hg' Hs' Hc'. apply Hmax, list_elem_of_fmap.
  exists (k', g'). split; [done|]. by apply elem_of_complete_groups.
Qed.

Lemma retained_bounds_run db s r :
  reachable cfg db -> streams db !! s = Some r ->
  exists b, retained_bounds db s = Ok b /\
    match b with
    | None => forall k g, groups db !! k = Some g -> k.1.1 = s -> g_complete g = false
    | Some b =>
        0 < oldest_sequence b <= newest_sequence b /\ newest_sequence b <= s_high_water r /\
        oldest_timestamp b <= newest_timestamp b /\
        (forall k g, groups db !! k = Some g -> k.1.1 = s -> g_complete g = true ->
           oldest_sequence b <= g_first_sequence g /\ g_last_sequence g <= newest_sequence b /\
           oldest_timestamp b <= g_first_timestamp g /\
           g_last_timestamp g <= newest_timestamp b) /\
        (exists k g, groups db !! k = Some g /\ k.1.1 = s /\ g_complete g = true /\
           g_first_sequence g = oldest_sequence b) /\
        (exists k g, groups db !! k = Some g /\ k.1.1 = s /\ g_complete g = true /\
           g_last_sequence g = newest_sequence b) /\
        (forall q, oldest_sequence b <= q <= newest_sequence b ->
           is_Some (objects db !! (s, q)))
    end.
Proof.
  intros Hre Hr. pose proof (reachable_wf _ _ Hre) as Hwf.
  pose proof (wf_stream _ Hwf _ _ Hr) as [_ Hmax].
  assert (forall k g, groups db !! k = Some g -> k.1.1 = s ->
    0 < g_first_sequence g <= g_last_sequence g /\ g_last_sequence g <= s_high_water r /\
    0 <= g_first_timestamp g <= g_last_timestamp g /\ g_last_timestamp g <= i64_max) as Hrange.
  { intros k g Hg Hs. destruct (wf_range _ Hwf _ _ Hg) as (? & ? & _).
    destruct (wf_group _ Hwf _ _ Hg) as ((_ & _ & _ & ? & ? & _) & _ & ? & _ & r' & Hr' & ?).
    rewrite Hs, Hr in Hr'. injection Hr' as <-. lia. }
  unfold retained_bounds.
  destruct (list_min ((fun x => g_first_sequence x.2) <$> complete_groups db s)) as [a|] eqn:Ea.
  2: { exists None. split; [done|]. apply list_min_None, fmap_nil_inv in Ea.
       intros k g Hg Hs. apply not_true_iff_false. intros Hc.
       apply (not_elem_of_nil (k, g)). rewrite <-Ea. by apply elem_of_complete_groups. }
  destruct (list_max ((fun x => g_last_sequence x.2) <$> complete_groups db s)) as [b|] eqn:Eb;
    [|by apply list_max_None, fmap_nil_inv in Eb; rewrite Eb in Ea].
  destruct (list_min ((fun x => g_first_timestamp x.2) <$> complete_groups db s)) as [c|] eqn:Ec;
    [|by apply list_min_None, fmap_nil_inv in Ec; rewrite Ec in Ea].
  destruct (list_max ((fun x => g_last_timestamp x.2) <$> complete_groups db s)) as [d|] eqn:Ed;
    [|by apply list_max_None, fmap_nil_inv in Ed; rewrite Ed in Ea].
  apply complete_min in Ea as [(ka & ga & Hga & Hsa & Hca & Hfa) Ha].
  apply complete_max in Eb as [(kb & gb & Hgb & Hsb & Hcb & Hfb) Hb].
  apply complete_min in Ec as [(kc & gc & Hgc & Hsc & Hcc & Hfc) Hc].
  apply complete_max in Ed as [(kd & gd & Hgd & Hsd & Hcd & Hfd) Hd].
  pose proof (Hrange _ _ Hga Hsa). pose proof (Hrange _ _ Hgb Hsb).
  pose proof (Hrange _ _ Hgc Hsc). pose proof (Hrange _ _ Hgd Hsd).
  pose proof (Ha _ _ Hgb Hsb Hcb). pose proof (Hc _ _ Hgd Hsd Hcd). simpl in *.
  exists (Some {| oldest_sequence := a; newest_sequence := b; oldest_timestamp := c;
                  newest_timestamp := d |}).
  split.
  { assert (forall z ctx, 0 <= z <= i64_max -> from_sql_u64 z ctx = Ok z) as Hfrom
      by (intros; apply from_sql_u64_Ok; ints).
    simpl. by rewrite !Hfrom by lia. }
  simpl. split_and!; try lia.
  - intros k g Hg Hs Hcg. specialize (Ha _ _ Hg Hs Hcg). specialize (Hb _ _ Hg Hs Hcg).
    specialize (Hc _ _ Hg Hs Hcg). specialize (Hd _ _ Hg Hs Hcg). simpl in *. lia.
  - by exists ka, ga.
  - by exists kb, gb.
  - intros q Hq. rewrite <-Hsa. eapply wf_suffix; [done|exact Hga|by rewrite Hsa|lia].
Qed.

(** The retained bounds of a stream are those of its complete groups: the
    query always answers, reports nothing exactly when no group is complete,
    and otherwise its sequences and timestamps are ordered, are attained by
    complete groups, enclose all of them, and every sequence between them is
    stored. *)
Theorem retained_bounds_exact db s r :
  reachable cfg db -> streams db !! s = Some r ->
  exists b, retained_bounds db s = Ok b /\
    match b with
    | None => forall k g, groups db !! k = Some g -> k.1.1 = s -> g_complete g = false
    | Some b =>
        0 < oldest_sequence b <= newest_sequence b /\ newest_sequence b <= s_high_water r /\
        oldest_timestamp b <= newest_timestamp b /\
        (forall k g, groups db !! k = Some g -> k.1.1 = s -> g_complete g = true ->
           oldest_sequence b <= g_first_sequence g /\ g_last_sequence g <= newest_sequence b /\
           oldest_timestamp b <= g_first_timestamp g /\
           g_last_timestamp g <= newest_timestamp b) /\
        (exists k g, groups db !! k = Some g /\ k.1.1 = s /\ g_complete g = true /\
           g_first_sequence g = oldest_sequence b) /\
        (exists k g, groups db !! k = Some g /\ k.1.1 = s /\ g_complete g = true /\
           g_last_sequence g = newest_sequence b) /\
        (forall q, oldest_sequence b <= q <= newest_sequence b ->
           is_Some (objects db !! (s, q)))
    end.
Proof. apply retained_bounds_run. Qed.

(** * Key envelopes *)

(** A stored key envelope is found by its recipient as long as its group is
    retained, and is never replaced: a second envelope for the same recipient
    and group is ignored. *)
Theorem store_envelope_durable db e now db' :
  let h := env_header e in
  let k := ((eh_stream_id h, eh_epoch_id h), eh_key_group_id h) in
  reachable cfg db -> store_envelope cfg db e now = Ok (true, db') ->
  is_Some (groups db' !! k) ->
  get_envelope db' (eh_stream_id h) (eh_epoch_id h) (eh_key_group_id h) (eh_recipient_id h)
    = Ok (Some e) /\
  forall e' now' stored db'', 
    ((eh_stream_id (env_header e'), eh_epoch_id (env_header e')),
      eh_key_group_id (env_header e')) = k ->
    eh_recipient_id (env_header e') = eh_recipient_id h ->
    store_envelope cfg db' e' now' = Ok (stored, db'') -> stored = false /\ db'' = db'.
Proof.
  intros h k Hre H Hk. pose proof (reachable_wf _ _ Hre) as Hwf.
  pose proof (reachable_content _ _ Hre) as Hct.
  assert (envelope_validate_shape e = Ok tt) as Hshape.
  { unfold store_envelope in H. rewrite unit_bind in H. destruct H as [Hs _].
    by apply context_Ok in Hs. }
  apply store_envelope_Ok in H as [[? _]|(d & pid & enc & g & g' & m & _ & H)]; [done|].
  destruct H as (Hd & Hpid & Henc & Hg & Hkey & Hfresh & Hgrowth & Hadd & Hchk & Hret).
  fold h k in Hd, Hg, Hkey, Hfresh, Hgrowth, Hchk, Hret.
  apply enforce_retention_inv in Hret as [Hev _].
  pose proof (evictions_frame _ _ _ _ _ _ Hev) as (Hstr & _). simpl in Hstr.
  destruct Hk as [gk Hk].
  assert (envelopes db' !! (k, eh_recipient_id h) = Some {| e_key_id := eh_key_id h;
    e_received_at_ms := now; e_envelope := enc |}) as Hrow.
  { eapply evictions_envelope; [exact Hev| |exact Hk]. simpl. by rewrite lookup_insert_eq. }
  split.
  - unfold envelope_validate_shape, envelope_header_validate in Hshape.
    rewrite unit_bind in Hshape. destruct Hshape as [Hhdr _].
    rewrite !guard_bind, reject_if_Ok in Hhdr. destruct Hhdr as (_ & Hids & Hzero). nor_inv.
    unfold get_envelope. rewrite guard_bind. split; [tauto|].
    assert (descriptor_in db' (eh_stream_id h) = Ok (Some d)) as ->
      by (unfold descriptor_in in *; by rewrite Hstr).
    cbn [mbind result_bind ok_or].
    assert (to_sql_u64 (eh_key_group_id h) "envelope key group" = Ok (eh_key_group_id h)) as ->.
    { apply to_sql_u64_Ok. split; [done|]. destruct (wf_group _ Hwf _ _ Hg) as ((? & _) & ? & _).
      unfold k in *. simpl in *. ints. }
    cbn [mbind result_bind]. apply opt_traverse_Ok. fold k. rewrite Hrow. exists e.
    split; [|done]. by apply context_Ok, envelope_codec_iff.
  - intros e' now' stored db'' Hk' Hr' [[-> ->]|(d' & pid' & enc' & g0 & g1 & m' & _ & H')]%store_envelope_Ok;
      [done|].
    destruct H' as (_ & _ & _ & _ & _ & Hfresh' & _). rewrite Hk', Hr' in Hfresh'. congruence.
Qed.
End queries.

(** ** Witnesses *)

Lemma store_object_durable_witness :
  exists db', store_object sample_config sample_db0 sample_object 1000 =
      Ok ({| committed_through := 1; evicted_groups := 0; inserted := true |}, db') /\
    get_object db' sample_stream 1 = Ok (Some sample_object) /\
    high_water db' sample_stream = Ok (Some 1).
Proof.
  assert (fst <$> result_ok (store_object sample_config sample_db0 sample_object 1000) =
    Some {| committed_through := 1; evicted_groups := 0; inserted := true |}) as Hc
    by (vm_compute; reflexivity).
  destruct (store_object sample_config sample_db0 sample_object 1000) as [[c db']|] eqn:E;
    [|discriminate].
  injection Hc as Hc. subst c. exists db'. split; [reflexivity|].
  destruct (store_object_durable sample_config _ _ _ _ _ sample_reachable0 E)
    as (_ & Hget & [_ Hins] & _).
  split; [exact Hget|exact Hins].
Defined.

Lemma list_objects_gapless_witness :
  exists l, list_objects sample_db1 sample_stream 0 5 = Ok l /\
    (h_sequence ∘ header) <$> l = [1].
Proof.
  destruct (list_objects sample_db1 sample_stream 0 5) as [l|] eqn:E.
  - exists l. split; [reflexivity|].
    destruct (list_objects_gapless sample_config _ _ _ _ _ sample_reachable1 E)
      as (r & first & Hr & Hall & -> & _).
    assert (s_high_water <$> streams sample_db1 !! sample_stream = Some 1) as Hhw
      by (vm_compute; reflexivity).
    rewrite Hr in Hhw. injection Hhw as Hhw. rewrite Hhw in *.
    assert (is_Some (objects sample_db1 !! (sample_stream, 1))) as H1
      by (apply not_eq_None_Some; vm_compute; discriminate).
    apply Hall in H1. replace (Z.max (0 + 1) first) with 1 by lia. reflexivity.
  - exfalso. assert (is_ok (list_objects sample_db1 sample_stream 0 5) = true) as Ht
      by (vm_compute; reflexivity). by rewrite E in Ht.
Defined.

Lemma subscription_anchor_decodable_witness :
  exists a, subscription_anchor sample_db1 sample_stream (StartSequence 1) = Ok a /\
    forall q, a <= q <= 1 -> is_Some (objects sample_db1 !! (sample_stream, q)).
Proof.
  destruct (streams sample_db1 !! sample_stream) as [r|] eqn:Hr;
    [|exfalso; revert Hr; vm_compute; discriminate].
  assert (s_high_water <$> streams sample_db1 !! sample_stream = Some 1) as Hhw
    by (vm_compute; reflexivity).
  rewrite Hr in Hhw. injection Hhw as Hhw.
  assert (start_fits (StartSequence 1)) as Hfit by (vm_compute; split; discriminate).
  destruct (subscription_anchor_decodable sample_config _ _ _ _ sample_reachable1 Hr Hfit)
    as (a & Ha & _ & Hall & _).
  exists a. split; [exact Ha|]. rewrite Hhw in Hall. exact Hall.
Defined.

Lemma retained_bounds_exact_witness :
  exists b, retained_bounds sample_db sample_stream = Ok (Some b) /\ newest_sequence b = 2.
Proof.
  destruct (streams sample_db !! sample_stream) as [r|] eqn:Hr;
    [|exfalso; revert Hr; vm_compute; discriminate].
  destruct (retained_bounds_exact sample_config _ _ _ sample_reachable Hr) as (b & Hb & _).
  assert (match retained_bounds sample_db sample_stream with
          | Ok (Some b) => newest_sequence b | _ => 0 end = 2) as Ht by (vm_compute; reflexivity).
  rewrite Hb in Ht. destruct b as [b|]; [|discriminate].
  exists b. split; [exact Hb|exact Ht].
Defined.

Lemma store_envelope_durable_witness :
  exists db', store_envelope sample_config sample_db2 sample_envelope 1050 = Ok (true, db') /\
    get_envelope db' sample_stream sample_epoch 1
      (eh_recipient_id (env_header sample_envelope)) = Ok (Some sample_envelope).
Proof.
  assert (match store_envelope sample_config sample_db2 sample_envelope 1050 with
          | Ok (b, db') => (b, bool_decide (is_Some (groups db' !! ((sample_stream, sample_epoch), 1))))
          | Err _ => (false, false) end = (true, true)) as Hb by (vm_compute; reflexivity).
  destruct (store_envelope sample_config sample_db2 sample_envelope 1050) as [[b db']|] eqn:E;
    [|discriminate].
  injection Hb as Hb Hk. subst b. exists db'. split; [reflexivity|].
  destruct (store_envelope_durable sample_config _ _ _ _ sample_reachable2 E) as [H _];
    [apply bool_decide_eq_true in Hk; exact Hk|exact H].
Defined.
