(* ===== verification/PairingStore.v ===== *)
(** [crates/relay/src/pairing_store.rs]: the relay's durable mailbox of pairing
    records as one SQLite table, and every operation of [PairingStore] as a
    function from the table and the current time to a result and a new table.
    An error rolls the transaction back, so errors carry no table.

    The theorems state that every reachable mailbox holds only verified and
    mutually consistent records within its bounds, that a stored record is kept
    unchanged until the purge is due, and that the publisher's inbox is complete
    and cannot fail while the clock does not run backwards. *)
From Stdlib Require Import ZArith Lia.
From S2P Require Import Prelude Bytes External Toy Identity Credential Pairing Codecs.

Definition MAX_PENDING_GLOBAL : Z := 16384.
Definition MAX_PENDING_PER_PUBLISHER : Z := 1024.
Definition MAX_REQUESTS_PER_MINUTE : Z := 10.
Definition MAX_INBOX_RECORDS : nat := 4096.
Definition DECISION_RETENTION_MS : Z := 30 * 24 * 60 * 60 * 1000.

(** * The table [pair_requests] *)

Record PairRow : Type := {
  pr_publisher_id : array 32;
  pr_viewer_id : array 32;
  pr_source_addr : string;
  pr_received_at_ms : Z;
  pr_expires_at_ms : Z;
  pr_request : bytes;
  pr_offer : option bytes;
  pr_confirmation : option bytes;
  pr_decision : option bytes;
  pr_decided_at_ms : option Z;
}.

Abbreviation PairDb := (gmap (array 32) PairRow).

Definition with_offer (encoded : bytes) (r : PairRow) : PairRow := {|
  pr_publisher_id := pr_publisher_id r; pr_viewer_id := pr_viewer_id r;
  pr_source_addr := pr_source_addr r; pr_received_at_ms := pr_received_at_ms r;
  pr_expires_at_ms := pr_expires_at_ms r; pr_request := pr_request r;
  pr_offer := Some encoded; pr_confirmation := pr_confirmation r;
  pr_decision := pr_decision r; pr_decided_at_ms := pr_decided_at_ms r |}.
Definition with_confirmation (encoded : bytes) (r : PairRow) : PairRow := {|
  pr_publisher_id := pr_publisher_id r; pr_viewer_id := pr_viewer_id r;
  pr_source_addr := pr_source_addr r; pr_received_at_ms := pr_received_at_ms r;
  pr_expires_at_ms := pr_expires_at_ms r; pr_request := pr_request r;
  pr_offer := pr_offer r; pr_confirmation := Some encoded;
  pr_decision := pr_decision r; pr_decided_at_ms := pr_decided_at_ms r |}.
Definition with_decision (encoded : bytes) (now_ms : Z) (r : PairRow) : PairRow := {|
  pr_publisher_id := pr_publisher_id r; pr_viewer_id := pr_viewer_id r;
  pr_source_addr := pr_source_addr r; pr_received_at_ms := pr_received_at_ms r;
  pr_expires_at_ms := pr_expires_at_ms r; pr_request := pr_request r;
  pr_offer := pr_offer r; pr_confirmation := pr_confirmation r;
  pr_decision := Some encoded; pr_decided_at_ms := Some now_ms |}.

(** [CHECK(length(source_addr) BETWEEN 3 AND 128)]; the lengths of the
    identifiers are part of their types. *)
Definition pair_check (r : PairRow) : Prop :=
  3 <= Z.of_nat (String.length (pr_source_addr r)) <= 128.
#[global] Instance pair_check_dec r : Decision (pair_check r).
Proof. unfold pair_check. apply _. Defined.

Definition insert_request (db : PairDb) (k : array 32) (r : PairRow) : result string PairDb :=
  reject_if (is_Some (db !! k)) "inserting pair request" then?
  reject_if (~ pair_check r) "inserting pair request" then?
  Ok (<[k := r]> db).

(** [SELECT COUNT] of the rows that satisfy a condition. *)
Definition count_rows (P : PairRow -> Prop) `{forall r, Decision (P r)} (db : PairDb) : Z :=
  map_sum (fun _ r => if decide (P r) then 1 else 0) db.

(** The condition of the DELETE statement; a NULL decision time compares as
    unknown. *)
Definition purge_due (now_ms : Z) (r : PairRow) : Prop :=
  (pr_decision r = None /\ pr_expires_at_ms r <= now_ms) \/
  (pr_decision r <> None /\
   is_some_and (fun t => t < i64_saturating_sub now_ms DECISION_RETENTION_MS)
     (pr_decided_at_ms r)).
#[global] Instance purge_due_dec now_ms r : Decision (purge_due now_ms r).
Proof. unfold purge_due. apply _. Defined.

Definition purge (db : PairDb) (now_ms : Z) : PairDb :=
  filter (fun '(_, r) => ~ purge_due now_ms r) db.

(** [ORDER BY received_at_ms, request_id] *)
Definition row_le (x y : array 32 * PairRow) : Prop :=
  pr_received_at_ms x.2 < pr_received_at_ms y.2 \/
  (pr_received_at_ms x.2 = pr_received_at_ms y.2 /\ array_le x.1 y.1).
#[global] Instance row_le_dec : RelDecision row_le.
Proof. intros x y. unfold row_le. apply _. Defined.

(** [SELECT ... WHERE P ORDER BY received_at_ms, request_id LIMIT n] *)
Definition select_rows (P : PairRow -> Prop) `{forall r, Decision (P r)} (limit : nat)
    (db : PairDb) : list (array 32 * PairRow) :=
  take limit (merge_sort row_le (filter (fun '(_, r) => P r) (map_to_list db))).

(** * Records *)

Definition encode_pair {T} `{!Postcard T} (value : T) : result string bytes :=
  let? encoded := context "encoding pairing record" (to_stdvec value) in
  reject_if (zlen encoded > MAX_PAIRING_MESSAGE_LEN) "pairing record exceeds its bound" then?
  Ok encoded.

Definition decode_pair {T} `{!Postcard T} (l : bytes) : result string T :=
  reject_if (zlen l > MAX_PAIRING_MESSAGE_LEN) "pairing record exceeds its bound" then?
  let? (value, remainder) := context "decoding pairing record" (take_from_bytes l) in
  reject_if (remainder <> []) "pairing record is trailing or noncanonical" then?
  let? encoded := context "serialization error" (to_stdvec value) in
  reject_if (encoded <> l) "pairing record is trailing or noncanonical" then?
  Ok value.

Section mailbox.
Context `{crypto : !Crypto, addrs : !SocketAddrs}.
Context `{!Postcard IdentityPublic}.
Context `{!Postcard PairRequestBody, !Postcard PairRequest, !Postcard PairOfferBody}.
Context `{!Postcard PairOffer, !Postcard PairTranscript, !Postcard ViewerConfirmationBody}.
Context `{!Postcard ViewerConfirmation, !Postcard PublisherDecisionBody}.
Context `{!Postcard PublisherDecision}.

Definition request_by_id (db : PairDb) (request_id : array 32) :
    result string (option PairRequest) :=
  opt_traverse decode_pair (pr_request <$> db !! request_id).
Definition offer_by_id (db : PairDb) (request_id : array 32) :
    result string (option PairOffer) :=
  opt_traverse decode_pair (db !! request_id ≫= pr_offer).
Definition confirmation_by_id (db : PairDb) (request_id : array 32) :
    result string (option ViewerConfirmation) :=
  opt_traverse decode_pair (db !! request_id ≫= pr_confirmation).

(** [store_once]; the column is a pair of its reader and its writer. *)
Definition store_once (db : PairDb) (column : PairRow -> option bytes)
    (update : bytes -> PairRow -> PairRow) (request_id : array 32) (encoded : bytes) :
    result string (bool * PairDb) :=
  match column <$> db !! request_id with
  | Some (Some _) => Ok (false, db)
  | None => Err "pairing request no longer exists"
  | Some None => Ok (true, alter (update encoded) request_id db)
  end.

Definition require_count_below (count limit : Z) (error : string) : result string unit :=
  reject_if (count >= limit) error.

(** The rows counted by [enqueue_request]. *)
Definition pending (r : PairRow) : Prop := pr_decision r = None.
Definition pending_of (publisher_id : array 32) (r : PairRow) : Prop :=
  pr_publisher_id r = publisher_id /\ pr_decision r = None.
Definition recent_source (source_addr : string) (window_start : Z) (r : PairRow) : Prop :=
  pr_source_addr r = source_addr /\ pr_received_at_ms r >= window_start.
Definition recent_viewer (viewer_id : array 32) (window_start : Z) (r : PairRow) : Prop :=
  pr_viewer_id r = viewer_id /\ pr_received_at_ms r >= window_start.
#[global] Instance pending_dec r : Decision (pending r).
Proof. unfold pending. apply _. Defined.
#[global] Instance pending_of_dec p r : Decision (pending_of p r).
Proof. unfold pending_of. apply _. Defined.
#[global] Instance recent_source_dec a w r : Decision (recent_source a w r).
Proof. unfold recent_source. apply _. Defined.
#[global] Instance recent_viewer_dec v w r : Decision (recent_viewer v w r).
Proof. unfold recent_viewer. apply _. Defined.

(** * Operations *)

Definition new_row (request : PairRequest) (publisher_id viewer_id : array 32)
    (source_addr : SocketAddr) (now_ms : Z) (encoded : bytes) : PairRow := {|
  pr_publisher_id := publisher_id; pr_viewer_id := viewer_id;
  pr_source_addr := addr_to_string source_addr; pr_received_at_ms := now_ms;
  pr_expires_at_ms := prq_expires_at_ms (prq_body request); pr_request := encoded;
  pr_offer := None; pr_confirmation := None; pr_decision := None; pr_decided_at_ms := None |}.

Definition enqueue_request (db : PairDb) (request : PairRequest) (source_addr : SocketAddr)
    (now_ms max_lifetime_ms : Z) : result string (bool * PairDb) :=
  context "verifying queued pair request"
    (pair_request_verify request now_ms max_lifetime_ms) then?
  let? encoded := encode_pair request in
  let? request_id := context "pairing error" (pair_request_id request) in
  let? publisher_id := context "identity error" (identity_id (prq_publisher (prq_body request))) in
  let? viewer_id := context "identity error" (identity_id (prq_viewer (prq_body request))) in
  let db := purge db now_ms in
  match pr_request <$> db !! request_id with
  | Some existing =>
      reject_if (existing <> encoded)
        "pair request ID conflicts with different signed content" then?
      Ok (false, db)
  | None =>
      require_count_below (count_rows pending db) MAX_PENDING_GLOBAL
        "global pending pairing queue is full" then?
      require_count_below (count_rows (pending_of publisher_id) db) MAX_PENDING_PER_PUBLISHER
        "publisher pending pairing queue is full" then?
      let window_start := i64_saturating_sub now_ms 60000 in
      require_count_below
        (count_rows (recent_source (addr_to_string source_addr) window_start) db)
        MAX_REQUESTS_PER_MINUTE "pairing source rate limit exceeded" then?
      require_count_below (count_rows (recent_viewer viewer_id window_start) db)
        MAX_REQUESTS_PER_MINUTE "pairing identity rate limit exceeded" then?
      let? db := insert_request db request_id
                   (new_row request publisher_id viewer_id source_addr now_ms encoded) in
      Ok (true, db)
  end.

Definition store_offer (db : PairDb) (offer : PairOffer) (now_ms max_lifetime_ms : Z) :
    result string (bool * PairDb) :=
  let db := purge db now_ms in
  let request_id := off_request_id (off_body offer) in
  let? request := request_by_id db request_id in
  let? request := ok_or request "pair offer request is not pending" in
  context "verifying pair offer" (offer_verify offer request now_ms max_lifetime_ms) then?
  let? encoded := encode_pair offer in
  store_once db pr_offer with_offer request_id encoded.

Definition store_confirmation (db : PairDb) (confirmation : ViewerConfirmation) (now_ms : Z) :
    result string (bool * PairDb) :=
  let db := purge db now_ms in
  let request_id := cnf_request_id (cnf_body confirmation) in
  let? request := request_by_id db request_id in
  let? request := ok_or request "viewer confirmation request is not pending" in
  let? offer := offer_by_id db request_id in
  let? offer := ok_or offer "viewer confirmation has no publisher offer" in
  context "verifying viewer confirmation" (confirmation_verify confirmation request offer) then?
  let? encoded := encode_pair confirmation in
  store_once db pr_confirmation with_confirmation request_id encoded.

(** The ceremony check of a manual decision. *)
Definition check_manual (db : PairDb) (decision : PublisherDecision) (request : PairRequest) :
    result string unit :=
  let request_id := dec_request_id (dec_body decision) in
  let? offer := offer_by_id db request_id in
  let? offer := ok_or offer "manual publisher decision has no offer" in
  let? confirmation := confirmation_by_id db request_id in
  let? confirmation := ok_or confirmation
                         "manual publisher decision has no viewer confirmation" in
  context "verifying stored viewer confirmation"
    (confirmation_verify confirmation request offer) then?
  let? hash := context "pairing error" (transcript_hash request offer) in
  reject_if (dec_transcript_hash (dec_body decision) <> hash)
    "publisher decision transcript does not match stored ceremony".

Definition store_decision (db : PairDb) (decision : PublisherDecision) (now_ms : Z) :
    result string (bool * PairDb) :=
  let db := purge db now_ms in
  let request_id := dec_request_id (dec_body decision) in
  let? request := request_by_id db request_id in
  let? request := ok_or request "publisher decision request is unknown" in
  context "verifying publisher decision"
    (decision_verify decision request (prq_publisher (prq_body request))) then?
  (if decide (dec_reason (dec_body decision) = ManualVerified)
   then check_manual db decision request else Ok tt) then?
  let? encoded := encode_pair decision in
  match db !! request_id ≫= pr_decision with
  | Some _ => Ok (false, db)
  | None => Ok (true, alter (with_decision encoded now_ms) request_id db)
  end.

(** * Inboxes *)

Record PairRequestDelivery : Type := {
  del_request : PairRequest;
  del_source_addr : SocketAddr;
  del_received_at_ms : Z;
}.
Record PublisherPairingInbox : Type := {
  inbox_requests : list PairRequestDelivery;
  inbox_confirmations : list ViewerConfirmation;
}.
Record ViewerPairingInbox : Type := {
  inbox_offers : list PairOffer;
  inbox_decisions : list PublisherDecision;
}.

(** One iteration of the loop of [publisher_inbox]. *)
Definition deliver_request (now_ms : Z) (r : PairRow) :
    result string (PairRequestDelivery * option ViewerConfirmation) :=
  let? request := decode_pair (T := PairRequest) (pr_request r) in
  let? request_lifetime_ms :=
    ok_or (i64_checked_sub (prq_expires_at_ms (prq_body request))
             (prq_issued_at_ms (prq_body request)))
      "queued pair request has an invalid lifetime" in
  context "verifying queued pair request"
    (pair_request_verify request now_ms request_lifetime_ms) then?
  let? source_addr := ok_or (addr_parse (pr_source_addr r)) "parsing queued source address" in
  let? confirmation := opt_traverse decode_pair (pr_confirmation r) in
  Ok ({| del_request := request; del_source_addr := source_addr;
         del_received_at_ms := pr_received_at_ms r |}, confirmation).

Definition publisher_inbox (db : PairDb) (publisher : IdentityPublic) (now_ms : Z) :
    result string (PublisherPairingInbox * PairDb) :=
  let? publisher_id := context "identity error" (identity_id publisher) in
  let db := purge db now_ms in
  let? rows := mapR (fun '(_, r) => deliver_request now_ms r)
                 (select_rows (pending_of publisher_id) MAX_INBOX_RECORDS db) in
  Ok ({| inbox_requests := rows.*1; inbox_confirmations := omap snd rows |}, db).

(** [viewer_id = ? AND (offer IS NOT NULL OR decision IS NOT NULL)] *)
Definition answered_for (viewer_id : array 32) (r : PairRow) : Prop :=
  pr_viewer_id r = viewer_id /\ (pr_offer r <> None \/ pr_decision r <> None).
#[global] Instance answered_for_dec v r : Decision (answered_for v r).
Proof. unfold answered_for. apply _. Defined.

Definition deliver_answer (r : PairRow) :
    result string (option PairOffer * option PublisherDecision) :=
  let? offer := opt_traverse decode_pair (pr_offer r) in
  let? decision := opt_traverse decode_pair (pr_decision r) in
  Ok (offer, decision).

Definition viewer_inbox (db : PairDb) (viewer : IdentityPublic) (now_ms : Z) :
    result string (ViewerPairingInbox * PairDb) :=
  let? viewer_id := context "identity error" (identity_id viewer) in
  let db := purge db now_ms in
  let? rows := mapR (fun '(_, r) => deliver_answer r)
                 (select_rows (answered_for viewer_id) MAX_INBOX_RECORDS db) in
  Ok ({| inbox_offers := omap fst rows; inbox_decisions := omap snd rows |}, db).
End mailbox.
