(* ===== verification/PairingInv.v ===== *)
(** The invariant of the pairing mailbox: every stored record is verified and
    consistent with the earlier records of its ceremony, the queue bounds hold,
    and every operation preserves this; consequences for the lifetime of stored
    records and for the inboxes. *)
From Stdlib Require Import ZArith Lia.
From S2P Require Import Prelude Bytes External Toy Identity Credential Pairing Codecs PairingStore.

(** [encoded] is the bounded encoding of [v]. *)
Definition encodes {T} `{!Postcard T} (v : T) (encoded : bytes) : Prop :=
  to_stdvec v = Ok encoded /\ zlen encoded <= MAX_PAIRING_MESSAGE_LEN.

Lemma encode_pair_Ok {T} `{!Postcard T} (v : T) l : encode_pair v = Ok l <-> encodes v l.
Proof.
  unfold encode_pair, encodes. split.
  - intros (e & He%context_Ok & H)%bind_Ok_inv. rewrite guard_bind in H.
    destruct H as [Hl [= ->]]. split; [done|lia].
  - intros [-> Hl]. cbn [context map_err mbind result_bind]. rewrite guard_bind.
    split; [lia|done].
Qed.

Lemma decode_pair_Ok {T} `{!Postcard T, !PostcardLaws T} (v : T) l :
  decode_pair l = Ok v <-> encodes v l.
Proof.
  unfold decode_pair, encodes. rewrite guard_bind. split.
  - intros (Hlen & ([w rest] & Ht%context_Ok & H)%bind_Ok_inv). rewrite guard_bind in H.
    destruct H as [_ H]. apply bind_Ok_inv in H as (e & He%context_Ok & H).
    rewrite guard_bind in H. destruct H as [->%dec_stable [= ->]]. split; [done|lia].
  - intros [Hv Hlen]. split; [lia|]. rewrite (take_to_stdvec_nil _ _ Hv).
    cbn [context map_err mbind result_bind]. rewrite guard_bind. split; [by intros []|].
    rewrite Hv. cbn [context map_err mbind result_bind]. rewrite guard_bind.
    by split; [intros []|].
Qed.

Lemma count_rows_insert P `{forall r, Decision (P r)} db k r :
  db !! k = None -> count_rows P (<[k := r]> db) = (if decide (P r) then 1 else 0) + count_rows P db.
Proof. intros Hk. unfold count_rows. by rewrite map_sum_insert. Qed.

Lemma count_rows_filter P `{forall r, Decision (P r)} Q `{forall x, Decision (Q x)} (db : PairDb) :
  count_rows P (filter Q db) <= count_rows P db.
Proof.
  unfold count_rows. rewrite map_sum_filter.
  induction db as [|k r db Hk IH] using map_ind; [done|].
  rewrite !map_sum_insert by done. repeat case_decide; lia.
Qed.

(** Changing rows only towards [~ P] does not raise the count. *)
Lemma count_rows_alter P `{forall r, Decision (P r)} f k (db : PairDb) :
  (forall r, P (f r) -> P r) -> count_rows P (alter f k db) <= count_rows P db.
Proof.
  intros Hf. unfold count_rows. rewrite alter_alt. destruct (db !! k) as [r|] eqn:Hk; [|done].
  rewrite (map_sum_update _ _ _ _ _ Hk). specialize (Hf r). repeat case_decide; lia || naive_solver.
Qed.

Lemma count_rows_length P `{forall r, Decision (P r)} (db : PairDb) :
  count_rows P db = zlen (filter (fun '(_, r) => P r) (map_to_list db)).
Proof.
  unfold count_rows. induction db as [|k r db Hk IH] using map_ind; [done|].
  rewrite map_sum_insert by done. rewrite map_to_list_insert by done. rewrite IH.
  case_decide; [rewrite filter_cons_True by done|rewrite filter_cons_False by done]; simpl; lia.
Qed.

(** A selection that stays within its LIMIT is exact. *)
Lemma elem_of_select_rows P `{forall r, Decision (P r)} limit (db : PairDb) k r :
  count_rows P db <= Z.of_nat limit ->
  (k, r) ∈ select_rows P limit db <-> db !! k = Some r /\ P r.
Proof.
  intros Hlim. rewrite count_rows_length in Hlim. unfold select_rows. rewrite take_ge.
  - rewrite merge_sort_Permutation, list_elem_of_filter, elem_of_map_to_list. naive_solver.
  - erewrite Permutation_length by apply merge_sort_Permutation. lia.
Qed.

Lemma elem_of_select_rows_1 P `{forall r, Decision (P r)} limit (db : PairDb) k r :
  (k, r) ∈ select_rows P limit db -> db !! k = Some r /\ P r.
Proof.
  unfold select_rows. intros (i & Hi & _)%elem_of_take.
  apply list_elem_of_lookup_2 in Hi.
  rewrite merge_sort_Permutation, list_elem_of_filter, elem_of_map_to_list in Hi. naive_solver.
Qed.

Section invariant.
Context `{crypto : !Crypto, addrs : !SocketAddrs}.
Context `{!Postcard IdentityPublic}.
Context `{!Postcard PairRequestBody, !Postcard PairRequest, !Postcard PairOfferBody}.
Context `{!Postcard PairOffer, !Postcard PairTranscript, !Postcard ViewerConfirmationBody}.
Context `{!Postcard ViewerConfirmation, !Postcard PublisherDecisionBody}.
Context `{!Postcard PublisherDecision}.
Context `{!PostcardLaws PairRequest, !PostcardLaws PairOffer}.
Context `{!PostcardLaws ViewerConfirmation, !PostcardLaws PublisherDecision}.

(** The stored request was verified when it was received, and its columns are
    those of the request. *)
Definition request_ok (k : array 32) (r : PairRow) (request : PairRequest) : Prop :=
  encodes request (pr_request r) /\ pair_request_id request = Ok k /\
  pair_id (prq_publisher (prq_body request)) = Ok (pr_publisher_id r) /\
  pair_id (prq_viewer (prq_body request)) = Ok (pr_viewer_id r) /\
  pr_expires_at_ms r = prq_expires_at_ms (prq_body request) /\
  (exists addr, pr_source_addr r = addr_to_string addr) /\
  (exists max, pair_request_verify request (pr_received_at_ms r) max = Ok tt).

(** The stored offer was verified for the request. *)
Definition offer_ok (r : PairRow) (request : PairRequest) (offer : PairOffer) : Prop :=
  (exists lo, pr_offer r = Some lo /\ encodes offer lo) /\
  (exists now max, offer_verify offer request now max = Ok tt).

(** The stored confirmation is the viewer's yes to the stored offer. *)
Definition confirmation_ok (r : PairRow) (request : PairRequest) (offer : PairOffer)
    (confirmation : ViewerConfirmation) : Prop :=
  offer_ok r request offer /\
  (exists lc, pr_confirmation r = Some lc /\ encodes confirmation lc) /\
  confirmation_verify confirmation request offer = Ok tt.

(** The stored decision was signed by the publisher, and a manual one has its
    ceremony beside it. *)
Definition decision_ok (r : PairRow) (request : PairRequest) (decision : PublisherDecision) :
    Prop :=
  (exists ld, pr_decision r = Some ld /\ encodes decision ld) /\
  decision_verify decision request (prq_publisher (prq_body request)) = Ok tt /\
  (dec_reason (dec_body decision) = ManualVerified ->
   exists offer confirmation, confirmation_ok r request offer confirmation /\
     transcript_hash request offer = Ok (dec_transcript_hash (dec_body decision))).

Definition row_ok (k : array 32) (r : PairRow) : Prop :=
  exists request, request_ok k r request /\
    (is_Some (pr_offer r) -> exists offer, offer_ok r request offer) /\
    (is_Some (pr_confirmation r) ->
     exists offer confirmation, confirmation_ok r request offer confirmation) /\
    (is_Some (pr_decision r) -> exists decision, decision_ok r request decision) /\
    (is_Some (pr_decision r) <-> is_Some (pr_decided_at_ms r)).

Definition mailbox_ok (db : PairDb) : Prop :=
  map_Forall row_ok db /\ count_rows pending db <= MAX_PENDING_GLOBAL /\
  forall publisher_id, count_rows (pending_of publisher_id) db <= MAX_PENDING_PER_PUBLISHER.

(** * Preservation *)

Lemma purge_lookup db now k r :
  purge db now !! k = Some r <-> db !! k = Some r /\ ~ purge_due now r.
Proof. unfold purge. by rewrite map_lookup_filter_Some. Qed.

Lemma purge_ok db now : mailbox_ok db -> mailbox_ok (purge db now).
Proof.
  intros (Hrows & Hg & Hp). split_and!.
  - intros k r [Hk _]%purge_lookup. by apply Hrows.
  - etrans; [apply count_rows_filter|done].
  - intros p. etrans; [apply count_rows_filter|apply Hp].
Qed.

(** An update of one row that keeps its request and does not make it pending. *)
Lemma update_ok db k f :
  mailbox_ok db -> (forall r, row_ok k r -> db !! k = Some r -> row_ok k (f r)) ->
  (forall r, pr_publisher_id (f r) = pr_publisher_id r /\
             (pr_decision (f r) = None -> pr_decision r = None)) ->
  mailbox_ok (alter f k db).
Proof.
  intros (Hrows & Hg & Hp) Hf Hpend. split_and!.
  - intros k' r' Hk'. destruct (decide (k' = k)) as [->|Hne].
    + rewrite lookup_alter_eq in Hk'. apply fmap_Some in Hk' as (r & Hk & ->).
      apply Hf; [by apply Hrows|done].
    + rewrite lookup_alter_ne in Hk' by done. by apply Hrows.
  - etrans; [apply count_rows_alter|done]. intros r. apply Hpend.
  - intros p. etrans; [apply count_rows_alter|apply Hp].
    intros r. unfold pending_of. destruct (Hpend r) as [-> ?]. naive_solver.
Qed.

(** Reading a record of a consistent mailbox. *)
Lemma lookup_request db k request :
  request_by_id db k = Ok (Some request) ->
  exists r, db !! k = Some r /\ encodes request (pr_request r).
Proof.
  unfold request_by_id. intros H%opt_traverse_Ok.
  destruct (db !! k) as [r|]; simpl in H; [|done].
  destruct H as (b & Hb%decode_pair_Ok & [= <-]). eauto.
Qed.
Lemma lookup_offer db k offer :
  offer_by_id db k = Ok (Some offer) ->
  exists r lo, db !! k = Some r /\ pr_offer r = Some lo /\ encodes offer lo.
Proof.
  unfold offer_by_id. intros H%opt_traverse_Ok.
  destruct (db !! k) as [r|]; simpl in H; [|done].
  destruct (pr_offer r) as [lo|] eqn:E; [|done].
  destruct H as (b & Hb%decode_pair_Ok & [= <-]). eauto.
Qed.
Lemma lookup_confirmation db k confirmation :
  confirmation_by_id db k = Ok (Some confirmation) ->
  exists r lc, db !! k = Some r /\ pr_confirmation r = Some lc /\ encodes confirmation lc.
Proof.
  unfold confirmation_by_id. intros H%opt_traverse_Ok.
  destruct (db !! k) as [r|]; simpl in H; [|done].
  destruct (pr_confirmation r) as [lc|] eqn:E; [|done].
  destruct H as (b & Hb%decode_pair_Ok & [= <-]). eauto.
Qed.

Lemma encodes_inj {T} `{!Postcard T, !PostcardLaws T} (v w : T) l :
  encodes v l -> encodes w l -> v = w.
Proof. intros [Hv _] [Hw _]. by eapply to_stdvec_inj. Qed.

Lemma store_once_Ok db column update k encoded b db' :
  store_once db column update k encoded = Ok (b, db') ->
  (b = false /\ db' = db) \/
  (b = true /\ db' = alter (update encoded) k db /\
   exists r, db !! k = Some r /\ column r = None).
Proof.
  unfold store_once. destruct (db !! k) as [r|] eqn:E; simpl; [|done].
  destruct (column r) eqn:Hc; intros [= <- <-]; [by left|right]; eauto.
Qed.

Lemma enqueue_request_Ok db request addr now max b db' :
  enqueue_request db request addr now max = Ok (b, db') ->
  (b = false /\ db' = purge db now) \/
  exists k encoded p w, b = true /\
    let r := new_row request p w addr now encoded in
    db' = <[k := r]> (purge db now) /\ purge db now !! k = None /\
    request_ok k r request /\
    count_rows pending (purge db now) < MAX_PENDING_GLOBAL /\
    count_rows (pending_of p) (purge db now) < MAX_PENDING_PER_PUBLISHER.
Proof.
  unfold enqueue_request. rewrite unit_bind. intros [Hv%context_Ok H].
  apply bind_Ok_inv in H as (encoded & He%encode_pair_Ok & H).
  apply bind_Ok_inv in H as (k & Hk%context_Ok & H).
  apply bind_Ok_inv in H as (p & Hp%context_Ok & H).
  apply bind_Ok_inv in H as (w & Hw%context_Ok & H). cbv zeta in H.
  destruct (purge db now !! k) as [existing|] eqn:E; simpl in H.
  - rewrite guard_bind in H. destruct H as [_ [= <- <-]]. by left.
  - unfold require_count_below in H. rewrite !guard_bind in H.
    destruct H as (Hg & Hpp & _ & _ & H). apply bind_Ok_inv in H as (db2 & Hi & [= <- <-]).
    unfold insert_request in Hi. rewrite !guard_bind in Hi. destruct Hi as (_ & _ & [= <-]).
    right. exists k, encoded, p, w. split_and!; try done; try lia.
    unfold request_ok, pair_id, new_row. cbn. rewrite !map_err_Ok. split_and!; eauto.
Qed.

Lemma enqueue_ok db request addr now max b db' :
  mailbox_ok db -> enqueue_request db request addr now max = Ok (b, db') -> mailbox_ok db'.
Proof.
  intros Hok%(purge_ok _ now) [[_ ->]|(k & l & p & w & _ & -> & Hk & Hr & Hg & Hpp)]
    %enqueue_request_Ok; [done|].
  destruct Hok as (Hrows & _ & Hp). split_and!.
  - apply map_Forall_insert_2; [|done]. exists request. split; [done|].
    unfold new_row. simpl. by split_and!; [intros [? ?]..|].
  - rewrite count_rows_insert by done. case_decide; lia.
  - intros p'. rewrite count_rows_insert by done. unfold pending_of at 1. simpl.
    case_decide as Hd; [|specialize (Hp p'); lia]. destruct Hd as [<- _]. lia.
Qed.

Lemma store_offer_Ok db offer now max b db' :
  store_offer db offer now max = Ok (b, db') ->
  (b = false /\ db' = purge db now) \/
  exists k r request encoded, b = true /\ db' = alter (with_offer encoded) k (purge db now) /\
    purge db now !! k = Some r /\ pr_offer r = None /\ encodes request (pr_request r) /\
    encodes offer encoded /\ offer_verify offer request now max = Ok tt.
Proof.
  unfold store_offer. intros (o & Ho & H)%bind_Ok_inv.
  apply bind_Ok_inv in H as (request & ->%ok_or_Ok & H). rewrite unit_bind in H.
  destruct H as [Hv%context_Ok H]. apply bind_Ok_inv in H as (l & Hl%encode_pair_Ok & H).
  apply lookup_request in Ho as (r & Hk & Hr).
  apply store_once_Ok in H as [?|(-> & -> & r' & Hk' & Hn)]; [by left|right].
  rewrite Hk in Hk'. injection Hk' as <-. eauto 15.
Qed.

Lemma store_confirmation_Ok db c now b db' :
  store_confirmation db c now = Ok (b, db') ->
  (b = false /\ db' = purge db now) \/
  exists k r request offer lo encoded, b = true /\
    db' = alter (with_confirmation encoded) k (purge db now) /\
    purge db now !! k = Some r /\ pr_confirmation r = None /\
    encodes request (pr_request r) /\ pr_offer r = Some lo /\ encodes offer lo /\
    encodes c encoded /\ confirmation_verify c request offer = Ok tt.
Proof.
  unfold store_confirmation. intros (o & Ho & H)%bind_Ok_inv.
  apply bind_Ok_inv in H as (request & ->%ok_or_Ok & H).
  apply bind_Ok_inv in H as (o & Hoff & H). apply bind_Ok_inv in H as (offer & ->%ok_or_Ok & H).
  rewrite unit_bind in H. destruct H as [Hv%context_Ok H].
  apply bind_Ok_inv in H as (l & Hl%encode_pair_Ok & H).
  apply lookup_request in Ho as (r & Hk & Hr). apply lookup_offer in Hoff as (r' & lo & Hk' & Hoff).
  rewrite Hk in Hk'. injection Hk' as <-.
  apply store_once_Ok in H as [?|(-> & -> & r' & Hk' & Hn)]; [by left|right].
  rewrite Hk in Hk'. injection Hk' as <-. destruct Hoff.
  eexists _, r, request, offer, lo, l. by split_and!.
Qed.

Lemma check_manual_Ok db d request :
  check_manual db d request = Ok tt ->
  exists r lo lc offer c, db !! dec_request_id (dec_body d) = Some r /\
    pr_offer r = Some lo /\ encodes offer lo /\ pr_confirmation r = Some lc /\ encodes c lc /\
    confirmation_verify c request offer = Ok tt /\
    transcript_hash request offer = Ok (dec_transcript_hash (dec_body d)).
Proof.
  unfold check_manual. intros (o & Ho & H)%bind_Ok_inv.
  apply bind_Ok_inv in H as (offer & ->%ok_or_Ok & H).
  apply bind_Ok_inv in H as (o & Hc & H). apply bind_Ok_inv in H as (c & ->%ok_or_Ok & H).
  rewrite unit_bind in H. destruct H as [Hv%context_Ok H].
  apply bind_Ok_inv in H as (h & Hh%context_Ok & Hd%reject_if_Ok%dec_stable). subst h.
  apply lookup_offer in Ho as (r & lo & Hk & ? & ?).
  apply lookup_confirmation in Hc as (r' & lc & Hk' & ? & ?).
  rewrite Hk in Hk'. injection Hk' as <-. exists r, lo, lc, offer, c. by split_and!.
Qed.

Lemma store_decision_Ok db d now b db' :
  store_decision db d now = Ok (b, db') ->
  exists r request, let k := dec_request_id (dec_body d) in
    purge db now !! k = Some r /\ encodes request (pr_request r) /\
    decision_verify d request (prq_publisher (prq_body request)) = Ok tt /\
    (dec_reason (dec_body d) = ManualVerified -> check_manual (purge db now) d request = Ok tt) /\
    ((b = false /\ db' = purge db now /\ is_Some (pr_decision r)) \/
     exists encoded, b = true /\ db' = alter (with_decision encoded now) k (purge db now) /\
       pr_decision r = None /\ encodes d encoded).
Proof.
  unfold store_decision. intros (o & Ho & H)%bind_Ok_inv.
  apply bind_Ok_inv in H as (request & ->%ok_or_Ok & H). rewrite !unit_bind in H.
  destruct H as (Hv%context_Ok & Hm & H). apply bind_Ok_inv in H as (l & Hl%encode_pair_Ok & H).
  apply lookup_request in Ho as (r & Hk & Hr). exists r, request. rewrite Hk in H. simpl in H.
  split_and!; try done; [intros Hman; by rewrite decide_True in Hm|].
  destruct (pr_decision r) eqn:E; injection H as <- <-; [left|right]; eauto.
Qed.

Lemma request_ok_unique k r request request' :
  request_ok k r request -> encodes request' (pr_request r) -> request' = request.
Proof. intros (He & _) He'. by eapply encodes_inj. Qed.

Lemma with_offer_row_ok k r request offer lo now max :
  row_ok k r -> pr_offer r = None -> encodes request (pr_request r) ->
  encodes offer lo -> offer_verify offer request now max = Ok tt -> row_ok k (with_offer lo r).
Proof.
  intros (request' & Hr & _ & Hc & Hd & Hdd) Hn He Hel Hv.
  pose proof (request_ok_unique _ _ _ _ Hr He) as ->. exists request'. split; [exact Hr|].
  assert (forall o c, ~ confirmation_ok r request' o c) as Hno
    by (intros o c (((? & ? & _) & _) & _); congruence).
  split_and!; [..|done].
  - intros _. exists offer. split; [exists lo; by split|eauto].
  - intros Hs. destruct (Hc Hs) as (o & c & []%Hno).
  - intros Hs. destruct (Hd Hs) as (d & Hld & Hdv & Hman). exists d. split_and!; [done..|].
    intros Hm. destruct (Hman Hm) as (o & c & []%Hno & _).
Qed.

Lemma confirmation_ok_offer r request o c lo offer :
  confirmation_ok r request o c -> pr_offer r = Some lo -> encodes offer lo -> o = offer.
Proof.
  intros (((lo' & E & He) & _) & _) Hlo Hoff. rewrite Hlo in E. injection E as <-.
  by eapply encodes_inj.
Qed.

Lemma with_confirmation_row_ok k r request offer lo c lc :
  row_ok k r -> pr_confirmation r = None -> encodes request (pr_request r) ->
  pr_offer r = Some lo -> encodes offer lo -> encodes c lc ->
  confirmation_verify c request offer = Ok tt -> row_ok k (with_confirmation lc r).
Proof.
  intros (request' & Hr & Ho & _ & Hd & Hdd) Hn He Hlo Hoff Hlc Hv.
  pose proof (request_ok_unique _ _ _ _ Hr He) as ->. exists request'. split; [exact Hr|].
  split_and!; [exact Ho| | |done].
  - intros _. destruct Ho as (o & (lo' & E & Ho1) & Ho2); [by rewrite Hlo|].
    rewrite Hlo in E. injection E as <-. pose proof (encodes_inj _ _ _ Hoff Ho1) as <-.
    exists offer, c. split_and!; [|by exists lc|done]. split; [by exists lo|done].
  - intros Hs. destruct (Hd Hs) as (d & Hld & Hdv & Hman). exists d. split_and!; [done..|].
    intros Hm. destruct (Hman Hm) as (o & c' & (_ & (lc' & E & _) & _) & _). congruence.
Qed.

Lemma with_decision_row_ok k r request d ld now :
  row_ok k r -> encodes request (pr_request r) -> encodes d ld ->
  decision_verify d request (prq_publisher (prq_body request)) = Ok tt ->
  (dec_reason (dec_body d) = ManualVerified -> exists lo lc offer c,
    pr_offer r = Some lo /\ encodes offer lo /\ pr_confirmation r = Some lc /\ encodes c lc /\
    confirmation_verify c request offer = Ok tt /\
    transcript_hash request offer = Ok (dec_transcript_hash (dec_body d))) ->
  row_ok k (with_decision ld now r).
Proof.
  intros (request' & Hr & Ho & Hc & _ & _) He Hld Hv Hman.
  pose proof (request_ok_unique _ _ _ _ Hr He) as ->. exists request'. split; [exact Hr|].
  split_and!; [exact Ho|exact Hc| |done].
  intros _. exists d. split_and!; [by exists ld|done|].
  intros Hm. destruct (Hman Hm) as (lo & lc & offer & c & Hlo & Hoff & Hlc & Hcn & Hcv & Hth).
  exists offer, c. split; [|done]. split_and!; [|by exists lc|done].
  destruct Ho as (o & (lo' & E & Ho1) & Ho2); [by rewrite Hlo|].
  rewrite Hlo in E. injection E as <-. pose proof (encodes_inj _ _ _ Hoff Ho1) as <-.
  split; [by exists lo|done].
Qed.

(** * The mailbox as a transition system *)

(** One committed operation at time [now]. *)
Inductive mailbox_step (now : Z) : PairDb -> PairDb -> Prop :=
| step_enqueue db request addr max b db' :
    enqueue_request db request addr now max = Ok (b, db') -> mailbox_step now db db'
| step_offer db offer max b db' :
    store_offer db offer now max = Ok (b, db') -> mailbox_step now db db'
| step_confirmation db c b db' :
    store_confirmation db c now = Ok (b, db') -> mailbox_step now db db'
| step_decision db d b db' :
    store_decision db d now = Ok (b, db') -> mailbox_step now db db'
| step_publisher_inbox db publisher inbox db' :
    publisher_inbox db publisher now = Ok (inbox, db') -> mailbox_step now db db'
| step_viewer_inbox db viewer inbox db' :
    viewer_inbox db viewer now = Ok (inbox, db') -> mailbox_step now db db'.

(** Operations whose times do not decrease, ending at the given time. *)
Inductive mailbox_reachable : Z -> PairDb -> Prop :=
| mailbox_init now : mailbox_reachable now ∅
| mailbox_next t now db db' :
    mailbox_reachable t db -> t <= now -> mailbox_step now db db' -> mailbox_reachable now db'.

Lemma publisher_inbox_db db publisher now inbox db' :
  publisher_inbox db publisher now = Ok (inbox, db') -> db' = purge db now.
Proof.
  unfold publisher_inbox. intros (p & _ & H)%bind_Ok_inv. cbv zeta in H.
  by apply bind_Ok_inv in H as (rows & _ & [= _ <-]).
Qed.
Lemma viewer_inbox_db db viewer now inbox db' :
  viewer_inbox db viewer now = Ok (inbox, db') -> db' = purge db now.
Proof.
  unfold viewer_inbox. intros (p & _ & H)%bind_Ok_inv. cbv zeta in H.
  by apply bind_Ok_inv in H as (rows & _ & [= _ <-]).
Qed.

Lemma mailbox_step_ok now db db' : mailbox_ok db -> mailbox_step now db db' -> mailbox_ok db'.
Proof.
  intros Hok Hstep. destruct Hstep as [? ? ? ? ? ? H|? ? ? ? ? H|? ? ? ? H|? ? ? ? H|? ? ? ? H|? ? ? ? H].
  - by eapply enqueue_ok.
  - apply (purge_ok _ now) in Hok. apply store_offer_Ok in H as [[_ ->]|
      (k & r & request & l & _ & -> & Hk & Hn & Hr & Hl & Hv)]; [done|].
    apply update_ok; [done| |done]. intros r' Hrow Hk'. rewrite Hk in Hk'. injection Hk' as <-.
    by eapply with_offer_row_ok.
  - apply (purge_ok _ now) in Hok. apply store_confirmation_Ok in H as [[_ ->]|
      (k & r & request & offer & lo & l & _ & -> & Hk & Hn & Hr & Hlo & Hoff & Hl & Hv)]; [done|].
    apply update_ok; [done| |done]. intros r' Hrow Hk'. rewrite Hk in Hk'. injection Hk' as <-.
    by eapply with_confirmation_row_ok.
  - apply (purge_ok _ now) in Hok. apply store_decision_Ok in H as (r & request & Hk & Hr & Hv & Hm &
      [(_ & -> & _)|(l & _ & -> & Hn & Hl)]); [done|].
    apply update_ok; [done| |done]. intros r' Hrow Hk'. rewrite Hk in Hk'. injection Hk' as <-.
    eapply with_decision_row_ok; [done..|]. intros Hman.
    destruct (check_manual_Ok _ _ _ (Hm Hman)) as (r' & lo & lc & offer & c & Hk' & H).
    rewrite Hk in Hk'. injection Hk' as <-. eauto.
  - apply publisher_inbox_db in H as ->. by apply purge_ok.
  - apply viewer_inbox_db in H as ->. by apply purge_ok.
Qed.

Lemma mailbox_empty_ok : mailbox_ok ∅.
Proof. split_and!; [done|vm_compute; discriminate|]. intros p. vm_compute. discriminate. Qed.

Lemma mailbox_reachable_ok t db : mailbox_reachable t db -> mailbox_ok db.
Proof.
  induction 1 as [|t now db db' _ IH _ Hstep]; [apply mailbox_empty_ok|].
  by eapply mailbox_step_ok.
Qed.

(** * Theorems *)

(** C40: in every reachable mailbox (whatever the clock does) each stored record is verified and belongs
    to its ceremony: the request under its own identifier, the offer for it, the
    viewer's confirmation of that very offer, and a publisher decision that, when
    manual, has the viewer's confirmation of the same transcript beside it; and
    the global and per-publisher queue bounds hold. *)
Theorem mailbox_consistent db :
  rtc (fun db db' => exists now, mailbox_step now db db') ∅ db ->
  (forall k r, db !! k = Some r -> row_ok k r) /\
  count_rows pending db <= MAX_PENDING_GLOBAL /\
  (forall publisher_id, count_rows (pending_of publisher_id) db <= MAX_PENDING_PER_PUBLISHER).
Proof.
  intros Hre. enough (mailbox_ok db) as (Hrows & Hg & Hp)
    by (split_and!; [intros k r Hk; by apply Hrows|done..]).
  revert Hre. generalize mailbox_empty_ok. generalize (∅ : PairDb). intros db0 Hok Hre.
  induction Hre as [|db0 db1 db [now Hstep] _ IH]; [done|]. by eapply IH, mailbox_step_ok.
Qed.

(** What is stored under an identifier stays: nothing is replaced, and missing
    records can only be added. *)
Definition record_extends (r r' : PairRow) : Prop :=
  pr_request r' = pr_request r /\ pr_publisher_id r' = pr_publisher_id r /\
  pr_viewer_id r' = pr_viewer_id r /\ pr_source_addr r' = pr_source_addr r /\
  pr_received_at_ms r' = pr_received_at_ms r /\ pr_expires_at_ms r' = pr_expires_at_ms r /\
  (is_Some (pr_offer r) -> pr_offer r' = pr_offer r) /\
  (is_Some (pr_confirmation r) -> pr_confirmation r' = pr_confirmation r) /\
  (is_Some (pr_decision r) -> pr_decision r' = pr_decision r /\
                              pr_decided_at_ms r' = pr_decided_at_ms r).

Lemma record_extends_refl r : record_extends r r.
Proof. by split_and!. Qed.

Lemma alter_extends f k k' r (db : PairDb) :
  db !! k = Some r -> (forall r', db !! k' = Some r' -> record_extends r' (f r')) ->
  exists r', alter f k' db !! k = Some r' /\ record_extends r r'.
Proof.
  intros Hk Hf. destruct (decide (k = k')) as [->|Hne].
  - rewrite lookup_alter_eq, Hk. eexists. split; [done|]. by apply Hf.
  - rewrite lookup_alter_ne by done. eauto using record_extends_refl.
Qed.

(** The mailbox is durable and first-write-wins: an operation at any time
    keeps every record whose purge is not due, and whatever was stored for it
    (a later resubmission with a fresh signature changes nothing). *)
Theorem mailbox_record_kept now db db' k r :
  mailbox_step now db db' -> db !! k = Some r -> ~ purge_due now r ->
  exists r', db' !! k = Some r' /\ record_extends r r'.
Proof.
  intros Hstep Hk0 Hd. assert (purge db now !! k = Some r) as Hk by (by apply purge_lookup).
  assert (exists r', purge db now !! k = Some r' /\ record_extends r r') as Hsame
    by eauto using record_extends_refl.
  destruct Hstep as [? ? ? ? ? ? H|? ? ? ? ? H|? ? ? ? H|? ? ? ? H|? ? ? ? H|? ? ? ? H].
  - apply enqueue_request_Ok in H as [[_ ->]|(k' & l & p & w & _ & -> & Hk' & _)]; [done|].
    exists r. split; [|apply record_extends_refl]. rewrite lookup_insert_ne; congruence.
  - apply store_offer_Ok in H as [[_ ->]|(k' & r' & req & l & _ & -> & Hk' & Hn & _)]; [done|].
    apply alter_extends; [done|]. intros r2 Hr2. rewrite Hr2 in Hk'. injection Hk' as ->.
    split_and!; try done. rewrite Hn. by intros [? ?].
  - apply store_confirmation_Ok in H as [[_ ->]|
      (k' & r' & req & o & lo & l & _ & -> & Hk' & Hn & _)]; [done|].
    apply alter_extends; [done|]. intros r2 Hr2. rewrite Hr2 in Hk'. injection Hk' as ->.
    split_and!; try done. rewrite Hn. by intros [? ?].
  - apply store_decision_Ok in H as (r' & req & Hk' & _ & _ & _ & [(_ & -> & _)|
      (l & _ & -> & Hn & _)]); [done|].
    apply alter_extends; [done|]. intros r2 Hr2. rewrite Hr2 in Hk'. injection Hk' as ->.
    split_and!; try done; rewrite Hn; by intros [? ?].
  - by apply publisher_inbox_db in H as ->.
  - by apply viewer_inbox_db in H as ->.
Qed.

(** Records were received no later than the last operation. *)
Lemma received_by t db k r :
  mailbox_reachable t db -> db !! k = Some r -> pr_received_at_ms r <= t.
Proof.
  intros Hre. revert k r. induction Hre as [|t now db db' Hre IH Ht Hstep]; intros k r Hk; [done|].
  assert (forall k r, purge db now !! k = Some r -> pr_received_at_ms r <= now) as Hp.
  { intros k' r' [Hk' _]%purge_lookup. specialize (IH _ _ Hk'). lia. }
  assert (forall f k', (forall r, pr_received_at_ms (f r) = pr_received_at_ms r) ->
    alter f k' (purge db now) !! k = Some r -> pr_received_at_ms r <= now) as Hal.
  { intros f k' Hf. destruct (decide (k = k')) as [->|Hne].
    - rewrite lookup_alter_eq. intros (r' & Hr' & ->)%fmap_Some. rewrite Hf. by eapply Hp.
    - rewrite lookup_alter_ne by done. apply Hp. }
  destruct Hstep as [? ? ? ? ? ? H|? ? ? ? ? H|? ? ? ? H|? ? ? ? H|? ? ? ? H|? ? ? ? H].
  - apply enqueue_request_Ok in H as [[_ ->]|(k' & l & p & w & _ & -> & Hk' & _)]; [by eapply Hp|].
    apply lookup_insert_Some in Hk as [[_ <-]|[_ Hk]]; [simpl; lia|by eapply Hp].
  - apply store_offer_Ok in H as [[_ ->]|(k' & r' & req & l & _ & -> & _)]; [by eapply Hp|].
    eapply Hal; [|exact Hk]; done.
  - apply store_confirmation_Ok in H as [[_ ->]|
      (k' & r' & req & o & lo & l & _ & -> & _)]; [by eapply Hp|]. eapply Hal; [|exact Hk]; done.
  - apply store_decision_Ok in H as (r' & req & _ & _ & _ & _ & [(_ & -> & _)|(l & _ & -> & _)]);
      [by eapply Hp|]. eapply Hal; [|exact Hk]; done.
  - apply publisher_inbox_db in H as ->. by eapply Hp.
  - apply viewer_inbox_db in H as ->. by eapply Hp.
Qed.

(** A verified request stays verified until it expires. *)
Lemma request_still_verifies request t now max :
  pair_request_verify request t max = Ok tt -> t <= now ->
  now < prq_expires_at_ms (prq_body request) ->
  exists lifetime, i64_checked_sub (prq_expires_at_ms (prq_body request))
      (prq_issued_at_ms (prq_body request)) = Some lifetime /\
    pair_request_verify request now lifetime = Ok tt.
Proof.
  intros (Hm & (H64 & Hlen & Hi & _)%validate_time_Ok & Hs)%pair_request_verify_Ok Ht He.
  eexists. split; [by apply i64_checked_sub_Some|]. apply pair_request_verify_Ok.
  split_and!; try done. apply validate_time_Ok. split_and!; try done; [lia|].
  clear -Hi Ht. ints.
Qed.

Context `{addrs_laws : !SocketAddrsLaws}.

(** The confirmation column, decoded. *)
Definition confirmation_of (r : PairRow) (confirmation : option ViewerConfirmation) : Prop :=
  match confirmation with
  | Some c => exists lc, pr_confirmation r = Some lc /\ encodes c lc
  | None => pr_confirmation r = None
  end.

Lemma deliver_request_Ok k r t now :
  row_ok k r -> pr_received_at_ms r <= t -> t <= now -> ~ purge_due now r -> pending r ->
  exists request confirmation addr,
    encodes request (pr_request r) /\ pr_source_addr r = addr_to_string addr /\
    confirmation_of r confirmation /\
    deliver_request now r = Ok ({| del_request := request; del_source_addr := addr;
      del_received_at_ms := pr_received_at_ms r |}, confirmation).
Proof.
  intros (request & (He & _ & _ & _ & Hx & (addr & Ha) & (max & Hv)) & _ & Hc & _) Hr Ht Hd Hp.
  assert (now < prq_expires_at_ms (prq_body request)) as Hnow.
  { rewrite <-Hx. apply Znot_ge_lt. intros Hge. apply Hd. left. split; [done|lia]. }
  destruct (request_still_verifies _ _ now _ Hv) as (life & Hl & Hver); [lia|done|].
  assert (exists confirmation, opt_traverse (decode_pair (T := ViewerConfirmation)) (pr_confirmation r) = Ok confirmation /\
    match confirmation with
    | Some c => exists lc, pr_confirmation r = Some lc /\ encodes c lc
    | None => pr_confirmation r = None
    end) as (confirmation & Hcd & Hcm).
  { destruct (pr_confirmation r) as [lc|] eqn:E; [|by exists None].
    destruct Hc as (o & c & (_ & (lc' & E' & Hec) & _)); [done|].
    rewrite E in E'. injection E' as <-. exists (Some c).
    split; [|by exists lc]. simpl. by apply decode_pair_Ok in Hec as ->. }
  exists request, confirmation, addr. split_and!; [done..|]. unfold deliver_request.
  assert (decode_pair (pr_request r) = Ok request) as -> by (by apply decode_pair_Ok).
  cbn [mbind result_bind]. rewrite Hl. cbn [ok_or mbind result_bind]. rewrite Hver.
  cbn [context map_err mbind result_bind]. rewrite Ha, addr_parse_to_string.
  cbn [ok_or mbind result_bind]. by rewrite Hcd.
Qed.

(** The rows of a publisher's inbox. *)
Abbreviation inbox_rows publisher_id db now :=
  (select_rows (pending_of publisher_id) MAX_INBOX_RECORDS (purge db now)).

Lemma not_purge_due_pending now r :
  pending r -> ~ purge_due now r <-> now < pr_expires_at_ms r.
Proof.
  unfold purge_due, pending. intros ->. split.
  - intros H. apply Znot_ge_lt. intros Hge. apply H. left. split; [done|lia].
  - intros H [[_ ?]|[? _]]; [lia|done].
Qed.

Lemma elem_of_inbox_rows t now db publisher_id k r :
  mailbox_reachable t db ->
  (k, r) ∈ inbox_rows publisher_id db now <->
  db !! k = Some r /\ pending_of publisher_id r /\ now < pr_expires_at_ms r.
Proof.
  intros Hre%mailbox_reachable_ok. destruct (purge_ok _ now Hre) as (_ & _ & Hcount).
  rewrite elem_of_select_rows; [|etrans; [apply Hcount|by vm_compute]].
  rewrite purge_lookup. split.
  - intros [[Hk Hd] Hp]. split_and!; [done..|].
    apply (not_purge_due_pending now r); [apply Hp|done].
  - intros (Hk & Hp & Hx). split_and!; try done. apply not_purge_due_pending; [apply Hp|done].
Qed.

Lemma inbox_row_delivered t now db publisher_id k r :
  mailbox_reachable t db -> t <= now -> (k, r) ∈ inbox_rows publisher_id db now ->
  exists request confirmation addr,
    encodes request (pr_request r) /\ pr_source_addr r = addr_to_string addr /\
    confirmation_of r confirmation /\
    deliver_request now r = Ok ({| del_request := request; del_source_addr := addr;
      del_received_at_ms := pr_received_at_ms r |}, confirmation).
Proof.
  intros Hre Ht Hin. apply elem_of_select_rows_1 in Hin as [Hk [_ Hp]].
  apply purge_lookup in Hk as [Hk Hd]. eapply deliver_request_Ok; [|by eapply received_by|done..].
  destruct (mailbox_reachable_ok _ _ Hre) as [Hrows _]. by apply Hrows.
Qed.

Lemma inbox_total t now db publisher publisher_id :
  mailbox_reachable t db -> t <= now -> identity_id publisher = Ok publisher_id ->
  exists inbox, publisher_inbox db publisher now = Ok (inbox, purge db now).
Proof.
  intros Hre Ht Hid. unfold publisher_inbox. rewrite Hid. cbn [context map_err mbind result_bind].
  destruct (mapR_total (fun '(_, r) => deliver_request now r)
    (inbox_rows publisher_id db now)) as [ys Hys].
  { intros [k r] Hin. destruct (inbox_row_delivered _ _ _ _ _ _ Hre Ht Hin)
      as (? & ? & ? & _ & _ & _ & ?). eauto. }
  rewrite Hys. by eexists.
Qed.

(** While the clock does not run backwards the publisher's inbox never
    fails and is complete: it delivers exactly the undecided unexpired requests
    addressed to the publisher, and exactly the confirmations stored for them. *)
Theorem publisher_inbox_complete t now db publisher publisher_id :
  mailbox_reachable t db -> t <= now -> identity_id publisher = Ok publisher_id ->
  exists inbox, publisher_inbox db publisher now = Ok (inbox, purge db now) /\
    (forall request, request ∈ del_request <$> inbox_requests inbox <->
       exists k r, db !! k = Some r /\ pending_of publisher_id r /\ now < pr_expires_at_ms r /\
         encodes request (pr_request r)) /\
    (forall confirmation, confirmation ∈ inbox_confirmations inbox <->
       exists k r lc, db !! k = Some r /\ pending_of publisher_id r /\ now < pr_expires_at_ms r /\
         pr_confirmation r = Some lc /\ encodes confirmation lc).
Proof.
  intros Hre Ht Hid.
  pose proof (fun k r => elem_of_inbox_rows t now db publisher_id k r Hre) as Hsel.
  pose proof (fun k r => inbox_row_delivered t now db publisher_id k r Hre Ht) as Hdel.
  destruct (inbox_total _ _ _ _ _ Hre Ht Hid) as [inbox Hinbox].
  exists inbox. split; [done|]. unfold publisher_inbox in Hinbox. rewrite Hid in Hinbox.
  cbn [context map_err mbind result_bind] in Hinbox.
  apply bind_Ok_inv in Hinbox as (ys & Hys & [= <-]).
  revert Hsel Hdel Hys. generalize (inbox_rows publisher_id db now). intros rows Hsel Hdel Hys.
  cbn [inbox_requests inbox_confirmations]. split.
  - intros request. rewrite list_elem_of_fmap. setoid_rewrite list_elem_of_fmap. split.
    + intros (d & -> & ([d' c] & -> & ([k r] & Hin & Hf)%(mapR_elem _ _ _ _ Hys))).
      destruct (Hdel _ _ Hin) as (req & c' & a & He & _ & _ & Hf'). rewrite Hf in Hf'.
      injection Hf' as -> ->. exists k, r. apply Hsel in Hin. naive_solver.
    + intros (k & r & Hk & Hp & Hx & He). assert ((k, r) ∈ rows) as Hin by (by apply Hsel).
      destruct (Hdel _ _ Hin) as (req & c' & a & He' & _ & _ & Hf').
      pose proof (encodes_inj _ _ _ He He') as <-.
      assert (exists d, request = del_request d /\ (d, c') ∈ ys) as (d & -> & Hd).
      { eexists. split; [|apply (mapR_elem _ _ _ _ Hys); exists (k, r); split; [done|exact Hf']].
        done. }
      exists d. split; [done|]. by exists (d, c').
  - intros c. rewrite list_elem_of_omap. split.
    + intros ([d c'] & ([k r] & Hin & Hf)%(mapR_elem _ _ _ _ Hys) & Hc). simpl in Hc. subst c'.
      destruct (Hdel _ _ Hin) as (req & c' & a & He & _ & Hm & Hf'). rewrite Hf in Hf'.
      injection Hf' as -> <-. destruct Hm as (lc & ? & ?). exists k, r, lc.
      apply Hsel in Hin. naive_solver.
    + intros (k & r & lc & Hk & Hp & Hx & Hlc & He).
      assert ((k, r) ∈ rows) as Hin by (by apply Hsel).
      destruct (Hdel _ _ Hin) as (req & c' & a & He' & _ & Hm & Hf').
      destruct c' as [c'|]; [|congruence]. destruct Hm as (lc' & E & Hec).
      rewrite Hlc in E. injection E as <-. pose proof (encodes_inj _ _ _ He Hec) as <-.
      eexists (_, _). split; [|reflexivity]. apply (mapR_elem _ _ _ _ Hys). by exists (k, r).
Qed.
End invariant.

(** ** Witnesses *)

(** The mailbox after the request, the offer and the confirmation of the sample
    pairing. *)
Definition sample_mailbox : result string PairDb :=
  let? (r, o, c, _) := ok_or sample_pairing "pairing" in
  let? (_, db) := enqueue_request ∅ r "127.0.0.1:4321" 1500 100000 in
  let? (_, db) := store_offer db o 2500 100000 in
  let? (_, db) := store_confirmation db c 3500 in
  Ok db.

Lemma sample_mailbox_reachable db :
  sample_mailbox = Ok db -> mailbox_reachable 3500 db.
Proof.
  unfold sample_mailbox. intros ([[[r o] c] d] & _ & H)%bind_Ok_inv.
  apply bind_Ok_inv in H as ([b1 db1] & H1 & H). apply bind_Ok_inv in H as ([b2 db2] & H2 & H).
  apply bind_Ok_inv in H as ([b3 db3] & H3 & [= ->]).
  apply (mailbox_next 2500 _ db2); [|lia|by eapply step_confirmation].
  apply (mailbox_next 1500 _ db1); [|lia|by eapply step_offer].
  apply (mailbox_next 1500 _ ∅); [constructor|lia|by eapply step_enqueue].
Qed.

Lemma mailbox_reachable_rtc t db :
  mailbox_reachable t db -> rtc (fun db db' => exists now, mailbox_step now db db') ∅ db.
Proof. induction 1; [done|]. by eapply rtc_r; [|eexists]. Qed.

(** It evaluates to one pending record with an offer and a confirmation. *)
Definition has_ceremony (r : PairRow) : bool :=
  match pr_offer r, pr_confirmation r, pr_decision r with
  | Some _, Some _, None => true
  | _, _, _ => false
  end.
Lemma sample_mailbox_runs :
  match sample_mailbox with
  | Ok db => match map_to_list db with [(_, r)] => has_ceremony r | _ => false end
  | Err _ => false
  end = true.
Proof. vm_compute. reflexivity. Qed.

Lemma sample_publisher_id : is_ok (identity_id sample_public) = true.
Proof. vm_compute. reflexivity. Qed.

Lemma mailbox_consistent_witness :
  exists db k r, sample_mailbox = Ok db /\ db !! k = Some r /\ has_ceremony r = true /\ row_ok k r.
Proof.
  pose proof sample_mailbox_runs as Hrun. pose proof sample_mailbox_reachable as Hre.
  destruct sample_mailbox as [db|]; [|discriminate]. specialize (Hre db eq_refl).
  destruct (mailbox_consistent db (mailbox_reachable_rtc _ _ Hre)) as [Hrows _].
  destruct (map_to_list db) as [|[k r] [|]] eqn:E; [discriminate| |discriminate].
  assert (db !! k = Some r) as Hk by (apply elem_of_map_to_list; rewrite E; left).
  exists db, k, r. split; [reflexivity|]. split; [exact Hk|]. split; [exact Hrun|exact (Hrows k r Hk)].
Defined.

Lemma mailbox_record_kept_witness :
  exists db k r r', sample_mailbox = Ok db /\ db !! k = Some r /\
    purge db 4000 !! k = Some r' /\ record_extends r r'.
Proof.
  pose proof sample_mailbox_runs as Hrun. pose proof sample_mailbox_reachable as Hre.
  assert (match sample_mailbox with
          | Ok db => match map_to_list db with
                     | [(_, r)] => bool_decide (4000 < pr_expires_at_ms r) | _ => false end
          | Err _ => false end = true) as Hexp by (vm_compute; reflexivity).
  pose proof sample_publisher_id as Hid.
  destruct sample_mailbox as [db|]; [|discriminate]. specialize (Hre db eq_refl).
  destruct (identity_id sample_public) as [pid|] eqn:Ep; [|discriminate].
  destruct (map_to_list db) as [|[k r] [|]] eqn:E; [discriminate| |discriminate].
  assert (db !! k = Some r) as Hk by (apply elem_of_map_to_list; rewrite E; left).
  destruct (inbox_total 3500 4000 db sample_public pid Hre ltac:(lia) Ep) as [inbox Hin].
  destruct (mailbox_record_kept 4000 db (purge db 4000) k r
    (step_publisher_inbox _ _ _ _ _ Hin) Hk) as (r' & Hr' & Hx).
  { apply not_purge_due_pending; [|apply bool_decide_eq_true in Hexp; exact Hexp].
    unfold has_ceremony in Hrun. unfold pending.
    destruct (pr_offer r), (pr_confirmation r), (pr_decision r); done. }
  exists db, k, r, r'. split; [reflexivity|]. split; [exact Hk|]. split; [exact Hr'|exact Hx].
Defined.

Lemma publisher_inbox_complete_witness :
  exists db pid inbox, sample_mailbox = Ok db /\ identity_id sample_public = Ok pid /\
    publisher_inbox db sample_public 4000 = Ok (inbox, purge db 4000).
Proof.
  pose proof sample_mailbox_runs as Hrun. pose proof sample_mailbox_reachable as Hre.
  pose proof sample_publisher_id as Hid.
  destruct sample_mailbox as [db|]; [|discriminate]. specialize (Hre db eq_refl).
  destruct (identity_id sample_public) as [pid|] eqn:Ep; [|discriminate].
  destruct (publisher_inbox_complete 3500 4000 db sample_public pid Hre ltac:(lia) Ep)
    as (inbox & Hin & _).
  exists db, pid, inbox. split; [reflexivity|]. split; [reflexivity|exact Hin].
Defined.
