(* ===== verification/Service.v ===== *)
(** [crates/relay/src/native_service.rs]: the publisher and viewer sessions of
    the relay over the durable store, the pairing mailbox and the admission
    policy.

    A session is a program over a world: the state that all sessions share, the
    streams the session has claimed and the messages it has written.  Between
    any two of its atomic steps (one database transaction, one lock, one clock
    reading, one write) an environment may change the shared state, let time
    pass and make a write fail; what the peer sends is an input list.  The
    environment is arbitrary, so a theorem about a session holds under every
    interleaving with other sessions. *)
From Stdlib Require Import ZArith Lia.
From S2P Require Import Prelude Bytes RustStr External Toy Identity Credential Native Envelope.
From S2P Require Import Transport Pairing Codecs Wire Access NativeTables NativeStore PairingStore.

Definition SUBSCRIPTION_PAGE : Z := 1024.
Definition PAIRING_REQUEST_LIFETIME_MS : Z := 24 * 60 * 60 * 1000.

(** Durations are in nanoseconds. *)
Record NativeServiceLimits : Type := {
  max_connections : Z;
  handshake_timeout : Z;
  idle_timeout : Z;
  live_channel_capacity : Z;
}.
Definition default_service_limits : NativeServiceLimits := {|
  max_connections := 256; handshake_timeout := 10 * 1000000000;
  idle_timeout := 120 * 1000000000; live_channel_capacity := 32 |}.

Inductive LiveItem : Type :=
| LiveObject (object : NativeObject)
| LiveEnvelope (envelope : KeyEnvelope).

(** The parts of [NativeRelayInner] that change; the live channel of a stream is
    the list of the items sent to it. *)
Record Shared : Type := {
  sh_store : Db;
  sh_pairing : PairDb;
  sh_access : NativeAccessPolicy;
  sh_online : gset uuid;
  sh_live : gmap uuid (list LiveItem);
}.
Definition set_store (db : Db) (sh : Shared) : Shared := {|
  sh_store := db; sh_pairing := sh_pairing sh; sh_access := sh_access sh;
  sh_online := sh_online sh; sh_live := sh_live sh |}.
Definition set_pairing (db : PairDb) (sh : Shared) : Shared := {|
  sh_store := sh_store sh; sh_pairing := db; sh_access := sh_access sh;
  sh_online := sh_online sh; sh_live := sh_live sh |}.
Definition set_online (online : gset uuid) (sh : Shared) : Shared := {|
  sh_store := sh_store sh; sh_pairing := sh_pairing sh; sh_access := sh_access sh;
  sh_online := online; sh_live := sh_live sh |}.
Definition set_live (live : gmap uuid (list LiveItem)) (sh : Shared) : Shared := {|
  sh_store := sh_store sh; sh_pairing := sh_pairing sh; sh_access := sh_access sh;
  sh_online := sh_online sh; sh_live := live |}.

(** [NativeRelayService::new_with_limits] on an open store and mailbox;
    [validated] is the outcome of [NoiseKeypair::validate_xx]. *)
Definition new_with_limits (store : Db) (pairing : PairDb) (access : NativeAccessPolicy)
    (validated : result ProtocolError unit) (limits : NativeServiceLimits) : result string Shared :=
  reject_if (max_connections limits = 0 \/ handshake_timeout limits = 0 \/
             idle_timeout limits = 0 \/ live_channel_capacity limits = 0)
    "native service limits must be positive" then?
  context "validating native relay Noise identity" validated then?
  Ok {| sh_store := store; sh_pairing := pairing; sh_access := access; sh_online := ∅;
        sh_live := ∅ |}.

(** What happens around a session: at its [n]-th step the clock shows
    [clock n], the rest of the relay has changed the shared state by
    [interference n], and a write fails when [write_fails n] holds. *)
Record Env : Type := {
  clock : nat -> Z;
  interference : nat -> Shared -> Shared;
  write_fails : nat -> bool;
}.

Record World (M : Type) : Type := {
  w_shared : Shared;
  w_step : nat;
  w_touched : gset uuid;
  w_written : list M;
}.
Arguments w_shared {M} _.
Arguments w_step {M} _.
Arguments w_touched {M} _.
Arguments w_written {M} _.

(** What a session reads: the outcome of [read_publisher_until_expiry] and
    [read_viewer_until_expiry]. *)
Inductive session_read (M : Type) : Type :=
| ReadMessage (message : M)
| ReadExpired
| ReadIdle
| ReadProtocol (error : string).
Arguments ReadMessage {M} _.
Arguments ReadExpired {M}.
Arguments ReadIdle {M}.
Arguments ReadProtocol {M} _.

(** [read_until_expiry]: [read] is the time in nanoseconds after which the read
    completes, and its result; [None] if it never does. *)
Definition read_until_expiry {T} (read : option (Z * result string T))
    (expires_at_ms : option Z) (idle_timeout now_ms : Z) : session_read T :=
  let run timeout late :=
    match read with
    | Some (elapsed, r) =>
        if decide (elapsed <= timeout)
        then match r with Ok message => ReadMessage message | Err e => ReadProtocol e end
        else late
    | None => late
    end in
  match expires_at_ms with
  | None => run idle_timeout ReadIdle
  | Some expiry =>
      match u64_try_from (i64_saturating_sub expiry now_ms) with
      | None => ReadExpired
      | Some remaining_ms =>
          let remaining := remaining_ms * 1000000 in
          run (Z.min remaining idle_timeout)
            (if decide (remaining <= idle_timeout) then ReadExpired else ReadIdle)
      end
  end.

(** What a subscription sees at one turn of its loop: the idle timeout has
    passed, the policy tick elapsed, or the live channel delivered. *)
Inductive live_event : Type :=
| LiveIdle
| LiveTick
| LiveRecv (item : LiveItem)
| LiveLagged
| LiveClosed.

Section service.
Context `{crypto : !Crypto, addrs : !SocketAddrs, codecs : !Codecs}.
Context (cfg : StoreConfig) (env : Env).

(** * Steps of a session *)

Section session.
Context {M : Type} `{wire : !NativeWireMessage M}.

Definition session (A : Type) : Type := io string (World M) A.

Definition set_shared (sh : Shared) (w : World M) : World M := {|
  w_shared := sh; w_step := S (w_step w); w_touched := w_touched w; w_written := w_written w |}.

(** One atomic step on the shared state. *)
Definition atomically {A} (f : Shared -> result string A * Shared) : session A := fun w =>
  let '(r, sh) := f (interference env (w_step w) (w_shared w)) in (r, set_shared sh w).

(** The session blocks, on its socket or on its live channel: the rest of the
    relay goes on meanwhile, and may change anything. *)
Definition wait : session unit := atomically (fun sh => (Ok tt, sh)).

Definition now_ms : session Z := fun w => (Ok (clock env (w_step w)), set_shared (w_shared w) w).

(** [store_call] and [pairing_call] for an operation that reads, and for one
    that commits a transaction. *)
Definition store_read {A} (f : Db -> result string A) : session A :=
  atomically (fun sh => (f (sh_store sh), sh)).
Definition store_call {A} (f : Db -> result string (A * Db)) : session A :=
  atomically (fun sh => match f (sh_store sh) with
                        | Ok (a, db) => (Ok a, set_store db sh)
                        | Err e => (Err e, sh)
                        end).
Definition pairing_call {A} (f : PairDb -> result string (A * PairDb)) : session A :=
  atomically (fun sh => match f (sh_pairing sh) with
                        | Ok (a, db) => (Ok a, set_pairing db sh)
                        | Err e => (Err e, sh)
                        end).

(** [socket.write] of a message. *)
Definition transmit (message : M) : session unit := fun w =>
  if write_fails env (w_step w) then (Err "writing reply", set_shared (w_shared w) w)
  else (Ok tt, {| w_shared := w_shared w; w_step := S (w_step w);
                  w_touched := w_touched w; w_written := w_written w ++ [message] |}).

(** [write_publisher] and [write_viewer] *)
Definition write_message (message : M) : session unit :=
  lift (context "invalid native wire message" (validate_wire message)) then?
  transmit message.

Definition bail {A} (what : string) : session A := lift (Err what).

(** The result of a step is logged, not returned. *)
Definition ignore {A} (m : session A) : session unit := fun w => (Ok tt, (m w).2).

Fixpoint for_each {A} (f : A -> session unit) (l : list A) : session unit :=
  match l with
  | [] => mret tt
  | x :: l => f x then? for_each f l
  end.
Fixpoint map_each {A B} (f : A -> session B) (l : list A) : session (list B) :=
  match l with
  | [] => mret []
  | x :: l => let? y := f x in let? ys := map_each f l in mret (y :: ys)
  end.

(** * Shared helpers *)

Definition active_credential_error_code (admission : NativeAdmission) : session RelayErrorCode :=
  let? now := now_ms in
  mret (if decide (is_some_and (fun expiry => now >= expiry) (adm_expires_at_ms admission))
        then CredentialExpired else Unauthorized).

Definition check_active (admission : NativeAdmission) : session (result NativeAccessError unit) :=
  let? now := now_ms in
  atomically (fun sh => (Ok (ensure_active (sh_access sh) admission now), sh)).

(** [claim_online]; the set of online streams is one lock. *)
Definition claim_online (stream_id : uuid) : session unit := fun w =>
  if decide (stream_id ∈ w_touched w) then (Ok tt, w)
  else
    let sh := interference env (w_step w) (w_shared w) in
    if decide (stream_id ∈ sh_online sh)
    then (Err "stream already has an active publisher session", set_shared sh w)
    else (Ok tt, {| w_shared := set_online ({[stream_id]} ∪ sh_online sh) sh;
                    w_step := S (w_step w); w_touched := {[stream_id]} ∪ w_touched w;
                    w_written := w_written w |}).

(** [live_sender(stream_id)?.send(item)]; having no receiver is not an error. *)
Definition live_send (stream_id : uuid) (item : LiveItem) : session unit :=
  atomically (fun sh =>
    (Ok tt, set_live (<[stream_id := default [] (sh_live sh !! stream_id) ++ [item]]>
                        (sh_live sh)) sh)).

Definition require_publisher (actual expected : IdentityPublic) : session unit :=
  lift (reject_if (actual <> expected) "publisher application identity mismatch").
End session.
Arguments session : clear implicits.

Definition welcome {M} (admission : NativeAdmission) : session M RelayWelcome :=
  let? now := now_ms in
  mret {| wel_protocol_version := PROTOCOL_VERSION; access_mode := adm_mode admission;
          relay_time_ms := now; credential_expires_at_ms := adm_expires_at_ms admission |}.

Definition retained_wire (b : NativeRetainedBounds) : RetainedBounds := {|
  rb_oldest_sequence := oldest_sequence b; rb_newest_sequence := newest_sequence b;
  rb_oldest_timestamp := oldest_timestamp b; rb_newest_timestamp := newest_timestamp b |}.

(** * Publisher sessions *)

Definition publisher_session : Type -> Type := session RelayPublisherMessage.

Definition send_publisher_error (code : RelayErrorCode) (detail : string) :
    publisher_session unit :=
  write_message (RpError {| err_code := code; err_detail := ascii_str detail |}).

Definition validate_resume_stream (publisher : IdentityPublic) (stream : PublisherResumeStream) :
    publisher_session unit :=
  let? found := store_read (fun db => descriptor db (prs_stream_id stream)) in
  match found with
  | Some found => require_publisher (desc_publisher (desc_body found)) publisher
  | None => mret tt
  end.

(** One stream of a [Resume] message. *)
Definition resume_stream (publisher : IdentityPublic) (stream : PublisherResumeStream) :
    publisher_session RelayResumeStream :=
  validate_resume_stream publisher stream then?
  claim_online (prs_stream_id stream) then?
  let? high := store_read (fun db => high_water db (prs_stream_id stream)) in
  mret {| rrs_stream_id := prs_stream_id stream; rrs_committed_through := default 0 high |}.

Definition publish_object (publisher_id : array 32) (object : NativeObject) :
    publisher_session unit :=
  lift (reject_if (h_publisher_id (header object) <> publisher_id)
    "native object publisher identity mismatch") then?
  let stream_id := h_stream_id (header object) in
  claim_online stream_id then?
  let? now := now_ms in
  let? commit := store_call (fun db => store_object cfg db object now) in
  (if inserted commit then live_send stream_id (LiveObject object) else mret tt) then?
  write_message (RpPublishAck stream_id (committed_through commit)).

Definition publish_envelope (publisher_id : array 32) (envelope : KeyEnvelope) :
    publisher_session unit :=
  lift (reject_if (eh_publisher_id (env_header envelope) <> publisher_id)
    "key envelope publisher identity mismatch") then?
  let? now := now_ms in
  let? inserted := store_call (fun db => store_envelope cfg db envelope now) in
  if inserted : bool then live_send (eh_stream_id (env_header envelope)) (LiveEnvelope envelope)
  else mret tt.

Definition fetch_pairing_inbox (publisher : IdentityPublic) : publisher_session unit :=
  let? now := now_ms in
  let? inbox := pairing_call (fun db => publisher_inbox db publisher now) in
  for_each (fun delivery =>
    write_message (RpPairRequest (del_request delivery) (del_source_addr delivery)
                     (del_received_at_ms delivery))) (inbox_requests inbox) then?
  for_each (fun confirmation => write_message (RpViewerConfirmation confirmation))
    (inbox_confirmations inbox) then?
  write_message RpPairingInboxComplete.

(** The [match message] of [publisher_loop]. *)
Definition publisher_message (hello : SessionHello) (publisher_id : array 32)
    (message : PublisherMessage) : publisher_session unit :=
  match message with
  | PubHello _ =>
      send_publisher_error ProtocolViolation "duplicate publisher hello" then?
      bail "duplicate publisher hello"
  | PubResume claimed streams =>
      lift (reject_if (claimed <> publisher_id) "publisher resume identity mismatch") then?
      let? states := map_each (resume_stream (hello_identity hello)) streams in
      write_message (RpResumeState states)
  | PubDescriptor descriptor =>
      require_publisher (desc_publisher (desc_body descriptor)) (hello_identity hello) then?
      claim_online (desc_stream_id (desc_body descriptor)) then?
      store_call (fun db => pair tt <$> put_descriptor cfg db descriptor)
  | PubObject object => publish_object publisher_id object
  | PubKeyEnvelope envelope => publish_envelope publisher_id envelope
  | PubPairOffer offer =>
      lift (reject_if (off_publisher (off_body offer) <> hello_identity hello)
        "pair offer publisher identity mismatch") then?
      let? now := now_ms in
      pairing_call (fun db => store_offer db offer now PAIRING_REQUEST_LIFETIME_MS) then?
      write_message (RpPairingAck (off_request_id (off_body offer)))
  | PubPairDecision decision =>
      let? now := now_ms in
      pairing_call (fun db => store_decision db decision now) then?
      write_message (RpPairingAck (dec_request_id (dec_body decision)))
  | PubFetchPairingInbox => fetch_pairing_inbox (hello_identity hello)
  | PubPing _ =>
      let? now := now_ms in
      write_message (RpPong now)
  end.

(** One turn of [publisher_loop]: the credential is checked, then the session
    blocks until the read completes, and what it has read is processed without
    another check. *)
Definition publisher_turn (hello : SessionHello) (publisher_id : array 32)
    (admission : NativeAdmission) (read : session_read PublisherMessage) :
    publisher_session unit :=
  let? active := check_active admission in
  match active with
  | Err _ =>
      let? code := active_credential_error_code admission in
      send_publisher_error code "publisher credential is no longer valid" then?
      bail "native relay credential rejected"
  | Ok _ =>
      wait then?
      match read with
      | ReadExpired =>
          send_publisher_error CredentialExpired "publisher credential expired" then?
          bail "publisher credential expired"
      | ReadIdle => bail "publisher session idle timeout"
      | ReadProtocol error => bail error
      | ReadMessage message =>
          lift (context "validating publisher message" (validate_wire message)) then?
          publisher_message hello publisher_id message
      end
  end.

(** [publisher_loop] on what the peer sends until it closes the connection. *)
Definition publisher_loop (hello : SessionHello) (admission : NativeAdmission)
    (reads : list (session_read PublisherMessage)) : publisher_session unit :=
  let? publisher_id := lift (context "fingerprinting publisher identity"
                               (identity_id (hello_identity hello))) in
  for_each (publisher_turn hello publisher_id admission) reads then?
  bail "publisher connection closed".

(** The end of [handle_publisher]: the touched streams are finalized and given
    up, whatever ended the loop. *)
Definition release_streams : publisher_session unit := fun w =>
  let touched := w_touched w in
  (for_each (fun stream_id =>
     ignore (store_call (fun db => pair tt <$> finalize_stream db stream_id)))
     (elements touched) then?
   atomically (fun sh => (Ok tt, set_online (sh_online sh ∖ touched) sh))) w.

Definition run_publisher (hello : SessionHello) (admission : NativeAdmission)
    (reads : list (session_read PublisherMessage)) : publisher_session unit := fun w =>
  let (result, w) := publisher_loop hello admission reads w in
  let (_, w) := release_streams w in
  (result, w).

(** [handle_publisher] from the peer's Noise key and the outcome of the first
    read on. *)
Definition handle_publisher (remote_noise_key : array 32)
    (hello_read : result string PublisherMessage)
    (reads : list (session_read PublisherMessage)) : publisher_session unit :=
  let? hello_message := lift (context "reading publisher hello" hello_read) in
  lift (context "validating publisher hello" (validate_wire hello_message)) then?
  match hello_message with
  | PubHello hello =>
      let? now := now_ms in
      let? admission := atomically (fun sh =>
        (Ok (admit_session (sh_access sh) hello RolePublisher remote_noise_key now), sh)) in
      match admission with
      | Err _ =>
          send_publisher_error Unauthorized "publisher credential rejected" then?
          bail "admitting publisher"
      | Ok admission =>
          let? welcome := welcome admission in
          write_message (RpWelcome welcome) then?
          run_publisher hello admission reads
      end
  | _ =>
      send_publisher_error ProtocolViolation "publisher hello must be first" then?
      bail "publisher hello was not first"
  end.

(** * Viewer sessions *)

Definition viewer_session : Type -> Type := session RelayViewerMessage.

Definition send_viewer_error (code : RelayErrorCode) (detail : string) : viewer_session unit :=
  write_message (RvError {| err_code := code; err_detail := ascii_str detail |}).

(** One entry of [catalog]. *)
Definition catalog_entry (online : gset uuid) (summary : uuid * NativeStreamSummary) :
    viewer_session CatalogEntry :=
  let? found := store_read (fun db => descriptor db summary.1) in
  let? found := lift (ok_or found "native summary lost its descriptor") in
  mret {| ce_descriptor := found; ce_publisher_online := bool_decide (summary.1 ∈ online);
          ce_retained := retained_wire <$> sum_retained summary.2 |}.

Definition catalog : viewer_session (list CatalogEntry) :=
  let? summaries := store_read summaries in
  let? online := atomically (fun sh => (Ok (sh_online sh), sh)) in
  map_each (catalog_entry online) summaries.

Definition send_group_envelope (stream_id epoch_id : uuid) (key_group : Z)
    (recipient_id : array 32) : viewer_session unit :=
  let? found := store_read (fun db => get_envelope db stream_id epoch_id key_group recipient_id) in
  match found with
  | Some envelope => write_message (RvKeyEnvelope envelope)
  | None => mret tt
  end.

(** The objects of one page of [reanchor_from_store]; returns the last sequence
    delivered. *)
Fixpoint deliver_objects (stream_id : uuid) (recipient_id : array 32) (last_sequence : Z)
    (delivered_group : option (uuid * Z)) (objects : list NativeObject) : viewer_session Z :=
  match objects with
  | [] => mret last_sequence
  | object :: objects =>
      lift (reject_if (h_sequence (header object) <> u64_saturating_add last_sequence 1)
        "retained native stream contains a sequence gap") then?
      let group := (h_epoch_id (header object), h_key_group (header object)) in
      (if decide (delivered_group <> Some group)
       then send_group_envelope stream_id group.1 group.2 recipient_id else mret tt) then?
      write_message (RvObject object) then?
      deliver_objects stream_id recipient_id (h_sequence (header object)) (Some group) objects
  end.

(** [reanchor_from_store], at most [fuel] pages. *)
Fixpoint reanchor_from_store (fuel : nat) (stream_id : uuid) (recipient_id : array 32)
    (last_sequence : Z) : viewer_session Z :=
  match fuel with
  | O => bail "out of fuel"
  | S fuel =>
      let? objects :=
        store_read (fun db => list_objects db stream_id last_sequence SUBSCRIPTION_PAGE) in
      if decide (objects = []) then mret last_sequence
      else
        let? last_sequence := deliver_objects stream_id recipient_id last_sequence None objects in
        if decide (zlen objects < SUBSCRIPTION_PAGE) then mret last_sequence
        else reanchor_from_store fuel stream_id recipient_id last_sequence
  end.

(** What the live channel delivered, or that the policy tick elapsed; returns the
    last sequence delivered. *)
Definition live_received (fuel : nat) (stream_id : uuid) (recipient_id : array 32)
    (last_sequence : Z) (event : live_event) : viewer_session Z :=
  let reanchor :=
    let? sequence := reanchor_from_store fuel stream_id recipient_id last_sequence in
    if decide (sequence = last_sequence) then
      send_viewer_error HistoryUnavailable "live subscription gap is no longer retained" then?
      bail "live subscription gap could not be re-anchored"
    else mret sequence in
  match event with
  | LiveIdle => bail "viewer subscription idle timeout"
  | LiveTick => mret last_sequence
  | LiveRecv (LiveEnvelope envelope) =>
      (if decide (eh_recipient_id (env_header envelope) = recipient_id)
       then write_message (RvKeyEnvelope envelope) else mret tt) then?
      mret last_sequence
  | LiveRecv (LiveObject object) =>
      if decide (h_sequence (header object) <= last_sequence) then mret last_sequence
      else if decide (h_sequence (header object) = u64_saturating_add last_sequence 1) then
        write_message (RvObject object) then?
        mret (h_sequence (header object))
      else reanchor
  | LiveLagged => reanchor
  | LiveClosed => bail "native live stream channel closed"
  end.

(** One turn of the live loop of [subscription]: the idle timeout is checked
    before the channel is waited on. *)
Definition live_turn (fuel : nat) (stream_id : uuid) (recipient_id : array 32)
    (admission : NativeAdmission) (last_sequence : Z) (event : live_event) : viewer_session Z :=
  let? now := now_ms in
  if decide (is_some_and (fun expiry => now >= expiry) (adm_expires_at_ms admission)) then
    send_viewer_error CredentialExpired "viewer credential expired" then?
    bail "viewer credential expired"
  else
    let? active := check_active admission in
    match active with
    | Err _ =>
        let? code := active_credential_error_code admission in
        send_viewer_error code "viewer credential is no longer valid" then?
        bail "native relay credential rejected"
    | Ok _ =>
        (match event with LiveIdle => mret tt | _ => wait end) then?
        live_received fuel stream_id recipient_id last_sequence event
    end.

Fixpoint live_loop (fuel : nat) (stream_id : uuid) (recipient_id : array 32)
    (admission : NativeAdmission) (last_sequence : Z) (events : list live_event) :
    viewer_session unit :=
  match events with
  | [] => mret tt
  | event :: events =>
      let? last_sequence := live_turn fuel stream_id recipient_id admission last_sequence event in
      live_loop fuel stream_id recipient_id admission last_sequence events
  end.

(** [subscription] up to the events given; an empty list of events means that
    the subscription goes on. *)
Definition subscription (fuel : nat) (recipient_id publisher_id : array 32) (stream_id : uuid)
    (start : SubscriptionStart) (admission : NativeAdmission) (events : list live_event) :
    viewer_session unit :=
  let? found := store_read (fun db => descriptor db stream_id) in
  let? found := lift (ok_or found "subscription stream not found") in
  let? id := lift (context "identity error" (identity_id (desc_publisher (desc_body found)))) in
  lift (reject_if (id <> publisher_id) "subscription publisher identity mismatch") then?
  let? anchor := store_read (fun db => subscription_anchor db stream_id start) in
  let? retained := store_read (fun db => retained_bounds db stream_id) in
  let? high := store_read (fun db => high_water db stream_id) in
  let high := default 0 high in
  write_message (RvSubscriptionStarted anchor (retained_wire <$> retained)
                   (bool_decide (anchor > high))) then?
  (if decide (anchor > high /\ high > 0) then
     let? found := store_read (fun db => get_object db stream_id high) in
     match found with
     | Some object => send_group_envelope stream_id (h_epoch_id (header object))
                        (h_key_group (header object)) recipient_id
     | None => mret tt
     end
   else mret tt) then?
  let? last_sequence :=
    reanchor_from_store fuel stream_id recipient_id (u64_saturating_sub anchor 1) in
  (if decide (last_sequence > 0) then write_message (RvLive last_sequence) else mret tt) then?
  live_loop fuel stream_id recipient_id admission last_sequence events.

Definition queue_request (source_addr : SocketAddr) (hello : SessionHello)
    (request : PairRequest) : viewer_session unit :=
  lift (reject_if (prq_viewer (prq_body request) <> hello_identity hello)
    "pair request viewer identity mismatch") then?
  let? found := store_read (fun db => descriptor db (prq_stream_id (prq_body request))) in
  if decide ((fun found => desc_publisher (desc_body found)) <$> found <>
             Some (prq_publisher (prq_body request))) then
    send_viewer_error NotFound "requested stream is not published by that identity"
  else
    let? request_id := lift (context "pairing error" (pair_request_id request)) in
    let? now := now_ms in
    pairing_call (fun db =>
      enqueue_request db request source_addr now PAIRING_REQUEST_LIFETIME_MS) then?
    write_message (RvPairingQueued request_id).

Definition fetch_inbox (hello : SessionHello) : viewer_session unit :=
  let? now := now_ms in
  let? inbox := pairing_call (fun db => viewer_inbox db (hello_identity hello) now) in
  for_each (fun offer => write_message (RvPairOffer offer)) (inbox_offers inbox) then?
  for_each (fun decision => write_message (RvPairDecision decision)) (inbox_decisions inbox) then?
  let? recipient_id := lift (context "identity error" (identity_id (hello_identity hello))) in
  let? summaries := store_read summaries in
  for_each (fun summary : uuid * NativeStreamSummary =>
    let? envelopes := store_read (fun db => list_envelopes db summary.1 recipient_id 4096) in
    for_each (fun envelope => write_message (RvKeyEnvelope envelope)) envelopes) summaries then?
  write_message RvInboxComplete.

(** The [match message] of [viewer_loop]; the result is whether the message was
    a subscription, which ends the loop. *)
Definition viewer_message (fuel : nat) (source_addr : SocketAddr) (hello : SessionHello)
    (admission : NativeAdmission) (events : list live_event) (message : ViewerMessage) :
    viewer_session bool :=
  match message with
  | VwHello _ => bail "duplicate viewer hello"
  | VwCatalog =>
      let? catalog := catalog in
      write_message (RvCatalog catalog) then?
      mret false
  | VwSubscribe publisher_id stream_id start =>
      let? recipient_id := lift (context "identity error" (identity_id (hello_identity hello))) in
      subscription fuel recipient_id publisher_id stream_id start admission events then?
      mret true
  | VwPing _ =>
      let? now := now_ms in
      write_message (RvPong now) then?
      mret false
  | VwPairRequest request => queue_request source_addr hello request then? mret false
  | VwPairConfirmation confirmation =>
      let? viewer_id := lift (context "identity error" (identity_id (hello_identity hello))) in
      lift (reject_if (cnf_viewer_id (cnf_body confirmation) <> viewer_id)
        "pair confirmation viewer identity mismatch") then?
      let? now := now_ms in
      pairing_call (fun db => store_confirmation db confirmation now) then?
      write_message (RvPairingQueued (cnf_request_id (cnf_body confirmation))) then?
      mret false
  | VwFetchInbox => fetch_inbox hello then? mret false
  | VwReanchor _ =>
      send_viewer_error ProtocolViolation "re-anchor requires an active subscription" then?
      mret false
  end.

(** One turn of [viewer_loop]; as for a publisher, the read blocks between the
    check and the processing. *)
Definition viewer_turn (fuel : nat) (source_addr : SocketAddr) (hello : SessionHello)
    (admission : NativeAdmission) (events : list live_event)
    (read : session_read ViewerMessage) : viewer_session bool :=
  let? active := check_active admission in
  match active with
  | Err _ =>
      let? code := active_credential_error_code admission in
      send_viewer_error code "viewer credential is no longer valid" then?
      bail "native relay credential rejected"
  | Ok _ =>
      wait then?
      match read with
      | ReadExpired =>
          send_viewer_error CredentialExpired "viewer credential expired" then?
          bail "viewer credential expired"
      | ReadIdle => bail "viewer session idle timeout"
      | ReadProtocol error => bail error
      | ReadMessage message =>
          lift (context "validating viewer message" (validate_wire message)) then?
          viewer_message fuel source_addr hello admission events message
      end
  end.

Fixpoint viewer_loop (fuel : nat) (source_addr : SocketAddr) (hello : SessionHello)
    (admission : NativeAdmission) (events : list live_event)
    (reads : list (session_read ViewerMessage)) : viewer_session unit :=
  match reads with
  | [] => bail "viewer connection closed"
  | read :: reads =>
      let? subscribed := viewer_turn fuel source_addr hello admission events read in
      if subscribed : bool then mret tt
      else viewer_loop fuel source_addr hello admission events reads
  end.

(** [handle_viewer_from] from the peer's Noise key and the outcome of the first
    read on; [events] are those of the subscription that may end it. *)
Definition handle_viewer_from (fuel : nat) (remote_noise_key : array 32)
    (source_addr : SocketAddr) (hello_read : result string ViewerMessage)
    (reads : list (session_read ViewerMessage)) (events : list live_event) :
    viewer_session unit :=
  let? hello_message := lift (context "reading viewer hello" hello_read) in
  lift (context "validating viewer hello" (validate_wire hello_message)) then?
  match hello_message with
  | VwHello hello =>
      let? now := now_ms in
      let? admission := atomically (fun sh =>
        (Ok (admit_session (sh_access sh) hello RoleViewer remote_noise_key now), sh)) in
      match admission with
      | Err _ =>
          send_viewer_error Unauthorized "viewer credential rejected" then?
          bail "admitting viewer"
      | Ok admission =>
          let? welcome := welcome admission in
          write_message (RvWelcome welcome) then?
          viewer_loop fuel source_addr hello admission events reads
      end
  | _ =>
      send_viewer_error ProtocolViolation "viewer hello must be first" then?
      bail "viewer hello was not first"
  end.
End service.
Arguments session : clear implicits.
