(* ===== verification/ServiceInv.v ===== *)
(** Sessions of the relay preserve the invariants of its durable state, whatever
    the peers send and however sessions interleave. *)
From Stdlib Require Import ZArith Lia.
From S2P Require Import Prelude Bytes RustStr External Toy Identity Credential Native Envelope.
From S2P Require Import Transport Pairing Codecs Wire Access NativeTables NativeStore.
From S2P Require Import PairingStore PairingInv Service.

Create HintDb session.

Section sessions.
Context `{crypto : !Crypto, addrs : !SocketAddrs, codecs : !Codecs}.
Context (cfg : StoreConfig) (env : Env).

(** * Rules for invariants of a session *)

Section rules.
Context {M : Type} `{wire : !NativeWireMessage M}.
Implicit Types (I : World M -> Prop).

(** Every run of [m], also one that fails, keeps [I]. *)
Definition keeps {A} I (m : session M A) : Prop :=
  forall w r w', I w -> m w = (r, w') -> I w'.

Lemma keeps_ret {A} I (a : A) : keeps I (mret a).
Proof. intros w r w' Hw [= _ <-]. done. Qed.
Lemma keeps_lift {A} I (r : result string A) : keeps I (lift r).
Proof. intros w r' w' Hw [= _ <-]. done. Qed.
Lemma keeps_bail {A} I what : keeps I (bail (A := A) what).
Proof. apply keeps_lift. Qed.
Lemma keeps_bind {A B} I (m : session M A) (k : A -> session M B) :
  keeps I m -> (forall a, keeps I (k a)) -> keeps I (mbind k m).
Proof.
  intros Hm Hk w r w' Hw [(e & H & _)|(a & w1 & H & H')]%io_bind_run; [by eapply Hm|].
  eapply Hk; [|exact H']. by eapply Hm.
Qed.
Lemma keeps_if {A} I (P : Prop) `{!Decision P} (m1 m2 : session M A) :
  keeps I m1 -> keeps I m2 -> keeps I (if decide P then m1 else m2).
Proof. by case_decide. Qed.
Lemma keeps_ignore {A} I (m : session M A) : keeps I m -> keeps I (ignore m).
Proof.
  intros Hm w r w' Hw [= _ <-]. destruct (m w) as [r' w1] eqn:E. by eapply Hm.
Qed.
Lemma keeps_for_each {A} I (f : A -> session M unit) l :
  (forall a, keeps I (f a)) -> keeps I (for_each f l).
Proof.
  intros Hf. induction l as [|a l IH]; [apply keeps_ret|]. simpl. by apply keeps_bind.
Qed.
Lemma keeps_map_each {A B} I (f : A -> session M B) l :
  (forall a, keeps I (f a)) -> keeps I (map_each f l).
Proof.
  intros Hf. induction l as [|a l IH]; [apply keeps_ret|]. simpl.
  apply keeps_bind; [done|]. intros b. apply keeps_bind; [done|]. intros bs. apply keeps_ret.
Qed.
End rules.

(** * The durable state *)

(** The store is reachable and the mailbox consistent. *)
Definition relay_ok (sh : Shared) : Prop := reachable cfg (sh_store sh) /\ mailbox_ok (sh_pairing sh).

(** The rest of the relay keeps the durable state consistent. *)
Definition env_ok : Prop := forall n sh, relay_ok sh -> relay_ok (interference env n sh).

Section durable.
Context {M : Type} `{wire : !NativeWireMessage M} (Henv : env_ok).
Context `{codecs_laws : !CodecsLaws}.

Definition world_ok (w : World M) : Prop := relay_ok (w_shared w).

Lemma keeps_atomically {A} (f : Shared -> result string A * Shared) :
  (forall sh, relay_ok sh -> relay_ok (f sh).2) -> keeps world_ok (atomically env f).
Proof using Henv.
  intros Hf w r w' Hw. unfold atomically.
  destruct (f (interference env (w_step w) (w_shared w))) as [r' sh] eqn:E. intros [= _ <-].
  unfold world_ok. simpl. change sh with (r', sh).2. rewrite <-E. by apply Hf, Henv.
Qed.
Lemma keeps_observe {A} (f : Shared -> result string A) :
  keeps world_ok (atomically env (fun sh => (f sh, sh))).
Proof using Henv. by apply keeps_atomically. Qed.
Lemma keeps_wait : keeps world_ok (wait env (M := M)).
Proof using Henv. apply keeps_observe. Qed.
Lemma keeps_now : keeps world_ok (now_ms env (M := M)).
Proof using Type. intros w r w' Hw [= _ <-]. done. Qed.
Lemma keeps_store_read {A} (f : Db -> result string A) : keeps world_ok (store_read env (M := M) f).
Proof using Henv. by apply keeps_atomically. Qed.

Lemma keeps_store_call {A} (f : Db -> result string (A * Db)) :
  (forall db a db', f db = Ok (a, db') -> store_step cfg db db') ->
  keeps world_ok (store_call env (M := M) f).
Proof using Henv.
  intros Hf. apply keeps_atomically. intros sh [Hr Hm].
  destruct (f (sh_store sh)) as [[a db]|e] eqn:E; [|done].
  split; [|done]. simpl. eapply reachable_step; [done|by eapply Hf].
Qed.
Lemma keeps_pairing_call {A} (f : PairDb -> result string (A * PairDb)) :
  (forall db a db', f db = Ok (a, db') -> exists now, mailbox_step now db db') ->
  keeps world_ok (pairing_call env (M := M) f).
Proof using Henv codecs_laws.
  intros Hf. apply keeps_atomically. intros sh [Hr Hm].
  destruct (f (sh_pairing sh)) as [[a db]|e] eqn:E; [|done].
  split; [done|]. simpl. destruct (Hf _ _ _ E) as [now Hstep]. by eapply mailbox_step_ok.
Qed.
Lemma keeps_write (m : M) : keeps world_ok (write_message env m).
Proof using Type.
  apply keeps_bind; [apply keeps_lift|]. intros _ w r w' Hw. unfold transmit.
  destruct (write_fails _ _); intros [= _ <-]; done.
Qed.
Lemma keeps_claim s : keeps world_ok (claim_online env (M := M) s).
Proof using Henv.
  intros w r w' Hw. unfold claim_online. case_decide; [by intros [= _ <-]|].
  case_decide; intros [= _ <-]; unfold world_ok; simpl; [by apply Henv|].
  destruct (Henv (w_step w) _ Hw). by split.
Qed.
Lemma keeps_live_send s item : keeps world_ok (live_send env (M := M) s item).
Proof using Henv. apply keeps_atomically. intros sh [? ?]. by split. Qed.
Lemma keeps_check_active a : keeps world_ok (check_active env (M := M) a).
Proof using Henv. apply keeps_bind; [apply keeps_now|]. intros. by apply keeps_atomically. Qed.
Lemma keeps_error_code a : keeps world_ok (active_credential_error_code env (M := M) a).
Proof using Henv. apply keeps_bind; [apply keeps_now|]. intros. apply keeps_ret. Qed.
Lemma keeps_welcome a : keeps world_ok (welcome env (M := M) a).
Proof using Type. apply keeps_bind; [apply keeps_now|]. intros. apply keeps_ret. Qed.
End durable.
End sessions.

#[export] Hint Resolve keeps_ret keeps_lift keeps_bail keeps_observe keeps_wait keeps_now keeps_store_read keeps_write
  keeps_claim keeps_live_send keeps_check_active keeps_error_code keeps_welcome : session.

(** Walk through the steps of a session. *)
Ltac keeps_step :=
  match goal with
  | |- keeps _ (mbind _ _) => apply keeps_bind; [|intros ?]
  | |- keeps _ (if decide _ then _ else _) => apply keeps_if
  | |- keeps _ (for_each _ _) => apply keeps_for_each; intros ?
  | |- keeps _ (map_each _ _) => apply keeps_map_each; intros ?
  | |- keeps _ (ignore _) => apply keeps_ignore
  | |- keeps _ (match ?x with _ => _ end) => destruct x
  | |- keeps _ (let _ := _ in _) => cbv zeta
  | |- keeps _ (store_call _ _) =>
      apply keeps_store_call; [assumption|];
      intros ??? H; first [by econstructor | apply fmap_Ok_inv in H as (? & H & [= _ <-]); by econstructor]
  | |- keeps _ (pairing_call _ _) =>
      apply keeps_pairing_call; [assumption..|]; intros; eexists; by econstructor
  | |- keeps _ _ => solve [eauto with session]
  end.
Ltac keeps_auto := repeat keeps_step.

Section relay.
Context `{crypto : !Crypto, addrs : !SocketAddrs, codecs : !Codecs}.
Context `{codecs_laws : !CodecsLaws}.
Context (cfg : StoreConfig) (env : Env) (Henv : env_ok cfg env).

(** * Publisher sessions *)

Lemma keeps_publisher_message hello publisher_id message :
  keeps (world_ok cfg) (publisher_message cfg env hello publisher_id message).
Proof using All.
  destruct message; cbn [publisher_message]; unfold send_publisher_error, resume_stream,
    validate_resume_stream, publish_object, publish_envelope, fetch_pairing_inbox,
    require_publisher; keeps_auto.
Qed.

#[local] Hint Resolve keeps_publisher_message : session.

Lemma keeps_publisher_loop hello admission reads :
  keeps (world_ok cfg) (publisher_loop cfg env hello admission reads).
Proof using All.
  unfold publisher_loop, publisher_turn, send_publisher_error. keeps_auto.
Qed.

Lemma keeps_release : keeps (world_ok cfg) (release_streams env).
Proof using All.
  intros w. apply (keeps_bind (world_ok cfg)); [keeps_auto|]. intros _.
  apply keeps_atomically; [done|]. by intros sh [? ?].
Qed.

Lemma keeps_run_publisher hello admission reads :
  keeps (world_ok cfg) (run_publisher cfg env hello admission reads).
Proof using All.
  intros w r w' Hw. unfold run_publisher.
  destruct (publisher_loop _ _ _ _ _ _) as [r1 w1] eqn:E1.
  destruct (release_streams _ _) as [r2 w2] eqn:E2. intros [= _ <-].
  eapply keeps_release; [|exact E2]. by eapply keeps_publisher_loop.
Qed.
#[local] Hint Resolve keeps_run_publisher : session.

Lemma keeps_handle_publisher key hello_read reads :
  keeps (world_ok cfg) (handle_publisher cfg env key hello_read reads).
Proof using All.
  unfold handle_publisher, send_publisher_error. keeps_auto.
Qed.

(** * Viewer sessions *)

Lemma keeps_send_group_envelope s e g recipient :
  keeps (world_ok cfg) (send_group_envelope env s e g recipient).
Proof using All. unfold send_group_envelope. keeps_auto. Qed.
#[local] Hint Resolve keeps_send_group_envelope : session.

Lemma keeps_deliver s recipient objects last group :
  keeps (world_ok cfg) (deliver_objects env s recipient last group objects).
Proof using All.
  revert last group. induction objects as [|o objects IH]; intros last group; simpl; keeps_auto.
Qed.
#[local] Hint Resolve keeps_deliver : session.

Lemma keeps_reanchor fuel s recipient last :
  keeps (world_ok cfg) (reanchor_from_store env fuel s recipient last).
Proof using All. revert last. induction fuel as [|fuel IH]; intros last; simpl; keeps_auto. Qed.
#[local] Hint Resolve keeps_reanchor : session.

Lemma keeps_live_loop fuel s recipient admission last events :
  keeps (world_ok cfg) (live_loop env fuel s recipient admission last events).
Proof using All.
  revert last. induction events as [|e events IH]; intros last; simpl; unfold live_turn,
    live_received, send_viewer_error; keeps_auto.
Qed.
#[local] Hint Resolve keeps_live_loop : session.

Lemma keeps_viewer_message fuel addr hello admission events message :
  keeps (world_ok cfg) (viewer_message env fuel addr hello admission events message).
Proof using All.
  destruct message; cbn [viewer_message]; unfold catalog, catalog_entry, subscription,
    queue_request, fetch_inbox, send_viewer_error; keeps_auto.
Qed.
#[local] Hint Resolve keeps_viewer_message : session.

Lemma keeps_handle_viewer fuel key addr hello_read reads events :
  keeps (world_ok cfg) (handle_viewer_from env fuel key addr hello_read reads events).
Proof using All.
  assert (forall hello admission, keeps (world_ok cfg)
    (viewer_loop env fuel addr hello admission events reads)) as Hloop.
  { intros hello admission. induction reads as [|read reads IH]; simpl; unfold viewer_turn,
      send_viewer_error; keeps_auto. }
  unfold handle_viewer_from, send_viewer_error. keeps_auto.
Qed.
End relay.
