(* ===== verification/Delivery.v ===== *)
(** What a session tells its peer: only errors before admission and after
    expiry or revocation, a gapless run of objects to a subscriber, key
    envelopes to their recipient only, and acknowledgements only for what is
    stored. *)
From Stdlib Require Import ZArith Lia.
From S2P Require Import Prelude Bytes RustStr External Toy Identity Credential Native Envelope.
From S2P Require Import Transport Pairing Codecs Wire Access NativeTables NativeStore.
From S2P Require Import StoreInv StoreOps StoreContent StoreQueries PairingStore PairingInv.
From S2P Require Import Service ServiceInv.

Create HintDb emits.

Section rules.
Context `{crypto : !Crypto, addrs : !SocketAddrs, codecs : !Codecs}.
Context (env : Env) {M : Type} `{wire : !NativeWireMessage M}.
Implicit Types (I : World M -> Prop) (Q : M -> Prop).

(** Every run of [m] from a world in [I] only writes messages in [Q]. *)
Definition emits {A} I Q (m : session M A) : Prop :=
  forall w r w', I w -> m w = (r, w') ->
    exists msgs, w_written w' = w_written w ++ msgs /\ Forall Q msgs.

Lemma emits_weaken {A} I Q Q' (m : session M A) :
  (forall msg, Q msg -> Q' msg) -> emits I Q m -> emits I Q' m.
Proof.
  intros HQ Hm w r w' Hw H. destruct (Hm _ _ _ Hw H) as (msgs & E & F). exists msgs.
  split; [done|]. by eapply Forall_impl.
Qed.
Lemma emits_none {A} I Q (m : session M A) :
  (forall w r w', m w = (r, w') -> w_written w' = w_written w) -> emits I Q m.
Proof.
  intros Hm w r w' _ H. exists []. split; [|constructor]. rewrite app_nil_r. by eapply Hm.
Qed.
Lemma emits_ret {A} I Q (a : A) : emits I Q (mret a).
Proof. apply emits_none. by intros w r w' [= _ <-]. Qed.
Lemma emits_lift {A} I Q (r : result string A) : emits I Q (lift r).
Proof. apply emits_none. by intros w r' w' [= _ <-]. Qed.
Lemma emits_bail {A} I Q what : emits I Q (bail (A := A) what).
Proof. apply emits_lift. Qed.
Lemma emits_wait I Q : emits I Q (wait env).
Proof. apply emits_none. by intros w r w' [= _ <-]. Qed.
Lemma emits_now I Q : emits I Q (now_ms env).
Proof. apply emits_none. by intros w r w' [= _ <-]. Qed.
Lemma emits_atomically {A} I Q (f : Shared -> result string A * Shared) :
  emits I Q (atomically env f).
Proof.
  apply emits_none. intros w r w'. unfold atomically. destruct (f _) as [r' sh].
  by intros [= _ <-].
Qed.
Lemma emits_store_read {A} I Q (f : Db -> result string A) : emits I Q (store_read env f).
Proof. apply emits_atomically. Qed.
Lemma emits_store_call {A} I Q (f : Db -> result string (A * Db)) : emits I Q (store_call env f).
Proof. apply emits_atomically. Qed.
Lemma emits_pairing_call {A} I Q (f : PairDb -> result string (A * PairDb)) :
  emits I Q (pairing_call env f).
Proof. apply emits_atomically. Qed.
Lemma emits_claim I Q s : emits I Q (claim_online env s).
Proof.
  apply emits_none. intros w r w'. unfold claim_online.
  repeat case_decide; by intros [= _ <-].
Qed.
Lemma emits_live_send I Q s item : emits I Q (live_send env s item).
Proof. apply emits_atomically. Qed.

Lemma emits_check_active I Q a : emits I Q (check_active env a).
Proof. apply emits_none. by intros w r w' [= _ <-]. Qed.
Lemma emits_error_code I Q a : emits I Q (active_credential_error_code env a).
Proof. apply emits_none. by intros w r w' [= _ <-]. Qed.
Lemma emits_welcome I Q a : emits I Q (welcome env a).
Proof. apply emits_none. by intros w r w' [= _ <-]. Qed.

(** A write appends its message or fails. *)
Lemma write_message_run m w r w' :
  write_message env m w = (r, w') ->
  (w_written w' = w_written w /\ exists e, r = Err e) \/
  (w_written w' = w_written w ++ [m] /\ r = Ok tt /\ validate_wire m = Ok tt).
Proof.
  unfold write_message. intros [(e & [= _ <-] & ->)|([] & w1 & [Hv%context_Ok ->]%lift_Ok & H)]%io_bind_run;
    [left; eauto|].
  unfold transmit in H. destruct (write_fails _ _); injection H as <- <-; simpl; eauto.
Qed.
Lemma emits_write I Q m : Q m -> emits I Q (write_message env m).
Proof.
  intros HQ w r w' _ [[Hw _]|[Hw _]]%write_message_run.
  - exists []. rewrite app_nil_r. by split; [|constructor].
  - exists [m]. split; [done|]. by repeat constructor.
Qed.

Lemma emits_bind {A B} I Q (m : session M A) (k : A -> session M B) :
  keeps I m -> emits I Q m -> (forall a, emits I Q (k a)) -> emits I Q (mbind k m).
Proof.
  intros HI Hm Hk w r w' Hw [(e & H & _)|(a & w1 & H & H')]%io_bind_run; [by eapply Hm|].
  destruct (Hm _ _ _ Hw H) as (l1 & E1 & F1).
  destruct (Hk a w1 r w' (HI _ _ _ Hw H) H') as (l2 & E2 & F2).
  exists (l1 ++ l2). rewrite E2, E1, app_assoc. split; [done|]. by apply Forall_app.
Qed.
Lemma emits_if {A} I Q (P : Prop) `{!Decision P} (m1 m2 : session M A) :
  (P -> emits I Q m1) -> (~ P -> emits I Q m2) -> emits I Q (if decide P then m1 else m2).
Proof. case_decide; auto. Qed.
Lemma emits_ignore {A} I Q (m : session M A) : emits I Q m -> emits I Q (ignore m).
Proof.
  intros Hm w r w' Hw [= _ <-]. destruct (m w) as [r' w1] eqn:E. by eapply Hm.
Qed.
Lemma emits_for_each {A} I Q (f : A -> session M unit) l :
  (forall a, keeps I (f a)) -> (forall a, emits I Q (f a)) -> emits I Q (for_each f l).
Proof.
  intros HI Hf. induction l as [|a l IH]; [apply emits_ret|]. simpl. by apply emits_bind.
Qed.
Lemma emits_map_each {A B} I Q (f : A -> session M B) l :
  (forall a, keeps I (f a)) -> (forall a, emits I Q (f a)) -> emits I Q (map_each f l).
Proof.
  intros HI Hf. induction l as [|a l IH]; [apply emits_ret|]. simpl.
  apply emits_bind; [done..|]. intros b. apply emits_bind; [|done|].
  - by apply keeps_map_each.
  - intros bs. apply emits_ret.
Qed.
End rules.

#[export] Hint Resolve emits_ret emits_lift emits_bail emits_wait emits_now emits_store_read emits_store_call
  emits_pairing_call emits_claim emits_live_send emits_atomically emits_check_active
  emits_error_code emits_welcome : emits.

(** * Gapless delivery *)

Section delivery.
Context `{crypto : !Crypto, addrs : !SocketAddrs, codecs : !Codecs}.
Context (env : Env).

(** The sequence numbers of the objects among some messages. *)
Definition object_sequences (msgs : list RelayViewerMessage) : list Z :=
  omap (fun m => match m with RvObject o => Some (h_sequence (header o)) | _ => None end) msgs.

Lemma object_sequences_app l k : object_sequences (l ++ k) = object_sequences l ++ object_sequences k.
Proof. apply omap_app. Qed.

(** A run from [last] that writes the objects after [last] in order, without a
    gap, and reports the last one it wrote. *)
Definition run_from (last : Z) (m : viewer_session Z) : Prop :=
  forall w r w', m w = (r, w') -> exists msgs n,
    w_written w' = w_written w ++ msgs /\ 0 <= n /\ object_sequences msgs = seqZ (last + 1) n /\
    forall v, r = Ok v -> v = last + n.

(** A run that writes no object. *)
Definition quiet {A} (m : viewer_session A) : Prop :=
  emits (fun _ => True) (fun msg => object_sequences [msg] = []) m.

Lemma quiet_sequences msgs :
  Forall (fun msg => object_sequences [msg] = []) msgs -> object_sequences msgs = [].
Proof.
  induction 1 as [|m l H _ IH]; [done|]. change (m :: l) with ([m] ++ l).
  by rewrite object_sequences_app, H, IH.
Qed.

Lemma keeps_trivial {A} (m : viewer_session A) : keeps (fun _ => True) m.
Proof. done. Qed.

Lemma run_from_ret last : run_from last (mret last).
Proof.
  intros w r w' [= <- <-]. exists [], 0. rewrite app_nil_r. split_and!; try done.
  intros v [= <-]. lia.
Qed.
Lemma run_from_fail last what : run_from last (bail what).
Proof. intros w r w' [= <- <-]. exists [], 0. by rewrite app_nil_r. Qed.
Lemma run_from_quiet {A} last (m : viewer_session A) k :
  quiet m -> (forall a w w1, m w = (Ok a, w1) -> run_from last (k a)) -> run_from last (mbind k m).
Proof.
  intros Hm Hk w r w' [(e & H & ->)|(a & w1 & H & H')]%io_bind_run.
  - destruct (Hm _ _ _ I H) as (msgs & E & F). exists msgs, 0. rewrite E.
    by rewrite (quiet_sequences _ F).
  - destruct (Hm _ _ _ I H) as (l & E & F).
    destruct (Hk _ _ _ H _ _ _ H') as (msgs & n & E' & Hn & Hs & Hv).
    exists (l ++ msgs), n. rewrite E', E, app_assoc, object_sequences_app, (quiet_sequences _ F).
    by split_and!.
Qed.
Lemma run_from_bind last (m : viewer_session Z) k :
  run_from last m -> (forall v, last <= v -> run_from v (k v)) -> run_from last (mbind k m).
Proof.
  intros Hm Hk w r w' [(e & H & ->)|(a & w1 & H & H')]%io_bind_run.
  - destruct (Hm _ _ _ H) as (msgs & n & E & Hn & Hs & _). by exists msgs, n.
  - destruct (Hm _ _ _ H) as (l & n & E & Hn & Hs & Hv). specialize (Hv a eq_refl). subst a.
    destruct (Hk (last + n) ltac:(lia) _ _ _ H') as (msgs & n' & E' & Hn' & Hs' & Hv').
    exists (l ++ msgs), (n + n'). rewrite E', E, app_assoc, object_sequences_app, Hs, Hs'.
    split_and!; [done|lia| |].
    + rewrite seqZ_app by lia. do 2 f_equal. lia.
    + intros v ->. rewrite (Hv' v eq_refl). lia.
Qed.
Lemma run_from_object last o k :
  h_sequence (header o) = last + 1 -> run_from (last + 1) k ->
  run_from last (write_message env (RvObject o) then? k).
Proof.
  intros Hq Hk w r w' [(e & H & ->)|([] & w1 & H & H')]%io_bind_run.
  - apply write_message_run in H as [[E _]|(_ & ? & _)]; [|done]. exists [], 0.
    by rewrite app_nil_r.
  - apply write_message_run in H as [[_ [? ?]]|(E & _)]; [done|].
    destruct (Hk _ _ _ H') as (msgs & n & E' & Hn & Hs & Hv).
    exists (RvObject o :: msgs), (1 + n). rewrite E', E, <-app_assoc.
    split_and!; [done|lia| |].
    + change (object_sequences (RvObject o :: msgs)) with
        (h_sequence (header o) :: object_sequences msgs).
      rewrite Hs, Hq. rewrite (seqZ_cons (last + 1)) by lia. do 2 f_equal; lia.
    + intros v ->. rewrite (Hv v eq_refl). lia.
Qed.

Lemma quiet_write m : object_sequences [m] = [] -> quiet (write_message env m).
Proof. intros H. by apply emits_write. Qed.
Lemma quiet_bind {A B} (m : viewer_session A) (k : A -> viewer_session B) :
  quiet m -> (forall a, quiet (k a)) -> quiet (mbind k m).
Proof. by apply emits_bind. Qed.
Lemma quiet_envelope s e g recipient : quiet (send_group_envelope env s e g recipient).
Proof.
  unfold send_group_envelope. apply quiet_bind; [apply emits_store_read|].
  intros [x|]; [by apply quiet_write|apply emits_ret].
Qed.

Lemma deliver_run s recipient objects last group :
  last + zlen objects <= u64_max ->
  run_from last (deliver_objects env s recipient last group objects).
Proof.
  revert last group. induction objects as [|o objects IH]; intros last group Hb; cbn [deliver_objects].
  { apply run_from_ret. }
  cbn [length] in Hb.
  apply run_from_quiet; [apply emits_lift|]. intros [] w w1 [Hq%reject_if_Ok%dec_stable _]%lift_Ok.
  replace (u64_saturating_add last 1) with (last + 1) in Hq by ints. cbv zeta.
  apply run_from_quiet; [apply emits_if; intros _; [apply quiet_envelope|apply emits_ret]|].
  intros _ _ _ _. apply run_from_object; [done|]. rewrite Hq. apply IH. lia.
Qed.

Lemma list_objects_bounds db s after limit l :
  0 <= limit -> list_objects db s after limit = Ok l -> after <= i64_max /\ zlen l <= limit.
Proof.
  intros Hlim. unfold list_objects. rewrite guard_bind. intros [_ H].
  apply bind_Ok_inv in H as (d & _ & H). apply bind_Ok_inv in H as (d' & _ & H).
  apply bind_Ok_inv in H as (a & [-> Ha]%to_sql_u64_Ok & H%mapR_Ok%Forall2_length).
  rewrite length_take in H. split; [ints|lia].
Qed.

Lemma reanchor_run fuel s recipient last :
  run_from last (reanchor_from_store env fuel s recipient last).
Proof.
  revert last. induction fuel as [|fuel IH]; intros last; cbn [reanchor_from_store].
  { apply run_from_fail. }
  apply run_from_quiet; [apply emits_store_read|]. intros objects w w1 H.
  assert (last <= i64_max /\ zlen objects <= SUBSCRIPTION_PAGE) as [Hl Ho].
  { unfold store_read, atomically in H. injection H as H _. by eapply list_objects_bounds. }
  case_decide; [apply run_from_ret|].
  apply run_from_bind; [apply deliver_run; unfold SUBSCRIPTION_PAGE in *; ints|].
  intros v Hv. case_decide; [apply run_from_ret|apply IH].
Qed.

Lemma live_turn_run fuel s recipient admission last event :
  run_from last (live_turn env fuel s recipient admission last event).
Proof.
  assert (forall code what what', run_from last
    (send_viewer_error env code what then? bail what')) as Herr.
  { intros. apply run_from_quiet; [by apply quiet_write|]. intros. apply run_from_fail. }
  assert (run_from last (let? sequence := reanchor_from_store env fuel s recipient last in
    if decide (sequence = last) then
      send_viewer_error env HistoryUnavailable "live subscription gap is no longer retained" then?
      bail "live subscription gap could not be re-anchored"
    else mret sequence)) as Hre.
  { apply run_from_bind; [apply reanchor_run|]. intros v Hv. case_decide; [subst v; apply Herr|apply run_from_ret]. }
  unfold live_turn. apply run_from_quiet; [apply emits_now|]. intros now _ _ _.
  case_decide; [apply Herr|]. apply run_from_quiet.
  { apply quiet_bind; [apply emits_now|]. intros. apply emits_atomically. }
  intros [?|?] _ _ _.
  - apply run_from_quiet.
    { destruct event; first [apply emits_ret|apply emits_atomically]. }
    intros [] _ _ _. unfold live_received. cbv zeta. destruct event as [| |[o|e]| |]; [apply run_from_fail|apply run_from_ret| | |done|apply run_from_fail].
    + case_decide; [apply run_from_ret|]. case_decide as Hq; [|done].
      assert (h_sequence (header o) = last + 1) as Hq' by ints. rewrite Hq'.
      apply run_from_object; [done|apply run_from_ret].
    + apply run_from_quiet; [apply emits_if; intros _; [by apply quiet_write|apply emits_ret]|].
      intros. apply run_from_ret.
  - apply run_from_quiet; [|intros; apply Herr]. apply quiet_bind; [apply emits_now|].
    intros. apply emits_ret.
Qed.
End delivery.

Section subscriber.
Context `{crypto : !Crypto, addrs : !SocketAddrs, codecs : !Codecs}.
Context (env : Env).

(** A run that writes a gapless run of objects from after [last] on. *)
Definition streams_from (last : Z) (m : viewer_session unit) : Prop :=
  forall w r w', m w = (r, w') -> exists msgs n,
    w_written w' = w_written w ++ msgs /\ 0 <= n /\ object_sequences msgs = seqZ (last + 1) n.

Lemma streams_quiet last (m : viewer_session unit) : quiet m -> streams_from last m.
Proof.
  intros Hm w r w' H. destruct (Hm _ _ _ I H) as (msgs & E & F). exists msgs, 0.
  by rewrite E, (quiet_sequences _ F).
Qed.
Lemma streams_after_quiet {A} last (m : viewer_session A) k :
  quiet m -> (forall a, streams_from last (k a)) -> streams_from last (mbind k m).
Proof.
  intros Hm Hk w r w' [(e & H & ->)|(a & w1 & H & H')]%io_bind_run;
    destruct (Hm _ _ _ I H) as (l & E & F).
  - exists l, 0. by rewrite E, (quiet_sequences _ F).
  - destruct (Hk _ _ _ _ H') as (msgs & n & E' & Hn & Hs). exists (l ++ msgs), n.
    rewrite E', E, app_assoc, object_sequences_app, (quiet_sequences _ F). by split_and!.
Qed.
Lemma streams_after_run last (m : viewer_session Z) k :
  run_from last m -> (forall v, last <= v -> streams_from v (k v)) ->
  streams_from last (mbind k m).
Proof.
  intros Hm Hk w r w' [(e & H & ->)|(a & w1 & H & H')]%io_bind_run;
    destruct (Hm _ _ _ H) as (l & n & E & Hn & Hs & Hv); [by exists l, n|].
  specialize (Hv a eq_refl). subst a.
  destruct (Hk (last + n) ltac:(lia) _ _ _ H') as (msgs & n' & E' & Hn' & Hs').
  exists (l ++ msgs), (n + n'). rewrite E', E, app_assoc, object_sequences_app, Hs, Hs'.
  split_and!; [done|lia|]. rewrite seqZ_app by lia. do 2 f_equal. lia.
Qed.

Lemma live_loop_streams fuel s recipient admission last events :
  streams_from last (live_loop env fuel s recipient admission last events).
Proof.
  revert last. induction events as [|e events IH]; intros last; cbn [live_loop].
  - apply streams_quiet, emits_ret.
  - apply streams_after_run; [apply live_turn_run|]. intros v _. apply IH.
Qed.

(** An anchor from a reachable store is a sequence number a subscription can
    start at. *)
Lemma anchor_range cfg db s start a :
  reachable cfg db -> subscription_anchor db s start = Ok a -> 1 <= a <= i64_max + 1.
Proof using Type.
  intros Hre H. pose proof (reachable_wf _ _ Hre) as Hwf.
  assert (exists r, streams db !! s = Some r /\ start_fits start) as (r & Hr & Hfit).
  { unfold subscription_anchor in H. apply bind_Ok_inv in H as (r & Hr%ok_or_Ok & H).
    exists r. split; [done|]. destruct start; [done|done| |]; do 3 apply bind_Ok_inv in H as (? & ? & H);
      match goal with E : (let? _ := to_sql_u64 _ _ in _) = _ |- _ =>
        apply bind_Ok_inv in E as (? & [-> ?]%to_sql_u64_Ok & _) end; done. }
  rewrite (subscription_anchor_selection _ _ _ _ Hwf Hr Hfit) in H. injection H as <-.
  pose proof (wf_stream _ Hwf _ _ Hr) as [[Hhw Hok] Hmax].
  destruct (selection db s start) as [[k g]|] eqn:E; [|lia].
  apply selection_Some in E as (Hg & _). pose proof (wf_range _ Hwf _ _ Hg). unfold i64_ok in *. lia.
Qed.

(** * Subscriptions *)

Section subscriptions.
Context `{codecs_laws : !CodecsLaws} (cfg : StoreConfig) (Henv : env_ok cfg env).

(** A run that writes nothing, or announces an anchor of a reachable store and
    goes on with a gapless run of objects from it. *)
Definition announces (stream_id : uuid) (start : SubscriptionStart) (m : viewer_session unit) : Prop :=
  forall w r w', world_ok cfg w -> m w = (r, w') ->
    w_written w' = w_written w \/
    exists db anchor retained waiting rest n,
      reachable cfg db /\ subscription_anchor db stream_id start = Ok anchor /\
      w_written w' = w_written w ++ RvSubscriptionStarted anchor retained waiting :: rest /\
      0 <= n /\ object_sequences rest = seqZ anchor n.

Lemma announces_after {A} s start (m : viewer_session A) k :
  keeps (world_ok cfg) m -> emits (fun _ => True) (fun _ => False) m ->
  (forall a, announces s start (k a)) -> announces s start (mbind k m).
Proof using Type.
  intros HI Hm Hk w r w' Hw [(e & H & ->)|(a & w1 & H & H')]%io_bind_run.
  - left. destruct (Hm _ _ _ I H) as (l & E & F). destruct l; [by rewrite app_nil_r in E|inversion F as [|??[]]].
  - destruct (Hm _ _ _ I H) as (l & E & F).
    destruct l; [rewrite app_nil_r in E; rewrite <-E|inversion F as [|??[]]].
    eapply Hk; [|done]. by eapply HI.
Qed.

Lemma announces_start s start anchor retained waiting k :
  (exists db, reachable cfg db /\ subscription_anchor db s start = Ok anchor) ->
  streams_from (u64_saturating_sub anchor 1) k ->
  announces s start (write_message env (RvSubscriptionStarted anchor retained waiting) then? k).
Proof using Type.
  intros (db & Hre & Ha) Hk w r w' Hw [(e & H & ->)|([] & w1 & H & H')]%io_bind_run.
  - apply write_message_run in H as [[E _]|(_ & ? & _)]; [by left|done].
  - apply write_message_run in H as [[_ [? ?]]|(E & _)]; [done|].
    destruct (Hk _ _ _ H') as (msgs & n & E' & Hn & Hs). right.
    exists db, anchor, retained, waiting, msgs, n. rewrite E', E, <-app_assoc.
    split_and!; [done..|]. pose proof (anchor_range _ _ _ _ _ Hre Ha).
    rewrite Hs. f_equal. ints.
Qed.

(** The anchor is read from a reachable store. *)
Lemma announces_anchor s start k :
  (forall anchor, (exists db, reachable cfg db /\ subscription_anchor db s start = Ok anchor) ->
     announces s start (k anchor)) ->
  announces s start (let? anchor := store_read env (fun db => subscription_anchor db s start) in k anchor).
Proof using Henv.
  intros Hk w r w' Hw [(e & H & ->)|(a & w1 & H & H')]%io_bind_run;
    unfold store_read, atomically in H; injection H as H <-; [by left|].
  destruct (Henv (w_step w) _ Hw) as [Hre Hm].
  assert (announces s start (k a)) as Ha by eauto.
  eapply (Ha _ _ _ _ H'). Unshelve. by split.
Qed.

(** C6: what a subscription writes is an announced anchor, which a reachable
    state of the store gives for the requested start, and from the anchor on a
    gapless, duplicate-free run of the stream's objects, also where it falls
    back to the store after its live channel lagged or skipped, whatever other
    sessions, retention, the clock and the network do meanwhile. *)
Theorem subscription_gapless fuel recipient_id publisher_id stream_id start admission events w r w' :
  world_ok cfg w ->
  subscription env fuel recipient_id publisher_id stream_id start admission events w = (r, w') ->
  w_written w' = w_written w \/
  exists db anchor retained waiting rest n,
    reachable cfg db /\ subscription_anchor db stream_id start = Ok anchor /\
    w_written w' = w_written w ++ RvSubscriptionStarted anchor retained waiting :: rest /\
    0 <= n /\ object_sequences rest = seqZ anchor n.
Proof using Henv.
  revert w r w'. change (announces stream_id start
    (subscription env fuel recipient_id publisher_id stream_id start admission events)).
  unfold subscription.
  do 4 (apply announces_after; [eauto with session|auto with emits|intros ?]).
  apply announces_anchor. intros anchor Hanchor.
  do 2 (apply announces_after; [eauto with session|auto with emits|intros ?]).
  cbv zeta. apply announces_start; [done|].
  apply streams_after_quiet.
  { apply emits_if; intros _; [|apply emits_ret]. apply quiet_bind; [apply emits_store_read|].
    intros [o|]; [apply quiet_envelope|apply emits_ret]. }
  intros _. apply streams_after_run; [apply reanchor_run|]. intros last _.
  apply streams_after_quiet; [apply emits_if; intros _; [by apply quiet_write|apply emits_ret]|].
  intros _. apply live_loop_streams.
Qed.
End subscriptions.
End subscriber.
