(* ===== verification/Replay.v ===== *)
(** A subscription catches up: when the network and the rest of the relay leave
    it alone, [subscription] announces an anchor, writes every retained object
    from it to the high-water mark and reports that mark.  First that every row
    of a reachable store can be read back, then the runs of the session. *)
From Stdlib Require Import ZArith Lia.
From S2P Require Import Prelude Bytes RustStr External Toy Identity Credential Native Envelope.
From S2P Require Import Transport Pairing Codecs Wire Access NativeTables NativeStore StoreSample.
From S2P Require Import StoreInv StoreRetention StoreOps StoreContent StoreQueries PairingStore.
From S2P Require Import PairingInv Service ServiceInv Delivery.

(** * Rows are readable *)

Lemma Forall_or {A} (P : A -> Prop) (C : Prop) l :
  (forall x, x ∈ l -> P x \/ C) -> Forall P l \/ C.
Proof.
  induction l as [|x l IH]; intros H; [by left; constructor|].
  destruct (H x) as [Hx|]; [set_solver| |by right].
  destruct IH as [Hl|]; [set_solver|left; by constructor|by right].
Qed.
Lemma map_Forall_or `{Countable K} {A} (P : K -> A -> Prop) (C : Prop) (m : gmap K A) :
  (forall k x, m !! k = Some x -> P k x \/ C) -> map_Forall P m \/ C.
Proof.
  intros Hm. destruct (Forall_or (fun kx => P kx.1 kx.2) C (map_to_list m)) as [Hl|]; [|left|by right].
  - intros [k x] Hkx%elem_of_map_to_list. by apply Hm.
  - intros k x Hkx. rewrite Forall_forall in Hl. by apply (Hl (k, x)), elem_of_map_to_list.
Qed.

Section replay.
Context `{crypto : !Crypto, addrs : !SocketAddrs, codecs : !Codecs, codecs_laws : !CodecsLaws}.

(** A row of stream [s] decodes under the publisher of the stream. *)
Definition decodes {T E} (db : Db) (s : uuid) (decode : IdentityPublic -> result E T) : Prop :=
  match descriptor_in db s with
  | Ok (Some d) => is_ok (decode (desc_publisher (desc_body d))) = true
  | _ => True
  end.
#[global] Instance decodes_dec {T E} db s (decode : IdentityPublic -> result E T) :
  Decision (decodes db s decode).
Proof. unfold decodes. destruct (descriptor_in db s) as [[|]|]; apply _. Defined.

Definition readable (db : Db) : Prop :=
  map_Forall (fun k row => decodes db k.1 (object_decode (o_object row))) (objects db) /\
  map_Forall (fun k row => decodes db k.1.1.1 (envelope_decode (e_envelope row))) (envelopes db).

(** An identity other than the publisher of a stream, with the fingerprint of
    that publisher, has signed a row of the stream. *)
Definition impostor (db : Db) : Prop :=
  exists s d p, descriptor_in db s = Ok (Some d) /\ p <> desc_publisher (desc_body d) /\
    identity_id p = identity_id (desc_publisher (desc_body d)) /\
    ((exists q row o, objects db !! (s, q) = Some row /\ object_decode (o_object row) p = Ok o) \/
     (exists k row e, envelopes db !! k = Some row /\ k.1.1.1 = s /\
        envelope_decode (e_envelope row) p = Ok e)).

(** The rows of a reachable store decode under the publisher of their stream. *)
Lemma reachable_readable cfg db : reachable cfg db -> readable db \/ impostor db.
Proof.
  intros Hre. pose proof (reachable_content _ _ Hre) as Hct.
  assert (forall T E s r (decode : IdentityPublic -> result E T) p v,
    streams db !! s = Some r -> identity_id p = Ok (s_publisher_id r) -> decode p = Ok v ->
    (forall d, descriptor_in db s = Ok (Some d) -> p <> desc_publisher (desc_body d) ->
       identity_id p = identity_id (desc_publisher (desc_body d)) -> impostor db) ->
    decodes db s decode \/ impostor db) as Hrow.
  { intros T E s r decode p v Hr Hp Hv Him.
    destruct (descriptor_in_total _ _ _ Hct Hr) as (d & Hd & Hid). unfold decodes. rewrite Hd.
    destruct (decide (p = desc_publisher (desc_body d))) as [<-|Hne]; [left; by rewrite Hv|right].
    apply (Him d Hd Hne). by rewrite Hp, Hid. }
  destruct (map_Forall_or (fun k row => decodes db k.1 (object_decode (o_object row)))
    (impostor db) (objects db)) as [Ho|]; [| |by right].
  { intros [s q] row Hq. destruct (ct_object _ Hct _ _ _ Hq) as (r & g & Hr & _ & o & p & He & Hp & _).
    apply object_codec_iff in He. apply (Hrow _ _ s r _ p o); [done..|]. intros d Hd Hne Hid.
    exists s, d, p. split_and!; [done..|]. left. by exists q, row, o. }
  destruct (map_Forall_or (fun (k : envelope_key) row => decodes db k.1.1.1 (envelope_decode (e_envelope row)))
    (impostor db) (envelopes db)) as [He|]; [|by left|by right].
  intros ek row Hk. destruct (ct_envelope _ Hct _ _ Hk) as (r & Hr & e & p & He & Hp & _).
  apply envelope_codec_iff in He. apply (Hrow _ _ ek.1.1.1 r _ p e); [done..|]. intros d Hd Hne Hid.
  exists ek.1.1.1, d, p. split_and!; [done..|]. right. by exists ek, row, e.
Qed.

Lemma decodes_known {T E} db s (decode : IdentityPublic -> result E T) d :
  decodes db s decode -> descriptor_in db s = Ok (Some d) ->
  exists v, decode (desc_publisher (desc_body d)) = Ok v.
Proof. unfold decodes. intros H Hd. rewrite Hd in H. destruct (decode _) as [v|]; [by exists v|done]. Qed.

Section rows.
Context (cfg : StoreConfig) (db : Db) (Hre : reachable cfg db) (Hrd : readable db).
Context (s : uuid) (r : StreamRow) (Hr : streams db !! s = Some r).

Lemma list_objects_total after limit :
  i64_ok after -> 0 < limit <= MAX_LIST_OBJECTS ->
  exists l, list_objects db s after limit = Ok l.
Proof using All.
  intros Ha Hlim. destruct (descriptor_in_total _ _ _ (reachable_content _ _ Hre) Hr) as (d & Hd & _).
  unfold list_objects. rewrite Hd. cbn [mbind result_bind ok_or].
  rewrite (proj2 (to_sql_u64_Ok _ _ _) (conj eq_refl Ha)). cbn [mbind result_bind].
  rewrite (reject_if_false (_ \/ _)) by lia. cbn [mbind result_bind].
  apply mapR_total. intros [q row] Hin. eapply subseteq_take, elem_of_objects_after in Hin as [Hrow _].
  destruct (decodes_known _ _ _ _ (proj1 Hrd _ _ Hrow) Hd) as [o Ho]. rewrite Ho. by exists o.
Qed.

(** An object page, read back. *)
Lemma list_objects_page after limit :
  0 <= after <= s_high_water r -> 0 < limit <= MAX_LIST_OBJECTS ->
  (forall q, after < q <= s_high_water r -> is_Some (objects db !! (s, q))) ->
  exists l, list_objects db s after limit = Ok l /\
    (h_sequence ∘ header) <$> l = seqZ (after + 1) (Z.min limit (s_high_water r - after)) /\
    Forall (fun o => get_object db s (h_sequence (header o)) = Ok (Some o)) l.
Proof using All.
  intros Ha Hlim Hall. pose proof (reachable_wf _ _ Hre) as Hwf.
  destruct (wf_stream _ Hwf _ _ Hr) as [_ Hmax].
  destruct (list_objects_total after limit) as [l Hl]; [unfold i64_ok, i64_min in *; lia|done|].
  exists l. split; [done|].
  destruct (list_objects_run _ _ _ _ _ _ Hre Hl) as (r' & first & Hr' & Hst & Hs & Hf).
  rewrite Hr in Hr'. injection Hr' as <-. split.
  - rewrite Hs. destruct (decide (after < s_high_water r)).
    + assert (first <= after + 1 <= s_high_water r) by (apply Hst, Hall; lia). f_equal; lia.
    + rewrite !seqZ_nil by lia. done.
  - eapply Forall_impl; [exact Hf|]. by intros o [_ ?].
Qed.

Lemma get_envelope_total eid g rid :
  ~ is_nil s -> ~ is_nil eid -> g <> 0 -> i64_ok g -> rid <> zeros 32 ->
  exists e, get_envelope db s eid g rid = Ok e /\
    default True ((fun e => envelope_validate_shape e = Ok tt) <$> e).
Proof using All.
  intros Hs He Hg Hok Hrid.
  destruct (descriptor_in_total _ _ _ (reachable_content _ _ Hre) Hr) as (d & Hd & _).
  unfold get_envelope. rewrite (reject_if_false (_ \/ _)) by tauto. rewrite Hd.
  cbn [mbind result_bind ok_or]. rewrite (proj2 (to_sql_u64_Ok _ _ _) (conj eq_refl Hok)).
  cbn [mbind result_bind]. destruct (envelopes db !! _) as [row|] eqn:Hrow; [|by exists None].
  destruct (decodes_known _ _ _ _ (proj2 Hrd _ _ Hrow) Hd) as [e E]. simpl.
  rewrite E. exists (Some e). split; [done|].
  apply envelope_codec_iff in E. unfold envelope_encode in E. rewrite unit_bind in E.
  destruct E as [Hv _]. unfold envelope_verify_public in Hv. rewrite unit_bind in Hv. apply Hv.
Qed.
End rows.
End replay.

(** * Runs that nothing disturbs *)

(** The network and the rest of the relay leave the session alone. *)
Definition calm (env : Env) : Prop :=
  (forall n sh, interference env n sh = sh) /\ forall n, write_fails env n = false.

(** The objects among some messages. *)
Definition delivered `{!Crypto, !SocketAddrs, !Codecs} (msgs : list RelayViewerMessage) :
    list NativeObject :=
  omap (fun m => match m with RvObject o => Some o | _ => None end) msgs.

Section runs.
Context `{crypto : !Crypto, addrs : !SocketAddrs, codecs : !Codecs, codecs_laws : !CodecsLaws}.
Context (env : Env) (Hcalm : calm env) (sh : Shared).

(** From the shared state [sh] the session returns [v] and writes [msgs]. *)
Definition runs {A} (m : viewer_session A) (v : A) (msgs : list RelayViewerMessage) : Prop :=
  forall w, w_shared w = sh -> exists w', m w = (Ok v, w') /\ w_shared w' = sh /\
    w_written w' = w_written w ++ msgs.

Lemma runs_ret {A} (a : A) : runs (mret a) a [].
Proof using Type. intros w Hw. exists w. by rewrite app_nil_r. Qed.
Lemma runs_lift {A} (r : result string A) a : r = Ok a -> runs (lift r) a [].
Proof using Type. intros -> w Hw. exists w. by rewrite app_nil_r. Qed.
Lemma runs_bind {A B} (m : viewer_session A) (k : A -> viewer_session B) a b l1 l2 :
  runs m a l1 -> runs (k a) b l2 -> runs (mbind k m) b (l1 ++ l2).
Proof using Type.
  intros Hm Hk w Hw. destruct (Hm w Hw) as (w1 & E1 & Hw1 & Hl1).
  destruct (Hk w1 Hw1) as (w2 & E2 & Hw2 & Hl2). exists w2.
  split_and!; [apply io_bind_Ok; eauto|done|by rewrite Hl2, Hl1, app_assoc].
Qed.
Lemma runs_read {A} (f : Db -> result string A) a :
  f (sh_store sh) = Ok a -> runs (store_read env f) a [].
Proof using Hcalm.
  intros Hf w Hw. eexists. unfold store_read, atomically.
  rewrite (proj1 Hcalm), Hw, Hf. simpl. by rewrite app_nil_r.
Qed.
Lemma runs_write (m : RelayViewerMessage) : validate_wire m = Ok tt -> runs (write_message env m) tt [m].
Proof using Hcalm.
  intros Hv. apply (runs_bind _ _ tt tt [] [m]); [by apply runs_lift, context_Ok|].
  intros w Hw. unfold transmit. rewrite (proj2 Hcalm). eexists. split; [done|]. by split.
Qed.

Lemma runs_when (P : Prop) `{!Decision P} (m : viewer_session unit) l :
  (P -> runs m tt l) -> runs (if decide P then m else mret tt) tt (if decide P then l else []).
Proof using Type. intros Hm. case_decide; [by apply Hm|apply runs_ret]. Qed.

(** [runs], up to the messages that are not objects. *)
Definition delivers {A} (m : viewer_session A) (v : A) (objects : list NativeObject) : Prop :=
  exists msgs, runs m v msgs /\ delivered msgs = objects.

Lemma delivers_ret {A} (a : A) : delivers (mret a) a [].
Proof using Type. exists []. split; [apply runs_ret|done]. Qed.
Lemma delivers_bind {A B} (m : viewer_session A) (k : A -> viewer_session B) a b l1 l2 :
  delivers m a l1 -> delivers (k a) b l2 -> delivers (mbind k m) b (l1 ++ l2).
Proof using Type.
  intros (m1 & H1 & <-) (m2 & H2 & <-). exists (m1 ++ m2).
  split; [by eapply runs_bind|by apply omap_app].
Qed.
(** A first step that writes no object. *)
Lemma delivers_after {A B} (m : viewer_session A) (k : A -> viewer_session B) a b l :
  delivers m a [] -> delivers (k a) b l -> delivers (mbind k m) b l.
Proof using Type. apply delivers_bind. Qed.
Lemma delivers_lift {A} (r : result string A) a : r = Ok a -> delivers (lift r) a [].
Proof using Type. intros Hr. exists []. split; [by apply runs_lift|done]. Qed.
Lemma delivers_read {A} (f : Db -> result string A) a :
  f (sh_store sh) = Ok a -> delivers (store_read env f) a [].
Proof using Hcalm. intros Hf. exists []. split; [by apply runs_read|done]. Qed.
Lemma delivers_write (m : RelayViewerMessage) :
  validate_wire m = Ok tt -> delivers (write_message env m) tt (delivered [m]).
Proof using Hcalm. intros Hv. exists [m]. split; [by apply runs_write|done]. Qed.

(** * Catching up *)

Context (cfg : StoreConfig) (Hre : reachable cfg (sh_store sh)) (Hrd : readable (sh_store sh)).
Context (s : uuid) (r : StreamRow) (Hr : streams (sh_store sh) !! s = Some r).
Context (recipient : array 32) (Hrecipient : recipient <> zeros 32).

(** An object that the store gives back for its own sequence. *)
Definition retained_object (o : NativeObject) : Prop :=
  get_object (sh_store sh) s (h_sequence (header o)) = Ok (Some o).

Lemma retained_object_valid o :
  retained_object o ->
  validate_shape o = Ok tt /\ ~ is_nil s /\ ~ is_nil (h_epoch_id (header o)) /\
  h_key_group (header o) <> 0 /\ i64_ok (h_key_group (header o)).
Proof using Hre codecs_laws.
  intros Ho. pose proof (reachable_content _ _ Hre) as Hct. pose proof (reachable_wf _ _ Hre) as Hwf.
  unfold retained_object, get_object in Ho. apply bind_Ok_inv in Ho as ([d|] & Hd & Ho); [|done].
  apply bind_Ok_inv in Ho as (q & [-> Hq]%to_sql_u64_Ok & Ho). apply opt_traverse_Ok in Ho.
  destruct (objects _ !! _) as [row|] eqn:Hrow; [|done].
  destruct Ho as (o' & Hdec%context_Ok & [= <-]).
  destruct (decoded_object _ _ _ _ _ _ Hct Hrow Hdec) as (Hs & _ & Henc).
  pose proof Henc as Hv. unfold object_encode in Hv. rewrite unit_bind in Hv. destruct Hv as [Hv _].
  unfold verify_public in Hv. rewrite unit_bind in Hv. destruct Hv as [Hv _]. split; [done|].
  assert (i64_ok (h_key_group (header o))) as Hg.
  { destruct (ct_object _ Hct _ _ _ Hrow) as (r0 & g & _ & Hg & o0 & p0 & He & _ & _ & _ & _ & Hk & _).
    rewrite (object_encode_inj _ _ _ _ _ Henc He), Hk.
    destruct (wf_group _ Hwf _ _ Hg) as ((? & _) & ? & _). unfold object_group in *. simpl in *. ints. }
  unfold validate_shape in Hv. rewrite unit_bind in Hv. destruct Hv as [Hv _].
  unfold validate_header in Hv. rewrite guard_bind, guard_bind in Hv. destruct Hv as (_ & Hz & _).
  rewrite Hs in Hz. tauto.
Qed.

Lemma delivers_envelope eid g :
  ~ is_nil s -> ~ is_nil eid -> g <> 0 -> i64_ok g ->
  delivers (send_group_envelope env s eid g recipient) tt [].
Proof using All.
  intros Hs He Hg Hok.
  destruct (get_envelope_total _ _ Hre Hrd _ _ Hr eid g recipient) as (e & Hget & Hv); [done..|].
  unfold send_group_envelope. eapply delivers_after; [by apply delivers_read|].
  destruct e as [e|]; [|apply delivers_ret]. apply (delivers_write (RvKeyEnvelope e)).
  by apply map_err_Ok.
Qed.

Lemma deliver_delivers objects last group :
  (h_sequence ∘ header) <$> objects = seqZ (last + 1) (zlen objects) ->
  0 <= last -> last + zlen objects <= i64_max -> Forall retained_object objects ->
  delivers (deliver_objects env s recipient last group objects) (last + zlen objects) objects.
Proof using All.
  revert last group. induction objects as [|o objects IH]; intros last group Hs Hl Hb Ho;
    cbn [deliver_objects].
  { rewrite Z.add_0_r. apply delivers_ret. }
  apply Forall_cons in Ho as [Ho Hos]. cbn [length] in *.
  rewrite (seqZ_cons (last + 1)) in Hs by lia. simpl in Hs. injection Hs as Hq Hs.
  destruct (retained_object_valid o Ho) as (Hv & Hnil & Hepoch & Hg & Hok).
  apply (delivers_after _ _ tt); [apply delivers_lift, reject_if_Ok; unfold u64_saturating_add; ints|].
  cbv zeta. apply (delivers_after _ _ tt).
  { case_decide; [by apply delivers_envelope|apply delivers_ret]. }
  apply (delivers_bind _ _ tt _ [o] objects).
  { apply (delivers_write (RvObject o)). by apply map_err_Ok. }
  rewrite Hq. replace (last + Z.of_nat (S (length objects))) with (last + 1 + zlen objects) by lia.
  apply IH; [|lia..|done]. etransitivity; [exact Hs|]. f_equal; lia.
Qed.

Lemma reanchor_delivers fuel last :
  0 <= last <= s_high_water r -> s_high_water r - last < SUBSCRIPTION_PAGE * Z.of_nat fuel ->
  (forall q, last < q <= s_high_water r -> is_Some (objects (sh_store sh) !! (s, q))) ->
  exists l, delivers (reanchor_from_store env fuel s recipient last) (s_high_water r) l /\
    (h_sequence ∘ header) <$> l = seqZ (last + 1) (s_high_water r - last) /\
    Forall retained_object l.
Proof using All.
  pose proof (wf_stream _ (reachable_wf _ _ Hre) _ _ Hr) as [_ Hmax].
  revert last. induction fuel as [|fuel IH]; intros last Hlast Hfuel Hall; [lia|].
  cbn [reanchor_from_store].
  destruct (list_objects_page _ _ Hre Hrd _ _ Hr last SUBSCRIPTION_PAGE)
    as (l & Hl & Hs & Ho); [done|by vm_compute|done|].
  assert (zlen l = Z.min SUBSCRIPTION_PAGE (s_high_water r - last)) as Hlen.
  { apply (f_equal length) in Hs. rewrite length_fmap, length_seqZ in Hs. unfold SUBSCRIPTION_PAGE in *. lia. }
  assert (delivers (deliver_objects env s recipient last None l) (last + zlen l) l) as Hdel.
  { apply deliver_delivers; [by rewrite Hlen|lia..|done]. }
  destruct (decide (s_high_water r - last < SUBSCRIPTION_PAGE)) as [Hshort|Hlong].
  - exists l. rewrite Z.min_r in Hs by lia. split_and!; [|done..].
    eapply delivers_after; [by apply delivers_read|]. case_decide as Hnil.
    + subst l. simpl in Hlen. replace (s_high_water r) with last by lia. apply delivers_ret.
    + replace l with (l ++ []) at 2 by apply app_nil_r. eapply delivers_bind; [exact Hdel|].
      rewrite decide_True by lia. replace (last + zlen l) with (s_high_water r) by lia.
      apply delivers_ret.
  - destruct (IH (last + zlen l)) as (l' & Hd' & Hs' & Ho'); [lia|lia|intros; apply Hall; lia|].
    exists (l ++ l'). split_and!.
    + eapply delivers_after; [by apply delivers_read|].
      rewrite decide_False by (intros ->; simpl in Hlen; unfold SUBSCRIPTION_PAGE in *; lia).
      eapply delivers_bind; [exact Hdel|]. by rewrite decide_False by lia.
    + rewrite fmap_app, Hs, Hs'. rewrite Hlen, Z.min_l by lia.
      replace (s_high_water r - last) with
        (SUBSCRIPTION_PAGE + (s_high_water r - last - SUBSCRIPTION_PAGE)) by lia.
      rewrite (seqZ_app (last + 1)) by (unfold SUBSCRIPTION_PAGE in *; lia). do 2 f_equal; lia.
    + by apply Forall_app.
Qed.

(** Where a subscription of this stream starts. *)
Lemma anchor_stored start :
  start_fits start ->
  exists anchor, subscription_anchor (sh_store sh) s start = Ok anchor /\
    1 <= anchor <= s_high_water r + 1 /\
    forall q, anchor <= q <= s_high_water r -> is_Some (objects (sh_store sh) !! (s, q)).
Proof using Hre Hr.
  intros Hfit. pose proof (reachable_wf _ _ Hre) as Hwf.
  destruct (wf_stream _ Hwf _ _ Hr) as [[Hhw _] _].
  eexists. split; [by apply subscription_anchor_selection|].
  destruct (selection _ s start) as [[k g]|] eqn:E; [|split; intros; lia].
  apply selection_Some in E as (Hg & Hs & _).
  destruct (wf_range _ Hwf _ _ Hg) as (Hpos & Hfl & _).
  destruct (wf_group _ Hwf _ _ Hg) as (_ & _ & _ & _ & r' & Hr' & Hlast).
  rewrite Hs, Hr in Hr'. injection Hr' as <-. split; [lia|].
  intros q Hq. rewrite <-Hs. eapply wf_suffix; [done..|by rewrite Hs|done].
Qed.

Lemma retained_wire_valid :
  exists b, retained_bounds (sh_store sh) s = Ok b /\
    opt_traverse bounds_validate (retained_wire <$> b) = Ok (const tt <$> b).
Proof using Hre Hr.
  destruct (retained_bounds_run _ _ _ _ Hre Hr) as (b & Hb & Hbounds). exists b. split; [done|].
  destruct b as [b|]; [|done]. destruct Hbounds as (? & _ & ? & _). simpl.
  unfold bounds_validate. by rewrite (reject_if_false (_ \/ _)) by (simpl; lia).
Qed.

Lemma get_object_total q :
  i64_ok q -> exists o, get_object (sh_store sh) s q = Ok o /\ default True (retained_object <$> o).
Proof using Hre Hrd Hr codecs_laws.
  intros Hq. pose proof (reachable_content _ _ Hre) as Hct.
  destruct (descriptor_in_total _ _ _ Hct Hr) as (d & Hd & _).
  assert (get_object (sh_store sh) s q = opt_traverse
    (fun row => context "decoding stored native object"
       (object_decode (o_object row) (desc_publisher (desc_body d)))) (objects (sh_store sh) !! (s, q)))
    as Heq.
  { unfold get_object. rewrite Hd. cbn [mbind result_bind].
    by rewrite (proj2 (to_sql_u64_Ok _ _ _) (conj eq_refl Hq)). }
  destruct (objects (sh_store sh) !! (s, q)) as [row|] eqn:Hrow; [|by exists None].
  destruct (decodes_known _ _ _ _ (proj1 Hrd _ _ Hrow) Hd) as [o Ho]. simpl in Heq.
  rewrite Ho in Heq. exists (Some o). split; [done|].
  destruct (decoded_object _ _ _ _ _ _ Hct Hrow Ho) as (_ & Hs & _).
  simpl. unfold retained_object. by rewrite Hs.
Qed.

(** The envelope of the newest group, for a subscription that has to wait. *)
Lemma delivers_waiting anchor :
  delivers (if decide (anchor > s_high_water r /\ s_high_water r > 0) then
     let? found := store_read env (fun db => get_object db s (s_high_water r)) in
     match found with
     | Some object => send_group_envelope env s (h_epoch_id (header object))
                        (h_key_group (header object)) recipient
     | None => mret tt
     end
   else mret tt) tt [].
Proof using All.
  case_decide; [|apply delivers_ret].
  destruct (wf_stream _ (reachable_wf _ _ Hre) _ _ Hr) as [[? _] ?].
  destruct (get_object_total (s_high_water r)) as (o & Ho & Hret); [unfold i64_ok, i64_min; lia|].
  eapply delivers_after; [by apply delivers_read|]. destruct o as [o|]; [|apply delivers_ret].
  destruct (retained_object_valid o Hret) as (_ & ? & ? & ? & ?). by apply delivers_envelope.
Qed.

(** A subscription to this stream under calm conditions, up to its live loop. *)
Lemma subscription_delivers fuel publisher_id start admission :
  s_publisher_id r = publisher_id -> start_fits start ->
  s_high_water r < SUBSCRIPTION_PAGE * Z.of_nat fuel ->
  exists anchor retained msgs,
    subscription_anchor (sh_store sh) s start = Ok anchor /\
    runs (subscription env fuel recipient publisher_id s start admission []) tt
      (RvSubscriptionStarted anchor retained (bool_decide (anchor > s_high_water r)) :: msgs) /\
    (h_sequence ∘ header) <$> delivered msgs = seqZ anchor (s_high_water r + 1 - anchor) /\
    Forall retained_object (delivered msgs) /\
    (0 < s_high_water r -> last msgs = Some (RvLive (s_high_water r))).
Proof using All.
  intros Hpub Hfit Hfuel. pose proof (reachable_wf _ _ Hre) as Hwf.
  pose proof (reachable_content _ _ Hre) as Hct.
  pose proof (wf_stream _ Hwf _ _ Hr) as [[Hhw _] Hmax].
  destruct (descriptor_in_total _ _ _ Hct Hr) as (d & Hd & Hid).
  destruct retained_wire_valid as (b & Hb & Hbv).
  destruct (anchor_stored start Hfit) as (anchor & Ha & Hrange & Hall).
  destruct (reanchor_delivers fuel (u64_saturating_sub anchor 1)) as (l & (m2 & Hm2 & Hl) & Hs & Hret);
    [ints|ints|intros; apply Hall; ints|].
  destruct (delivers_waiting anchor) as (m1 & Hm1 & Hl1).
  set (m3 := if decide (s_high_water r > 0) then [RvLive (s_high_water r)] else []).
  exists anchor, (retained_wire <$> b), (m1 ++ m2 ++ m3). split; [done|].
  assert (delivered m3 = []) as Hl3 by (unfold m3; clear; by case_decide).
  assert (delivered (m1 ++ m2 ++ m3) = l) as Hdel.
  { unfold delivered in *. rewrite !omap_app, Hl1, Hl, Hl3. apply (app_nil_r l). }
  split; [|rewrite Hdel; split_and!; [|done|]].
  - unfold subscription.
    apply (runs_bind _ _ (Some d) _ [] _); [by apply runs_read|].
    apply (runs_bind _ _ d _ [] _); [by apply runs_lift|].
    apply (runs_bind _ _ publisher_id _ [] _); [apply runs_lift; by rewrite Hid, Hpub|].
    apply (runs_bind _ _ tt _ [] _); [by apply runs_lift, reject_if_Ok; intros []|].
    apply (runs_bind _ _ anchor _ [] _); [by apply runs_read|].
    apply (runs_bind _ _ b _ [] _); [by apply runs_read|].
    apply (runs_bind _ _ (Some (s_high_water r)) _ [] _).
    { apply runs_read. unfold high_water. rewrite Hr. simpl.
      assert (from_sql_u64 (s_high_water r) "high-water mark" = Ok (s_high_water r)) as ->; [|done].
      apply from_sql_u64_Ok. split; [done|ints]. }
    cbv zeta. cbn [default]. apply (runs_bind _ _ tt _ [_] _).
    { apply runs_write. unfold validate_wire, relay_viewer_message_wire. simpl.
      by rewrite (reject_if_false (anchor = 0)), Hbv by lia. }
    apply (runs_bind _ _ tt _ m1 _); [exact Hm1|].
    apply (runs_bind _ _ (s_high_water r) _ m2 _); [exact Hm2|].
    rewrite <-(app_nil_r m3). apply (runs_bind _ _ tt _ m3 _); [|apply runs_ret].
    apply runs_when. intros Hpos. apply runs_write, reject_if_Ok. lia.
  - rewrite Hs. f_equal; ints.
  - intros Hpos. unfold m3. rewrite decide_True by lia. rewrite app_assoc. apply last_snoc.
Qed.
End runs.

Section catch_up.
Context `{crypto : !Crypto, addrs : !SocketAddrs, codecs : !Codecs, codecs_laws : !CodecsLaws}.

(** C7: a subscription catches up.  Every row of a reachable store decodes
    under the publisher of its stream, unless another identity with the
    publisher's fingerprint has signed one of them.  From a store whose rows
    decode, and left alone by the network and the other sessions, a subscription
    succeeds within one page of 1024 objects per unit of fuel and writes its
    anchor, then every object stored from the anchor to the high-water mark, each
    once and in order, then that it is live at that mark. *)
Theorem subscription_catches_up cfg env fuel recipient publisher_id s start admission w db r :
  calm env -> sh_store (w_shared w) = db -> reachable cfg db ->
  streams db !! s = Some r -> s_publisher_id r = publisher_id ->
  start_fits start -> recipient <> zeros 32 ->
  s_high_water r < SUBSCRIPTION_PAGE * Z.of_nat fuel ->
  (readable db \/ impostor db) /\
  (readable db -> exists w' anchor retained msgs,
     subscription env fuel recipient publisher_id s start admission [] w = (Ok tt, w') /\
     subscription_anchor db s start = Ok anchor /\
     w_written w' = w_written w ++
       RvSubscriptionStarted anchor retained (bool_decide (anchor > s_high_water r)) :: msgs /\
     (h_sequence ∘ header) <$> delivered msgs = seqZ anchor (s_high_water r + 1 - anchor) /\
     Forall (fun o => get_object db s (h_sequence (header o)) = Ok (Some o))
       (delivered msgs) /\
     (0 < s_high_water r -> last msgs = Some (RvLive (s_high_water r)))).
Proof.
  intros Hcalm <- Hre Hr Hpub Hfit Hrec Hfuel.
  split; [by eapply reachable_readable|]. intros Hrd.
  destruct (subscription_delivers env Hcalm (w_shared w) cfg Hre Hrd s r Hr recipient Hrec fuel
    publisher_id start admission Hpub Hfit Hfuel) as (anchor & retained & msgs & Ha & Hrun & H).
  destruct (Hrun w eq_refl) as (w' & Hw' & _ & Hmsgs). by exists w', anchor, retained, msgs.
Qed.
End catch_up.

(** ** Witnesses *)

Definition sample_env : Env :=
  {| clock := const 1000; interference := fun _ sh => sh; write_fails := const false |}.
Lemma sample_env_calm : calm sample_env.
Proof. done. Qed.
Definition sample_shared : Shared := {|
  sh_store := sample_db; sh_pairing := ∅; sh_access := Public; sh_online := ∅; sh_live := ∅ |}.
Definition sample_world {M} (sh : Shared) : World M :=
  {| w_shared := sh; w_step := 0; w_touched := ∅; w_written := [] |}.
Definition sample_viewer_admission : NativeAdmission :=
  {| adm_mode := AccessPublic; adm_expires_at_ms := None; adm_credential_serial := None |}.

(** A viewer asks for the history from the first object on. *)
Lemma sample_world_store {M} : sh_store (w_shared (sample_world (M := M) sample_shared)) = sample_db.
Proof. reflexivity. Qed.
Lemma sample_row : exists r, streams sample_db !! Native.sample_stream = Some r /\ s_high_water r = 3.
Proof.
  assert (s_high_water <$> streams sample_db !! Native.sample_stream = Some 3) as Hhw
    by (vm_compute; reflexivity).
  apply fmap_Some in Hhw as (r & Hr & Hhw). exists r. split; [exact Hr|]. symmetry. exact Hhw.
Qed.
Lemma sample_anchor :
  match subscription_anchor sample_db Native.sample_stream (StartSequence 1) with
  | Ok a => a =? 1
  | Err _ => false
  end = true.
Proof. vm_compute. reflexivity. Qed.

Lemma sample_readable : readable sample_db.
Proof.
  assert (forallb (fun '(k, row) => bool_decide (decodes sample_db (k : uuid * Z).1
    (object_decode (o_object row)))) (map_to_list (objects sample_db)) = true) as Ho
    by (vm_compute; reflexivity).
  assert (forallb (fun '(k, row) => bool_decide (decodes sample_db (k : envelope_key).1.1.1
    (envelope_decode (e_envelope row)))) (map_to_list (envelopes sample_db)) = true) as He
    by (vm_compute; reflexivity).
  rewrite forallb_forall in Ho, He. split; intros k row Hk%elem_of_map_to_list%list_elem_of_In.
  - apply Ho in Hk. by apply bool_decide_eq_true in Hk.
  - apply He in Hk. by apply bool_decide_eq_true in Hk.
Qed.

Lemma subscription_catches_up_witness :
  exists r, streams sample_db !! Native.sample_stream = Some r /\
    exists w' retained msgs,
      subscription sample_env 1 (Vector.const x01 32) (s_publisher_id r) Native.sample_stream
        (StartSequence 1) sample_viewer_admission [] (sample_world sample_shared) = (Ok tt, w') /\
      w_written w' = RvSubscriptionStarted 1 retained false :: msgs /\
      (h_sequence ∘ header) <$> delivered msgs = [1; 2; 3].
Proof.
  destruct sample_row as (r & Hr & Hhw). pose proof sample_anchor as Hanchor.
  exists r. split; [exact Hr|].
  pose proof (subscription_catches_up sample_config sample_env 1 (Vector.const x01 32)
    (s_publisher_id r) Native.sample_stream (StartSequence 1) sample_viewer_admission
    (sample_world sample_shared) sample_db r) as H.
  rewrite Hhw in H.
  destruct (H sample_env_calm sample_world_store sample_reachable Hr eq_refl) as [_ Hrun].
  - split; discriminate.
  - discriminate.
  - reflexivity.
  - destruct (Hrun sample_readable) as (w' & anchor & retained & msgs & Hsub & Ha & Hw & Hs & _).
    rewrite Ha in Hanchor. apply Z.eqb_eq in Hanchor. subst anchor.
    exists w', retained, msgs. split; [exact Hsub|]. split; [exact Hw|exact Hs].
Defined.
