(* ===== verification/SessionSafety.v ===== *)
(** What a session may tell its peer: nothing but errors before admission, key
    envelopes to their recipient only, acknowledgements only for what is stored;
    that it stops when its credential is no longer active; and what it leaves
    behind when it ends. *)
From Stdlib Require Import ZArith Lia.
From S2P Require Import Prelude Bytes RustStr External Toy Identity Credential Native Envelope.
From S2P Require Import Transport Pairing Codecs Wire Access NativeTables NativeStore StoreSample.
From S2P Require Import StoreInv StoreOps StoreContent StoreQueries PairingStore PairingInv.
From S2P Require Import Service ServiceInv Delivery Replay.

(** * Key envelopes *)

Section envelopes.
Context `{crypto : !Crypto, addrs : !SocketAddrs, codecs : !Codecs, codecs_laws : !CodecsLaws}.
Context (cfg : StoreConfig) (env : Env) (Henv : env_ok cfg env).

(** An encoding determines its envelope, whatever the publisher. *)
Lemma envelope_encode_inj e e' p p' enc :
  envelope_encode e p = Ok enc -> envelope_encode e' p' = Ok enc -> e = e'.
Proof using codecs_laws.
  unfold envelope_encode. rewrite !unit_bind.
  intros [_ (c & Hc & H)%bind_Ok_inv] [_ (c' & Hc' & H')%bind_Ok_inv].
  rewrite guard_bind in H, H'. destruct H as [_ [= ->]], H' as [_ [= ->]].
  apply map_err_Ok, canonical_Ok in Hc, Hc'. by eapply to_stdvec_inj.
Qed.

(** A decoded envelope is that of its key. *)
Lemma decoded_envelope db ek row p e :
  content db -> envelopes db !! ek = Some row -> envelope_decode (e_envelope row) p = Ok e ->
  eh_recipient_id (env_header e) = ek.2.
Proof using codecs_laws.
  intros Hct Hrow Hdec%envelope_codec_iff.
  destruct (ct_envelope _ Hct _ _ Hrow) as (r & _ & e0 & p0 & Henc & _ & _ & Hrid & _).
  by rewrite (envelope_encode_inj _ _ _ _ _ Hdec Henc).
Qed.

Lemma get_envelope_recipient db s eid g rid e :
  reachable cfg db -> get_envelope db s eid g rid = Ok (Some e) ->
  eh_recipient_id (env_header e) = rid.
Proof using codecs_laws.
  intros Hre H. unfold get_envelope in H. rewrite guard_bind in H. destruct H as [_ H].
  apply bind_Ok_inv in H as (d & _ & H). apply bind_Ok_inv in H as (d' & _ & H).
  apply bind_Ok_inv in H as (g' & _ & H). apply opt_traverse_Ok in H.
  destruct (envelopes db !! _) as [row|] eqn:Hrow; [|done].
  destruct H as (e' & Hdec%context_Ok & [= <-]).
  by eapply (decoded_envelope _ _ _ _ _ (reachable_content _ _ Hre) Hrow).
Qed.

Lemma list_envelopes_recipient db s rid limit l :
  reachable cfg db -> list_envelopes db s rid limit = Ok l ->
  Forall (fun e => eh_recipient_id (env_header e) = rid) l.
Proof using codecs_laws.
  intros Hre H. unfold list_envelopes in H. rewrite guard_bind in H. destruct H as [_ H].
  apply bind_Ok_inv in H as (d & _ & H). apply bind_Ok_inv in H as (d' & _ & H).
  apply mapR_Ok, Forall2_elem in H. eapply Forall2_Forall_r; [exact H|].
  apply Forall_true. intros [f row] e [Hin Hdec%context_Ok].
  eapply subseteq_take in Hin. unfold recipient_envelopes in Hin.
  rewrite merge_sort_Permutation, list_elem_of_omap in Hin.
  destruct Hin as ([[k rid'] row'] & Hrow%elem_of_map_to_list & Hx). case_decide as Hk; [|done].
  apply fmap_Some in Hx as (g & _ & [= -> ->]). destruct Hk as [_ ->].
  by eapply (decoded_envelope _ _ _ _ _ (reachable_content _ _ Hre) Hrow).
Qed.

Lemma emits_read {A B} (Q : RelayViewerMessage -> Prop) (f : Db -> result string A) (k : A -> viewer_session B) :
  (forall db a, reachable cfg db -> f db = Ok a -> emits (world_ok cfg) Q (k a)) ->
  emits (world_ok cfg) Q (let? a := store_read env f in k a).
Proof using Henv.
  intros Hk w r w' Hw [(e & H & ->)|(a & w1 & H & H')]%io_bind_run;
    unfold store_read, atomically in H; injection H as H <-.
  - exists []. rewrite app_nil_r. split; [done|constructor].
  - destruct (Henv (w_step w) _ Hw) as [Hre Hm].
    edestruct (Hk _ _ Hre H) as (msgs & E & F); [|exact H'|by exists msgs]. by split.
Qed.

Lemma emits_known {I} {A B} Q (r : result string A) (k : A -> viewer_session B) :
  (forall a, r = Ok a -> emits I Q (k a)) -> emits I Q (let? a := lift r in k a).
Proof using Type.
  intros Hk w r' w' Hw [(e & [= _ <-] & ->)|(a & w1 & [-> ->]%lift_Ok & H')]%io_bind_run.
  - exists []. rewrite app_nil_r. split; [done|constructor].
  - by eapply Hk.
Qed.

(** The message is an envelope only if it is for this identity. *)
Definition addressed_to (viewer : IdentityPublic) (m : RelayViewerMessage) : Prop :=
  match m with
  | RvKeyEnvelope e => identity_id viewer = Ok (eh_recipient_id (env_header e))
  | _ => True
  end.
End envelopes.

(** Walk through the steps of a session that writes. *)
Ltac emits_step :=
  match goal with
  | |- emits _ _ (mbind _ _) => apply emits_bind; [by keeps_auto| |intros ?]
  | |- emits _ _ (if decide _ then _ else _) => apply emits_if; intros ?
  | |- emits _ _ (for_each _ _) => apply emits_for_each; [intros ?; by keeps_auto|intros ?]
  | |- emits _ _ (map_each _ _) => apply emits_map_each; [intros ?; by keeps_auto|intros ?]
  | |- emits _ _ (ignore _) => apply emits_ignore
  | |- emits _ _ (write_message _ _) => apply emits_write; first [exact I|assumption|simpl; congruence]
  | |- emits _ _ (match ?x with _ => _ end) => destruct x
  | |- emits _ _ (let _ := _ in _) => cbv zeta
  | |- emits _ _ _ => solve [eauto with emits]
  end.
Ltac emits_auto := repeat emits_step.

Section recipients.
Context `{crypto : !Crypto, addrs : !SocketAddrs, codecs : !Codecs, codecs_laws : !CodecsLaws}.
Context (cfg : StoreConfig) (env : Env) (Henv : env_ok cfg env).
Context (viewer : IdentityPublic) (rid : array 32) (Hrid : identity_id viewer = Ok rid).

#[local] Hint Resolve keeps_send_group_envelope keeps_deliver keeps_reanchor keeps_live_loop
  keeps_viewer_message : session.

Lemma envelope_addressed s eid g :
  emits (world_ok cfg) (addressed_to viewer) (send_group_envelope env s eid g rid).
Proof using All.
  apply (emits_read _ _ Henv). intros db [e|] Hre He; [|apply emits_ret].
  apply emits_write. simpl. by rewrite (get_envelope_recipient _ _ _ _ _ _ _ Hre He).
Qed.
#[local] Hint Resolve envelope_addressed : emits.

Lemma deliver_addressed s objects last group :
  emits (world_ok cfg) (addressed_to viewer) (deliver_objects env s rid last group objects).
Proof using All.
  revert last group. induction objects as [|o objects IH]; intros last group;
    cbn [deliver_objects]; emits_auto.
Qed.
#[local] Hint Resolve deliver_addressed : emits.

Lemma reanchor_addressed fuel s last :
  emits (world_ok cfg) (addressed_to viewer) (reanchor_from_store env fuel s rid last).
Proof using All.
  revert last. induction fuel as [|fuel IH]; intros last; cbn [reanchor_from_store]; emits_auto.
Qed.
#[local] Hint Resolve reanchor_addressed : emits.

Lemma live_loop_addressed fuel s admission last events :
  emits (world_ok cfg) (addressed_to viewer) (live_loop env fuel s rid admission last events).
Proof using All.
  revert last. induction events as [|e events IH]; intros last; cbn [live_loop]; [emits_auto|].
  apply emits_bind; [unfold live_turn, live_received, send_viewer_error; by keeps_auto| |intros ?; apply IH].
  unfold live_turn, live_received, send_viewer_error. emits_auto.
Qed.
#[local] Hint Resolve live_loop_addressed : emits.

Lemma subscription_addressed fuel publisher_id s start admission events :
  emits (world_ok cfg) (addressed_to viewer)
    (subscription env fuel rid publisher_id s start admission events).
Proof using All. unfold subscription. emits_auto. Qed.

Lemma inbox_envelopes_addressed (summaries : list (uuid * NativeStreamSummary)) :
  emits (world_ok cfg) (addressed_to viewer)
    (for_each (fun summary : uuid * NativeStreamSummary =>
       let? envelopes := store_read env (fun db => list_envelopes db summary.1 rid 4096) in
       for_each (fun envelope => write_message env (RvKeyEnvelope envelope)) envelopes) summaries).
Proof using All.
  apply emits_for_each; [intros ?; by keeps_auto|]. intros summary. apply (emits_read _ _ Henv).
  intros db l Hre Hl. pose proof (list_envelopes_recipient _ _ _ _ _ _ Hre Hl) as Hall. clear Hl.
  induction Hall as [|e l He _ IH]; [apply emits_ret|]. cbn [for_each].
  apply emits_bind; [by keeps_auto| |intros _].
  - apply emits_write. simpl. by rewrite He.
  - exact IH.
Qed.
End recipients.

Section addressed.
Context `{crypto : !Crypto, addrs : !SocketAddrs, codecs : !Codecs, codecs_laws : !CodecsLaws}.
Context (cfg : StoreConfig) (env : Env) (Henv : env_ok cfg env).

#[local] Hint Resolve keeps_viewer_message keeps_live_loop keeps_reanchor
  keeps_send_group_envelope : session.

Lemma viewer_message_addressed fuel addr hello admission events message :
  emits (world_ok cfg) (addressed_to (hello_identity hello))
    (viewer_message env fuel addr hello admission events message).
Proof using All.
  destruct message; cbn [viewer_message]; unfold catalog, catalog_entry, queue_request,
    send_viewer_error; try solve [emits_auto].
  - unfold fetch_inbox. apply emits_bind; [by keeps_auto| |intros; apply emits_ret].
    do 4 (apply emits_bind; [by keeps_auto|by emits_auto|intros ?]).
    apply emits_known. intros rid Hrid%context_Ok.
    apply emits_bind; [by keeps_auto|by emits_auto|intros summaries].
    apply emits_bind; [by keeps_auto| |intros _; by apply emits_write].
    by apply inbox_envelopes_addressed.
  - apply emits_known. intros rid Hrid%context_Ok.
    apply emits_bind; [unfold subscription; by keeps_auto| |intros; apply emits_ret].
    by apply subscription_addressed.
Qed.
#[local] Hint Resolve viewer_message_addressed : emits.

Lemma viewer_loop_addressed fuel addr hello admission events reads :
  emits (world_ok cfg) (addressed_to (hello_identity hello))
    (viewer_loop env fuel addr hello admission events reads).
Proof using All.
  induction reads as [|read reads IH]; cbn [viewer_loop]; [emits_auto|].
  apply emits_bind; [|unfold viewer_turn, send_viewer_error; by emits_auto|intros []; [emits_auto|done]].
  unfold viewer_turn, send_viewer_error. by keeps_auto.
Qed.
#[local] Hint Resolve viewer_loop_addressed : emits.

(** C10: key envelopes reach their recipient only: whatever a viewer sends and
    however its session is interleaved with others, every envelope written to
    it, from the store or live, is addressed to the fingerprint of the identity
    under which it was admitted. *)
Theorem envelopes_reach_recipient fuel key addr hello_read reads events w r w' e :
  world_ok cfg w ->
  handle_viewer_from env fuel key addr hello_read reads events w = (r, w') ->
  RvKeyEnvelope e ∈ w_written w' -> ~ RvKeyEnvelope e ∈ w_written w ->
  exists hello, hello_read = Ok (VwHello hello) /\
    identity_id (hello_identity hello) = Ok (eh_recipient_id (env_header e)).
Proof using All.
  intros Hw H Hin Hnin.
  set (Q := fun m => match m with
    | RvKeyEnvelope e => exists hello, hello_read = Ok (VwHello hello) /\
        identity_id (hello_identity hello) = Ok (eh_recipient_id (env_header e))
    | _ => True end).
  assert (emits (world_ok cfg) Q (handle_viewer_from env fuel key addr hello_read reads events)) as Hem.
  { unfold handle_viewer_from, send_viewer_error.
    apply emits_known. intros m Hm%context_Ok. apply emits_bind; [by keeps_auto|by emits_auto|intros _].
    destruct m as [hello| | | | | | |]; [|emits_auto..].
    apply emits_bind; [by keeps_auto|by emits_auto|intros now].
    apply emits_bind; [by keeps_auto|by emits_auto|intros [admission|]]; [|emits_auto].
    apply emits_bind; [by keeps_auto|by emits_auto|intros welcome].
    apply emits_bind; [by keeps_auto|by emits_auto|intros _].
    apply (emits_weaken _ (addressed_to (hello_identity hello))); [|by apply viewer_loop_addressed].
    intros []; simpl; eauto. }
  destruct (Hem _ _ _ Hw H) as (msgs & E & F). rewrite E in Hin.
  apply elem_of_app in Hin as [|Hin]; [done|]. rewrite Forall_forall in F. by apply (F _ Hin).
Qed.
End addressed.

(** * Admission *)

Section admission.
Context `{crypto : !Crypto, addrs : !SocketAddrs, codecs : !Codecs}.
Context (cfg : StoreConfig) (env : Env).

Lemma silent_all {A M} `{!NativeWireMessage M} (m : session M A) w r w' :
  emits (fun _ => True) (fun _ => False) m -> m w = (r, w') -> w_written w' = w_written w.
Proof using Type.
  intros Hm H. destruct (Hm _ _ _ I H) as ([|x l] & E & F); [by rewrite app_nil_r in E|].
  inversion F as [|??[]].
Qed.

Lemma write_shared {M} `{!NativeWireMessage M} (m : M) (w : World M) r w' :
  write_message env m w = (r, w') -> w_shared w' = w_shared w.
Proof using Type.
  intros [(e & [= _ <-] & ->)|([] & w1 & [_ ->]%lift_Ok & H)]%io_bind_run; [done|].
  unfold transmit in H. by destruct (write_fails _ _); injection H as _ <-.
Qed.

(** The run that rejects a peer. *)
Lemma rejected_run {A M} `{!NativeWireMessage M} (error : M) what (w : World M) (r : result string A) w' :
  (write_message env error then? bail what) w = (r, w') ->
  is_ok r = false /\ (w_written w' = w_written w \/ w_written w' = w_written w ++ [error]) /\
  w_shared w' = w_shared w.
Proof using Type.
  intros [(e & H & ->)|([] & w1 & H & [= <- <-])]%io_bind_run;
    pose proof (write_shared _ _ _ _ H); apply write_message_run in H as [[-> _]|[-> _]]; auto.
Qed.

(** The session fails, writes at most one error and changes nothing itself. *)
Definition rejected {M A} (error : RelayError -> M) (w : World M) (r : result string A) (w' : World M) : Prop :=
  is_ok r = false /\
  (w_shared w' = w_shared w \/ w_shared w' = interference env (S (w_step w)) (w_shared w)) /\
  (w_written w' = w_written w \/ exists e, w_written w' = w_written w ++ [error e]).

Lemma publisher_rejected key hello_read reads w r w' :
  (forall hello admission, hello_read = Ok (PubHello hello) ->
     admit_session (sh_access (interference env (S (w_step w)) (w_shared w))) hello
       RolePublisher key (clock env (w_step w)) <> Ok admission) ->
  handle_publisher cfg env key hello_read reads w = (r, w') -> rejected RpError w r w'.
Proof using Type.
  intros Hno. unfold handle_publisher, rejected.
  intros [(e & [= _ <-] & ->)|(m & w1 & [Hm%context_Ok ->]%lift_Ok & H)]%io_bind_run; [eauto|].
  apply io_bind_run in H as [(e & [= _ <-] & ->)|([] & w1 & [_ ->]%lift_Ok & H)]; [eauto|].
  destruct m as [hello| | | | | | | |].
  2-9: apply rejected_run in H as (? & ? & ->); naive_solver.
  apply io_bind_run in H as [(e & [= ] & ->)|(now & w1 & [= <- <-] & H)].
  apply io_bind_run in H as [(e & [= ] & ->)|(admission & w1 & [= <- <-] & H)].
  destruct (admit_session _ _ _ _ _) as [a|] eqn:Ha; [by destruct (Hno _ _ Hm Ha)|].
  apply rejected_run in H as (? & ? & ->). naive_solver.
Qed.

Lemma viewer_rejected fuel key addr hello_read reads events w r w' :
  (forall hello admission, hello_read = Ok (VwHello hello) ->
     admit_session (sh_access (interference env (S (w_step w)) (w_shared w))) hello
       RoleViewer key (clock env (w_step w)) <> Ok admission) ->
  handle_viewer_from env fuel key addr hello_read reads events w = (r, w') ->
  rejected RvError w r w'.
Proof using Type.
  intros Hno. unfold handle_viewer_from, rejected.
  intros [(e & [= _ <-] & ->)|(m & w1 & [Hm%context_Ok ->]%lift_Ok & H)]%io_bind_run; [eauto|].
  apply io_bind_run in H as [(e & [= _ <-] & ->)|([] & w1 & [_ ->]%lift_Ok & H)]; [eauto|].
  destruct m as [hello| | | | | | |].
  2-8: apply rejected_run in H as (? & ? & ->); naive_solver.
  apply io_bind_run in H as [(e & [= ] & ->)|(now & w1 & [= <- <-] & H)].
  apply io_bind_run in H as [(e & [= ] & ->)|(admission & w1 & [= <- <-] & H)].
  destruct (admit_session _ _ _ _ _) as [a|] eqn:Ha; [by destruct (Hno _ _ Hm Ha)|].
  apply rejected_run in H as (? & ? & ->). naive_solver.
Qed.

(** C11: a peer that the relay does not admit learns nothing but an error and
    changes nothing: when the policy in force does not admit its hello, or its
    first message is not a hello, the session fails, at most one error message
    is written, and the session itself leaves the store, the mailbox, the policy
    and the online streams as they are. *)
Theorem unadmitted_peer_rejected key :
  (forall hello_read reads w r w',
     (forall hello admission, hello_read = Ok (PubHello hello) ->
        admit_session (sh_access (interference env (S (w_step w)) (w_shared w))) hello
          RolePublisher key (clock env (w_step w)) <> Ok admission) ->
     handle_publisher cfg env key hello_read reads w = (r, w') -> rejected RpError w r w') /\
  (forall fuel addr hello_read reads events w r w',
     (forall hello admission, hello_read = Ok (VwHello hello) ->
        admit_session (sh_access (interference env (S (w_step w)) (w_shared w))) hello
          RoleViewer key (clock env (w_step w)) <> Ok admission) ->
     handle_viewer_from env fuel key addr hello_read reads events w = (r, w') ->
     rejected RvError w r w').
Proof using Type. split; intros; [by eapply publisher_rejected|by eapply viewer_rejected]. Qed.

Lemma inactive_run {M A} `{!NativeWireMessage M} (error : RelayError -> M)
    (body : result NativeAccessError unit -> session M A) admission detail what w r w' :
  is_ok (ensure_active (sh_access (interference env (S (w_step w)) (w_shared w))) admission
    (clock env (w_step w))) = false ->
  (forall e, body (Err e) = let? code := active_credential_error_code env admission in
     write_message env (error {| err_code := code; err_detail := ascii_str detail |}) then? bail what) ->
  (let? active := check_active env admission in body active) w = (r, w') -> rejected error w r w'.
Proof using Type.
  intros Hact Hbody H. apply io_bind_run in H as [(e & [= ] & ->)|(active & w1 & [= <- <-] & H)].
  destruct (ensure_active _ _ _) as [|e]; [done|]. rewrite Hbody in H.
  apply io_bind_run in H as [(e' & [= ] & ->)|(code & w2 & [= <- <-] & H)].
  apply rejected_run in H as (? & ? & Hsh). unfold rejected. rewrite Hsh. simpl. naive_solver.
Qed.

Lemma publisher_turn_cut hello publisher_id admission read w r w' :
  is_ok (ensure_active (sh_access (interference env (S (w_step w)) (w_shared w))) admission
    (clock env (w_step w))) = false ->
  publisher_turn cfg env hello publisher_id admission read w = (r, w') -> rejected RpError w r w'.
Proof using Type. intros Hact. by eapply inactive_run. Qed.
Lemma viewer_turn_cut fuel addr hello admission events read w r w' :
  is_ok (ensure_active (sh_access (interference env (S (w_step w)) (w_shared w))) admission
    (clock env (w_step w))) = false ->
  viewer_turn env fuel addr hello admission events read w = (r, w') -> rejected RvError w r w'.
Proof using Type. intros Hact. by eapply inactive_run. Qed.

(** A clock reading, before anything else happens. *)
Definition clock_read {M} (w : World M) : World M := set_shared (w_shared w) w.

Lemma live_turn_cut fuel s recipient admission last event w r w' :
  is_ok (ensure_active (sh_access (interference env (S (S (w_step w))) (w_shared w))) admission
    (clock env (S (w_step w)))) = false ->
  live_turn env fuel s recipient admission last event w = (r, w') ->
  rejected RvError (clock_read w) r w'.
Proof using Type.
  intros Hact H. unfold live_turn in H.
  apply io_bind_run in H as [(e & [= ] & ->)|(now & w1 & [= <- <-] & H)]. case_decide.
  - apply rejected_run in H as (? & ? & Hsh). unfold rejected. rewrite Hsh. simpl in *. naive_solver.
  - revert H. eapply inactive_run; [exact Hact|done].
Qed.

(** From step [n] of the session on the credential is refused, whatever the
    policy of the relay has become. *)
Definition inactive_from (n : nat) (admission : NativeAdmission) : Prop :=
  forall k sh, (n <= k)%nat ->
    is_ok (ensure_active (sh_access (interference env (S k) sh)) admission (clock env k)) = false.

(** A loop over what the peer or the channel delivers, with a state: a turn ends
    it, or goes on from another state. *)
Section loops.
Context {M A B R : Type} (error : RelayError -> M).
Context (turn : B -> R -> World M -> result string A * World M + B * World M).
Context (loop : B -> list R -> World M -> result string A * World M) (closed : result string A).
Context (Hnil : forall b w, loop b [] w = (closed, w)).
Context (Hcons : forall b x l w, loop b (x :: l) w =
  match turn b x w with inl done => done | inr (b', w') => loop b' l w' end).
Context (at_turn : World M -> World M) (n : nat).
Context (Hcut : forall b x w, (n <= w_step w)%nat ->
  exists r w', turn b x w = inl (r, w') /\ rejected error (at_turn w) r w').

(** The turns begun before step [n] handle the first items; if others are left,
    the next of them is refused. *)
Definition cut_off (b : B) (items : list R) (w : World M) (r : result string A) (w' : World M) : Prop :=
  exists handled refused, items = handled ++ refused /\
    (forall first x rest, handled = first ++ x :: rest -> (w_step (loop b first w).2 < n)%nat) /\
    (loop b handled w = (r, w') \/
     exists w1, loop b handled w = (closed, w1) /\ (n <= w_step w1)%nat /\
       refused <> [] /\ rejected error (at_turn w1) r w').

Lemma loop_cut_off b items w r w' : loop b items w = (r, w') -> cut_off b items w r w'.
Proof using Hnil Hcons Hcut.
  revert b w. induction items as [|x items IH]; intros b w H.
  { exists [], []. split_and!; [done|by intros [] ?|by left]. }
  destruct (decide (n <= w_step w)%nat) as [Hn|Hn].
  - exists [], (x :: items). split_and!; [done|by intros [] ?|right].
    destruct (Hcut b x w Hn) as (r1 & w1 & Ht & Hrej). rewrite Hcons, Ht in H. simplify_eq.
    exists w. by rewrite Hnil.
  - destruct (turn b x w) as [[r1 w1]|[b1 w1]] eqn:Ht; rewrite Hcons, Ht in H.
    + exists [x], items. simplify_eq. split_and!; [done| |left; by rewrite Hcons, Ht].
      intros [|y first] z rest [= -> E]; [rewrite Hnil; simpl; lia|by destruct first].
    + destruct (IH _ _ H) as (handled & refused & -> & Hbefore & Hend).
      exists (x :: handled), refused. split_and!; [done| |by rewrite Hcons, Ht].
      intros [|y first] z rest [= <- E]; [rewrite Hnil; simpl; lia|].
      rewrite Hcons, Ht. by eapply Hbefore.
Qed.
End loops.

(** How a turn of each loop ends it or goes on. *)
Definition goes_on {M A B} (stop : B -> option (result string A)) (run : result string B * World M) :
    result string A * World M + B * World M :=
  match run with
  | (Err e, w) => inl (Err e, w)
  | (Ok b, w) => match stop b with Some r => inl (r, w) | None => inr (b, w) end
  end.

(** C21: a session whose credential stops being active is cut off.  The loops
    check the credential, then wait for the next message or live item, so a
    message that arrives while the check is out of date is still handled: every
    message and live item that is handled belongs to a turn begun before the
    credential became inactive (so at most one of them arrives after it), the
    next turn of the publisher's, the viewer's or the subscription's loop fails
    with at most one error message and without any change by the session, and
    nothing that the peer sends afterwards is read. *)
Theorem inactive_session_cut_off n admission :
  inactive_from n admission ->
  (forall hello publisher_id reads w r w',
     identity_id (hello_identity hello) = Ok publisher_id ->
     publisher_loop cfg env hello admission reads w = (r, w') ->
     cut_off RpError (fun _ : unit => publisher_loop cfg env hello admission)
       (Err "publisher connection closed") id n tt reads w r w') /\
  (forall fuel addr hello events reads w r w',
     viewer_loop env fuel addr hello admission events reads w = (r, w') ->
     cut_off RvError (fun _ : bool => viewer_loop env fuel addr hello admission events)
       (Err "viewer connection closed") id n false reads w r w') /\
  (forall fuel s recipient last events w r w',
     live_loop env fuel s recipient admission last events w = (r, w') ->
     cut_off RvError (live_loop env fuel s recipient admission) (Ok tt) clock_read n
       last events w r w').
Proof using Type.
  intros Hinact. split_and!.
  - intros hello publisher_id reads w r w' Hid H.
    apply (loop_cut_off _ (fun _ read w => goes_on (const None)
      (publisher_turn cfg env hello publisher_id admission read w))); [| | |exact H].
    + intros _ u. unfold publisher_loop. by rewrite Hid.
    + intros _ x l u. unfold publisher_loop. rewrite Hid. unfold goes_on, mbind, io_bind. simpl.
      unfold mbind, io_bind. by destruct (publisher_turn _ _ _ _ _ _ _) as [[[]|] u1].
    + intros _ x u Hn. unfold goes_on.
      destruct (publisher_turn _ _ _ _ _ _ _) as [r1 u1] eqn:Ht.
      apply publisher_turn_cut in Ht; [|by apply Hinact]. pose proof Ht as [Hok _].
      destruct r1 as [|e]; [done|]. by exists (Err e), u1.
  - intros fuel addr hello events reads w r w' H.
    apply (loop_cut_off _ (fun _ read w => goes_on (fun b : bool => if b then Some (Ok tt) else None)
      (viewer_turn env fuel addr hello admission events read w))); [done| | |exact H].
    + intros _ x l u. simpl. unfold goes_on, mbind, io_bind.
      by destruct (viewer_turn _ _ _ _ _ _ _ _) as [[[]|] u1].
    + intros _ x u Hn. unfold goes_on.
      destruct (viewer_turn _ _ _ _ _ _ _ _) as [r1 u1] eqn:Ht.
      apply viewer_turn_cut in Ht; [|by apply Hinact]. pose proof Ht as [Hok _].
      destruct r1 as [|e]; [done|]. by exists (Err e), u1.
  - intros fuel s recipient last events w r w' H.
    apply (loop_cut_off _ (fun last event w => goes_on (const None)
      (live_turn env fuel s recipient admission last event w))); [done| | |exact H].
    + intros b x l u. simpl. unfold goes_on, mbind, io_bind.
      by destruct (live_turn _ _ _ _ _ _ _ _) as [[]u1].
    + intros b x u Hn. unfold goes_on.
      destruct (live_turn _ _ _ _ _ _ _ _) as [r1 u1] eqn:Ht.
      apply live_turn_cut in Ht; [|apply Hinact; lia]. pose proof Ht as [Hok _].
      destruct r1 as [|e]; [done|]. by exists (Err e), u1.
Qed.

(** * Acknowledgements *)

Lemma silent_step {A B M} `{!NativeWireMessage M} (m : session M A) (k : A -> session M B) w r w' msg :
  (forall Q, emits (fun _ => True) Q m) -> mbind k m w = (r, w') ->
  msg ∈ w_written w' -> ~ msg ∈ w_written w ->
  exists a w1, m w = (Ok a, w1) /\ ~ msg ∈ w_written w1 /\ k a w1 = (r, w').
Proof using Type.
  intros Hm [(e & H & ->)|(a & w1 & H & H')]%io_bind_run Hin Hnin.
  - by rewrite (silent_all _ _ _ _ (Hm _) H) in Hin.
  - exists a, w1. by rewrite (silent_all _ _ _ _ (Hm _) H).
Qed.

Lemma reachable_rtc db db' : reachable cfg db -> rtc (store_step cfg) db db' -> reachable cfg db'.
Proof using Type. intros Hre. induction 1; [done|]. eauto using reachable_step. Qed.

(** The rest of the relay changes the store by committed operations only. *)
Definition env_commits : Prop :=
  forall n sh, rtc (store_step cfg) (sh_store sh) (sh_store (interference env n sh)).

Section acknowledged.
Context (Hcommits : env_commits).

(** A run changes the store by committed operations. *)
Definition commits {A M} (m : session M A) : Prop :=
  forall w r w', m w = (r, w') ->
    rtc (store_step cfg) (sh_store (w_shared w)) (sh_store (w_shared w')).

Lemma commits_claim {M} `{!NativeWireMessage M} s : commits (claim_online env (M := M) s).
Proof using Hcommits.
  intros w r w'. unfold claim_online. case_decide; [by intros [= _ <-]|].
  case_decide; intros [= _ <-]; apply Hcommits.
Qed.
Lemma commits_live_send {M} `{!NativeWireMessage M} s item : commits (live_send env (M := M) s item).
Proof using Hcommits. intros w r w' [= _ <-]. apply Hcommits. Qed.

(** C9: an acknowledgement means the object is stored: when a session answers a
    published object with [PublishAck], the object carries the identity of the
    session, the acknowledged sequence is its own, and at a moment of the run
    the relay had committed a store from which a read of that sequence returns
    exactly this object. *)
Theorem publish_ack_stored `{codecs_laws : !CodecsLaws} publisher_id object w r w' s q :
  reachable cfg (sh_store (w_shared w)) ->
  publish_object cfg env publisher_id object w = (r, w') ->
  RpPublishAck s q ∈ w_written w' -> ~ RpPublishAck s q ∈ w_written w ->
  s = h_stream_id (header object) /\ q = h_sequence (header object) /\
  h_publisher_id (header object) = publisher_id /\
  exists db, rtc (store_step cfg) (sh_store (w_shared w)) db /\
    get_object db s q = Ok (Some object) /\
    rtc (store_step cfg) db (sh_store (w_shared w')).
Proof using Hcommits.
  intros Hre H Hin Hnin. unfold publish_object in H.
  eapply silent_step in H
    as ([] & w1 & [Hid%reject_if_Ok%dec_stable ->]%lift_Ok & Hn1 & H); [|by eauto with emits|exact Hin|done].
  eapply silent_step in H
    as ([] & w1 & Hclaim%commits_claim & Hn2 & H); [|by eauto with emits|exact Hin|done].
  eapply silent_step in H
    as (now & w2 & [= <- <-] & Hn3 & H); [|by eauto with emits|exact Hin|done].
  eapply silent_step in H
    as (commit & w3 & Hstore & Hn4 & H); [|by eauto with emits|exact Hin|done].
  eapply silent_step in H as ([] & w4 & Hsend & Hn5 & H);
    [|by intros Q; destruct (inserted commit); auto with emits|exact Hin|done].
  pose proof (write_shared _ _ _ _ H) as Hsh.
  apply write_message_run in H as [[E _]|(E & _)]; [by rewrite E in Hin|].
  rewrite E in Hin. apply elem_of_app in Hin as [|[= -> ->]%list_elem_of_singleton]; [done|].
  assert (rtc (store_step cfg) (sh_store (w_shared w3)) (sh_store (w_shared w4))) as Hfin.
  { destruct (inserted commit); [by eapply commits_live_send|by injection Hsend as ->]. }
  unfold store_call, atomically in Hstore. simpl in Hstore.
  set (db1 := sh_store (interference env (S (w_step w1)) (w_shared w1))) in *.
  assert (rtc (store_step cfg) (sh_store (w_shared w)) db1) as Hdb1
    by (etransitivity; [exact Hclaim|apply Hcommits]).
  assert (reachable cfg db1) as Hre1 by by eapply reachable_rtc.
  destruct (store_object cfg db1 object _) as [[c db]|] eqn:Hst; [|done].
  injection Hstore as <- <-. simpl in Hfin, Hsh.
  destruct (store_object_row _ _ _ _ _ _ (reachable_wf _ _ Hre1) Hst) as (Hq & Hdesc & (d & row & Hd & Hrow & Henc) & _).
  split_and!; [done|done|done|]. exists db. rewrite Hq, Hsh. split_and!; [| |done].
  - eapply rtc_r; [exact Hdb1|]. by eapply step_store_object.
  - eapply get_object_row; [by rewrite Hdesc| |done..].
    assert (wf db) as Hwf by (eapply reachable_wf, reachable_step; [done|by eapply step_store_object]).
    destruct (wf_object_high_water _ Hwf _ _ _ Hrow) as (r' & Hr' & ?).
    destruct (wf_stream _ Hwf _ _ Hr'). unfold i64_ok, i64_min in *. lia.
Qed.
End acknowledged.
End admission.

(** * The end of a publisher session *)

Section release.
Context `{crypto : !Crypto, addrs : !SocketAddrs, codecs : !Codecs}.
Context (cfg : StoreConfig) (env : Env).

Lemma for_each_ignore {A B M} (f : A -> session M B) l w :
  (for_each (fun x => ignore (f x)) l w).1 = Ok tt.
Proof using Type. revert w. induction l as [|x l IH]; intros w; [done|]. apply IH. Qed.

Lemma release_run w r w' :
  release_streams env w = (r, w') ->
  w_touched w' = w_touched w /\ forall s, s ∈ w_touched w -> s ∉ sh_online (w_shared w').
Proof using Type.
  unfold release_streams. set (touched := w_touched w). intros H.
  apply io_bind_run in H as [(e & H & ->)|([] & w1 & H & [= _ <-])].
  { apply (f_equal fst) in H. by rewrite for_each_ignore in H. }
  simpl. split; [|set_solver].
  assert (keeps (fun w => w_touched w = touched) (for_each (fun stream_id =>
    ignore (store_call env (M := RelayPublisherMessage) (fun db => pair tt <$> finalize_stream db stream_id)))
    (elements touched))) as Hkeep; [|by eapply Hkeep].
  apply keeps_for_each. intros s. apply keeps_ignore. intros u r' u' Hu.
  unfold store_call, atomically. destruct (finalize_stream _ _); by intros [= _ <-].
Qed.

Lemma write_untouched {M} `{!NativeWireMessage M} (m : M) t :
  keeps (fun w => w_touched w = t) (write_message env m).
Proof using Type.
  apply keeps_bind; [apply keeps_lift|]. intros _ w r w' <-. unfold transmit.
  destruct (write_fails _ _); by intros [= _ <-].
Qed.
Lemma now_untouched {M} `{!NativeWireMessage M} t :
  keeps (fun w => w_touched w = t) (now_ms env (M := M)).
Proof using Type. by intros w r w' <- [= _ <-]. Qed.
Lemma observe_untouched {A M} `{!NativeWireMessage M} (f : Shared -> result string A) t :
  keeps (fun w => w_touched w = t) (atomically env (M := M) (fun sh => (f sh, sh))).
Proof using Type. by intros w r w' <- [= _ <-]. Qed.

(** A session that has given up its streams when it ends. *)
Definition ends_released {A} (m : publisher_session A) : Prop :=
  forall w r w', w_touched w = ∅ -> m w = (r, w') ->
    forall s, s ∈ w_touched w' -> s ∉ sh_online (w_shared w').
Lemma ends_untouched {A} (m : publisher_session A) :
  keeps (fun w => w_touched w = ∅) m -> ends_released m.
Proof using Type. intros Hm w r w' Hw H s. rewrite (Hm _ _ _ Hw H). set_solver. Qed.
Lemma ends_bind {A B} (m : publisher_session A) (k : A -> publisher_session B) :
  keeps (fun w => w_touched w = ∅) m -> (forall a, ends_released (k a)) -> ends_released (mbind k m).
Proof using Type.
  intros Hm Hk w r w' Hw [(e & H & ->)|(a & w1 & H & H')]%io_bind_run.
  - intros s. rewrite (Hm _ _ _ Hw H). set_solver.
  - eapply Hk; [|exact H']. by eapply Hm.
Qed.

(** A publisher session gives its streams up: however it ends, and whatever
    happens meanwhile, none of the streams it claimed is online for it any
    more, so that the publisher can connect again. *)
Theorem publisher_streams_released key hello_read reads w r w' s :
  w_touched w = ∅ ->
  handle_publisher cfg env key hello_read reads w = (r, w') ->
  s ∈ w_touched w' -> s ∉ sh_online (w_shared w').
Proof using Type.
  intros Hw H. revert s. revert w r w' Hw H.
  change (ends_released (handle_publisher cfg env key hello_read reads)). unfold handle_publisher.
  assert (forall code what e, ends_released (send_publisher_error env code what then? bail (A := unit) e)) as Herr.
  { intros. apply ends_untouched, keeps_bind; [apply write_untouched|intros; apply keeps_bail]. }
  do 2 (apply ends_bind; [apply keeps_lift|intros ?]). destruct a; try apply Herr.
  apply ends_bind; [apply now_untouched|intros now].
  apply ends_bind; [apply observe_untouched|intros [admission|]]; [|apply Herr].
  apply ends_bind; [apply keeps_bind; [apply now_untouched|intros; apply keeps_ret]|intros welcome].
  apply ends_bind; [apply write_untouched|intros _].
  intros w r w' _. unfold run_publisher. destruct (publisher_loop _ _ _ _ _ _) as [r1 w1].
  destruct (release_streams env w1) as [r2 w2] eqn:E. intros [= _ <-].
  destruct (release_run _ _ _ E) as [-> Hs]. exact Hs.
Qed.

(** A viewer that has received everything is nevertheless dropped when its live
    channel lags: the store has nothing after its last sequence, and the session
    reads that as a gap that is no longer retained. *)
Theorem lagged_current_viewer_dropped `{codecs_laws : !CodecsLaws} fuel s recipient admission r w :
  calm env -> reachable cfg (sh_store (w_shared w)) ->
  streams (sh_store (w_shared w)) !! s = Some r -> sh_access (w_shared w) = Public ->
  adm_expires_at_ms admission = None ->
  exists w', live_turn env (S fuel) s recipient admission (s_high_water r) LiveLagged w =
      (Err "live subscription gap could not be re-anchored", w') /\
    w_written w' = w_written w ++ [RvError {| err_code := HistoryUnavailable;
      err_detail := ascii_str "live subscription gap is no longer retained" |}].
Proof using Type.
  intros [Hint Hwr] Hre Hr Hpub Hexp. pose proof (reachable_wf _ _ Hre) as Hwf.
  destruct (descriptor_in_total _ _ _ (reachable_content _ _ Hre) Hr) as (d & Hd & _).
  assert (list_objects (sh_store (w_shared w)) s (s_high_water r) SUBSCRIPTION_PAGE = Ok []) as Hlist.
  { unfold list_objects. rewrite Hd. cbn [mbind result_bind ok_or]. destruct (wf_stream _ Hwf _ _ Hr) as [[? _] ?].
    assert (i64_ok (s_high_water r)) as Hok by (unfold i64_ok, i64_min; lia).
    rewrite (proj2 (to_sql_u64_Ok _ _ _) (conj eq_refl Hok)). cbn [mbind result_bind ok_or].
    assert (objects_after (sh_store (w_shared w)) s (s_high_water r) = []) as ->; [|done].
    apply elem_of_nil_inv. intros [q row] [Ho Hq]%elem_of_objects_after.
    destruct (wf_object_high_water _ Hwf _ _ _ Ho) as (r' & Hr' & ?). simplify_eq. lia. }
  unfold live_turn, check_active, now_ms, mbind, io_bind. rewrite Hexp. simpl.
  unfold wait, atomically. rewrite !Hint. simpl. rewrite Hpub. simpl. rewrite !Hint. simpl.
  unfold store_read, atomically, mbind, io_bind. rewrite Hint. simpl. rewrite Hlist.
  rewrite decide_True by done. simpl.
  rewrite decide_True by done.
  unfold send_viewer_error, write_message, transmit, mbind, io_bind. simpl. rewrite Hwr. simpl.
  eexists. by split.
Qed.
End release.

(** ** Witnesses *)

(** A first object published to a store that has its descriptor. *)
Definition sample_publisher_shared : Shared := {|
  sh_store := sample_db0; sh_pairing := ∅; sh_access := Public; sh_online := ∅; sh_live := ∅ |}.
Definition sample_publish : publisher_session unit :=
  publish_object sample_config sample_env (h_publisher_id (header sample_object)) sample_object.
Definition acknowledged (run : result string unit * World RelayPublisherMessage) : bool :=
  match run with
  | (Ok _, w') => match w_written w' with [RpPublishAck s q] => q =? 1 | _ => false end
  | _ => false
  end.
Lemma acknowledged_run run :
  acknowledged run = true -> exists w' s, run = (Ok tt, w') /\ w_written w' = [RpPublishAck s 1].
Proof.
  destruct run as [[[]|] w']; [|done]. simpl.
  destruct (w_written w') as [|[| |s q| | | | | |] [|]] eqn:Ew; try done.
  intros ->%Z.eqb_eq. by exists w', s.
Qed.
Lemma sample_publish_runs : acknowledged (sample_publish (sample_world sample_publisher_shared)) = true.
Proof. vm_compute. reflexivity. Qed.
Lemma sample_publisher_store {M} : sh_store (w_shared (sample_world (M := M) sample_publisher_shared)) = sample_db0.
Proof. reflexivity. Qed.
Lemma sample_env_commits : env_commits sample_config sample_env.
Proof. intros n sh. apply rtc_refl. Qed.

Lemma publish_ack_stored_witness :
  exists w' s db, sample_publish (sample_world sample_publisher_shared) = (Ok tt, w') /\
    w_written w' = [RpPublishAck s 1] /\ get_object db s 1 = Ok (Some sample_object).
Proof.
  destruct (acknowledged_run _ sample_publish_runs) as (w' & s & E & Ew).
  assert (RpPublishAck s 1 ∈ w_written w') as Hin by (rewrite Ew; left).
  destruct (publish_ack_stored sample_config sample_env sample_env_commits
    (h_publisher_id (header sample_object)) sample_object (sample_world sample_publisher_shared)
    (Ok tt) w' s 1 (eq_ind_r (reachable sample_config) sample_reachable0 sample_publisher_store)
    E Hin (not_elem_of_nil _)) as (_ & _ & _ & db & _ & Hget & _).
  exists w', s, db. split; [exact E|]. split; [exact Ew|exact Hget].
Defined.

(** A publisher session on the sample store: a hello and a published object. *)
Definition sample_session_hello (role : CredentialRole) (identity : IdentityPublic) : SessionHello := {|
  hello_protocol_version := PROTOCOL_VERSION; hello_role := role; hello_identity := identity;
  hello_credential := None |}.
Definition sample_publisher_hello : result string PublisherMessage :=
  Ok (PubHello (sample_session_hello RolePublisher sample_public)).
Definition sample_publisher_reads : list (session_read PublisherMessage) :=
  [ReadMessage (PubObject sample_object); ReadMessage (PubPing 1)].
Definition sample_publisher_world : World RelayPublisherMessage := sample_world sample_publisher_shared.
Definition sample_publisher_run : result string unit * World RelayPublisherMessage :=
  handle_publisher sample_config sample_env (Vector.const x07 32) sample_publisher_hello
    sample_publisher_reads sample_publisher_world.

Definition sample_viewer_hello : result string ViewerMessage :=
  Ok (VwHello (sample_session_hello RoleViewer sample_viewer_public)).
Definition sample_viewer_reads : list (session_read ViewerMessage) :=
  [ReadMessage VwFetchInbox;
   ReadMessage (VwSubscribe (h_publisher_id (header sample_object)) Native.sample_stream OldestRetained)].
Definition sample_viewer_events : list live_event :=
  [LiveTick; LiveRecv (LiveEnvelope sample_envelope); LiveIdle].
Definition sample_viewer_world : World RelayViewerMessage := sample_world sample_shared.
Definition sample_viewer_addr : SocketAddr := "127.0.0.1:4321".
Definition sample_viewer_run : result string unit * World RelayViewerMessage :=
  handle_viewer_from sample_env 1 (Vector.const x07 32) sample_viewer_addr sample_viewer_hello
    sample_viewer_reads sample_viewer_events sample_viewer_world.

Definition written_ok {M} (run : result string unit * World M) (check : list M -> bool) : bool :=
  check (w_written run.2).
Example sample_publisher_run_shape :
  written_ok sample_publisher_run (fun l => match l with
    [RpWelcome _; RpPublishAck _ q; RpPong _] => q =? 1 | _ => false end) = true.
Proof. vm_compute. reflexivity. Qed.
Example sample_viewer_run_shape :
  written_ok sample_viewer_run (fun l => match l with
    [RvWelcome _; RvKeyEnvelope _; RvInboxComplete; RvSubscriptionStarted a _ false; RvKeyEnvelope _;
     RvObject _; RvObject _; RvObject _; RvLive q; RvKeyEnvelope _] => (a =? 1) && (q =? 3) | _ => false end)%bool = true.
Proof. vm_compute. reflexivity. Qed.

Lemma sample_env_ok : env_ok sample_config sample_env.
Proof. by intros n sh. Qed.
Lemma sample_publisher_ok : relay_ok sample_config (w_shared sample_publisher_world).
Proof. split; [exact sample_reachable0|exact mailbox_empty_ok]. Qed.
Lemma sample_viewer_ok : relay_ok sample_config (w_shared sample_viewer_world).
Proof. split; [exact sample_reachable|exact mailbox_empty_ok]. Qed.

Definition sent_envelope (msgs : list RelayViewerMessage) : option KeyEnvelope :=
  head (omap (fun m => match m with RvKeyEnvelope e => Some e | _ => None end) msgs).
Lemma sent_envelope_in msgs e : sent_envelope msgs = Some e -> RvKeyEnvelope e ∈ msgs.
Proof.
  unfold sent_envelope. intros H%head_Some_elem_of. apply list_elem_of_omap in H as ([] & Hin & [= <-]).
  done.
Qed.
Lemma sample_viewer_envelope :
  match sent_envelope (w_written sample_viewer_run.2) with Some _ => true | None => false end = true.
Proof. vm_compute. reflexivity. Qed.

(** The sample viewer receives its own envelope. *)
Lemma envelopes_reach_recipient_witness :
  exists e, RvKeyEnvelope e ∈ w_written sample_viewer_run.2 /\
    identity_id sample_viewer_public = Ok (eh_recipient_id (env_header e)).
Proof.
  pose proof sample_viewer_envelope as Hsome. pose proof (sent_envelope_in (w_written sample_viewer_run.2)) as Hin.
  destruct (sent_envelope (w_written sample_viewer_run.2)) as [e|]; [|discriminate].
  specialize (Hin e eq_refl). exists e. split; [exact Hin|].
  destruct (envelopes_reach_recipient sample_config sample_env sample_env_ok _ _ _ _ _ _ _ _ _ e
    sample_viewer_ok (surjective_pairing sample_viewer_run) Hin (not_elem_of_nil _)) as (hello & [= <-] & Hid).
  exact Hid.
Defined.

(** A subscription to the sample stream that ends with its idle timeout. *)
Definition sample_subscription : result string unit * World RelayViewerMessage :=
  subscription sample_env 1 (Vector.const x01 32) (h_publisher_id (header sample_object))
    Native.sample_stream OldestRetained sample_viewer_admission [LiveLagged; LiveIdle]
    sample_viewer_world.
Strategy expand [sample_subscription sample_publisher_run sample_viewer_run sample_viewer_world
  sample_publisher_world].
Lemma subscription_gapless_witness :
  let w' := sample_subscription.2 in
  w_written w' = w_written sample_viewer_world \/
  exists db anchor retained waiting rest n,
    reachable sample_config db /\
    subscription_anchor db Native.sample_stream OldestRetained = Ok anchor /\
    w_written w' = w_written sample_viewer_world ++
      RvSubscriptionStarted anchor retained waiting :: rest /\
    0 <= n /\ object_sequences rest = seqZ anchor n.
Proof.
  exact (subscription_gapless sample_env sample_config sample_env_ok 1 (Vector.const x01 32)
    (h_publisher_id (header sample_object)) Native.sample_stream OldestRetained
    sample_viewer_admission [LiveLagged; LiveIdle] sample_viewer_world sample_subscription.1
    sample_subscription.2 sample_viewer_ok (surjective_pairing sample_subscription)).
Defined.

(** A viewer that says hello as a publisher. *)
Definition sample_rejected_hello : result string ViewerMessage :=
  Ok (VwHello (sample_session_hello RolePublisher sample_viewer_public)).
Definition sample_rejected_run : result string unit * World RelayViewerMessage :=
  handle_viewer_from sample_env 1 (Vector.const x07 32) sample_viewer_addr sample_rejected_hello [] []
    sample_viewer_world.
Lemma unadmitted_peer_rejected_witness :
  rejected sample_env RvError sample_viewer_world sample_rejected_run.1 sample_rejected_run.2.
Proof.
  apply (proj2 (unadmitted_peer_rejected sample_config sample_env (Vector.const x07 32)) 1%nat sample_viewer_addr
    sample_rejected_hello [] [] sample_viewer_world sample_rejected_run.1 sample_rejected_run.2).
  - intros hello admission [= <-]. discriminate.
  - apply surjective_pairing.
Defined.

Lemma sample_publisher_touched :
  bool_decide (Native.sample_stream ∈ w_touched sample_publisher_run.2) = true.
Proof. vm_compute. reflexivity. Qed.
Lemma publisher_streams_released_witness :
  Native.sample_stream ∈ w_touched sample_publisher_run.2 /\
  Native.sample_stream ∉ sh_online (w_shared sample_publisher_run.2).
Proof.
  pose proof (bool_decide_eq_true_1 _ sample_publisher_touched) as Hin. split; [exact Hin|].
  exact (publisher_streams_released sample_config sample_env (Vector.const x07 32)
    sample_publisher_hello sample_publisher_reads sample_publisher_world sample_publisher_run.1
    sample_publisher_run.2 Native.sample_stream eq_refl (surjective_pairing sample_publisher_run) Hin).
Defined.

(** A signed admission that expires while the relay waits for the first message:
    the clock passes the expiry at the third step. *)
Definition sample_expiring_env : Env := {|
  clock := fun n => if (n <? 3)%nat then 800 else 1000;
  interference := fun _ sh => {|
    sh_store := sh_store sh; sh_pairing := sh_pairing sh;
    sh_access := Signed (authority_public sample_ca) None; sh_online := sh_online sh;
    sh_live := sh_live sh |};
  write_fails := const false |}.
Definition sample_expiring_admission : NativeAdmission :=
  {| adm_mode := AccessSigned; adm_expires_at_ms := Some 900;
     adm_credential_serial := Some (Vector.const x03 16) |}.
Lemma sample_inactive_from : inactive_from sample_expiring_env 3 sample_expiring_admission.
Proof.
  intros k sh Hk. unfold sample_expiring_env. simpl.
  replace (k <? 3)%nat with false by (symmetry; apply Nat.ltb_ge; exact Hk). reflexivity.
Qed.

(** The first ping is answered, the second is not. *)
Definition sample_expiring_run : result string unit * World RelayPublisherMessage :=
  publisher_loop sample_config sample_expiring_env
    (sample_session_hello RolePublisher sample_public) sample_expiring_admission
    [ReadMessage (PubPing 1); ReadMessage (PubPing 2)] sample_publisher_world.
Example sample_expiring_run_shape :
  written_ok sample_expiring_run (fun l => match l with
    [RpPong _; RpError e] => bool_decide (err_code e = CredentialExpired) | _ => false end) = true.
Proof. vm_compute. reflexivity. Qed.

Strategy expand [sample_expiring_run].
Lemma inactive_session_cut_off_witness :
  cut_off sample_expiring_env RpError
    (fun _ : unit => publisher_loop sample_config sample_expiring_env
       (sample_session_hello RolePublisher sample_public) sample_expiring_admission)
    (Err "publisher connection closed") id 3 tt [ReadMessage (PubPing 1); ReadMessage (PubPing 2)]
    sample_publisher_world sample_expiring_run.1 sample_expiring_run.2.
Proof.
  apply (proj1 (inactive_session_cut_off sample_config sample_expiring_env 3
    sample_expiring_admission sample_inactive_from) _
    (match identity_id sample_public with Ok i => i | Err _ => Vector.const x00 32 end)).
  - vm_compute. reflexivity.
  - apply surjective_pairing.
Defined.

Definition sample_lagged_run (r : StreamRow) : result string Z * World RelayViewerMessage :=
  live_turn sample_env 1 Native.sample_stream (Vector.const x01 32) sample_viewer_admission
    (s_high_water r) LiveLagged sample_viewer_world.
Strategy expand [sample_lagged_run].
Lemma lagged_current_viewer_dropped_witness :
  exists r w', streams sample_db !! Native.sample_stream = Some r /\ s_high_water r = 3 /\
    sample_lagged_run r = (Err "live subscription gap could not be re-anchored", w').
Proof.
  destruct sample_row as (r & Hr & Hhw).
  destruct (lagged_current_viewer_dropped sample_config sample_env 0 Native.sample_stream
    (Vector.const x01 32) sample_viewer_admission r sample_viewer_world sample_env_calm
    (proj1 sample_viewer_ok) Hr eq_refl eq_refl) as (w' & Hrun & _).
  exists r, w'. split; [exact Hr|]. split; [exact Hhw|exact Hrun].
Defined.
