(* ===== verification/SessionActs.v ===== *)
(** What a session may do to the relay: every change that a publisher or a viewer
    session makes is one that the identity under which it was admitted may make,
    on a stream that the session has claimed; all other changes are those of the
    rest of the relay. *)
From Stdlib Require Import ZArith Lia.
From S2P Require Import Prelude Bytes RustStr External Toy Identity Credential Native Envelope.
From S2P Require Import Transport Pairing Codecs Wire Access NativeTables NativeStore StoreSample.
From S2P Require Import PairingStore Service ServiceInv Delivery Replay SessionSafety.

(** The shared state and the streams that the session has claimed. *)
Definition view : Type := Shared * gset uuid.
Definition view_of {M} (w : World M) : view := (w_shared w, w_touched w).

Section acts.
Context `{crypto : !Crypto, addrs : !SocketAddrs, codecs : !Codecs}.
Context (cfg : StoreConfig) (env : Env).

(** * The acts of an identity *)

(** The rest of the relay acts between the steps of the session. *)
Inductive other_act : view -> view -> Prop :=
| act_other n sh t : other_act (sh, t) (interference env n sh, t).

(** The items that a publisher may send to the subscribers of a stream. *)
Definition own_item (publisher : IdentityPublic) (s : uuid) (item : LiveItem) : Prop :=
  match item with
  | LiveObject o => identity_id publisher = Ok (h_publisher_id (header o)) /\
      h_stream_id (header o) = s
  | LiveEnvelope e => identity_id publisher = Ok (eh_publisher_id (env_header e)) /\
      eh_stream_id (env_header e) = s
  end.

(** What a publisher may do: claim a stream that no session holds, write to the
    store under its own identity and, descriptors and objects, to a stream that
    it has claimed, answer pairing requests under its own identity, and give its
    streams up. *)
Inductive publisher_act (publisher : IdentityPublic) : view -> view -> Prop :=
| act_claim s sh t :
    s ∉ sh_online sh ->
    publisher_act publisher (sh, t) (set_online ({[s]} ∪ sh_online sh) sh, {[s]} ∪ t)
| act_descriptor d sh t db :
    desc_publisher (desc_body d) = publisher -> desc_stream_id (desc_body d) ∈ t ->
    put_descriptor cfg (sh_store sh) d = Ok db ->
    publisher_act publisher (sh, t) (set_store db sh, t)
| act_object o now commit sh t db :
    identity_id publisher = Ok (h_publisher_id (header o)) -> h_stream_id (header o) ∈ t ->
    store_object cfg (sh_store sh) o now = Ok (commit, db) ->
    publisher_act publisher (sh, t) (set_store db sh, t)
| act_envelope e now inserted sh t db :
    identity_id publisher = Ok (eh_publisher_id (env_header e)) ->
    store_envelope cfg (sh_store sh) e now = Ok (inserted, db) ->
    publisher_act publisher (sh, t) (set_store db sh, t)
| act_live s item sh t :
    own_item publisher s item ->
    publisher_act publisher (sh, t)
      (set_live (<[s := default [] (sh_live sh !! s) ++ [item]]> (sh_live sh)) sh, t)
| act_offer offer now lifetime v sh t db :
    off_publisher (off_body offer) = publisher ->
    store_offer (sh_pairing sh) offer now lifetime = Ok (v, db) ->
    publisher_act publisher (sh, t) (set_pairing db sh, t)
| act_decision decision now v sh t db :
    store_decision (sh_pairing sh) decision now = Ok (v, db) ->
    publisher_act publisher (sh, t) (set_pairing db sh, t)
| act_publisher_inbox now inbox sh t db :
    publisher_inbox (sh_pairing sh) publisher now = Ok (inbox, db) ->
    publisher_act publisher (sh, t) (set_pairing db sh, t)
| act_finalize s sh t db :
    s ∈ t -> finalize_stream (sh_store sh) s = Ok db ->
    publisher_act publisher (sh, t) (set_store db sh, t)
| act_release sh t :
    publisher_act publisher (sh, t) (set_online (sh_online sh ∖ t) sh, t).

(** What a viewer may do: ask for a stream that its publisher offers, confirm, and
    fetch what is waiting for it, all under its own identity; nothing else. *)
Inductive viewer_act (viewer : IdentityPublic) : view -> view -> Prop :=
| act_request request source now lifetime v sh t db :
    prq_viewer (prq_body request) = viewer ->
    enqueue_request (sh_pairing sh) request source now lifetime = Ok (v, db) ->
    viewer_act viewer (sh, t) (set_pairing db sh, t)
| act_confirmation confirmation now v sh t db :
    identity_id viewer = Ok (cnf_viewer_id (cnf_body confirmation)) ->
    store_confirmation (sh_pairing sh) confirmation now = Ok (v, db) ->
    viewer_act viewer (sh, t) (set_pairing db sh, t)
| act_viewer_inbox now inbox sh t db :
    viewer_inbox (sh_pairing sh) viewer now = Ok (inbox, db) ->
    viewer_act viewer (sh, t) (set_pairing db sh, t).

(** * Rules for the acts of a session *)

Section rules.
Context {M : Type} `{wire : !NativeWireMessage M}.
Context (act : view -> view -> Prop).

Definition step (v v' : view) : Prop := other_act v v' \/ act v v'.

(** From a world in which the streams of [T] are claimed, every change that a run
    of [m] makes is an act; no stream is given up. *)
Definition acts {A} (T : gset uuid) (m : session M A) : Prop :=
  forall w r w', T ⊆ w_touched w -> m w = (r, w') ->
    rtc step (view_of w) (view_of w') /\ w_touched w ⊆ w_touched w'.

Lemma acts_still {A} T (m : session M A) :
  (forall w r w', m w = (r, w') -> view_of w' = view_of w) -> acts T m.
Proof using Type. intros Hm w r w' _ E%Hm. rewrite E. injection E as _ ->. by split. Qed.
Lemma acts_ret {A} T (a : A) : acts T (mret a).
Proof using Type. apply acts_still. by intros w r w' [= _ <-]. Qed.
Lemma acts_lift {A} T (r : result string A) : acts T (lift r).
Proof using Type. apply acts_still. by intros w r' w' [= _ <-]. Qed.
Lemma acts_bail {A} T what : acts T (bail (A := A) what).
Proof using Type. apply acts_lift. Qed.
Lemma acts_now T : acts T (now_ms env (M := M)).
Proof using Type. apply acts_still. by intros w r w' [= _ <-]. Qed.
Lemma acts_write T (m : M) : acts T (write_message env m).
Proof using Type.
  apply acts_still. intros w r w' [(e & [= _ <-] & ->)|([] & w1 & [_ ->]%lift_Ok & H)]%io_bind_run; [done|].
  unfold transmit in H. by destruct (write_fails _ _); injection H as _ <-.
Qed.
Lemma acts_bind {A B} T (m : session M A) (k : A -> session M B) :
  acts T m -> (forall a, acts T (k a)) -> acts T (mbind k m).
Proof using Type.
  intros Hm Hk w r w' Hw [(e & H & ->)|(a & w1 & H & H')]%io_bind_run; [by eapply Hm|].
  destruct (Hm _ _ _ Hw H) as [H1 Ht1]. edestruct Hk as [H2 Ht2]; [|exact H'|]; [set_solver|].
  split; [by etransitivity|set_solver].
Qed.
(** A first step, and a rest that is known by its runs. *)
Lemma acts_bind_run {A B} (m : session M A) (k : A -> session M B) w r w' :
  acts ∅ m -> (forall a w1 r w', k a w1 = (r, w') -> rtc step (view_of w1) (view_of w')) ->
  mbind k m w = (r, w') -> rtc step (view_of w) (view_of w').
Proof using Type.
  intros Hm Hk [(e & H & ->)|(a & w1 & H & H')]%io_bind_run;
    apply Hm in H as [H _]; [done|apply empty_subseteq|etransitivity; [exact H|by eapply Hk]|apply empty_subseteq].
Qed.
(** A check before the rest. *)
Lemma acts_known {A B} T (r : result string A) (k : A -> session M B) :
  (forall a, r = Ok a -> acts T (k a)) -> acts T (let? a := lift r in k a).
Proof using Type.
  intros Hk w r' w' Hw [(e & [= _ <-] & ->)|(a & w1 & [-> ->]%lift_Ok & H')]%io_bind_run.
  - by split.
  - by eapply Hk.
Qed.
Lemma acts_if {A} T (P : Prop) `{!Decision P} (m1 m2 : session M A) :
  acts T m1 -> acts T m2 -> acts T (if decide P then m1 else m2).
Proof using Type. by case_decide. Qed.
Lemma acts_ignore {A} T (m : session M A) : acts T m -> acts T (ignore m).
Proof using Type.
  intros Hm w r w' Hw [= _ <-]. destruct (m w) as [r' w1] eqn:E. by eapply Hm.
Qed.
Lemma acts_for_each {A} T (f : A -> session M unit) l :
  (forall a, a ∈ l -> acts T (f a)) -> acts T (for_each f l).
Proof using Type.
  induction l as [|a l IH]; intros Hf; [apply acts_ret|]. simpl.
  apply acts_bind; [apply Hf; set_solver|intros _; apply IH; set_solver].
Qed.
Lemma acts_map_each {A B} T (f : A -> session M B) l :
  (forall a, acts T (f a)) -> acts T (map_each f l).
Proof using Type.
  intros Hf. induction l as [|a l IH]; [apply acts_ret|]. simpl.
  apply acts_bind; [done|]. intros b. apply acts_bind; [done|]. intros bs. apply acts_ret.
Qed.

(** One atomic step of the session. *)
Lemma acts_atomically {A} T (f : Shared -> result string A * Shared) :
  (forall sh t, T ⊆ t -> (f sh).2 = sh \/ act (sh, t) ((f sh).2, t)) -> acts T (atomically env f).
Proof using Type.
  intros Hf w r w' Hw. unfold atomically.
  destruct (f (interference env (w_step w) (w_shared w))) as [r' sh] eqn:E. intros [= _ <-].
  split; [|done]. unfold view_of. simpl.
  eapply rtc_l; [left; apply (act_other (w_step w))|].
  destruct (Hf (interference env (w_step w) (w_shared w)) _ Hw) as [Hsh|Hact]; rewrite E in *; simpl in *.
  - by rewrite Hsh.
  - by eapply rtc_once; right.
Qed.
Lemma acts_observe {A} T (f : Shared -> result string A) :
  acts T (atomically env (fun sh => (f sh, sh))).
Proof using Type. apply acts_atomically. by left. Qed.
Lemma acts_wait T : acts T (wait env (M := M)).
Proof using Type. apply acts_observe. Qed.
Lemma acts_store_read {A} T (f : Db -> result string A) : acts T (store_read env (M := M) f).
Proof using Type. apply acts_observe. Qed.
Lemma acts_store_call {A} T (f : Db -> result string (A * Db)) :
  (forall sh t a db, T ⊆ t -> f (sh_store sh) = Ok (a, db) -> act (sh, t) (set_store db sh, t)) ->
  acts T (store_call env (M := M) f).
Proof using Type.
  intros Hf. apply acts_atomically. intros sh t Ht.
  destruct (f (sh_store sh)) as [[a db]|] eqn:E; [right; by eapply Hf|by left].
Qed.
Lemma acts_pairing_call {A} T (f : PairDb -> result string (A * PairDb)) :
  (forall sh t a db, f (sh_pairing sh) = Ok (a, db) -> act (sh, t) (set_pairing db sh, t)) ->
  acts T (pairing_call env (M := M) f).
Proof using Type.
  intros Hf. apply acts_atomically. intros sh t Ht.
  destruct (f (sh_pairing sh)) as [[a db]|] eqn:E; [right; by eapply Hf|by left].
Qed.
Lemma acts_check_active T a : acts T (check_active env (M := M) a).
Proof using Type. apply acts_bind; [apply acts_now|intros; apply acts_observe]. Qed.
Lemma acts_error_code T a : acts T (active_credential_error_code env (M := M) a).
Proof using Type. apply acts_bind; [apply acts_now|intros; apply acts_ret]. Qed.
Lemma acts_welcome T a : acts T (welcome env (M := M) a).
Proof using Type. apply acts_bind; [apply acts_now|intros; apply acts_ret]. Qed.
End rules.
End acts.

Create HintDb acts.
#[export] Hint Resolve acts_ret acts_lift acts_bail acts_now acts_write acts_observe acts_wait
  acts_store_read acts_check_active acts_error_code acts_welcome : acts.

(** Walk through the steps of a session. *)
Ltac acts_step :=
  match goal with
  | |- acts _ _ _ (mbind _ (lift _)) => apply acts_known; intros ? ?
  | |- acts _ _ _ (mbind _ _) => apply acts_bind; [|intros ?]
  | |- acts _ _ _ (if decide _ then _ else _) => apply acts_if
  | |- acts _ _ _ (for_each _ _) => apply acts_for_each; intros ? ?
  | |- acts _ _ _ (map_each _ _) => apply acts_map_each; intros ?
  | |- acts _ _ _ (ignore _) => apply acts_ignore
  | |- acts _ _ _ (match ?x with _ => _ end) => destruct x
  | |- acts _ _ _ (let _ := _ in _) => cbv zeta
  | |- acts _ _ _ _ => solve [eauto with acts]
  end.
Ltac acts_auto := repeat acts_step.

Section publisher.
Context `{crypto : !Crypto, addrs : !SocketAddrs, codecs : !Codecs}.
Context (cfg : StoreConfig) (env : Env).
Context (publisher : IdentityPublic).
#[local] Notation acts := (acts (M := RelayPublisherMessage) env (publisher_act cfg publisher)).

(** After a claim the stream is claimed, whatever follows. *)
Lemma acts_after_claim {A} T s (k : unit -> publisher_session A) :
  acts ({[s]} ∪ T) (k tt) -> acts T (let? u := claim_online env s in k u).
Proof using Type.
  intros Hk w r w' Hw [(e & H & ->)|([] & w1 & H & H')]%io_bind_run; unfold claim_online in H.
  - case_decide; [done|]. case_decide; [|done]. injection H as _ <-. split; [|done].
    apply rtc_once. left. apply act_other.
  - assert (rtc (step env (publisher_act cfg publisher)) (view_of w) (view_of w1) /\
      {[s]} ∪ w_touched w ⊆ w_touched w1) as [Hstep Ht].
    { case_decide as Hs; [injection H as <-; split; [done|set_solver]|]. case_decide; [done|].
      injection H as <-. split; [|done]. eapply rtc_l; [left; apply (act_other env (w_step w))|].
      apply rtc_once. right. by apply act_claim. }
    edestruct Hk as [H1 H2]; [|exact H'|]; [set_solver|].
    split; [by etransitivity|set_solver].
Qed.

Lemma acts_live_send T s item : own_item publisher s item -> acts T (live_send env s item).
Proof using Type. intros Hitem. apply acts_atomically. intros sh t _. right. by apply act_live. Qed.

Context (publisher_id : array 32) (Hid : identity_id publisher = Ok publisher_id).

Lemma acts_publish_object T object : acts T (publish_object cfg env publisher_id object).
Proof using Hid.
  unfold publish_object. apply acts_known. intros _ Hown%reject_if_Ok%dec_stable. cbv zeta.
  apply acts_after_claim, acts_bind; [apply acts_now|intros now].
  apply acts_bind; [|intros commit; apply acts_bind; [|intros []; apply acts_write]].
  - apply acts_store_call. intros sh t commit db Ht H.
    eapply act_object; [by rewrite Hown|set_solver|exact H].
  - destruct (inserted commit); [|apply acts_ret]. apply acts_live_send. simpl. by rewrite Hown.
Qed.

Lemma acts_publish_envelope T envelope : acts T (publish_envelope cfg env publisher_id envelope).
Proof using Hid.
  unfold publish_envelope. apply acts_known. intros _ Hown%reject_if_Ok%dec_stable.
  apply acts_bind; [apply acts_now|intros now]. apply acts_bind; [|intros []; [|apply acts_ret]].
  - apply acts_store_call. intros sh t i db _ H. eapply act_envelope; [by rewrite Hown|exact H].
  - apply acts_live_send. simpl. by rewrite Hown.
Qed.

Lemma acts_publisher_message T hello message :
  hello_identity hello = publisher ->
  acts T (publisher_message cfg env hello publisher_id message).
Proof using Hid.
  intros Hhello. destruct message; cbn [publisher_message]; unfold send_publisher_error.
  all: try solve [acts_auto].
  - (* resume *) unfold resume_stream, validate_resume_stream, require_publisher.
    apply acts_known. intros _ _. apply acts_bind; [|intros; apply acts_write].
    apply acts_map_each. intros stream. apply acts_bind; [acts_auto|intros _].
    apply acts_after_claim. acts_auto.
  - (* a descriptor *) apply acts_known. intros _ Hown%reject_if_Ok%dec_stable.
    apply acts_after_claim, acts_store_call. intros sh t [] db Ht H.
    apply fmap_Ok_inv in H as (db' & H & [= <-]).
    eapply act_descriptor; [by rewrite Hown|set_solver|exact H].
  - apply acts_publish_object.
  - apply acts_publish_envelope.
  - (* an offer *) apply acts_known. intros _ Hown%reject_if_Ok%dec_stable.
    apply acts_bind; [apply acts_now|intros now]. apply acts_bind; [|intros; apply acts_write].
    apply acts_pairing_call. intros sh t v db H. eapply act_offer; [by rewrite Hown|exact H].
  - (* a decision *) apply acts_bind; [apply acts_now|intros now].
    apply acts_bind; [|intros; apply acts_write].
    apply acts_pairing_call. intros sh t v db H. eapply act_decision, H.
  - (* the inbox *) unfold fetch_pairing_inbox. apply acts_bind; [apply acts_now|intros now].
    apply acts_bind; [|intros; acts_auto]. apply acts_pairing_call. intros sh t v db H.
    eapply act_publisher_inbox. rewrite <-Hhello. exact H.
Qed.

Lemma acts_publisher_loop T hello admission reads :
  hello_identity hello = publisher -> acts T (publisher_loop cfg env hello admission reads).
Proof using Hid.
  intros Hhello. unfold publisher_loop. apply acts_known.
  intros id Hid'%context_Ok. rewrite Hhello, Hid in Hid'. injection Hid' as <-.
  apply acts_bind; [|intros; apply acts_bail]. apply acts_for_each. intros read _.
  unfold publisher_turn, send_publisher_error.
  apply acts_bind; [apply acts_check_active|intros [_|]]; [|acts_auto].
  apply acts_bind; [apply acts_wait|intros _]. destruct read; [|acts_auto..].
  apply acts_known. intros _ _. by apply acts_publisher_message.
Qed.
End publisher.

Section publisher_end.
Context `{crypto : !Crypto, addrs : !SocketAddrs, codecs : !Codecs}.
Context (cfg : StoreConfig) (env : Env).

Lemma acts_release publisher w r w' :
  release_streams env w = (r, w') ->
  rtc (step env (publisher_act cfg publisher)) (view_of w) (view_of w').
Proof using Type.
  assert (acts (M := RelayPublisherMessage) env (publisher_act cfg publisher) (w_touched w)
    (for_each (fun stream_id =>
       ignore (store_call env (fun db => pair tt <$> finalize_stream db stream_id)))
       (elements (w_touched w)))) as Hfin.
  { apply acts_for_each. intros s Hs%elem_of_elements. apply acts_ignore, acts_store_call.
    intros sh t [] db Ht H. apply fmap_Ok_inv in H as (db' & H & [= <-]).
    apply (act_finalize cfg publisher s); [set_solver|exact H]. }
  unfold release_streams. intros H.
  apply io_bind_run in H as [(e & H & ->)|([] & w1 & H & [= _ <-])].
  { apply (f_equal fst) in H. by rewrite for_each_ignore in H. }
  destruct (Hfin _ _ _ ltac:(done) H) as [Hrtc _].
  assert (w_touched w1 = w_touched w) as Ht.
  { clear Hfin Hrtc. assert (keeps (fun u => w_touched u = w_touched w)
      (for_each (fun stream_id => ignore (store_call env (M := RelayPublisherMessage)
         (fun db => pair tt <$> finalize_stream db stream_id))) (elements (w_touched w)))) as Hk.
    { apply keeps_for_each. intros s. apply keeps_ignore. intros u r' u' Hu.
      unfold store_call, atomically. destruct (finalize_stream _ _); by intros [= _ <-]. }
    by eapply Hk. }
  etransitivity; [exact Hrtc|]. unfold view_of. simpl.
  eapply rtc_l; [left; apply (act_other env (w_step w1))|].
  apply rtc_once. right. rewrite <-Ht. apply act_release.
Qed.

Lemma acts_run_publisher hello publisher admission reads w r w' :
  hello_identity hello = publisher -> run_publisher cfg env hello admission reads w = (r, w') ->
  rtc (step env (publisher_act cfg publisher)) (view_of w) (view_of w').
Proof using Type.
  intros Hhello. unfold run_publisher.
  destruct (publisher_loop _ _ _ _ _ _) as [r1 w1] eqn:E1.
  destruct (release_streams _ _) as [r2 w2] eqn:E2. intros [= _ <-].
  etransitivity; [|by eapply acts_release].
  destruct (identity_id publisher) as [i|e] eqn:Hid.
  - by eapply (acts_publisher_loop cfg env publisher i Hid ∅) in E1 as [H _]; [|done|set_solver].
  - unfold publisher_loop in E1. rewrite Hhello, Hid in E1. by injection E1 as _ <-.
Qed.
End publisher_end.

Section viewer.
Context `{crypto : !Crypto, addrs : !SocketAddrs, codecs : !Codecs}.
Context (env : Env) (viewer : IdentityPublic).
#[local] Notation acts := (acts (M := RelayViewerMessage) env (viewer_act viewer)).

Lemma acts_send_group_envelope T s e g recipient : acts T (send_group_envelope env s e g recipient).
Proof using Type. unfold send_group_envelope. acts_auto. Qed.
#[local] Hint Resolve acts_send_group_envelope : acts.

Lemma acts_deliver T s recipient objects last group :
  acts T (deliver_objects env s recipient last group objects).
Proof using Type.
  revert last group. induction objects as [|o objects IH]; intros last group; simpl; acts_auto.
Qed.
#[local] Hint Resolve acts_deliver : acts.

Lemma acts_reanchor T fuel s recipient last : acts T (reanchor_from_store env fuel s recipient last).
Proof using Type. revert last. induction fuel as [|fuel IH]; intros last; simpl; acts_auto. Qed.
#[local] Hint Resolve acts_reanchor : acts.

Lemma acts_live_loop T fuel s recipient admission last events :
  acts T (live_loop env fuel s recipient admission last events).
Proof using Type.
  revert last. induction events as [|e events IH]; intros last; simpl; unfold live_turn,
    live_received, send_viewer_error; acts_auto.
Qed.
#[local] Hint Resolve acts_live_loop : acts.

Lemma acts_viewer_message T fuel addr hello admission events message :
  hello_identity hello = viewer ->
  acts T (viewer_message env fuel addr hello admission events message).
Proof using Type.
  intros Hhello. destruct message; cbn [viewer_message]; unfold catalog, catalog_entry,
    subscription, send_viewer_error.
  all: try solve [acts_auto].
  - (* a request *) unfold queue_request, send_viewer_error.
    apply acts_bind; [|intros; apply acts_ret]. apply acts_known. intros _ Hown%reject_if_Ok%dec_stable.
    apply acts_bind; [apply acts_store_read|intros found]. apply acts_if; [acts_auto|].
    apply acts_known. intros id _. apply acts_bind; [apply acts_now|intros now].
    apply acts_bind; [|intros; apply acts_write]. apply acts_pairing_call. intros sh t v db H.
    eapply act_request; [by rewrite Hown|exact H].
  - (* a confirmation *) apply acts_known. intros id Hid%context_Ok. apply acts_known.
    intros _ Hown%reject_if_Ok%dec_stable. apply acts_bind; [apply acts_now|intros now].
    apply acts_bind; [|intros; acts_auto]. apply acts_pairing_call. intros sh t v db H.
    eapply act_confirmation; [by rewrite <-Hhello, Hid, Hown|exact H].
  - (* the inbox *) unfold fetch_inbox. apply acts_bind; [|intros; apply acts_ret].
    apply acts_bind; [apply acts_now|intros now]. apply acts_bind; [|intros; acts_auto].
    apply acts_pairing_call. intros sh t v db H. eapply act_viewer_inbox. rewrite <-Hhello. exact H.
Qed.

Lemma acts_viewer_loop T fuel addr hello admission events reads :
  hello_identity hello = viewer -> acts T (viewer_loop env fuel addr hello admission events reads).
Proof using Type.
  intros Hhello. induction reads as [|read reads IH]; [apply acts_bail|]. simpl.
  apply acts_bind; [|intros []; [apply acts_ret|exact IH]].
  unfold viewer_turn, send_viewer_error.
  apply acts_bind; [apply acts_check_active|intros [_|]]; [|acts_auto].
  apply acts_bind; [apply acts_wait|intros _]. destruct read; [|acts_auto..].
  apply acts_known. intros _ _. by apply acts_viewer_message.
Qed.
End viewer.

Section admitted.
Context `{crypto : !Crypto, addrs : !SocketAddrs, codecs : !Codecs}.
Context (cfg : StoreConfig) (env : Env).

Lemma other_steps v v' : other_act env v v' -> rtc (other_act env) v v'.
Proof using Type. apply rtc_once. Qed.

(** The streams claimed stay as they are while a peer is being rejected. *)
Lemma rejected_view {M} (m : M) what (w : World M) `{!NativeWireMessage M} (r : result string unit) w' :
  (write_message env m then? bail what) w = (r, w') -> view_of w' = view_of w.
Proof using Type.
  intros H. assert (w_touched w' = w_touched w) as Ht.
  { revert H. by apply (keeps_bind (fun u => w_touched u = w_touched w));
      [apply write_untouched|intros; apply keeps_bail|]. }
  apply rejected_run in H as (_ & _ & Hsh). unfold view_of. by rewrite Ht, Hsh.
Qed.

(** The policy of the relay at its second step, which admits a peer or not. *)
Definition policy_at_hello {M} (w : World M) : Shared := interference env (S (w_step w)) (w_shared w).

(** C8: a session acts only as the identity under which it was admitted.  Whatever
    a peer sends, however the session is interleaved and wherever it fails, either
    the session has changed nothing, or the policy in force has admitted its hello
    and every change it made is one that the identity of the hello may make: a
    publisher claims streams that no session holds, writes descriptors and objects
    of its own to streams it has claimed, its own envelopes and offers, and
    finalizes and gives up only what it has claimed; a viewer queues requests and
    confirmations of its own and fetches its inbox, and never touches the store. *)
Theorem sessions_act_as_admitted key :
  (forall hello_read reads w r w',
     handle_publisher cfg env key hello_read reads w = (r, w') ->
     rtc (other_act env) (view_of w) (view_of w') \/
     exists hello admission, hello_read = Ok (PubHello hello) /\
       admit_session (sh_access (policy_at_hello w)) hello RolePublisher key
         (clock env (w_step w)) = Ok admission /\
       rtc (step env (publisher_act cfg (hello_identity hello)))
         (policy_at_hello w, w_touched w) (view_of w')) /\
  (forall fuel addr hello_read reads events w r w',
     handle_viewer_from env fuel key addr hello_read reads events w = (r, w') ->
     rtc (other_act env) (view_of w) (view_of w') \/
     exists hello admission, hello_read = Ok (VwHello hello) /\
       admit_session (sh_access (policy_at_hello w)) hello RoleViewer key
         (clock env (w_step w)) = Ok admission /\
       rtc (step env (viewer_act (hello_identity hello)))
         (policy_at_hello w, w_touched w) (view_of w')).
Proof using Type.
  split.
  - intros hello_read reads w r w' H. unfold handle_publisher in H.
    apply io_bind_run in H as [(e & [= _ <-] & ->)|(m & w1 & [Hm%context_Ok ->]%lift_Ok & H)]; [by left|].
    apply io_bind_run in H as [(e & [= _ <-] & ->)|([] & w1 & [_ ->]%lift_Ok & H)]; [by left|].
    destruct m as [hello| | | | | | | |].
    2-9: apply rejected_view in H; rewrite H; by left.
    apply io_bind_run in H as [(e & [= ] & ->)|(now & w1 & [= <- <-] & H)].
    apply io_bind_run in H as [(e & [= ] & ->)|(admission & w1 & [= <- <-] & H)].
    destruct (admit_session _ _ _ _ _) as [admission|] eqn:Ha.
    + right. exists hello, admission. split_and!; [done|exact Ha|].
      change (policy_at_hello w, w_touched w) with
        (view_of (set_shared (policy_at_hello w) (set_shared (w_shared w) w))).
      revert H. apply acts_bind_run; [apply acts_welcome|]. intros wel u r1 u'.
      apply acts_bind_run; [apply acts_write|]. intros [] u1 r2 u2. by apply acts_run_publisher.
    + left. apply rejected_view in H. rewrite H. apply other_steps, (act_other env (S (w_step w))).
  - intros fuel addr hello_read reads events w r w' H. unfold handle_viewer_from in H.
    apply io_bind_run in H as [(e & [= _ <-] & ->)|(m & w1 & [Hm%context_Ok ->]%lift_Ok & H)]; [by left|].
    apply io_bind_run in H as [(e & [= _ <-] & ->)|([] & w1 & [_ ->]%lift_Ok & H)]; [by left|].
    destruct m as [hello| | | | | | |].
    2-8: apply rejected_view in H; rewrite H; by left.
    apply io_bind_run in H as [(e & [= ] & ->)|(now & w1 & [= <- <-] & H)].
    apply io_bind_run in H as [(e & [= ] & ->)|(admission & w1 & [= <- <-] & H)].
    destruct (admit_session _ _ _ _ _) as [admission|] eqn:Ha.
    + right. exists hello, admission. split_and!; [done|exact Ha|].
      assert (acts env (viewer_act (hello_identity hello)) ∅
        (let? welcome := welcome env admission in
         write_message env (RvWelcome welcome) then?
         viewer_loop env fuel addr hello admission events reads)) as Hacts.
      { apply acts_bind; [apply acts_welcome|intros wel].
        apply acts_bind; [apply acts_write|intros _]. by apply acts_viewer_loop. }
      destruct (Hacts _ _ _ (empty_subseteq _) H) as [Hrtc _]. exact Hrtc.
    + left. apply rejected_view in H. rewrite H. apply other_steps, (act_other env (S (w_step w))).
Qed.
End admitted.

(** ** Witnesses *)

(** The sample sessions of a publisher, which stores an object, and of a viewer. *)
Lemma sample_publisher_stored :
  bool_decide (s_high_water <$> streams (sh_store (w_shared sample_publisher_run.2)) !! Native.sample_stream = Some 1) = true.
Proof. vm_compute. reflexivity. Qed.

Lemma sessions_act_as_admitted_witness :
  exists hello, sample_publisher_hello = Ok (PubHello hello) /\
    rtc (step sample_env (publisher_act sample_config (hello_identity hello)))
      (w_shared sample_publisher_world, ∅) (view_of sample_publisher_run.2).
Proof.
  destruct (sessions_act_as_admitted sample_config sample_env (Vector.const x07 32)) as [Hp _].
  destruct (Hp _ _ _ sample_publisher_run.1 sample_publisher_run.2
    (surjective_pairing sample_publisher_run)) as [Hother|(hello & admission & Hh & _ & Hrtc)].
  - exfalso. assert (forall v v', rtc (other_act sample_env) v v' -> v = v') as Hidle.
    { induction 1 as [|v v1 v' [] _ IH]; [done|exact IH]. }
    apply Hidle in Hother. pose proof (bool_decide_eq_true_1 _ sample_publisher_stored) as Hs.
    apply (f_equal (fun v => s_high_water <$> streams (sh_store v.1) !! Native.sample_stream)) in Hother.
    unfold view_of in Hother. cbn [fst] in Hother. rewrite Hs in Hother. revert Hother.
    vm_compute. discriminate.
  - exists hello. split; [exact Hh|exact Hrtc].
Defined.
