(* ===== verification/PrivateState.v ===== *)
(** [crates/protocol/src/private_state.rs]: the private state files of the
    publisher and the viewer, and what several components need of them: a
    stable sort by key and the lexicographic order of keys.

    A path holds nothing or one entry of the directory.  Replacing a file is
    atomic in the code (a synchronized temporary is renamed over it), so here it
    is one step, with three outcomes that the disk decides: it succeeds, it fails
    before the rename and the path is as it was, or the synchronization of the
    directory fails after the rename and the new file stays although an error is
    reported.  A crash, advisory locks and a file that changes while it is read
    are not modelled. *)
From Stdlib Require Import ZArith Lia.
From S2P Require Import Prelude Bytes.

(** * Private files *)

Inductive file_kind : Type := RegularFile | SymbolicLink | OtherFile.
#[global] Instance file_kind_eq_dec : EqDecision file_kind.
Proof. solve_decision. Defined.
Record FileEntry : Type := {
  fe_kind : file_kind;
  fe_mode : Z;
  fe_nlink : Z;
  fe_content : bytes;
}.
Inductive io_error : Type :=
| NotFound | AlreadyExists | InvalidData (what : string) | TooManyLinks | DiskError.

(** What the disk does with the writes of one operation: all succeed, one fails
    before the file is renamed into place, or the last one, the synchronization of
    the directory, fails. *)
Inductive disk_outcome : Type := DiskOk | DiskFailed | DiskUnsynced.

Definition validate_private_metadata (e : FileEntry) (max_len : Z) : result io_error unit :=
  reject_if (fe_kind e <> RegularFile)
    (InvalidData "is not a regular file") then?
  reject_if (Z.land (fe_mode e) 63 <> 0)
    (InvalidData "is accessible by group or other users") then?
  reject_if (fe_nlink e <> 1) (InvalidData "has more than one hard link") then?
  reject_if (zlen (fe_content e) > max_len) (InvalidData "exceeds its byte limit").

(** Opening does not follow a final symbolic link. *)
Definition read_private (path : option FileEntry) (max_len : Z) : result io_error bytes :=
  match path with
  | None => Err NotFound
  | Some e =>
      match fe_kind e with
      | SymbolicLink => Err TooManyLinks
      | _ => validate_private_metadata e max_len then? Ok (fe_content e)
      end
  end.

(** What [stage_private] leaves: mode [0600] and one link. *)
Definition stage_private (content : bytes) : FileEntry :=
  {| fe_kind := RegularFile; fe_mode := 384; fe_nlink := 1; fe_content := content |}.

(** The staged file is renamed into place and its directory synchronized. *)
Definition publish_staged (disk : disk_outcome) (staged : FileEntry) :
    io io_error (option FileEntry) unit := fun path =>
  match disk with
  | DiskOk => (Ok tt, Some staged)
  | DiskFailed => (Err DiskError, path)
  | DiskUnsynced => (Err DiskError, Some staged)
  end.

Definition replace_private (disk : disk_outcome) (content : bytes) (max_existing_len : Z) :
    io io_error (option FileEntry) unit := fun path =>
  (lift match path with
        | Some e => validate_private_metadata e max_existing_len
        | None => Ok tt
        end then?
   publish_staged disk (stage_private content)) path.

(** Renamed without replacement: an existing destination is an error. *)
Definition create_private (disk : disk_outcome) (content : bytes) :
    io io_error (option FileEntry) unit := fun path =>
  match disk, path with
  | DiskFailed, _ => (Err DiskError, path)
  | _, Some _ => (Err AlreadyExists, path)
  | _, None => publish_staged disk (stage_private content) None
  end.

(** A file operation with the context of its error. *)
Definition in_context {E S A} (what : string) (m : io E S A) : io string S A := fun s =>
  let '(r, s) := m s in (context what r, s).

(** The result of [match read_private]: nothing when the file is missing. *)
Definition read_optional (path : option FileEntry) (max_len : Z) : result io_error (option bytes) :=
  match read_private path max_len with
  | Ok content => Ok (Some content)
  | Err NotFound => Ok None
  | Err e => Err e
  end.

Lemma stage_private_valid content max_len :
  validate_private_metadata (stage_private content) max_len = Ok tt <-> zlen content <= max_len.
Proof.
  unfold validate_private_metadata, stage_private. cbn [fe_kind fe_mode fe_nlink fe_content].
  rewrite !guard_bind, reject_if_Ok. split; [lia|]. intros ?.
  split_and!; [by intros []|by vm_compute|by intros []|lia].
Qed.

(** A staged file is read back as it was written. *)
Lemma stage_private_read content max_len :
  zlen content <= max_len ->
  read_private (Some (stage_private content)) max_len = Ok content /\
  read_optional (Some (stage_private content)) max_len = Ok (Some content).
Proof.
  intros Hlen. assert (read_private (Some (stage_private content)) max_len = Ok content) as Hr.
  { unfold read_private. cbn [stage_private fe_kind]. by rewrite (proj2 (stage_private_valid _ _) Hlen). }
  split; [done|]. unfold read_optional. by rewrite Hr.
Qed.

(** Whatever the disk does, the path is as it was or holds the new file, and it
    holds the new file after a success. *)
Definition written (staged path path' : option FileEntry) (ok : bool) : Prop :=
  path' = staged \/ path' = path /\ ok = false.

Lemma publish_staged_run disk staged path r path' :
  publish_staged disk staged path = (r, path') -> written (Some staged) path path' (is_ok r).
Proof. unfold written. destruct disk; intros [= <- <-]; auto. Qed.
Lemma replace_private_run disk content max_len path r path' :
  replace_private disk content max_len path = (r, path') ->
  written (Some (stage_private content)) path path' (is_ok r).
Proof.
  intros [(e & [= _ <-] & ->)|([] & p & [_ ->]%lift_Ok & H)]%io_bind_run; [by right|].
  by eapply publish_staged_run.
Qed.
Lemma create_private_run disk content path r path' :
  create_private disk content path = (r, path') ->
  written (Some (stage_private content)) path path' (is_ok r) /\ (is_ok r = true -> path = None).
Proof. unfold create_private, written. destruct disk, path; intros [= <- <-]; (split; [simpl; auto|done]). Qed.
Lemma in_context_run {E S A} what (m : io E S A) s r s' :
  in_context what m s = (r, s') -> exists r0, m s = (r0, s') /\ r = context what r0.
Proof. unfold in_context. destruct (m s) as [r0 s0]. intros [= <- <-]. eauto. Qed.

(** * Stable sort *)

Section sort_by.
Context {A : Type} (R : relation A) `{!RelDecision R}.

Fixpoint insert_by (x : A) (l : list A) : list A :=
  match l with
  | [] => [x]
  | y :: l => if decide (R x y) then x :: y :: l else y :: insert_by x l
  end.
(** [slice.sort_by_key]: equal elements keep their order. *)
Definition sort_by (l : list A) : list A := foldr insert_by [] l.

Lemma insert_by_Permutation x l : insert_by x l ≡ₚ x :: l.
Proof using Type.
  induction l as [|y l IH]; simpl; [done|]. case_decide; [done|].
  rewrite IH. apply Permutation_swap.
Qed.
Lemma sort_by_Permutation l : sort_by l ≡ₚ l.
Proof using Type. induction l as [|x l IH]; simpl; [done|]. by rewrite insert_by_Permutation, IH. Qed.
Lemma elem_of_sort_by x l : x ∈ sort_by l <-> x ∈ l.
Proof using Type. by rewrite sort_by_Permutation. Qed.
Lemma length_sort_by l : length (sort_by l) = length l.
Proof using Type. by rewrite sort_by_Permutation. Qed.

Context `{!PreOrder R, !Total R}.

Lemma HdRel_insert_by x y l : R y x -> HdRel R y l -> HdRel R y (insert_by x l).
Proof using Type. intros Hx Hl. destruct l; simpl; [by constructor|]. case_decide; constructor; by inversion Hl. Qed.
Lemma insert_by_Sorted x l : Sorted R l -> Sorted R (insert_by x l).
Proof using Total0.
  induction 1 as [|y l Hl IH Hy]; simpl; [by repeat constructor|]. case_decide as Hd.
  - constructor; [by constructor|by constructor].
  - constructor; [done|]. apply HdRel_insert_by; [|done]. by destruct (total R x y).
Qed.
Lemma sort_by_Sorted l : Sorted R (sort_by l).
Proof using Total0. induction l; simpl; [constructor|by apply insert_by_Sorted]. Qed.

Lemma sort_by_sorted l : Sorted R l -> sort_by l = l.
Proof using Type.
  induction 1 as [|x l Hl IH Hx]; simpl; [done|]. rewrite IH.
  destruct l as [|y l]; simpl; [done|]. rewrite decide_True; [done|by inversion Hx].
Qed.

Lemma Sorted_filter (P : A -> Prop) `{forall x, Decision (P x)} l :
  Sorted R l -> Sorted R (filter P l).
Proof using PreOrder0.
  intros Hl%Sorted_StronglySorted; [|apply _]. apply StronglySorted_Sorted.
  induction Hl as [|x l Hl IH Hx]; [constructor|]. rewrite filter_cons. case_decide; [|done].
  constructor; [done|]. rewrite Forall_forall in *. intros y [_ Hy]%list_elem_of_filter. by apply Hx.
Qed.

(** Sorting commutes with taking elements out. *)
Lemma filter_insert_by (P : A -> Prop) `{forall x, Decision (P x)} x l :
  Sorted R l ->
  filter P (insert_by x l) = if decide (P x) then insert_by x (filter P l) else filter P l.
Proof using PreOrder0.
  induction l as [|y l IH]; intros Hs; cbn [insert_by].
  { rewrite filter_cons. case_decide; done. }
  assert (Sorted R l) as Hl by by inversion Hs. specialize (IH Hl).
  destruct (decide (R x y)) as [Hxy|Hxy].
  - rewrite filter_cons. case_decide as Hx; [|done].
    assert (Forall (R x) (y :: l)) as Hall.
    { constructor; [done|]. apply Sorted_StronglySorted in Hs; [|apply _].
      inversion Hs as [|?? _ Hy]. eapply Forall_impl; [exact Hy|]. intros z Hz. by transitivity y. }
    assert (Forall (R x) (filter P (y :: l))) as Hf
      by (rewrite Forall_forall in *; intros z [_ Hz]%list_elem_of_filter; by apply Hall).
    destruct (filter P (y :: l)) as [|z zs]; simpl; [done|].
    rewrite decide_True; [done|by inversion Hf].
  - rewrite !filter_cons, IH. case_decide as Hy; case_decide as Hx; simpl; try done.
    by rewrite decide_False.
Qed.
Lemma filter_sort_by (P : A -> Prop) `{forall x, Decision (P x)} l :
  filter P (sort_by l) = sort_by (filter P l).
Proof using PreOrder0 Total0.
  induction l as [|x l IH]; [done|]. cbn [sort_by foldr]. fold (sort_by l).
  rewrite filter_insert_by by apply sort_by_Sorted. rewrite filter_cons, IH.
  by case_decide.
Qed.
End sort_by.

(** * Lexicographic keys *)

(** The order of a pair whose first components are compared strictly. *)
Definition lex {A B} (lt : relation A) (le : relation B) (x y : A * B) : Prop :=
  lt x.1 y.1 \/ x.1 = y.1 /\ le x.2 y.2.
#[global] Instance lex_dec {A B} `{!EqDecision A} (lt : relation A) (le : relation B)
  `{!RelDecision lt, !RelDecision le} : RelDecision (lex lt le).
Proof. intros x y. unfold lex. apply _. Defined.
#[global] Instance lex_preorder {A B} (lt : relation A) (le : relation B)
  `{!StrictOrder lt, !PreOrder le} : PreOrder (lex lt le).
Proof.
  split; [by right|]. intros [a b] [a' b'] [a'' b''] [H1|[H1 L1]] [H2|[H2 L2]]; simpl in *; subst;
    [left; by transitivity a'|by left|by left|right; split; [done|by transitivity b']].
Qed.
#[global] Instance lex_total {A B} (lt : relation A) (le : relation B)
  `{!Trichotomy lt, !Total le} : Total (lex lt le).
Proof.
  intros [a b] [a' b']. unfold lex. simpl.
  destruct (trichotomy lt a a') as [|[<-|]]; [by left; left| |by right; left].
  destruct (total le b b'); [left|right]; by right.
Qed.
#[global] Instance lex_strict {A B} (lt : relation A) (le : relation B)
  `{!StrictOrder lt, !StrictOrder le} : StrictOrder (lex lt le).
Proof.
  split; [intros [a b] [H|[_ H]]; exact (irreflexivity _ _ H)|].
  intros [a b] [a' b'] [a'' b''] [H1|[H1 L1]] [H2|[H2 L2]]; simpl in *; subst;
    [left; by transitivity a'|by left|by left|right; split; [done|by transitivity b']].
Qed.

#[global] Instance array_lt_trichotomy {n} : Trichotomy (@array_lt n).
Proof.
  intros a b. destruct (bytes_lt_total (slice a) (slice b)) as [|[H|]]; auto.
  right. left. by apply vec_to_list_inj2.
Qed.
#[global] Instance array_le_preorder {n} : PreOrder (@array_le n).
Proof. split; [intros a|intros a b c]; unfold array_le; [done|apply transitivity]. Qed.
#[global] Instance array_le_total {n} : Total (@array_le n).
Proof. intros a b. apply bytes_le_total. Qed.
#[global] Instance Z_lt_trichotomy : Trichotomy Z.lt.
Proof. intros x y. pose proof (Z.lt_trichotomy x y). tauto. Qed.
#[global] Instance Z_le_total : Total Z.le.
Proof. intros x y. lia. Qed.
