(* ===== verification/NoiseKeys.v ===== *)
(** The private file of a Noise identity ([crates/protocol/src/lib.rs],
    [load_or_create_noise_keypair]): reading it, or creating it and adopting the
    file of another process that was faster. *)
From Stdlib Require Import ZArith Lia.
From S2P Require Import Prelude Bytes External Transport PrivateState.

Definition NOISE_FILE_MAGIC : bytes := byte_string "GCXX1".
Definition NOISE_FILE_LEN : Z := 5 + 32 * 2.

Section noise_keys.
Context `{noise : !Noise}.

(** The closure [decode]; [peer_private] is the key that its validation
    generates. *)
Definition decode_noise_file (peer_private l : bytes) : result ProtocolError NoiseKeypair :=
  reject_if (zlen l <> NOISE_FILE_LEN \/ take 5 l <> NOISE_FILE_MAGIC) (ProtoNoise "invalid Noise identity file") then?
  let? private := ok_or (array_try_from 32 (take 32 (drop 5 l))) (ProtoNoise "panic: validated private-key length") in
  let? public := ok_or (array_try_from 32 (drop 37 l)) (ProtoNoise "panic: validated public-key length") in
  let keypair := {| private := private; public := public |} in
  validate_xx keypair peer_private then?
  Ok keypair.
Definition encode_noise_file (k : NoiseKeypair) : bytes :=
  NOISE_FILE_MAGIC ++ slice (private k) ++ slice (public k).

(** [read] and [adopted] are the entries at the path at the first read and at the
    one after the creation, which [create] says the outcome of; [generated] is
    the key pair of [generate_noise_keypair]. *)
Definition load_or_create_noise_keypair (read : option FileEntry) (peer_private : bytes)
    (generated : result ProtocolError NoiseKeypair) (create : bytes -> result io_error unit)
    (adopted : option FileEntry) : result ProtocolError NoiseKeypair :=
  match read_private read NOISE_FILE_LEN with
  | Ok l => decode_noise_file peer_private l
  | Err NotFound =>
      let? keypair := generated in
      match create (encode_noise_file keypair) with
      | Ok _ => Ok keypair
      | Err AlreadyExists =>
          let? l := map_err (fun _ => ProtoIo) (read_private adopted NOISE_FILE_LEN) in
          decode_noise_file peer_private l
      | Err _ => Err ProtoIo
      end
  | Err _ => Err ProtoIo
  end.

(** The two conversions never panic, and the file holds exactly the key pairs
    that are valid. *)
Theorem noise_file_roundtrip peer l k :
  decode_noise_file peer l = Ok k <-> l = encode_noise_file k /\ validate_xx k peer = Ok tt.
Proof using Type.
  unfold decode_noise_file. rewrite guard_bind. split.
  - intros [Hgood H]. apply not_or_and in Hgood as [Hlen%dec_stable Hmagic%dec_stable].
    apply bind_Ok_inv in H as (private & Hpr%ok_or_Ok%array_try_from_Some & H).
    apply bind_Ok_inv in H as (public & Hpu%ok_or_Ok%array_try_from_Some & H).
    rewrite unit_bind in H. destruct H as [Hv [= <-]]. split; [|done]. unfold encode_noise_file.
    cbn [Transport.private Transport.public]. rewrite <-Hmagic, <-Hpr, <-Hpu.
    rewrite <-(take_drop 5 l) at 1. f_equal. rewrite <-(take_drop 32 (drop 5 l)) at 1. by rewrite drop_drop.
  - intros [-> Hv]. destruct k as [pr pu]. unfold encode_noise_file. cbn [private public] in *.
    assert (forall n (v : array n), length (slice v) = n) as Hslice.
    { intros n v. apply (array_try_from_is_Some n). exists v. by apply array_try_from_Some. }
    assert (length NOISE_FILE_MAGIC = 5%nat) as Hm by done.
    split.
    + intros [Hl|Ht]; [|by rewrite take_app_length' in Ht].
      apply Hl. unfold zlen. by rewrite !length_app, !Hslice.
    + rewrite (drop_app_length' _ _ 5), take_app_length' by (rewrite ?Hslice; done).
      replace (drop 37 _) with (slice pu).
      2: { rewrite app_assoc, drop_app_length'; [done|]. by rewrite length_app, Hslice. }
      rewrite !array_try_from_slice. cbn [ok_or mbind result_bind]. by rewrite Hv.
Qed.
End noise_keys.
