(* ===== verification/Pki.v ===== *)
(** The offline credential authority of [crates/relay/src/native_pki.rs]: the
    files that its commands read and create, on the authority of
    [Credential].

    A command works on entries of directories: what it reads at a path, and
    what it leaves there, which the disk outcome of its write decides with it.
    Commands that create a file fail when there is one. *)
From Stdlib Require Import ZArith Lia.
From S2P Require Import Prelude Bytes RustStr External Toy Identity Credential PrivateState.

Definition MAX_MATERIAL_BYTES : Z := 4 * 1024 * 1024.
Definition MAX_AUTHORITY_FILE_LEN : Z := 128.
Definition DAY_MS : Z := 24 * 60 * 60 * 1000.

(** [i64::checked_mul] *)
Definition i64_checked_mul (a b : Z) : option Z := if decide (i64_ok (a * b)) then Some (a * b) else None.
(** [days] is a [u32]. *)
Definition duration_ms (days : Z) : result string Z :=
  match i64_checked_mul days DAY_MS with
  | Some duration =>
      if decide (duration > 0) then Ok duration else Err "validity days must be positive and bounded"
  | None => Err "validity days must be positive and bounded"
  end.
(** [now.checked_add(duration_ms(days)?)] *)
Definition expiry (now days : Z) (what : string) : result string Z :=
  let? duration := duration_ms days in ok_or (i64_checked_add now duration) what.

Section pki.
Context `{crypto : !Crypto}.
Context `{!Postcard CertificateAuthorityPublic, !Postcard (Z * array 32)}.
Context `{!Postcard IdentityPublic, !Postcard CredentialRequestBody, !Postcard CredentialRequest}.
Context `{!Postcard NativeCredentialBody, !Postcard NativeCredential}.
Context `{!Postcard RevocationListBody, !Postcard RevocationList}.

Definition load_certificate_authority (path : option FileEntry) : result string CertificateAuthoritySecret :=
  let? content := context "I/O" (read_private path MAX_AUTHORITY_FILE_LEN) in
  context "credential" (authority_secret_decode content).
Definition load_public (path : option FileEntry) : result string CertificateAuthorityPublic :=
  let? content := context "I/O" (read_private path MAX_MATERIAL_BYTES) in
  context "credential" (authority_decode content).
Definition load_request (path : option FileEntry) : result string CredentialRequest :=
  let? content := context "I/O" (read_private path MAX_MATERIAL_BYTES) in
  context "credential" (request_decode content).
Definition load_credential (path : option FileEntry) : result string NativeCredential :=
  let? content := context "I/O" (read_private path MAX_MATERIAL_BYTES) in
  context "credential" (credential_decode content).

(** [create_certificate_authority]; [None] when the entropy source is exhausted. *)
Definition create_certificate_authority (disk : disk_outcome) (draws : list (array 32)) :
    option (io string (option FileEntry) CertificateAuthorityPublic) :=
  ca ← authority_generate draws;
  Some (
    let? content := lift (context "credential" (authority_secret_encode ca)) in
    in_context "I/O" (create_private disk content) then?
    mret (authority_public ca)).
(** [PkiCommand::CreateCa]: the two paths afterwards.  The authority is written
    before its public part, and stays when that fails. *)
Definition create_ca (disk disk_public : disk_outcome) (authority public : option FileEntry)
    (draws : list (array 32)) :
    option (result string (array 32) * (option FileEntry * option FileEntry)) :=
  create ← create_certificate_authority disk draws;
  let '(r, authority) := create authority in
  Some (match r with
        | Err e => (Err e, (authority, public))
        | Ok public_key =>
            let '(r, public) :=
              (let? content := lift (context "credential" (authority_encode public_key)) in
               in_context "I/O" (create_private disk_public content)) public in
            (r then? context "credential" (authority_id public_key), (authority, public))
        end).

(** [PkiCommand::Issue], on the path of the credential. *)
Definition issue_command (disk : disk_outcome) (authority request : option FileEntry) (days now : Z)
    (draws : list (array 16)) (output : option FileEntry) :
    option (result string unit * option FileEntry) :=
  match
    let? ca := load_certificate_authority authority in
    let? r := load_request request in
    let? duration := duration_ms days in
    context "credential" (request_verify r now duration) then?
    let? until := expiry now days "credential expiry overflows" in
    Ok (ca, r, duration, until)
  with
  | Err e => Some (Err e, output)
  | Ok (ca, r, duration, until) =>
      issued ← issue ca r now until duration draws;
      Some ((
        let? credential := lift (context "credential" issued) in
        let? content := lift (context "credential" (credential_encode credential)) in
        in_context "I/O" (create_private disk content)) output)
  end.

(** [PkiCommand::Revoke], on the path of the list. *)
Definition revoke_command (disk : disk_outcome) (authority : option FileEntry) (days now : Z)
    (credentials : list (option FileEntry)) : io string (option FileEntry) unit :=
  let? ca := lift (load_certificate_authority authority) in
  let? revoked := lift (mapR load_credential credentials) in
  let? until := lift (expiry now days "revocation expiry overflows") in
  let? list := lift (context "credential"
    (sign_revocations ca now until ((fun c => serial (cred_body c)) <$> revoked))) in
  let? content := lift (context "credential" (revocation_encode list)) in
  in_context "I/O" (create_private disk content).

(** [PkiCommand::Show] prints the identifier and the key in hex. *)
Definition show (public : option FileEntry) : result string (array 32 * array 32) :=
  let? authority := load_public public in
  let? id := context "credential" (authority_id authority) in
  Ok (id, ca_signing_key authority).

(** * What the commands leave *)

Lemma expiry_Ok now days what until :
  expiry now days what = Ok until -> exists duration, duration_ms days = Ok duration /\
    until = now + duration /\ 0 < duration.
Proof.
  unfold expiry. intros H. apply bind_Ok_inv in H as (duration & Hd & H%ok_or_Ok). exists duration.
  split; [done|]. split; [unfold i64_checked_add in H; case_decide; congruence|].
  unfold duration_ms in Hd. repeat case_match; simplify_eq. lia.
Qed.

(** The file that a command leaves where there was none, whatever it reports. *)
Lemma created_file disk content r e :
  in_context "I/O" (create_private disk content) None = (r, Some e) -> e = stage_private content.
Proof.
  intros (r0 & H & _)%in_context_run. by apply create_private_run in H as [[[= ->]|[[=] _]] _].
Qed.

(** The file that revokes credentials holds a list of their serials, signed by
    the authority and good for the days that were asked for. *)
Lemma revoke_command_Ok `{crypto_laws : !CryptoLaws} disk authority days now credentials r e :
  revoke_command disk authority days now credentials None = (r, Some e) ->
  exists ca list revoked duration,
    load_certificate_authority authority = Ok ca /\ mapR load_credential credentials = Ok revoked /\
    revocation_encode list = Ok (fe_content e) /\ fe_kind e = RegularFile /\
    serials (crl_body list) ≡ₚ (fun c => serial (cred_body c)) <$> revoked /\
    duration_ms days = Ok duration /\
    forall at_ms, now <= at_ms < now + duration -> revocations_accepted list (authority_public ca) at_ms.
Proof.
  unfold revoke_command. intros H.
  apply io_bind_run in H as [(? & [=] & _)|(ca & ? & [Hca ->]%lift_Ok & H)].
  apply io_bind_run in H as [(? & [=] & _)|(revoked & ? & [Hr ->]%lift_Ok & H)].
  apply io_bind_run in H as [(? & [=] & _)|(until & ? & [Hu ->]%lift_Ok & H)].
  apply io_bind_run in H as [(? & [=] & _)|(list & ? & [Hl%context_Ok ->]%lift_Ok & H)].
  apply io_bind_run in H as [(? & [=] & _)|(content & ? & [Hc%context_Ok ->]%lift_Ok & Hf)].
  apply created_file in Hf as ->. apply expiry_Ok in Hu as (duration & Hd & -> & _).
  apply sign_revocations_Ok in Hl as (Hperm & _ & _ & Hacc). exists ca, list, revoked, duration. by split_and!.
Qed.

(** The file that [issue_command] leaves holds a credential for the request that
    its authority signed. *)
Lemma issue_command_Ok disk authority request days now draws reported e :
  issue_command disk authority request days now draws None = Some (reported, Some e) ->
  exists ca r duration c, load_certificate_authority authority = Ok ca /\ load_request request = Ok r /\
    duration_ms days = Ok duration /\ issue ca r now (now + duration) duration draws = Some (Ok c) /\
    credential_encode c = Ok (fe_content e) /\ fe_kind e = RegularFile.
Proof.
  unfold issue_command. destruct (_ : result string _) as [[[[ca r] duration] until]|] eqn:E; [|done].
  intros (issued & Hi & H)%bind_Some. injection H as H.
  apply io_bind_run in H as [(? & [=] & _)|(c & ? & [->%context_Ok ->]%lift_Ok & H)].
  apply io_bind_run in H as [(? & [=] & _)|(content & ? & [Hc%context_Ok ->]%lift_Ok & Hf)].
  apply created_file in Hf as ->.
  apply bind_Ok_inv in E as (ca' & Hca & E). apply bind_Ok_inv in E as (r' & Hr & E).
  apply bind_Ok_inv in E as (d & Hd & E). rewrite unit_bind in E. destruct E as [_ E].
  apply bind_Ok_inv in E as (u & Hu & E). injection E as [= <- <- <- <-].
  apply expiry_Ok in Hu as (d' & Hd' & -> & _). rewrite Hd in Hd'. injection Hd' as [= <-].
  exists ca', r', d, c. by split_and!.
Qed.
End pki.
