(* ===== verification/Runtime.v ===== *)
(** The relay's process ([crates/relay/src/native_runtime.rs]) and the search
    for configuration files ([crates/protocol/src/config_path.rs]): which file
    is read, the checks of the configuration, the admission policy at the start,
    and the tasks that reload the revocation list and enforce the retention.

    The file system is what it shows when it is looked at: the entry at a path,
    and whether a path leads to a file.  Parsing TOML is a parameter. *)
From Stdlib Require Import ZArith Lia.
From S2P Require Import Prelude Bytes RustStr External Toy Identity Credential Native Envelope.
From S2P Require Import Transport Pairing Codecs Wire Access NativeTables NativeStore PairingStore Service.
From S2P Require Import StoreQuota PrivateState Pki.

(** * Configuration files *)

Inductive ConfigSource : Type := Explicit (path : rstring) | Discovered (path : rstring) | Defaults.
Definition source_path (s : ConfigSource) : option rstring :=
  match s with Explicit path | Discovered path => Some path | Defaults => None end.
Definition must_exist (s : ConfigSource) : bool := match s with Defaults => false | _ => true end.

(** [Path::is_absolute] and [Path::join]. *)
Definition is_absolute (path : rstring) : Prop := head path = Some 47.
#[global] Instance is_absolute_dec path : Decision (is_absolute path).
Proof. unfold is_absolute. apply _. Defined.
Definition path_join (base name : rstring) : rstring :=
  if decide (is_absolute name) then name
  else if decide (base = [] \/ last base = Some 47) then base ++ name else base ++ [47] ++ name.
Definition SYSTEM_CONFIG_DIR : rstring := ascii_str "/etc/glacialcast".

(** What the environment says of XDG_CONFIG_HOME and HOME. *)
Definition user_config_dir (xdg_config_home home : option rstring) : option rstring :=
  let absolute o := match o with Some p => if decide (is_absolute p) then Some p else None | None => None end in
  let base := match absolute xdg_config_home with
              | Some p => Some p
              | None => (fun h => path_join h (ascii_str ".config")) <$> absolute home
              end in
  (fun b => path_join b (ascii_str "glacialcast")) <$> base.

(** What the file system shows. *)
Record Files : Type := {
  entry_at : rstring -> option FileEntry;
  is_file : rstring -> bool;
  path_exists : rstring -> bool;
}.

Definition search_paths_from (user_dir : option rstring) (file_name : rstring) : list rstring :=
  match user_dir with Some user => [path_join user file_name] | None => [] end ++
  [path_join SYSTEM_CONFIG_DIR file_name; file_name].
Definition resolve_from (files : Files) (user_dir explicit : option rstring) (file_name : rstring) : ConfigSource :=
  match explicit with
  | Some path => Explicit path
  | None =>
      match list_find (fun candidate => is_file files candidate = true) (search_paths_from user_dir file_name) with
      | Some (_, path) => Discovered path
      | None => Defaults
      end
  end.

(** * The relay's configuration *)

Definition MAX_PUBLIC_MATERIAL_BYTES : Z := 4 * 1024 * 1024.
Definition MAX_CONNECTIONS : Z := 65536.
Definition DEFAULT_RETENTION_BYTES : Z := 100 * 1024 * 1024.
Definition DEFAULT_RETENTION_SECONDS : Z := 24 * 60 * 60.
Definition SECOND_NS : Z := 1000000000.

Record LimitConfig : Type := {
  lc_max_connections : Z;
  lc_handshake_seconds : Z;
  lc_idle_seconds : Z;
  lc_live_channel_items : Z;
  lc_store : NativeStoreLimits;
}.
Definition default_limit_config : LimitConfig := {|
  lc_max_connections := max_connections default_service_limits;
  lc_handshake_seconds := handshake_timeout default_service_limits / SECOND_NS;
  lc_idle_seconds := idle_timeout default_service_limits / SECOND_NS;
  lc_live_channel_items := live_channel_capacity default_service_limits;
  lc_store := default_limits |}.
Inductive AccessConfig : Type :=
| ConfigPublic
| ConfigSigned (authority_file : rstring) (revocations_file : option rstring).
Record NativeConfig : Type := {
  nc_publisher : rstring;
  nc_viewer : rstring;
  nc_bytes_per_stream : option Z;
  nc_seconds_per_stream : option Z;
  nc_access : AccessConfig;
  nc_limits : LimitConfig;
}.
Definition default_config : NativeConfig := {|
  nc_publisher := ascii_str "0.0.0.0:8900"; nc_viewer := ascii_str "0.0.0.0:8899";
  nc_bytes_per_stream := Some DEFAULT_RETENTION_BYTES;
  nc_seconds_per_stream := Some DEFAULT_RETENTION_SECONDS;
  nc_access := ConfigPublic; nc_limits := default_limit_config |}.

(** Opening does not follow a final symbolic link. *)
Definition read_bounded (path : option FileEntry) (max_len : Z) (require_private : bool) : result string bytes :=
  match path with
  | None => Err "opening"
  | Some e =>
      reject_if (fe_kind e = SymbolicLink) "opening" then?
      reject_if (fe_kind e <> RegularFile \/ zlen (fe_content e) > max_len) "is not a bounded regular file" then?
      reject_if (require_private = true /\ Z.land (fe_mode e) 63 <> 0) "must have mode 0600" then?
      Ok (fe_content e)
  end.

(** Parsing a configuration: UTF-8 and TOML. *)
Class Toml : Type := { parse_config : bytes -> result string NativeConfig }.

Section config.
Context `{toml : !Toml}.

Definition load_config (files : Files) (source : ConfigSource) : result string NativeConfig :=
  match source_path source with
  | None => Ok default_config
  | Some path =>
      reject_if (must_exist source = true /\ path_exists files path = false) "relay config does not exist" then?
      if decide (path_exists files path = false) then Ok default_config
      else
        let? raw := read_bounded (entry_at files path) (1024 * 1024) true in
        context "parsing relay config" (parse_config raw)
  end.
End config.

(** * The checks of [serve] *)

Record RelayArgs : Type := {
  ra_config : option rstring;
  ra_no_config : bool;
  ra_publisher_addr : option rstring;
  ra_viewer_addr : option rstring;
  ra_retention_bytes : option Z;
  ra_retention_seconds : option Z;
}.
Definition or_else {A} (a b : option A) : option A := match a with Some x => Some x | None => b end.

(** What [serve] starts with: addresses, retention and limits. *)
Record ServePlan : Type := {
  sp_publisher_addr : rstring;
  sp_viewer_addr : rstring;
  sp_retention_bytes : option Z;
  sp_retention_age : option Z;
  sp_limits : LimitConfig;
  sp_access : AccessConfig;
}.
Definition limits_rejected (l : LimitConfig) : Prop :=
  let s := lc_store l in
  lc_max_connections l = 0 \/ lc_max_connections l > MAX_CONNECTIONS \/
  lc_handshake_seconds l = 0 \/ lc_idle_seconds l = 0 \/
  lc_handshake_seconds l > 300 \/ lc_idle_seconds l > 3600 \/
  lc_live_channel_items l = 0 \/ lc_live_channel_items l > 4096 \/
  max_streams s = 0 \/ max_streams_per_publisher s = 0 \/ max_streams_per_publisher s > max_streams s \/
  max_objects_per_group s = 0 \/ max_group_bytes s = 0 \/ max_envelopes_per_group s = 0 \/
  max_total_bytes s = 0 \/ max_publisher_bytes s = 0 \/ max_publisher_bytes s > max_total_bytes s.
#[global] Instance limits_rejected_dec l : Decision (limits_rejected l).
Proof. unfold limits_rejected. apply _. Defined.
Definition serve_plan (args : RelayArgs) (config : NativeConfig) : result string ServePlan :=
  let retention_bytes := or_else (ra_retention_bytes args) (nc_bytes_per_stream config) in
  let retention_age := (fun s => s * SECOND_NS) <$>
    or_else (ra_retention_seconds args) (nc_seconds_per_stream config) in
  reject_if (retention_bytes = Some 0 \/ retention_age = Some 0)
    "retention limits must be positive or omitted" then?
  reject_if (limits_rejected (nc_limits config))
    "limits require positive, internally consistent connection, timeout, stream, group, envelope, and byte bounds" then?
  Ok {| sp_publisher_addr := default (nc_publisher config) (ra_publisher_addr args);
        sp_viewer_addr := default (nc_viewer config) (ra_viewer_addr args);
        sp_retention_bytes := retention_bytes; sp_retention_age := retention_age;
        sp_limits := nc_limits config; sp_access := nc_access config |}.
Definition service_limits (l : LimitConfig) : NativeServiceLimits := {|
  max_connections := lc_max_connections l;
  handshake_timeout := lc_handshake_seconds l * SECOND_NS;
  idle_timeout := lc_idle_seconds l * SECOND_NS;
  live_channel_capacity := lc_live_channel_items l |}.

(** * The admission policy *)

Section access.
Context `{crypto : !Crypto}.
Context `{!Postcard CertificateAuthorityPublic, !Postcard RevocationListBody, !Postcard RevocationList}.

Definition load_revocations (path : option FileEntry) : result string RevocationList :=
  let? content := read_bounded path MAX_PUBLIC_MATERIAL_BYTES false in
  context "credential" (revocation_decode content).
Definition load_access (files : Files) (now_ms : Z) (config : AccessConfig) : result string NativeAccessPolicy :=
  match config with
  | ConfigPublic => Ok Public
  | ConfigSigned authority_file revocations_file =>
      let? content := read_bounded (entry_at files authority_file) MAX_PUBLIC_MATERIAL_BYTES false in
      let? authority := context "credential" (authority_decode content) in
      let? revocations := opt_traverse (fun path => load_revocations (entry_at files path)) revocations_file in
      match revocations with
      | Some list => context "credential" (revocation_verify_at list authority now_ms)
      | None => Ok tt
      end then?
      Ok (Signed authority revocations)
  end.

(** [run_access_reload]: its locals and the policy.  The error that was last
    logged stands for its text. *)
Record Reloader : Type := {
  rl_policy : NativeAccessPolicy;
  rl_last_bytes : option bytes;
  rl_last_error : option string;
}.
Definition reloader_new (policy : NativeAccessPolicy) : Reloader :=
  {| rl_policy := policy; rl_last_bytes := None; rl_last_error := None |}.
(** What a tick finds: new bytes and the policy that they give, or nothing new. *)
Definition reload_attempt (path : option FileEntry) (now_ms : Z) (s : Reloader) :
    result string (option (bytes * NativeAccessPolicy)) :=
  let? content := read_bounded path MAX_PUBLIC_MATERIAL_BYTES false in
  if decide (rl_last_bytes s = Some content) then Ok None
  else
    let? list := context "credential" (revocation_decode content) in
    let? policy := context "access" (replace_revocations (rl_policy s) (Some list) now_ms) in
    Ok (Some (content, policy)).
(** A tick, and whether it logs. *)
Definition reload_tick (path : option FileEntry) (now_ms : Z) (s : Reloader) : bool * Reloader :=
  match reload_attempt path now_ms s with
  | Ok (Some (content, policy)) =>
      (true, {| rl_policy := policy; rl_last_bytes := Some content; rl_last_error := None |})
  | Ok None => (false, s)
  | Err detail =>
      if decide (rl_last_error s = Some detail) then (false, s)
      else (true, {| rl_policy := rl_policy s; rl_last_bytes := rl_last_bytes s; rl_last_error := Some detail |})
  end.
(** A tick sees the entry at the path, and its time. *)
Fixpoint reload_run (ticks : list (option FileEntry * Z)) (s : Reloader) : Reloader :=
  match ticks with
  | [] => s
  | (path, now_ms) :: ticks => reload_run ticks (reload_tick path now_ms s).2
  end.
End access.

(** [run_retention]: a tick enforces the retention; its first error ends it. *)
Fixpoint retention_run (cfg : StoreConfig) (instants : list Z) (db : Db) : result string Db :=
  match instants with
  | [] => Ok db
  | now_ms :: instants => let? (_, db) := enforce_retention_at cfg db now_ms in retention_run cfg instants db
  end.

(** [serve] up to its listeners, on the database of the store and the mailbox;
    [noise] is the outcome of checking the Noise identity. *)
Section serve.
Context `{crypto : !Crypto, toml : !Toml}.
Context `{!Postcard CertificateAuthorityPublic, !Postcard RevocationListBody, !Postcard RevocationList}.

Definition serve (args : RelayArgs) (files : Files) (user_dir : option rstring) (now_ms : Z)
    (db : Db) (pairing : PairDb) (noise : result ProtocolError unit) :
    result string (ServePlan * StoreConfig * Shared) :=
  let source := if ra_no_config args then Defaults
                else resolve_from files user_dir (ra_config args) (ascii_str "relay.toml") in
  let? config := load_config files source in
  let? plan := serve_plan args config in
  let? access := load_access files now_ms (sp_access plan) in
  let? store := open_with_limits (sp_retention_bytes plan) (sp_retention_age plan) (lc_store (sp_limits plan)) in
  let? shared := new_with_limits db pairing access noise (service_limits (sp_limits plan)) in
  Ok (plan, store, shared).
End serve.
