(* ===== verification/RuntimeInv.v ===== *)
(** The relay's process, proved: a checked configuration never fails later, a
    reload never installs what was not verified, and a credential that the
    authority revokes is cut off. *)
From Stdlib Require Import ZArith Lia.
From S2P Require Import Prelude Bytes RustStr External Toy Identity Credential Native Envelope.
From S2P Require Import Transport Pairing Codecs Wire Access NativeTables NativeStore PairingStore Service.
From S2P Require Import StoreQuota PrivateState Pki Runtime SessionSafety.

(** * The configuration *)

(** The checks of [serve] are at least those of the store and of the service, so
    that neither refuses what it starts. *)
Lemma serve_plan_suffices args config plan db pairing access :
  serve_plan args config = Ok plan ->
  is_ok (open_with_limits (sp_retention_bytes plan) (sp_retention_age plan) (lc_store (sp_limits plan))) = true /\
  is_ok (new_with_limits db pairing access (Ok tt) (service_limits (sp_limits plan))) = true.
Proof.
  unfold serve_plan. rewrite !guard_bind. intros (Hr & Hl & [= <-]). cbn [sp_retention_bytes sp_retention_age sp_limits].
  unfold limits_rejected in Hl. split.
  - unfold open_with_limits. rewrite !reject_if_false by tauto. done.
  - unfold new_with_limits. cbn [max_connections handshake_timeout idle_timeout live_channel_capacity service_limits].
    rewrite reject_if_false; [done|]. unfold SECOND_NS. lia.
Qed.
(** The built-in configuration passes. *)
Example default_config_serves :
  is_ok (serve_plan {| ra_config := None; ra_no_config := true; ra_publisher_addr := None;
    ra_viewer_addr := None; ra_retention_bytes := None; ra_retention_seconds := None |} default_config) = true.
Proof. vm_compute. reflexivity. Qed.

(** A relative user directory is never searched, and the user's file comes
    before the system's, which comes before that of the working directory. *)
Lemma search_order user_dir file_name :
  exists prefix, search_paths_from user_dir file_name =
    prefix ++ [path_join SYSTEM_CONFIG_DIR file_name; file_name] /\
    (prefix = [] <-> user_dir = None).
Proof. destruct user_dir; eexists; (split; [reflexivity|]); by split. Qed.

Section reload.
Context `{crypto : !Crypto, codecs : !Codecs}.
Context (authority : CertificateAuthorityPublic).

(** What an entry installs at a time: its content and the list in it. *)
Definition installs (path : option FileEntry) (now_ms : Z) (content : bytes) (list : RevocationList) : Prop :=
  read_bounded path MAX_PUBLIC_MATERIAL_BYTES false = Ok content /\
  revocation_decode content = Ok list /\ revocations_accepted list authority now_ms.

(** A signed policy; the bytes that were last installed are those in force. *)
Record reloader_ok (s : Reloader) : Prop := {
  ro_signed : exists revocations, rl_policy s = Signed authority revocations;
  ro_last content : rl_last_bytes s = Some content ->
    exists list, revocation_decode content = Ok list /\ rl_policy s = Signed authority (Some list);
}.
(** The list in force has an origin. *)
Definition verified (from : option FileEntry -> Z -> Prop) (s : Reloader) : Prop :=
  forall list, rl_policy s = Signed authority (Some list) ->
    exists path now_ms content, from path now_ms /\ installs path now_ms content list.

Lemma reload_attempt_Ok path now_ms s content policy revocations :
  rl_policy s = Signed authority revocations ->
  reload_attempt path now_ms s = Ok (Some (content, policy)) ->
  exists list, installs path now_ms content list /\ policy = Signed authority (Some list).
Proof.
  unfold reload_attempt. intros Hp H. apply bind_Ok_inv in H as (content' & Hc & H). case_decide; [done|].
  apply bind_Ok_inv in H as (list & Hl%context_Ok & H). apply bind_Ok_inv in H as (policy' & Hr%context_Ok & H).
  injection H as [= <- <-]. rewrite Hp in Hr. unfold replace_revocations in Hr. cbn [opt_traverse] in Hr.
  apply bind_Ok_inv in Hr as (x & Hv & [= <-]). apply fmap_Ok_inv in Hv as ([] & Hv%map_err_Ok & _).
  apply revocation_verify_at_Ok in Hv. exists list. by split.
Qed.

(** What a tick does. *)
Lemma reload_tick_cases path now_ms s :
  reloader_ok s ->
  (exists content list, installs path now_ms content list /\
     (reload_tick path now_ms s).2 =
       {| rl_policy := Signed authority (Some list); rl_last_bytes := Some content; rl_last_error := None |}) \/
  (rl_policy (reload_tick path now_ms s).2 = rl_policy s /\
   rl_last_bytes (reload_tick path now_ms s).2 = rl_last_bytes s).
Proof.
  intros [[revs Hs] _]. unfold reload_tick.
  destruct (reload_attempt path now_ms s) as [[[content policy]|]|e] eqn:E; [|by right|right; by case_decide].
  left. eapply reload_attempt_Ok in E as (list & Hi & ->); [|exact Hs]. by exists content, list.
Qed.
Lemma reload_tick_ok path now_ms s : reloader_ok s -> reloader_ok (reload_tick path now_ms s).2.
Proof.
  intros Hok. destruct (reload_tick_cases path now_ms s Hok) as [(content & list & Hi & ->)|[Hp Hb]].
  - split; simpl; [by eexists|]. intros ? [= <-]. exists list. split; [by apply Hi|done].
  - destruct Hok as [Hs Hl]. split; rewrite ?Hp, ?Hb; done.
Qed.
Lemma reload_run_ok ticks s : reloader_ok s -> reloader_ok (reload_run ticks s).
Proof.
  revert s. induction ticks as [|[path now] ticks IH]; intros s Hs; [done|]. simpl. apply IH. by apply reload_tick_ok.
Qed.
Lemma reload_run_verified from ticks s :
  reloader_ok s -> verified from s -> Forall (fun x => from x.1 x.2) ticks -> verified from (reload_run ticks s).
Proof.
  intros Hok Hs Ht. revert s Hok Hs. induction Ht as [|[path now] ticks Hx _ IH]; intros s Hok Hs; [done|].
  simpl. apply IH; [by apply reload_tick_ok|]. intros l Hl.
  destruct (reload_tick_cases path now s Hok) as [(content & list & Hi & E)|[Hp _]].
  - rewrite E in Hl. injection Hl as [= <-]. by exists path, now, content.
  - apply Hs. congruence.
Qed.
Lemma reload_run_app a b s : reload_run (a ++ b) s = reload_run b (reload_run a s).
Proof. revert s. induction a as [|[path now] a IH]; intros s; [done|]. simpl. apply IH. Qed.

(** A tick that sees a valid list leaves it in force. *)
Lemma reload_tick_installs path now_ms s content list :
  reloader_ok s -> installs path now_ms content list ->
  rl_policy (reload_tick path now_ms s).2 = Signed authority (Some list) /\
  rl_last_bytes (reload_tick path now_ms s).2 = Some content.
Proof.
  intros [[revs Hs] Hl] (Hc & Hd & Hv). unfold reload_tick, reload_attempt. rewrite Hc. cbn [mbind result_bind].
  case_decide as E.
  - destruct (Hl _ E) as (list' & Hd' & Hp). simpl. split; [|done]. congruence.
  - rewrite Hd. cbn [context map_err mbind result_bind]. unfold replace_revocations. rewrite Hs. cbn [opt_traverse].
    apply revocation_verify_at_Ok in Hv. rewrite Hv. done.
Qed.
(** A tick that sees none, or the same bytes, changes nothing. *)
Lemma reload_tick_keeps path now_ms s revocations content :
  rl_policy s = Signed authority revocations -> rl_last_bytes s = Some content ->
  (forall c list, installs path now_ms c list -> c = content) ->
  rl_policy (reload_tick path now_ms s).2 = rl_policy s /\
  rl_last_bytes (reload_tick path now_ms s).2 = rl_last_bytes s.
Proof.
  intros Hs Hl Hno. unfold reload_tick.
  destruct (reload_attempt path now_ms s) as [[[c policy]|]|e] eqn:E; [|done|by case_decide].
  exfalso. pose proof E as E'. eapply reload_attempt_Ok in E' as (list & Hi & _); [|exact Hs].
  pose proof (Hno _ _ Hi) as ->. unfold reload_attempt in E. destruct Hi as [Hc _]. rewrite Hc in E.
  cbn [mbind result_bind] in E. by rewrite decide_True in E by done.
Qed.
Lemma reload_run_keeps ticks s revocations content :
  rl_policy s = Signed authority revocations -> rl_last_bytes s = Some content ->
  Forall (fun x => forall c list, installs x.1 x.2 c list -> c = content) ticks ->
  rl_policy (reload_run ticks s) = rl_policy s.
Proof.
  intros Hs Hl Ht. revert s Hs Hl. induction Ht as [|[path now] ticks Hx _ IH]; intros s Hs Hl; [done|].
  simpl. destruct (reload_tick_keeps path now s revocations content Hs Hl Hx) as [Hp Hb].
  rewrite IH; [done|congruence|congruence].
Qed.
End reload.

Section policy.
Context `{crypto : !Crypto, codecs : !Codecs}.

Lemma load_access_ok files now_ms authority_file revocations_file policy :
  load_access files now_ms (ConfigSigned authority_file revocations_file) = Ok policy ->
  exists authority content revocations, policy = Signed authority revocations /\
    read_bounded (entry_at files authority_file) MAX_PUBLIC_MATERIAL_BYTES false = Ok content /\
    authority_decode content = Ok authority /\
    (revocations = None <-> revocations_file = None) /\
    forall path list, revocations_file = Some path -> revocations = Some list ->
      exists c, installs authority (entry_at files path) now_ms c list.
Proof.
  unfold load_access. intros H. apply bind_Ok_inv in H as (content & Hc & H).
  apply bind_Ok_inv in H as (authority & Ha%context_Ok & H). apply bind_Ok_inv in H as (revocations & Hr & H).
  rewrite unit_bind in H. destruct H as [Hv [= <-]]. exists authority, content, revocations.
  destruct revocations_file as [path|]; simpl in Hr.
  - apply fmap_Ok_inv in Hr as (list & Hl & <-). split_and!; try done. intros path' list' [= <-] [= <-].
    unfold load_revocations in Hl. apply bind_Ok_inv in Hl as (c & Hc' & Hd%context_Ok).
    apply context_Ok, revocation_verify_at_Ok in Hv. exists c. by split.
  - injection Hr as [= <-]. split_and!; done.
Qed.

(** C23: reloading never weakens the admission: whatever the files show at the
    ticks, a signed relay that was started with a revocation list always has one,
    under its authority; the list in force was in the file at the start or at a
    tick and was verified at that instant, whatever comes later that is missing,
    oversized, malformed, expired or signed by another authority is ignored, and
    a valid list is in force from the first tick that sees it. *)
Theorem reload_keeps_verified files started_at authority_file path policy ticks :
  load_access files started_at (ConfigSigned authority_file (Some path)) = Ok policy ->
  exists authority,
    (exists content, read_bounded (entry_at files authority_file) MAX_PUBLIC_MATERIAL_BYTES false = Ok content /\
       authority_decode content = Ok authority) /\
    (exists list e at_ms content,
       rl_policy (reload_run ticks (reloader_new policy)) = Signed authority (Some list) /\
       (e, at_ms) ∈ (entry_at files path, started_at) :: ticks /\ installs authority e at_ms content list) /\
    (forall before e at_ms content list, ticks = before ++ [(e, at_ms)] -> installs authority e at_ms content list ->
       rl_policy (reload_run ticks (reloader_new policy)) = Signed authority (Some list)) /\
    (forall before e at_ms, ticks = before ++ [(e, at_ms)] ->
       (forall content list, ~ installs authority e at_ms content list) ->
       rl_policy (reload_run ticks (reloader_new policy)) = rl_policy (reload_run before (reloader_new policy))).
Proof.
  intros (authority & content & revs & -> & Hc & Ha & Hnone & Hrevs)%load_access_ok. exists authority.
  split; [by exists content|].
  destruct revs as [list|]; [|destruct Hnone as [Hn _]; specialize (Hn eq_refl); discriminate].
  set (from e at_ms := (e, at_ms) ∈ (entry_at files path, started_at) :: ticks).
  assert (forall ts, reloader_ok authority (reload_run ts (reloader_new (Signed authority (Some list))))) as Hok.
  { intros ts. apply reload_run_ok. split; [by eexists|done]. }
  assert (forall ts s, reloader_ok authority s -> (exists l, rl_policy s = Signed authority (Some l)) ->
    exists l, rl_policy (reload_run ts s) = Signed authority (Some l)) as Hsome.
  { clear. intros ts. induction ts as [|[e at_ms] ts IH]; intros s Hok [l Hl]; [by exists l|]. simpl.
    apply IH; [by apply reload_tick_ok|].
    destruct (reload_tick_cases authority e at_ms s Hok) as [(c & l' & _ & ->)|[-> _]]; [by exists l'|by exists l]. }
  split; [|split].
  - destruct (Hsome ticks (reloader_new (Signed authority (Some list)))) as [l Hl];
      [apply (Hok [])|by exists list|].
    destruct (reload_run_verified authority from ticks (reloader_new (Signed authority (Some list))) (Hok []))
      with (list := l) as (e & at_ms & c & Hin & Hi); [| |done|by exists l, e, at_ms, c].
    + intros l' [= <-]. destruct (Hrevs path list eq_refl eq_refl) as [c Hi].
      exists (entry_at files path), started_at, c. split; [by left|done].
    + apply Forall_forall. intros [e at_ms] Hin. by right.
  - intros before e at_ms c l -> Hi. rewrite reload_run_app. simpl. by apply (reload_tick_installs authority) with c.
  - intros before e at_ms -> Hno. rewrite reload_run_app. simpl.
    destruct (reload_tick_cases authority e at_ms _ (Hok before)) as [(c & l & Hi & _)|[-> _]]; [by apply Hno in Hi|done].
Qed.
End policy.

(** * Revocation *)

Section revocation.
Context `{crypto : !Crypto, crypto_laws : !CryptoLaws, addrs : !SocketAddrs, codecs : !Codecs}.
Context `{revocation_laws : !PostcardLaws RevocationList}.

(** A policy that refuses a serial at every time. *)
Definition refuses (policy : NativeAccessPolicy) (s : array 16) : Prop :=
  exists authority list, policy = Signed authority (Some list) /\ s ∈ serials (crl_body list).

Lemma refuses_session policy s admission now_ms :
  refuses policy s -> adm_credential_serial admission = Some s ->
  is_ok (ensure_active policy admission now_ms) = false.
Proof using Type.
  intros (authority & list & -> & Hs) Ha. destruct (ensure_active _ _ _) as [[]|] eqn:E; [|done]. exfalso.
  apply ensure_active_Ok in E as (expiry & s' & _ & Hs' & _ & Hn). rewrite Ha in Hs'. injection Hs' as [= <-].
  by destruct Hn as [_ []].
Qed.
Lemma refuses_hello policy c hello role key now_ms :
  refuses policy (serial (cred_body c)) -> hello_credential hello = Some c ->
  is_ok (admit_session policy hello role key now_ms) = false.
Proof using Type.
  intros (authority & list & -> & Hs) Hc. unfold admit_session. rewrite Hc. cbn [ok_or mbind result_bind].
  destruct (reject_if (hello_role _ <> _) _) as [[]|]; [|done]. cbn [mbind result_bind].
  destruct (reject_if _ _) as [[]|]; [|done]. cbn [mbind result_bind].
  destruct (credential_verify_at _ _ _ _ _ _) as [[]|] eqn:E; [|done]. exfalso.
  apply credential_verify_Ok in E. by destruct E as (_ & _ & _ & _ & _ & _ & _ & _ & _ & _ & _ & _ & _ & []).
Qed.

(** The content of the new list is in force, or was already. *)
Lemma revocation_in_force authority revocations before path tick after content list :
  installs authority path tick content list ->
  Forall (fun x => forall c l, installs authority x.1 x.2 c l -> c = content) after ->
  rl_policy (reload_run (before ++ (path, tick) :: after) (reloader_new (Signed authority revocations))) =
    Signed authority (Some list).
Proof using Type.
  intros Hi Hafter. rewrite reload_run_app. simpl.
  assert (reloader_ok authority (reload_run before (reloader_new (Signed authority revocations)))) as Hok
    by (apply reload_run_ok; split; [by eexists|done]).
  destruct (reload_tick_installs authority path tick _ content list Hok Hi) as [Hp Hb].
  rewrite (reload_run_keeps authority _ _ _ content Hp Hb Hafter). exact Hp.
Qed.

(** C22: a credential that its authority revokes is cut off: when the operator
    revokes its file, which leaves the new list even if its synchronization fails,
    and the relay's tick reads the new list within its validity,
    then from that tick on, whatever the relay had in force and whatever the
    later ticks find short of another valid list, no hello with the credential is
    admitted, no session that it admitted is still active, and the next turn of
    such a session is refused. *)
Theorem revoked_credential_cut_off disk reported authority_entry days duration revoked_at credentials crl
    ca e c revocations before path tick after :
  revoke_command disk authority_entry days revoked_at credentials None = (reported, Some crl) ->
  load_certificate_authority authority_entry = Ok ca -> duration_ms days = Ok duration ->
  e ∈ credentials -> load_credential e = Ok c ->
  read_bounded path MAX_PUBLIC_MATERIAL_BYTES false = Ok (fe_content crl) ->
  revoked_at <= tick < revoked_at + duration ->
  Forall (fun x => forall content l, installs (authority_public ca) x.1 x.2 content l -> content = fe_content crl) after ->
  let policy := rl_policy (reload_run (before ++ (path, tick) :: after)
                  (reloader_new (Signed (authority_public ca) revocations))) in
  (forall hello role key now_ms, hello_credential hello = Some c ->
     is_ok (admit_session policy hello role key now_ms) = false) /\
  (forall admission now_ms, adm_credential_serial admission = Some (serial (cred_body c)) ->
     is_ok (ensure_active policy admission now_ms) = false) /\
  (forall env admission fuel addr hello events read w r w',
     adm_credential_serial admission = Some (serial (cred_body c)) ->
     sh_access (interference env (S (w_step w)) (w_shared w)) = policy ->
     viewer_turn env fuel addr hello admission events read w = (r, w') ->
     rejected env RvError w r w') /\
  (forall cfg env admission hello publisher_id read w r w',
     adm_credential_serial admission = Some (serial (cred_body c)) ->
     sh_access (interference env (S (w_step w)) (w_shared w)) = policy ->
     publisher_turn cfg env hello publisher_id admission read w = (r, w') ->
     rejected env RpError w r w').
Proof using crypto_laws revocation_laws.
  intros Hrevoke Hca Hdays He Hc Hread Htick Hafter policy.
  apply revoke_command_Ok in Hrevoke as (ca' & list & revoked & d & Hca' & Hcs & Henc & _ & Hperm & Hd & Hacc).
  rewrite Hca in Hca'. injection Hca' as [= <-]. rewrite Hdays in Hd. injection Hd as [= <-].
  assert (policy = Signed (authority_public ca) (Some list)) as Hpolicy.
  { apply revocation_in_force with (fe_content crl); [|done]. split; [done|]. split; [|by apply Hacc].
    unfold revocation_decode. apply decode_canonical_iff. unfold revocation_encode in Henc. by apply map_err_Ok in Henc. }
  assert (refuses policy (serial (cred_body c))) as Href.
  { exists (authority_public ca), list. split; [done|]. rewrite Hperm. apply list_elem_of_fmap. exists c. split; [done|].
    apply mapR_Ok in Hcs. apply list_elem_of_lookup in He as [i Hi].
    eapply Forall2_lookup_l in Hcs as (c' & Hc' & E); [|exact Hi]. simpl in E. rewrite Hc in E. injection E as [= <-].
    by apply list_elem_of_lookup_2 in Hc'. }
  split; [|split; [|split]].
  - intros. by eapply refuses_hello.
  - intros. by eapply refuses_session.
  - intros env admission fuel addr hello events read w r w' Ha Hp. eapply inactive_run; [|reflexivity].
    rewrite Hp. by eapply refuses_session.
  - intros cfg env admission hello publisher_id read w r w' Ha Hp. eapply inactive_run; [|reflexivity].
    rewrite Hp. by eapply refuses_session.
Qed.
End revocation.

(** ** Witnesses *)

Definition entry_of {X} (r : result X bytes) : option FileEntry := stage_private <$> result_ok r.
Definition sample_authority_entry : option FileEntry := entry_of (authority_secret_encode sample_ca).
Definition sample_credential_entry : option FileEntry :=
  match sample_credential with Some c => entry_of (credential_encode c) | None => None end.
Definition sample_crl : result string unit * option FileEntry :=
  revoke_command DiskUnsynced sample_authority_entry 30 5000 [sample_credential_entry] None.
Definition sample_crl_entry : option FileEntry := sample_crl.2.
Definition sample_files : Files := {|
  entry_at path := if decide (path = ascii_str "ca") then entry_of (authority_encode (authority_public sample_ca))
                   else sample_crl_entry;
  is_file _ := true; path_exists _ := true |}.

#[local] Instance toy_revocation_laws : PostcardLaws RevocationList.
Proof.
  apply postcard_of_laws, f_iso_ok; [by intros []|]. apply f_pair_ok; [|apply f_signature_ok].
  apply f_iso_ok; [by intros []|auto with toy].
Defined.

Lemma read_bounded_public e max_len :
  fe_kind e = RegularFile -> zlen (fe_content e) <= max_len -> read_bounded (Some e) max_len false = Ok (fe_content e).
Proof. intros Hk Hl. unfold read_bounded. rewrite Hk. rewrite !reject_if_false; [done|naive_solver|naive_solver lia|naive_solver]. Qed.
Lemma is_ok_inv {X A} (r : result X A) : is_ok r = true -> exists v, r = Ok v.
Proof. destruct r; [by eexists|done]. Qed.
Lemma sample_policy_loads :
  is_ok (load_access sample_files 6000 (ConfigSigned (ascii_str "ca") (Some (ascii_str "crl")))) = true.
Proof. vm_compute. reflexivity. Qed.
Definition sample_ticks : list (option FileEntry * Z) := [(None, 7000); (Some (stage_private [x00]), 8000)].
Lemma reload_keeps_verified_witness :
  exists policy authority list,
    load_access sample_files 6000 (ConfigSigned (ascii_str "ca") (Some (ascii_str "crl"))) = Ok policy /\
    rl_policy (reload_run sample_ticks (reloader_new policy)) = Signed authority (Some list).
Proof.
  destruct (is_ok_inv _ sample_policy_loads) as [policy E].
  destruct (reload_keeps_verified sample_files 6000 (ascii_str "ca") (ascii_str "crl") policy sample_ticks E)
    as (authority & _ & (list & _ & _ & _ & Hp & _) & _).
  exists policy, authority, list. split; [exact E|exact Hp].
Defined.

Lemma sample_ca_loads : load_certificate_authority sample_authority_entry = Ok sample_ca.
Proof. vm_compute. reflexivity. Qed.
Lemma sample_credential_loads : is_ok (load_credential sample_credential_entry) = true.
Proof. vm_compute. reflexivity. Qed.
Definition short_file (r : result string unit * option FileEntry) : bool :=
  match r.2 with Some e => bool_decide (zlen (fe_content e) <= MAX_PUBLIC_MATERIAL_BYTES) | None => false end.
Lemma short_file_inv r :
  short_file r = true -> exists e, r = (r.1, Some e) /\ zlen (fe_content e) <= MAX_PUBLIC_MATERIAL_BYTES.
Proof. destruct r as [r [e|]]; [|done]. intros H%bool_decide_eq_true_1. by exists e. Qed.
Lemma sample_crl_short : short_file sample_crl = true.
Proof. vm_compute. reflexivity. Qed.
Strategy expand [sample_crl].
Lemma revoked_credential_cut_off_witness :
  exists e c, sample_crl.2 = Some e /\ load_credential sample_credential_entry = Ok c /\
    forall hello role key now_ms, hello_credential hello = Some c ->
      is_ok (admit_session (rl_policy (reload_run [(None, 5500); (Some e, 6000); (None, 7000)]
        (reloader_new (Signed (authority_public sample_ca) None)))) hello role key now_ms) = false.
Proof.
  destruct (is_ok_inv _ sample_credential_loads) as [c Hc].
  destruct (short_file_inv _ sample_crl_short) as (e & Hcrl & Hshort).
  exists e, c. split; [rewrite Hcrl; reflexivity|]. split; [exact Hc|].
  refine (proj1 (revoked_credential_cut_off DiskUnsynced sample_crl.1 sample_authority_entry 30 (30 * DAY_MS) 5000
    [sample_credential_entry] e sample_ca sample_credential_entry c None [(None, 5500)] (Some e) 6000 [(None, 7000)]
    Hcrl sample_ca_loads _ _ Hc _ _ _)).
  - reflexivity.
  - left.
  - destruct (revoke_command_Ok _ _ _ _ _ _ _ Hcrl) as (_ & _ & _ & _ & _ & _ & _ & Hk & _).
    exact (read_bounded_public e _ Hk Hshort).
  - vm_compute. split; congruence.
  - constructor; [|constructor]. intros content l [[=] _].
Defined.
