(* ===== verification/KeyHistory.v ===== *)
(** The retained group keys of a publisher
    ([crates/publisher/src/native_publish.rs]): the private key-history file,
    which the streams of one publisher share, and the pruning of a stream's keys
    by age and by bytes. *)
From Stdlib Require Import ZArith Lia.
From S2P Require Import Prelude Bytes External Toy PrivateState.

Definition KEY_HISTORY_VERSION : Z := 1.
Definition MAX_KEY_HISTORY_BYTES : Z := 16 * 1024 * 1024.

Record RetainedGroupKey : Type := {
  rk_stream_id : uuid;
  rk_epoch_id : uuid;
  rk_key_group_id : Z;
  rk_key_id : array 16;
  rk_content_key : array 32;
  rk_created_at_ms : Z;
  rk_content_bytes : Z;
}.
#[global] Instance retained_group_key_eq_dec : EqDecision RetainedGroupKey.
Proof. solve_decision. Defined.

Definition has_published_content (g : RetainedGroupKey) : Prop := rk_content_bytes g > 0.
#[global] Instance has_published_content_dec g : Decision (has_published_content g).
Proof. unfold has_published_content. apply _. Defined.

Record KeyHistory : Type := {
  kh_version : Z;
  kh_groups : list RetainedGroupKey;
}.

(** The key by which the file is sorted. *)
Definition history_key (g : RetainedGroupKey) : uuid * (Z * (uuid * Z)) :=
  (rk_stream_id g, (rk_created_at_ms g, (rk_epoch_id g, rk_key_group_id g))).
Definition history_le (x y : RetainedGroupKey) : Prop :=
  lex array_lt (lex Z.lt (lex array_lt Z.le)) (history_key x) (history_key y).
#[global] Instance history_le_dec : RelDecision history_le.
Proof. intros x y. unfold history_le. apply _. Defined.
#[global] Instance history_le_preorder : PreOrder history_le.
Proof. split; [intros x|intros x y z]; unfold history_le; [reflexivity|apply transitivity]. Qed.
#[global] Instance history_le_total : Total history_le.
Proof. intros x y. unfold history_le. apply (total _). Qed.

Section history.
Context `{!Postcard KeyHistory}.

Definition load_key_history (path : option FileEntry) : result string (list RetainedGroupKey) :=
  let? content := context "reading key history" (read_optional path MAX_KEY_HISTORY_BYTES) in
  match content with
  | None => Ok []
  | Some content =>
      let? (history, remainder) := context "postcard" (take_from_bytes content) in
      let? canonical :=
        if decide (remainder <> [] \/ kh_version history <> KEY_HISTORY_VERSION) then Ok false
        else let? encoded := context "postcard" (to_stdvec history) in
             Ok (bool_decide (encoded = content)) in
      reject_if (canonical = false \/ zlen (kh_groups history) > 65536)
        "publisher key history is invalid or non-canonical" then?
      Ok (kh_groups history)
  end.

Definition save_key_history (disk : disk_outcome) (groups : list RetainedGroupKey) :
    io string (option FileEntry) unit :=
  let history := {| kh_version := KEY_HISTORY_VERSION; kh_groups := groups |} in
  let? encoded := lift (context "postcard" (to_stdvec history)) in
  lift (reject_if (zlen encoded > MAX_KEY_HISTORY_BYTES)
    "publisher key history exceeds its file bound") then?
  in_context "writing key history" (replace_private disk encoded MAX_KEY_HISTORY_BYTES).

(** The whole transaction under the exclusive lock. *)
Definition replace_stream_key_history (disk : disk_outcome) (stream_id : uuid)
    (stream_groups : list RetainedGroupKey) : io string (option FileEntry) unit := fun path =>
  (let? groups := lift (load_key_history path) in
   let groups := filter (fun g => rk_stream_id g <> stream_id) groups ++ stream_groups in
   save_key_history disk (sort_by history_le groups)) path.

(** The loop of [prune_key_history] from the newest group on. *)
Fixpoint keep_newest (max_content_bytes retained_bytes : Z)
    (kept newest_first : list RetainedGroupKey) : list RetainedGroupKey :=
  match newest_first with
  | [] => kept
  | group :: older =>
      let next := u64_saturating_add retained_bytes (rk_content_bytes group) in
      if decide (next > max_content_bytes /\ kept <> []) then kept
      else keep_newest max_content_bytes next (group :: kept) older
  end.

Definition prune_key_history (groups : list RetainedGroupKey)
    (now_ms max_content_bytes max_age_ms : Z) : list RetainedGroupKey :=
  let aged := filter (fun g => i64_saturating_sub now_ms (rk_created_at_ms g) <= max_age_ms) groups in
  keep_newest max_content_bytes 0 [] (rev aged).

(** * Pruning *)

(** The bytes of some groups, as the saturating sum counts them. *)
Definition history_bytes (groups : list RetainedGroupKey) : Z :=
  Z.min u64_max (foldr (fun g total => rk_content_bytes g + total) 0 groups).

Lemma history_bytes_cons g groups :
  0 <= rk_content_bytes g -> Forall (fun g => 0 <= rk_content_bytes g) groups ->
  history_bytes (g :: groups) = u64_saturating_add (history_bytes groups) (rk_content_bytes g).
Proof using Type.
  intros Hg Hall. unfold history_bytes. simpl.
  assert (0 <= foldr (fun g total => rk_content_bytes g + total) 0 groups)
    by (induction Hall; simpl; lia).
  unfold u64_saturating_add. ints.
Qed.

Lemma keep_newest_spec max kept newest_first :
  Forall (fun g => 0 <= rk_content_bytes g) (rev newest_first ++ kept) ->
  (history_bytes kept <= max \/ length kept = 1%nat \/ kept = []) ->
  exists dropped, rev newest_first ++ kept =
      dropped ++ keep_newest max (history_bytes kept) kept newest_first /\
    let result := keep_newest max (history_bytes kept) kept newest_first in
    (history_bytes result <= max \/ length result = 1%nat \/ result = []) /\
    (dropped = [] \/ exists older g, dropped = older ++ [g] /\ result <> [] /\
       max < history_bytes (g :: result)).
Proof using Type.
  revert kept. induction newest_first as [|g older IH]; intros kept Hpos Hk; cbn [keep_newest rev].
  { exists []. auto. }
  assert (0 <= rk_content_bytes g /\ Forall (fun g => 0 <= rk_content_bytes g) kept) as [Hg Hkept].
  { cbn [rev] in Hpos. rewrite !Forall_app in Hpos. destruct Hpos as [[_ Hg] Hkept].
    split; [by inversion Hg|done]. }
  cbv zeta. rewrite <-history_bytes_cons by done. case_decide as Hd.
  - exists (rev older ++ [g]). split; [done|]. split; [done|]. right. exists (rev older), g.
    split_and!; [done|apply Hd|lia].
  - cbn [rev] in *. rewrite <-app_assoc in *. apply (IH (g :: kept)); [done|].
    destruct (decide (kept = [])) as [->|Hne]; [by right; left|]. left.
    destruct (decide (history_bytes (g :: kept) > max)); [|lia]. tauto.
Qed.

(** Pruning keeps exactly the newest keys: of the keys within the age limit,
    in their order, it keeps the longest run of newest ones whose published
    bytes stay within the byte limit, and always the newest key itself, so that
    every dropped key is too old or was followed by more bytes than allowed. *)
Theorem prune_key_history_exact groups now_ms max_content_bytes max_age_ms :
  Forall (fun g => 0 <= rk_content_bytes g) groups ->
  let aged := filter (fun g => i64_saturating_sub now_ms (rk_created_at_ms g) <= max_age_ms) groups in
  let kept := prune_key_history groups now_ms max_content_bytes max_age_ms in
  exists dropped, aged = dropped ++ kept /\
    (kept = [] <-> aged = []) /\
    (history_bytes kept <= max_content_bytes \/ length kept = 1%nat \/ kept = []) /\
    (dropped = [] \/ exists older g, dropped = older ++ [g] /\
       max_content_bytes < history_bytes (g :: kept)).
Proof using Type.
  intros Hpos aged kept.
  assert (Forall (fun g => 0 <= rk_content_bytes g) (rev (rev aged) ++ [])) as Haged.
  { rewrite rev_involutive, app_nil_r. rewrite Forall_forall in *. intros g [_ Hg]%list_elem_of_filter. by apply Hpos. }
  destruct (keep_newest_spec max_content_bytes [] (rev aged) Haged) as (dropped & Heq & Hsize & Hdrop);
    [by right; right|].
  rewrite rev_involutive, app_nil_r in Heq. change (history_bytes []) with 0 in *.
  change (keep_newest max_content_bytes 0 [] (rev aged)) with kept in Heq, Hsize, Hdrop.
  clearbody kept. clearbody aged.
  exists dropped. split; [exact Heq|]. split; [|split; [exact Hsize|naive_solver]].
  split; [|intros Ha; rewrite Ha in Heq; by destruct (app_eq_nil dropped kept (eq_sym Heq))].
  intros Hnil. rewrite Hnil, app_nil_r in Heq.
  destruct Hdrop as [->|(older & g & _ & Hne & _)]; [done|]. by destruct Hne.
Qed.

(** * The file *)

Section file.
Context `{!PostcardLaws KeyHistory}.

(** The groups that an update of one stream leaves in the file. *)
Definition merged (old : list RetainedGroupKey) (stream_id : uuid)
    (stream_groups : list RetainedGroupKey) : list RetainedGroupKey :=
  sort_by history_le (filter (fun g => rk_stream_id g <> stream_id) old ++ stream_groups).

(** What the file answers when it holds some groups. *)
Definition holds (path : option FileEntry) (groups : list RetainedGroupKey) : Prop :=
  load_key_history path =
    if decide (zlen groups > 65536) then Err "publisher key history is invalid or non-canonical"
    else Ok groups.

(** Whatever the disk does, the file is as it was or holds the new groups. *)
Lemma save_key_history_run disk groups path r path' :
  save_key_history disk groups path = (r, path') ->
  holds path' groups \/ path' = path /\ is_ok r = false.
Proof.
  unfold save_key_history.
  intros [(e & [= _ <-] & ->)|(encoded & p & [Henc%context_Ok ->]%lift_Ok & H)]%io_bind_run; [by right|].
  apply io_bind_run in H as [(e & [= _ <-] & ->)|([] & p & [Hlen%reject_if_Ok ->]%lift_Ok & H)]; [by right|].
  apply in_context_run in H as (r0 & H & ->). apply replace_private_run in H as [->|[-> Hr]];
    [left|right; split; [done|by destruct r0]].
  unfold holds, load_key_history.
  destruct (stage_private_read encoded MAX_KEY_HISTORY_BYTES) as [_ ->]; [lia|].
  cbn [context map_err mbind result_bind]. rewrite (take_to_stdvec_nil _ _ Henc). cbn [context map_err mbind result_bind].
  rewrite decide_False by (intros [[]|[]]; done). rewrite Henc. cbn [context map_err mbind result_bind].
  rewrite bool_decide_true by done.
  case_decide as Hd.
  - unfold reject_if. by rewrite decide_True by auto.
  - rewrite (reject_if_false (_ \/ _)) by (intros [|]; [done|simpl in *; lia]). done.
Qed.

Lemma replace_stream_key_history_run disk s groups path r path' :
  replace_stream_key_history disk s groups path = (r, path') ->
  (exists old, load_key_history path = Ok old /\ holds path' (merged old s groups)) \/
  path' = path /\ is_ok r = false.
Proof.
  unfold replace_stream_key_history.
  intros [(e & [= _ <-] & ->)|(old & p & [Hold ->]%lift_Ok & H)]%io_bind_run; [by right|].
  apply save_key_history_run in H as [H|H]; [left|by right]. by exists old.
Qed.

(** An update of one stream's keys is a transaction on the shared file that
    leaves the other streams alone: the file is read back as the new keys of the
    stream and the old keys of all others, in the order of the file, in which
    the keys of the others keep their places; an update that fails has done this
    or nothing. *)
Theorem key_history_update disk s groups path r path' :
  replace_stream_key_history disk s groups path = (r, path') ->
  path' = path /\ is_ok r = false \/
  exists old new, load_key_history path = Ok old /\
    (zlen new <= 65536 -> load_key_history path' = Ok new) /\
    new ≡ₚ filter (fun g => rk_stream_id g <> s) old ++ groups /\
    Sorted history_le new /\
    (Forall (fun g => rk_stream_id g = s) groups -> Sorted history_le old ->
       filter (fun g => rk_stream_id g <> s) new = filter (fun g => rk_stream_id g <> s) old).
Proof.
  intros [(old & Hold & Hnew)|H]%replace_stream_key_history_run; [right|by left].
  exists old, (merged old s groups).
  split; [done|]. split; [intros; rewrite Hnew; apply decide_False; lia|].
  split; [apply sort_by_Permutation|]. split; [apply (sort_by_Sorted history_le)|].
  intros Hs Hsorted. unfold merged. rewrite (filter_sort_by history_le), filter_app.
  assert (filter (fun g => rk_stream_id g <> s) groups = []) as ->.
  { clear -Hs. induction Hs as [|g l Hg _ IH]; [done|]. by rewrite filter_cons_False by auto. }
  rewrite app_nil_r, list_filter_filter.
  rewrite (list_filter_iff _ (fun g => rk_stream_id g <> s)) by tauto.
  apply sort_by_sorted. apply (Sorted_filter history_le); done.
Qed.

(** The file can be written so that it is never read again: the limit of
    65,536 keys is checked when the file is loaded but not when it is saved, so
    an update past it succeeds, and from then on every load and every update of
    any stream fails. *)
Theorem oversized_key_history_lost disk s groups path path' old :
  load_key_history path = Ok old ->
  replace_stream_key_history disk s groups path = (Ok tt, path') ->
  zlen (filter (fun g => rk_stream_id g <> s) old ++ groups) > 65536 ->
  is_ok (load_key_history path') = false /\
  forall disk' s' groups', is_ok (replace_stream_key_history disk' s' groups' path').1 = false.
Proof.
  intros Hold [(old' & Hold' & Hnew)|[_ [=]]]%replace_stream_key_history_run Hlen.
  rewrite Hold in Hold'. injection Hold' as <-. unfold holds in Hnew.
  rewrite decide_True in Hnew by (unfold merged; rewrite length_sort_by; exact Hlen).
  split; [by rewrite Hnew|]. intros disk' s' groups'. unfold replace_stream_key_history. by rewrite Hnew.
Qed.
End file.
End history.

(** ** Witnesses *)

Definition f_retained : format RetainedGroupKey :=
  f_iso (f_pair (f_pair (f_array 16) (f_pair (f_array 16) f_Z))
           (f_pair (f_pair (f_array 16) (f_array 32)) (f_pair f_Z f_Z)))
    (fun g => ((rk_stream_id g, (rk_epoch_id g, rk_key_group_id g)),
               ((rk_key_id g, rk_content_key g), (rk_created_at_ms g, rk_content_bytes g))))
    (fun '((s, (e, g)), ((i, k), (c, b))) =>
       Some {| rk_stream_id := s; rk_epoch_id := e; rk_key_group_id := g; rk_key_id := i;
               rk_content_key := k; rk_created_at_ms := c; rk_content_bytes := b |}).
Definition f_key_history : format KeyHistory :=
  f_iso (f_pair f_Z (f_list f_retained)) (fun h => (kh_version h, kh_groups h))
    (fun '(v, g) => Some {| kh_version := v; kh_groups := g |}).
#[export] Instance toy_key_history : Postcard KeyHistory := postcard_of f_key_history.
#[export] Instance toy_key_history_laws : PostcardLaws KeyHistory.
Proof.
  apply postcard_of_laws, f_iso_ok; [by intros []|].
  apply f_pair_ok; [auto with toy|]. apply f_list_ok, f_iso_ok; [by intros []|auto 10 with toy].
Defined.

(** Three groups of a stream, the first of them too old. *)
Definition sample_key (stream id : byte) (created content : Z) : RetainedGroupKey := {|
  rk_stream_id := Vector.const stream 16; rk_epoch_id := Vector.const x02 16;
  rk_key_group_id := Z_of_byte id; rk_key_id := Vector.const id 16;
  rk_content_key := Vector.const id 32; rk_created_at_ms := created; rk_content_bytes := content |}.
Definition sample_keys : list RetainedGroupKey :=
  [sample_key x01 x01 0 1; sample_key x01 x02 900 99; sample_key x01 x03 1000 1].
Example prune_sample_keys :
  rk_key_group_id <$> prune_key_history sample_keys 1000 100 500 = [2; 3] /\
  rk_key_group_id <$> prune_key_history sample_keys 1000 99 500 = [3] /\
  rk_key_group_id <$> prune_key_history sample_keys 1000 0 500 = [3] /\
  rk_key_group_id <$> prune_key_history sample_keys 1000 1000 1000 = [1; 2; 3].
Proof. vm_compute. done. Qed.

Lemma prune_key_history_exact_witness :
  exists dropped, filter (fun g => i64_saturating_sub 1000 (rk_created_at_ms g) <= 500) sample_keys =
    dropped ++ prune_key_history sample_keys 1000 99 500 /\ dropped <> [].
Proof.
  assert (Forall (fun g => 0 <= rk_content_bytes g) sample_keys) as Hpos
    by (repeat constructor; discriminate).
  destruct (prune_key_history_exact sample_keys 1000 99 500 Hpos) as (dropped & Heq & _).
  exists dropped. split; [exact Heq|]. intros Hnil. rewrite Hnil in Heq.
  apply (f_equal length) in Heq. vm_compute in Heq. discriminate.
Defined.

(** An update of one stream beside another. *)
Definition sample_history_file : option FileEntry :=
  (replace_stream_key_history DiskOk (Vector.const x02 16) [sample_key x02 x02 20 5]
    (replace_stream_key_history DiskOk (Vector.const x01 16) [sample_key x01 x01 10 5] None).2).2.
Definition sample_history_run : result string unit * option FileEntry :=
  replace_stream_key_history DiskUnsynced (Vector.const x01 16) [sample_key x01 x03 30 5] sample_history_file.
Lemma sample_history_changes : bool_decide (fe_content <$> sample_history_run.2 = fe_content <$> sample_history_file) = false.
Proof. vm_compute. reflexivity. Qed.
Lemma key_history_update_witness :
  exists old new, load_key_history sample_history_file = Ok old /\
    new ≡ₚ filter (fun g => rk_stream_id g <> Vector.const x01 16) old ++ [sample_key x01 x03 30 5].
Proof.
  pose proof sample_history_changes as Hrun.
  destruct (key_history_update DiskUnsynced (Vector.const x01 16) [sample_key x01 x03 30 5] sample_history_file
    sample_history_run.1 sample_history_run.2 (surjective_pairing sample_history_run))
    as [[H _]|(old & new & Hold & _ & Hperm & _)].
  - rewrite H in Hrun. apply bool_decide_eq_false in Hrun. destruct (Hrun eq_refl).
  - exists old, new. split; [exact Hold|exact Hperm].
Defined.

(** A format with a single value, for a history of [n] keys. *)
#[global] Instance key_history_eq_dec : EqDecision KeyHistory.
Proof. solve_decision. Defined.
Section single_value.
Context (n : nat).
Definition repeated_keys : list RetainedGroupKey := replicate n (sample_key x01 x01 0 1).
Definition repeated_history : KeyHistory :=
  {| kh_version := KEY_HISTORY_VERSION; kh_groups := repeated_keys |}.
Definition single_value : Postcard KeyHistory := {|
  to_stdvec h := if decide (h = repeated_history) then Ok [x00] else Err PostcardError;
  take_from_bytes l := match l with x00 :: rest => Ok (repeated_history, rest) | _ => Err PostcardError end;
|}.
Lemma single_value_laws : @PostcardLaws KeyHistory single_value.
Proof.
  split; simpl; intros v enc; [intros rest|]; (case_decide as Hv; [|done]); intros [= <-];
    [by subst|done].
Qed.
Lemma repeated_sorted : Sorted history_le repeated_keys.
Proof.
  unfold repeated_keys. induction n as [|m IH]; simpl; constructor; [done|].
  destruct m; simpl; constructor. reflexivity.
Qed.
Lemma repeated_saved :
  @replace_stream_key_history single_value DiskOk (Vector.const x01 16) repeated_keys None
    = (Ok tt, Some (stage_private [x00])).
Proof.
  unfold replace_stream_key_history, mbind, io_bind, lift.
  change (@load_key_history single_value None) with (@Ok string _ (@nil RetainedGroupKey)).
  cbn [mbind result_bind]. rewrite app_nil_l.
  rewrite (sort_by_sorted history_le) by apply repeated_sorted.
  unfold save_key_history, mbind, io_bind, lift. cbn [to_stdvec single_value].
  by rewrite decide_True by done.
Qed.
End single_value.

Lemma oversized_key_history_lost_witness :
  exists n, Z.of_nat n = 65537 /\
    @replace_stream_key_history (single_value n) DiskOk (Vector.const x01 16) (repeated_keys n) None
      = (Ok tt, Some (stage_private [x00])) /\
    is_ok (@load_key_history (single_value n) (Some (stage_private [x00]))) = false.
Proof.
  exists (Z.to_nat 65537). generalize (Z2Nat.id 65537 ltac:(lia)). generalize (Z.to_nat 65537).
  intros n Hn. split; [exact Hn|]. split; [exact (repeated_saved n)|].
  apply (@oversized_key_history_lost (single_value n) (single_value_laws n) DiskOk (Vector.const x01 16)
    (repeated_keys n) None (Some (stage_private [x00])) []).
  - reflexivity.
  - exact (repeated_saved n).
  - unfold repeated_keys. rewrite app_nil_l, length_replicate. lia.
Defined.
