(* ===== verification/KnownRelays.v ===== *)
(** [crates/protocol/src/trust.rs]: trust on first use for relay Noise keys.

    The database of known relays is the map of the open handle together with the
    private file behind it; [SocketAddr] parsing and printing are external. *)
From Stdlib Require Import ZArith Lia.
From S2P Require Import Prelude Bytes RustStr External Toy PrivateState.

Definition KNOWN_RELAYS_VERSION : Z := 1.
Definition MAX_KNOWN_RELAYS : Z := 4096.
Definition MAX_KNOWN_RELAYS_FILE_LEN : Z := 512 * 1024.

Inductive RelayTrustOutcome : Type := Known | Learned.
#[global] Instance RelayTrustOutcome_eq_dec : EqDecision RelayTrustOutcome.
Proof. solve_decision. Defined.

Inductive RelayTrustError : Type :=
| InvalidEndpoint
| KeyChanged (endpoint : rstring)
| TrustUnsupportedVersion (version : Z)
| InvalidState (what : string)
| TrustIo (e : io_error)
| TrustPostcard (e : postcard_error).

Record KnownRelayEntry : Type := {
  entry_endpoint : rstring;
  entry_key : array 32;
}.
Record KnownRelayFile : Type := {
  krf_version : Z;
  krf_entries : list KnownRelayEntry;
}.

(** * Strings *)

(** The text of an ASCII string; no other string is a socket address. *)
Definition ascii_text (s : rstring) : option string :=
  if decide (Forall (fun c => 0 <= c < 128) s)
  then Some (String.string_of_list_ascii ((fun c => Ascii.ascii_of_N (Z.to_N c)) <$> s))
  else None.

(** [str::rsplit_once(':')] on the reversed string. *)
Fixpoint split_colon (acc s : rstring) : option (rstring * rstring) :=
  match s with
  | [] => None
  | c :: s => if decide (c = 58) then Some (acc, s) else split_colon (c :: acc) s
  end.
Definition rsplit_colon (s : rstring) : option (rstring * rstring) :=
  '(after, before) ← split_colon [] (reverse s); Some (reverse before, after).

Definition is_digit (c : Z) : Prop := 48 <= c <= 57.
#[global] Instance is_digit_dec c : Decision (is_digit c).
Proof. unfold is_digit. apply _. Defined.
Definition digits_value (s : rstring) : Z := foldl (fun v c => v * 10 + (c - 48)) 0 s.
(** [str::parse::<u16>]: a [+] may precede the digits. *)
Definition parse_u16 (s : rstring) : option Z :=
  let digits := match s with 43 :: rest => rest | _ => s end in
  if decide (digits <> [] /\ Forall is_digit digits /\ digits_value digits <= 65535)
  then Some (digits_value digits) else None.

(** Decimal digits, most significant first, at most [fuel] of them. *)
Fixpoint decimal (fuel : nat) (n : Z) : rstring :=
  match fuel with
  | O => []
  | S fuel => if decide (n < 10) then [48 + n] else decimal fuel (n / 10) ++ [48 + n mod 10]
  end.

(** [host.strip_suffix('.').unwrap_or(host)] *)
Definition strip_dot (s : rstring) : rstring :=
  match reverse s with
  | 46 :: rest => reverse rest
  | _ => s
  end.
Definition ascii_lowercase (c : Z) : Z := if decide (65 <= c <= 90) then c + 32 else c.

(** [str::split('.')] *)
Fixpoint split_dots (s : rstring) : list rstring :=
  match s with
  | [] => [[]]
  | c :: s =>
      match split_dots s with
      | label :: labels => if decide (c = 46) then [] :: label :: labels else (c :: label) :: labels
      | [] => [[c]]
      end
  end.

Definition is_host_char (c : Z) : Prop := is_digit c \/ 65 <= c <= 90 \/ 97 <= c <= 122 \/ c = 45.
#[global] Instance is_host_char_dec c : Decision (is_host_char c).
Proof. unfold is_host_char. apply _. Defined.
Definition bad_host_label (label : rstring) : Prop :=
  label = [] \/ str_len label > 63 \/ head label = Some 45 \/ last label = Some 45 \/
  ~ Forall is_host_char label.
#[global] Instance bad_host_label_dec label : Decision (bad_host_label label).
Proof. unfold bad_host_label. apply _. Defined.

(** [SocketAddr::port] *)
Class SocketPorts `{!SocketAddrs} : Type := addr_port : SocketAddr -> Z.

Section relays.
Context `{addrs : !SocketAddrs, ports : !SocketPorts}.

(** [u16]'s [Display]: five digits are enough. *)
Definition port_text (port : Z) : rstring := decimal 5 port.

Definition canonical_relay_endpoint (endpoint : rstring) : result RelayTrustError rstring :=
  reject_if (endpoint = [] \/ str_len endpoint > 512 \/ trim endpoint <> endpoint)
    InvalidEndpoint then?
  match ascii_text endpoint ≫= addr_parse with
  | Some address =>
      reject_if (addr_port address = 0) InvalidEndpoint then?
      Ok (ascii_str (addr_to_string address))
  | None =>
      let? (host, port) := ok_or (rsplit_colon endpoint) InvalidEndpoint in
      let? port := ok_or (port ← parse_u16 port; if decide (port <> 0) then Some port else None)
                     InvalidEndpoint in
      let host := ascii_lowercase <$> strip_dot host in
      reject_if (host = [] \/ str_len host > 253 \/ head host = Some 46 \/ last host = Some 46 \/
                 Exists bad_host_label (split_dots host)) InvalidEndpoint then?
      Ok (host ++ [58] ++ port_text port)
  end.

(** * The database *)

Context `{!Postcard KnownRelayFile}.

(** [KnownRelays]: the entries of the handle and its file. *)
Record KnownRelays : Type := {
  kr_file : option FileEntry;
  kr_entries : gmap rstring (array 32);
}.

(** The order of the entries in the file, that of the [BTreeMap]. *)
Fixpoint rstring_lt (a b : rstring) : Prop :=
  match a, b with
  | _, [] => False
  | [], _ :: _ => True
  | x :: a, y :: b => x < y \/ x = y /\ rstring_lt a b
  end.
#[global] Instance rstring_lt_dec : RelDecision rstring_lt.
Proof.
  intros a. induction a as [|x a IH]; intros [|y b]; simpl; apply _.
Defined.

(** The loop of [KnownRelays::open]. *)
Fixpoint read_entries (previous : option rstring) (entries : list KnownRelayEntry)
    (m : gmap rstring (array 32)) : result RelayTrustError (gmap rstring (array 32)) :=
  match entries with
  | [] => Ok m
  | entry :: entries =>
      let? canonical := canonical_relay_endpoint (entry_endpoint entry) in
      reject_if (canonical <> entry_endpoint entry \/
                 is_some_and (fun previous => ~ rstring_lt previous (entry_endpoint entry)) previous \/
                 entry_key entry = zeros 32)
        (InvalidState "entries are not canonical, sorted, unique, and nonzero") then?
      read_entries (Some (entry_endpoint entry)) entries
        (<[entry_endpoint entry := entry_key entry]> m)
  end.

Definition relays_open (path : option FileEntry) : result RelayTrustError KnownRelays :=
  let? content := map_err TrustIo (read_optional path MAX_KNOWN_RELAYS_FILE_LEN) in
  match content with
  | None => Ok {| kr_file := path; kr_entries := ∅ |}
  | Some content =>
      let? (file, remainder) := map_err TrustPostcard (take_from_bytes content) in
      reject_if (remainder <> []) (InvalidState "trailing data") then?
      reject_if (krf_version file <> KNOWN_RELAYS_VERSION)
        (TrustUnsupportedVersion (krf_version file)) then?
      reject_if (zlen (krf_entries file) > MAX_KNOWN_RELAYS)
        (InvalidState "too many relay entries") then?
      let? entries := read_entries None (krf_entries file) ∅ in
      Ok {| kr_file := path; kr_entries := entries |}
  end.

(** [BTreeMap::iter] *)
Definition sorted_entries (m : gmap rstring (array 32)) : list KnownRelayEntry :=
  (fun x => {| entry_endpoint := x.1; entry_key := x.2 |}) <$>
    sort_by (lex rstring_lt array_le) (map_to_list m).

Definition persist (disk : disk_outcome) : io RelayTrustError KnownRelays unit := fun db =>
  match
    (let file := {| krf_version := KNOWN_RELAYS_VERSION;
                    krf_entries := sorted_entries (kr_entries db) |} in
     let? encoded := map_err TrustPostcard (to_stdvec file) in
     reject_if (zlen encoded > MAX_KNOWN_RELAYS_FILE_LEN)
       (InvalidState "known-relays file is too large") then?
     Ok encoded)
  with
  | Err e => (Err e, db)
  | Ok encoded =>
      let '(r, path) := replace_private disk encoded MAX_KNOWN_RELAYS_FILE_LEN (kr_file db) in
      (map_err TrustIo r, {| kr_file := path; kr_entries := kr_entries db |})
  end.

Definition set_entries (m : gmap rstring (array 32)) : io RelayTrustError KnownRelays unit :=
  fun db => (Ok tt, {| kr_file := kr_file db; kr_entries := m |}).

Definition verify_or_learn (disk : disk_outcome) (endpoint : rstring) (noise_static_key : array 32) :
    io RelayTrustError KnownRelays RelayTrustOutcome := fun db =>
  (let? endpoint := lift (canonical_relay_endpoint endpoint) in
   lift (reject_if (noise_static_key = zeros 32) (InvalidState "zero relay key")) then?
   match kr_entries db !! endpoint with
   | Some expected =>
       if decide (expected = noise_static_key) then mret Known else lift (Err (KeyChanged endpoint))
   | None =>
       lift (reject_if (Z.of_nat (size (kr_entries db)) >= MAX_KNOWN_RELAYS)
         (InvalidState "too many relay entries")) then?
       set_entries (<[endpoint := noise_static_key]> (kr_entries db)) then?
       persist disk then?
       mret Learned
   end) db.

Definition relays_forget (disk : disk_outcome) (endpoint : rstring) : io RelayTrustError KnownRelays bool := fun db =>
  (let? endpoint := lift (canonical_relay_endpoint endpoint) in
   match kr_entries db !! endpoint with
   | None => mret false
   | Some _ => set_entries (delete endpoint (kr_entries db)) then? persist disk then? mret true
   end) db.

Definition relays_get (db : KnownRelays) (endpoint : rstring) :
    result RelayTrustError (option (array 32)) :=
  let? endpoint := canonical_relay_endpoint endpoint in
  Ok (kr_entries db !! endpoint).

(** How the publisher and the viewer use the file: every operation opens it and
    drops the handle, [KnownRelays::open(path)?.verify_or_learn(..)]. *)
Definition with_relays {A} (m : io RelayTrustError KnownRelays A) (path : option FileEntry) :
    result RelayTrustError A * option FileEntry :=
  match relays_open path with
  | Ok db => let '(r, db) := m db in (r, kr_file db)
  | Err e => (Err e, path)
  end.

Inductive relay_op : Type :=
| OpVerify (endpoint : rstring) (key : array 32)
| OpForget (endpoint : rstring).
Definition run_relay_op (disk : disk_outcome) (op : relay_op) :
    io RelayTrustError KnownRelays (RelayTrustOutcome + bool) :=
  match op with
  | OpVerify endpoint key => let? o := verify_or_learn disk endpoint key in mret (inl o)
  | OpForget endpoint => let? b := relays_forget disk endpoint in mret (inr b)
  end.
(** Operations one after the other, each with what the disk does to it. *)
Definition run_relay_ops (ops : list (disk_outcome * relay_op)) (path : option FileEntry) :
    option FileEntry :=
  foldl (fun path op => (with_relays (run_relay_op op.1 op.2) path).2) path ops.

(** * What the database promises

    The abstract store is a finite map of pins; a pin once learned answers for
    its endpoint until it is forgotten. *)
Inductive pin_step (m : gmap rstring (array 32)) :
    relay_op -> RelayTrustOutcome + bool -> gmap rstring (array 32) -> Prop :=
| pin_known raw e key :
    canonical_relay_endpoint raw = Ok e -> m !! e = Some key ->
    pin_step m (OpVerify raw key) (inl Known) m
| pin_learned raw e key :
    canonical_relay_endpoint raw = Ok e -> m !! e = None -> key <> zeros 32 ->
    pin_step m (OpVerify raw key) (inl Learned) (<[e := key]> m)
| pin_forgotten raw e :
    canonical_relay_endpoint raw = Ok e ->
    pin_step m (OpForget raw) (inr (bool_decide (is_Some (m !! e)))) (delete e m).
End relays.

(** * Canonical endpoints *)

Lemma split_colon_app acc d h :
  58 ∉ d -> split_colon acc (d ++ 58 :: h) = Some (reverse d ++ acc, h).
Proof.
  revert acc. induction d as [|c d IH]; intros acc Hd; simpl.
  - done.
  - rewrite decide_False by set_solver. rewrite IH by set_solver.
    by rewrite reverse_cons, <-app_assoc.
Qed.
Lemma rsplit_colon_app h d : 58 ∉ d -> rsplit_colon (h ++ 58 :: d) = Some (h, d).
Proof.
  intros Hd. unfold rsplit_colon. rewrite reverse_app, reverse_cons, <-app_assoc.
  cbn [app]. rewrite split_colon_app by (by rewrite elem_of_reverse).
  rewrite reverse_involutive, app_nil_r. cbn [mbind option_bind]. by rewrite reverse_involutive.
Qed.

(** Every port is printed as at most five digits and parsed back. *)
Lemma decimal_spec fuel n :
  (fuel <> 0)%nat -> 0 <= n < 10 ^ Z.of_nat fuel ->
  digits_value (decimal fuel n) = n /\ Forall is_digit (decimal fuel n) /\
  1 <= zlen (decimal fuel n) <= Z.of_nat fuel.
Proof.
  revert n. induction fuel as [|fuel IH]; intros n Hfuel Hn; [done|]. simpl. case_decide as Hlt.
  - unfold digits_value. simpl. split; [lia|]. split; [|lia].
    repeat constructor; unfold is_digit; lia.
  - rewrite Nat2Z.inj_succ, Z.pow_succ_r in Hn by lia. pose proof (Z.div_mod n 10).
    pose proof (Z.mod_pos_bound n 10).
    assert (0 <= n / 10 < 10 ^ Z.of_nat fuel) as Hq.
    { split; [apply Z.div_pos; lia|]. apply Z.div_lt_upper_bound; lia. }
    assert (fuel <> O) by (intros ->; simpl in *; lia).
    destruct (IH (n / 10)) as (Hv & Hd & Hl); [done|done|].
    unfold digits_value in *. rewrite foldl_app, Hv, zlen_app, Forall_app, Forall_singleton. simpl.
    split; [lia|]. split; [split; [done|unfold is_digit; lia]|lia].
Qed.
Lemma port_text_ok p :
  1 <= p <= 65535 -> parse_u16 (port_text p) = Some p /\ Forall is_digit (port_text p) /\
    1 <= zlen (port_text p) <= 5.
Proof.
  intros Hp. destruct (decimal_spec 5 p) as (Hv & Hd & Hl); [done|lia|].
  split; [|done]. unfold parse_u16, port_text. destruct (decimal 5 p) as [|c s]; [simpl in Hl; lia|].
  assert (is_digit c) by by inversion Hd. assert (c <> 43) by (unfold is_digit in *; lia).
  replace (match c with 43 => s | _ => c :: s end) with (c :: s).
  - rewrite decide_True; [by rewrite Hv|]. split; [done|]. split; [done|lia].
  - destruct c as [|c|c]; try done. repeat (destruct c as [c|c|]; try done).
Qed.

Lemma digits_value_nonneg s : Forall is_digit s -> 0 <= digits_value s.
Proof.
  unfold digits_value. intros Hs. assert (forall v, 0 <= v -> 0 <= foldl (fun v c => v * 10 + (c - 48)) v s) as H.
  { induction Hs as [|c s Hc _ IH]; intros v Hv; simpl; [done|]. apply IH. unfold is_digit in Hc. lia. }
  by apply H.
Qed.
Lemma parse_u16_range s p : parse_u16 s = Some p -> 0 <= p <= 65535.
Proof.
  unfold parse_u16. case_decide as H; [|done]. intros [= <-]. destruct H as (_ & Hd & ?).
  pose proof (digits_value_nonneg _ Hd). lia.
Qed.

Lemma split_dots_chars (P : Z -> Prop) s :
  Forall (Forall P) (split_dots s) -> Forall (fun c => P c \/ c = 46) s.
Proof.
  assert (forall s, Forall (Forall P) (split_dots s) -> Forall (fun c => P c \/ c = 46) s /\ split_dots s <> [])
    as H; [|intros; by apply H].
  clear. intros s. induction s as [|c s IH]; simpl; [done|].
  destruct (split_dots s) as [|label labels]; [by destruct IH as [_ []]; constructor|].
  case_decide as Hc; intros H; inversion H as [|?? Hl Hls]; subst.
  - destruct IH as [IH _]; [done|]. split; [|done]. constructor; [by right|done].
  - inversion Hl; subst. destruct IH as [IH _]; [by constructor|]. split; [|done].
    constructor; [by left|done].
Qed.

Lemma lowercase_idem (s : rstring) : ascii_lowercase <$> (ascii_lowercase <$> s) = ascii_lowercase <$> s.
Proof.
  rewrite <-list_fmap_compose. apply list_fmap_ext. intros i c _. unfold ascii_lowercase. simpl.
  repeat case_decide; lia.
Qed.

Lemma str_len_ascii s : Forall (fun c => c < 128) s -> str_len s = zlen s.
Proof. induction 1 as [|c s Hc _ IH]; simpl; [done|]. unfold len_utf8. rewrite decide_True by done. lia. Qed.
Lemma str_len_app s t : str_len (s ++ t) = str_len s + str_len t.
Proof. induction s as [|c s IH]; simpl; [done|]. rewrite IH. lia. Qed.
Lemma trim_printable s : Forall (fun c => 33 <= c < 127) s -> trim s = s.
Proof.
  intros Hs. apply trim_fixed. unfold is_whitespace. rewrite Forall_forall in Hs.
  split; intros c Hc; [apply head_Some_elem_of in Hc|apply last_Some_elem_of in Hc];
    specialize (Hs c Hc); lia.
Qed.
Lemma strip_dot_fixed s : last s <> Some 46 -> strip_dot s = s.
Proof.
  intros Hs. unfold strip_dot. rewrite <-head_reverse in Hs.
  destruct (reverse s) as [|c l] eqn:E; [done|]. simpl in Hs.
  destruct (decide (c = 46)) as [->|Hc]; [done|]. destruct c as [|c|c]; try done.
  repeat (destruct c as [c|c|]; try done).
Qed.

(** What the relays rely on of the textual form of an address: it is short,
    printable ASCII and parsed back, and a host name with a port that happens to
    be an address is its textual form. *)
Class SocketTextLaws `{!SocketAddrs, !SocketPorts} : Prop := {
  addr_text_parse a : addr_parse (addr_to_string a) = Some a;
  addr_text_printable a : Forall (fun c => 33 <= c < 127) (ascii_str (addr_to_string a));
  addr_text_len a : 1 <= zlen (ascii_str (addr_to_string a)) <= 512;
  addr_host_text host port s a :
    Forall (fun c => is_digit c \/ 97 <= c <= 122 \/ c = 45 \/ c = 46) host ->
    1 <= port <= 65535 -> ascii_str s = host ++ [58] ++ port_text port ->
    addr_parse s = Some a -> addr_to_string a = s /\ addr_port a = port;
}.

Lemma ascii_text_str s : Forall (fun c => c < 128) (ascii_str s) -> ascii_text (ascii_str s) = Some s.
Proof.
  intros Hs. unfold ascii_text. rewrite decide_True.
  - f_equal. unfold ascii_str. rewrite <-list_fmap_compose.
    rewrite <-(String.string_of_list_ascii_of_string s) at 2. f_equal.
    rewrite <-(list_fmap_id (String.list_ascii_of_string s)) at 2. apply list_fmap_ext.
    intros i a _. simpl. rewrite N2Z.id. apply Ascii.ascii_N_embedding.
  - rewrite Forall_forall in *. intros c Hc. split; [|by apply Hs].
    unfold ascii_str in Hc. apply list_elem_of_fmap in Hc as (a & -> & _). lia.
Qed.
Lemma ascii_text_Some s t : ascii_text s = Some t -> ascii_str t = s.
Proof.
  unfold ascii_text. case_decide as H; [|done]. intros [= <-]. unfold ascii_str.
  rewrite String.list_ascii_of_string_of_list_ascii, <-list_fmap_compose.
  rewrite <-(list_fmap_id s) at 2. apply list_fmap_ext. intros i c Hc. simpl.
  apply (Forall_lookup_1 _ _ _ _ H) in Hc. rewrite Ascii.N_ascii_embedding by lia. lia.
Qed.

Section canonical.
Context `{addrs : !SocketAddrs, ports : !SocketPorts, laws : !SocketTextLaws}.

Definition bad_host (host : rstring) : Prop :=
  host = [] \/ str_len host > 253 \/ head host = Some 46 \/ last host = Some 46 \/
    Exists bad_host_label (split_dots host).

(** A host that passes the label checks in lower case has only host characters. *)
Lemma good_host_chars host :
  ~ bad_host (ascii_lowercase <$> host) ->
  Forall (fun c => is_digit c \/ 97 <= c <= 122 \/ c = 45 \/ c = 46) (ascii_lowercase <$> host).
Proof.
  unfold bad_host. intros H. nor_inv. rewrite <-List.Forall_Exists_neg in H.
  assert (Forall (fun c => is_host_char c \/ c = 46) (ascii_lowercase <$> host)) as Hc.
  { apply split_dots_chars. eapply Forall_impl; [exact H|]. intros l Hl. unfold bad_host_label in Hl. nor_inv.
    done. }
  rewrite Forall_fmap in *. eapply Forall_impl; [exact Hc|]. intros c. simpl. unfold is_host_char, is_digit, ascii_lowercase.
  case_decide; lia.
Qed.

Lemma host_port_fixed h p :
  let host := ascii_lowercase <$> strip_dot h in
  ~ bad_host host -> 1 <= p <= 65535 ->
  (let? (host, port) := ok_or (rsplit_colon (host ++ [58] ++ port_text p)) InvalidEndpoint in
   let? port := ok_or (port ← parse_u16 port; if decide (port <> 0) then Some port else None)
                  InvalidEndpoint in
   let host := ascii_lowercase <$> strip_dot host in
   reject_if (host = [] \/ str_len host > 253 \/ head host = Some 46 \/ last host = Some 46 \/
              Exists bad_host_label (split_dots host)) InvalidEndpoint then?
   Ok (host ++ [58] ++ port_text port)) = Ok (host ++ [58] ++ port_text p).
Proof.
  intros host Hbad Hp. destruct (port_text_ok p Hp) as (Hparse & Hdig & Hlen).
  cbn [app]. rewrite rsplit_colon_app.
  2: { intros Hin. rewrite Forall_forall in Hdig. apply Hdig in Hin. unfold is_digit in Hin. lia. }
  cbn [ok_or mbind result_bind option_bind]. rewrite Hparse. cbn [ok_or mbind result_bind option_bind].
  rewrite decide_True by lia. cbn [ok_or mbind result_bind option_bind].
  rewrite (strip_dot_fixed host) by (unfold bad_host in Hbad; nor_inv; done).
  subst host. rewrite lowercase_idem. by rewrite reject_if_false by exact Hbad.
Qed.

Lemma canonical_host_fixed h p :
  ~ bad_host (ascii_lowercase <$> strip_dot h) -> 1 <= p <= 65535 ->
  canonical_relay_endpoint ((ascii_lowercase <$> strip_dot h) ++ [58] ++ port_text p) =
    Ok ((ascii_lowercase <$> strip_dot h) ++ [58] ++ port_text p).
Proof.
  set (host := ascii_lowercase <$> strip_dot h). intros Hbad Hp.
  destruct (port_text_ok p Hp) as (Hparse & Hdig & Hlen).
  pose proof (good_host_chars _ Hbad) as Hchars. fold host in Hchars.
  assert (Forall (fun c => 33 <= c < 127) (host ++ [58] ++ port_text p)) as Hprint.
  { rewrite !Forall_app, Forall_singleton. split; [|split; [lia|]].
    - eapply Forall_impl; [exact Hchars|]. unfold is_digit. simpl. lia.
    - eapply Forall_impl; [exact Hdig|]. unfold is_digit. simpl. lia. }
  assert (forall l, Forall (fun c => 33 <= c < 127) l -> Forall (fun c => c < 128) l) as Hw.
  { intros l Hl. eapply Forall_impl; [exact Hl|]. simpl. lia. }
  assert (str_len host <= 253) as Hh by (unfold bad_host in Hbad; fold host in Hbad; nor_inv; lia).
  unfold canonical_relay_endpoint.
  rewrite (reject_if_false (_ \/ _)).
  2: { rewrite (trim_printable _ Hprint), !str_len_app, (str_len_ascii (port_text p)).
       - replace (str_len [58]) with 1 by done.
         intros [[_ ?]%app_nil|[|?]]; [done|lia|done].
       - apply Hw. rewrite !Forall_app in Hprint. apply Hprint. }
  cbn [mbind result_bind].
  destruct (ascii_text (host ++ [58] ++ port_text p)) as [s|] eqn:Es; cbn [mbind option_bind].
  - pose proof (ascii_text_Some _ _ Es) as Hs. destruct (addr_parse s) as [a|] eqn:Ea.
    + destruct (addr_host_text host p s a) as [Ht Hap]; [done|done|done|done|].
      rewrite reject_if_false by lia. cbn [mbind result_bind]. by rewrite Ht, Hs.
    + exact (host_port_fixed h p Hbad Hp).
  - exact (host_port_fixed h p Hbad Hp).
Qed.

Lemma canonical_fixed e c :
  canonical_relay_endpoint e = Ok c -> canonical_relay_endpoint c = Ok c.
Proof.
  unfold canonical_relay_endpoint at 1. rewrite guard_bind. intros [_ H].
  destruct (ascii_text e ≫= addr_parse) as [a|].
  - rewrite guard_bind in H. destruct H as [Hport [= <-]]. unfold canonical_relay_endpoint.
    pose proof (addr_text_printable a) as Hp. pose proof (addr_text_len a) as Hl.
    assert (Forall (fun c => c < 128) (ascii_str (addr_to_string a))) as Ha
      by (eapply Forall_impl; [exact Hp|]; intros; simpl in *; lia).
    rewrite (reject_if_false (_ \/ _)).
    2: { rewrite str_len_ascii, (trim_printable _ Hp) by done.
         intros [E|[|[]]]; [rewrite E in Hl; simpl in Hl; lia|lia|done]. }
    cbn [mbind result_bind]. rewrite ascii_text_str by done. cbn [mbind option_bind].
    rewrite addr_text_parse. by rewrite (reject_if_false (addr_port a = 0)) by done.
  - destruct (rsplit_colon e) as [[h d]|]; [|done].
    cbn [ok_or mbind result_bind] in H.
    destruct (parse_u16 d) as [p|] eqn:Hd; [|done]. cbn [ok_or mbind result_bind option_bind] in H.
    case_decide as Hp; [|done]. cbn [ok_or mbind result_bind] in H.
    rewrite guard_bind in H. destruct H as [Hhost [= <-]]. apply parse_u16_range in Hd.
    apply canonical_host_fixed; [done|lia].
Qed.
End canonical.

(** * The file round trip *)

#[global] Instance rstring_lt_strict : StrictOrder rstring_lt.
Proof.
  split.
  - intros a. induction a as [|x a IH]; [by intros []|]. intros [Hx|[_ Ha]]; [lia|by apply IH].
  - intros a. induction a as [|x a IH]; intros [|y b] [|z c]; simpl; try done.
    intros [Hxy|[-> Hab]] [Hyz|[-> Hbc]]; [left; lia|by left|by left|right; split; [done|by eapply IH]].
Qed.
#[global] Instance rstring_lt_trichotomy : Trichotomy rstring_lt.
Proof.
  intros a. induction a as [|x a IH]; intros [|y b]; simpl; [by right; left|by left|by do 2 right|].
  destruct (Z.lt_trichotomy x y) as [|[->|]]; [by left; left| |by do 2 right; left].
  destruct (IH b) as [|[->|]]; [left; by right|by right; left|do 2 right; by right].
Qed.

Section file.
Context `{addrs : !SocketAddrs, ports : !SocketPorts}.
Context `{!Postcard KnownRelayFile, !PostcardLaws KnownRelayFile}.
Abbreviation pins := (gmap rstring (array 32)).

(** What every entry of the database satisfies. *)
Definition entry_valid (e : rstring) (key : array 32) : Prop :=
  canonical_relay_endpoint e = Ok e /\ key <> zeros 32.
Definition pins_valid (m : pins) : Prop :=
  map_Forall entry_valid m /\ Z.of_nat (size m) <= MAX_KNOWN_RELAYS.

Definition to_entry (x : rstring * array 32) : KnownRelayEntry :=
  {| entry_endpoint := x.1; entry_key := x.2 |}.

Lemma read_entries_sound previous entries m m' :
  read_entries previous entries m = Ok m' -> map_Forall entry_valid m ->
  map_Forall entry_valid m' /\ (size m' <= size m + length entries)%nat.
Proof using Type.
  revert previous m. induction entries as [|e entries IH]; intros previous m; simpl.
  { intros [= <-]. split; [done|lia]. }
  rewrite bind_Ok_inv. intros (c & Hc & H) Hm. rewrite guard_bind in H. destruct H as [Hg H].
  nor_inv. subst. apply IH in H as [Hv Hs].
  - split; [done|]. rewrite map_size_insert in Hs. destruct (m !! _); simpl in *; lia.
  - by apply map_Forall_insert_2.
Qed.

Lemma read_entries_complete l previous m :
  Sorted rstring_lt l.*1 -> Forall (fun x => entry_valid x.1 x.2) l ->
  is_none_or (fun p => HdRel rstring_lt p l.*1) previous ->
  read_entries previous (to_entry <$> l) m = Ok (list_to_map l ∪ m).
Proof using Type.
  revert previous m. induction l as [|[e key] l IH]; intros previous m Hs Hv Hp.
  { by rewrite list_to_map_nil, (left_id_L ∅ (∪)). }
  inversion Hs as [|?? Hs' Hhd]; subst. inversion Hv as [|?? [Hc Hk] Hv']; subst. simpl in *.
  rewrite Hc. cbn [mbind result_bind]. rewrite reject_if_false.
  2: { intros [|[Hlt|]]; [done| |done]. destruct previous as [p|]; simpl in *; [|done].
       apply Hlt. by inversion Hp. }
  cbn [mbind result_bind]. rewrite IH; [|done|done|done]. f_equal.
  rewrite <-insert_union_l, insert_union_r; [done|]. apply not_elem_of_list_to_map.
  apply Sorted_StronglySorted in Hs; [|apply _]. inversion Hs as [|?? _ Hall]. intros Hin.
  rewrite Forall_forall in Hall. by destruct (irreflexivity rstring_lt e (Hall _ Hin)).
Qed.

Lemma sorted_keys (l : list (rstring * array 32)) :
  Sorted (lex rstring_lt array_le) l -> NoDup l.*1 -> Sorted rstring_lt l.*1.
Proof using Type.
  induction 1 as [|x l Hl IH Hx]; simpl; [constructor|]. intros [Hnot Hnd]%NoDup_cons.
  constructor; [auto|]. destruct l as [|y l]; simpl; constructor. inversion Hx as [|?? [|[Heq _]]]; [done|].
  subst. rewrite Heq in Hnot. destruct Hnot. by left.
Qed.

Lemma read_sorted_entries (m : pins) :
  map_Forall entry_valid m -> read_entries None (sorted_entries m) ∅ = Ok m.
Proof using Type.
  intros Hm. unfold sorted_entries.
  pose proof (sort_by_Permutation (lex rstring_lt array_le) (map_to_list m)) as Hperm.
  assert (NoDup (sort_by (lex rstring_lt array_le) (map_to_list m)).*1) as Hnd
    by (rewrite Hperm; apply NoDup_fst_map_to_list).
  change (read_entries None (to_entry <$> sort_by (lex rstring_lt array_le) (map_to_list m)) ∅ = Ok m).
  rewrite read_entries_complete; [|..|done].
  - rewrite (right_id_L ∅ (∪)). f_equal. rewrite (list_to_map_proper _ _ Hnd Hperm).
    apply list_to_map_to_list.
  - apply sorted_keys; [|done]. apply sort_by_Sorted. apply _.
  - rewrite Hperm, Forall_forall. intros [e key] Hin%elem_of_map_to_list. by apply Hm.
Qed.
Lemma length_sorted_entries (m : pins) : length (sorted_entries m) = size m.
Proof using Type. unfold sorted_entries. by rewrite length_fmap, length_sort_by, length_map_to_list. Qed.

Lemma relays_open_valid path db :
  relays_open path = Ok db -> kr_file db = path /\ pins_valid (kr_entries db).
Proof using Type.
  unfold relays_open, pins_valid. intros H. res_inv. destruct x as [content|]; res_inv; simpl.
  2: { split; [done|]. split; [apply map_Forall_empty|]. rewrite map_size_empty. unfold MAX_KNOWN_RELAYS. lia. }
  destruct x as [file remainder]. res_inv. simpl. split; [done|].
  match goal with H : read_entries _ _ _ = _ |- _ => apply read_entries_sound in H as [Hv Hs] end;
    [|apply map_Forall_empty]. rewrite map_size_empty in Hs. split; [done|lia].
Qed.

(** A persisted database is the one its file opens to; an error leaves the old
    file, or the new one if it is the synchronization that failed. *)
Lemma persist_run disk db r db' :
  pins_valid (kr_entries db) -> persist disk db = (r, db') ->
  kr_entries db' = kr_entries db /\
  (relays_open (kr_file db') = Ok db' /\ (r = Ok tt \/ disk = DiskUnsynced) \/
   kr_file db' = kr_file db /\ exists e, r = Err e).
Proof.
  intros [Hv Hsize]. unfold persist. case_match eqn:Henc; [|intros [= <- <-]; split; [done|right; eauto]].
  destruct (replace_private disk a MAX_KNOWN_RELAYS_FILE_LEN (kr_file db)) as [r0 path] eqn:Hrun.
  intros [= <- <-]. cbn [kr_entries kr_file]. split; [done|]. res_inv.
  assert (relays_open (Some (stage_private a)) =
    Ok {| kr_file := Some (stage_private a); kr_entries := kr_entries db |}) as Hopen.
  { unfold relays_open. destruct (stage_private_read a MAX_KNOWN_RELAYS_FILE_LEN) as [_ ->]; [lia|].
    cbn [map_err mbind result_bind].
    match goal with H : to_stdvec _ = Ok _ |- _ => rewrite (take_to_stdvec_nil _ _ H) end.
    cbn [map_err mbind result_bind krf_version krf_entries]. rewrite !reject_if_false; [|..].
    - cbn [mbind result_bind]. by rewrite read_sorted_entries.
    - by intros [].
    - by intros [].
    - rewrite length_sorted_entries. lia. }
  unfold replace_private in Hrun. apply io_bind_run in Hrun as [(e & [= _ <-] & ->)|([] & p & [_ ->]%lift_Ok & Hpub)].
  - right. simpl. eauto.
  - destruct disk; injection Hpub as <- <-; simpl; eauto 6.
Qed.
End file.

(** * Trust on first use *)

Section trust.
Context `{addrs : !SocketAddrs, ports : !SocketPorts, laws : !SocketTextLaws}.
Context `{!Postcard KnownRelayFile, !PostcardLaws KnownRelayFile}.
Abbreviation pins := (gmap rstring (array 32)).

(** Storing valid pins persists them or leaves the file alone; an error that
    leaves them stored is one of the synchronization. *)
Lemma store_pins {A : Type} (disk : disk_outcome) (m : gmap rstring (array 32)) (out : A) db r db' :
  pins_valid m -> (set_entries m then? persist disk then? mret out) db = (r, db') ->
  (exists e, r = Err e /\ kr_file db' = kr_file db) \/
  kr_entries db' = m /\ relays_open (kr_file db') = Ok db' /\
    (r = Ok out \/ disk = DiskUnsynced /\ exists e, r = Err e).
Proof using PostcardLaws0.
  intros Hm. unfold mbind, io_bind, set_entries. destruct (persist _ _) as [r1 db1] eqn:E.
  destruct (persist_run disk {| kr_file := kr_file db; kr_entries := m |} _ _ Hm E)
    as [Hent [[Hopen Hr]|[Hfile [e ->]]]].
  - destruct r1 as [[]|e]; intros [= <- <-]; right; (split; [done|]); (split; [done|]); [by left|].
    right. destruct Hr as [|Hr]; [done|]. eauto.
  - intros [= <- <-]. left. eauto.
Qed.

Lemma pins_valid_insert raw e key m :
  pins_valid m -> canonical_relay_endpoint raw = Ok e -> key <> zeros 32 ->
  Z.of_nat (size m) < MAX_KNOWN_RELAYS -> pins_valid (<[e := key]> m).
Proof using laws.
  intros [Hv Hs] Hc%canonical_fixed Hkey Hsize. split.
  - by apply map_Forall_insert_2.
  - rewrite map_size_insert. destruct (m !! e); simpl; lia.
Qed.
Lemma pins_valid_delete e m : pins_valid m -> pins_valid (delete e m).
Proof using Type.
  intros [Hv Hs]. split; [by apply map_Forall_delete|]. rewrite map_size_delete.
  destruct (m !! e); simpl; lia.
Qed.

(** The operations, case by case. *)
Lemma verify_or_learn_cases disk raw key db :
  verify_or_learn disk raw key db =
  match canonical_relay_endpoint raw with
  | Err e => (Err e, db)
  | Ok e =>
      if decide (key = zeros 32) then (Err (InvalidState "zero relay key"), db)
      else match kr_entries db !! e with
      | Some pin => (if decide (pin = key) then Ok Known else Err (KeyChanged e), db)
      | None =>
          if decide (Z.of_nat (size (kr_entries db)) >= MAX_KNOWN_RELAYS)
          then (Err (InvalidState "too many relay entries"), db)
          else (set_entries (<[e := key]> (kr_entries db)) then? persist disk then? mret Learned) db
      end
  end.
Proof using Type.
  unfold verify_or_learn. destruct (canonical_relay_endpoint raw) as [e|e]; [|done].
  unfold mbind, io_bind, lift, reject_if. case_decide; [done|].
  destruct (kr_entries db !! e); case_decide; done.
Qed.
Lemma relays_forget_cases disk raw db :
  relays_forget disk raw db =
  match canonical_relay_endpoint raw with
  | Err e => (Err e, db)
  | Ok e =>
      match kr_entries db !! e with
      | None => (Ok false, db)
      | Some _ => (set_entries (delete e (kr_entries db)) then? persist disk then? mret true) db
      end
  end.
Proof using Type.
  unfold relays_forget. destruct (canonical_relay_endpoint raw) as [e|e]; [|done].
  unfold mbind, io_bind, lift. by destruct (kr_entries db !! e).
Qed.

(** One operation on a handle that agrees with its file. *)
Lemma relay_op_run disk op db r db' :
  relays_open (kr_file db) = Ok db -> run_relay_op disk op db = (r, db') ->
  (exists e, r = Err e /\ kr_file db' = kr_file db) \/
  (relays_open (kr_file db') = Ok db' /\ exists out, pin_step (kr_entries db) op out (kr_entries db') /\
     (r = Ok out \/ disk = DiskUnsynced /\ exists e, r = Err e)).
Proof using laws PostcardLaws0.
  intros Hopen. destruct (relays_open_valid _ _ Hopen) as [_ Hvalid].
  destruct op as [raw key|raw]; simpl; unfold mbind at 1, io_bind at 1;
    rewrite ?verify_or_learn_cases, ?relays_forget_cases;
    (destruct (canonical_relay_endpoint raw) as [e|e] eqn:Hc;
       [|by intros [= <- <-]; left; eexists]).
  - case_decide as Hz; [by intros [= <- <-]; left; eexists|].
    destruct (kr_entries db !! e) as [pin|] eqn:Hpin.
    { case_decide; intros [= <- <-]; [right|left; by eexists]. subst.
      split; [done|]. eexists. split; [by econstructor|by left]. }
    case_decide; [by intros [= <- <-]; left; eexists|].
    destruct ((set_entries _ then? _) db) as [r1 db1] eqn:Hrun.
    destruct (store_pins _ _ _ _ _ _ (pins_valid_insert raw e key _ Hvalid Hc Hz ltac:(lia)) Hrun)
      as [(e' & -> & Hf)|(Hm & Ho & Hr)]; [intros [= <- <-]; left; by eexists|].
    intros Hres. right. assert (db1 = db') as <- by (by destruct Hr as [->|[_ [? ->]]]; injection Hres).
    split; [done|]. exists (inl Learned). rewrite Hm. split; [by constructor|].
    destruct Hr as [->|[Hd [e' ->]]]; injection Hres as <-; [by left|right; eauto].
  - destruct (kr_entries db !! e) as [pin|] eqn:Hpin.
    + destruct ((set_entries _ then? _) db) as [r1 db1] eqn:Hrun.
      destruct (store_pins _ _ _ _ _ _ (pins_valid_delete e _ Hvalid) Hrun)
        as [(e' & -> & Hf)|(Hm & Ho & Hr)]; [intros [= <- <-]; left; by eexists|].
      intros Hres. right. assert (db1 = db') as <- by (by destruct Hr as [->|[_ [? ->]]]; injection Hres).
      split; [done|]. exists (inr true). rewrite Hm. split.
      * replace true with (bool_decide (is_Some (kr_entries db !! e))) by (by rewrite Hpin).
        by constructor.
      * destruct Hr as [->|[Hd [e' ->]]]; injection Hres as <-; [by left|right; eauto].
    + intros [= <- <-]. right. split; [done|]. eexists. split; [|by left].
      pose proof (pin_forgotten (kr_entries db) raw e Hc) as Hstep.
      by rewrite delete_id, Hpin in Hstep by done.
Qed.

(** The file after an operation: a step of the abstract store further, or as it was
    with an error. *)
Lemma with_relays_run disk op path db r path' :
  relays_open path = Ok db -> with_relays (run_relay_op disk op) path = (r, path') ->
  exists db', relays_open path' = Ok db' /\
    match r with
    | Ok out => pin_step (kr_entries db) op out (kr_entries db')
    | Err _ => path' = path \/ disk = DiskUnsynced /\ exists out, pin_step (kr_entries db) op out (kr_entries db')
    end.
Proof using laws PostcardLaws0.
  intros Hopen. unfold with_relays. rewrite Hopen. destruct (run_relay_op disk op db) as [r1 db1] eqn:Hrun.
  intros [= <- <-]. destruct (relays_open_valid _ _ Hopen) as [Hfile _].
  destruct (relay_op_run disk op db r1 db1) as [(e & -> & Hf)|(Ho & out & Hs & Hr)]; [by rewrite Hfile|done|..].
  - exists db. rewrite Hf, Hfile. split; [done|by left].
  - exists db1. split; [done|]. destruct Hr as [->|[Hd [e ->]]]; [done|]. right. eauto.
Qed.

(** Operations that do not forget an endpoint keep its pin. *)
Lemma pin_step_keeps m op out m' e pin :
  pin_step m op out m' -> m !! e = Some pin ->
  (forall raw, op = OpForget raw -> canonical_relay_endpoint raw <> Ok e) -> m' !! e = Some pin.
Proof using Type.
  intros [raw e' key Hc Hk|raw e' key Hc Hk Hz|raw e' Hc] Hpin Hop; [done|..].
  - rewrite lookup_insert_ne by congruence. done.
  - rewrite lookup_delete_ne; [done|]. intros ->. by apply (Hop raw).
Qed.
Lemma run_relay_ops_keeps ops path db e pin :
  relays_open path = Ok db -> kr_entries db !! e = Some pin ->
  (forall disk raw, (disk, OpForget raw) ∈ ops -> canonical_relay_endpoint raw <> Ok e) ->
  exists db', relays_open (run_relay_ops ops path) = Ok db' /\ kr_entries db' !! e = Some pin.
Proof using laws PostcardLaws0.
  unfold run_relay_ops. revert path db. induction ops as [|op ops IH]; intros path db Ho Hpin Hops; simpl.
  { by exists db. }
  destruct op as [disk op]. simpl.
  destruct (with_relays (run_relay_op disk op) path) as [r path1] eqn:Hrun. simpl.
  destruct (with_relays_run _ _ _ _ _ _ Ho Hrun) as (db1 & Ho1 & Hs).
  apply (IH _ db1); [done| |intros d raw Hraw; apply (Hops d); by right].
  assert (forall out, pin_step (kr_entries db) op out (kr_entries db1) -> kr_entries db1 !! e = Some pin) as Hstep.
  { intros out Hout. eapply pin_step_keeps; [done|done|]. intros raw ->. apply (Hops disk). by left. }
  destruct r as [out|e']; [by eapply Hstep|].
  destruct Hs as [->|[_ [out Hout]]]; [congruence|by eapply Hstep].
Qed.

(** An accepted key is the pin, and was it if there was one. *)
Lemma verify_accepted disk path db raw key out path1 :
  relays_open path = Ok db -> with_relays (verify_or_learn disk raw key) path = (Ok out, path1) ->
  exists db1 e, canonical_relay_endpoint raw = Ok e /\ relays_open path1 = Ok db1 /\
    kr_entries db1 !! e = Some key /\ forall pin, kr_entries db !! e = Some pin -> pin = key.
Proof using laws PostcardLaws0.
  intros Ho Hrun.
  assert (with_relays (run_relay_op disk (OpVerify raw key)) path = (Ok (inl out), path1)) as Hop.
  { revert Hrun. unfold with_relays. rewrite Ho. simpl. unfold mbind, io_bind.
    destruct (verify_or_learn disk raw key db) as [[o|e'] db1]; by intros [= <- <-]. }
  destruct (with_relays_run _ _ _ _ _ _ Ho Hop) as (db1 & Ho1 & Hstep). exists db1.
  inversion Hstep as [? e ? Hc Hk Hm|? e ? Hc Hk Hz Hm|]; subst; exists e; split_and!;
    by rewrite ?lookup_insert_eq; try congruence.
Qed.

(** C18: the known-relays file refines the abstract store of pins.  Starting from
    a file that opens, every operation leaves a file that opens, whatever the disk
    does to its write.  A success is a step of the abstract store between the maps
    the two files hold, after which looking the endpoint up gives the key that was
    accepted, or nothing if it was forgotten.  An error leaves the file itself as
    it was, except where the directory could not be synchronized after the rename:
    then the file holds the pins of the complete step. *)
Theorem known_relays_refine disk op path db r path' :
  relays_open path = Ok db -> with_relays (run_relay_op disk op) path = (r, path') ->
  exists db', relays_open path' = Ok db' /\
    match r with
    | Ok out => pin_step (kr_entries db) op out (kr_entries db') /\
        match op with
        | OpVerify raw key => relays_get db' raw = Ok (Some key)
        | OpForget raw => relays_get db' raw = Ok None
        end
    | Err _ => path' = path \/
        disk = DiskUnsynced /\ exists out, pin_step (kr_entries db) op out (kr_entries db')
    end.
Proof using laws PostcardLaws0.
  intros Ho Hrun. destruct (with_relays_run _ _ _ _ _ _ Ho Hrun) as (db' & Ho' & Hs).
  exists db'. split; [done|]. destruct r as [out|e]; [|done].
  split; [done|]. unfold relays_get.
  inversion Hs as [raw e key Hc Hk|raw e key Hc Hk Hz|raw e Hc]; subst; rewrite Hc; cbn [mbind result_bind];
    f_equal; [congruence| |]; by simplify_map_eq.
Qed.

(** C19: trust on first use: once a key was accepted for an endpoint, then
    whatever operations follow, other than forgetting the endpoint, and whatever
    the disk does to their writes, exactly that
    key is accepted for it under each of its spellings, and any other one is
    refused as a changed key. *)
Theorem pins_never_change disk disk' path db raw key out path1 ops raw' key' e :
  relays_open path = Ok db ->
  canonical_relay_endpoint raw = Ok e -> canonical_relay_endpoint raw' = Ok e -> key' <> zeros 32 ->
  with_relays (verify_or_learn disk raw key) path = (Ok out, path1) ->
  (forall d forgotten, (d, OpForget forgotten) ∈ ops -> canonical_relay_endpoint forgotten <> Ok e) ->
  (with_relays (verify_or_learn disk' raw' key') (run_relay_ops ops path1)).1 =
    if decide (key' = key) then Ok Known else Err (KeyChanged e).
Proof using laws PostcardLaws0.
  intros Ho Hc Hc' Hkey' Hrun Hops.
  destruct (verify_accepted _ _ _ _ _ _ _ Ho Hrun) as (db1 & e' & Hce & Ho1 & Hpin & _).
  rewrite Hc in Hce. injection Hce as <-.
  destruct (run_relay_ops_keeps ops _ _ _ _ Ho1 Hpin Hops) as (db2 & Ho2 & Hpin2).
  unfold with_relays. rewrite Ho2, verify_or_learn_cases, Hc', decide_False, Hpin2 by done.
  simpl. destruct (decide (key = key')), (decide (key' = key)); by try congruence.
Qed.
End trust.

(** ** Witnesses *)

Definition f_relay_entry : format KnownRelayEntry :=
  f_iso (f_pair (f_list f_Z) (f_array 32)) (fun e => (entry_endpoint e, entry_key e))
    (fun '(e, k) => Some {| entry_endpoint := e; entry_key := k |}).
Definition f_relay_file : format KnownRelayFile :=
  f_iso (f_pair f_Z (f_list f_relay_entry)) (fun f => (krf_version f, krf_entries f))
    (fun '(v, e) => Some {| krf_version := v; krf_entries := e |}).
#[export] Instance toy_relay_file : Postcard KnownRelayFile := postcard_of f_relay_file.
#[export] Instance toy_relay_file_laws : PostcardLaws KnownRelayFile.
Proof.
  apply postcard_of_laws, f_iso_ok; [by intros []|].
  apply f_pair_ok; [auto with toy|]. apply f_list_ok, f_iso_ok; [by intros []|auto with toy].
Defined.

(** One address. *)
Definition loopback_text : string := "127.0.0.1:80".
Definition one_addr : SocketAddrs := {|
  SocketAddr := unit;
  addr_to_string _ := loopback_text;
  addr_parse s := if decide (s = loopback_text) then Some tt else None;
|}.
Definition one_port : @SocketPorts one_addr := fun _ => 80.
Lemma one_addr_laws : @SocketTextLaws one_addr one_port.
Proof.
  split; simpl.
  - by intros [].
  - intros _. change (Forall (fun c => 33 <= c < 127) (ascii_str "127.0.0.1:80")). cbn. repeat constructor; lia.
  - intros _. vm_compute. by split.
  - intros host port s [] Hhost Hport Hs. case_decide as Heq; [|done]. intros _. subst s. split; [done|].
    destruct (port_text_ok port Hport) as (Hparse & Hdig & _).
    assert (rsplit_colon (host ++ 58 :: port_text port) = Some (host, port_text port)) as Hsplit.
    { apply rsplit_colon_app. intros Hin. rewrite Forall_forall in Hdig. apply Hdig in Hin.
      unfold is_digit in Hin. lia. }
    change (ascii_str loopback_text = host ++ 58 :: port_text port) in Hs. rewrite <-Hs in Hsplit.
    assert (rsplit_colon (ascii_str loopback_text) =
      Some (ascii_str "127.0.0.1", ascii_str "80")) as Hc by by vm_compute.
    rewrite Hc in Hsplit. injection Hsplit as _ Hp. change (ascii_str "80" = port_text port) in Hp.
    rewrite <-Hp in Hparse. injection Hparse as <-. done.
Qed.

#[local] Existing Instance one_addr.
#[local] Existing Instance one_port.

Definition raw_relay : rstring := ascii_str "Relay.Example.ORG.:08900".
Definition canonical_relay : rstring := ascii_str "relay.example.org:8900".
Example canonical_examples :
  let canonical s := canonical_relay_endpoint (ascii_str s) in
  canonical "Relay.Example.ORG.:+08900" = Ok canonical_relay /\
  canonical "127.0.0.1.:80" = Ok (ascii_str "127.0.0.1:80") /\
  canonical "relay:0" = Err InvalidEndpoint /\ canonical "a..b:80" = Err InvalidEndpoint /\
  canonical "a-:80" = Err InvalidEndpoint /\ canonical "relay:65536" = Err InvalidEndpoint /\
  canonical "relay" = Err InvalidEndpoint /\ canonical " relay:80" = Err InvalidEndpoint.
Proof. vm_compute. done. Qed.

Definition pin_key (b : byte) : array 32 := Vector.const b 32.
(** The file after a first connection. *)
Definition pinned_file : option FileEntry :=
  (with_relays (verify_or_learn DiskOk raw_relay (pin_key x05)) None).2.
Lemma pinned_run : with_relays (verify_or_learn DiskOk raw_relay (pin_key x05)) None = (Ok Learned, pinned_file).
Proof. vm_compute. reflexivity. Qed.
Definition empty_relays : KnownRelays := {| kr_file := None; kr_entries := ∅ |}.

(** A connection learns a key whose file cannot be synchronized. *)
Definition unsynced_run : result RelayTrustError (RelayTrustOutcome + bool) * option FileEntry :=
  with_relays (run_relay_op DiskUnsynced (OpVerify raw_relay (pin_key x05))) None.
Lemma known_relays_refine_witness :
  exists db', relays_open unsynced_run.2 = Ok db' /\
    match unsynced_run.1 with
    | Ok _ => False
    | Err _ => unsynced_run.2 = None \/ exists out, pin_step ∅ (OpVerify raw_relay (pin_key x05)) out (kr_entries db')
    end.
Proof.
  destruct (@known_relays_refine one_addr one_port one_addr_laws _ _ DiskUnsynced
    (OpVerify raw_relay (pin_key x05)) None empty_relays unsynced_run.1 unsynced_run.2)
    as (db' & Ho & Hs); [reflexivity|apply surjective_pairing|].
  exists db'. split; [exact Ho|]. assert (is_ok unsynced_run.1 = false) as Herr by (vm_compute; reflexivity).
  destruct unsynced_run.1 as [|e]; [discriminate|]. destruct Hs as [H|[_ H]]; [left; exact H|right; exact H].
Defined.

Lemma pins_never_change_witness :
  (with_relays (verify_or_learn DiskOk canonical_relay (pin_key x06))
     (run_relay_ops [(DiskUnsynced, OpForget (ascii_str "other:80")); (DiskOk, OpVerify canonical_relay (pin_key x05))] pinned_file)).1
  = Err (KeyChanged canonical_relay).
Proof.
  apply (@pins_never_change one_addr one_port one_addr_laws _ _ DiskOk DiskOk None empty_relays raw_relay (pin_key x05)
    Learned pinned_file [(DiskUnsynced, OpForget (ascii_str "other:80")); (DiskOk, OpVerify canonical_relay (pin_key x05))]
    canonical_relay (pin_key x06) canonical_relay).
  - reflexivity.
  - vm_compute. reflexivity.
  - vm_compute. reflexivity.
  - discriminate.
  - exact pinned_run.
  - intros d f [[= _ ->]|[Hf|[]%elem_of_nil]%elem_of_cons]%elem_of_cons; [|discriminate].
    intros H. apply (f_equal result_ok) in H. revert H. vm_compute. discriminate.
Defined.
