(* ===== verification/Daemon.v ===== *)
(** Process control ([crates/protocol/src/daemon.rs]): detaching, the arguments of
    the detached process, the control socket and its commands, and waiting for
    the shutdown.

    An argument is a text; one that is not UTF-8 is compared by the code after a
    lossy conversion, which changes no prefix in ASCII. *)
From Stdlib Require Import ZArith Lia.
From S2P Require Import Prelude Bytes RustStr KnownRelays.

(** * Detaching *)

Definition starts_with (prefix s : rstring) : Prop := take (length prefix) s = prefix.
#[global] Instance starts_with_dec prefix s : Decision (starts_with prefix s).
Proof. unfold starts_with. apply _. Defined.
Definition daemon_flag : rstring := ascii_str "--daemon".
(** [--flag=value] *)
Definition assigns (flag arg : rstring) : Prop := starts_with (flag ++ [61]) arg.
#[global] Instance assigns_dec flag arg : Decision (assigns flag arg).
Proof. unfold assigns. apply _. Defined.

(** The loop of [filtered_daemon_args] over the arguments behind the first. *)
Fixpoint filter_args (socket_flag child_flag : rstring) (args : list rstring) : list rstring :=
  match args with
  | [] => []
  | arg :: args =>
      if decide (arg = daemon_flag \/ arg = child_flag) then filter_args socket_flag child_flag args
      else if decide (arg = socket_flag) then
        match args with [] => [] | _ :: args => filter_args socket_flag child_flag args end
      else if decide (assigns daemon_flag arg \/ assigns socket_flag arg \/ assigns child_flag arg)
      then filter_args socket_flag child_flag args
      else arg :: filter_args socket_flag child_flag args
  end.
Definition filtered_daemon_args (socket_path socket_flag child_flag : rstring) (args : list rstring) :
    result string (list rstring) :=
  reject_if (socket_path = []) "daemon socket path must not be empty" then?
  Ok (filter_args socket_flag child_flag args).
(** [daemonize_if_requested]: the arguments of the detached process, if one is
    spawned. *)
Definition daemonize_if_requested (daemon daemon_child : bool) (socket_path socket_flag child_flag : rstring)
    (args : list rstring) : result string (option (list rstring)) :=
  if negb daemon || daemon_child then Ok None
  else
    let? args := filtered_daemon_args socket_path socket_flag child_flag args in
    Ok (Some (args ++ [child_flag; socket_flag; socket_path])).

(** * The control socket *)

(** What a command does: nothing, the shutdown flag, or [SIGTERM] to the process
    itself, whose handler sets the flag. *)
Inductive ControlEffect : Type := NoEffect | RequestShutdown | SignalTerm.
Definition process_id (pid : Z) : rstring := ascii_str "pid " ++ decimal 10 pid.
Definition handle_control_connection (pid : Z) (command : rstring) : rstring * ControlEffect :=
  let command := trim command in
  let any names := existsb (fun name => bool_decide (command = ascii_str name)) names in
  if any ["pid"; "status"]%string then (process_id pid ++ [10], NoEffect)
  else if any ["shutdown"; "stop"]%string then (ascii_str "ok shutting down" ++ [10], RequestShutdown)
  else if any ["signal TERM"; "signal SIGTERM"]%string then (ascii_str "ok signalled" ++ [10], SignalTerm)
  else (ascii_str "error unknown command" ++ [10], NoEffect).
(** The line that [manager_command] writes. *)
Definition command_line (command : rstring) : rstring :=
  if decide (last command = Some 10) then command else command ++ [10].

(** What is at the path of the socket: nothing, a socket that answers, or
    anything else, which can be removed or not. *)
Inductive SocketPath : Type := NoEntry | ActiveSocket | OtherEntry (removable : bool).
Definition prepare_socket_path (path : SocketPath) : result string SocketPath :=
  match path with
  | NoEntry => Ok NoEntry
  | ActiveSocket => Err "daemon socket already active"
  | OtherEntry removable => if removable then Ok NoEntry else Err "removing stale daemon socket"
  end.

(** What [serve_control_socket] waits for: a connection with the line that it
    sends, a failed accept, or a change of the shutdown flag by another task. *)
Inductive ControlEvent : Type := Accepted (command : rstring) | AcceptFailed | FlagChanged (shutdown : bool).
(** The loop, with the answers of the connections so far, each given by a task of
    its own; what a task does to the flag is a later event.  It ends when the flag
    is set, which is looked at first. *)
Fixpoint control_loop (pid : Z) (events : list ControlEvent) (shutdown : bool) :
    list (rstring * ControlEffect) * option (result string unit) :=
  if shutdown then ([], Some (Ok tt))
  else match events with
  | [] => ([], None)
  | Accepted command :: events =>
      let '(responses, ended) := control_loop pid events false in
      (handle_control_connection pid command :: responses, ended)
  | AcceptFailed :: _ => ([], Some (Err "accepting daemon control connection"%string))
  | FlagChanged shutdown :: events => control_loop pid events shutdown
  end.
(** The answers, the result, and what is left at the path: the socket is removed
    when the shutdown ends the loop. *)
Definition serve_control_socket (pid : Z) (path : SocketPath) (binds : bool) (events : list ControlEvent) :
    list (rstring * ControlEffect) * option (result string unit) * SocketPath :=
  match prepare_socket_path path with
  | Err e => ([], Some (Err e), path)
  | Ok path =>
      if negb binds then ([], Some (Err "binding daemon socket"%string), path)
      else
        let '(responses, ended) := control_loop pid events false in
        (responses, ended,
         match ended with
         | None => ActiveSocket
         | Some (Ok _) => NoEntry
         | Some (Err _) => OtherEntry true
         end)
  end.

(** [wait_for_shutdown] over the values that the flag takes after the first;
    [None] while it waits, and the end of the values is that all senders are gone. *)
Fixpoint wait_for_shutdown (shutdown : bool) (changes : list bool) (closed : bool) : option unit :=
  if shutdown then Some tt
  else match changes with
  | [] => if closed then Some tt else None
  | shutdown :: changes => wait_for_shutdown shutdown changes closed
  end.

(** * Theorems *)

Lemma assigns_not flag arg : arg = flag -> ~ assigns flag arg.
Proof.
  intros -> H. apply (f_equal length) in H. rewrite length_take, length_app in H. simpl in H. lia.
Qed.

(** The detached process does not detach again, and takes its socket from the
    last arguments only: none of the kept arguments is one of the flags. *)
Theorem detached_args_clean daemon daemon_child socket_path socket_flag child_flag args kept :
  daemonize_if_requested daemon daemon_child socket_path socket_flag child_flag args = Ok (Some kept) ->
  exists rest, kept = rest ++ [child_flag; socket_flag; socket_path] /\ socket_path <> [] /\
    rest `sublist_of` args /\
    Forall (fun arg => arg <> daemon_flag /\ arg <> child_flag /\ arg <> socket_flag /\
              ~ assigns daemon_flag arg /\ ~ assigns socket_flag arg /\ ~ assigns child_flag arg) rest.
Proof.
  unfold daemonize_if_requested. destruct (negb daemon || daemon_child); [done|].
  intros (rest & H & [= <-])%bind_Ok_inv. unfold filtered_daemon_args in H. rewrite guard_bind in H.
  destruct H as [Hpath [= <-]]. eexists. split_and!; [done|done|..].
  - clear Hpath. assert (forall n args, (length args <= n)%nat -> filter_args socket_flag child_flag args `sublist_of` args) as Hg.
    { intros n. induction n as [|n IH]; intros [|arg l] Hl; simpl in *; try lia; try done.
      repeat case_decide; try (by apply sublist_cons, IH; lia); [|by apply sublist_skip, IH; lia].
      destruct l as [|x l]; [by apply sublist_nil_l|]. simpl in Hl. apply sublist_cons, sublist_cons, IH. lia. }
    by apply (Hg (length args)).
  - clear Hpath. assert (forall n args, (length args <= n)%nat ->
      Forall (fun arg => arg <> daemon_flag /\ arg <> child_flag /\ arg <> socket_flag /\
              ~ assigns daemon_flag arg /\ ~ assigns socket_flag arg /\ ~ assigns child_flag arg)
        (filter_args socket_flag child_flag args)) as Hg.
    { intros n. induction n as [|n IH]; intros [|arg l] Hl; simpl in *; try lia; try constructor.
      case_decide as H1; [apply IH; lia|]. case_decide as H2.
      { destruct l as [|x l]; [constructor|]. simpl in Hl. apply IH. lia. }
      case_decide as H3; [apply IH; lia|]. constructor; [tauto|apply IH; lia]. }
    by apply (Hg (length args)).
Qed.
