(* ===== verification/RelayClient.v ===== *)
(** The client's side of a relay connection, which publishers
    ([crates/publisher/src/native_publish.rs], [native_admin.rs]) and viewers
    ([crates/viewer/src/lib.rs]) share: connecting under a pinned or learned
    relay key, writing a message and reading its reply.

    A client is a program over a world: its files, the replies that the open
    connection still delivers and the messages written so far.  The environment
    decides at each step what the clock shows, which random draws the entropy
    source gives, whether a write to the relay succeeds, what a new connection
    meets, how other processes have changed the files and what the disk does with a
    write.  It is arbitrary, so a theorem about a client holds against every relay
    and every failure. *)
From Stdlib Require Import ZArith Lia.
From S2P Require Import Prelude Bytes RustStr External Toy PrivateState KnownRelays.

(** The files of a client are a state directory with a known-relays file. *)
Class StateDir (D : Type) : Type := {
  known_relays : D -> option FileEntry;
  set_known_relays : option FileEntry -> D -> D;
}.
Class StateDirLaws (D : Type) `{!StateDir D} : Prop := {
  known_relays_set e (d : D) : known_relays (set_known_relays e d) = e;
}.

(** A write that times out may have reached the relay. *)
Inductive write_outcome : Type := WriteOk | WriteLost | WriteTimedOut.

(** What a connection meets: the relay key that the Noise handshake
    authenticates, or none if connecting failed, and what the successive reads
    give; a read fails when its reply is [None] and when there are no more. *)
Record Connection (R : Type) : Type := {
  conn_remote : option (array 32);
  conn_replies : list (option R);
}.
Arguments conn_remote {R} _.
Arguments conn_replies {R} _.

(** What the entropy source gives to one operation: the successive draws of
    identifiers and keys, a nonce prefix and the randomness of an encapsulation. *)
Record Entropy : Type := {
  draws32 : list (array 32);
  draws16 : list (array 16);
  draw4 : array 4;
  draw_bytes : bytes;
}.

Record ClientEnv (D R : Type) : Type := {
  env_clock : nat -> Z;
  env_entropy : nat -> Entropy;
  env_write : nat -> write_outcome;
  env_connection : nat -> Connection R;
  env_disk : nat -> D -> D;
  env_sync : nat -> disk_outcome;
}.
Arguments env_clock {D R} _ _.
Arguments env_entropy {D R} _ _.
Arguments env_write {D R} _ _.
Arguments env_connection {D R} _ _.
Arguments env_disk {D R} _ _ _.
Arguments env_sync {D R} _ _.

Record Client (D S R : Type) : Type := {
  cl_disk : D;
  cl_step : nat;
  cl_replies : list (option R);
  cl_sent : list S;
}.
Arguments cl_disk {D S R} _.
Arguments cl_step {D S R} _.
Arguments cl_replies {D S R} _.
Arguments cl_sent {D S R} _.

Section client.
Context `{addrs : !SocketAddrs, ports : !SocketPorts, relay_file : !Postcard KnownRelayFile}.
Context {D Snd R : Type} `{dir : !StateDir D}.
Context (env : ClientEnv D R).

Definition client (A : Type) : Type := io string (Client D Snd R) A.

Definition advance (c : Client D Snd R) : Client D Snd R := {|
  cl_disk := cl_disk c; cl_step := S (cl_step c); cl_replies := cl_replies c; cl_sent := cl_sent c |}.
Definition set_disk (d : D) (c : Client D Snd R) : Client D Snd R := {|
  cl_disk := d; cl_step := S (cl_step c); cl_replies := cl_replies c; cl_sent := cl_sent c |}.
Definition set_replies (replies : list (option R)) (c : Client D Snd R) : Client D Snd R := {|
  cl_disk := cl_disk c; cl_step := S (cl_step c); cl_replies := replies; cl_sent := cl_sent c |}.

(** [glacialcast_protocol::now_ms] *)
Definition client_now : client Z := fun c => (Ok (env_clock env (cl_step c)), advance c).
(** A computation over the draws of the entropy source; [None] means that they
    ran out. *)
Definition with_entropy {A} (f : Entropy -> option (result string A)) : client A := fun c =>
  (match f (env_entropy env (cl_step c)) with
   | Some r => r
   | None => Err "entropy source exhausted"
   end, advance c).

(** A file operation; other processes may have changed the files before it. *)
Definition disk_call {A} (f : D -> result string A * D) : client A := fun c =>
  let '(r, d) := f (env_disk env (cl_step c) (cl_disk c)) in (r, set_disk d c).
(** A file operation under a lock that this process holds. *)
Definition locked_call {A} (f : D -> result string A * D) : client A := fun c =>
  let '(r, d) := f (cl_disk c) in (r, set_disk d c).

(** The same for operations that write a file. *)
Definition disk_write {A} (f : disk_outcome -> D -> result string A * D) : client A := fun c =>
  disk_call (f (env_sync env (cl_step c))) c.
Definition locked_write {A} (f : disk_outcome -> D -> result string A * D) : client A := fun c =>
  locked_call (f (env_sync env (cl_step c))) c.

(** [write_publisher] and [write_viewer] *)
Definition write_relay (message : Snd) : client unit := fun c =>
  let sent := {| cl_disk := cl_disk c; cl_step := S (cl_step c); cl_replies := cl_replies c;
                 cl_sent := cl_sent c ++ [message] |} in
  match env_write env (cl_step c) with
  | WriteOk => (Ok tt, sent)
  | WriteLost => (Err "relay write failed", advance c)
  | WriteTimedOut => (Err "relay write timed out", sent)
  end.

(** [read_relay] and [read_viewer] *)
Definition read_relay : client R := fun c =>
  match cl_replies c with
  | Some message :: rest => (Ok message, set_replies rest c)
  | _ => (Err "relay response timed out", set_replies (tail (cl_replies c)) c)
  end.

(** A step whose failure is handled by the caller. *)
Definition attempt {A} (m : client A) : client (result string A) := fun c =>
  let '(r, c) := m c in (Ok r, c).

Fixpoint for_each {A} (f : A -> client unit) (l : list A) : client unit :=
  match l with
  | [] => mret tt
  | x :: l => f x then? for_each f l
  end.

(** [KnownRelays::open(path)?.get(endpoint)?] *)
Definition get_known (endpoint : rstring) : client (option (array 32)) :=
  disk_call (fun d =>
    (let? db := context "known relays" (relays_open (known_relays d)) in
     context "known relays" (relays_get db endpoint), d)).
(** [KnownRelays::open(path)?.verify_or_learn(endpoint, remote)?] *)
Definition learn_known (endpoint : rstring) (remote : array 32) : client unit :=
  disk_write (fun disk d =>
    let '(r, e) := with_relays (verify_or_learn disk endpoint remote) (known_relays d) in
    (context "known relays" r then? Ok tt, set_known_relays e d)).

(** A new connection replaces the one before it. *)
Definition open_connection : client (option (array 32)) := fun c =>
  let conn := env_connection env (cl_step c) in
  (Ok (conn_remote conn), set_replies (conn_replies conn) c).

(** Connecting, the handshake, whose callback refuses every key but the expected
    one, and learning the key of a relay without an explicit pin. *)
Definition check_remote (expected remote : option (array 32)) : result string (array 32) :=
  let? actual := ok_or remote "relay handshake failed" in
  reject_if (is_some_and (fun expected => actual <> expected) expected) "relay identity changed" then?
  Ok actual.
Definition learn_unpinned (endpoint : rstring) (pin : option (array 32)) (remote : array 32) :
    client unit :=
  match pin with
  | Some _ => mret tt
  | None => learn_known endpoint remote
  end.

(** In the publisher the file is read also under an explicit pin. *)
Definition publisher_handshake (endpoint : rstring) (pin : option (array 32)) : client (array 32) :=
  let? remote := open_connection in
  let? known := get_known endpoint in
  let? actual := lift (check_remote (match pin with Some key => Some key | None => known end) remote) in
  learn_unpinned endpoint pin actual then?
  mret actual.
Definition viewer_handshake (endpoint : rstring) (pin : option (array 32)) : client (array 32) :=
  let? remote := open_connection in
  let? expected := match pin with Some key => mret (Some key) | None => get_known endpoint end in
  let? actual := lift (check_remote expected remote) in
  learn_unpinned endpoint pin actual then?
  mret actual.
End client.
Arguments client : clear implicits.

(** * Host and port *)

(** [normalize_endpoint] and [normalize_relay]: [endpoint.contains(':')]. *)
Definition normalize_endpoint (endpoint : rstring) : rstring :=
  if decide (58 ∈ endpoint) then endpoint else endpoint ++ ascii_str ":8900".

(** * What a handshake establishes *)

Section handshake.
Context `{addrs : !SocketAddrs, ports : !SocketPorts, laws : !SocketTextLaws}.
Context `{relay_file : !Postcard KnownRelayFile, !PostcardLaws KnownRelayFile}.
Context {D Snd R : Type} `{dir : !StateDir D, !StateDirLaws D}.
Context (env : ClientEnv D R).

(** The key that a known-relays file pins an endpoint to. *)
Definition pinned (path : option FileEntry) (endpoint : rstring) : option (array 32) :=
  match relays_open path, canonical_relay_endpoint endpoint with
  | Ok db, Ok e => kr_entries db !! e
  | _, _ => None
  end.

Lemma learn_known_pins endpoint remote (c c' : Client D Snd R) :
  learn_known env endpoint remote c = (Ok tt, c') ->
  pinned (known_relays (cl_disk c')) endpoint = Some remote /\
  forall key, pinned (known_relays (env_disk env (cl_step c) (cl_disk c))) endpoint = Some key ->
    remote = key.
Proof using All.
  unfold learn_known, disk_write, disk_call, pinned. set (d := env_disk env (cl_step c) (cl_disk c)).
  destruct (with_relays _ _) as [r e] eqn:Hrun. intros [= Hr <-]. cbn [cl_disk set_disk].
  destruct r as [out|err]; [|done]. rewrite known_relays_set.
  destruct (relays_open (known_relays d)) as [db|] eqn:Ho; [|by unfold with_relays in Hrun; rewrite Ho in Hrun].
  destruct (verify_accepted _ _ _ _ _ _ _ Ho Hrun) as (db1 & k & Hc & Ho1 & Hpin & Hsame).
  rewrite Ho1, Hc. split; [done|]. intros key Hkey. symmetry. by apply Hsame.
Qed.

Lemma get_known_run endpoint (c : Client D Snd R) known c' :
  get_known env endpoint c = (Ok known, c') ->
  known = pinned (known_relays (cl_disk c')) endpoint /\
  c' = set_disk (env_disk env (cl_step c) (cl_disk c)) c.
Proof using Type.
  unfold get_known, disk_call, pinned. intros [= H <-]. cbn [cl_disk set_disk]. split; [|done].
  destruct (relays_open _) as [db|]; [|done]. cbn [context map_err mbind result_bind] in H.
  unfold relays_get in H. destruct (canonical_relay_endpoint endpoint); [|done].
  cbn [context map_err mbind result_bind] in H. by res_inv.
Qed.
Lemma check_remote_Ok expected remote actual :
  check_remote expected remote = Ok actual ->
  remote = Some actual /\ forall key, expected = Some key -> actual = key.
Proof using Type.
  unfold check_remote. intros H. res_inv. split; [done|]. intros key ->. simpl in *. by apply dec_stable.
Qed.
(** What follows the check of the key. *)
Lemma learn_unpinned_run endpoint pin remote (c c' : Client D Snd R) r :
  (learn_unpinned env endpoint pin remote then? mret remote) c = (Ok r, c') ->
  r = remote /\ (pin = None -> pinned (known_relays (cl_disk c')) endpoint = Some remote).
Proof using All.
  rewrite io_bind_Ok. intros ([] & c1 & Hl & [= <- <-]). split; [done|]. intros ->.
  by destruct (learn_known_pins _ _ _ _ Hl).
Qed.

(** C20: a connection goes on only with an authenticated relay: the key that
    the handshake authenticated is the explicit pin, or without one the key that
    the known-relays file now holds for the endpoint, which was that of the file
    before if it had one. *)
Theorem handshake_authenticates endpoint pin (c c' : Client D Snd R) remote :
  viewer_handshake env endpoint pin c = (Ok remote, c') \/
  publisher_handshake env endpoint pin c = (Ok remote, c') ->
  conn_remote (env_connection env (cl_step c)) = Some remote /\
  match pin with
  | Some key => remote = key
  | None =>
      pinned (known_relays (cl_disk c')) endpoint = Some remote /\
      forall key, pinned (known_relays (env_disk env (S (cl_step c)) (cl_disk c))) endpoint = Some key ->
        remote = key
  end.
Proof using All.
  intros [H|H]; unfold viewer_handshake, publisher_handshake in H;
    apply io_bind_Ok in H as (opened & c1 & [= <- <-] & H);
    apply io_bind_Ok in H as (known & c2 & Hk & H);
    apply io_bind_Ok in H as (actual & c3 & [Hcheck ->]%lift_Ok & H);
    apply learn_unpinned_run in H as [-> Hpin]; apply check_remote_Ok in Hcheck as [Hr Hexp];
    (split; [done|]); destruct pin as [key|]; try (split; [by apply Hpin|]; intros key Hkey).
  - apply Hexp. by injection Hk as <- _.
  - apply get_known_run in Hk as [-> ->]. by apply Hexp.
  - by apply Hexp.
  - apply get_known_run in Hk as [-> ->]. by apply Hexp.
Qed.

(** File operations leave the replies and what was written. *)
Lemma disk_call_run {A} (f : D -> result string A * D) (c c' : Client D Snd R) r :
  disk_call env f c = (r, c') -> cl_replies c' = cl_replies c /\ cl_sent c' = cl_sent c.
Proof using Type. unfold disk_call. case_match. by intros [= <- <-]. Qed.

Lemma disk_write_run {A} (f : disk_outcome -> D -> result string A * D) (c c' : Client D Snd R) r :
  disk_write env f c = (r, c') -> cl_replies c' = cl_replies c /\ cl_sent c' = cl_sent c.
Proof using Type. apply disk_call_run. Qed.

(** A handshake leaves the replies of the new connection. *)
Lemma publisher_handshake_run endpoint pin (c c' : Client D Snd R) r :
  publisher_handshake env endpoint pin c = (r, c') ->
  cl_replies c' = conn_replies (env_connection env (cl_step c)) /\ cl_sent c' = cl_sent c.
Proof using Type.
  unfold publisher_handshake, learn_unpinned, learn_known, get_known.
  intros [(e & [= ] & _)|(remote & c1 & [= <- <-] & H)]%io_bind_run.
  apply io_bind_run in H as [(e & [-> ->]%disk_call_run & _)|(known & c2 & [H1 H2]%disk_call_run & H)]; [done|].
  apply io_bind_run in H as [(e & [= _ <-] & _)|(actual & c3 & [= _ <-] & H)]; [done|].
  apply io_bind_run in H as [(e & H & _)|(u & c4 & H & Hret)].
  2: { assert (c4 = c') as <- by by injection Hret. destruct pin; [by injection H as _ <-|].
       by apply disk_write_run in H as [-> ->]. }
  destruct pin; [by injection H as _ <-|]. by apply disk_write_run in H as [-> ->].
Qed.
End handshake.

(** ** Witness

    A client whose only file is the known-relays file, in a run where the file
    changes between its steps: the relay is learned at the first connection. *)
#[local] Existing Instance one_addr.
#[local] Existing Instance one_port.
#[export] Instance file_dir : StateDir (option FileEntry) :=
  {| known_relays d := d; set_known_relays e _ := e |}.
#[export] Instance file_dir_laws : StateDirLaws (option FileEntry).
Proof. by split. Qed.
Definition learning_env : ClientEnv (option FileEntry) unit := {|
  env_clock _ := 0; env_write _ := WriteOk; env_disk _ d := d; env_sync _ := DiskOk;
  env_entropy _ := {| draws32 := []; draws16 := []; draw4 := zeros 4; draw_bytes := [] |};
  env_connection _ := {| conn_remote := Some (pin_key x05); conn_replies := [] |} |}.
Definition fresh_client : Client (option FileEntry) unit unit :=
  {| cl_disk := None; cl_step := 0; cl_replies := []; cl_sent := [] |}.
Definition learning_run := viewer_handshake learning_env raw_relay None fresh_client.
Lemma learning_run_ok : learning_run.1 = Ok (pin_key x05).
Proof. vm_compute. reflexivity. Qed.
Lemma handshake_authenticates_witness :
  pinned (known_relays (cl_disk learning_run.2)) raw_relay = Some (pin_key x05) /\
  forall key, pinned None raw_relay = Some key -> pin_key x05 = key.
Proof.
  refine (proj2 (@handshake_authenticates one_addr one_port one_addr_laws _ _ _ unit unit _ _
    learning_env raw_relay None fresh_client learning_run.2 (pin_key x05) _)).
  left. unfold learning_run. rewrite <-learning_run_ok. apply surjective_pairing.
Defined.
