(* ===== verification/Keyed.v ===== *)
(** Lists that are sorted by a fixed-size key, as the private files store them, and
    the entries of a map in the order of its keys. *)
From Stdlib Require Import ZArith Lia.
From S2P Require Import Prelude Bytes PrivateState.

Definition by_key {A} {n} (key : A -> array n) (x y : A) : Prop := array_le (key x) (key y).
#[global] Instance by_key_dec {A n} (key : A -> array n) : RelDecision (by_key key).
Proof. intros x y. unfold by_key. apply _. Defined.

(** * Lists in the order of a key *)

Section by_key.
Context {A : Type} {n : nat} (key : A -> array n).

#[global] Instance by_key_preorder : PreOrder (by_key key).
Proof. split; [intros x|intros x y z]; unfold by_key; [reflexivity|apply transitivity]. Qed.
#[global] Instance by_key_total : Total (by_key key).
Proof. intros x y. unfold by_key. apply (total array_le). Qed.

(** Strictly increasing keys. *)
Definition keyed (l : list A) : Prop := StronglySorted array_lt (key <$> l).

Lemma keyed_NoDup l : keyed l -> NoDup (key <$> l).
Proof using Type.
  unfold keyed. induction 1 as [|k ks Hs IH Hk]; constructor; [|done].
  intros Hin. rewrite Forall_forall in Hk. exact (irreflexivity array_lt k (Hk k Hin)).
Qed.
Lemma keyed_sort l : NoDup (key <$> l) -> keyed (sort_by (by_key key) l).
Proof using Type.
  intros Hnd. unfold keyed. apply Sorted_StronglySorted; [apply _|].
  pose proof (sort_by_Sorted (by_key key) l) as Hs.
  rewrite <-(sort_by_Permutation (by_key key) l) in Hnd. revert Hs Hnd.
  generalize (sort_by (by_key key) l). clear l. intros l.
  induction 1 as [|x l Hl IH Hx]; simpl; [constructor|]. intros [Hnot Hnd]%NoDup_cons.
  constructor; [auto|]. destruct l as [|y l]; simpl; constructor. inversion Hx as [|?? Hle]; subst.
  unfold by_key in Hle. apply array_le_lteq in Hle as [|Heq]; [done|].
  rewrite Heq in Hnot. destruct Hnot. by left.
Qed.
Lemma keyed_sublist l k : sublist l k -> keyed k -> keyed l.
Proof using Type.
  unfold keyed. induction 1 as [|x l k Hlk IH|x l k Hlk IH]; simpl; [done| |].
  - inversion 1 as [|?? Hk Hx]; subst. constructor; [auto|]. rewrite Forall_forall in *.
    intros y Hy. apply Hx. revert Hy. rewrite !list_elem_of_fmap.
    intros (z & -> & Hz). exists z. split; [done|]. by eapply elem_of_sublist.
  - inversion 1; auto.
Qed.
(** Inserting an element with a new key. *)
Lemma keyed_insert l x : keyed l -> key x ∉ key <$> l -> keyed (sort_by (by_key key) (l ++ [x])).
Proof using Type.
  intros Hl Hx. apply keyed_sort. rewrite fmap_app, NoDup_app. split; [by apply keyed_NoDup|].
  split; [|apply NoDup_singleton]. intros k Hk ->%list_elem_of_singleton. done.
Qed.
(** Such a list is determined by its elements. *)
Lemma keyed_unique l k : keyed l -> keyed k -> l ≡ₚ k -> l = k.
Proof using Type.
  unfold keyed. revert k. induction l as [|x l IH]; intros k Hl Hk Hp.
  { by apply Permutation_nil in Hp. }
  destruct k as [|y k]; [by apply Permutation_sym, Permutation_nil in Hp|].
  cbn [fmap list_fmap] in *. inversion Hl as [|?? Hl' Hx]; subst. inversion Hk as [|?? Hk' Hy]; subst.
  assert (x = y) as ->; [|f_equal; apply IH; [done..|by apply Permutation_cons_inv in Hp]].
  rewrite Forall_forall in Hx, Hy.
  assert (y ∈ x :: l) as [->|Hyx]%elem_of_cons by (rewrite Hp; by left); [done|].
  assert (x ∈ y :: k) as [->|Hxy]%elem_of_cons by (rewrite <-Hp; by left); [done|].
  destruct (irreflexivity array_lt (key x)). etrans; [apply Hx|apply Hy]; by apply list_elem_of_fmap_2.
Qed.
End by_key.

(** * Maps *)

(** The entries of a map in the order of its keys. *)
Definition ordered_entries {n} {V} (m : gmap (array n) V) : list (array n * V) :=
  sort_by (by_key fst) (map_to_list m).
Section ordered.
Context {n : nat} {V : Type}.

Lemma ordered_entries_perm (m : gmap (array n) V) : ordered_entries m ≡ₚ map_to_list m.
Proof using Type. apply sort_by_Permutation. Qed.
Lemma ordered_entries_map (m : gmap (array n) V) : list_to_map (ordered_entries m) = m.
Proof using Type.
  rewrite (list_to_map_proper _ (map_to_list m)), list_to_map_to_list; [done| |apply ordered_entries_perm].
  rewrite ordered_entries_perm. apply NoDup_fst_map_to_list.
Qed.
Lemma ordered_entries_keyed (m : gmap (array n) V) : keyed fst (ordered_entries m).
Proof using Type. apply keyed_sort, NoDup_fst_map_to_list. Qed.
(** A sorted list is that of its map, and deleting a key takes its entry out. *)
Lemma keyed_ordered (l : list (array n * V)) : keyed fst l -> ordered_entries (list_to_map l) = l.
Proof using Type.
  intros Hl. apply (keyed_unique fst); [apply ordered_entries_keyed|done|].
  rewrite ordered_entries_perm. apply map_to_list_to_map. by apply keyed_NoDup.
Qed.
Lemma ordered_entries_delete (m : gmap (array n) V) key :
  sublist (ordered_entries (delete key m)) (ordered_entries m).
Proof using Type.
  assert (ordered_entries (delete key m) = filter (fun x => x.1 <> key) (ordered_entries m)) as ->;
    [|apply sublist_filter].
  apply (keyed_unique fst); [apply ordered_entries_keyed| |].
  - eapply keyed_sublist; [apply sublist_filter|apply ordered_entries_keyed].
  - rewrite !ordered_entries_perm. apply NoDup_Permutation.
    + apply NoDup_map_to_list.
    + apply NoDup_filter, NoDup_map_to_list.
    + intros [k x]. rewrite list_elem_of_filter, !elem_of_map_to_list, lookup_delete_Some. naive_solver.
Qed.
Lemma ordered_entries_length (m : gmap (array n) V) : length (ordered_entries m) = size m.
Proof using Type. by rewrite ordered_entries_perm, length_map_to_list. Qed.
End ordered.
