(* ===== verification/Approvals.v ===== *)
(** [crates/publisher/src/native_admin.rs]: the durable viewer approvals of a
    publisher.

    The state is a private file that one process at a time changes under an
    exclusive lock; every administrative command and every turn of the live
    approval worker loads it, works on the copy and saves it, several times.  An
    error drops the copy, so only what was saved survives.  Configuration files,
    log lines and printed text are not modelled. *)
From Stdlib Require Import ZArith Lia.
From S2P Require Import Prelude Bytes RustStr External Toy PrivateState KeyHistory KnownRelays.
From S2P Require Import Identity Credential Native Envelope Transport Pairing Codecs Wire RelayClient Keyed.

Definition STATE_VERSION : Z := 3.
Definition MAX_STATE_BYTES : Z := 4 * 1024 * 1024.
Definition PAIR_LIFETIME_MS : Z := 24 * 60 * 60 * 1000.
Definition MAX_RECORDS : Z := 65536.

Inductive ViewerPolicy : Type := PolicyRequired | PolicyOpen | PolicyTrustedCa.
#[global] Instance viewer_policy_eq_dec : EqDecision ViewerPolicy.
Proof. solve_decision. Defined.

#[global] Instance decision_body_eq_dec : EqDecision PublisherDecisionBody.
Proof. solve_decision. Defined.
#[global] Instance publisher_decision_eq_dec : EqDecision PublisherDecision.
Proof. solve_decision. Defined.

(** * Data *)

Record PendingPairing : Type := {
  pp_request : PairRequest;
  pp_offer : PairOffer;
  pp_confirmation : option ViewerConfirmation;
  pp_source_addr : rstring;
}.
Record StreamGrant : Type := {
  sg_stream_id : uuid;
  sg_viewer : IdentityPublic;
}.
Record RevokedGrant : Type := {
  rg_stream_id : uuid;
  rg_viewer_id : array 32;
}.
#[global] Instance stream_grant_eq_dec : EqDecision StreamGrant.
Proof. solve_decision. Defined.
#[global] Instance revoked_grant_eq_dec : EqDecision RevokedGrant.
Proof. solve_decision. Defined.

Record PublisherState : Type := {
  ps_version : Z;
  ps_pending : list PendingPairing;
  ps_approved : list StreamGrant;
  ps_revoked : list RevokedGrant;
  ps_offer_outbox : list (array 32);
  ps_decision_outbox : list PublisherDecision;
  ps_history_outbox : list StreamGrant;
}.
Record PublisherStateV2 : Type := {
  p2_version : Z;
  p2_pending : list PendingPairing;
  p2_approved : list StreamGrant;
  p2_revoked : list RevokedGrant;
}.
Definition default_state : PublisherState := {|
  ps_version := STATE_VERSION; ps_pending := []; ps_approved := []; ps_revoked := [];
  ps_offer_outbox := []; ps_decision_outbox := []; ps_history_outbox := [] |}.
Definition set_pending (l : list PendingPairing) (s : PublisherState) : PublisherState := {|
  ps_version := ps_version s; ps_pending := l; ps_approved := ps_approved s;
  ps_revoked := ps_revoked s; ps_offer_outbox := ps_offer_outbox s;
  ps_decision_outbox := ps_decision_outbox s; ps_history_outbox := ps_history_outbox s |}.
Definition set_grants (approved : list StreamGrant) (revoked : list RevokedGrant)
    (history : list StreamGrant) (s : PublisherState) : PublisherState := {|
  ps_version := ps_version s; ps_pending := ps_pending s; ps_approved := approved;
  ps_revoked := revoked; ps_offer_outbox := ps_offer_outbox s;
  ps_decision_outbox := ps_decision_outbox s; ps_history_outbox := history |}.
Definition set_offer_outbox (l : list (array 32)) (s : PublisherState) : PublisherState := {|
  ps_version := ps_version s; ps_pending := ps_pending s; ps_approved := ps_approved s;
  ps_revoked := ps_revoked s; ps_offer_outbox := l;
  ps_decision_outbox := ps_decision_outbox s; ps_history_outbox := ps_history_outbox s |}.
Definition set_decision_outbox (l : list PublisherDecision) (s : PublisherState) : PublisherState := {|
  ps_version := ps_version s; ps_pending := ps_pending s; ps_approved := ps_approved s;
  ps_revoked := ps_revoked s; ps_offer_outbox := ps_offer_outbox s;
  ps_decision_outbox := l; ps_history_outbox := ps_history_outbox s |}.
Definition set_history_outbox (l : list StreamGrant) (s : PublisherState) : PublisherState :=
  set_grants (ps_approved s) (ps_revoked s) l s.

Record Profile : Type := {
  pf_relay : rstring;
  pf_identity : IdentitySecret;
  pf_noise_public : array 32;
  pf_credential : option NativeCredential;
  pf_pin : option (array 32);
}.
Record ApprovalPolicy : Type := {
  pol_mode : ViewerPolicy;
  pol_authority : option CertificateAuthorityPublic;
  pol_revocations : option RevocationList;
}.

(** The files of a publisher; [disk_output] is the file that a credential
    request is written to. *)
Record PublisherDisk : Type := {
  disk_known : option FileEntry;
  disk_state : option FileEntry;
  disk_history : option FileEntry;
  disk_output : option FileEntry;
}.
#[global] Instance publisher_dir : StateDir PublisherDisk := {|
  known_relays := disk_known;
  set_known_relays e d := {| disk_known := e; disk_state := disk_state d;
    disk_history := disk_history d; disk_output := disk_output d |};
|}.
#[global] Instance publisher_dir_laws : StateDirLaws PublisherDisk.
Proof. by split. Qed.
Definition set_disk_state (e : option FileEntry) (d : PublisherDisk) : PublisherDisk :=
  {| disk_known := disk_known d; disk_state := e;
     disk_history := disk_history d; disk_output := disk_output d |}.
Definition set_disk_output (e : option FileEntry) (d : PublisherDisk) : PublisherDisk :=
  {| disk_known := disk_known d; disk_state := disk_state d;
     disk_history := disk_history d; disk_output := e |}.

(** * Identifiers *)

Definition hex_digit (n : Z) : Z := if decide (n < 10) then 48 + n else 87 + n.
(** [hex]: two lower-case digits for each byte. *)
Definition hex (l : bytes) : rstring :=
  l ≫= fun b => [hex_digit (Z_of_byte b / 16); hex_digit (Z_of_byte b mod 16)].
Definition is_hexdigit (c : Z) : Prop := is_digit c \/ 65 <= c <= 70 \/ 97 <= c <= 102.
#[global] Instance is_hexdigit_dec c : Decision (is_hexdigit c).
Proof. unfold is_hexdigit. apply _. Defined.
Definition str_starts_with (prefix s : rstring) : bool := bool_decide (take (length prefix) s = prefix).

(** The indices of the elements that satisfy a predicate. *)
Definition matching_from {A} (start : nat) (p : A -> bool) (l : list A) : list nat :=
  fst <$> filter (fun x => p x.2 = true) (zip (seq start (length l)) l).
Definition matching {A} : (A -> bool) -> list A -> list nat := matching_from 0.

Definition unique_match (prefix : rstring) (matches : rstring -> list nat) : result string nat :=
  reject_if (prefix = [] \/ ~ Forall is_hexdigit prefix) "ID prefix must be hexadecimal" then?
  match matches (ascii_lowercase <$> prefix) with
  | [index] => Ok index
  | [] => Err "no matching ID"
  | _ => Err "ID prefix is ambiguous"
  end.

Definition unique_index (values : list (option rstring)) (prefix : rstring) : result string nat :=
  unique_match prefix (fun prefix =>
    matching (fun value => match value with Some value => str_starts_with prefix value | None => false end)
      values).

Section approvals.
Context `{crypto : !Crypto, addrs : !SocketAddrs, ports : !SocketPorts, codecs : !Codecs}.
Context `{relay_file : !Postcard KnownRelayFile, history_file : !Postcard KeyHistory}.
Context `{state_file : !Postcard PublisherState, state_file_v2 : !Postcard PublisherStateV2}.

(** [id().ok()] and [id().unwrap_or([0; 32])] *)
Definition viewer_id (v : IdentityPublic) : option (array 32) := result_ok (identity_id v).
Definition viewer_id_or_zero (v : IdentityPublic) : array 32 := default (zeros 32) (viewer_id v).
Definition request_key (r : PairRequest) : option (array 32) := result_ok (pair_request_id r).

(** Keys that are compared as tuples are fixed-size arrays, so that the
    lexicographic order is that of their concatenation. *)
Definition grant_key (g : StreamGrant) : array 48 :=
  sg_stream_id g +++ viewer_id_or_zero (sg_viewer g).
Definition revoked_key (g : RevokedGrant) : array 48 := rg_stream_id g +++ rg_viewer_id g.
Definition unique_request (pending : list PendingPairing) (prefix : rstring) : result string nat :=
  unique_index ((fun item => (fun id => hex (slice id)) <$> request_key (pp_request item)) <$> pending) prefix.

Definition unique_grant (grants : list StreamGrant) (stream_id : uuid) (prefix : rstring) :
    result string nat :=
  unique_match prefix (fun prefix =>
    matching (fun grant =>
      bool_decide (sg_stream_id grant = stream_id) &&
      match viewer_id (sg_viewer grant) with
      | Some id => str_starts_with prefix (hex (slice id))
      | None => false
      end) grants).

(** * The state file *)

(** [windows(2).all(|pair| key(pair[0]) < key(pair[1]))] *)
Definition strictly_ordered {A n} (key : A -> array n) (l : list A) : Prop :=
  windows2_any (fun a b => bool_decide (array_le b a)) (key <$> l) = false.
#[global] Instance strictly_ordered_dec {A n} (key : A -> array n) l : Decision (strictly_ordered key l).
Proof. unfold strictly_ordered. apply _. Defined.

Definition has_request (id : array 32) (pending : list PendingPairing) : Prop :=
  Exists (fun p => request_key (pp_request p) = Some id) pending.
#[global] Instance has_request_dec id pending : Decision (has_request id pending).
Proof. unfold has_request. apply _. Defined.

Definition decision_key (d : PublisherDecision) : array 32 := dec_request_id (dec_body d).

Definition validate_state (s : PublisherState) : result string unit :=
  reject_if
    (zlen (ps_pending s) > MAX_RECORDS \/ zlen (ps_approved s) > MAX_RECORDS \/
     zlen (ps_revoked s) > MAX_RECORDS \/ zlen (ps_offer_outbox s) > MAX_RECORDS \/
     zlen (ps_decision_outbox s) > MAX_RECORDS \/ zlen (ps_history_outbox s) > MAX_RECORDS \/
     ~ strictly_ordered id (ps_offer_outbox s) \/
     ~ strictly_ordered decision_key (ps_decision_outbox s) \/
     ~ strictly_ordered grant_key (ps_history_outbox s) \/
     Exists (fun id => ~ has_request id (ps_pending s)) (ps_offer_outbox s))
    "publisher state has invalid bounds, ordering, or outbox references".

(** The first branch of [load_state_unlocked]: a canonical current file. *)
Definition decode_current (content : bytes) : result string (option PublisherState) :=
  match take_from_bytes content with
  | Ok (state, remainder) =>
      if decide (remainder = [] /\ ps_version state = STATE_VERSION) then
        let? encoded := context "postcard" (to_stdvec state) in
        Ok (if decide (encoded = content) then Some state else None)
      else Ok None
  | Err _ => Ok None
  end.
Definition migrate (s : PublisherStateV2) : PublisherState := {|
  ps_version := STATE_VERSION; ps_pending := p2_pending s; ps_approved := p2_approved s;
  ps_revoked := p2_revoked s; ps_offer_outbox := []; ps_decision_outbox := [];
  ps_history_outbox := p2_approved s |}.
Definition decode_v2 (content : bytes) : result string PublisherStateV2 :=
  let? (state, remainder) := context "postcard" (take_from_bytes content) in
  let? canonical :=
    if decide (remainder <> [] \/ p2_version state <> 2) then Ok false
    else let? encoded := context "postcard" (to_stdvec state) in
         Ok (bool_decide (encoded = content)) in
  reject_if (canonical = false) "publisher state is invalid or non-canonical" then?
  Ok state.

Definition load_state (path : option FileEntry) : result string PublisherState :=
  let? content := context "reading publisher state" (read_optional path MAX_STATE_BYTES) in
  match content with
  | None => Ok default_state
  | Some content =>
      let? current := decode_current content in
      match current with
      | Some state => validate_state state then? Ok state
      | None =>
          let? state := decode_v2 content in
          validate_state (migrate state) then?
          Ok (migrate state)
      end
  end.

Definition save_state (disk : disk_outcome) (s : PublisherState) : io string (option FileEntry) unit :=
  lift (validate_state s) then?
  let? encoded := lift (context "postcard" (to_stdvec s)) in
  lift (reject_if (zlen encoded > MAX_STATE_BYTES) "publisher state exceeds its bound") then?
  in_context "writing publisher state" (replace_private disk encoded MAX_STATE_BYTES).

Definition approved_viewers (path : option FileEntry) (stream_id : uuid) :
    result string (list IdentityPublic) :=
  let? state := load_state path in
  Ok (sg_viewer <$> filter (fun grant => sg_stream_id grant = stream_id) (ps_approved state)).

(** * Operations on the state *)

Definition is_revoked (s : PublisherState) (stream_id : uuid) (id : array 32) : Prop :=
  is_Some (binary_search (revoked_key <$> ps_revoked s)
             (revoked_key {| rg_stream_id := stream_id; rg_viewer_id := id |})).
#[global] Instance is_revoked_dec s stream_id id : Decision (is_revoked s stream_id id).
Proof. unfold is_revoked. apply _. Defined.

Definition add_approved (s : PublisherState) (stream_id : uuid) (viewer : IdentityPublic) :
    result string PublisherState :=
  let? id := context "identity" (identity_id viewer) in
  reject_if (is_revoked s stream_id id) "viewer is permanently revoked for this stream" then?
  Ok (if decide (Exists (fun g => sg_stream_id g = stream_id /\ viewer_id (sg_viewer g) = Some id)
                   (ps_approved s)) then s
      else
        let grant := {| sg_stream_id := stream_id; sg_viewer := viewer |} in
        set_grants (sort_by (by_key grant_key) (ps_approved s ++ [grant])) (ps_revoked s)
          (sort_by (by_key grant_key) (ps_history_outbox s ++ [grant])) s).

Definition queue_decision (s : PublisherState) (decision : PublisherDecision) :
    result string PublisherState :=
  match list_find (fun queued => decision_key queued = decision_key decision) (ps_decision_outbox s) with
  | Some (_, existing) =>
      reject_if (existing <> decision) "publisher decision outbox contains conflicting content" then?
      Ok s
  | None => Ok (set_decision_outbox (sort_by (by_key decision_key) (ps_decision_outbox s ++ [decision])) s)
  end.

(** [decide]; the request that the prefix names is approved or rejected. *)
Definition decide_request (p : Profile) (s : PublisherState) (prefix : rstring) (approve : bool)
    (now : Z) : result string PublisherState :=
  let? index := unique_request (ps_pending s) prefix in
  let? pending := ok_or (ps_pending s !! index) "index out of bounds" in
  let request := pp_request pending in
  let? decision :=
    if approve then
      let? confirmation := ok_or (pp_confirmation pending)
        "viewer has not confirmed the authentication string; approval cannot be skipped" in
      context "pairing" (approve_manual (pf_identity p) request (pp_offer pending) confirmation now)
    else context "pairing" (reject (pf_identity p) request now) in
  let? s := if approve
            then add_approved s (prq_stream_id (prq_body request)) (prq_viewer (prq_body request))
            else Ok s in
  let? s := queue_decision s decision in
  let s := set_pending (delete index (ps_pending s)) s in
  let? request_id := context "pairing" (pair_request_id request) in
  Ok (set_offer_outbox (filter (fun queued => queued <> request_id) (ps_offer_outbox s)) s).

(** The [Revoke] command. *)
Definition revoke (s : PublisherState) (viewer : rstring) (stream : uuid) : result string PublisherState :=
  let? index := unique_grant (ps_approved s) stream viewer in
  let? removed := ok_or (ps_approved s !! index) "index out of bounds" in
  let? id := context "identity" (identity_id (sg_viewer removed)) in
  let revoked := {| rg_stream_id := stream; rg_viewer_id := id |} in
  Ok (set_grants (delete index (ps_approved s))
        (if decide (revoked ∈ ps_revoked s) then ps_revoked s
         else sort_by (by_key revoked_key) (ps_revoked s ++ [revoked]))
        (filter (fun g => sg_stream_id g <> stream \/ viewer_id (sg_viewer g) <> Some id)
           (ps_history_outbox s)) s).

(** [ApproveAll]: the confirmed requests by their full identifiers. *)
Definition confirmed_ids (s : PublisherState) : result string (list rstring) :=
  mapR (fun pending => let? id := context "pairing" (pair_request_id (pp_request pending)) in
                       Ok (hex (slice id)))
    (filter (fun pending => is_Some (pp_confirmation pending)) (ps_pending s)).

(** * Conversations with the relay *)

Abbreviation admin := (client PublisherDisk PublisherMessage RelayPublisherMessage).
Context (env : ClientEnv PublisherDisk RelayPublisherMessage).

(** [Hello] and its answer. *)
Definition greet (identity : IdentitySecret) (credential : option NativeCredential) : admin unit :=
  let? public := lift (context "identity" (identity_public identity)) in
  write_relay env (PubHello {|
    hello_protocol_version := PROTOCOL_VERSION; hello_role := RolePublisher;
    hello_identity := public; hello_credential := credential |}) then?
  let? reply := read_relay in
  match reply with
  | RpWelcome _ => mret tt
  | RpError _ => lift (Err "relay rejected publisher")
  | _ => lift (Err "relay did not welcome publisher")
  end.

Definition connect (p : Profile) : admin (array 32) :=
  let? remote := publisher_handshake env (pf_relay p) (pf_pin p) in
  greet (pf_identity p) (pf_credential p) then?
  mret remote.

Definition expect_pairing_ack (expected : array 32) : admin unit :=
  let? reply := read_relay in
  match reply with
  | RpPairingAck request_id =>
      lift (reject_if (request_id <> expected) "unexpected pairing acknowledgement")
  | RpError _ => lift (Err "relay rejected pairing record")
  | _ => lift (Err "unexpected pairing acknowledgement")
  end.

Definition save (s : PublisherState) : admin unit :=
  locked_write env (fun disk d =>
    let '(r, path) := save_state disk s (disk_state d) in (r, set_disk_state path d)).
Definition load : admin PublisherState :=
  locked_call (fun d => (load_state (disk_state d), d)).

(** The two loops of [flush_outbox], from the head of the queue on. *)
Fixpoint flush_offers (queue : list (array 32)) (s : PublisherState) : admin PublisherState :=
  match queue with
  | [] => mret s
  | request_id :: rest =>
      let? found := lift (ok_or (list_find (fun p => request_key (pp_request p) = Some request_id) (ps_pending s))
        "publisher offer outbox lost its pending request") in
      write_relay env (PubPairOffer (pp_offer found.2)) then?
      expect_pairing_ack request_id then?
      let s := set_offer_outbox rest s in
      save s then?
      flush_offers rest s
  end.
Fixpoint flush_decisions (queue : list PublisherDecision) (s : PublisherState) : admin PublisherState :=
  match queue with
  | [] => mret s
  | decision :: rest =>
      write_relay env (PubPairDecision decision) then?
      expect_pairing_ack (decision_key decision) then?
      let s := set_decision_outbox rest s in
      save s then?
      flush_decisions rest s
  end.
Definition flush_outbox (p : Profile) (s : PublisherState) : admin PublisherState :=
  if decide (ps_offer_outbox s = [] /\ ps_decision_outbox s = []) then mret s
  else
    connect p then?
    let? s := flush_offers (ps_offer_outbox s) s in
    flush_decisions (ps_decision_outbox s) s.

(** Retained group keys for a new viewer, the newest group first. *)
Definition publish_history_groups (publisher : IdentitySecret) (viewer : IdentityPublic)
    (stream_id : uuid) (groups : list RetainedGroupKey) : admin unit :=
  let groups := filter (fun g => rk_stream_id g = stream_id /\ has_published_content g) (rev groups) in
  match groups with
  | [] => mret tt
  | _ =>
      for_each (fun g =>
        let? envelope := with_entropy env (fun entropy =>
          Some (context "envelope" (envelope_seal publisher viewer (rk_stream_id g) (rk_epoch_id g)
            (rk_key_group_id g) (rk_key_id g) (rk_content_key g) (draw_bytes entropy)))) in
        write_relay env (PubKeyEnvelope envelope)) groups then?
      let? now := client_now env in
      write_relay env (PubPing now) then?
      let? reply := read_relay in
      match reply with
      | RpPong _ => mret tt
      | RpError _ => lift (Err "relay rejected retained key envelope")
      | _ => lift (Err "relay did not confirm retained key-envelope processing")
      end
  end.
Definition publish_history_envelopes (p : Profile) (stream_id : uuid) (viewer : IdentityPublic) :
    admin unit :=
  let? groups := disk_call env (fun d => (load_key_history (disk_history d), d)) in
  connect p then?
  publish_history_groups (pf_identity p) viewer stream_id groups.

(** The loop of [flush_history_outbox]; its errors are only logged. *)
Fixpoint flush_history (p : Profile) (grants : list StreamGrant) (s : PublisherState) :
    admin PublisherState :=
  match grants with
  | [] => mret s
  | grant :: grants =>
      let? sent := attempt (publish_history_envelopes p (sg_stream_id grant) (sg_viewer grant)) in
      match sent with
      | Ok _ =>
          let s := set_history_outbox
            (filter (fun queued => sg_stream_id queued <> sg_stream_id grant \/
                       viewer_id (sg_viewer queued) <> viewer_id (sg_viewer grant))
               (ps_history_outbox s)) s in
          let? saved := attempt (save s) in
          match saved with
          | Ok _ => flush_history p grants s
          | Err _ => mret s
          end
      | Err _ => flush_history p grants s
      end
  end.
Definition flush_history_outbox (p : Profile) (s : PublisherState) : admin PublisherState :=
  flush_history p (ps_history_outbox s) s.

(** * Fetching requests *)

(** The reading loop; each turn consumes a reply, so that one more turn than
    there are replies is enough. *)
Fixpoint read_inbox (fuel : nat) (requests : list (PairRequest * rstring))
    (confirmations : list ViewerConfirmation) :
    admin (list (PairRequest * rstring) * list ViewerConfirmation) :=
  match fuel with
  | O => lift (Err "out of fuel")
  | S fuel =>
      let? reply := read_relay in
      match reply with
      | RpPairRequest request source_addr _ =>
          read_inbox fuel (requests ++ [(request, ascii_str (addr_to_string source_addr))]) confirmations
      | RpViewerConfirmation confirmation => read_inbox fuel requests (confirmations ++ [confirmation])
      | RpPairingInboxComplete => mret (requests, confirmations)
      | RpError _ => lift (Err "relay pairing inbox failed")
      | _ => lift (Err "unexpected publisher inbox response")
      end
  end.
Definition fetch_inbox : admin (list (PairRequest * rstring) * list ViewerConfirmation) := fun c =>
  read_inbox (S (length (cl_replies c))) [] [] c.

(** What the policy says of a request: skip it, approve it, or ask. *)
Inductive policy_answer : Type := PolicySkip | PolicyApprove (reason : PairDecisionReason) | PolicyAsk.
Definition apply_policy (policy : ApprovalPolicy) (request : PairRequest) : admin policy_answer :=
  match pol_mode policy with
  | PolicyOpen => mret (PolicyApprove OpenPolicy)
  | PolicyTrustedCa =>
      match prq_viewer_credential (prq_body request), pol_authority policy with
      | Some credential, Some authority =>
          let? now := client_now env in
          mret (if is_ok (credential_verify_at credential authority (pol_revocations policy) RoleViewer
                            (noise_static_key (cred_body credential)) now)
                then PolicyApprove TrustedViewerCa else PolicySkip)
      | _, _ => mret PolicySkip
      end
  | PolicyRequired => mret PolicyAsk
  end.

(** The body of the loop over the fetched requests; [revoked] is the set of the
    revoked grants when it started. *)
Definition refresh_request (p : Profile) (policy : ApprovalPolicy) (relay_key : array 32)
    (revoked : list RevokedGrant) (request : PairRequest) (source_addr : rstring)
    (s : PublisherState) : admin PublisherState :=
  let body := prq_body request in
  let? now := client_now env in
  lift (context "pairing" (pair_request_verify request now PAIR_LIFETIME_MS)) then?
  let? request_id := lift (context "pairing" (pair_request_id request)) in
  let? viewer := lift (context "identity" (identity_id (prq_viewer body))) in
  if decide ({| rg_stream_id := prq_stream_id body; rg_viewer_id := viewer |} ∈ revoked) then mret s
  else if decide (has_request request_id (ps_pending s)) then mret s
  else
    let? answer := apply_policy policy request in
    match answer with
    | PolicySkip => mret s
    | PolicyApprove reason =>
        let? now := client_now env in
        let? decision := lift (context "pairing" (approve_by_policy (pf_identity p) request reason now)) in
        let? s := lift (add_approved s (prq_stream_id body) (prq_viewer body)) in
        lift (queue_decision s decision)
    | PolicyAsk =>
        let? now := client_now env in
        let? offer := with_entropy env (fun entropy =>
          context "pairing" <$> offer_new (pf_identity p) request (sha256 (slice relay_key)) now
            (prq_expires_at_ms body) PAIR_LIFETIME_MS (draws32 entropy)) in
        let s := set_pending (ps_pending s ++ [{| pp_request := request; pp_offer := offer;
                   pp_confirmation := None; pp_source_addr := source_addr |}]) s in
        mret (if decide (request_id ∈ ps_offer_outbox s) then s
              else set_offer_outbox (sort_by array_le (ps_offer_outbox s ++ [request_id])) s)
    end.

(** The loop over the fetched confirmations. *)
Definition refresh_confirmation (s : PublisherState) (confirmation : ViewerConfirmation) :
    result string PublisherState :=
  match list_find (fun p => request_key (pp_request p) = Some (cnf_request_id (cnf_body confirmation)))
          (ps_pending s) with
  | Some (index, pending) =>
      context "pairing" (confirmation_verify confirmation (pp_request pending) (pp_offer pending)) then?
      Ok (set_pending (<[index := {| pp_request := pp_request pending; pp_offer := pp_offer pending;
                          pp_confirmation := Some confirmation;
                          pp_source_addr := pp_source_addr pending |}]> (ps_pending s)) s)
  | None => Ok s
  end.

Definition pending_key (p : PendingPairing) : array 32 := default (zeros 32) (request_key (pp_request p)).

Fixpoint fold_state {A} (f : A -> PublisherState -> admin PublisherState) (l : list A)
    (s : PublisherState) : admin PublisherState :=
  match l with
  | [] => mret s
  | x :: l => let? s := f x s in fold_state f l s
  end.

Definition refresh_requests (p : Profile) (policy : ApprovalPolicy) (s : PublisherState) :
    admin PublisherState :=
  let? relay_key := connect p in
  write_relay env PubFetchPairingInbox then?
  let? (requests, confirmations) := fetch_inbox in
  let? s := fold_state (fun x => refresh_request p policy relay_key (ps_revoked s) x.1 x.2) requests s in
  let? s := fold_state (fun c s => lift (refresh_confirmation s c)) confirmations s in
  mret (set_pending (sort_by (by_key pending_key) (ps_pending s)) s).

(** * Commands and the live worker *)

Inductive AdminCommand : Type :=
| CmdRequests
| CmdApprove (request : rstring)
| CmdApproveAll
| CmdDeny (request : rstring)
| CmdRevoke (viewer : rstring) (stream : uuid)
| CmdViewers
| CmdCredentialRequest (subject : rstring).
Definition offline_command (command : AdminCommand) : Prop :=
  match command with CmdViewers | CmdRevoke _ _ => True | _ => False end.
#[global] Instance offline_command_dec command : Decision (offline_command command).
Proof. destruct command; apply _. Defined.

(** What [print_requests] computes of each request, which may fail. *)
Definition print_requests (s : PublisherState) : result string unit :=
  mapR (fun pending =>
    context "pairing" (pair_request_id (pp_request pending)) then?
    context "pairing" (authentication_string (pp_request pending) (pp_offer pending))) (ps_pending s) then?
  Ok tt.

Definition run_command (p : Profile) (command : AdminCommand) (s : PublisherState) :
    admin PublisherState :=
  let decide_now approve request s :=
    let? now := client_now env in lift (decide_request p s request approve now) in
  match command with
  | CmdRequests => lift (print_requests s) then? mret s
  | CmdApprove request => decide_now true request s
  | CmdApproveAll =>
      let? ids := lift (confirmed_ids s) in
      fold_state (decide_now true) ids s
  | CmdDeny request => decide_now false request s
  | CmdRevoke viewer stream => lift (revoke s viewer stream)
  | CmdViewers =>
      lift (mapR (fun grant => context "identity" (identity_id (sg_viewer grant))) (ps_approved s)) then?
      mret s
  | CmdCredentialRequest _ => lift (Err "handled before loading state")
  end.

(** Synchronizing with the relay before a command. *)
Definition synchronize (p : Profile) (policy : ApprovalPolicy) (s : PublisherState) :
    admin PublisherState :=
  let? s := flush_outbox p s in
  let? s := refresh_requests p policy s in
  save s then?
  flush_outbox p s.

(** The [CredentialRequest] command: a new private file with a signed request. *)
Definition write_credential_request (p : Profile) (subject : rstring) : admin unit :=
  let? now := client_now env in
  let? request := with_entropy env (fun entropy =>
    context "credential" <$> request_new (pf_identity p) subject RolePublisher (pf_noise_public p) now
      (i64_saturating_add now PAIR_LIFETIME_MS) (draws16 entropy)) in
  let? encoded := lift (context "credential" (request_encode request)) in
  disk_write env (fun disk d =>
    let '(r, path) := in_context "creating credential request" (create_private disk encoded) (disk_output d) in
    (r, set_disk_output path d)).

(** [execute]: a command on the state, under the lock of the state file. *)
Definition execute_locked (p : Profile) (policy : ApprovalPolicy) (command : AdminCommand) : admin unit :=
  let? s := load in
  let? s := if decide (offline_command command) then mret s else synchronize p policy s in
  let? s := run_command p command s in
  save s then?
  if decide (offline_command command) then mret tt
  else
    let? s := flush_outbox p s in
    flush_history_outbox p s then?
    mret tt.
Definition execute (p : Profile) (policy : ApprovalPolicy) (command : AdminCommand) : admin unit :=
  match command with
  | CmdCredentialRequest subject => write_credential_request p subject
  | _ => execute_locked p policy command
  end.

(** One turn of [run_live_approvals]. *)
Definition live_turn (p : Profile) (policy : ApprovalPolicy) : admin unit :=
  let? s := load in
  let? s := synchronize p policy s in
  flush_history_outbox p s then?
  mret tt.
End approvals.
