(* ===== verification/ApprovalsInv.v ===== *)
(** Invariants of the publisher's approval state: its file round trip, the
    permanence of revocations, the origin of grants, and the outboxes. *)
From Stdlib Require Import ZArith Lia.
From S2P Require Import Prelude Bytes RustStr External Toy PrivateState KeyHistory KnownRelays.
From S2P Require Import Identity Credential Native Envelope Transport Pairing Codecs Wire RelayClient Keyed.
From S2P Require Import Approvals.

Lemma strictly_ordered_keyed {A n} (key : A -> array n) l : strictly_ordered key l <-> keyed key l.
Proof. unfold strictly_ordered, keyed. rewrite <-not_true_iff_false. apply sorted_check. Qed.

(** * Deleting by index *)

Lemma elem_of_delete {A} i (l : list A) x : x ∈ delete i l -> x ∈ l.
Proof. intros H. eapply elem_of_sublist; [exact H|apply sublist_delete]. Qed.
Lemma NoDup_delete_notin {A} i (l : list A) x : NoDup l -> l !! i = Some x -> x ∉ delete i l.
Proof.
  intros Hnd Hi. rewrite (delete_Permutation l i x Hi) in Hnd. by apply NoDup_cons in Hnd as [? _].
Qed.
Lemma elem_of_delete_ne {A} i (l : list A) x y : l !! i = Some x -> y ∈ l -> y <> x -> y ∈ delete i l.
Proof. intros Hi Hy Hne. rewrite (delete_Permutation l i x Hi) in Hy. set_solver. Qed.

Lemma matching_from_lookup {A} start (p : A -> bool) l i :
  i ∈ matching_from start p l -> (start <= i)%nat /\ exists x, l !! (i - start)%nat = Some x /\ p x = true.
Proof.
  unfold matching_from. intros ([j x] & -> & [Hp Hin]%list_elem_of_filter)%list_elem_of_fmap. simpl in *.
  apply list_elem_of_lookup_1 in Hin as [k Hk]. apply lookup_zip_Some in Hk as [Hseq Hx].
  apply lookup_seq in Hseq as [-> Hlt]. split; [lia|]. exists x. split; [|done]. by replace (start + k - start)%nat with k by lia.
Qed.

(** * What a good state is *)

Section approvals.
Context `{crypto : !Crypto, addrs : !SocketAddrs, ports : !SocketPorts, codecs : !Codecs}.
Context `{relay_file : !Postcard KnownRelayFile, history_file : !Postcard KeyHistory}.
Context `{state_file : !Postcard PublisherState, state_file_v2 : !Postcard PublisherStateV2}.
Context `{!PostcardLaws PublisherState}.

(** [revoked] is kept sorted, grants are sorted and none of them is revoked, and
    retained keys are only queued for grants. *)
Record state_wf (s : PublisherState) : Prop := {
  wf_version : ps_version s = STATE_VERSION;
  wf_revoked : keyed revoked_key (ps_revoked s);
  wf_approved : keyed grant_key (ps_approved s);
  wf_disjoint g : g ∈ ps_approved s -> exists id, viewer_id (sg_viewer g) = Some id /\
    {| rg_stream_id := sg_stream_id g; rg_viewer_id := id |} ∉ ps_revoked s;
  wf_history : keyed grant_key (ps_history_outbox s);
  wf_history_approved g : g ∈ ps_history_outbox s -> g ∈ ps_approved s;
}.

Lemma pair_key_inj (s s' : uuid) (i i' : array 32) : s +++ i = s' +++ i' -> s = s' /\ i = i'.
Proof using Type. apply (@VectorSpec.append_inj byte 16 32). Qed.
Lemma revoked_key_inj a b : revoked_key a = revoked_key b -> a = b.
Proof using Type.
  destruct a, b. unfold revoked_key. simpl. intros [-> ->]%pair_key_inj. done.
Qed.
Lemma is_revoked_iff s stream id :
  keyed revoked_key (ps_revoked s) ->
  is_revoked s stream id <-> {| rg_stream_id := stream; rg_viewer_id := id |} ∈ ps_revoked s.
Proof using Type.
  intros Hs. unfold is_revoked. rewrite binary_search_member by done. rewrite list_elem_of_fmap. split.
  - by intros (g & ->%revoked_key_inj & Hg).
  - eauto.
Qed.

(** States that differ in their requests and outboxes of requests only. *)
Definition same_grants (s s' : PublisherState) : Prop :=
  ps_version s' = ps_version s /\ ps_approved s' = ps_approved s /\ ps_revoked s' = ps_revoked s /\
  ps_history_outbox s' = ps_history_outbox s.
#[global] Instance same_grants_preorder : PreOrder same_grants.
Proof. split; [by intros s|]. intros s s' s'' (?&?&?&?) (?&?&?&?). unfold same_grants. by split_and!; etrans. Qed.

(** The origin of a grant under a policy: the viewer confirmed the transcript of
    its request, or the policy approves the request by itself. *)
Inductive granted (policy : ApprovalPolicy) (r : PairRequest) : Prop :=
| granted_manual offer confirmation :
    confirmation_verify confirmation r offer = Ok tt -> granted policy r
| granted_open now :
    pol_mode policy = PolicyOpen -> pair_request_verify r now PAIR_LIFETIME_MS = Ok tt ->
    granted policy r
| granted_trusted credential authority now now' :
    pol_mode policy = PolicyTrustedCa -> pol_authority policy = Some authority ->
    prq_viewer_credential (prq_body r) = Some credential ->
    pair_request_verify r now PAIR_LIFETIME_MS = Ok tt ->
    credential_verify_at credential authority (pol_revocations policy) RoleViewer
      (noise_static_key (cred_body credential)) now' = Ok tt ->
    granted policy r.
Definition request_grant (r : PairRequest) : StreamGrant :=
  {| sg_stream_id := prq_stream_id (prq_body r); sg_viewer := prq_viewer (prq_body r) |}.

(** What a run of the program keeps, given what was revoked and granted before. *)
Context (policy : ApprovalPolicy) (revoked_before : list RevokedGrant) (granted_before : list StreamGrant).
Definition grant_ok (g : StreamGrant) : Prop :=
  g ∈ granted_before \/ exists r, g = request_grant r /\ granted policy r.
Record state_ok (s : PublisherState) : Prop := {
  ok_wf : state_wf s;
  ok_revoked : revoked_before ⊆ ps_revoked s;
  ok_granted : Forall grant_ok (ps_approved s);
}.

Lemma same_grants_ok s s' : same_grants s s' -> state_ok s -> state_ok s'.
Proof using Type.
  intros (Hv & Ha & Hr & Hh) [[W1 W2 W3 W4 W5 W6] R G].
  split; [split|..]; rewrite ?Hv, ?Ha, ?Hr, ?Hh; done.
Qed.

Lemma add_approved_ok s r s' :
  state_ok s -> granted policy r ->
  add_approved s (prq_stream_id (prq_body r)) (prq_viewer (prq_body r)) = Ok s' -> state_ok s'.
Proof using Type.
  intros [[W1 W2 W3 W4 W5 W6] R G] Hr. unfold add_approved. rewrite bind_Ok_inv.
  intros (id & Hid%context_Ok & H). rewrite guard_bind, is_revoked_iff in H by done.
  destruct H as [Hnot [= <-]]. case_decide as Hex; [by split|].
  assert (viewer_id (prq_viewer (prq_body r)) = Some id) as Hv by (unfold viewer_id; by rewrite Hid).
  set (g := request_grant r). change {| sg_stream_id := _; sg_viewer := _ |} with g.
  assert (grant_key g ∉ grant_key <$> ps_approved s) as Hnew.
  { intros (g' & [Hst Hid']%pair_key_inj & Hg')%list_elem_of_fmap. apply Hex, Exists_exists.
    exists g'. split; [done|]. split; [by rewrite <-Hst|]. destruct (W4 g' Hg') as (id' & Hv' & _).
    rewrite Hv'. unfold viewer_id_or_zero in Hid'. rewrite Hv' in Hid'. unfold g in Hid'. simpl in Hid'.
    rewrite Hv in Hid'. cbn in Hid'. by subst. }
  split; [split|..]; cbn [set_grants ps_version ps_approved ps_revoked ps_history_outbox]; try done.
  - by apply keyed_insert.
  - intros g' [Hg'|Hg'%list_elem_of_singleton]%(elem_of_sort_by _ _ _)%elem_of_app; [by apply W4|].
    subst g'. by exists id.
  - apply keyed_insert; [done|]. intros (g' & Hk & Hg'%W6)%list_elem_of_fmap. apply Hnew, list_elem_of_fmap. eauto.
  - intros g' Hg'. rewrite elem_of_sort_by, elem_of_app in Hg' |- *. naive_solver.
  - rewrite (sort_by_Permutation (by_key grant_key)), Forall_app, Forall_singleton. split; [done|].
    right. by exists r.
Qed.

Lemma queue_decision_same s d s' : queue_decision s d = Ok s' -> same_grants s s'.
Proof using Type.
  unfold queue_decision. destruct (list_find _ _) as [[i e]|].
  - rewrite guard_bind. intros [_ [= <-]]. done.
  - intros [= <-]. by split_and!.
Qed.

Lemma decide_request_ok p s prefix approve now s' :
  state_ok s -> decide_request p s prefix approve now = Ok s' -> state_ok s'.
Proof using Type.
  intros Hs H. unfold decide_request in H.
  apply bind_Ok_inv in H as (index & _ & H). apply bind_Ok_inv in H as (pending & Hp & H).
  apply bind_Ok_inv in H as (decision & Hd & H). apply bind_Ok_inv in H as (s1 & Hs1 & H).
  apply bind_Ok_inv in H as (s2 & Hs2%queue_decision_same & H).
  apply bind_Ok_inv in H as (request_id & _ & [= <-]).
  apply (same_grants_ok s1); [etrans; [exact Hs2|by split_and!]|].
  destruct approve; [|by injection Hs1 as <-].
  apply bind_Ok_inv in Hd as (c & _ & Hd%context_Ok). unfold approve_manual in Hd.
  rewrite unit_bind in Hd. eapply add_approved_ok; [done| |exact Hs1]. by econstructor; apply Hd.
Qed.
Lemma unique_grant_Ok grants stream prefix index :
  unique_grant grants stream prefix = Ok index ->
  exists g, grants !! index = Some g /\ sg_stream_id g = stream.
Proof using Type.
  unfold unique_grant, unique_match. rewrite guard_bind. intros [_ H].
  destruct (matching _ grants) as [|i [|]] eqn:E; [done| |done]. injection H as ->.
  assert (index ∈ matching_from 0 (fun grant => bool_decide (sg_stream_id grant = stream) &&
      match viewer_id (sg_viewer grant) with
      | Some id => str_starts_with (ascii_lowercase <$> prefix) (hex (slice id))
      | None => false
      end) grants) as Hin by (fold (@matching StreamGrant); rewrite E; by left).
  apply matching_from_lookup in Hin as [_ (g & Hg & Hp)]. rewrite Nat.sub_0_r in Hg.
  apply andb_prop in Hp as [Hp%bool_decide_eq_true _]. by exists g.
Qed.

(** Revoking keeps the invariant, also for a larger set of revocations. *)
Lemma revoke_ok s viewer stream s' :
  state_ok s -> revoke s viewer stream = Ok s' -> state_ok s'.
Proof using Type.
  intros [[W1 W2 W3 W4 W5 W6] R G] H. unfold revoke in H.
  apply bind_Ok_inv in H as (index & (removed & Hi & Hst)%unique_grant_Ok & H).
  rewrite Hi in H. cbn [ok_or mbind result_bind] in H.
  apply bind_Ok_inv in H as (id & Hid%context_Ok & [= <-]).
  assert (viewer_id (sg_viewer removed) = Some id) as Hv by (unfold viewer_id; by rewrite Hid).
  set (grant := {| rg_stream_id := stream; rg_viewer_id := id |}).
  assert (forall g, g ∈ delete index (ps_approved s) ->
    ~ (sg_stream_id g = stream /\ viewer_id (sg_viewer g) = Some id)) as Hother.
  { intros g Hg [Hs Hg']. assert (grant_key g = grant_key removed) as Hk
      by (unfold grant_key, viewer_id_or_zero; by rewrite Hv, Hg', Hs, Hst).
    apply (NoDup_delete_notin index (grant_key <$> ps_approved s) (grant_key removed)).
    - by apply keyed_NoDup.
    - by rewrite list_lookup_fmap, Hi.
    - rewrite <-list_fmap_delete, <-Hk. by apply list_elem_of_fmap_2. }
  assert (forall x, x ∈ (if decide (grant ∈ ps_revoked s) then ps_revoked s
      else sort_by (by_key revoked_key) (ps_revoked s ++ [grant])) <-> x ∈ ps_revoked s \/ x = grant) as Hin.
  { intros x. case_decide; [naive_solver|]. by rewrite elem_of_sort_by, elem_of_app, list_elem_of_singleton. }
  split; [split|..]; cbn [set_grants ps_version ps_approved ps_revoked ps_history_outbox]; try done.
  - case_decide as Hold; [done|]. apply keyed_insert; [done|].
    by intros (g & ->%revoked_key_inj & Hg)%list_elem_of_fmap.
  - eapply keyed_sublist; [apply sublist_delete|done].
  - intros g Hg. destruct (W4 g) as (id' & Hv' & Hn); [by eapply elem_of_delete|].
    exists id'. split; [done|]. rewrite Hin. intros [|[= Hs ->]]; [done|]. by destruct (Hother g Hg).
  - eapply keyed_sublist; [apply sublist_filter|done].
  - intros g [Hf Hg%W6]%list_elem_of_filter. apply (elem_of_delete_ne _ _ removed); [done|done|].
    intros ->. naive_solver.
  - intros x Hx%R. apply Hin. by left.
  - rewrite Forall_forall in *. intros g Hg%elem_of_delete. by apply G.
Qed.

(** * The state file *)

(** A saved state is loaded back; an error leaves the file as it was, or with
    the new state if it is the synchronization that failed. *)
Lemma save_state_run disk s path r path' :
  ps_version s = STATE_VERSION -> save_state disk s path = (r, path') ->
  load_state path' = Ok s \/ path' = path /\ is_ok r = false.
Proof using PostcardLaws0.
  intros Hv. unfold save_state.
  intros [(e & [= _ <-] & ->)|([] & p1 & [Hval ->]%lift_Ok & H)]%io_bind_run; [by right|].
  apply io_bind_run in H as [(e & [= _ <-] & ->)|(encoded & p2 & [Henc%context_Ok ->]%lift_Ok & H)]; [by right|].
  apply io_bind_run in H as [(e & [= _ <-] & ->)|([] & p3 & [Hlen%reject_if_Ok ->]%lift_Ok & H)]; [by right|].
  apply in_context_run in H as (r0 & [->|[-> Hr]]%replace_private_run & ->).
  2: { right. split; [done|]. by destruct r0. }
  left. unfold load_state. destruct (stage_private_read encoded MAX_STATE_BYTES) as [_ ->]; [lia|].
  cbn [context map_err mbind result_bind]. unfold decode_current.
  rewrite (take_to_stdvec_nil _ _ Henc), decide_True by done. rewrite Henc.
  cbn [context map_err mbind result_bind]. rewrite decide_True by done. by rewrite Hval.
Qed.

Definition file_ok (path : option FileEntry) : Prop :=
  exists s, load_state path = Ok s /\ state_ok s.

Lemma save_ok disk s path r path' :
  state_ok s -> file_ok path -> save_state disk s path = (r, path') -> file_ok path'.
Proof using PostcardLaws0.
  intros Hs Hpath H. apply save_state_run in H as [H|[-> _]]; [by exists s|done|apply Hs].
Qed.

(** * Programs that keep the invariant

    The environment respects the lock of the state file. *)
Context (env : ClientEnv PublisherDisk RelayPublisherMessage).
Context (Hlock : forall n d, disk_state (env_disk env n d) = disk_state d).
Abbreviation admin := (client PublisherDisk PublisherMessage RelayPublisherMessage).

Definition untouched {A} (m : admin A) : Prop := forall c r c',
  m c = (r, c') -> disk_state (cl_disk c') = disk_state (cl_disk c).
Definition keeps {A} (m : admin A) (Q : A -> Prop) : Prop := forall c r c',
  file_ok (disk_state (cl_disk c)) -> m c = (r, c') ->
  file_ok (disk_state (cl_disk c')) /\ forall a, r = Ok a -> Q a.

Lemma untouched_bind {A B} (m : admin A) (k : A -> admin B) :
  untouched m -> (forall a, untouched (k a)) -> untouched (mbind k m).
Proof using Type.
  intros Hm Hk c r c' [(e & H & ->)|(a & c1 & H & Hr)]%io_bind_run; [by eapply Hm|].
  rewrite (Hk _ _ _ _ Hr). by eapply Hm.
Qed.
Lemma untouched_ret {A} (a : A) : untouched (mret a).
Proof using Type. by intros c r c' [= <- <-]. Qed.
Lemma untouched_lift {A} (r : result string A) : untouched (lift r).
Proof using Type. by intros c r' c' [= <- <-]. Qed.
Lemma untouched_now : untouched (client_now env).
Proof using Type. by intros c r' c' [= <- <-]. Qed.
Lemma untouched_entropy {A} (f : Entropy -> option (result string A)) : untouched (with_entropy env f).
Proof using Type. by intros c r' c' [= <- <-]. Qed.
Lemma untouched_write m : untouched (write_relay env m).
Proof using Type. intros c r' c'. unfold write_relay. by case_match; intros [= <- <-]. Qed.
Lemma untouched_read : untouched read_relay.
Proof using Type. intros c r' c'. unfold read_relay. by repeat case_match; intros [= <- <-]. Qed.
Lemma untouched_disk {A} (f : PublisherDisk -> result string A * PublisherDisk) :
  (forall d, disk_state (f d).2 = disk_state d) -> untouched (disk_call env f).
Proof using Hlock.
  intros Hf c r c'. unfold disk_call. pose proof (Hf (env_disk env (cl_step c) (cl_disk c))) as Hd.
  destruct (f _) as [r1 d]. intros [= <- <-]. simpl in *. by rewrite Hd, Hlock.
Qed.
Lemma untouched_disk_write {A} (f : disk_outcome -> PublisherDisk -> result string A * PublisherDisk) :
  (forall disk d, disk_state (f disk d).2 = disk_state d) -> untouched (disk_write env f).
Proof using Hlock. intros Hf c. apply untouched_disk. intros d. apply Hf. Qed.
Lemma untouched_for_each {A} (f : A -> admin unit) l : (forall x, untouched (f x)) -> untouched (for_each f l).
Proof using Type.
  intros Hf. induction l; simpl; [apply untouched_ret|]. by apply untouched_bind.
Qed.
Lemma untouched_attempt {A} (m : admin A) : untouched m -> untouched (attempt m).
Proof using Type. intros Hm c r c'. unfold attempt. destruct (m c) eqn:E; intros [= <- <-]. by eapply Hm. Qed.

Create HintDb untouched.
#[local] Hint Resolve untouched_bind untouched_ret untouched_lift untouched_now untouched_entropy
  untouched_write untouched_read untouched_for_each untouched_attempt : untouched.
Ltac untouched := repeat first [ apply untouched_bind | solve [eauto with untouched]
  | match goal with
    | |- forall _, _ => intro
    | |- untouched (match ?x with _ => _ end) => destruct x
    | |- untouched (let _ := ?x in _) => cbv zeta
    end ].

Lemma untouched_handshake relay pin : untouched (publisher_handshake env relay pin).
Proof using Hlock.
  unfold publisher_handshake. apply untouched_bind; [by intros c r c' [= <- <-]|]. intros remote.
  apply untouched_bind; [by apply untouched_disk|]. intros known. apply untouched_bind; [untouched|].
  intros actual. apply untouched_bind; [|untouched]. unfold learn_unpinned.
  destruct pin; [untouched|]. apply untouched_disk_write. intros disk d. by destruct (with_relays _ _).
Qed.
Lemma untouched_connect p : untouched (connect env p).
Proof using Hlock.
  unfold connect, greet. apply untouched_bind; [apply untouched_handshake|]. untouched.
Qed.
Lemma untouched_ack id : untouched (expect_pairing_ack id).
Proof using Type. unfold expect_pairing_ack. untouched. Qed.
Lemma untouched_history p stream viewer : untouched (publish_history_envelopes env p stream viewer).
Proof using Hlock.
  unfold publish_history_envelopes, publish_history_groups.
  apply untouched_bind; [by apply untouched_disk|]. intros groups.
  apply untouched_bind; [apply untouched_connect|]. untouched.
Qed.

Lemma keeps_untouched {A} (m : admin A) : untouched m -> keeps m (fun _ => True).
Proof using Type. intros Hm c r c' Hc Hrun. by rewrite (Hm _ _ _ Hrun). Qed.
Lemma keeps_mono {A} (m : admin A) (P Q : A -> Prop) : keeps m P -> (forall a, P a -> Q a) -> keeps m Q.
Proof using Type. intros Hm HPQ c r c' Hc Hrun. destruct (Hm c r c' Hc Hrun) as [? HP]. eauto. Qed.
Lemma kept_bind {A B} (m : admin A) (k : A -> admin B) (P : A -> Prop) (Q : B -> Prop) :
  keeps m P -> (forall a, P a -> keeps (k a) Q) -> keeps (mbind k m) Q.
Proof using Type.
  intros Hm Hk c r c' Hc [(e & H & ->)|(a & c1 & H & Hr)]%io_bind_run.
  - destruct (Hm _ _ _ Hc H) as [? _]. by split.
  - destruct (Hm _ _ _ Hc H) as [Hc1 HP]. by apply (Hk a (HP a eq_refl) c1).
Qed.
Lemma kept_ret {A} (a : A) (Q : A -> Prop) : Q a -> keeps (mret a) Q.
Proof using Type. intros Ha c r c' Hc [= <- <-]. split; [done|]. by intros ? [= <-]. Qed.
Lemma kept_lift {A} (r : result string A) (Q : A -> Prop) : (forall a, r = Ok a -> Q a) -> keeps (lift r) Q.
Proof using Type. intros Ha c r' c' Hc [= <- <-]. by split. Qed.
Lemma keeps_step {A B} (m : admin A) (k : A -> admin B) (Q : B -> Prop) :
  untouched m -> (forall a, keeps (k a) Q) -> keeps (mbind k m) Q.
Proof using Type. intros Hm Hk. eapply kept_bind; [by apply keeps_untouched|auto]. Qed.
Lemma keeps_attempt {A} (m : admin A) (Q : A -> Prop) :
  keeps m Q -> keeps (attempt m) (fun r => forall a, r = Ok a -> Q a).
Proof using Type.
  intros Hm c r c' Hc. unfold attempt. destruct (m c) as [r1 c1] eqn:E. intros [= <- <-].
  destruct (Hm _ _ _ Hc E) as [? HQ]. split; [done|]. by intros ? [= <-].
Qed.
Lemma keeps_load : keeps load state_ok.
Proof using Type.
  intros c r c' Hc. unfold load, locked_call. intros [= <- <-]. split; [done|].
  destruct Hc as (s & Hs & Hok). intros a Ha. congruence.
Qed.
Lemma keeps_save s : state_ok s -> keeps (save env s) (fun _ => True).
Proof using PostcardLaws0.
  intros Hs c r c' Hc. unfold save, locked_write, locked_call.
  destruct (save_state _ s _) as [r1 path] eqn:E. intros [= <- <-]. split; [|done]. by eapply save_ok.
Qed.

(** ** The operations *)

Lemma flush_offers_keeps queue s : state_ok s -> keeps (flush_offers env queue s) state_ok.
Proof using All.
  revert s. induction queue as [|id rest IH]; intros s Hs; cbn [flush_offers]; [by apply kept_ret|].
  apply keeps_step; [untouched|]. intros found. apply keeps_step; [untouched|]. intros _.
  apply keeps_step; [apply untouched_ack|]. intros _. cbv zeta.
  assert (state_ok (set_offer_outbox rest s)) as Hs' by (eapply same_grants_ok; [|done]; by split_and!).
  eapply kept_bind; [by apply keeps_save|]. intros _ _. by apply IH.
Qed.
Lemma flush_decisions_keeps queue s : state_ok s -> keeps (flush_decisions env queue s) state_ok.
Proof using All.
  revert s. induction queue as [|d rest IH]; intros s Hs; cbn [flush_decisions]; [by apply kept_ret|].
  apply keeps_step; [untouched|]. intros _. apply keeps_step; [apply untouched_ack|]. intros _. cbv zeta.
  assert (state_ok (set_decision_outbox rest s)) as Hs' by (eapply same_grants_ok; [|done]; by split_and!).
  eapply kept_bind; [by apply keeps_save|]. intros _ _. by apply IH.
Qed.
Lemma flush_outbox_keeps p s : state_ok s -> keeps (flush_outbox env p s) state_ok.
Proof using All.
  intros Hs. unfold flush_outbox. case_decide; [by apply kept_ret|].
  apply keeps_step; [apply untouched_connect|]. intros _.
  eapply kept_bind; [by apply flush_offers_keeps|]. intros s' Hs'. by apply flush_decisions_keeps.
Qed.

(** Taking grants out of the history queue. *)
Lemma drop_history_ok s (P : StreamGrant -> Prop) `{forall g, Decision (P g)} :
  state_ok s -> state_ok (set_history_outbox (filter P (ps_history_outbox s)) s).
Proof using Type.
  intros [[W1 W2 W3 W4 W5 W6] R G]. split; [split|..]; try done.
  - eapply keyed_sublist; [apply sublist_filter|done].
  - intros g [_ Hg%W6]%list_elem_of_filter. done.
Qed.
Lemma flush_history_keeps p grants s : state_ok s -> keeps (flush_history env p grants s) state_ok.
Proof using All.
  revert s. induction grants as [|g grants IH]; intros s Hs; cbn [flush_history]; [by apply kept_ret|].
  apply keeps_step; [apply untouched_attempt, untouched_history|]. intros [[]|e]; [|by apply IH]. cbv zeta.
  eapply kept_bind; [apply keeps_attempt, keeps_save; by apply drop_history_ok|].
  intros [[]|e] _; [apply IH|apply kept_ret]; by apply drop_history_ok.
Qed.

Lemma read_inbox_untouched fuel requests confirmations :
  untouched (read_inbox fuel requests confirmations : admin _).
Proof using Type.
  revert requests confirmations. induction fuel as [|fuel IH]; intros requests confirmations; cbn [read_inbox].
  { apply untouched_lift. }
  apply untouched_bind; [apply untouched_read|]. intros [];
    first [apply IH | apply untouched_ret | apply untouched_lift].
Qed.
Lemma fold_state_keeps {A} (f : A -> PublisherState -> admin PublisherState) l s :
  (forall x s, state_ok s -> keeps (f x s) state_ok) -> state_ok s -> keeps (fold_state f l s) state_ok.
Proof using Type.
  intros Hf. revert s. induction l as [|x l IH]; intros s Hs; cbn [fold_state]; [by apply kept_ret|].
  eapply kept_bind; [by apply Hf|]. auto.
Qed.

Lemma apply_policy_keeps request now0 :
  pair_request_verify request now0 PAIR_LIFETIME_MS = Ok tt ->
  keeps (apply_policy env policy request)
    (fun a => forall reason, a = PolicyApprove reason -> granted policy request).
Proof using Type.
  intros Hver. unfold apply_policy. destruct (pol_mode policy) eqn:Hmode.
  - by apply kept_ret.
  - apply kept_ret. intros reason _. by eapply granted_open.
  - destruct (prq_viewer_credential _) as [credential|] eqn:Hc; [|by apply kept_ret].
    destruct (pol_authority policy) as [authority|] eqn:Ha; [|by apply kept_ret].
    apply keeps_step; [apply untouched_now|]. intros now. apply kept_ret.
    destruct (credential_verify_at _ _ _ _ _ _) as [[]|] eqn:Hv; simpl; [|done].
    intros reason _. by eapply granted_trusted.
Qed.
Lemma refresh_request_keeps p key revoked request addr s :
  state_ok s -> keeps (refresh_request env p policy key revoked request addr s) state_ok.
Proof using All.
  intros Hs. unfold refresh_request. cbv zeta. apply keeps_step; [apply untouched_now|]. intros now.
  eapply (kept_bind _ _ (fun _ => pair_request_verify request now PAIR_LIFETIME_MS = Ok tt)).
  { apply kept_lift. by intros [] ?%context_Ok. }
  intros _ Hver. apply keeps_step; [untouched|]. intros request_id. apply keeps_step; [untouched|]. intros viewer.
  case_decide; [by apply kept_ret|]. case_decide; [by apply kept_ret|].
  eapply kept_bind; [by eapply apply_policy_keeps|]. intros [|reason|] Hanswer; [by apply kept_ret|..].
  - apply keeps_step; [untouched|]. intros now'. apply keeps_step; [untouched|]. intros decision.
    eapply kept_bind.
    + apply kept_lift. intros s1 H1. eapply add_approved_ok; [done|by eapply Hanswer|done].
    + intros s1 Hs1. apply kept_lift. intros s2 H2%queue_decision_same. by eapply same_grants_ok.
  - apply keeps_step; [untouched|]. intros now'. apply keeps_step; [untouched|]. intros offer.
    apply kept_ret. eapply same_grants_ok; [|done]. case_decide; by split_and!.
Qed.
Lemma refresh_confirmation_same s c s' : refresh_confirmation s c = Ok s' -> same_grants s s'.
Proof using Type.
  unfold refresh_confirmation. destruct (list_find _ _) as [[i q]|]; [|by intros [= <-]].
  rewrite unit_bind. intros [_ [= <-]]. by split_and!.
Qed.
Lemma refresh_requests_keeps p s : state_ok s -> keeps (refresh_requests env p policy s) state_ok.
Proof using All.
  intros Hs. unfold refresh_requests. apply keeps_step; [apply untouched_connect|]. intros key.
  apply keeps_step; [untouched|]. intros _. apply keeps_step.
  { intros c r c'. unfold fetch_inbox. apply read_inbox_untouched. }
  intros [requests confirmations]. eapply kept_bind.
  { apply fold_state_keeps; [|done]. intros x s'. apply refresh_request_keeps. }
  intros s1 Hs1. eapply kept_bind.
  { apply fold_state_keeps; [|done]. intros c s' Hs'. apply kept_lift.
    intros s'' H%refresh_confirmation_same. by eapply same_grants_ok. }
  intros s2 Hs2. apply kept_ret. eapply same_grants_ok; [|done]. by split_and!.
Qed.
Lemma run_command_keeps p command s : state_ok s -> keeps (run_command env p command s) state_ok.
Proof using All.
  intros Hs. assert (forall approve prefix s, state_ok s ->
    keeps (let? now := client_now env in lift (decide_request p s prefix approve now)) state_ok) as Hdecide.
  { intros approve prefix s' Hs'. apply keeps_step; [untouched|]. intros now. apply kept_lift.
    intros s''. by apply decide_request_ok. }
  destruct command; cbn [run_command]; auto.
  - apply keeps_step; [untouched|]. intros _. by apply kept_ret.
  - apply keeps_step; [untouched|]. intros ids. apply fold_state_keeps; auto.
  - apply kept_lift. intros s'. by apply revoke_ok.
  - apply keeps_step; [untouched|]. intros _. by apply kept_ret.
  - by apply kept_lift.
Qed.
Lemma synchronize_keeps p s : state_ok s -> keeps (synchronize env p policy s) state_ok.
Proof using All.
  intros Hs. unfold synchronize. eapply kept_bind; [by apply flush_outbox_keeps|]. intros s1 Hs1.
  eapply kept_bind; [by apply refresh_requests_keeps|]. intros s2 Hs2.
  eapply kept_bind; [by apply keeps_save|]. intros _ _. by apply flush_outbox_keeps.
Qed.
Lemma live_turn_keeps p : keeps (live_turn env p policy) (fun _ => True).
Proof using All.
  unfold live_turn. eapply kept_bind; [apply keeps_load|]. intros s Hs.
  eapply kept_bind; [by apply synchronize_keeps|]. intros s1 Hs1.
  eapply kept_bind; [by apply flush_history_keeps|]. intros _ _. by apply kept_ret.
Qed.
Lemma execute_locked_keeps p command : keeps (execute_locked env p policy command) (fun _ => True).
Proof using All.
  unfold execute_locked. eapply kept_bind; [apply keeps_load|]. intros s Hs.
  eapply (kept_bind _ _ state_ok).
  { case_decide; [by apply kept_ret|by apply synchronize_keeps]. }
  intros s1 Hs1. eapply kept_bind; [by apply run_command_keeps|]. intros s2 Hs2.
  eapply kept_bind; [by apply keeps_save|]. intros _ _. case_decide; [by apply kept_ret|].
  eapply kept_bind; [by apply flush_outbox_keeps|]. intros s3 Hs3.
  eapply kept_bind; [by apply flush_history_keeps|]. intros _ _. by apply kept_ret.
Qed.
Lemma untouched_request p subject : untouched (write_credential_request env p subject).
Proof using Hlock.
  unfold write_credential_request. untouched. apply untouched_disk_write. intros disk d. by destruct (in_context _ _ _).
Qed.
Lemma execute_keeps p command : keeps (execute env p policy command) (fun _ => True).
Proof using All.
  destruct command; try apply execute_locked_keeps. apply keeps_untouched, untouched_request.
Qed.
End approvals.
