(* ===== verification/Outbox.v ===== *)
(** What the publisher's approval state guarantees: revocations are permanent
    and grants have an origin, the state file round trip and the migration of
    the previous version, and the outboxes of offers and decisions. *)
From Stdlib Require Import ZArith Lia.
From S2P Require Import Prelude Bytes RustStr External Toy PrivateState KeyHistory KnownRelays.
From S2P Require Import Identity Credential Native Envelope Transport Pairing Codecs Wire RelayClient.
From S2P Require Import PairingStore Approvals ApprovalsInv.

Section outbox.
Context `{crypto : !Crypto, addrs : !SocketAddrs, ports : !SocketPorts, codecs : !Codecs}.
Context `{relay_file : !Postcard KnownRelayFile, history_file : !Postcard KeyHistory}.
Context `{state_file : !Postcard PublisherState, state_file_v2 : !Postcard PublisherStateV2}.
Context `{state_laws : !PostcardLaws PublisherState}.
Abbreviation admin := (client PublisherDisk PublisherMessage RelayPublisherMessage).
Abbreviation admin_client := (Client PublisherDisk PublisherMessage RelayPublisherMessage).

(** * Revocation and grants *)

(** C16: revocation is permanent and grants have an origin: from a good state
    file, whatever the relay answers and wherever the run fails, every command
    and every turn of the live worker leaves a good state file, in which all
    earlier revocations stand, every new grant was confirmed by its viewer or
    approved by the policy, and no revoked viewer is approved for its stream. *)
Theorem revocation_permanent env p policy c r c' s :
  (forall n d, disk_state (env_disk env n d) = disk_state d) ->
  load_state (disk_state (cl_disk c)) = Ok s -> state_wf s ->
  (exists command, execute env p policy command c = (r, c')) \/ live_turn env p policy c = (r, c') ->
  exists s', load_state (disk_state (cl_disk c')) = Ok s' /\ state_wf s' /\
    ps_revoked s ⊆ ps_revoked s' /\
    (forall g, g ∈ ps_approved s' ->
       g ∈ ps_approved s \/ exists r, g = request_grant r /\ granted policy r) /\
    (forall stream viewers v, approved_viewers (disk_state (cl_disk c')) stream = Ok viewers ->
       v ∈ viewers -> exists id, viewer_id v = Some id /\
         {| rg_stream_id := stream; rg_viewer_id := id |} ∉ ps_revoked s).
Proof using codecs state_laws.
  intros Hlock Hload Hwf Hrun.
  assert (file_ok policy (ps_revoked s) (ps_approved s) (disk_state (cl_disk c))) as Hfile.
  { exists s. split; [done|]. split; [done|done|]. apply Forall_forall. intros g Hg. by left. }
  assert (file_ok policy (ps_revoked s) (ps_approved s) (disk_state (cl_disk c'))) as (s' & Hs' & Hok).
  { destruct Hrun as [[command Hrun]|Hrun].
    - by eapply (execute_keeps policy (ps_revoked s) (ps_approved s) env Hlock p command).
    - by eapply (live_turn_keeps policy (ps_revoked s) (ps_approved s) env Hlock p). }
  exists s'. destruct Hok as [Hwf' Hrev Hgr]. split_and!; try done.
  - intros g Hg. rewrite Forall_forall in Hgr. by apply Hgr.
  - intros stream viewers v Hv Hin. unfold approved_viewers in Hv. rewrite Hs' in Hv. injection Hv as <-.
    apply list_elem_of_fmap in Hin as (g & -> & [<- Hg]%list_elem_of_filter).
    destruct (wf_disjoint _ Hwf' g Hg) as (id & Hid & Hnot). exists id. split; [done|]. intros H. by apply Hnot, Hrev.
Qed.

(** * The state file *)

(** The state file round trip: a saved state is loaded back as it was,
    and a canonical file of the previous version is loaded as its migration,
    which queues the retained keys of every existing grant. *)
Theorem state_file_roundtrip disk path s path' content old :
  (ps_version s = STATE_VERSION -> save_state disk s path = (Ok tt, path') -> load_state path' = Ok s) /\
  (read_private path MAX_STATE_BYTES = Ok content ->
   (forall st rest, take_from_bytes content = Ok (st, rest) -> ps_version st <> STATE_VERSION) ->
   to_stdvec old = Ok content -> take_from_bytes content = Ok (old, []) -> p2_version old = 2 ->
   load_state path = (validate_state (migrate old) then? Ok (migrate old))).
Proof using state_laws.
  split. { by intros Hv [|[_ [=]]]%save_state_run. }
  intros Hread Hver Henc Hdec Hold. unfold load_state, read_optional.
  rewrite Hread. cbn [context map_err mbind result_bind]. unfold decode_current.
  assert ((match take_from_bytes content with
    | Ok (state, remainder) =>
        if decide (remainder = [] /\ ps_version state = STATE_VERSION) then
          let? encoded := context "postcard" (to_stdvec state) in
          Ok (if decide (encoded = content) then Some state else None)
        else Ok None
    | Err _ => @Ok string (option PublisherState) None
    end) = Ok None) as ->.
  { destruct (take_from_bytes content) as [[st rest]|] eqn:E; [|done].
    rewrite decide_False; [done|]. intros [_ Hv]. by eapply Hver. }
  cbn [mbind result_bind]. unfold decode_v2. rewrite Hdec. cbn [context map_err mbind result_bind].
  rewrite decide_False by (intros [|]; done). rewrite Henc. cbn [context map_err mbind result_bind].
  rewrite reject_if_false by (by rewrite bool_decide_eq_true_2). done.
Qed.

(** * Outboxes *)

Context (env : ClientEnv PublisherDisk RelayPublisherMessage).

Lemma set_offer_outbox_id s : ps_offer_outbox s = [] -> set_offer_outbox [] s = s.
Proof using Type. by destruct s; simpl; intros ->. Qed.
Lemma set_decision_outbox_id s : ps_decision_outbox s = [] -> set_decision_outbox [] s = s.
Proof using Type. by destruct s; simpl; intros ->. Qed.

Lemma write_relay_run m (c : admin_client) r c' :
  write_relay env m c = (r, c') ->
  cl_disk c' = cl_disk c /\ cl_replies c' = cl_replies c /\
  (exists more, cl_sent c' = cl_sent c ++ more) /\ (r = Ok tt -> m ∈ cl_sent c').
Proof using Type.
  unfold write_relay. case_match; intros [= <- <-]; simpl; split_and!; try done;
    try (by eexists); try (exists []; by rewrite app_nil_r). intros _. apply elem_of_app. right. by left.
Qed.
Lemma expect_ack_run id (c : admin_client) r c' :
  expect_pairing_ack id c = (r, c') ->
  cl_disk c' = cl_disk c /\ cl_sent c' = cl_sent c /\
  (r = Ok tt -> cl_replies c = Some (RpPairingAck id) :: cl_replies c').
Proof using Type.
  unfold expect_pairing_ack, read_relay. unfold mbind, io_bind.
  destruct (cl_replies c) as [|[m|] rest]; [by intros [= <- <-]| |by intros [= <- <-]].
  destruct m; try (by intros [= <- <-]). unfold lift. intros [= <- <-]. simpl. split_and!; [done..|].
  intros H. res_inv. by apply dec_stable in H as ->.
Qed.
Lemma save_run s (c : admin_client) r c' :
  ps_version s = STATE_VERSION -> save env s c = (r, c') ->
  cl_sent c' = cl_sent c /\ cl_replies c' = cl_replies c /\
  (load_state (disk_state (cl_disk c')) = Ok s \/
   disk_state (cl_disk c') = disk_state (cl_disk c) /\ is_ok r = false).
Proof using state_laws.
  intros Hv. unfold save, locked_write, locked_call. destruct (save_state _ s _) as [r1 path] eqn:E.
  intros [= <- <-]. split_and!; [done..|]. by eapply save_state_run.
Qed.
(** One item: written, acknowledged under its identifier and then taken out of
    the saved state, even if the save reports a failed synchronization; or the file
    is as it was. *)
Lemma flush_item_run m id s (k : admin PublisherState) (c : admin_client) r c' :
  ps_version s = STATE_VERSION ->
  (write_relay env m then? expect_pairing_ack id then? save env s then? k) c = (r, c') ->
  ((exists e, r = Err e) /\ disk_state (cl_disk c') = disk_state (cl_disk c) /\
     exists more, cl_sent c' = cl_sent c ++ more) \/
  (exists c1, (k c1 = (r, c') \/ (exists e, r = Err e) /\ c' = c1) /\
     cl_replies c = Some (RpPairingAck id) :: cl_replies c1 /\
     load_state (disk_state (cl_disk c1)) = Ok s /\ m ∈ cl_sent c1 /\
     exists more, cl_sent c1 = cl_sent c ++ more).
Proof using state_laws.
  intros Hv [(e & Hw & ->)|([] & c1 & Hw & H)]%io_bind_run;
    destruct (write_relay_run _ _ _ _ Hw) as (Hd1 & Hr1 & Hm1 & Hin).
  { left. rewrite Hd1. eauto. }
  apply io_bind_run in H as [(e & Ha & ->)|([] & c2 & Ha & H)];
    destruct (expect_ack_run _ _ _ _ Ha) as (Hd2 & Hs2 & Hack).
  { left. rewrite Hd2, Hd1, Hs2. eauto. }
  assert (forall c3 r3, save env s c2 = (r3, c3) -> cl_replies c = Some (RpPairingAck id) :: cl_replies c3 /\
    m ∈ cl_sent c3 /\ exists more, cl_sent c3 = cl_sent c ++ more) as Hsaved.
  { intros c3 r3 (Hs3 & Hr3 & _)%save_run; [|done]. rewrite Hr3, Hs3, Hs2, <-Hr1. eauto. }
  apply io_bind_run in H as [(e & Hs & ->)|([] & c3 & Hs & H)];
    destruct (Hsaved _ _ Hs) as (? & ? & ?); destruct (save_run _ _ _ _ Hv Hs) as (_ & _ & [Hl|[Hd Herr]]);
    [| |right; exists c3; by split_and!; [left|..]|done].
  - right. exists c'. split_and!; eauto.
  - left. rewrite Hd, Hd2, Hd1. eauto.
Qed.

(** What a flush of one queue leaves: the items that are gone were written and
    acknowledged one after the other, and the saved state holds the others. *)
Definition flushed {A} (key : A -> array 32) (message : A -> PublisherMessage -> Prop)
    (keep : list A -> PublisherState) (queue : list A) (c : admin_client)
    (r : result string PublisherState) (c' : admin_client) : Prop :=
  exists done left rest, queue = done ++ left /\
    cl_replies c = ((fun x => Some (RpPairingAck (key x))) <$> done) ++ rest /\
    (forall x, x ∈ done -> exists m, message x m /\ m ∈ cl_sent c') /\
    (exists more, cl_sent c' = cl_sent c ++ more) /\
    (if decide (done = []) then disk_state (cl_disk c') = disk_state (cl_disk c)
     else load_state (disk_state (cl_disk c')) = Ok (keep left)) /\
    (forall s', r = Ok s' -> left = [] /\ s' = keep [] /\ cl_replies c' = rest).
#[global] Instance nil_dec' {A} (l : list A) : Decision (l = []).
Proof. destruct l; [by left|by right]. Defined.

Lemma flushed_nil {A} key message keep (queue : list A) (c c' : admin_client) e :
  disk_state (cl_disk c') = disk_state (cl_disk c) -> (exists more, cl_sent c' = cl_sent c ++ more) ->
  flushed key message keep queue c (Err e) c'.
Proof using Type. intros Hd Hm. exists [], queue, (cl_replies c). by split_and!; [..|intros ? ?%not_elem_of_nil| | |]. Qed.

Lemma flushed_stop {A} key message keep (queue : list A) (c : admin_client) e :
  flushed key message keep queue c (Err e) c.
Proof using Type. apply flushed_nil; [done|]. exists []. by rewrite app_nil_r. Qed.

Lemma flushed_cons {A} key message keep (x : A) queue m (c c1 c' : admin_client) r :
  message x m -> m ∈ cl_sent c1 -> cl_replies c = Some (RpPairingAck (key x)) :: cl_replies c1 ->
  load_state (disk_state (cl_disk c1)) = Ok (keep queue) ->
  (exists more, cl_sent c1 = cl_sent c ++ more) ->
  flushed key message keep queue c1 r c' -> flushed key message keep (x :: queue) c r c'.
Proof using Type.
  intros Hx Hin Hr Hl [m1 Hm1] (done & left & rest & -> & Hr1 & Hsent & [m2 Hm2] & Hfile & Hok).
  exists (x :: done), left, rest. split_and!.
  - done.
  - by rewrite Hr, Hr1.
  - intros y [->|Hy]%elem_of_cons; [|by apply Hsent]. exists m. split; [done|].
    rewrite Hm2. apply elem_of_app. by left.
  - exists (m1 ++ m2). by rewrite Hm2, Hm1, app_assoc.
  - rewrite decide_False by done. case_decide as Hd; [|done]. subst. by rewrite Hfile.
  - done.
Qed.

Definition offer_of (s : PublisherState) (id : array 32) (m : PublisherMessage) : Prop :=
  exists p, p ∈ ps_pending s /\ request_key (pp_request p) = Some id /\ m = PubPairOffer (pp_offer p).

Lemma flush_offers_run queue s (c : admin_client) r c' :
  ps_version s = STATE_VERSION -> ps_offer_outbox s = queue ->
  flush_offers env queue s c = (r, c') ->
  flushed id (offer_of s) (fun left => set_offer_outbox left s) queue c r c'.
Proof using state_laws.
  intros Hv. revert s c Hv. induction queue as [|id queue IH]; intros s c Hv Hq.
  { intros [= <- <-]. exists [], [], (cl_replies c).
    split_and!; [done..|by intros ? ?%not_elem_of_nil|by exists []; rewrite app_nil_r|done|].
    intros s' [= <-]. by rewrite set_offer_outbox_id. }
  cbn [flush_offers]. intros [(e & H & ->)|([i found] & c0 & H & Hrun)]%io_bind_run.
  { apply flushed_nil; [by injection H as _ <-|]. exists []. injection H as _ <-. by rewrite app_nil_r. }
  apply lift_Ok in H as [Hfound ->]. apply ok_or_Ok, list_find_Some in Hfound as (Hi & Hk & _).
  cbv zeta in Hrun. simpl in Hrun.
  apply flush_item_run in Hrun as [([e ->] & Hd & Hm)|(c1 & Hrun & Hr & Hl & Hin & Hm)]; [by apply flushed_nil| |done].
  eapply flushed_cons; [|exact Hin|exact Hr|exact Hl|exact Hm|].
  - exists found. split_and!; [by eapply list_elem_of_lookup_2|done|done].
  - destruct Hrun as [Hrun|[[e ->] ->]]; [|by apply flushed_stop].
    apply (IH (set_offer_outbox queue s)) in Hrun; [|done|done]. exact Hrun.
Qed.
Lemma flush_decisions_run queue s (c : admin_client) r c' :
  ps_version s = STATE_VERSION -> ps_decision_outbox s = queue ->
  flush_decisions env queue s c = (r, c') ->
  flushed decision_key (fun d m => m = PubPairDecision d) (fun left => set_decision_outbox left s) queue c r c'.
Proof using state_laws.
  intros Hv. revert s c Hv. induction queue as [|d queue IH]; intros s c Hv Hq.
  { intros [= <- <-]. exists [], [], (cl_replies c).
    split_and!; [done..|by intros ? ?%not_elem_of_nil|by exists []; rewrite app_nil_r|done|].
    intros s' [= <-]. by rewrite set_decision_outbox_id. }
  cbn [flush_decisions]. cbv zeta. intros Hrun.
  apply flush_item_run in Hrun as [([e ->] & Hd & Hm)|(c1 & Hrun & Hr & Hl & Hin & Hm)]; [by apply flushed_nil| |done].
  eapply flushed_cons; [done|exact Hin|exact Hr|exact Hl|exact Hm|].
  destruct Hrun as [Hrun|[[e ->] ->]]; [|by apply flushed_stop].
  apply (IH (set_decision_outbox queue s)) in Hrun; [|done|done]. exact Hrun.
Qed.

(** A connection goes on after the relay's welcome. *)
Lemma connect_run (Hlock : forall n d, disk_state (env_disk env n d) = disk_state d) p (c : admin_client) r c' :
  connect env p c = (r, c') ->
  disk_state (cl_disk c') = disk_state (cl_disk c) /\ (exists more, cl_sent c' = cl_sent c ++ more) /\
  (is_ok r = true -> exists w, conn_replies (env_connection env (cl_step c)) = Some (RpWelcome w) :: cl_replies c').
Proof using Type.
  intros Hrun. split; [exact (untouched_connect env Hlock p _ _ _ Hrun)|]. revert Hrun.
  unfold connect, greet.
  intros [(e & Hh & ->)|(remote & c1 & Hh & H)]%io_bind_run;
    apply publisher_handshake_run in Hh as [Hr Hs]; rewrite <-Hr, <-Hs; [by split; [exists []; rewrite app_nil_r|]|].
  apply io_bind_run in H as [(e & H & ->)|([] & c2 & H & [= <- <-])].
  - split; [|done].
    apply io_bind_run in H as [(e' & [= _ <-] & _)|(pub & c2 & [= _ <-] & H)]; [by exists []; rewrite app_nil_r|].
    apply io_bind_run in H as [(e' & Hw & _)|([] & c2 & Hw & H)];
      destruct (write_relay_run _ _ _ _ Hw) as (_ & Hr2 & Hm & _); [done|].
    destruct Hm as [more Hm]. exists more. rewrite <-Hm. revert H. unfold mbind, io_bind, read_relay, lift.
    repeat case_match; by intros [= _ <-]; simplify_eq/=.
  - apply io_bind_run in H as [(e' & _ & [=])|(pub & c3 & [= _ <-] & H)].
    apply io_bind_run in H as [(e' & _ & [=])|([] & c3 & Hw & H)];
      destruct (write_relay_run _ _ _ _ Hw) as (_ & Hr2 & Hm & _).
    destruct Hm as [more Hm]. revert H. unfold mbind, io_bind, read_relay. rewrite Hr2.
    destruct (cl_replies c1) as [|[m|] rest]; [done| |done]. destruct m; try done.
    intros [= <-]. simpl. split; [by exists more|]. by intros _; eexists.
Qed.

(** The outcome of a flush, by what it took out of the two queues. *)
Record progress (s : PublisherState) (replies : list (option RelayPublisherMessage))
    (c' : admin_client) (r : result string PublisherState)
    (offers offers_left : list (array 32)) (decisions decisions_left : list PublisherDecision) : Prop := {
  prog_offers : ps_offer_outbox s = offers ++ offers_left;
  prog_decisions : ps_decision_outbox s = decisions ++ decisions_left;
  prog_order : decisions <> [] -> offers_left = [];
  prog_file : load_state (disk_state (cl_disk c')) =
    Ok (set_decision_outbox decisions_left (set_offer_outbox offers_left s));
  prog_offers_sent x : x ∈ offers -> exists m, offer_of s x m /\ m ∈ cl_sent c';
  prog_decisions_sent d : d ∈ decisions -> PubPairDecision d ∈ cl_sent c';
  prog_acked : offers ++ (decision_key <$> decisions) <> [] -> exists w rest,
    replies = Some (RpWelcome w) ::
      ((fun x => Some (RpPairingAck x)) <$> offers ++ (decision_key <$> decisions)) ++ rest;
  prog_ok s' : r = Ok s' -> offers_left = [] /\ decisions_left = [] /\
    s' = set_decision_outbox [] (set_offer_outbox [] s);
}.

Lemma progress_none s replies c' r :
  load_state (disk_state (cl_disk c')) = Ok s ->
  (forall s', r = Ok s' -> s' = s /\ ps_offer_outbox s = [] /\ ps_decision_outbox s = []) ->
  progress s replies c' r [] (ps_offer_outbox s) [] (ps_decision_outbox s).
Proof using Type.
  intros Hl Hr. split; try done; try (by intros ? ?%not_elem_of_nil).
  - rewrite Hl. by destruct s.
  - intros s' (-> & Ho & Hd)%Hr. rewrite Ho, Hd. split_and!; [done..|]. destruct s; simpl in *; by subst.
Qed.

Lemma flush_progress p s (c : admin_client) r c' :
  (forall n d, disk_state (env_disk env n d) = disk_state d) ->
  ps_version s = STATE_VERSION -> load_state (disk_state (cl_disk c)) = Ok s ->
  flush_outbox env p s c = (r, c') ->
  exists offers offers_left decisions decisions_left,
    progress s (conn_replies (env_connection env (cl_step c))) c' r offers offers_left decisions decisions_left.
Proof using state_laws.
  intros Hlock Hv Hload. unfold flush_outbox. case_decide as Hempty.
  { destruct Hempty as [Ho Hdec]. intros [= <- <-]. do 4 eexists. apply progress_none; [done|].
    by intros s' [= <-]. }
  intros [(e & Hc & ->)|(remote & c1 & Hc & H)]%io_bind_run;
    destruct (connect_run Hlock _ _ _ _ Hc) as (Hd1 & [more1 Hm1] & Hw).
  { do 4 eexists. apply progress_none; [by rewrite Hd1|done]. }
  destruct (Hw eq_refl) as [w Hwel]. rewrite Hwel.
  apply io_bind_run in H as [(e & H & ->)|(s1 & c2 & H & H2)];
    destruct (flush_offers_run _ s _ _ _ Hv eq_refl H) as (offers & left & rest & Hq & Hr & Hsent & [more2 Hm2] & Hfile & Hok).
  - exists offers, left, [], (ps_decision_outbox s). split; try done.
    + case_decide as Hd; [subst; rewrite Hfile, Hd1, Hload|]. { simpl in Hq. rewrite <-Hq. by destruct s. }
      rewrite Hfile. by destruct s.
    + by intros d ?%not_elem_of_nil.
    + intros _. exists w, rest. cbn [fmap list_fmap]. by rewrite app_nil_r, Hr.
  - destruct (Hok _ eq_refl) as (-> & -> & Hrest). clear Hok. rewrite app_nil_r in Hq. subst offers.
    destruct (flush_decisions_run _ (set_offer_outbox [] s) _ _ _ Hv eq_refl H2)
      as (decisions & dleft & rest' & Hq' & Hr' & Hsent' & [more3 Hm3] & Hfile' & Hok').
    exists (ps_offer_outbox s), [], decisions, dleft. split; try done.
    + by rewrite app_nil_r.
    + case_decide as Hd; [|done]. subst. simpl in Hq'. rewrite Hfile'.
      case_decide as Hdo; rewrite Hfile; [rewrite Hd1, Hload; f_equal|f_equal].
      * rewrite <-Hq'. destruct s; simpl in *; by subst.
      * rewrite <-Hq'. by destruct s.
    + intros x (m & ? & ?)%Hsent. exists m. split; [done|]. rewrite Hm3. apply elem_of_app. by left.
    + by intros d (m & -> & ?)%Hsent'.
    + intros _. exists w, rest'. rewrite Hr, fmap_app, <-app_assoc, <-Hrest, Hr'. by rewrite <-list_fmap_compose.
    + by intros s' (-> & -> & _)%Hok'.
Qed.

(** C17: at least once, in order: a flush takes an offer or decision out of the
    saved outboxes only after it was written and the relay acknowledged it under
    its own identifier, in the order of the queues; whatever fails, the file
    keeps the rest, and a flush that succeeds has emptied both. *)
Theorem outbox_at_least_once p s (c : admin_client) r c' :
  (forall n d, disk_state (env_disk env n d) = disk_state d) ->
  ps_version s = STATE_VERSION -> load_state (disk_state (cl_disk c)) = Ok s ->
  flush_outbox env p s c = (r, c') ->
  exists offers offers_left decisions decisions_left,
    progress s (conn_replies (env_connection env (cl_step c))) c' r offers offers_left decisions decisions_left.
Proof using state_laws. apply flush_progress. Qed.

(** A flush whose first item the relay refuses changes nothing. *)
Lemma flush_refused p s (c : admin_client) r c' w e rest :
  (forall n d, disk_state (env_disk env n d) = disk_state d) ->
  ps_version s = STATE_VERSION -> load_state (disk_state (cl_disk c)) = Ok s ->
  ps_offer_outbox s <> [] ->
  conn_replies (env_connection env (cl_step c)) = Some (RpWelcome w) :: Some (RpError e) :: rest ->
  flush_outbox env p s c = (r, c') ->
  is_ok r = false /\ load_state (disk_state (cl_disk c')) = Ok s.
Proof using state_laws.
  intros Hlock Hv Hload Hne Hconn Hrun.
  destruct (flush_progress _ _ _ _ _ Hlock Hv Hload Hrun) as (od & ol & dd & dl & [P1 P2 P3 P4 P5 P6 P7 P8]).
  assert (od ++ (decision_key <$> dd) = []) as [-> Hdd]%app_nil.
  { destruct (od ++ (decision_key <$> dd)) as [|x l]; [done|]. destruct P7 as (w' & rest' & H); [done|].
    rewrite Hconn in H. by simplify_eq/=. }
  apply fmap_nil_inv in Hdd as ->. simpl in P1, P2. subst. split; [|rewrite P4; by destruct s].
  destruct r as [s'|]; [|done]. by destruct (P8 s' eq_refl) as [? _].
Qed.

(** A refused offer blocks its publisher: the relay refuses an offer from
    the time it expires, whatever its mailbox holds; and while it refuses the
    first offer of the outbox, every command that talks to the relay fails and
    leaves the state as it was, so that no request is approved, denied or even
    listed any more, including the one that the offer belongs to. *)
Theorem refused_offer_blocks p policy command (c : admin_client) r c' s db offer now max :
  (off_expires_at_ms (off_body offer) <= now -> is_ok (store_offer db offer now max) = false) /\
  ((forall n d, disk_state (env_disk env n d) = disk_state d) ->
   (forall n, exists w e rest,
      conn_replies (env_connection env n) = Some (RpWelcome w) :: Some (RpError e) :: rest) ->
   ps_version s = STATE_VERSION -> load_state (disk_state (cl_disk c)) = Ok s ->
   ps_offer_outbox s <> [] -> ~ offline_command command ->
   (forall subject, command <> CmdCredentialRequest subject) ->
   execute env p policy command c = (r, c') \/ live_turn env p policy c = (r, c') ->
   is_ok r = false /\ load_state (disk_state (cl_disk c')) = Ok s).
Proof using state_laws.
  split.
  - intros Hexp. destruct (store_offer db offer now max) as [v|] eqn:E; [|done]. unfold store_offer in E.
    apply bind_Ok_inv in E as (request & _ & E). apply bind_Ok_inv in E as (request' & _ & E).
    rewrite unit_bind, context_Ok, offer_verify_Ok in E.
    destruct E as [(_ & _ & (_ & _ & _ & ?)%validate_time_Ok & _) _]. lia.
  - intros Hlock Hconn Hv Hload Hne Hoff Hreq Hrun.
    assert (execute env p policy command = execute_locked env p policy command) as Hexe
      by (destruct command; [done..|by edestruct Hreq]).
    rewrite Hexe in Hrun.
    assert (forall r1 c1 c2, load_state (disk_state (cl_disk c1)) = Ok s ->
      synchronize env p policy s c1 = (r1, c2) -> is_ok r1 = false /\ load_state (disk_state (cl_disk c2)) = Ok s)
      as Hsync.
    { intros r1 c1 c2 Hl1. unfold synchronize. destruct (Hconn (cl_step c1)) as (w & e & rest & Hc).
      intros [(e' & Hf & ->)|(s' & c3 & Hf & H)]%io_bind_run;
        destruct (flush_refused _ _ _ _ _ _ _ _ Hlock Hv Hl1 Hne Hc Hf) as [Hr Hl2]; done. }
    assert (forall k, (let? s := load in k s) c = (r, c') -> exists c1, k s c1 = (r, c') /\
      load_state (disk_state (cl_disk c1)) = Ok s) as Hstart.
    { intros k H. unfold load, locked_call, mbind, io_bind in H. rewrite Hload in H. by eexists. }
    destruct Hrun as [Hrun|Hrun]; apply Hstart in Hrun as (c1 & Hrun & Hl1); cbv beta in Hrun.
    + rewrite decide_False in Hrun by done.
      apply io_bind_run in Hrun as [(e & H & ->)|(s' & c2 & H & _)]; apply Hsync in H as [Hr Hl2]; done.
    + apply io_bind_run in Hrun as [(e & H & ->)|(s' & c2 & H & _)]; apply Hsync in H as [Hr Hl2]; done.
Qed.
End outbox.

(** ** Witnesses *)

Lemma f_confirmation_ok : format_ok f_confirmation.
Proof.
  apply f_iso_ok; [by intros []|]. apply f_pair_ok; [|auto with toy].
  apply f_iso_ok; [by intros [] | auto 10 with toy].
Qed.
Lemma f_decision_ok : format_ok f_decision.
Proof.
  apply f_iso_ok; [by intros []|]. apply f_pair_ok; [|auto with toy].
  apply f_iso_ok; [by intros [] | auto 10 with toy].
Qed.
#[export] Hint Resolve f_confirmation_ok f_decision_ok : toy.
Definition f_pending : format PendingPairing :=
  f_iso (f_pair (f_pair f_pair_request f_offer) (f_pair (f_option f_confirmation) (f_list f_Z)))
    (fun p => ((pp_request p, pp_offer p), (pp_confirmation p, pp_source_addr p)))
    (fun '((r, o), (c, a)) =>
       Some {| pp_request := r; pp_offer := o; pp_confirmation := c; pp_source_addr := a |}).
Definition f_grant : format StreamGrant :=
  f_iso (f_pair (f_array 16) f_identity_public) (fun g => (sg_stream_id g, sg_viewer g))
    (fun '(s, v) => Some {| sg_stream_id := s; sg_viewer := v |}).
Definition f_revoked : format RevokedGrant :=
  f_iso (f_pair (f_array 16) (f_array 32)) (fun g => (rg_stream_id g, rg_viewer_id g))
    (fun '(s, v) => Some {| rg_stream_id := s; rg_viewer_id := v |}).
Lemma f_pending_ok : format_ok f_pending.
Proof. apply f_iso_ok; [by intros []|auto 10 with toy]. Qed.
Lemma f_grant_ok : format_ok f_grant.
Proof. apply f_iso_ok; [by intros []|auto 10 with toy]. Qed.
Lemma f_revoked_ok : format_ok f_revoked.
Proof. apply f_iso_ok; [by intros []|auto 10 with toy]. Qed.
#[export] Hint Resolve f_pending_ok f_grant_ok f_revoked_ok : toy.

(** The version comes first in both files. *)
Definition f_state : format PublisherState :=
  f_iso (f_pair f_Z (f_pair (f_pair (f_list f_pending) (f_list f_grant))
           (f_pair (f_pair (f_list f_revoked) (f_list (f_array 32)))
                   (f_pair (f_list f_decision) (f_list f_grant)))))
    (fun s => (ps_version s, ((ps_pending s, ps_approved s),
       ((ps_revoked s, ps_offer_outbox s), (ps_decision_outbox s, ps_history_outbox s)))))
    (fun '(v, ((p, a), ((r, o), (d, h)))) =>
       Some {| ps_version := v; ps_pending := p; ps_approved := a; ps_revoked := r;
               ps_offer_outbox := o; ps_decision_outbox := d; ps_history_outbox := h |}).
Definition f_state_v2 : format PublisherStateV2 :=
  f_iso (f_pair f_Z (f_pair (f_pair (f_list f_pending) (f_list f_grant)) (f_list f_revoked)))
    (fun s => (p2_version s, ((p2_pending s, p2_approved s), p2_revoked s)))
    (fun '(v, ((p, a), r)) =>
       Some {| p2_version := v; p2_pending := p; p2_approved := a; p2_revoked := r |}).
#[export] Instance toy_state : Postcard PublisherState := postcard_of f_state.
#[export] Instance toy_state_v2 : Postcard PublisherStateV2 := postcard_of f_state_v2.
#[export] Instance toy_state_laws : PostcardLaws PublisherState.
Proof. apply postcard_of_laws, f_iso_ok; [by intros []|auto 12 with toy]. Defined.

#[local] Existing Instance one_addr.
#[local] Existing Instance one_port.

Definition sample_grant : StreamGrant :=
  {| sg_stream_id := Pairing.sample_stream; sg_viewer := sample_viewer_public |}.
Definition sample_grants : PublisherState := set_grants [sample_grant] [] [sample_grant] default_state.
Definition state_entry (s : PublisherState) : option FileEntry := (save_state DiskOk s None).2.
Definition admin_start (s : PublisherState) : Client PublisherDisk PublisherMessage RelayPublisherMessage := {|
  cl_disk := {| disk_known := None; disk_state := state_entry s; disk_history := None; disk_output := None |};
  cl_step := 0; cl_replies := []; cl_sent := [] |}.
(** A relay whose every connection gives the same replies. *)
Definition admin_env (replies : list (option RelayPublisherMessage)) :
    ClientEnv PublisherDisk RelayPublisherMessage := {|
  env_clock _ := 5000;
  env_entropy _ := {| draws32 := []; draws16 := []; draw4 := zeros 4; draw_bytes := [] |};
  env_write _ := WriteOk;
  env_connection _ := {| conn_remote := Some (pin_key x05); conn_replies := replies |};
  env_disk _ d := d; env_sync _ := DiskOk |}.
Definition sample_profile : Profile := {|
  pf_relay := raw_relay; pf_identity := sample_secret;
  pf_noise_public := zeros 32; pf_credential := None; pf_pin := None |}.
Definition sample_policy : ApprovalPolicy :=
  {| pol_mode := PolicyRequired; pol_authority := None; pol_revocations := None |}.
Definition sample_prefix : rstring :=
  match viewer_id sample_viewer_public with Some id => take 6 (hex (slice id)) | None => [] end.

Lemma sample_grants_file : load_state (disk_state (cl_disk (admin_start sample_grants))) = Ok sample_grants.
Proof. vm_compute. reflexivity. Qed.
Lemma sample_viewer_has_id : bool_decide (viewer_id sample_viewer_public = None) = false.
Proof. vm_compute. reflexivity. Qed.
Lemma sample_grants_wf : state_wf sample_grants.
Proof.
  split; try done.
  - apply SSorted_nil.
  - by repeat constructor.
  - intros g ->%list_elem_of_singleton. pose proof sample_viewer_has_id as H.
    change (sg_viewer sample_grant) with sample_viewer_public.
    destruct (viewer_id sample_viewer_public) as [id|]; [|discriminate]. exists id.
    split; [done|apply not_elem_of_nil].
  - by repeat constructor.
Qed.
Definition sample_revoke_run :=
  execute (admin_env []) sample_profile sample_policy (CmdRevoke sample_prefix Pairing.sample_stream)
    (admin_start sample_grants).
Example sample_revoke_ok :
  is_ok sample_revoke_run.1 = true /\
  match load_state (disk_state (cl_disk sample_revoke_run.2)) with
  | Ok s => ps_approved s = [] /\ length (ps_revoked s) = 1%nat /\ ps_history_outbox s = []
  | Err _ => False
  end.
Proof. vm_compute. done. Qed.

Lemma revocation_permanent_witness :
  exists s', load_state (disk_state (cl_disk sample_revoke_run.2)) = Ok s' /\ state_wf s'.
Proof.
  destruct (revocation_permanent (admin_env []) sample_profile sample_policy
    (admin_start sample_grants) sample_revoke_run.1 sample_revoke_run.2 sample_grants) as (s' & Hs & Hwf & _).
  - reflexivity.
  - exact sample_grants_file.
  - exact sample_grants_wf.
  - left. exists (CmdRevoke sample_prefix Pairing.sample_stream). apply surjective_pairing.
  - exists s'. split; [exact Hs|exact Hwf].
Defined.

Definition sample_v2 : PublisherStateV2 :=
  {| p2_version := 2; p2_pending := []; p2_approved := [sample_grant]; p2_revoked := [] |}.
Definition sample_v2_content : bytes := match to_stdvec sample_v2 with Ok l => l | Err _ => [] end.
Lemma sample_v2_runs :
  to_stdvec sample_v2 = Ok sample_v2_content /\ take_from_bytes sample_v2_content = Ok (sample_v2, []) /\
  read_private (Some (stage_private sample_v2_content)) MAX_STATE_BYTES = Ok sample_v2_content /\
  match take_from_bytes (T := PublisherState) sample_v2_content with
  | Ok (st, _) => bool_decide (ps_version st <> STATE_VERSION)
  | Err _ => true
  end = true /\ save_state DiskOk sample_grants None = (Ok tt, state_entry sample_grants).
Proof. vm_compute. done. Qed.

Lemma state_file_roundtrip_witness :
  load_state (state_entry sample_grants) = Ok sample_grants /\
  load_state (Some (stage_private sample_v2_content)) =
    (validate_state (migrate sample_v2) then? Ok (migrate sample_v2)).
Proof.
  destruct sample_v2_runs as (Henc & Hdec & Hread & Hver & Hsave).
  destruct (state_file_roundtrip DiskOk None sample_grants (state_entry sample_grants) sample_v2_content sample_v2) as [H _].
  destruct (state_file_roundtrip DiskOk (Some (stage_private sample_v2_content)) sample_grants (state_entry sample_grants)
    sample_v2_content sample_v2) as [_ H2].
  split; [apply H; [reflexivity|exact Hsave]|].
  apply H2; [exact Hread| |exact Henc|exact Hdec|reflexivity].
  intros st rest Hst. rewrite Hst in Hver. apply bool_decide_eq_true in Hver. exact Hver.
Defined.

(** An offer and a decision that wait for the relay. *)
Definition queue_state (r : PairRequest) (o : PairOffer) (d : PublisherDecision) (id : array 32) :
    PublisherState := {|
  ps_version := STATE_VERSION;
  ps_pending := [{| pp_request := r; pp_offer := o; pp_confirmation := None; pp_source_addr := [] |}];
  ps_approved := []; ps_revoked := []; ps_offer_outbox := [id]; ps_decision_outbox := [d];
  ps_history_outbox := [] |}.
Definition sample_queue_of (x : PairRequest * PairOffer * ViewerConfirmation * PublisherDecision) :
    option (PublisherState * PairOffer * array 32) :=
  let '(r, o, _, d) := x in
  id ← request_key r; Some (queue_state r o d id, o, id).
Definition sample_queue : option (PublisherState * PairOffer * array 32) :=
  sample_pairing ≫= sample_queue_of.
Definition sample_welcome : RelayPublisherMessage := RpWelcome {|
  wel_protocol_version := PROTOCOL_VERSION; access_mode := AccessPublic; relay_time_ms := 0;
  credential_expires_at_ms := None |}.
Definition flush_run (id : array 32) (s : PublisherState) :=
  flush_outbox (admin_env [Some sample_welcome; Some (RpPairingAck id); Some (RpPairingAck id)])
    sample_profile s (admin_start s).
Lemma sample_queue_runs :
  match sample_queue with
  | Some (s, _, id) =>
      bool_decide (ps_version s = STATE_VERSION) && is_ok (flush_run id s).1 &&
      match state_entry s with Some _ => true | None => false end
  | None => false
  end = true.
Proof. vm_compute. reflexivity. Qed.

Lemma admin_start_file s :
  ps_version s = STATE_VERSION -> match state_entry s with Some _ => true | None => false end = true ->
  load_state (disk_state (cl_disk (admin_start s))) = Ok s.
Proof.
  unfold admin_start, state_entry. cbn [cl_disk disk_state]. intros Hv.
  destruct (save_state DiskOk s None) as [r path] eqn:E. simpl. intros Hpath.
  destruct (save_state_run _ _ _ _ _ Hv E) as [H|[-> _]]; [exact H|discriminate].
Qed.
Lemma outbox_at_least_once_witness :
  match sample_queue with
  | Some (s, _, id) => exists offers left decisions dleft,
      progress s [Some sample_welcome; Some (RpPairingAck id); Some (RpPairingAck id)]
        (flush_run id s).2 (flush_run id s).1 offers left decisions dleft
  | None => False
  end.
Proof.
  pose proof sample_queue_runs as Hrun. destruct sample_queue as [[[s o] id]|]; [|discriminate].
  apply andb_prop in Hrun as [Hrun Hfile]. apply andb_prop in Hrun as [Hv _].
  apply bool_decide_eq_true in Hv.
  apply (outbox_at_least_once (admin_env [Some sample_welcome; Some (RpPairingAck id); Some (RpPairingAck id)])
    sample_profile s (admin_start s) (flush_run id s).1 (flush_run id s).2).
  - reflexivity.
  - exact Hv.
  - exact (admin_start_file s Hv Hfile).
  - apply surjective_pairing.
Defined.

Definition refuse_env : ClientEnv PublisherDisk RelayPublisherMessage :=
  admin_env [Some sample_welcome;
    Some (RpError {| err_code := ProtocolViolation; err_detail := ascii_str "pairing record rejected" |})].
Lemma refused_offer_blocks_witness :
  match sample_queue with
  | Some (s, o, id) =>
      is_ok (store_offer ∅ o 80000 100000) = false /\
      is_ok (execute refuse_env sample_profile sample_policy (CmdDeny (hex (slice id))) (admin_start s)).1 = false
  | None => False
  end.
Proof.
  pose proof sample_queue_runs as Hrun.
  assert (match sample_queue with Some (s, o, id) =>
    bool_decide (off_expires_at_ms (off_body o) <= 80000 /\ ps_offer_outbox s <> []) | None => false end = true) as Hexp
    by (vm_compute; reflexivity).
  destruct sample_queue as [[[s o] id]|]; [|discriminate].
  apply andb_prop in Hrun as [Hrun Hfile]. apply andb_prop in Hrun as [Hv _].
  apply bool_decide_eq_true in Hv. apply bool_decide_eq_true in Hexp as [Hexp Hne].
  destruct (refused_offer_blocks refuse_env sample_profile sample_policy (CmdDeny (hex (slice id))) (admin_start s)
    (execute refuse_env sample_profile sample_policy (CmdDeny (hex (slice id))) (admin_start s)).1
    (execute refuse_env sample_profile sample_policy (CmdDeny (hex (slice id))) (admin_start s)).2
    s ∅ o 80000 100000) as [H1 H2].
  split; [exact (H1 Hexp)|]. apply H2.
  - reflexivity.
  - intros n. do 3 eexists. reflexivity.
  - exact Hv.
  - exact (admin_start_file s Hv Hfile).
  - exact Hne.
  - exact (fun H => H).
  - intros subject H. discriminate H.
  - left. apply surjective_pairing.
Defined.
