(* ===== verification/Encoder.v ===== *)
(** [crates/publisher/src/encoder.rs] and the encoder thread of
    [crates/publisher/src/lib.rs]: splitting an access unit into its NAL units,
    what the publisher reads from them, and the encoder around the OpenH264
    library, which is a parameter.  The theorem relates the publisher's idea of a
    keyframe to the relay protocol's. *)
From Stdlib Require Import ZArith Lia.
From S2P Require Import Prelude Bytes Native.

(** * NAL units *)

(** The loop of [annex_b_nals]: the positions and lengths of the start codes.
    Each turn advances, so that the length of the unit is enough fuel. *)
Fixpoint start_codes (fuel : nat) (access_unit : bytes) (cursor : nat) : list (nat * nat) :=
  match fuel with
  | O => []
  | S fuel =>
      if decide (cursor + 3 <= length access_unit)%nat then
        if decide (starts_with START3 (drop cursor access_unit)) then
          (cursor, 3%nat) :: start_codes fuel access_unit (cursor + 3)
        else if decide (starts_with START4 (drop cursor access_unit)) then
          (cursor, 4%nat) :: start_codes fuel access_unit (cursor + 4)
        else start_codes fuel access_unit (cursor + 1)
      else []
  end.

(** The non-empty units between the codes. *)
Fixpoint nal_units (access_unit : bytes) (starts : list (nat * nat)) : list bytes :=
  match starts with
  | [] => []
  | (start, prefix) :: rest =>
      let first := (start + prefix)%nat in
      let last := match rest with (next, _) :: _ => next | [] => length access_unit end in
      if decide (first < last)%nat
      then take (last - first) (drop first access_unit) :: nal_units access_unit rest
      else nal_units access_unit rest
  end.
Definition annex_b_nals (access_unit : bytes) : list bytes :=
  nal_units access_unit (start_codes (length access_unit) access_unit 0).

(** [nal[0] & 0x1f]; the units are not empty. *)
Definition nal_type (nal : bytes) : Z := Z.land (Z_of_byte (default x00 (head nal))) 31.
Definition find_nal (kind : Z) (nals : list bytes) : option bytes :=
  snd <$> list_find (fun nal => nal_type nal = kind) nals.

(** * Encoded frames *)

Record AvcConfig : Type := { sps : bytes; pps : bytes }.
Record EncodedH264Frame : Type := {
  annex_b : bytes;
  keyframe : bool;
  config : option AvcConfig;
}.

(** [inspect_encoded_frame], with the remembered parameter sets. *)
Definition inspect_encoded_frame (unit : bytes) (parameter_sets : option AvcConfig)
    (keyframe_hint : bool) : result string EncodedH264Frame * option AvcConfig :=
  if decide (unit = []) then (Err "the encoder did not emit an encodable frame", parameter_sets)
  else
    let nals := annex_b_nals unit in
    let keyframe := keyframe_hint || bool_decide (Exists (fun nal => nal_type nal = 5) nals) in
    let config := match find_nal 7 nals, find_nal 8 nals with
                  | Some s, Some p => Some {| sps := s; pps := p |}
                  | _, _ => None
                  end in
    let parameter_sets := match config with Some c => Some c | None => parameter_sets end in
    (reject_if (parameter_sets = None)
       "the encoder did not emit SPS/PPS before its first video sample" then?
     Ok {| annex_b := unit; keyframe := keyframe; config := config |}, parameter_sets).

(** The codec configuration of an epoch: the parameter sets, each behind a start
    code ([run_native_client] of [native_publish.rs]). *)
Definition annex_b_join (nals : list bytes) : bytes := concat ((fun nal => START4 ++ nal) <$> nals).
Definition annex_b_config (c : AvcConfig) : bytes := annex_b_join [sps c; pps c].

Definition validate_dimensions (width height : Z) (backend : string) : result string unit :=
  reject_if (width = 0 \/ height = 0 \/ width mod 2 <> 0 \/ height mod 2 <> 0 \/
             width > u16_max \/ height > u16_max)
    (backend +:+ " requires non-zero, even dimensions that fit in 16 bits").

(** * The encoder *)

Inductive EncoderMode : Type := ModeAuto | ModeVaapi | ModeOpenh264.
Inductive FrameType : Type := FrameIDR | FrameI | FrameP | FrameIPMixed | FrameSkip | FrameInvalid.
#[global] Instance frame_type_eq_dec : EqDecision FrameType.
Proof. solve_decision. Defined.

(** A frame is an image in main memory or a buffer of the GPU. *)
Inductive EncoderInputFrame : Type :=
| FrameRgb (width height : Z) (raw : bytes)
| FrameDmaBuf (output_width output_height : Z).
Definition frame_width (f : EncoderInputFrame) : Z :=
  match f with FrameRgb w _ _ | FrameDmaBuf w _ => w end.
Definition frame_height (f : EncoderInputFrame) : Z :=
  match f with FrameRgb _ h _ | FrameDmaBuf _ h => h end.

(** The OpenH264 library: creating an encoder for a size and a rate, asking for
    an intra frame, and encoding an image, which may fail. *)
Class OpenH264 : Type := {
  OhEncoder : Type;
  oh_new : Z -> Z -> result string OhEncoder;
  oh_force_intra_frame : OhEncoder -> OhEncoder;
  oh_encode : OhEncoder -> bytes -> option (FrameType * bytes) * OhEncoder;
}.

Section encoder.
Context `{library : !OpenH264}.

Record SoftwareH264Encoder : Type := {
  se_encoder : OhEncoder;
  se_width : Z;
  se_height : Z;
  se_parameter_sets : option AvcConfig;
}.

Definition software_new (width height : Z) : result string SoftwareH264Encoder :=
  validate_dimensions width height "OpenH264" then?
  let? encoder := oh_new width height in
  Ok {| se_encoder := encoder; se_width := width; se_height := height; se_parameter_sets := None |}.

(** [H264Encoder::new] *)
Definition encoder_new (mode : EncoderMode) (width height : Z) : result string SoftwareH264Encoder :=
  validate_dimensions width height "H.264" then?
  match mode with
  | ModeVaapi => Err "VA-API support is unavailable; use --encoder openh264"
  | ModeOpenh264 | ModeAuto => software_new width height
  end.

(** [SoftwareH264Encoder::encode] on an image. *)
Definition software_encode (e : SoftwareH264Encoder) (width height : Z) (raw : bytes)
    (force_keyframe : bool) : result string EncodedH264Frame * SoftwareH264Encoder :=
  if decide (width <> se_width e \/ height <> se_height e) then (Err "encoder dimensions changed", e)
  else
    let encoder := if force_keyframe then oh_force_intra_frame (se_encoder e) else se_encoder e in
    let '(bitstream, encoder) := oh_encode encoder raw in
    let with_sets sets := {| se_encoder := encoder; se_width := se_width e;
                             se_height := se_height e; se_parameter_sets := sets |} in
    match bitstream with
    | None => (Err "encoding H.264 frame", with_sets (se_parameter_sets e))
    | Some (frame_type, unit) =>
        if decide (unit = [] \/ frame_type = FrameInvalid \/ frame_type = FrameSkip)
        then (Err "OpenH264 did not emit an encodable frame", with_sets (se_parameter_sets e))
        else
          let '(r, sets) := inspect_encoded_frame unit (se_parameter_sets e)
                              (bool_decide (frame_type = FrameIDR)) in
          (r, with_sets sets)
    end.

(** [H264Encoder::encode] *)
Definition h264_encode (e : SoftwareH264Encoder) (input : EncoderInputFrame) (force_keyframe : bool) :
    result string EncodedH264Frame * SoftwareH264Encoder :=
  match input with
  | FrameRgb width height raw => software_encode e width height raw force_keyframe
  | FrameDmaBuf _ _ => (Err "OpenH264 requires a CPU-readable PipeWire frame", e)
  end.

(** The answer of the encoder thread to a request. *)
Definition encode_request (e : SoftwareH264Encoder) (input : EncoderInputFrame) (segment_start : bool) :
    result string EncodedH264Frame * SoftwareH264Encoder :=
  let '(r, e) := h264_encode e input segment_start in
  (let? encoded := r in
   reject_if (segment_start = true /\ keyframe encoded = false)
     "H.264 encoder did not produce an IDR at the segment boundary" then?
   Ok encoded, e).
End encoder.

(** * What the split finds *)

Definition code_at (u : bytes) (i : nat) : Prop :=
  u !! i = Some x00 /\ u !! (i + 1)%nat = Some x00 /\ u !! (i + 2)%nat = Some x01.

Lemma starts3_at u c : starts_with START3 (drop c u) <-> code_at u c.
Proof.
  unfold starts_with, code_at. replace (u !! c) with (u !! (c + 0)%nat) by by rewrite Nat.add_0_r.
  rewrite <-(lookup_drop u c 0), <-(lookup_drop u c 1), <-(lookup_drop u c 2).
  destruct (drop c u) as [|a [|b [|d l]]]; cbn; (split; [intros [= ]|intros (H1 & H2 & H3)]; simplify_eq; try done).
Qed.
Lemma starts4_at u c : starts_with START4 (drop c u) <-> u !! c = Some x00 /\ code_at u (c + 1).
Proof.
  unfold starts_with, code_at. replace (c + 1 + 1)%nat with (c + 2)%nat by lia.
  replace (c + 1 + 2)%nat with (c + 3)%nat by lia.
  replace (u !! c) with (u !! (c + 0)%nat) by by rewrite Nat.add_0_r.
  rewrite <-(lookup_drop u c 0), <-(lookup_drop u c 1), <-(lookup_drop u c 2), <-(lookup_drop u c 3).
  destruct (drop c u) as [|a [|b [|d [|e l]]]]; cbn; (split; [intros [= ]|intros (H0 & H1 & H2 & H3)]; simplify_eq; try done).
Qed.
Lemma code_at_apart u i j : code_at u i -> code_at u j -> i = j \/ (i + 3 <= j)%nat \/ (j + 3 <= i)%nat.
Proof.
  intros (A & B & C) (D & E & F). destruct (decide (i = j)); [by left|].
  destruct (decide (i + 1 = j \/ i + 2 = j \/ j + 1 = i \/ j + 2 = i)%nat) as [H|H]; [|lia].
  exfalso. destruct H as [H|[H|[H|H]]].
  - replace (j + 1)%nat with (i + 2)%nat in E by lia. congruence.
  - rewrite <-H in D. congruence.
  - replace (i + 1)%nat with (j + 2)%nat in B by lia. congruence.
  - rewrite <-H in A. congruence.
Qed.

(** The codes found from a position on: each one ends in a start code of three
    bytes, every start code of the unit is the end of one of them, and they are
    in order and apart. *)
Fixpoint codes_from (u : bytes) (cursor : nat) (starts : list (nat * nat)) : Prop :=
  match starts with
  | [] => forall i, (cursor <= i)%nat -> ~ code_at u i
  | (s, p) :: rest =>
      (cursor <= s)%nat /\ (3 <= p)%nat /\ code_at u (s + p - 3) /\ u !! s = Some x00 /\
      (forall i, (cursor <= i < s + p)%nat -> code_at u i -> i = (s + p - 3)%nat) /\
      codes_from u (s + p) rest
  end.
Lemma codes_from_mono u c c' starts :
  (c <= c')%nat -> (forall i, (c <= i < c')%nat -> ~ code_at u i) ->
  codes_from u c' starts -> codes_from u c starts.
Proof.
  intros Hc Hno. destruct starts as [|[s p] rest]; simpl.
  - intros H i Hi. destruct (decide (c' <= i)%nat); [by apply H|apply Hno; lia].
  - intros (? & ? & ? & ? & Hu & ?). split_and!; try done; [lia|].
    intros i Hi Hcode. destruct (decide (c' <= i)%nat); [apply Hu; [lia|done]|].
    exfalso. eapply (Hno i); [lia|done].
Qed.
Lemma start_codes_from fuel u c : (length u <= fuel + c)%nat -> codes_from u c (start_codes fuel u c).
Proof.
  revert c. induction fuel as [|fuel IH]; intros c Hfuel; cbn [start_codes].
  - intros i Hi (H & _). apply lookup_lt_Some in H. lia.
  - case_decide as Hlen.
    2: { intros i Hi (_ & _ & H). apply lookup_lt_Some in H. lia. }
    case_decide as H3; [|case_decide as H4].
    + apply starts3_at in H3. cbn [codes_from]. replace (c + 3 - 3)%nat with c by lia.
      split_and!; [lia|lia|done|apply H3| |apply IH; lia].
      intros i Hi Hcode. destruct (code_at_apart _ _ _ H3 Hcode); lia.
    + apply starts4_at in H4 as [H0 H4]. cbn [codes_from]. replace (c + 4 - 3)%nat with (c + 1)%nat by lia.
      split_and!; [lia|lia|done|done| |apply IH; lia].
      intros i Hi Hcode. destruct (code_at_apart _ _ _ H4 Hcode); lia.
    + apply (codes_from_mono _ _ (c + 1)); [lia| |apply IH; lia].
      intros i Hi Hcode. apply H3, starts3_at. by replace c with i by lia.
Qed.

(** The units lie between the codes and contain none. *)
Lemma nal_units_spec u c starts nal :
  codes_from u c starts -> nal ∈ nal_units u starts ->
  exists i, (c <= i)%nat /\ code_at u i /\ nal <> [] /\ take (length nal) (drop (i + 3) u) = nal /\
    forall j, ~ code_at nal j.
Proof.
  revert c. induction starts as [|[s p] rest IH]; intros c Hc Hnal; [by apply elem_of_nil in Hnal|].
  destruct Hc as (Hcs & Hp & Hcode & Hs & Huniq & Hrest). cbn [nal_units] in Hnal.
  set (last := match rest with (next, _) :: _ => next | [] => length u end) in Hnal.
  assert (forall i, (s + p <= i)%nat -> (i + 3 <= last)%nat -> ~ code_at u i) as Hnone.
  { intros i Hi Hl Hci. unfold last in Hl. destruct rest as [|[s' p'] rest']; [by eapply Hrest|].
    destruct Hrest as (Hs' & Hp' & Hcode' & Hs0 & Huniq' & _).
    assert (i = s' + p' - 3)%nat by (apply Huniq'; [lia|done]). lia. }
  case_decide as Hlt.
  - apply elem_of_cons in Hnal as [->|Hnal].
    2: { destruct (IH _ Hrest Hnal) as (i & ? & ?). exists i. split; [lia|done]. }
    assert (last <= length u)%nat as Hlast.
    { unfold last. destruct rest as [|[s' p'] rest']; [done|]. destruct Hrest as (_ & _ & _ & H & _).
      apply lookup_lt_Some in H. lia. }
    assert (length (take (last - (s + p)) (drop (s + p) u)) = last - (s + p))%nat as Hlen
      by (rewrite length_take, length_drop; lia).
    exists (s + p - 3)%nat. rewrite Hlen. replace (s + p - 3 + 3)%nat with (s + p)%nat by lia.
    split_and!; [lia|done| |done|].
    + intros H. rewrite H in Hlen. simpl in Hlen. lia.
    + intros j (H0 & H1 & H2). pose proof (lookup_lt_Some _ _ _ H2) as Hj. rewrite Hlen in Hj.
      rewrite !lookup_take_lt, lookup_drop in H0 by lia.
      rewrite lookup_take_lt, lookup_drop in H1 by lia. rewrite lookup_take_lt, lookup_drop in H2 by lia.
      apply (Hnone (s + p + j)%nat); [lia|lia|].
      unfold code_at. rewrite <-!(Nat.add_assoc (s + p)). by split_and!.
  - destruct (IH _ Hrest Hnal) as (i & ? & ?). exists i. split; [lia|done].
Qed.
(** Every start code that a non-zero byte follows is followed by a unit. *)
Lemma nal_units_complete u c starts i b :
  codes_from u c starts -> (c <= i)%nat -> code_at u i -> u !! (i + 3)%nat = Some b -> b <> x00 ->
  exists nal, nal ∈ nal_units u starts /\ head nal = Some b.
Proof.
  revert c. induction starts as [|[s p] rest IH]; intros c Hc Hi Hcode Hb Hb0; [by destruct (Hc i)|].
  destruct Hc as (Hcs & Hp & Hcode' & Hs & Huniq & Hrest). cbn [nal_units].
  set (last := match rest with (next, _) :: _ => next | [] => length u end).
  destruct (decide (s + p <= i)%nat) as [Hle|Hgt].
  - destruct (IH _ Hrest Hle Hcode Hb Hb0) as (nal & Hn & Hh). exists nal. split; [|done].
    case_decide; [by right|done].
  - assert (i = s + p - 3)%nat as -> by (apply Huniq; [lia|done]).
    replace (s + p - 3 + 3)%nat with (s + p)%nat in Hb by lia.
    assert (s + p < last)%nat as Hlt.
    { unfold last. destruct rest as [|[s' p'] rest']; [by eapply lookup_lt_Some|].
      destruct Hrest as (Hs' & _ & _ & H0 & _). destruct (decide (s' = s + p)%nat) as [->|]; [|lia].
      congruence. }
    rewrite decide_True by done. eexists. split; [by left|].
    rewrite head_lookup, lookup_take_lt, lookup_drop, Nat.add_0_r by lia. done.
Qed.

Lemma annex_b_nals_spec u nal :
  nal ∈ annex_b_nals u ->
  exists i, code_at u i /\ nal <> [] /\ take (length nal) (drop (i + 3) u) = nal /\
    forall j, ~ code_at nal j.
Proof.
  intros (i & _ & H)%(nal_units_spec u 0); [by exists i|]. apply start_codes_from. lia.
Qed.

(** The publisher and the protocol agree on which units hold an IDR picture. *)
Lemma idr_nal_iff u :
  Exists (fun nal => nal_type nal = 5) (annex_b_nals u) <-> contains_h264_idr u = true.
Proof.
  rewrite Exists_exists, contains_h264_idr_spec. split.
  - intros (nal & (i & (H0 & H1 & H2) & Hne & Htake & _)%annex_b_nals_spec & Hkind).
    destruct nal as [|b nal]; [done|]. exists (take i u), b, (drop (i + 4) u). split; [|exact Hkind].
    rewrite <-(take_drop i u) at 1. f_equal. rewrite (drop_S _ _ _ H0). cbn. f_equal.
    rewrite Nat.add_1_r in H1. rewrite (drop_S _ _ _ H1). f_equal.
    replace (i + 2)%nat with (S (S i)) in H2 by lia. rewrite (drop_S _ _ _ H2). f_equal.
    replace (i + 4)%nat with (S (i + 3)) by lia. replace (S (S (S i))) with (i + 3)%nat by lia.
    destruct (drop (i + 3) u) as [|b' l] eqn:E; [done|]. cbn in Htake. injection Htake as -> _.
    f_equal. rewrite <-Nat.add_1_r, <-drop_drop, E. done.
  - intros (pre & b & post & -> & Hb).
    destruct (nal_units_complete (pre ++ START3 ++ b :: post) 0
      (start_codes (length (pre ++ START3 ++ b :: post)) (pre ++ START3 ++ b :: post) 0) (length pre) b)
      as (nal & Hnal & Hhead); [apply start_codes_from; lia|lia| |by rewrite lookup_app_r, Nat.add_comm, Nat.add_sub by lia| |].
    + split_and!; rewrite lookup_app_r by lia; [by rewrite Nat.sub_diag|..]; by rewrite Nat.add_comm, Nat.add_sub.
    + by intros ->.
    + exists nal. split; [done|]. unfold nal_type. by rewrite Hhead.
Qed.

(** ** Joining units

    Units behind four-byte start codes are split into the same units. *)
Fixpoint join_codes (c : nat) (nals : list bytes) : list (nat * nat) :=
  match nals with [] => [] | nal :: nals => (c, 4%nat) :: join_codes (c + 4 + length nal) nals end.

Lemma start_codes_skip fuel u c n :
  (forall i, (c <= i <= c + n)%nat -> ~ code_at u i) ->
  start_codes (n + fuel) u c = start_codes fuel u (c + n).
Proof.
  revert c. induction n as [|n IH]; intros c Hno; [by rewrite Nat.add_0_r|].
  cbn [Nat.add start_codes]. case_decide as Hlen.
  2: { destruct fuel; [done|]. cbn [start_codes]. by rewrite decide_False by lia. }
  rewrite decide_False by (rewrite starts3_at; apply Hno; lia).
  rewrite decide_False by (rewrite starts4_at; intros [_ H]; eapply Hno; [|exact H]; lia).
  rewrite IH by (intros; apply Hno; lia). f_equal. lia.
Qed.

Definition nal_ok (nal : bytes) : Prop := nal <> [] /\ forall i, ~ code_at nal i.

Lemma code_at_app pre l i : code_at (pre ++ l) (length pre + i) <-> code_at l i.
Proof.
  unfold code_at. rewrite <-!Nat.add_assoc, !lookup_app_r by lia.
  by rewrite !(Nat.add_comm (length pre)), !Nat.add_sub.
Qed.
(** No start code begins inside a unit or where the next code begins. *)
Lemma code_at_unit nal nals i :
  nal_ok nal -> (i <= length nal)%nat -> ~ code_at (nal ++ annex_b_join nals) i.
Proof.
  intros [_ Hnal] Hi (H0 & H1 & H2). destruct (decide (i + 3 <= length nal)%nat).
  - rewrite lookup_app_l in H0, H1, H2 by lia. by apply (Hnal i).
  - rewrite lookup_app_r in H2 by lia. destruct nals as [|nal' nals]; [done|]. cbn in H2.
    assert (i + 2 - length nal = 0 \/ i + 2 - length nal = 1 \/ i + 2 - length nal = 2)%nat
      as [E|[E|E]] by lia; rewrite E in H2; discriminate.
Qed.
Lemma start_codes_join fuel pre nals :
  Forall nal_ok nals -> (length (annex_b_join nals) <= fuel)%nat ->
  start_codes fuel (pre ++ annex_b_join nals) (length pre) = join_codes (length pre) nals.
Proof.
  intros Hok. revert fuel pre. induction Hok as [|nal nals Hnal Hok IH]; intros fuel pre Hfuel.
  - destruct fuel; [done|]. cbn [start_codes]. rewrite app_nil_r, decide_False by lia. done.
  - change (annex_b_join (nal :: nals)) with ((START4 ++ nal) ++ annex_b_join nals) in *.
    rewrite !length_app in Hfuel. change (length START4) with 4%nat in Hfuel.
    destruct fuel as [|fuel]; [lia|]. cbn [start_codes join_codes].
    rewrite decide_True by (rewrite !length_app; simpl; lia).
    rewrite <-(app_assoc START4). rewrite drop_app_length.
    rewrite decide_False by (intros H; unfold starts_with in H; discriminate).
    rewrite decide_True by done. f_equal.
    replace fuel with (length nal + (fuel - length nal))%nat by lia.
    rewrite start_codes_skip.
    + replace (length pre + 4 + length nal)%nat with (length (pre ++ START4 ++ nal)) by (rewrite !length_app; simpl; lia).
      replace (pre ++ START4 ++ nal ++ annex_b_join nals) with ((pre ++ START4 ++ nal) ++ annex_b_join nals)
        by by rewrite <-!app_assoc.
      apply IH. lia.
    + intros i Hi Hc. replace (pre ++ START4 ++ nal ++ annex_b_join nals) with
        ((pre ++ START4) ++ nal ++ annex_b_join nals) in Hc by by rewrite <-!app_assoc.
      replace i with (length (pre ++ START4) + (i - length pre - 4))%nat in Hc by (rewrite length_app; simpl; lia).
      apply code_at_app in Hc. eapply code_at_unit; [exact Hnal| |exact Hc]. lia.
Qed.
Lemma nal_units_join pre nals :
  Forall nal_ok nals ->
  nal_units (pre ++ annex_b_join nals) (join_codes (length pre) nals) = nals.
Proof.
  intros Hok. revert pre. induction Hok as [|nal nals [Hne _] Hok IH]; intros pre; [done|].
  cbn [join_codes nal_units]. specialize (IH (pre ++ START4 ++ nal)).
  rewrite !length_app in IH. change (length START4) with 4%nat in IH. rewrite Nat.add_assoc in IH.
  replace ((pre ++ START4 ++ nal) ++ annex_b_join nals) with (pre ++ annex_b_join (nal :: nals)) in IH
    by (unfold annex_b_join; cbn; by rewrite <-!app_assoc).
  set (last := match join_codes _ nals with (next, _) :: _ => next | [] => _ end).
  assert (last = length pre + 4 + length nal)%nat as ->.
  { unfold last. destruct nals; cbn [join_codes]; [|done]. unfold annex_b_join. cbn.
    rewrite app_nil_r, length_app. simpl. lia. }
  destruct nal as [|b nal]; [done|]. rewrite decide_True by (simpl; lia). f_equal; [|exact IH].
  replace (length pre + 4 + length (b :: nal) - (length pre + 4))%nat with (length (b :: nal)) by lia.
  unfold annex_b_join. rewrite fmap_cons. cbn [concat]. rewrite <-app_assoc, app_assoc.
  replace (length pre + 4)%nat with (length (pre ++ START4)) by (rewrite length_app; simpl; lia).
  rewrite drop_app_length. apply take_app_length.
Qed.
Lemma annex_b_nals_join nals : Forall nal_ok nals -> annex_b_nals (annex_b_join nals) = nals.
Proof.
  intros Hok. unfold annex_b_nals.
  pose proof (start_codes_join (length (annex_b_join nals)) [] nals Hok) as H. cbn [app length] in H.
  rewrite H by done. exact (nal_units_join [] nals Hok).
Qed.

Lemma find_nal_Some kind nals nal : find_nal kind nals = Some nal -> nal ∈ nals /\ nal_type nal = kind.
Proof.
  unfold find_nal. destruct (list_find _ nals) as [[i x]|] eqn:E; [|done]. intros [= <-].
  apply list_find_Some in E as (H & Hk & _). split; [by eapply list_elem_of_lookup_2|done].
Qed.
Lemma find_nal_None kind nals : find_nal kind nals = None -> Forall (fun nal => nal_type nal <> kind) nals.
Proof.
  unfold find_nal. destruct (list_find _ nals) as [[i x]|] eqn:E; [done|]. intros _.
  by apply list_find_None in E.
Qed.

(** C31: what the publisher reads from an encoded frame: the access unit itself,
    a keyframe exactly when the encoder says so or the protocol finds an IDR
    picture in it, and parameter sets exactly when it has both, which are found
    again, and only they, in the codec configuration that the epoch carries. *)
Theorem encoded_frame_faithful unit sets hint f sets' :
  inspect_encoded_frame unit sets hint = (Ok f, sets') ->
  annex_b f = unit /\ keyframe f = hint || contains_h264_idr unit /\ is_Some sets' /\
  match config f with
  | Some c => sets' = Some c /\ nal_type (sps c) = 7 /\ nal_type (pps c) = 8 /\
      sps c ∈ annex_b_nals unit /\ pps c ∈ annex_b_nals unit /\
      is_annex_b (annex_b_config c) /\ annex_b_nals (annex_b_config c) = [sps c; pps c]
  | None => sets' = sets /\
      (Forall (fun nal => nal_type nal <> 7) (annex_b_nals unit) \/
       Forall (fun nal => nal_type nal <> 8) (annex_b_nals unit))
  end.
Proof.
  unfold inspect_encoded_frame. case_decide as Hne; [done|]. cbv zeta.
  destruct (find_nal 7 (annex_b_nals unit)) as [s|] eqn:Es, (find_nal 8 (annex_b_nals unit)) as [p|] eqn:Ep;
    intros [[Hsets [= <-]]%guard_bind <-]%pair_equal_spec;
    cbn [annex_b keyframe config sps pps]; (split; [done|]);
    (split; [f_equal; apply eq_true_iff_eq; rewrite bool_decide_eq_true; apply idr_nal_iff|]);
    (split; [destruct sets; naive_solver|]).
  - apply find_nal_Some in Es as [Hs Hs7], Ep as [Hp Hp8]. split_and!; try done; [by right|].
    apply annex_b_nals_join. apply annex_b_nals_spec in Hs as (? & _ & ? & _ & ?).
    apply annex_b_nals_spec in Hp as (? & _ & ? & _ & ?). by repeat constructor.
  - split; [done|]. right. by apply find_nal_None.
  - split; [done|]. left. by apply find_nal_None.
  - split; [done|]. left. by apply find_nal_None.
Qed.

Definition sample_unit : bytes :=
  START4 ++ [x67; x01; x02] ++ START3 ++ [x68; x03] ++ START4 ++ [x65; x04; x00; x00].
Lemma encoded_frame_faithful_witness :
  annex_b_nals (annex_b_config {| sps := [x67; x01; x02]; pps := [x68; x03] |}) = [[x67; x01; x02]; [x68; x03]] /\
  false || contains_h264_idr sample_unit = true.
Proof.
  destruct (encoded_frame_faithful sample_unit None false
    {| annex_b := sample_unit; keyframe := true;
       config := Some {| sps := [x67; x01; x02]; pps := [x68; x03] |} |}
    (Some {| sps := [x67; x01; x02]; pps := [x68; x03] |})) as (_ & Hk & _ & _ & _ & _ & _ & _ & _ & H).
  - vm_compute. reflexivity.
  - split; [exact H|]. symmetry. exact Hk.
Defined.
