(* ===== verification/Float64.v ===== *)
(** Binary floating point: the standard library's executable specification
    ([SpecFloat]) at the width of [f64], with what the cursor code relies on: the
    operations give mantissas of at most 53 digits, and clamping, scaling and
    rounding never pass an integer bound. *)
From Stdlib Require Import ZArith Lia.
From Stdlib.Floats Require Import SpecFloat.
From S2P Require Import Prelude.

Abbreviation float := spec_float.

(** [f64::from] of an integer below [2^53] and of an [f32]; both are exact. *)
Definition f64_of_Z (n : Z) : float := binary_normalize 53 1024 n 0 false.
Definition f64_of_f32 (x : float) : float :=
  match x with
  | S754_finite s m e => binary_normalize 53 1024 (cond_Zopp s (Zpos m)) e s
  | _ => x
  end.
(** The integer [as f32] cast: the nearest value. *)
Definition f32_of_Z (n : Z) : float := binary_normalize 24 128 n 0 false.
Definition f64_mul : float -> float -> float := SFmul 53 1024.
Definition f64_div : float -> float -> float := SFdiv 53 1024.

Definition is_finite (x : float) : bool :=
  match x with S754_zero _ | S754_finite _ _ _ => true | _ => false end.

(** [f64::clamp] for [min <= max]. *)
Definition f64_clamp (x min max : float) : float :=
  let x := if SFltb x min then min else x in
  if SFltb max x then max else x.

(** [x.round() as i64]: half away from zero, then a saturating cast that maps
    NaN to zero. *)
Definition round_magnitude (m e : Z) : Z :=
  if decide (0 <= e) then m * 2 ^ e else (2 * m + 2 ^ (- e)) / (2 * 2 ^ (- e)).
Definition f64_round_i64 (x : float) : Z :=
  match x with
  | S754_zero _ | S754_nan => 0
  | S754_infinity s => if s then i64_min else i64_max
  | S754_finite s m e => i64_clamp (cond_Zopp s (round_magnitude (Zpos m) e))
  end.

(** * Digits and exponents *)

Abbreviation digits := Zdigits2.
Abbreviation fexp64 := (fexp 53 1024).

Lemma digits_pos p : 2 ^ (Zpos (digits2_pos p) - 1) <= Zpos p < 2 ^ Zpos (digits2_pos p).
Proof.
  induction p as [p IH|p IH|]; cbn [digits2_pos]; rewrite ?Pos2Z.inj_succ; [..|done];
    set (d := Zpos (digits2_pos p)) in *; assert (1 <= d) by lia;
    replace (Z.succ d - 1) with (Z.succ (d - 1)) by lia; rewrite !Z.pow_succ_r by lia; lia.
Qed.
Lemma digits_bounds m : 0 < m -> 1 <= digits m /\ 2 ^ (digits m - 1) <= m < 2 ^ digits m.
Proof. intros Hm. destruct m as [|p|p]; [lia| |lia]. split; [simpl; lia|apply digits_pos]. Qed.
Lemma digits_nonneg m : 0 <= digits m.
Proof. destruct m; simpl; lia. Qed.
Lemma digits_unique m d : 0 < m -> 0 < d -> 2 ^ (d - 1) <= m < 2 ^ d -> digits m = d.
Proof.
  intros Hm Hd H. destruct (digits_bounds m Hm) as [H1 H2].
  assert (digits m - 1 < d) by (apply (Z.pow_lt_mono_r_iff 2); lia).
  assert (d - 1 < digits m) by (apply (Z.pow_lt_mono_r_iff 2); lia). lia.
Qed.
Lemma digits_ge m d : 0 <= d -> 2 ^ d <= m -> d < digits m.
Proof.
  intros Hd H. assert (0 < m) as Hm by (pose proof (Z.pow_pos_nonneg 2 d); lia).
  destruct (digits_bounds m Hm) as [H1 H2]. apply (Z.pow_lt_mono_r_iff 2); lia.
Qed.

(** * Shifting right *)

(** A record stands for its mantissa and whether anything was lost. *)
Definition lost (r : shr_record) : bool := shr_r r || shr_s r.

Lemma shr_1_spec r :
  0 <= shr_m r -> shr_m (shr_1 r) = shr_m r / 2 /\
    lost (shr_1 r) = lost r || negb (shr_m r mod 2 =? 0).
Proof.
  destruct r as [m a b]. unfold lost. cbn [shr_m shr_r shr_s]. intros Hm.
  destruct m as [|[p|p|]|p]; [..|lia]; cbn [shr_1 shr_m shr_r shr_s].
  - by destruct a, b.
  - rewrite Pos2Z.inj_xI. split; [rewrite Z.add_comm, Z.mul_comm, Z.div_add by lia; done|].
    rewrite Z.add_comm, Z.mul_comm, Z.mod_add by lia. by destruct a, b.
  - rewrite Pos2Z.inj_xO. split; [rewrite Z.mul_comm, Z.div_mul by lia; done|].
    rewrite Z.mul_comm, Z.mod_mul by lia. by destruct a, b.
  - by destruct a, b.
Qed.

Lemma iter_pos_comm {A} (f : A -> A) p x : SpecFloat.iter_pos f p (f x) = f (SpecFloat.iter_pos f p x).
Proof. revert x. induction p as [p IH|p IH|]; intros x; simpl; by rewrite ?IH. Qed.
Lemma iter_pos_succ {A} (f : A -> A) p x :
  SpecFloat.iter_pos f (Pos.succ p) x = f (SpecFloat.iter_pos f p x).
Proof.
  revert x. induction p as [p IH|p IH|]; intros x; simpl; [|by rewrite !iter_pos_comm|done].
  by rewrite !IH, !iter_pos_comm.
Qed.

Lemma shr_spec r p :
  0 <= shr_m r -> lost r = false ->
  shr_m (SpecFloat.iter_pos shr_1 p r) = shr_m r / 2 ^ Zpos p /\
  lost (SpecFloat.iter_pos shr_1 p r) = negb (shr_m r mod 2 ^ Zpos p =? 0).
Proof.
  intros Hm Hl. induction p as [|p [IH1 IH2]] using Pos.peano_ind.
  - destruct (shr_1_spec r Hm) as [H1 H2]. rewrite Hl in H2. done.
  - rewrite iter_pos_succ, Pos2Z.inj_succ, Z.pow_succ_r by lia.
    set (q := SpecFloat.iter_pos shr_1 p r) in *. set (P := 2 ^ Zpos p) in *.
    assert (0 < P) by (apply Z.pow_pos_nonneg; lia).
    destruct (shr_1_spec q) as [H1 H2]; [rewrite IH1; apply Z.div_pos; lia|].
    rewrite H1, H2, IH1, IH2. split.
    + rewrite Z.div_div by lia. f_equal. lia.
    + rewrite (Z.mul_comm 2 P), Z.rem_mul_r by lia.
      pose proof (Z.mod_pos_bound (shr_m r) P). pose proof (Z.mod_pos_bound (shr_m r / P) 2).
      destruct (Z.eqb_spec (shr_m r mod P) 0), (Z.eqb_spec ((shr_m r / P) mod 2) 0),
        (Z.eqb_spec (shr_m r mod P + P * ((shr_m r / P) mod 2)) 0); simpl; try done; nia.
Qed.

(** * Rounding *)

Abbreviation shr_fexp64 := (shr_fexp 53 1024).
Abbreviation round_aux := (binary_round_aux 53 1024).

Lemma loc_record_m m l : shr_m (shr_record_of_loc m l) = m.
Proof. by destruct l as [|[]]. Qed.

(** Shifting to the exponent of a width of 53 digits leaves at most 53 digits. *)
Lemma shr_iter_m r p : 0 <= shr_m r -> shr_m (SpecFloat.iter_pos shr_1 p r) = shr_m r / 2 ^ Zpos p.
Proof.
  intros Hm. induction p as [|p IH] using Pos.peano_ind.
  - exact (proj1 (shr_1_spec r Hm)).
  - rewrite iter_pos_succ, Pos2Z.inj_succ, Z.pow_succ_r by lia.
    assert (0 < 2 ^ Zpos p) by (apply Z.pow_pos_nonneg; lia).
    destruct (shr_1_spec (SpecFloat.iter_pos shr_1 p r)) as [-> _]; [rewrite IH; apply Z.div_pos; lia|].
    rewrite IH, Z.div_div by lia. f_equal. lia.
Qed.
Lemma fexp64_ge d : d - 53 <= fexp64 d.
Proof. unfold fexp. lia. Qed.

Lemma shr_fexp_bound m e l r e' : 0 <= m -> shr_fexp64 m e l = (r, e') -> 0 <= shr_m r < 2 ^ 53.
Proof.
  intros Hm. unfold shr_fexp. set (n := fexp64 (digits m + e) - e).
  pose proof (fexp64_ge (digits m + e)) as Hge.
  assert (m < 2 ^ digits m) as Hlt by (destruct (decide (m = 0)) as [->|]; [done|]; apply digits_bounds; lia).
  pose proof (digits_nonneg m).
  assert (forall k, 0 <= k -> n <= k -> m < 2 ^ (53 + k)) as Hbound.
  { intros k Hk Hn. eapply Z.lt_le_trans; [exact Hlt|]. apply Z.pow_le_mono_r; lia. }
  unfold shr. destruct n as [|p|p] eqn:En; intros [= <- <-]; rewrite ?shr_iter_m, loc_record_m by (by rewrite ?loc_record_m).
  - split; [done|]. apply (Hbound 0); lia.
  - assert (0 < 2 ^ Zpos p) by (apply Z.pow_pos_nonneg; lia). split; [apply Z.div_pos; lia|].
    apply Z.div_lt_upper_bound; [done|]. rewrite <-Z.pow_add_r by lia.
    replace (Zpos p + 53) with (53 + Zpos p) by lia. apply Hbound; lia.
  - split; [done|]. apply (Hbound 0); lia.
Qed.

(** A rounded result has at most 53 digits. *)
Lemma round_aux_digits s m e l s' m' e' : 0 <= m -> round_aux s m e l = S754_finite s' m' e' -> Zpos m' < 2 ^ 53.
Proof.
  intros Hm. unfold binary_round_aux. destruct (shr_fexp _ _ m e l) as [r1 e1] eqn:E1.
  destruct (shr_fexp _ _ (round_nearest_even _ _) e1 _) as [r2 e2] eqn:E2.
  apply shr_fexp_bound in E1; [|done]. apply shr_fexp_bound in E2.
  2: { unfold round_nearest_even. destruct (loc_of_shr_record r1) as [|[]]; try lia. case_match; lia. }
  destruct (shr_m r2) as [|p|p]; [done| |done]. case_match; [|done]. intros [= _ <- _]. lia.
Qed.

(** [m * 2 ^ e <= M], for an integer [M] *)
Definition le_int (m e M : Z) : Prop := m * 2 ^ Z.max e 0 <= M * 2 ^ Z.max (- e) 0.

Lemma le_int_shift m e n M : 0 <= m -> 0 <= n -> le_int m e M -> le_int (m / 2 ^ n) (e + n) M.
Proof.
  unfold le_int. intros Hm Hn H. assert (0 < 2 ^ n) as Hp by (apply Z.pow_pos_nonneg; lia).
  pose proof (Z.mul_div_le m (2 ^ n) Hp) as Hd.
  destruct (decide (0 <= e)); [|destruct (decide (0 <= e + n))].
  - rewrite !Z.max_l, !Z.max_r in * by lia. rewrite Z.pow_add_r by lia.
    assert (0 < 2 ^ e) by (apply Z.pow_pos_nonneg; lia). nia.
  - rewrite (Z.max_r e), (Z.max_l (- e)), (Z.max_l (e + n)), (Z.max_r (- (e + n))) in * by lia.
    replace (2 ^ n) with (2 ^ (e + n) * 2 ^ (- e)) in * by (rewrite <-Z.pow_add_r by lia; f_equal; lia).
    assert (0 < 2 ^ (- e)) by (apply Z.pow_pos_nonneg; lia).
    assert (0 < 2 ^ (e + n)) by (apply Z.pow_pos_nonneg; lia). nia.
  - rewrite !(Z.max_r e), !(Z.max_r (e + n)), !Z.max_l in * by lia.
    replace (2 ^ (- e)) with (2 ^ (- (e + n)) * 2 ^ n) in H by (rewrite <-Z.pow_add_r by lia; f_equal; lia).
    nia.
Qed.

Lemma shr_fexp_le m e r e' M :
  0 <= m -> le_int m e M -> shr_fexp64 m e loc_Exact = (r, e') -> le_int (shr_m r) e' M.
Proof.
  intros Hm Hle. unfold shr_fexp, shr. case_match eqn:E; intros [= <- <-]; try done.
  rewrite shr_iter_m by done. apply le_int_shift; [done|lia|done].
Qed.

Lemma round_nearest_cases r :
  round_nearest_even (shr_m r) (loc_of_shr_record r) = shr_m r \/
  (lost r = true /\ round_nearest_even (shr_m r) (loc_of_shr_record r) = shr_m r + 1).
Proof.
  destruct r as [m [] []]; cbn; [by right|..|by left|by left]. destruct (Z.even m); [by left|by right].
Qed.

Lemma round_up_le m e n M :
  0 < m -> 0 <= M < 2 ^ 53 -> le_int m e M -> n = fexp64 (digits m + e) - e -> 0 < n ->
  m mod 2 ^ n <> 0 -> le_int (m / 2 ^ n + 1) (e + n) M.
Proof.
  intros Hm HM Hle Hn Hpos Hmod. destruct (digits_bounds m Hm) as [Hd [Hlow _]].
  assert (0 < 2 ^ n) as Hp by (apply Z.pow_pos_nonneg; lia).
  assert (e + n <= 0) as He.
  { destruct (decide (e + n <= 0)); [done|exfalso].
    assert (digits m + e >= 54) by (unfold fexp, emin in Hn; lia). unfold le_int in Hle.
    destruct (decide (0 <= e)).
    - rewrite Z.max_l, Z.max_r in Hle by lia.
      assert (2 ^ 53 <= 2 ^ (digits m - 1) * 2 ^ e) by (rewrite <-Z.pow_add_r by lia; apply Z.pow_le_mono_r; lia).
      assert (0 < 2 ^ e) by (apply Z.pow_pos_nonneg; lia). nia.
    - rewrite Z.max_r, Z.max_l in Hle by lia.
      assert (2 ^ 53 * 2 ^ (- e) <= 2 ^ (digits m - 1)) by (rewrite <-Z.pow_add_r by lia; apply Z.pow_le_mono_r; lia).
      assert (0 < 2 ^ (- e)) by (apply Z.pow_pos_nonneg; lia). nia. }
  unfold le_int in *. rewrite !Z.max_r, !Z.max_l in * by lia.
  replace (2 ^ (- e)) with (2 ^ (- (e + n)) * 2 ^ n) in Hle by (rewrite <-Z.pow_add_r by lia; f_equal; lia).
  pose proof (Z.div_mod m (2 ^ n)). pose proof (Z.mod_pos_bound m (2 ^ n)). nia.
Qed.

Lemma round_aux_le s m e M :
  0 < m -> 0 <= M < 2 ^ 53 -> le_int m e M ->
  match round_aux s m e loc_Exact with
  | S754_zero _ => True
  | S754_finite s' m' e' => s' = s /\ le_int (Zpos m') e' M
  | _ => False
  end.
Proof.
  intros Hm HM Hle. unfold binary_round_aux. destruct (shr_fexp _ _ m e _) as [r1 e1] eqn:E1.
  set (m2 := round_nearest_even (shr_m r1) (loc_of_shr_record r1)).
  assert (0 <= m2 /\ le_int m2 e1 M) as [Hm2 Hle2].
  { pose proof (shr_fexp_bound _ _ _ _ _ (Z.lt_le_incl _ _ Hm) E1) as Hb.
    pose proof (shr_fexp_le _ _ _ _ _ (Z.lt_le_incl _ _ Hm) Hle E1) as Hle1.
    destruct (round_nearest_cases r1) as [E|[Hl E]]; unfold m2; rewrite E; [split; [lia|done]|]. split; [lia|].
    revert E1. unfold shr_fexp, shr, shr_record_of_loc. case_match eqn:En; intros [= <- <-]; try done.
    destruct (shr_spec {| shr_m := m; shr_r := false; shr_s := false |} p) as [Hq Hlost]; [simpl; lia|done|].
    rewrite Hq. cbn [shr_m] in *. rewrite Hlost in Hl. apply round_up_le; try done.
    intros H0. by rewrite H0 in Hl. }
  destruct (shr_fexp _ _ m2 e1 _) as [r2 e2] eqn:E2.
  pose proof (shr_fexp_le _ _ _ _ _ Hm2 Hle2 E2) as Hle3.
  apply shr_fexp_bound in E2; [|done].
  destruct (shr_m r2) as [|p|p]; [done| |lia].
  destruct (Z.leb_spec e2 (1024 - 53)); [done|]. unfold le_int in Hle3.
  rewrite Z.max_l, Z.max_r in Hle3 by lia.
  assert (2 ^ 53 <= 2 ^ e2) by (apply Z.pow_le_mono_r; lia). nia.
Qed.

Lemma iter_xO q k : Zpos (Pos.iter xO q k) = Zpos q * 2 ^ Zpos k.
Proof.
  induction k as [|k IH] using Pos.peano_ind; [simpl; lia|].
  rewrite Pos.iter_succ, Pos2Z.inj_xO, IH, Pos2Z.inj_succ, Z.pow_succ_r by lia. lia.
Qed.

(** The integers below [2^53] are represented exactly, with 53 digits. *)
Lemma f64_of_Z_pos n :
  0 < n < 2 ^ 53 -> exists p, f64_of_Z n = S754_finite false p (digits n - 53) /\
    Zpos p = n * 2 ^ (53 - digits n) /\ 1 <= digits n <= 53.
Proof.
  intros Hn. destruct (digits_bounds n) as [Hd [Hl Hu]]; [lia|].
  assert (digits n <= 53) as Hd2.
  { destruct (decide (digits n <= 53)); [done|]. assert (2 ^ 53 <= 2 ^ (digits n - 1)) by (apply Z.pow_le_mono_r; lia). lia. }
  destruct n as [|q|q]; [lia| |lia]. unfold f64_of_Z, binary_normalize, binary_round. cbn [Zdigits2] in *.
  set (d := Zpos (digits2_pos q)) in *.
  assert (fexp64 (d + 0) = d - 53) as -> by (unfold fexp, emin; lia).
  assert (forall p, Zpos p = Zpos q * 2 ^ (53 - d) -> round_aux false (Zpos p) (d - 53) loc_Exact = S754_finite false p (d - 53))
    as Hround.
  { intros p Hp. assert (digits (Zpos p) = 53) as Hdp.
    { apply digits_unique; [lia|lia|]. rewrite Hp. split.
      - replace (53 - 1) with ((d - 1) + (53 - d)) by lia. rewrite Z.pow_add_r by lia.
        apply Z.mul_le_mono_nonneg_r; [apply Z.pow_nonneg; lia|done].
      - replace 53 with (d + (53 - d)) at 2 by lia. rewrite Z.pow_add_r by lia.
        apply Z.mul_lt_mono_pos_r; [apply Z.pow_pos_nonneg; lia|done]. }
    assert (shr_fexp64 (Zpos p) (d - 53) loc_Exact =
      ({| shr_m := Zpos p; shr_r := false; shr_s := false |}, d - 53)) as Hs.
    { unfold shr_fexp. rewrite Hdp. replace (fexp64 (53 + (d - 53)) - (d - 53)) with 0; [done|].
      unfold fexp, emin. lia. }
    unfold binary_round_aux. rewrite Hs. cbn [shr_m loc_of_shr_record round_nearest_even]. rewrite Hs.
    cbn [shr_m]. destruct (Z.leb_spec (d - 53) (1024 - 53)); [done|lia]. }
  unfold shl_align. replace (d - 53 - 0) with (- (53 - d)) by lia.
  destruct (53 - d) as [|k|k] eqn:Ek; [..|lia].
  - exists q. replace d with 53 in * by lia. split; [|split; [by rewrite Z.mul_1_r|lia]].
    apply (Hround q). by rewrite Z.mul_1_r.
  - cbn [Z.opp]. exists (Pos.iter xO q k). assert (Zpos (Pos.iter xO q k) = Zpos q * 2 ^ Zpos k) as Hk
      by apply iter_xO.
    split; [by apply Hround|]. split; [done|lia].
Qed.

Lemma f64_div_digits x y s m e : f64_div x y = S754_finite s m e -> Zpos m < 2 ^ 53.
Proof.
  unfold f64_div, SFdiv. destruct x as [?|?| |sx mx ex], y as [?|?| |sy my ey]; try done.
  destruct (SFdiv_core_binary _ _ _ _ _ _) as [[mz ez] lz] eqn:E. apply round_aux_digits.
  revert E. unfold SFdiv_core_binary.
  set (m' := match _ with Z0 => _ | Zpos _ => _ | Zneg _ => _ end).
  assert (0 <= m') as Hm'.
  { unfold m'. case_match; [lia| |lia]. apply Z.shiftl_nonneg. lia. }
  pose proof (Z.div_pos m' (Zpos my) Hm') as Hq. unfold Z.div in Hq.
  destruct (Z.div_eucl m' (Zpos my)) as [q r]. intros [= <- _ _]. by apply Hq.
Qed.

(** A clamped value is no number, zero, or at most the bound. *)
Lemma f64_clamp_le x n :
  0 < n < 2 ^ 53 -> (forall s m e, x = S754_finite s m e -> Zpos m < 2 ^ 53) ->
  match f64_clamp x (f64_of_Z 0) (f64_of_Z n) with
  | S754_nan | S754_zero _ => True
  | S754_finite s m e => s = false /\ le_int (Zpos m) e n
  | S754_infinity _ => False
  end.
Proof.
  intros Hn Hx. destruct (f64_of_Z_pos n Hn) as (p & Hf & Hp & Hd). rewrite Hf.
  assert (le_int (Zpos p) (digits n - 53) n) as Hself.
  { unfold le_int. rewrite Z.max_r, Z.max_l, Hp by lia. replace (- (digits n - 53)) with (53 - digits n) by lia.
    change (2 ^ 0) with 1. lia. }
  unfold f64_clamp, SFltb. destruct x as [s|[]| |[] m e]; cbn; try done.
  destruct (Z.compare_spec (digits n - 53) e) as [He|He|He]; [|done|].
  - change (Pos.compare_cont Eq p m) with (Pos.compare p m). subst e.
    destruct (Pos.compare_spec p m); cbn; (split; [done|]); [by subst|done|].
    unfold le_int in *. rewrite Z.max_r in * by lia. change (2 ^ 0) with 1 in *. lia.
  - split; [done|]. specialize (Hx _ _ _ eq_refl). unfold le_int. rewrite Z.max_r, Z.max_l by lia.
    destruct (digits_bounds n) as [_ [Hl _]]; [lia|].
    assert (2 ^ 53 <= 2 ^ (digits n - 1) * 2 ^ (- e)) by (rewrite <-Z.pow_add_r by lia; apply Z.pow_le_mono_r; lia).
    assert (0 < 2 ^ (- e)) by (apply Z.pow_pos_nonneg; lia). change (2 ^ 0) with 1. nia.
Qed.

Lemma le_int_mul m e M m' e' M' :
  0 <= m -> 0 <= m' -> le_int m e M -> le_int m' e' M' -> le_int (m * m') (e + e') (M * M').
Proof.
  unfold le_int. intros Hm Hm' H H'.
  set (k := Z.max e 0 + Z.max e' 0 - Z.max (e + e') 0).
  assert (0 < 2 ^ k) as Hk by (apply Z.pow_pos_nonneg; lia).
  assert (2 ^ Z.max e 0 * 2 ^ Z.max e' 0 = 2 ^ Z.max (e + e') 0 * 2 ^ k) as E1
    by (rewrite <-!Z.pow_add_r by lia; f_equal; lia).
  assert (2 ^ Z.max (- e) 0 * 2 ^ Z.max (- e') 0 = 2 ^ Z.max (- (e + e')) 0 * 2 ^ k) as E2
    by (rewrite <-!Z.pow_add_r by lia; f_equal; lia).
  apply (Z.mul_le_mono_pos_r _ _ (2 ^ k)); [done|].
  replace (m * m' * 2 ^ Z.max (e + e') 0 * 2 ^ k) with ((m * 2 ^ Z.max e 0) * (m' * 2 ^ Z.max e' 0))
    by (rewrite <-(Z.mul_assoc _ _ (2 ^ k)), <-E1; ring).
  replace (M * M' * 2 ^ Z.max (- (e + e')) 0 * 2 ^ k) with
    ((M * 2 ^ Z.max (- e) 0) * (M' * 2 ^ Z.max (- e') 0))
    by (rewrite <-(Z.mul_assoc _ _ (2 ^ k)), <-E2; ring).
  assert (0 <= 2 ^ Z.max e 0) by (apply Z.pow_nonneg; lia).
  assert (0 <= 2 ^ Z.max e' 0) by (apply Z.pow_nonneg; lia).
  apply Z.mul_le_mono_nonneg; nia.
Qed.

Lemma round_magnitude_le m e M : 0 <= m -> le_int m e M -> 0 <= round_magnitude m e <= M.
Proof.
  unfold le_int, round_magnitude. intros Hm H. case_decide as He.
  - rewrite Z.max_l, Z.max_r in H by lia. change (2 ^ 0) with 1 in H.
    assert (0 <= 2 ^ e) by (apply Z.pow_nonneg; lia). nia.
  - rewrite Z.max_r, Z.max_l in H by lia. change (2 ^ 0) with 1 in H.
    assert (0 < 2 ^ (- e)) by (apply Z.pow_pos_nonneg; lia).
    split; [apply Z.div_pos; lia|]. apply Z.lt_succ_r, Z.div_lt_upper_bound; nia.
Qed.

(** Clamping to an integer, scaling by another one and rounding stays within the
    product. *)
Lemma f64_clamped_product x n k :
  0 < n < 2 ^ 53 -> 0 < k < 2 ^ 53 -> n * k < 2 ^ 53 ->
  (forall s m e, x = S754_finite s m e -> Zpos m < 2 ^ 53) ->
  0 <= f64_round_i64 (f64_mul (f64_clamp x (f64_of_Z 0) (f64_of_Z n)) (f64_of_Z k)) <= n * k.
Proof.
  intros Hn Hk Hnk Hx. pose proof (f64_clamp_le x n Hn Hx) as Hc.
  destruct (f64_of_Z_pos k Hk) as (p & Hf & Hp & Hd). rewrite Hf.
  destruct (f64_clamp x _ _) as [?|?| |s m e]; [simpl; nia|done|simpl; nia|]. destruct Hc as [-> Hc].
  assert (le_int (Zpos p) (digits k - 53) k) as Hpk.
  { unfold le_int. rewrite Z.max_r, Z.max_l, Hp by lia. replace (- (digits k - 53)) with (53 - digits k) by lia.
    change (2 ^ 0) with 1. lia. }
  cbn [f64_mul SFmul xorb]. pose proof (round_aux_le false (Zpos (m * p)) (e + (digits k - 53)) (n * k)) as Hr.
  destruct (round_aux _ _ _ _) as [?|?| |s m' e'].
  - simpl. nia.
  - exfalso. apply Hr; [lia|nia|]. rewrite Pos2Z.inj_mul. by apply le_int_mul.
  - simpl. nia.
  - destruct Hr as [-> Hr]; [lia|nia|rewrite Pos2Z.inj_mul; by apply le_int_mul|].
    apply round_magnitude_le in Hr; [|lia]. cbn [f64_round_i64 cond_Zopp].
    unfold i64_clamp, i64_max, i64_min. lia.
Qed.
