(* ===== verification/PublisherCursor.v ===== *)
(** The cursor path of the publisher ([crates/publisher/src/lib.rs]): from the
    cursor metadata of a PipeWire buffer, over the samples of the capture thread
    and the messages of the capture, to the events of the native stream.

    The memory that PipeWire owns is read through [mem_read], which fails out of
    bounds; the layout of libspa's structures and its constants are parameters. *)
From Stdlib Require Import ZArith Lia.
From Stdlib.Floats Require Import SpecFloat.
From S2P Require Import Prelude Bytes Cursor Native Float64.

Definition PIPEWIRE_CURSOR_MAX_BITMAP_SIDE : Z := 512.
Definition CURSOR_BITMAP_REFRESH_TICKS : Z := STREAM_TIMESCALE * 60.
Definition PIPEWIRE_CURSOR_METADATA_GRACE : Z := 5000.

(** * Data *)

(** The publisher's own [CursorBitmap], [CursorMessage] and [PipewireCursorSample]. *)
Record CaptureBitmap : Type := {
  cb_width : Z;
  cb_height : Z;
  cb_hotspot_x : Z;
  cb_hotspot_y : Z;
  cb_rgba : bytes;
}.
#[global] Instance capture_bitmap_eq_dec : EqDecision CaptureBitmap.
Proof. solve_decision. Defined.

Record CursorMessage : Type := {
  cm_x : float;
  cm_y : float;
  cm_visible : bool;
  cm_source_width : Z;
  cm_source_height : Z;
  cm_bitmap : option CaptureBitmap;
}.

Record PipewireCursorSample : Type := {
  pcs_serial : Z;
  pcs_x : float;
  pcs_y : float;
  pcs_visible : bool;
  pcs_source_width : Z;
  pcs_source_height : Z;
  pcs_bitmap : option CaptureBitmap;
}.
Definition to_message (s : PipewireCursorSample) : CursorMessage := {|
  cm_x := pcs_x s; cm_y := pcs_y s; cm_visible := pcs_visible s;
  cm_source_width := pcs_source_width s; cm_source_height := pcs_source_height s;
  cm_bitmap := pcs_bitmap s |}.

Record PipewireCursorState : Type := {
  pws_id : Z;
  pws_x : Z;
  pws_y : Z;
  pws_bitmap : option CaptureBitmap;
}.
#[global] Instance pipewire_cursor_state_eq_dec : EqDecision PipewireCursorState.
Proof. solve_decision. Defined.

Inductive PipewireCursorUpdate : Type := Unchanged | Hidden | Visible (state : PipewireCursorState).

(** * Cursor events *)

Record CursorBitmapState : Type := {
  current_id : Z;
  last_bitmap : option CaptureBitmap;
  last_sent_timestamp : option Z;
}.
Definition cursor_bitmap_state_default : CursorBitmapState :=
  {| current_id := 0; last_bitmap := None; last_sent_timestamp := None |}.

Definition scaled_cursor_coordinate (value : float) (source_extent output_extent : Z) (visible : bool) : Z :=
  if decide (visible = false \/ is_finite value = false \/ output_extent = 0) then 0
  else
    let scaled := f64_div (f64_mul (f64_of_f32 value) (f64_of_Z output_extent))
                          (f64_of_Z (Z.max source_extent 1)) in
    f64_round_i64 (f64_mul (f64_clamp scaled (f64_of_Z 0) (f64_of_Z output_extent)) (f64_of_Z 1000000)).

Definition cursor_bitmap (b : CaptureBitmap) : result string CursorBitmap :=
  let? expected_len := ok_or (pixels ← u64_checked_mul (cb_width b) (cb_height b); u64_checked_mul pixels 4)
    "PipeWire cursor bitmap dimensions overflow" in
  reject_if (zlen (cb_rgba b) <> expected_len)
    "PipeWire cursor bitmap dimensions do not match its RGBA payload" then?
  Ok {| bitmap_width := cb_width b; bitmap_height := cb_height b;
        hotspot_x := cb_hotspot_x b; hotspot_y := cb_hotspot_y b; rgba := cb_rgba b |}.

(** [wrapping_add(1).max(1)] *)
Definition next_id (id : Z) : Z := Z.max ((id + 1) mod 2 ^ 64) 1.

(** The bitmap of an event, and the state that remembers what was sent. *)
Definition event_bitmap (bitmap : option CaptureBitmap) (timestamp : Z) (s : CursorBitmapState) :
    result string (option CursorBitmap) * CursorBitmapState :=
  match bitmap with
  | Some b =>
      if decide (last_bitmap s = Some b) then
        if decide (match last_sent_timestamp s with
                   | None => True
                   | Some last => u64_saturating_sub timestamp last >= CURSOR_BITMAP_REFRESH_TICKS
                   end)
        then (Some <$> cursor_bitmap b,
              {| current_id := current_id s; last_bitmap := last_bitmap s;
                 last_sent_timestamp := Some timestamp |})
        else (Ok None, s)
      else (Some <$> cursor_bitmap b,
            {| current_id := next_id (current_id s); last_bitmap := Some b;
               last_sent_timestamp := Some timestamp |})
  | None => (Ok None, s)
  end.

Definition cursor_to_event (cursor : CursorMessage) (ts output_width output_height : Z)
    (s : CursorBitmapState) : result string CursorEvent * CursorBitmapState :=
  let source_width := Z.max (cm_source_width cursor) 1 in
  let source_height := Z.max (cm_source_height cursor) 1 in
  let x := scaled_cursor_coordinate (cm_x cursor) source_width output_width (cm_visible cursor) in
  let y := scaled_cursor_coordinate (cm_y cursor) source_height output_height (cm_visible cursor) in
  let '(bitmap, s) := event_bitmap (cm_bitmap cursor) ts s in
  (let? bitmap := bitmap in
   Ok {| timestamp := ts; x_micropixels := x; y_micropixels := y; visible := cm_visible cursor;
         bitmap_id := current_id s; bitmap := bitmap |}, s).

(** * Buffer metadata *)

(** What libspa declares: a cursor header, a bitmap header, their sizes and
    alignment in memory, and the constants that name metadata and formats. *)
Record SpaCursor : Type := {
  sc_id : Z;
  sc_x : Z;
  sc_y : Z;
  sc_hotspot_x : Z;
  sc_hotspot_y : Z;
  sc_bitmap_offset : Z;
}.
Record SpaBitmap : Type := {
  sb_format : Z;
  sb_width : Z;
  sb_height : Z;
  sb_stride : Z;
  sb_offset : Z;
}.
Class Libspa : Type := {
  SPA_META_Cursor : Z;
  SPA_VIDEO_FORMAT_UNKNOWN : Z;
  SPA_VIDEO_FORMAT_RGBA : Z; SPA_VIDEO_FORMAT_BGRA : Z;
  SPA_VIDEO_FORMAT_ARGB : Z; SPA_VIDEO_FORMAT_ABGR : Z;
  SPA_VIDEO_FORMAT_RGBx : Z; SPA_VIDEO_FORMAT_BGRx : Z;
  SPA_VIDEO_FORMAT_xRGB : Z; SPA_VIDEO_FORMAT_xBGR : Z;
  size_of_cursor : Z;
  size_of_bitmap : Z;
  align_of_bitmap : Z;
  spa_cursor_of : bytes -> SpaCursor;
  spa_bitmap_of : bytes -> SpaBitmap;
}.
(** The fields have their C types, and sizes and alignments are positive. *)
Class LibspaLaws `{!Libspa} : Prop := {
  sizes_ok : 0 < size_of_cursor < 65536 /\ 0 < size_of_bitmap < 65536 /\ 0 < align_of_bitmap < 65536;
  spa_cursor_typed l : let c := spa_cursor_of l in
    u32_ok (sc_id c) /\ i32_ok (sc_x c) /\ i32_ok (sc_y c) /\
    i32_ok (sc_hotspot_x c) /\ i32_ok (sc_hotspot_y c) /\ u32_ok (sc_bitmap_offset c);
  spa_bitmap_typed l : let b := spa_bitmap_of l in
    u32_ok (sb_format b) /\ u32_ok (sb_width b) /\ u32_ok (sb_height b) /\
    i32_ok (sb_stride b) /\ u32_ok (sb_offset b);
}.

(** A metadata block: its type, the memory behind its pointer unless that is
    null, and its declared size.  A buffer has none when it, its metadata pointer
    or their number is zero. *)
Record SpaMeta : Type := { meta_type : Z; meta_data : option bytes; meta_size : Z }.

Inductive access_error : Type := OutOfBounds.
Definition mem_read (memory : bytes) (start len : Z) : result access_error bytes :=
  if decide (0 <= start /\ 0 <= len /\ start + len <= zlen memory)
  then Ok (take (Z.to_nat len) (drop (Z.to_nat start) memory)) else Err OutOfBounds.

Section libspa.
Context `{libspa : !Libspa}.

Definition cursor_pixel_as_rgba (format : Z) (pixel : bytes) : option bytes :=
  match pixel with
  | [first; second; third; fourth] =>
      if decide (format = SPA_VIDEO_FORMAT_RGBA) then Some [first; second; third; fourth]
      else if decide (format = SPA_VIDEO_FORMAT_BGRA) then Some [third; second; first; fourth]
      else if decide (format = SPA_VIDEO_FORMAT_ARGB) then Some [second; third; fourth; first]
      else if decide (format = SPA_VIDEO_FORMAT_ABGR) then Some [fourth; third; second; first]
      else if decide (format = SPA_VIDEO_FORMAT_RGBx) then Some [first; second; third; xff]
      else if decide (format = SPA_VIDEO_FORMAT_BGRx) then Some [third; second; first; xff]
      else if decide (format = SPA_VIDEO_FORMAT_xRGB) then Some [second; third; fourth; xff]
      else if decide (format = SPA_VIDEO_FORMAT_xBGR) then Some [fourth; third; second; xff]
      else None
  | _ => None
  end.

(** The pixels of a row, [chunks_exact(4)]; [None] for an unknown format. *)
Fixpoint row_as_rgba (format : Z) (row : bytes) : option bytes :=
  match row with
  | a :: b :: c :: d :: row =>
      pixel ← cursor_pixel_as_rgba format [a; b; c; d];
      rest ← row_as_rgba format row;
      Some (pixel ++ rest)
  | _ => Some []
  end.

(** The loop over the rows from [row] on. *)
Fixpoint rows_as_rgba (format : Z) (pixels : bytes) (stride row_bytes : Z) (rows : nat) (row : Z) :
    result access_error (option bytes) :=
  match rows with
  | O => Ok (Some [])
  | S rows =>
      match u64_checked_mul row stride with
      | None => Ok None
      | Some start =>
          let? line := mem_read pixels start row_bytes in
          match row_as_rgba format line with
          | None => Ok None
          | Some line =>
              let? rest := rows_as_rgba format pixels stride row_bytes rows (row + 1) in
              Ok (option_map (app line) rest)
          end
      end
  end.

(** The checked positions: the first byte of the pixels and the end of the last
    row, if they fit. *)
Definition bitmap_extent (b : SpaBitmap) (bitmap_offset : Z) : option (Z * Z) :=
  row_bytes ← u64_checked_mul (sb_width b) 4;
  if decide (sb_stride b < row_bytes) then None
  else
    data_start ← u64_checked_add bitmap_offset (sb_offset b);
    rows ← u64_checked_mul (sb_stride b) (u64_saturating_sub (sb_height b) 1);
    data_end ← u64_checked_add data_start rows;
    data_end ← u64_checked_add data_end row_bytes;
    Some (data_start, data_end).

Definition pipewire_cursor_bitmap (meta : SpaMeta) (memory : bytes) (c : SpaCursor) :
    result access_error (option CaptureBitmap) :=
  let offset := sc_bitmap_offset c in
  if decide (offset < size_of_cursor) then Ok None
  else match u64_checked_add offset size_of_bitmap with
  | None => Ok None
  | Some header_end =>
  if decide (header_end > meta_size meta \/ offset mod align_of_bitmap <> 0) then Ok None
  else
    let? header := mem_read memory offset size_of_bitmap in
    let b := spa_bitmap_of header in
    if decide (sb_format b = SPA_VIDEO_FORMAT_UNKNOWN \/ sb_width b = 0 \/ sb_height b = 0 \/
               sb_width b > PIPEWIRE_CURSOR_MAX_BITMAP_SIDE \/
               sb_height b > PIPEWIRE_CURSOR_MAX_BITMAP_SIDE \/
               sb_stride b <= 0 \/ sb_offset b < size_of_bitmap) then Ok None
    else match bitmap_extent b offset with
    | None => Ok None
    | Some (data_start, data_end) =>
        if decide (data_end > meta_size meta) then Ok None
        else
          let? pixels := mem_read memory data_start (data_end - data_start) in
          let? rgba := rows_as_rgba (sb_format b) pixels (sb_stride b) (sb_width b * 4)
                         (Z.to_nat (sb_height b)) 0 in
          Ok (option_map (fun rgba => {|
            cb_width := sb_width b; cb_height := sb_height b;
            cb_hotspot_x := Z.max 0 (Z.min (sc_hotspot_x c) (sb_width b - 1));
            cb_hotspot_y := Z.max 0 (Z.min (sc_hotspot_y c) (sb_height b - 1));
            cb_rgba := rgba |}) rgba)
    end
  end.

(** A block that holds a cursor header. *)
Definition cursor_meta (meta : SpaMeta) : option bytes :=
  memory ← meta_data meta;
  if decide (meta_type meta = SPA_META_Cursor /\ size_of_cursor <= meta_size meta) then Some memory else None.

Fixpoint pipewire_cursor_update (metas : list SpaMeta) : result access_error PipewireCursorUpdate :=
  match metas with
  | [] => Ok Unchanged
  | meta :: metas =>
      match cursor_meta meta with
      | None => pipewire_cursor_update metas
      | Some memory =>
          let? header := mem_read memory 0 size_of_cursor in
          let c := spa_cursor_of header in
          if decide (sc_id c = 0) then Ok Hidden
          else
            let? bitmap := pipewire_cursor_bitmap meta memory c in
            Ok (Visible {| pws_id := sc_id c; pws_x := sc_x c; pws_y := sc_y c; pws_bitmap := bitmap |})
      end
  end.

Definition pipewire_buffer_has_cursor_meta (metas : list SpaMeta) : Prop :=
  Exists (fun meta => is_Some (cursor_meta meta)) metas.
#[global] Instance pipewire_buffer_has_cursor_meta_dec metas :
  Decision (pipewire_buffer_has_cursor_meta metas).
Proof. unfold pipewire_buffer_has_cursor_meta. apply _. Defined.

(** * The capture thread *)

Inductive PipewireCursorMetadataGate : Type := GateReady | GatePending | GateFatal.

(** What the thread keeps for the cursor; instants are milliseconds.  The last
    field is the channel to the capture, which holds the latest sample. *)
Record PipewireUserData : Type := {
  require_cursor_metadata : bool;
  cursor_meta_verified : bool;
  cursor_meta_missing_since : option Z;
  cursor_serial : Z;
  last_cursor_state : option PipewireCursorState;
  pipewire_error : option string;
  cursor_latest : option PipewireCursorSample;
}.
Definition set_gate (verified : bool) (missing : option Z) (u : PipewireUserData) : PipewireUserData := {|
  require_cursor_metadata := require_cursor_metadata u; cursor_meta_verified := verified;
  cursor_meta_missing_since := missing; cursor_serial := cursor_serial u;
  last_cursor_state := last_cursor_state u; pipewire_error := pipewire_error u;
  cursor_latest := cursor_latest u |}.
Definition set_error (e : option string) (u : PipewireUserData) : PipewireUserData := {|
  require_cursor_metadata := require_cursor_metadata u; cursor_meta_verified := cursor_meta_verified u;
  cursor_meta_missing_since := cursor_meta_missing_since u; cursor_serial := cursor_serial u;
  last_cursor_state := last_cursor_state u; pipewire_error := e;
  cursor_latest := cursor_latest u |}.
Definition set_cursor (serial : Z) (state : option PipewireCursorState)
    (latest : option PipewireCursorSample) (u : PipewireUserData) : PipewireUserData := {|
  require_cursor_metadata := require_cursor_metadata u; cursor_meta_verified := cursor_meta_verified u;
  cursor_meta_missing_since := cursor_meta_missing_since u; cursor_serial := serial;
  last_cursor_state := state; pipewire_error := pipewire_error u;
  cursor_latest := latest |}.

Definition pipewire_cursor_metadata_gate (metas : list SpaMeta) (now : Z) (u : PipewireUserData) :
    PipewireCursorMetadataGate * PipewireUserData :=
  if require_cursor_metadata u then
    if decide (pipewire_buffer_has_cursor_meta metas) then (GateReady, set_gate true None u)
    else
      let first_missing := default now (cursor_meta_missing_since u) in
      let u := set_gate (cursor_meta_verified u) (Some first_missing) u in
      (if decide (now - first_missing >= PIPEWIRE_CURSOR_METADATA_GRACE) then GateFatal else GatePending, u)
  else (GateReady, u).

Definition clamped_cursor_position (position extent : Z) : float :=
  f32_of_Z (Z.max 0 (Z.min position (Z.min extent 2147483647))).

(** [pipewire_cursor_sample] of an update: the sample, the serial and the state. *)
Definition pipewire_cursor_sample (update : PipewireCursorUpdate) (source_width source_height serial : Z)
    (last : option PipewireCursorState) :
    option PipewireCursorSample * Z * option PipewireCursorState :=
  let sample serial x y visible bitmap := {|
    pcs_serial := serial; pcs_x := clamped_cursor_position x source_width;
    pcs_y := clamped_cursor_position y source_height; pcs_visible := visible;
    pcs_source_width := source_width; pcs_source_height := source_height; pcs_bitmap := bitmap |} in
  match update with
  | Unchanged => (None, serial, last)
  | Hidden =>
      match last with
      | None => (None, serial, None)
      | Some previous =>
          let serial := next_id serial in
          (Some (sample serial (pws_x previous) (pws_y previous) false None), serial, None)
      end
  | Visible state =>
      let bitmap := match pws_bitmap state, last with
                    | None, Some previous =>
                        if decide (pws_id previous = pws_id state) then pws_bitmap previous else None
                    | b, _ => b
                    end in
      let state := {| pws_id := pws_id state; pws_x := pws_x state; pws_y := pws_y state;
                      pws_bitmap := bitmap |} in
      if decide (last = Some state) then (None, serial, last)
      else
        let serial := next_id serial in
        (Some (sample serial (pws_x state) (pws_y state) true bitmap), serial, Some state)
  end.

(** [maybe_emit_pipewire_cursor] and its copy for the video stream; the result
    is whether the buffer is used. *)
Definition maybe_emit_pipewire_cursor (metas : list SpaMeta) (source_width source_height now : Z)
    (u : PipewireUserData) : result access_error bool * PipewireUserData :=
  let '(gate, u) := pipewire_cursor_metadata_gate metas now u in
  match gate with
  | GatePending => (Ok false, u)
  | GateFatal =>
      (Ok false, set_error (Some
        "PipeWire buffer does not include SPA_META_Cursor while --require-cursor-metadata is set") u)
  | GateReady =>
      match pipewire_cursor_update metas with
      | Err e => (Err e, u)
      | Ok update =>
          let '(sample, serial, state) :=
            pipewire_cursor_sample update source_width source_height (cursor_serial u) (last_cursor_state u) in
          (Ok true, set_cursor serial state
                      (match sample with Some sample => Some sample | None => cursor_latest u end) u)
      end
  end.

(** [next_cursor_sample] of the capture, whose field is the last serial. *)
Definition next_cursor_sample (latest : option PipewireCursorSample) (last_cursor_serial : Z) :
    option PipewireCursorSample * Z :=
  match latest with
  | None => (None, last_cursor_serial)
  | Some sample =>
      if decide (pcs_serial sample = last_cursor_serial) then (None, last_cursor_serial)
      else (Some sample, pcs_serial sample)
  end.
End libspa.

(** * The metadata of a buffer *)

Definition capture_bitmap_ok (b : CaptureBitmap) : Prop :=
  0 < cb_width b <= 512 /\ 0 < cb_height b <= 512 /\
  0 <= cb_hotspot_x b < cb_width b /\ 0 <= cb_hotspot_y b < cb_height b /\
  zlen (cb_rgba b) = cb_width b * cb_height b * 4.
Definition option_bitmap_ok (b : option CaptureBitmap) : Prop := is_none_or capture_bitmap_ok b.
(** PipeWire's guarantee: behind the pointer of a block lie as many bytes as it
    declares. *)
Definition meta_ok (meta : SpaMeta) : Prop :=
  u32_ok (meta_size meta) /\ is_none_or (fun memory => zlen memory = meta_size meta) (meta_data meta).

Lemma mem_read_Ok memory start len :
  0 <= start -> 0 <= len -> start + len <= zlen memory ->
  exists l, mem_read memory start len = Ok l /\ zlen l = len.
Proof.
  intros. unfold mem_read. rewrite decide_True by lia. eexists. split; [done|].
  rewrite length_take, length_drop. lia.
Qed.

Section metadata.
Context `{libspa : !Libspa, laws : !LibspaLaws}.

Lemma cursor_pixel_length format pixel rgba :
  cursor_pixel_as_rgba format pixel = Some rgba -> length rgba = 4%nat.
Proof using Type.
  unfold cursor_pixel_as_rgba. do 5 (destruct pixel as [|? pixel]; try done).
  by repeat case_decide; intros [= <-].
Qed.
Lemma row_as_rgba_length format row k rgba :
  length row = (4 * k)%nat -> row_as_rgba format row = Some rgba -> length rgba = (4 * k)%nat.
Proof using Type.
  revert row rgba. induction k as [|k IH]; intros row rgba Hlen H.
  - destruct row; [by injection H as <-|done].
  - do 4 (destruct row as [|? row]; [simpl in Hlen; lia|]). cbn [row_as_rgba] in H.
    apply bind_Some in H as (pixel & Hp%cursor_pixel_length & H).
    apply bind_Some in H as (rest & Hr & [= <-]). apply IH in Hr; [|simpl in Hlen; lia].
    rewrite length_app. lia.
Qed.
Lemma rows_as_rgba_Ok format pixels stride width rows row :
  0 <= width -> 0 <= row -> 0 <= stride -> zlen pixels <= u64_max ->
  (rows <> O -> (row + Z.of_nat rows - 1) * stride + width * 4 <= zlen pixels) ->
  exists r, rows_as_rgba format pixels stride (width * 4) rows row = Ok r /\
    forall rgba, r = Some rgba -> zlen rgba = Z.of_nat rows * (width * 4).
Proof using Type.
  intros Hw Hrow Hs Hp. revert row Hrow. induction rows as [|rows IH]; intros row Hrow Hend.
  { eexists. split; [done|]. by intros ? [= <-]. }
  cbn [rows_as_rgba]. specialize (Hend ltac:(done)).
  assert (row * stride + width * 4 <= zlen pixels) by nia.
  assert (u64_checked_mul row stride = Some (row * stride)) as ->
    by (apply u64_checked_mul_Some; unfold_ints; nia).
  destruct (mem_read_Ok pixels (row * stride) (width * 4)) as (line & -> & Hline); [nia|lia|lia|].
  cbn [mbind result_bind]. destruct (row_as_rgba format line) as [rgba|] eqn:Er.
  2: { eexists. split; [done|]. done. }
  apply (row_as_rgba_length _ _ (Z.to_nat width)) in Er; [|lia].
  destruct (IH (row + 1)) as (r & -> & Hr); [lia| |].
  { intros Hne. replace (row + 1 + Z.of_nat rows - 1) with (row + Z.of_nat (S rows) - 1) by lia. lia. }
  cbn [mbind result_bind]. eexists. split; [done|]. destruct r as [rest|]; [|done].
  intros ? [= <-]. rewrite length_app. specialize (Hr rest eq_refl). lia.
Qed.

Lemma pipewire_cursor_bitmap_Ok meta memory header :
  u32_ok (meta_size meta) -> zlen memory = meta_size meta ->
  exists r, pipewire_cursor_bitmap meta memory (spa_cursor_of header) = Ok r /\ option_bitmap_ok r.
Proof using laws.
  intros Hsize Hmem. destruct sizes_ok as (Hc & Hb & Ha).
  destruct (spa_cursor_typed header) as (_ & _ & _ & _ & _ & Hoff).
  unfold pipewire_cursor_bitmap. case_decide; [by eexists|].
  destruct (u64_checked_add _ _) as [header_end|] eqn:Ehe; [|by eexists]. int_inv.
  case_decide as Hfit; [by eexists|].
  destruct (mem_read_Ok memory (sc_bitmap_offset (spa_cursor_of header)) size_of_bitmap) as (l & -> & _);
    [unfold u32_ok in *; lia|lia|lia|]. cbn [mbind result_bind].
  destruct (spa_bitmap_typed l) as (_ & Hw & Hh & Hst & Ho). set (b := spa_bitmap_of l) in *.
  case_decide as Hbad; [by eexists|]. unfold PIPEWIRE_CURSOR_MAX_BITMAP_SIDE in Hbad.
  destruct (bitmap_extent b _) as [[data_start data_end]|] eqn:Ex; [|by eexists].
  unfold bitmap_extent in Ex. apply bind_Some in Ex as (row_bytes & Hrb & Ex). case_decide; [done|].
  apply bind_Some in Ex as (ds & Hds & Ex). apply bind_Some in Ex as (rows & Hrows & Ex).
  apply bind_Some in Ex as (de & Hde & Ex). apply bind_Some in Ex as (data_end' & Hde' & [= <- <-]). int_inv.
  unfold u64_saturating_sub, u32_ok in *. rewrite Z.max_r in * by lia.
  case_decide; [by eexists|].
  match goal with |- context [mem_read memory ?s ?l] =>
    destruct (mem_read_Ok memory s l) as (pixels & -> & Hpix); [lia|nia|lia|] end.
  cbn [mbind result_bind].
  destruct (rows_as_rgba_Ok (sb_format b) pixels (sb_stride b) (sb_width b) (Z.to_nat (sb_height b)) 0)
    as (r & -> & Hr); [lia|lia|lia|unfold_ints; lia|intros; nia|].
  cbn [mbind result_bind]. eexists. split; [done|]. destruct r as [rgba|]; [|done].
  specialize (Hr rgba eq_refl). unfold option_bitmap_ok, capture_bitmap_ok. simpl. split_and!; lia.
Qed.

Definition update_ok (update : PipewireCursorUpdate) : Prop :=
  match update with Visible state => option_bitmap_ok (pws_bitmap state) | _ => True end.
Lemma pipewire_cursor_update_Ok metas :
  Forall meta_ok metas -> exists update, pipewire_cursor_update metas = Ok update /\ update_ok update.
Proof using laws.
  destruct sizes_ok as (Hc & _). intros H. induction H as [|meta metas [Hs Hm] _ IH]; [by eexists|].
  cbn [pipewire_cursor_update]. destruct (cursor_meta meta) as [memory|] eqn:E; [|done].
  unfold cursor_meta in E. apply bind_Some in E as (m & Hd & E). rewrite Hd in Hm. simpl in Hm.
  case_decide as Hfit; [|done]. injection E as ->.
  destruct (mem_read_Ok memory 0 size_of_cursor) as (l & -> & _); [lia..|]. cbn [mbind result_bind].
  case_decide; [by eexists|].
  destruct (pipewire_cursor_bitmap_Ok meta memory l) as (r & -> & Hr); [done..|].
  cbn [mbind result_bind]. by eexists.
Qed.
End metadata.

(** * The capture thread *)

(** What a capture promises of its messages: any position, and a bitmap only
    with a visible cursor. *)
Definition message_ok (m : CursorMessage) : Prop :=
  option_bitmap_ok (cm_bitmap m) /\ (cm_visible m = false -> cm_bitmap m = None).

Section thread.
Context `{libspa : !Libspa, laws : !LibspaLaws}.

Definition user_data_ok (u : PipewireUserData) : Prop :=
  is_none_or (fun state => option_bitmap_ok (pws_bitmap state)) (last_cursor_state u) /\
  is_none_or (fun sample => message_ok (to_message sample)) (cursor_latest u).

(** The callbacks of a capture: a buffer's metadata, the size of its frame and
    the instant of the callback. *)
Fixpoint emit_run (buffers : list (list SpaMeta * (Z * Z * Z))) (u : PipewireUserData) : PipewireUserData :=
  match buffers with
  | [] => u
  | (metas, (width, height, now)) :: buffers =>
      emit_run buffers (maybe_emit_pipewire_cursor metas width height now u).2
  end.

Lemma pipewire_cursor_sample_ok update w h serial last sample serial' state :
  update_ok update -> is_none_or (fun state => option_bitmap_ok (pws_bitmap state)) last ->
  pipewire_cursor_sample update w h serial last = (sample, serial', state) ->
  is_none_or (fun state => option_bitmap_ok (pws_bitmap state)) state /\
  is_none_or (fun sample => message_ok (to_message sample)) sample.
Proof using Type.
  intros Hu Hl. unfold pipewire_cursor_sample. destruct update as [| |st]; simpl in Hu.
  - by intros [= <- <- <-].
  - destruct last; by intros [= <- <- <-].
  - set (bitmap := match pws_bitmap st, last with None, Some _ => _ | b, _ => b end).
    assert (option_bitmap_ok bitmap) as Hb.
    { unfold bitmap. destruct (pws_bitmap st); [done|]. destruct last; [|done]. by case_decide. }
    cbv zeta. case_decide; intros [= <- <- <-]; by split.
Qed.
Lemma maybe_emit_ok metas w h now u :
  Forall meta_ok metas -> user_data_ok u ->
  is_ok (maybe_emit_pipewire_cursor metas w h now u).1 = true /\
  user_data_ok (maybe_emit_pipewire_cursor metas w h now u).2.
Proof using laws.
  intros Hm [Hs Hl]. unfold maybe_emit_pipewire_cursor.
  destruct (pipewire_cursor_metadata_gate metas now u) as [gate u'] eqn:Eg.
  assert (last_cursor_state u' = last_cursor_state u /\ cursor_latest u' = cursor_latest u) as [E1 E2].
  { unfold pipewire_cursor_metadata_gate in Eg. repeat case_match; by injection Eg as _ <-. }
  destruct gate; [|by rewrite <-E1, <-E2 in *..].
  destruct (pipewire_cursor_update_Ok metas Hm) as (update & -> & Hu).
  destruct (pipewire_cursor_sample update w h _ _) as [[sample serial] state] eqn:Es.
  rewrite E1 in Es. apply pipewire_cursor_sample_ok in Es as [Hst Hsa]; [|done..].
  split; [done|]. split; [done|]. simpl. rewrite E2. by destruct sample.
Qed.
Lemma emit_run_ok buffers u :
  Forall (fun buffer => Forall meta_ok buffer.1) buffers -> user_data_ok u -> user_data_ok (emit_run buffers u).
Proof using laws.
  intros Hb. revert u. induction Hb as [|[metas [[w h] now]] buffers Hm _ IH]; intros u Hu; [done|].
  apply IH. by apply maybe_emit_ok.
Qed.
End thread.

(** * Events *)

Definition bitmap_state_ok (s : CursorBitmapState) : Prop :=
  u64_ok (current_id s) /\ (is_Some (last_bitmap s) -> current_id s <> 0).

Lemma next_id_ok id : u64_ok (next_id id) /\ next_id id <> 0.
Proof. unfold next_id, u64_ok. pose proof (Z.mod_pos_bound (id + 1) (2 ^ 64)). unfold_ints. lia. Qed.

Definition native_bitmap (b : CaptureBitmap) : CursorBitmap := {|
  bitmap_width := cb_width b; bitmap_height := cb_height b;
  hotspot_x := cb_hotspot_x b; hotspot_y := cb_hotspot_y b; rgba := cb_rgba b |}.
Lemma cursor_bitmap_ok b : capture_bitmap_ok b -> cursor_bitmap b = Ok (native_bitmap b).
Proof.
  intros (Hw & Hh & _ & _ & Hlen). unfold cursor_bitmap.
  assert (u64_checked_mul (cb_width b) (cb_height b) = Some (cb_width b * cb_height b)) as ->
    by (apply u64_checked_mul_Some; unfold_ints; nia).
  cbn [mbind option_bind]. assert (u64_checked_mul (cb_width b * cb_height b) 4 = Some (cb_width b * cb_height b * 4))
    as -> by (apply u64_checked_mul_Some; unfold_ints; nia).
  cbn [ok_or mbind result_bind]. by rewrite reject_if_false by lia.
Qed.
Lemma cursor_bitmap_Ok b native : cursor_bitmap b = Ok native -> native = native_bitmap b.
Proof. unfold cursor_bitmap. intros H. apply bind_Ok_inv in H as (? & _ & H). by rewrite guard_bind in H; destruct H as [_ [= <-]]. Qed.

Lemma scaled_coordinate_range value source output visible :
  0 <= output <= u32_max -> 0 <= scaled_cursor_coordinate value source output visible <= output * 1000000.
Proof.
  intros Ho. unfold scaled_cursor_coordinate. case_decide as Hz; [lia|].
  apply f64_clamped_product; [unfold_ints; lia..|]. intros s m e. apply f64_div_digits.
Qed.
Lemma scaled_coordinate_hidden value source output : scaled_cursor_coordinate value source output false = 0.
Proof. unfold scaled_cursor_coordinate. by rewrite decide_True by (by left). Qed.

Lemma event_bitmap_ok b ts s :
  option_bitmap_ok b -> bitmap_state_ok s ->
  exists r, (event_bitmap b ts s).1 = Ok r /\ bitmap_state_ok (event_bitmap b ts s).2 /\
    (r = None \/ exists cb, b = Some cb /\ r = Some (native_bitmap cb) /\
       current_id (event_bitmap b ts s).2 <> 0).
Proof.
  intros Hb [Hs Hl]. unfold event_bitmap. destruct b as [b|]; simpl in Hb; [|exists None; split_and!; try done; by left].
  pose proof (next_id_ok (current_id s)) as [Hn Hn0]. rewrite cursor_bitmap_ok by done.
  case_decide as Hlast; [case_decide|]; simpl.
  - eexists. split; [done|]. split; [done|]. right. exists b. split_and!; try done. apply Hl. by eexists.
  - exists None. split_and!; try done; by left.
  - eexists. split; [done|]. split; [by split|]. right. exists b. by split_and!.
Qed.

(** A message with its time gives an event that its context accepts. *)
Lemma cursor_to_event_ok m ts w h s :
  message_ok m -> bitmap_state_ok s -> u64_ok ts -> 0 < w <= u16_max -> 0 < h <= u16_max ->
  exists event, (cursor_to_event m ts w h s).1 = Ok event /\ bitmap_state_ok (cursor_to_event m ts w h s).2 /\
    timestamp event = ts /\ visible event = cm_visible m /\
    event_typed event /\ event_valid (w * 1000000) (h * 1000000) event.
Proof.
  intros [Hb Hvis] Hs Hts Hw Hh. unfold cursor_to_event.
  destruct (event_bitmap_ok (cm_bitmap m) ts s Hb Hs) as (r & Hr & [Hid Hs'] & Hcase).
  destruct (event_bitmap (cm_bitmap m) ts s) as [r' s'] eqn:E. simpl in *. subst r'. cbn [mbind result_bind].
  eexists. split; [done|]. split; [by split|]. split; [done|]. split; [done|].
  pose proof (scaled_coordinate_range (cm_x m) (Z.max (cm_source_width m) 1) w (cm_visible m)) as Hx.
  pose proof (scaled_coordinate_range (cm_y m) (Z.max (cm_source_height m) 1) h (cm_visible m)) as Hy.
  assert (match r with Some b => bitmap_typed b | None => True end) as Htb.
  { destruct Hcase as [->|(cb & Hcb & -> & _)]; [done|]. rewrite Hcb in Hb. unfold option_bitmap_ok, capture_bitmap_ok in Hb.
    unfold bitmap_typed, i32_ok. simpl in *. unfold_ints. lia. }
  split; [|split]; simpl.
  - unfold event_typed; simpl. unfold_ints. split_and!; try done; lia.
  - destruct (cm_visible m) eqn:Ev; [unfold_ints; lia|]. rewrite !scaled_coordinate_hidden.
    split_and!; try done. destruct Hcase as [->|(cb & Hcb & _)]; [done|]. by rewrite Hvis in Hcb.
  - destruct Hcase as [->|(cb & Hcb & -> & Hne)]; [done|]. rewrite Hcb in Hb.
    unfold option_bitmap_ok, capture_bitmap_ok in Hb. unfold MAX_CURSOR_BITMAP_SIDE. simpl in *. split_and!; try done; lia.
Qed.

Lemma validate_event_valid mx my e :
  event_typed e -> event_valid mx my e -> validate_event mx my None e = Ok tt.
Proof.
  intros Ht [Hv Hb]. unfold validate_event.
  assert (reject_if (is_some_and (fun value => timestamp e < value) None) Malformed = Ok tt) as ->
    by (apply reject_if_Ok; intros H; exact H).
  cbn [mbind result_bind].
  assert ((if visible e
    then reject_if (~ 0 <= x_micropixels e <= mx \/ ~ 0 <= y_micropixels e <= my) Malformed
    else reject_if (x_micropixels e <> 0 \/ y_micropixels e <> 0 \/ is_Some (bitmap e)) Malformed) = Ok tt) as ->.
  { destruct (visible e); apply reject_if_Ok; [lia|]. destruct Hv as (-> & -> & ->).
    intros [|[|[? ?]]]; done. }
  cbn [mbind result_bind]. destruct (bitmap e) as [b|]; [|done]. simpl in Hb.
  destruct Hb as (Hid & Hw & Hh & Hx & Hy & Hlen). unfold MAX_CURSOR_BITMAP_SIDE in *.
  unfold validate_bitmap. apply reject_if_Ok.
  assert (u64_checked_mul (bitmap_width b) (bitmap_height b) = Some (bitmap_width b * bitmap_height b)) as ->
    by (apply u64_checked_mul_Some; unfold_ints; nia).
  cbn [mbind option_bind]. assert (u64_checked_mul (bitmap_width b * bitmap_height b) 4 =
    Some (bitmap_width b * bitmap_height b * 4)) as -> by (apply u64_checked_mul_Some; unfold_ints; nia).
  unfold MAX_CURSOR_BITMAP_SIDE. rewrite <-Hlen. intros H. destruct_or! H; try lia. done.
Qed.
Lemma single_event_encodes context w h e :
  event_typed e -> event_valid (w * 1000000) (h * 1000000) e ->
  0 < w <= u16_max -> 0 < h <= u16_max ->
  ~ is_nil (ctx_stream_id context) -> ~ is_nil (ctx_epoch_id context) ->
  ctx_source_width context = w -> ctx_source_height context = h -> ctx_start_timestamp context = timestamp e ->
  let batch := {| source_width := w; source_height := h; events := [e] |} in
  exists payload, encode_cursor_batch context batch = Ok payload /\ decode_cursor_batch context payload = Ok batch.
Proof.
  intros Ht Hv Hw Hh Hs He Hcw Hch Hts batch. exists (batch_bytes batch).
  assert (batch_typed batch) as Htb by (split_and!; simpl; unfold_ints; [lia..|by constructor]).
  assert (validate_cursor_context batch context = Ok tt) as Hctx.
  { apply reject_if_Ok. simpl. rewrite Hcw, Hch, Hts. naive_solver. }
  assert (exists n, encoded_len batch = Ok n) as [n Hn].
  { unfold encoded_len. simpl. replace (u16_try_from 1) with (Some 1) by done. cbn [ok_or mbind result_bind].
    unfold encoded_len_from. replace (u64_checked_add CURSOR_BATCH_HEADER_LEN CURSOR_EVENT_LEN) with (Some 47) by done.
    cbn [ok_or mbind result_bind]. destruct Hv as [_ Hb]. destruct (bitmap e) as [b|]; simpl in Hb.
    - destruct Hb as (_ & Hbw & Hbh & _ & _ & Hlen). unfold MAX_CURSOR_BITMAP_SIDE in *.
      replace (u64_checked_add 47 CURSOR_BITMAP_HEADER_LEN) with (Some 67) by done. cbn [mbind option_bind].
      change (CURSOR_BATCH_HEADER_LEN + CURSOR_EVENT_LEN + CURSOR_BITMAP_HEADER_LEN) with 67.
      assert (u64_checked_add 67 (zlen (rgba b)) = Some (67 + zlen (rgba b))) as ->
        by (apply u64_checked_add_Some; unfold_ints; nia).
      cbn [ok_or mbind result_bind]. unfold MAX_CURSOR_PLAINTEXT_LEN. rewrite reject_if_false by nia. by eexists.
    - cbn [mbind result_bind]. rewrite reject_if_false by done. by eexists. }
  assert (validate_cursor_batch batch = Ok tt) as Hval.
  { unfold validate_cursor_batch. rewrite reject_if_false by (simpl; unfold_ints; lia || naive_solver lia).
    cbn [mbind result_bind events validate_events batch source_width source_height].
    rewrite validate_event_valid by done. cbn [mbind result_bind]. by rewrite Hn. }
  split; [by apply encode_cursor_batch_bytes|by apply decode_batch_bytes].
Qed.

(** C25: the cursor of a capture always encodes: whatever the buffers hold, no
    read leaves the memory that PipeWire declares; and the sample that the capture
    takes next, at any time and size of the output and with any earlier bitmap,
    becomes an event whose batch the encoder accepts and the decoder gives back. *)
Theorem captured_cursor_encodes `{libspa : !Libspa, !LibspaLaws} buffers u taken sample taken' ts w h s context :
  Forall (fun buffer => Forall meta_ok buffer.1) buffers -> user_data_ok u ->
  next_cursor_sample (cursor_latest (emit_run buffers u)) taken = (Some sample, taken') ->
  bitmap_state_ok s -> u64_ok ts -> 0 < w <= u16_max -> 0 < h <= u16_max ->
  ~ is_nil (ctx_stream_id context) -> ~ is_nil (ctx_epoch_id context) ->
  ctx_source_width context = w -> ctx_source_height context = h -> ctx_start_timestamp context = ts ->
  (forall metas width height now, Forall meta_ok metas ->
     is_ok (maybe_emit_pipewire_cursor metas width height now (emit_run buffers u)).1 = true) /\
  exists event s' payload,
    cursor_to_event (to_message sample) ts w h s = (Ok event, s') /\ bitmap_state_ok s' /\
    let batch := {| source_width := w; source_height := h; events := [event] |} in
    encode_cursor_batch context batch = Ok payload /\ decode_cursor_batch context payload = Ok batch.
Proof.
  intros Hb Hu Hnext Hs Hts Hw Hh Hsid Hepoch Hcw Hch Hct.
  pose proof (emit_run_ok buffers u Hb Hu) as Hrun.
  split; [intros metas width height now Hm; by apply maybe_emit_ok|]. destruct Hrun as [_ Hlatest].
  unfold next_cursor_sample in Hnext. destruct (cursor_latest (emit_run buffers u)) as [latest|]; [|done].
  case_decide; [done|]. injection Hnext as -> _. simpl in Hlatest.
  destruct (cursor_to_event_ok _ ts w h s Hlatest Hs Hts Hw Hh) as (e & He & Hs' & Het & _ & Hty & Hv).
  destruct (single_event_encodes context w h e) as (payload & Henc & Hdec); try done; [congruence|].
  exists e, (cursor_to_event (to_message sample) ts w h s).2, payload.
  split; [rewrite <-He; apply surjective_pairing|]. done.
Qed.

(** * What a viewer shows

    A viewer replaces its cursor texture when an event carries a bitmap and keeps
    it otherwise. *)
Definition shown_bitmap (shown : option CursorBitmap) (e : CursorEvent) : option CursorBitmap :=
  match bitmap e with Some b => Some b | None => shown end.

(** The events of a run of messages, each with its time and output size. *)
Fixpoint cursor_events (messages : list (CursorMessage * (Z * Z * Z))) (s : CursorBitmapState) :
    result string (list CursorEvent) :=
  match messages with
  | [] => Ok []
  | (m, (ts, w, h)) :: messages =>
      let '(event, s) := cursor_to_event m ts w h s in
      let? event := event in
      let? events := cursor_events messages s in
      Ok (event :: events)
  end.

Lemma cursor_events_shown messages s events shown :
  cursor_events messages s = Ok events ->
  (forall b, last_bitmap s = Some b -> shown = Some (native_bitmap b)) ->
  length events = length messages /\
  forall i m at_ b, messages !! i = Some (m, at_) -> cm_bitmap m = Some b ->
    foldl shown_bitmap shown (take (S i) events) = Some (native_bitmap b).
Proof.
  revert s events shown. induction messages as [|[m [[ts w] h]] messages IH]; intros s events shown H Hinv.
  { injection H as <-. by split. }
  cbn [cursor_events] in H. destruct (cursor_to_event m ts w h s) as [r s'] eqn:E.
  apply bind_Ok_inv in H as (e & -> & H). apply bind_Ok_inv in H as (es & Hes & [= <-]).
  assert ((forall b, last_bitmap s' = Some b -> shown_bitmap shown e = Some (native_bitmap b)) /\
    (forall b, cm_bitmap m = Some b -> last_bitmap s' = Some b)) as [Hinv' Hlast].
  { unfold cursor_to_event in E. destruct (event_bitmap (cm_bitmap m) ts s) as [rb s1] eqn:Eb.
    injection E as E <-. apply bind_Ok_inv in E as (bm & -> & [= <-]). unfold shown_bitmap. simpl.
    unfold event_bitmap in Eb. destruct (cm_bitmap m) as [b|] eqn:Ecm.
    - case_decide as Hl; [case_decide|].
      + injection Eb as Eb <-. destruct (cursor_bitmap b) as [n|] eqn:En; [|done]. injection Eb as <-.
        simpl. rewrite Hl. apply cursor_bitmap_Ok in En as ->. split; congruence.
      + injection Eb as <- <-. rewrite Hl. split; [|congruence]. intros b' [= <-]. by apply Hinv.
      + injection Eb as Eb <-. destruct (cursor_bitmap b) as [n|] eqn:En; [|done]. injection Eb as <-.
        simpl. apply cursor_bitmap_Ok in En as ->. split; congruence.
    - injection Eb as <- <-. split; [done|congruence]. }
  destruct (IH _ _ _ Hes Hinv') as [Hlen Hrest]. split; [simpl; lia|].
  intros [|i] m' at_ b Hi Hb.
  - injection Hi as <- _. simpl. by apply Hinv', Hlast.
  - simpl in Hi. cbn [take foldl]. by eapply Hrest.
Qed.

(** C26: bitmaps are sent once and shown always: though an event carries its
    bitmap only when that changed or is due again, a viewer that received the
    events of an upload so far shows exactly the bitmap of every message that
    has one. *)
Theorem cursor_bitmap_followed messages events i m at_ b :
  cursor_events messages cursor_bitmap_state_default = Ok events ->
  messages !! i = Some (m, at_) -> cm_bitmap m = Some b ->
  foldl shown_bitmap None (take (S i) events) = Some (native_bitmap b).
Proof.
  intros H Hi Hb. destruct (cursor_events_shown _ _ _ None H) as [_ Hshown]; [done|]. by eapply Hshown.
Qed.

(** ** Witnesses

    libspa's layout on a little-endian machine. *)
Definition le_uint (start len : nat) (l : bytes) : Z := be_value (rev (take len (drop start l))).
Definition le_int32 (start : nat) (l : bytes) : Z :=
  let value := le_uint start 4 l in if decide (value < 2147483648) then value else value - 4294967296.
Definition le_libspa : Libspa := {|
  SPA_META_Cursor := 5; SPA_VIDEO_FORMAT_UNKNOWN := 0;
  SPA_VIDEO_FORMAT_RGBA := 11; SPA_VIDEO_FORMAT_BGRA := 12;
  SPA_VIDEO_FORMAT_ARGB := 13; SPA_VIDEO_FORMAT_ABGR := 14;
  SPA_VIDEO_FORMAT_RGBx := 7; SPA_VIDEO_FORMAT_BGRx := 8;
  SPA_VIDEO_FORMAT_xRGB := 9; SPA_VIDEO_FORMAT_xBGR := 10;
  size_of_cursor := 28; size_of_bitmap := 20; align_of_bitmap := 4;
  spa_cursor_of l := {| sc_id := le_uint 0 4 l; sc_x := le_int32 8 l; sc_y := le_int32 12 l;
    sc_hotspot_x := le_int32 16 l; sc_hotspot_y := le_int32 20 l; sc_bitmap_offset := le_uint 24 4 l |};
  spa_bitmap_of l := {| sb_format := le_uint 0 4 l; sb_width := le_uint 4 4 l;
    sb_height := le_uint 8 4 l; sb_stride := le_int32 12 l; sb_offset := le_uint 16 4 l |};
|}.
Lemma le_uint_range start l : 0 <= le_uint start 4 l < 4294967296.
Proof.
  unfold le_uint. pose proof (be_value_range (rev (take 4 (drop start l)))) as [H0 H1]. split; [done|].
  eapply Z.lt_le_trans; [exact H1|]. change 4294967296 with (256 ^ 4). apply Z.pow_le_mono_r; [lia|].
  rewrite length_rev, length_take. lia.
Qed.
Lemma le_libspa_laws : @LibspaLaws le_libspa.
Proof.
  split; [simpl; lia|..]; intros l; simpl; unfold le_int32, u32_ok, i32_ok; unfold_ints;
    repeat match goal with |- context [le_uint ?s 4 l] =>
      pose proof (le_uint_range s l); generalize dependent (le_uint s 4 l); intros ? ? end;
    repeat case_decide; lia.
Qed.
#[local] Existing Instance le_libspa.
#[local] Existing Instance le_libspa_laws.

(** A buffer whose metadata holds a cursor with one opaque pixel. *)
Definition sample_metadata : bytes :=
  let le n := rev (be_bytes 4 n) in
  le 1 ++ le 0 ++ le 100 ++ le 50 ++ le 0 ++ le 0 ++ le 28 ++
  le 11 ++ le 1 ++ le 1 ++ le 4 ++ le 20 ++ [x10; x20; x30; xff].
Definition sample_metas : list SpaMeta :=
  [{| meta_type := 1; meta_data := None; meta_size := 16 |};
   {| meta_type := 5; meta_data := Some sample_metadata; meta_size := 52 |}].
Definition initial_user_data : PipewireUserData := {|
  require_cursor_metadata := true; cursor_meta_verified := false; cursor_meta_missing_since := None;
  cursor_serial := 0; last_cursor_state := None; pipewire_error := None; cursor_latest := None |}.
Definition sample_capture : PipewireUserData :=
  emit_run [(sample_metas, (1920, 1080, 0)); (sample_metas, (1920, 1080, 16))] initial_user_data.

Lemma captured_cursor_encodes_witness :
  match next_cursor_sample (cursor_latest sample_capture) 0 with
  | (Some sample, _) =>
      pcs_serial sample = 1 /\ exists event s' payload,
        cursor_to_event (to_message sample) 10 1920 1080 cursor_bitmap_state_default = (Ok event, s') /\
        encode_cursor_batch sample_context
          {| source_width := 1920; source_height := 1080; events := [event] |} = Ok payload
  | _ => False
  end.
Proof.
  assert (match next_cursor_sample (cursor_latest sample_capture) 0 with
          | (Some sample, _) => bool_decide (pcs_serial sample = 1) | _ => false end = true) as Hrun
    by (vm_compute; reflexivity).
  destruct (next_cursor_sample (cursor_latest sample_capture) 0) as [[sample|] taken] eqn:E; [|discriminate].
  apply bool_decide_eq_true in Hrun. split; [exact Hrun|].
  destruct (captured_cursor_encodes [(sample_metas, (1920, 1080, 0)); (sample_metas, (1920, 1080, 16))]
    initial_user_data 0 sample taken 10 1920 1080 cursor_bitmap_state_default sample_context)
    as (_ & event & s' & payload & He & _ & Henc & _); try reflexivity; try (unfold_ints; lia).
  - repeat constructor; simpl; unfold_ints; try lia; vm_compute; done.
  - split; exact I.
  - exact E.
  - split; simpl; [unfold_ints; lia|intros [? ?]; discriminate].
  - vm_compute. discriminate.
  - vm_compute. discriminate.
  - exists event, s', payload. split; [exact He|exact Henc].
Defined.

Definition sample_bitmap (b : byte) : CaptureBitmap :=
  {| cb_width := 1; cb_height := 1; cb_hotspot_x := 0; cb_hotspot_y := 0; cb_rgba := [b; b; b; xff] |}.
Definition sample_messages : list (CursorMessage * (Z * Z * Z)) :=
  let m b ts := ({| cm_x := f32_of_Z 3; cm_y := f32_of_Z 4; cm_visible := true; cm_source_width := 1920;
                    cm_source_height := 1080; cm_bitmap := b |}, (ts, 1280, 720)) in
  [m (Some (sample_bitmap x10)) 0; m (Some (sample_bitmap x20)) 3000; m None 6000;
   m (Some (sample_bitmap x20)) 9000; m (Some (sample_bitmap x10)) 12000].
Example sample_events_delta :
  (let? events := cursor_events sample_messages cursor_bitmap_state_default in
   Ok (map (fun e => (bitmap_id e, x_micropixels e, bool_decide (is_Some (bitmap e)))) events)) =
  Ok [(1, 2000000, true); (2, 2000000, true); (2, 2000000, false); (2, 2000000, false); (3, 2000000, true)].
Proof. vm_compute. reflexivity. Qed.
Lemma cursor_bitmap_followed_witness :
  exists events, cursor_events sample_messages cursor_bitmap_state_default = Ok events /\
    foldl shown_bitmap None (take 4 events) = Some (native_bitmap (sample_bitmap x20)).
Proof.
  destruct (cursor_events sample_messages cursor_bitmap_state_default) as [events|] eqn:E;
    [|apply (f_equal is_ok) in E; vm_compute in E; discriminate].
  exists events. split; [reflexivity|].
  eapply (cursor_bitmap_followed sample_messages events 3 _ _ (sample_bitmap x20)); [exact E|reflexivity..].
Defined.
