(* ===== verification/Frames.v ===== *)
(** The pictures of the capture ([crates/publisher/src/lib.rs]): the layouts of
    the buffers that PipeWire delivers, their conversion to RGB images, the sizes
    that reach the encoder, the read-back through the GPU, and the callback that
    copies a buffer.

    The drivers, the mapping of a descriptor and the scaling of an image are
    parameters.  A read of a buffer goes through [index], which panics out of
    range, a sum that the code does not check goes through [usize_add], and a new
    image through [image_new], which panics beyond the limit of a vector. *)
From Stdlib Require Import ZArith Lia.
From Stdlib.Floats Require Import SpecFloat.
From S2P Require Import Prelude Bytes Float64 Cursor Encoder PublisherCursor.

(** * Formats *)

Inductive RawFrameFormat : Type :=
| RawRgb | RawRgba | RawRgbx | RawBgr | RawBgra | RawBgrx | RawXrgb | RawXbgr | RawArgb | RawAbgr
| RawYuy2 | RawI420.
#[global] Instance raw_frame_format_eq_dec : EqDecision RawFrameFormat.
Proof. solve_decision. Defined.

(** The formats of libspa that the code names, and the others. *)
Inductive VideoFormat : Type :=
| VideoRGB | VideoBGR | VideoRGBA | VideoBGRA | VideoRGBx | VideoBGRx | VideoxRGB | VideoxBGR
| VideoARGB | VideoABGR | VideoYUY2 | VideoI420 | VideoOther (raw : Z).

Definition raw_frame_format_for_video_format (f : VideoFormat) : option RawFrameFormat :=
  match f with
  | VideoRGB => Some RawRgb | VideoBGR => Some RawBgr
  | VideoRGBA => Some RawRgba | VideoBGRA => Some RawBgra
  | VideoRGBx => Some RawRgbx | VideoBGRx => Some RawBgrx
  | VideoxRGB => Some RawXrgb | VideoxBGR => Some RawXbgr
  | VideoARGB => Some RawArgb | VideoABGR => Some RawAbgr
  | VideoYUY2 => Some RawYuy2 | VideoI420 => Some RawI420
  | VideoOther _ => None
  end.

Definition drm_fourcc (a b c d : byte) : Z :=
  Z.lor (Z.lor (Z.lor (Z_of_byte a) (Z.shiftl (Z_of_byte b) 8)) (Z.shiftl (Z_of_byte c) 16))
    (Z.shiftl (Z_of_byte d) 24).
Definition drm_fourcc_for_video_format (f : VideoFormat) : option Z :=
  match f with
  | VideoBGRx => Some (drm_fourcc "X" "R" "2" "4")
  | VideoBGRA => Some (drm_fourcc "A" "R" "2" "4")
  | VideoRGBx => Some (drm_fourcc "X" "B" "2" "4")
  | VideoRGBA => Some (drm_fourcc "A" "B" "2" "4")
  | VideoxRGB => Some (drm_fourcc "B" "G" "R" "X")
  | VideoxBGR => Some (drm_fourcc "R" "G" "B" "X")
  | VideoARGB => Some (drm_fourcc "B" "G" "R" "A")
  | VideoABGR => Some (drm_fourcc "R" "G" "B" "A")
  | VideoRGB => Some (drm_fourcc "R" "G" "2" "4")
  | VideoBGR => Some (drm_fourcc "B" "G" "2" "4")
  | VideoYUY2 => Some (drm_fourcc "Y" "U" "Y" "V")
  | VideoI420 | VideoOther _ => None
  end%byte.

Definition bytes_per_pixel (f : RawFrameFormat) : Z :=
  match f with
  | RawRgb | RawBgr => 3
  | RawRgba | RawRgbx | RawBgra | RawBgrx | RawXrgb | RawXbgr | RawArgb | RawAbgr => 4
  | RawYuy2 => 2
  | RawI420 => 1
  end.
Definition u32_checked_mul (a b : Z) : option Z :=
  if decide (a * b <= u32_max) then Some (a * b) else None.
Definition expected_frame_stride (f : VideoFormat) (width : Z) : option Z :=
  format ← raw_frame_format_for_video_format f; u32_checked_mul width (bytes_per_pixel format).
Definition expected_frame_size (f : VideoFormat) (width height : Z) : option Z :=
  format ← raw_frame_format_for_video_format f;
  match format with
  | RawI420 =>
      pixels ← u32_checked_mul width height; samples ← u32_checked_mul pixels 3; Some (samples / 2)
  | _ => stride ← expected_frame_stride f width; u32_checked_mul stride height
  end.
(** [n.div_ceil(2)] *)
Definition half_up (n : Z) : Z := (n + 1) / 2.
Definition expected_frame_size_from_stride (f : RawFrameFormat) (stride width height : Z) : option Z :=
  match f with
  | RawI420 =>
      y_size ← u64_checked_mul stride height;
      let uv_stride := Z.max (half_up stride) (half_up width) in
      plane ← u64_checked_mul uv_stride (half_up height);
      planes ← u64_checked_mul plane 2;
      u64_checked_add y_size planes
  | _ => u64_checked_mul stride height
  end.

(** * From a frame to an image *)

Inductive panic : Type := IndexOutOfBounds | ArithmeticOverflow | CapacityOverflow.
Definition index (data : bytes) (i : Z) : result panic byte := ok_or (data !! Z.to_nat i) IndexOutOfBounds.
Definition usize_add (a b : Z) : result panic Z :=
  if decide (a + b <= u64_max) then Ok (a + b) else Err ArithmeticOverflow.

Record RawFrame : Type := {
  rf_serial : Z;
  rf_width : Z;
  rf_height : Z;
  rf_stride : Z;
  rf_format : RawFrameFormat;
  rf_data : bytes;
}.
Abbreviation rgb := (byte * byte * byte)%type.

Definition packed_rgb (data : bytes) (y stride x bytes_per_pixel : Z) (channels : Z * Z * Z) :
    result panic (option rgb) :=
  let '(c0, c1, c2) := channels in
  match row ← u64_checked_mul y stride;
        column ← u64_checked_mul x bytes_per_pixel;
        base ← u64_checked_add row column;
        last ← u64_checked_add base (Z.max c0 (Z.max c1 c2));
        Some (base, last) with
  | None => Ok None
  | Some (base, last) =>
      if decide (last >= zlen data) then Ok None
      else
        let? r := index data (base + c0) in
        let? g := index data (base + c1) in
        let? b := index data (base + c2) in
        Ok (Some (r, g, b))
  end.

Definition clamp_u8 (value : Z) : byte := byte_of_Z (Z.max 0 (Z.min value 255)).
(** The terms are below 300,000 in magnitude, far inside an [i32]. *)
Definition yuv_to_rgb (y u v : byte) : rgb :=
  let c := Z.max (Z_of_byte y - 16) 0 in
  let d := Z_of_byte u - 128 in
  let e := Z_of_byte v - 128 in
  (clamp_u8 (Z.shiftr (298 * c + 409 * e + 128) 8),
   clamp_u8 (Z.shiftr (298 * c - 100 * d - 208 * e + 128) 8),
   clamp_u8 (Z.shiftr (298 * c + 516 * d + 128) 8)).

Definition yuy2_rgb (f : RawFrame) (x y : Z) : result panic (option rgb) :=
  match row ← u64_checked_mul y (rf_stride f);
        column ← u64_checked_mul (x / 2) 4;
        u64_checked_add row column with
  | None => Ok None
  | Some base =>
      let? last := usize_add base 3 in
      if decide (last >= zlen (rf_data f)) then Ok None
      else
        let? y_sample := index (rf_data f) (base + (if decide (x mod 2 = 0) then 0 else 2)) in
        let? u := index (rf_data f) (base + 1) in
        let? v := index (rf_data f) (base + 3) in
        Ok (Some (yuv_to_rgb y_sample u v))
  end.

Definition i420_offsets (f : RawFrame) (x y : Z) : option (Z * Z * Z) :=
  let y_stride := Z.max (rf_stride f) (rf_width f) in
  let uv_stride := half_up y_stride in
  let uv_height := half_up (rf_height f) in
  row ← u64_checked_mul y y_stride;
  y_offset ← u64_checked_add row x;
  u_plane ← u64_checked_mul y_stride (rf_height f);
  plane ← u64_checked_mul uv_stride uv_height;
  v_plane ← u64_checked_add u_plane plane;
  uv_row ← u64_checked_mul (y / 2) uv_stride;
  uv_offset ← u64_checked_add uv_row (x / 2);
  u_offset ← u64_checked_add u_plane uv_offset;
  v_offset ← u64_checked_add v_plane uv_offset;
  Some (y_offset, u_offset, v_offset).
Definition i420_rgb (f : RawFrame) (x y : Z) : result panic (option rgb) :=
  match i420_offsets f x y with
  | None => Ok None
  | Some (y_offset, u_offset, v_offset) =>
      let len := zlen (rf_data f) in
      if decide (y_offset >= len \/ u_offset >= len \/ v_offset >= len) then Ok None
      else
        let? y_sample := index (rf_data f) y_offset in
        let? u := index (rf_data f) u_offset in
        let? v := index (rf_data f) v_offset in
        Ok (Some (yuv_to_rgb y_sample u v))
  end.

(** The positions of red, green and blue in a pixel of a packed format. *)
Definition channels_of (f : RawFrameFormat) : Z * Z * Z :=
  match f with
  | RawRgb | RawRgba | RawRgbx => (0, 1, 2)
  | RawBgr | RawBgra | RawBgrx => (2, 1, 0)
  | RawXrgb | RawArgb => (1, 2, 3)
  | RawXbgr | RawAbgr => (3, 2, 1)
  | RawYuy2 | RawI420 => (0, 0, 0)
  end.
Definition raw_pixel_rgb (f : RawFrame) (x y : Z) : result panic (option rgb) :=
  match rf_format f with
  | RawYuy2 => yuy2_rgb f x y
  | RawI420 => i420_rgb f x y
  | format => packed_rgb (rf_data f) y (rf_stride f) x (bytes_per_pixel format) (channels_of format)
  end.

(** An image: its rows of pixels one after another, three bytes each. *)
Record RgbImage : Type := { im_width : Z; im_height : Z; im_raw : bytes }.
Definition rgb_bytes (p : rgb) : bytes := let '(r, g, b) := p in [r; g; b].
Definition black : rgb := (x00, x00, x00).
Definition image_of (width height : Z) (rows : list (list rgb)) : RgbImage :=
  {| im_width := width; im_height := height; im_raw := concat (rows ≫= fun row => rgb_bytes <$> row) |}.
(** [ImageBuffer::new]: as documented, it panics when the bytes of the image are
    more than a vector can hold, which is [isize::MAX]. *)
Definition image_new (width height : Z) : result panic unit :=
  reject_if (3 * width * height > i64_max) CapacityOverflow.
(** A new image is black, and the loops write every pixel that the frame has. *)
Definition raw_frame_to_rgb_image (f : RawFrame) : result panic RgbImage :=
  image_new (rf_width f) (rf_height f) then?
  let? rows := mapR (fun y => mapR (fun x => default black <$> raw_pixel_rgb f x y) (seqZ 0 (rf_width f)))
                 (seqZ 0 (rf_height f)) in
  Ok (image_of (rf_width f) (rf_height f) rows).

(** * Sizes for the encoder *)

Definition float_min (x y : float) : float :=
  match x with S754_nan => y | _ => if SFltb y x then y else x end.
Definition u32_clamp (z : Z) : Z := Z.max 0 (Z.min u32_max z).
(** [x.floor() as u32] *)
Definition f64_floor_u32 (x : float) : Z :=
  match x with
  | S754_zero _ | S754_nan => 0
  | S754_infinity s => if s then 0 else u32_max
  | S754_finite true _ _ => 0
  | S754_finite false m e => u32_clamp (if decide (0 <= e) then Zpos m * 2 ^ e else Zpos m / 2 ^ (- e))
  end.
Definition fit_even_dimensions (width height max_width max_height : Z) : Z * Z :=
  let max_width := Z.max max_width 2 in
  let max_height := Z.max max_height 2 in
  let scale := float_min (f64_div (f64_of_Z max_width) (f64_of_Z (Z.max width 1)))
                       (f64_div (f64_of_Z max_height) (f64_of_Z (Z.max height 1))) in
  let scale := float_min scale (f64_of_Z 1) in
  let fit extent max :=
    Z.ldiff (Z.min (Z.max (f64_floor_u32 (f64_mul (f64_of_Z (Z.max extent 1)) scale)) 2) max) 1 in
  (Z.max (fit width max_width) 2, Z.max (fit height max_height) 2).

Definition f32_div : float -> float -> float := SFdiv 24 128.
Definition f32_mul : float -> float -> float := SFmul 24 128.
(** [x.round() as u32] *)
Definition f32_round_u32 (x : float) : Z :=
  match x with
  | S754_zero _ | S754_nan => 0
  | S754_infinity s => if s then 0 else u32_max
  | S754_finite s m e => u32_clamp (cond_Zopp s (round_magnitude (Zpos m) e))
  end.

(** [image::imageops::resize] with the triangle filter. *)
Class ImageScaler : Type := triangle_resize : RgbImage -> Z -> Z -> RgbImage.
Class ImageScalerLaws `{!ImageScaler} : Prop := {
  resize_width i w h : im_width (triangle_resize i w h) = w;
  resize_height i w h : im_height (triangle_resize i w h) = h;
}.

Section scaler.
Context `{scaler : !ImageScaler}.

Definition resize_target (width height max_width max_height : Z) : Z * Z :=
  let width_ratio := f32_div (f32_of_Z max_width) (f32_of_Z (Z.max width 1)) in
  let height_ratio := f32_div (f32_of_Z max_height) (f32_of_Z (Z.max height 1)) in
  let scale := float_min (float_min width_ratio height_ratio) (f32_of_Z 1) in
  (Z.max (f32_round_u32 (f32_mul (f32_of_Z width) scale)) 1,
   Z.max (f32_round_u32 (f32_mul (f32_of_Z height) scale)) 1).
Definition resize_rgb_image_to_fit (image : RgbImage) (max_width max_height : Z) : RgbImage :=
  let max_width := Z.max max_width 1 in
  let max_height := Z.max max_height 1 in
  if decide (im_width image <= max_width /\ im_height image <= max_height) then image
  else
    let '(w, h) := resize_target (im_width image) (im_height image) max_width max_height in
    triangle_resize image w h.

(** What the encoder gets for a frame in main memory. *)
Definition encoder_frame (f : RawFrame) (max_width max_height : Z) : result panic EncoderInputFrame :=
  let? image := raw_frame_to_rgb_image f in
  let image := resize_rgb_image_to_fit image max_width max_height in
  Ok (FrameRgb (im_width image) (im_height image) (im_raw image)).
End scaler.
