(* ===== verification/FrameThread.v ===== *)
(** The capture thread's callback for a delivered buffer and what takes its
    frames ([crates/publisher/src/lib.rs]): reading a descriptor, reading back
    through the GPU, the [process] callback of [run_pipewire_loop], and
    [next_frame].

    The kernel's and the drivers' answers are parameters.  Instants are
    nanoseconds. *)
From Stdlib Require Import ZArith Lia.
From Stdlib.Floats Require Import SpecFloat.
From S2P Require Import Prelude Bytes Float64 Cursor Encoder PublisherCursor Frames.

Definition DRM_FORMAT_MOD_LINEAR : Z := 0.
Definition DRM_FORMAT_MOD_INVALID : Z := 72057594037927935.

(** * Reading a descriptor *)

(** [fstat]'s size, [sysconf]'s page size and [mmap], at a length and an offset. *)
Class FileMapping : Type := {
  fstat_size : Z -> option Z;
  page_size_of_system : Z;
  mmap : Z -> Z -> Z -> option bytes;
}.
Class FileMappingLaws `{!FileMapping} : Prop :=
  mmap_length fd len offset mapped : mmap fd len offset = Some mapped -> zlen mapped = len.

Section mapping.
Context `{files : !FileMapping}.

Definition mmap_fd_slice (fd offset size : Z) : option bytes :=
  if decide (fd < 0) then None
  else if decide (size = 0) then Some []
  else
    requested_end ← u64_checked_add offset size;
    if decide (is_some_and (fun extent => 0 < extent /\ requested_end > extent) (fstat_size fd)) then None
    else
      let page_size := if decide (page_size_of_system > 0) then page_size_of_system else 4096 in
      let aligned_offset := offset - offset mod page_size in
      let delta := offset - aligned_offset in
      map_len ← u64_checked_add delta size;
      map_offset ← i64_try_from aligned_offset;
      mapped ← mmap fd map_len map_offset;
      Some (take (Z.to_nat size) (drop (Z.to_nat delta) mapped)).
End mapping.

Definition dmabuf_requires_gpu_readback (is_dmabuf mappable : bool) (modifier : Z) : bool :=
  is_dmabuf && (negb mappable || bool_decide (modifier <> DRM_FORMAT_MOD_LINEAR)).

(** * Reading back through the GPU *)

Record DmaBufPlane : Type := {
  dp_fd : Z;
  dp_offset : Z;
  dp_stride : Z;
  dp_width : Z;
  dp_height : Z;
  dp_fourcc : Z;
  dp_modifier : Z;
}.
Inductive ReadbackLayout : Type := LayoutRgba | LayoutBgra.
Record Readback : Type := {
  rb_data : bytes;
  rb_stride : Z;
  rb_width : Z;
  rb_height : Z;
  rb_layout : ReadbackLayout;
}.
Record DmaBufReadback : Type := {
  dr_data : bytes;
  dr_stride : Z;
  dr_width : Z;
  dr_height : Z;
  dr_format : RawFrameFormat;
  dr_path : string;
}.
(** [GpuReadback]'s latches; its devices are the drivers'. *)
Record GpuReadback : Type := { gbm_unusable : bool; egl_unusable : bool }.
Definition gpu_readback_new : GpuReadback := {| gbm_unusable := false; egl_unusable := false |}.

(** Whether GBM knows a format; opening the device, importing and mapping a
    buffer through GBM within the deadline; and [read_dmabuf_scaled] through EGL,
    each at a call. *)
Class ReadbackDrivers : Type := {
  gbm_recognizes : Z -> bool;
  gbm_map : nat -> DmaBufPlane -> result string (bytes * Z);
  egl_read : nat -> DmaBufPlane -> Z -> Z -> result string Readback;
}.

Section readback.
Context `{drivers : !ReadbackDrivers}.

(** A request: descriptor, offset, size, stride, format and modifier. *)
Record ReadbackRequest : Type := {
  rq_fd : Z;
  rq_offset : Z;
  rq_width : Z;
  rq_height : Z;
  rq_stride : Z;
  rq_format : VideoFormat;
  rq_modifier : Z;
}.
Definition i32_try_from (z : Z) : option Z := if decide (i32_ok z) then Some z else None.
Definition plane_of (q : ReadbackRequest) (fourcc : Z) : DmaBufPlane := {|
  dp_fd := rq_fd q; dp_offset := rq_offset q; dp_stride := rq_stride q; dp_width := rq_width q;
  dp_height := rq_height q; dp_fourcc := fourcc; dp_modifier := rq_modifier q |}.

Definition copy_dmabuf_with_gbm (call : nat) (q : ReadbackRequest) : result string (bytes * Z) :=
  reject_if (rq_fd q < 0) "PipeWire supplied an invalid DMA-BUF descriptor" then?
  let? fourcc := ok_or (drm_fourcc_for_video_format (rq_format q)) "no DRM fourcc mapping" in
  reject_if (gbm_recognizes fourcc = false) "GBM does not recognize DRM format" then?
  let? _ := ok_or (u32_try_from (rq_stride q)) "DMA-BUF stride exceeds GBM limits" in
  (if decide (rq_modifier q = DRM_FORMAT_MOD_INVALID) then
     reject_if (rq_offset q <> 0) "implicit-modifier DMA-BUF has unsupported non-zero plane offset"
   else
     let? _ := ok_or (i32_try_from (rq_offset q)) "DMA-BUF offset exceeds GBM limits" in
     let? _ := ok_or (i32_try_from (rq_stride q)) "DMA-BUF stride exceeds GBM limits" in
     Ok tt) then?
  gbm_map call (plane_of q fourcc).

Definition copy_dmabuf_with_egl (call : nat) (q : ReadbackRequest) (target_width target_height : Z) :
    result string DmaBufReadback :=
  let? fourcc := ok_or (drm_fourcc_for_video_format (rq_format q)) "no DRM fourcc mapping" in
  let? _ := ok_or (u32_try_from (rq_offset q)) "DMA-BUF offset exceeds EGL limits" in
  let? _ := ok_or (u32_try_from (rq_stride q)) "DMA-BUF stride exceeds EGL limits" in
  let? readback := egl_read call (plane_of q fourcc) target_width target_height in
  Ok {| dr_data := rb_data readback; dr_stride := rb_stride readback; dr_width := rb_width readback;
        dr_height := rb_height readback;
        dr_format := match rb_layout readback with LayoutRgba => RawRgbx | LayoutBgra => RawBgrx end;
        dr_path := "egl" |}.

(** [copy_dmabuf_scaled]: GBM, then EGL, each until it first fails. *)
Definition copy_dmabuf_scaled (call : nat) (q : ReadbackRequest) (target_width target_height : Z)
    (g : GpuReadback) : result string DmaBufReadback * GpuReadback :=
  let egl (g : GpuReadback) (gbm_failed : bool) :=
    if egl_unusable g then (Err "no driver-backed readback path remains", g)
    else match copy_dmabuf_with_egl call q target_width target_height with
         | Ok readback => (Ok readback, g)
         | Err _ => (Err (if gbm_failed then "GBM readback also failed" else "EGL readback failed"),
                     {| gbm_unusable := gbm_unusable g; egl_unusable := true |})
         end in
  if gbm_unusable g then egl g false
  else match copy_dmabuf_with_gbm call q with
       | Ok (data, stride) =>
           match raw_frame_format_for_video_format (rq_format q) with
           | None => (Err "unsupported PipeWire video format", g)
           | Some format =>
               (Ok {| dr_data := data; dr_stride := stride; dr_width := rq_width q;
                      dr_height := rq_height q; dr_format := format; dr_path := "gbm" |}, g)
           end
       | Err _ => egl {| gbm_unusable := true; egl_unusable := egl_unusable g |} true
       end.
End readback.

(** * The [process] callback *)

(** The first data block of a buffer: its chunk, what kind of memory it is, and
    the memory if it is mapped. *)
Record SpaData : Type := {
  sd_offset : Z;
  sd_size : Z;
  sd_stride : Z;
  sd_is_dmabuf : bool;
  sd_mappable : bool;
  sd_fd : Z;
  sd_map_offset : Z;
  sd_mapped : option bytes;
}.
(** The negotiated format. *)
Record VideoInfo : Type := { vi_format : VideoFormat; vi_width : Z; vi_height : Z; vi_modifier : Z }.
Record FrameThread : Type := {
  ft_cursor : PipewireUserData;
  ft_last_frame_copied_at : option Z;
  ft_min_frame_interval : Z;
  ft_target_width : Z;
  ft_target_height : Z;
  ft_gpu_readback : GpuReadback;
  ft_serial : Z;
  ft_latest : option RawFrame;
}.
Definition set_frame_cursor (u : PipewireUserData) (t : FrameThread) : FrameThread := {|
  ft_cursor := u; ft_last_frame_copied_at := ft_last_frame_copied_at t;
  ft_min_frame_interval := ft_min_frame_interval t; ft_target_width := ft_target_width t;
  ft_target_height := ft_target_height t; ft_gpu_readback := ft_gpu_readback t; ft_serial := ft_serial t;
  ft_latest := ft_latest t |}.
Definition set_copied_at (now : Z) (t : FrameThread) : FrameThread := {|
  ft_cursor := ft_cursor t; ft_last_frame_copied_at := Some now;
  ft_min_frame_interval := ft_min_frame_interval t; ft_target_width := ft_target_width t;
  ft_target_height := ft_target_height t; ft_gpu_readback := ft_gpu_readback t; ft_serial := ft_serial t;
  ft_latest := ft_latest t |}.
Definition set_gpu (g : GpuReadback) (t : FrameThread) : FrameThread := {|
  ft_cursor := ft_cursor t; ft_last_frame_copied_at := ft_last_frame_copied_at t;
  ft_min_frame_interval := ft_min_frame_interval t; ft_target_width := ft_target_width t;
  ft_target_height := ft_target_height t; ft_gpu_readback := g; ft_serial := ft_serial t;
  ft_latest := ft_latest t |}.
(** [record_pipewire_error] *)
Definition fail_stream (message : string) (t : FrameThread) : FrameThread :=
  set_frame_cursor (set_error (Some message) (ft_cursor t)) t.
(** The new frame goes out under the next serial. *)
Definition deliver (data : bytes) (stride : Z) (format : RawFrameFormat) (width height : Z) (t : FrameThread) :
    FrameThread :=
  let serial := (ft_serial t + 1) mod 2 ^ 64 in
  {| ft_cursor := ft_cursor t; ft_last_frame_copied_at := ft_last_frame_copied_at t;
     ft_min_frame_interval := ft_min_frame_interval t; ft_target_width := ft_target_width t;
     ft_target_height := ft_target_height t; ft_gpu_readback := ft_gpu_readback t; ft_serial := serial;
     ft_latest := Some {| rf_serial := serial; rf_width := width; rf_height := height; rf_stride := stride;
                          rf_format := format; rf_data := data |} |}.

Section process.
Context `{libspa : !Libspa, files : !FileMapping, drivers : !ReadbackDrivers}.

(** The bytes of a frame in main memory: [None] where the callback returns, an
    error where the stream fails. *)
Definition read_cpu_frame (d : SpaData) (size : Z) : option (result string bytes) :=
  match sd_mapped d with
  | Some mapped =>
      if decide (u64_saturating_add (sd_offset d) size > zlen mapped) then None
      else Some (Ok (take (Z.to_nat size) (drop (Z.to_nat (sd_offset d)) mapped)))
  | None =>
      fd_offset ← u64_checked_add (sd_map_offset d) (sd_offset d);
      Some (ok_or (mmap_fd_slice (sd_fd d) fd_offset size)
              "PipeWire delivered an fd buffer that could not be read from CPU memory")
  end.

(** The part of the callback behind the frame interval. *)
Definition copy_frame (call : nat) (i : VideoInfo) (format : RawFrameFormat) (d : SpaData) (size : Z)
    (t : FrameThread) : FrameThread :=
  if dmabuf_requires_gpu_readback (sd_is_dmabuf d) (sd_mappable d) (vi_modifier i) then
    match u64_checked_add (sd_map_offset d) (sd_offset d) with
    | None => t
    | Some fd_offset =>
        let '(target_width, target_height) :=
          fit_even_dimensions (vi_width i) (vi_height i) (ft_target_width t) (ft_target_height t) in
        let request := {| rq_fd := sd_fd d; rq_offset := fd_offset; rq_width := vi_width i;
                          rq_height := vi_height i; rq_stride := sd_stride d; rq_format := vi_format i;
                          rq_modifier := vi_modifier i |} in
        let '(readback, gpu) :=
          copy_dmabuf_scaled call request target_width target_height (ft_gpu_readback t) in
        let t := set_gpu gpu t in
        match readback with
        | Ok r => deliver (dr_data r) (dr_stride r) (dr_format r) (dr_width r) (dr_height r) t
        | Err _ => fail_stream "PipeWire DMA-BUF requires GPU readback, but no driver path produced linear pixels" t
        end
    end
  else
    match read_cpu_frame d size with
    | None => t
    | Some (Err message) => fail_stream message t
    | Some (Ok data) => deliver data (sd_stride d) format (vi_width i) (vi_height i) t
    end.

(** The callback for a dequeued buffer, at two instants. *)
Definition process_buffer (call : nat) (i : VideoInfo) (metas : list SpaMeta) (datas : list SpaData)
    (cursor_now now : Z) (t : FrameThread) : result access_error unit * FrameThread :=
  if decide (vi_width i = 0 \/ vi_height i = 0) then (Ok tt, t)
  else
    let '(emitted, u) := maybe_emit_pipewire_cursor metas (vi_width i) (vi_height i) cursor_now (ft_cursor t) in
    let t := set_frame_cursor u t in
    match emitted, datas, raw_frame_format_for_video_format (vi_format i) with
    | Err e, _, _ => (Err e, t)
    | Ok false, _, _ | Ok true, [], _ | Ok true, _, None => (Ok tt, t)
    | Ok true, d :: _, Some format =>
        if decide (sd_stride d <= 0) then (Ok tt, t)
        else
          match (if decide (sd_size d = 0)
                 then expected_frame_size_from_stride format (sd_stride d) (vi_width i) (vi_height i)
                 else Some (sd_size d)) with
          | None => (Ok tt, t)
          | Some size =>
              if decide (is_some_and (fun last => u64_saturating_sub now last < ft_min_frame_interval t)
                           (ft_last_frame_copied_at t))
              then (Ok tt, t)
              else (Ok tt, copy_frame call i format d size (set_copied_at now t))
          end
    end.
End process.

(** * Taking a frame *)

(** What [next_frame] sees each time that it looks: the error of the stream and
    the latest frame.  It looks until the deadline. *)
Record Look : Type := { lk_error : option string; lk_latest : option RawFrame }.
Fixpoint next_frame (looks : list Look) (last_encoded_serial : Z) : result string RawFrame * Z :=
  match looks with
  | [] => (Err "timed out waiting for a PipeWire frame from portal stream", last_encoded_serial)
  | look :: looks =>
      match lk_error look, lk_latest look with
      | Some err, _ => (Err "PipeWire stream failed", last_encoded_serial)
      | None, Some frame =>
          if decide (rf_serial frame = last_encoded_serial) then next_frame looks last_encoded_serial
          else (Ok frame, rf_serial frame)
      | None, None => next_frame looks last_encoded_serial
      end
  end.
