(* ===== verification/PublisherRun.v ===== *)
(** The publisher's process around its sessions ([crates/publisher/src/lib.rs]):
    retrying a session, which errors end it, the labels of its streams, the
    remembered portal grant, the rates it asks of PipeWire and measures, and the
    choice of cursor modes and modifiers. *)
From Stdlib Require Import ZArith Lia.
From Stdlib.Floats Require Import SpecFloat.
From S2P Require Import Prelude Bytes RustStr Float64 Encoder PublisherCursor Frames FrameThread.

(** * Retrying *)

(** [str::contains] *)
Definition str_contains (needle haystack : string) : Prop := is_Some (String.index 0 needle haystack).
Definition fatal_messages : list string :=
  ["non-mappable DMA-BUF"; "GPU import/readback is required"; "requires GPU readback"; "GPU readback failed";
   "CPU-readable PipeWire buffers"; "no more input formats"; "error alloc buffers: Invalid argument";
   "OpenH264"; "openh264"; "VA-API H.264"; "required VA-API"; "encoder dimensions changed";
   "requires non-zero, even dimensions"; "requested portal cursor mode Metadata is not available";
   "does not include SPA_META_Cursor while --require-cursor-metadata is set"]%string.
(** An error is the chain of its messages. *)
Definition is_fatal_publisher_error (chain : list string) : Prop :=
  Exists (fun message => Exists (fun needle => str_contains needle message) fatal_messages) chain.
#[global] Instance is_fatal_publisher_error_dec chain : Decision (is_fatal_publisher_error chain).
Proof. unfold is_fatal_publisher_error, str_contains. apply _. Defined.

(** In milliseconds; the attempt is a [u32]. *)
Definition reconnect_delay (attempt : Z) : Z := u64_saturating_mul 250 (Z.shiftl 1 (Z.min attempt 5)).

(** How a session ended, with the shutdown flag then, and whether the shutdown
    came while waiting for the next one. *)
Inductive SessionEnd : Type := SessionDone | SessionFailed (chain : list string).
Record Attempt : Type := { at_end : SessionEnd; at_shutdown : bool; at_stopped : bool }.
Inductive PublisherEnd : Type := PublisherStopped | PublisherFatal (chain : list string) | PublisherRunning.
(** The loop of a publisher thread in [run_client]: the delays that it waited
    and how it ended, if it did. *)
Fixpoint publish_loop (attempts : list Attempt) (reconnect_attempt : Z) : list Z * PublisherEnd :=
  match attempts with
  | [] => ([], PublisherRunning)
  | a :: attempts =>
      match at_end a with
      | SessionDone => ([], PublisherStopped)
      | SessionFailed chain =>
          if at_shutdown a then ([], PublisherStopped)
          else if decide (is_fatal_publisher_error chain)
          then ([], PublisherFatal ("fatal publisher error"%string :: chain))
          else
            let delay := reconnect_delay reconnect_attempt in
            if at_stopped a then ([delay], PublisherStopped)
            else
              let '(delays, e) := publish_loop attempts (Z.min u32_max (reconnect_attempt + 1)) in
              (delay :: delays, e)
      end
  end.

(** * Labels *)

Definition is_label_char (c : Z) : Prop :=
  48 <= c <= 57 \/ 65 <= c <= 90 \/ 97 <= c <= 122 \/ c = 45 \/ c = 95.
#[global] Instance is_label_char_dec c : Decision (is_label_char c).
Proof. unfold is_label_char. apply _. Defined.
Definition replace_char (c : Z) : Z := if decide (is_label_char c) then c else 45.
(** [trim_matches('-')] *)
Fixpoint trim_dashes_start (s : rstring) : rstring :=
  match s with c :: s' => if decide (c = 45) then trim_dashes_start s' else s | [] => [] end.
Definition trim_dashes (s : rstring) : rstring := reverse (trim_dashes_start (reverse (trim_dashes_start s))).
Definition sanitize_source_label (connector : rstring) : rstring :=
  let label := trim_dashes (take 64 (replace_char <$> connector)) in
  if decide (label = []) then ascii_str "output" else label.
Definition sanitize_socket_component (value : rstring) : rstring := trim_dashes (replace_char <$> value).

(** The labels of the streams of a process: none for a single one. *)
Definition mutter_labels (connectors : list rstring) : list (option rstring) :=
  let labelled := bool_decide (1 < length connectors)%nat in
  (fun connector => if labelled then Some (sanitize_source_label connector) else None) <$> connectors.

(** * The remembered portal grant *)

Definition MAX_PORTAL_RESTORE_TOKEN_LEN : Z := 512.
Definition acceptable_token (token : rstring) : Prop :=
  token <> [] /\ str_len token <= MAX_PORTAL_RESTORE_TOKEN_LEN /\
  Forall (fun c => ~ is_control c /\ ~ is_whitespace c) token.
#[global] Instance acceptable_token_dec token : Decision (acceptable_token token).
Proof. unfold acceptable_token. apply _. Defined.
(** [PortalRestoreToken::load]: the text of the file, if it can be read. *)
Definition load_token (file : option rstring) : option rstring :=
  raw ← file; let token := trim raw in if decide (acceptable_token token) then Some token else None.
(** [save]: the file afterwards; writing may fail and leaves the file then. *)
Definition save_token (token : rstring) (written : bool) (file : option rstring) : option rstring :=
  if decide (str_len token > MAX_PORTAL_RESTORE_TOKEN_LEN) then file
  else if written then Some (token ++ [10]) else file.

(** * Rates *)

(** [gcd]: the second number decreases, so that one more than it is enough fuel. *)
Fixpoint gcd_loop (fuel : nat) (a b : Z) : option Z :=
  match fuel with
  | O => None
  | S fuel => if decide (b = 0) then Some a else gcd_loop fuel b (a mod b)
  end.
Definition gcd (a b : Z) : option Z := gcd_loop (S (Z.to_nat b)) a b.

(** [0.5] *)
Definition f64_half : float := f64_div (f64_of_Z 1) (f64_of_Z 2).
(** [x.round().max(1.0) as u32] *)
Definition at_least_one (x : float) : Z := Z.max 1 (u32_clamp (f64_round_i64 x)).
Definition fps_numerator (fps : float) : Z :=
  at_least_one (f64_mul (f64_clamp fps f64_half (f64_of_Z 60)) (f64_of_Z 1000)).
Definition fps_fraction (fps : float) : option (Z * Z) :=
  let numerator := fps_numerator fps in
  divisor ← gcd numerator 1000;
  let divisor := Z.max divisor 1 in
  Some (numerator / divisor, 1000 / divisor).

(** [f64::max] *)
Definition float_max (x y : float) : float :=
  match x with S754_nan => y | _ => if SFltb x y then y else x end.
Definition pipewire_capture_rate (frame_fps : float) (cursor_hz : Z) : float :=
  f64_clamp (float_max frame_fps (f64_of_Z (Z.max cursor_hz 1))) f64_half (f64_of_Z 120).

(** The meter; instants and durations are nanoseconds. *)
Definition CAPTURE_RATE_WINDOW : Z := 5 * 1000000000.
Record CaptureRateMeter : Type := {
  cr_window_started : Z;
  cr_buffers : Z;
  cr_cursor_samples : Z;
  cr_last_cursor_sample : option Z;
  cr_max_cursor_gap : Z;
}.
Record CaptureRates : Type := { buffer_hz : float; cursor_hz : float; max_cursor_gap : Z }.
Definition meter_new (now : Z) : CaptureRateMeter := {|
  cr_window_started := now; cr_buffers := 0; cr_cursor_samples := 0; cr_last_cursor_sample := None;
  cr_max_cursor_gap := 0 |}.
(** [Duration::as_secs_f64] *)
Definition as_secs_f64 (nanos : Z) : float :=
  SFadd 53 1024 (f64_of_Z (nanos / 1000000000))
    (f64_div (f64_of_Z (nanos mod 1000000000)) (f64_of_Z 1000000000)).
Definition u32_saturating_add (a b : Z) : Z := Z.min u32_max (a + b).
Definition meter_record (now : Z) (cursor_changed : bool) (m : CaptureRateMeter) :
    option CaptureRates * CaptureRateMeter :=
  let m := {|
    cr_window_started := cr_window_started m;
    cr_buffers := u32_saturating_add (cr_buffers m) 1;
    cr_cursor_samples := if cursor_changed then u32_saturating_add (cr_cursor_samples m) 1 else cr_cursor_samples m;
    cr_last_cursor_sample := if cursor_changed then Some now else cr_last_cursor_sample m;
    cr_max_cursor_gap :=
      match cursor_changed, cr_last_cursor_sample m with
      | true, Some previous => Z.max (cr_max_cursor_gap m) (u64_saturating_sub now previous)
      | _, _ => cr_max_cursor_gap m
      end |} in
  let elapsed := u64_saturating_sub now (cr_window_started m) in
  if decide (elapsed < CAPTURE_RATE_WINDOW) then (None, m)
  else
    let seconds := as_secs_f64 elapsed in
    (Some {| buffer_hz := f64_div (f64_of_Z (cr_buffers m)) seconds;
             cursor_hz := f64_div (f64_of_Z (cr_cursor_samples m)) seconds;
             max_cursor_gap := cr_max_cursor_gap m |},
     {| cr_window_started := now; cr_buffers := 0; cr_cursor_samples := 0;
        cr_last_cursor_sample := cr_last_cursor_sample m; cr_max_cursor_gap := 0 |}).
Fixpoint meter_run (records : list (Z * bool)) (m : CaptureRateMeter) : list CaptureRates * CaptureRateMeter :=
  match records with
  | [] => ([], m)
  | (now, changed) :: records =>
      let '(rates, m) := meter_record now changed m in
      let '(all, m) := meter_run records m in
      (match rates with Some r => r :: all | None => all end, m)
  end.

(** * Choices *)

Inductive PortalCursorMode : Type := CursorAuto | CursorMetadata | CursorEmbedded | CursorHidden.
#[global] Instance portal_cursor_mode_eq_dec : EqDecision PortalCursorMode.
Proof. solve_decision. Defined.
Definition PORTAL_CURSOR_HIDDEN : Z := 1.
Definition PORTAL_CURSOR_EMBEDDED : Z := 2.
Definition PORTAL_CURSOR_METADATA : Z := 4.
Definition portal_value (m : PortalCursorMode) : option Z :=
  match m with
  | CursorAuto => None
  | CursorMetadata => Some PORTAL_CURSOR_METADATA
  | CursorEmbedded => Some PORTAL_CURSOR_EMBEDDED
  | CursorHidden => Some PORTAL_CURSOR_HIDDEN
  end.
Definition select_portal_cursor_mode (available : Z) (preference : PortalCursorMode) : result string Z :=
  match portal_value preference with
  | Some cursor_mode =>
      if decide (Z.land available cursor_mode <> 0) then Ok cursor_mode
      else Err "requested portal cursor mode is not available"
  | None =>
      if decide (Z.land available PORTAL_CURSOR_METADATA <> 0) then Ok PORTAL_CURSOR_METADATA
      else if decide (Z.land available PORTAL_CURSOR_EMBEDDED <> 0) then Ok PORTAL_CURSOR_EMBEDDED
      else Ok PORTAL_CURSOR_HIDDEN
  end.
Definition select_mutter_cursor_mode (version : Z) (preference : PortalCursorMode) : result string Z :=
  reject_if (version < 2 /\ preference <> CursorHidden)
    "Mutter ScreenCast API version does not support cursor-mode metadata" then?
  Ok (match preference with CursorAuto | CursorMetadata => 2 | CursorEmbedded => 1 | CursorHidden => 0 end).

Definition preferred_safe_readback_modifier_from_values (modifiers : list Z) : option Z :=
  if decide (DRM_FORMAT_MOD_LINEAR ∈ modifiers) then Some DRM_FORMAT_MOD_LINEAR
  else match list_find (fun modifier => modifier <> DRM_FORMAT_MOD_INVALID) modifiers with
       | Some (_, modifier) => Some modifier
       | None => if decide (DRM_FORMAT_MOD_INVALID ∈ modifiers) then Some DRM_FORMAT_MOD_INVALID else None
       end.

(** * Theorems *)

Lemma reconnect_delay_value n : 0 <= n -> reconnect_delay n = Z.min (250 * 2 ^ n) 8000.
Proof.
  intros Hn. unfold reconnect_delay, u64_saturating_mul. rewrite Z.shiftl_mul_pow2, Z.mul_1_l by lia.
  destruct (decide (n <= 5)).
  - rewrite (Z.min_l n 5) by lia. assert (0 < 2 ^ n) by lia.
    assert (2 ^ n <= 2 ^ 5) as Hp by (apply Z.pow_le_mono_r; lia). change (2 ^ 5) with 32 in Hp. unfold u64_max. lia.
  - rewrite (Z.min_r n 5) by lia. assert (2 ^ 5 <= 2 ^ n) as Hp by (apply Z.pow_le_mono_r; lia).
    change (2 ^ 5) with 32 in Hp |- *. unfold u64_max. lia.
Qed.

(** A publisher thread keeps publishing: over any sessions it ends only when
    one was done, on a shutdown, or on an error that names a fatal cause, and
    only the last is an error; until then it starts a session after each one,
    with delays that double from a quarter of a second up to eight seconds. *)
Theorem publisher_keeps_retrying attempts delays e :
  publish_loop attempts 0 = (delays, e) -> zlen attempts <= u32_max ->
  delays = (fun k => Z.min (250 * 2 ^ k) 8000) <$> seqZ 0 (zlen delays) /\
  match e with
  | PublisherRunning => length delays = length attempts /\
      Forall (fun a => at_shutdown a = false /\ at_stopped a = false /\
                exists chain, at_end a = SessionFailed chain /\ ~ is_fatal_publisher_error chain) attempts
  | PublisherStopped => exists a, a ∈ attempts /\
      (at_end a = SessionDone \/ at_shutdown a = true \/ at_stopped a = true)
  | PublisherFatal chain => exists a cause, a ∈ attempts /\ at_end a = SessionFailed cause /\
      chain = "fatal publisher error"%string :: cause /\ is_fatal_publisher_error cause
  end.
Proof.
  assert (forall n, 0 <= n -> n + zlen attempts <= u32_max -> publish_loop attempts n = (delays, e) ->
    delays = (fun k => Z.min (250 * 2 ^ k) 8000) <$> seqZ n (zlen delays) /\
    match e with
    | PublisherRunning => length delays = length attempts /\
        Forall (fun a => at_shutdown a = false /\ at_stopped a = false /\
                  exists chain, at_end a = SessionFailed chain /\ ~ is_fatal_publisher_error chain) attempts
    | PublisherStopped => exists a, a ∈ attempts /\
        (at_end a = SessionDone \/ at_shutdown a = true \/ at_stopped a = true)
    | PublisherFatal chain => exists a cause, a ∈ attempts /\ at_end a = SessionFailed cause /\
        chain = "fatal publisher error"%string :: cause /\ is_fatal_publisher_error cause
    end) as Hgen; [|intros H Hn; apply (Hgen 0); done || lia].
  revert delays e. induction attempts as [|a attempts IH]; intros delays e n Hn Hlen; simpl.
  { intros [= <- <-]. split; [done|]. by split. }
  destruct (at_end a) as [|chain] eqn:Ee.
  { intros [= <- <-]. split; [done|]. exists a. split; [by left|by left]. }
  destruct (at_shutdown a) eqn:Es.
  { intros [= <- <-]. split; [done|]. exists a. split; [by left|by right; left]. }
  case_decide as Hfatal.
  { intros [= <- <-]. split; [done|]. exists a, chain. split; [by left|done]. }
  destruct (at_stopped a) eqn:Est.
  { intros [= <- <-]. split; [simpl; by rewrite reconnect_delay_value|]. exists a. split; [by left|by right; right]. }
  destruct (publish_loop attempts _) as [ds e'] eqn:E. intros [= <- <-]. simpl in Hlen.
  rewrite Z.min_r in E by lia. apply IH in E as [Hds He]; [|lia|lia].
  split.
  { simpl length. rewrite Nat2Z.inj_succ, seqZ_cons by lia. simpl. rewrite reconnect_delay_value by done.
    rewrite Z.pred_succ. f_equal. by replace (Z.succ n) with (n + 1) by lia. }
  destruct e'.
  - destruct He as (a' & ? & ?). exists a'. split; [by right|done].
  - destruct He as (a' & cause & ? & ?). exists a', cause. split; [by right|done].
  - destruct He as [Hl Hf]. split; [simpl; lia|]. constructor; [|done]. eauto.
Qed.

Definition failing_session : Attempt :=
  {| at_end := SessionFailed ["connection reset"%string]; at_shutdown := false; at_stopped := false |}.
Lemma publisher_keeps_retrying_witness :
  exists delays, publish_loop (replicate 8 failing_session) 0 = (delays, PublisherRunning) /\
    delays = (fun k => Z.min (250 * 2 ^ k) 8000) <$> seqZ 0 (zlen delays).
Proof.
  destruct (publish_loop (replicate 8 failing_session) 0) as [delays e] eqn:E.
  assert (e = PublisherRunning) as -> by (vm_compute in E; congruence).
  exists delays. split; [reflexivity|]. refine (proj1 (publisher_keeps_retrying _ _ _ E _)). by vm_compute.
Defined.

(** ** Rates *)

Lemma gcd_loop_enough fuel a b : 0 <= a -> 0 <= b -> (Z.to_nat b < fuel)%nat -> gcd_loop fuel a b = Some (Z.gcd a b).
Proof.
  revert a b. induction fuel as [|fuel IH]; intros a b Ha Hb Hf; [lia|]. simpl. case_decide as E.
  - subst. by rewrite Z.gcd_0_r_nonneg.
  - pose proof (Z.mod_pos_bound a b). rewrite IH by lia. f_equal.
    rewrite Z.gcd_comm, Z.gcd_mod by done. apply Z.gcd_comm.
Qed.
Lemma gcd_spec a b : 0 <= a -> 0 <= b -> gcd a b = Some (Z.gcd a b).
Proof. intros. apply gcd_loop_enough; lia. Qed.

Definition f64_value (x : float) : Prop := forall s m e, x = S754_finite s m e -> Zpos m < 2 ^ 53.
Lemma fps_numerator_bounds fps : f64_value fps -> 1 <= fps_numerator fps <= 60000.
Proof.
  intros Hx. pose proof (f64_clamped_product fps 60 1000 ltac:(lia) ltac:(lia) ltac:(lia) Hx) as H.
  unfold fps_numerator, at_least_one.
  destruct (SFltb fps f64_half) eqn:E.
  - assert (f64_clamp fps f64_half (f64_of_Z 60) = f64_half) as ->; [unfold f64_clamp; by rewrite E|].
    vm_compute. split; congruence.
  - assert (f64_clamp fps f64_half (f64_of_Z 60) = f64_clamp fps (f64_of_Z 0) (f64_of_Z 60)) as ->.
    { unfold f64_clamp. rewrite E. replace (SFltb fps (f64_of_Z 0)) with false; [done|].
      destruct fps as [|[]| |[] m e]; try done; by vm_compute in E. }
    unfold u32_clamp. lia.
Qed.

Definition same_float (x y : float) : bool :=
  match x, y with
  | S754_finite false m e, S754_finite false m' e' => Pos.eqb m m' && (e =? e')
  | _, _ => false
  end.
Lemma same_float_eq x y : same_float x y = true -> x = y.
Proof.
  destruct x as [| | |[]], y as [| | |[]]; try done. simpl. intros [->%Pos.eqb_eq ->%Z.eqb_eq]%andb_prop. done.
Qed.
Definition rate_cut (cursor_hz : Z) : Prop :=
  f64_clamp (f64_of_Z cursor_hz) f64_half (f64_of_Z 120) = f64_of_Z (Z.min cursor_hz 120) /\
  fps_fraction (f64_clamp (f64_of_Z cursor_hz) f64_half (f64_of_Z 120)) = Some (Z.min cursor_hz 60, 1).
Lemma capture_rates_to_1000 : Forall rate_cut (seqZ 1 1000).
Proof.
  assert (forallb (fun hz =>
    same_float (f64_clamp (f64_of_Z hz) f64_half (f64_of_Z 120)) (f64_of_Z (Z.min hz 120)) &&
    bool_decide (fps_fraction (f64_clamp (f64_of_Z hz) f64_half (f64_of_Z 120)) = Some (Z.min hz 60, 1)))
    (seqZ 1 1000) = true) as Hb by (vm_compute; reflexivity).
  rewrite forallb_forall in Hb. apply Forall_forall. intros z Hz. rewrite list_elem_of_In in Hz.
  specialize (Hb z Hz). cbv beta in Hb. apply andb_prop in Hb as [H1%same_float_eq H2%bool_decide_eq_true].
  by split.
Qed.

(** The rate that a stream asks of PipeWire: for every number a fraction of
    at most 60 buffers a second comes out, reduced, and equal to the rate in
    thousandths; but a cursor rate above 60 is cut to 60 there, although the rate
    that is to satisfy the cursor goes up to 120. *)
Theorem negotiated_rate fps :
  f64_value fps ->
  (exists num denom, fps_fraction fps = Some (num, denom) /\
     num * 1000 = fps_numerator fps * denom /\ Z.gcd num denom = 1 /\
     1 <= denom <= 1000 /\ 1 <= num <= 60 * denom) /\
  (forall cursor_hz, 1 <= cursor_hz <= 1000 -> SFltb fps (f64_of_Z cursor_hz) = true ->
     pipewire_capture_rate fps cursor_hz = f64_of_Z (Z.min cursor_hz 120) /\
     fps_fraction (pipewire_capture_rate fps cursor_hz) = Some (Z.min cursor_hz 60, 1)).
Proof.
  intros Hx. split.
  - pose proof (fps_numerator_bounds fps Hx) as Hn. unfold fps_fraction.
    rewrite gcd_spec by lia. cbn [mbind option_bind]. set (n := fps_numerator fps) in *. set (g := Z.gcd n 1000).
    assert (0 < g) as Hg.
    { assert (0 <= g) by apply Z.gcd_nonneg. assert (g <> 0) by (intros []%Z.gcd_eq_0; lia). lia. }
    rewrite Z.max_l by lia. destruct (Z.gcd_divide_l n 1000) as [a Ha], (Z.gcd_divide_r n 1000) as [b Hb].
    fold g in Ha, Hb. exists a, b.
    assert (n / g = a) as -> by (rewrite Ha; apply Z.div_mul; lia).
    assert (1000 / g = b) as -> by (rewrite Hb; apply Z.div_mul; lia).
    split; [done|]. assert (0 < b) by nia. assert (0 < a) by nia. split; [|split; [|split]].
    + rewrite Ha, Hb. ring.
    + assert (Z.gcd (a * g) (b * g) = g) as Hab by (by rewrite <-Ha, <-Hb).
      rewrite Z.gcd_mul_mono_r_nonneg in Hab by lia. nia.
    + nia.
    + nia.
  - intros hz Hhz Hlt.
    assert (float_max fps (f64_of_Z (Z.max hz 1)) = f64_of_Z hz) as Hmax.
    { rewrite Z.max_l by lia. unfold float_max. rewrite Hlt. by destruct fps. }
    unfold pipewire_capture_rate. rewrite Hmax.
    pose proof capture_rates_to_1000 as Hall.
    rewrite Forall_forall in Hall. apply Hall, elem_of_seqZ. lia.
Qed.
Lemma negotiated_rate_witness :
  pipewire_capture_rate (f64_of_Z 5) 120 = f64_of_Z 120 /\
  fps_fraction (pipewire_capture_rate (f64_of_Z 5) 120) = Some (60, 1).
Proof.
  apply (negotiated_rate (f64_of_Z 5)); [|lia|by vm_compute].
  intros s m e H. vm_compute in H. injection H as [= <- <- <-]. by vm_compute.
Defined.

(** The gaps between consecutive buffers with a cursor, as the meter takes them. *)
Fixpoint cursor_gaps (last : option Z) (records : list (Z * bool)) : list Z :=
  match records with
  | [] => []
  | (now, true) :: records =>
      match last with
      | Some previous => u64_saturating_sub now previous :: cursor_gaps (Some now) records
      | None => cursor_gaps (Some now) records
      end
  | (_, false) :: records => cursor_gaps last records
  end.
Definition longest (gaps : list Z) : Z := foldr Z.max 0 gaps.

Lemma longest_cons g gaps : longest (g :: gaps) = Z.max g (longest gaps).
Proof. done. Qed.
Lemma longest_nonneg gaps : 0 <= longest gaps.
Proof. induction gaps as [|g gaps IH]; [done|]. rewrite longest_cons. lia. Qed.

Lemma meter_gaps records m rates m' :
  0 <= cr_max_cursor_gap m -> meter_run records m = (rates, m') ->
  Z.max (longest (max_cursor_gap <$> rates)) (cr_max_cursor_gap m') =
  Z.max (cr_max_cursor_gap m) (longest (cursor_gaps (cr_last_cursor_sample m) records)) /\
  0 <= cr_max_cursor_gap m'.
Proof.
  revert m rates m'. induction records as [|[now changed] records IH]; intros m rates m' Hm; cbn [meter_run].
  { intros [= <- <-]. simpl. lia. }
  destruct (meter_record now changed m) as [r m1] eqn:E.
  destruct (meter_run records m1) as [all m2] eqn:E2. intros [= <- <-]. unfold meter_record in E.
  set (gap := match changed, cr_last_cursor_sample m with
              | true, Some previous => Z.max (cr_max_cursor_gap m) (u64_saturating_sub now previous)
              | _, _ => cr_max_cursor_gap m end) in E.
  assert (0 <= gap) as Hgap by (unfold gap; repeat case_match; lia).
  assert (Z.max (cr_max_cursor_gap m) (longest (cursor_gaps (cr_last_cursor_sample m) ((now, changed) :: records))) =
    Z.max gap (longest (cursor_gaps (if changed then Some now else cr_last_cursor_sample m) records))) as ->.
  { unfold gap. destruct changed; [|done]. simpl. destruct (cr_last_cursor_sample m); [|done]. simpl. lia. }
  assert (0 <= cr_max_cursor_gap m1 /\ forall x, Z.max (longest (max_cursor_gap <$> (match r with Some r => r :: all | None => all end))) x =
    Z.max (match r with Some r => max_cursor_gap r | None => 0 end) (Z.max (longest (max_cursor_gap <$> all)) x)) as [Hm1 Hl].
  { split; [case_decide; injection E as [= <- <-]; [done|simpl; lia]|]. intros x.
    pose proof (longest_nonneg (max_cursor_gap <$> all)). destruct r; [|lia].
    rewrite fmap_cons, longest_cons. lia. }
  destruct (IH _ _ _ Hm1 E2) as [H1 H2]. split; [|done]. rewrite Hl, H1.
  pose proof (longest_nonneg (cursor_gaps (cr_last_cursor_sample m1) records)).
  case_decide; injection E as [= <- <-]; simpl in *; lia.
Qed.

(** No gap between two buffers with a cursor is lost at the end of a window: the
    longest is that of a report or of the window that is still open. *)
Corollary meter_reports_longest now records rates m :
  meter_run records (meter_new now) = (rates, m) ->
  Z.max (longest (max_cursor_gap <$> rates)) (cr_max_cursor_gap m) = longest (cursor_gaps None records).
Proof.
  intros H. apply meter_gaps in H as [-> _]; [|done]. simpl.
  pose proof (longest_nonneg (cursor_gaps None records)). lia.
Qed.

(** ** Labels and tokens *)

Lemma trim_dashes_start_suffix s : exists p, s = p ++ trim_dashes_start s.
Proof.
  induction s as [|c s [p IH]]; simpl; [by exists []|]. case_decide; [|by exists []]. exists (c :: p).
  simpl. by rewrite <-IH.
Qed.
Lemma trim_dashes_infix s : exists p q, s = p ++ trim_dashes s ++ q.
Proof.
  unfold trim_dashes. destruct (trim_dashes_start_suffix s) as [p Hp].
  destruct (trim_dashes_start_suffix (reverse (trim_dashes_start s))) as [q Hq]. exists p, (reverse q).
  rewrite Hp at 1. f_equal. rewrite <-reverse_app, <-Hq. by rewrite reverse_involutive.
Qed.
Lemma trim_dashes_chars P s : Forall P s -> Forall P (trim_dashes s).
Proof. destruct (trim_dashes_infix s) as (p & q & E). rewrite E at 1. by intros [_ [? _]%Forall_app]%Forall_app. Qed.
Lemma trim_dashes_length s : (length (trim_dashes s) <= length s)%nat.
Proof. destruct (trim_dashes_infix s) as (p & q & E). rewrite E at 2. rewrite !length_app. lia. Qed.

Lemma label_chars_len s : Forall is_label_char s -> str_len s = zlen s.
Proof.
  induction 1 as [|c s Hc _ IH]; [done|]. simpl. rewrite IH. unfold len_utf8, is_label_char in *.
  rewrite decide_True by lia. lia.
Qed.
Lemma label_chars_trim s : Forall is_label_char s -> trim s = s.
Proof.
  intros Hs. assert (forall c, c ∈ s -> ~ is_whitespace c) as Hw.
  { rewrite Forall_forall in Hs. intros c Hc%Hs. unfold is_label_char, is_whitespace in *. lia. }
  apply trim_fixed. split; intros c Hc; apply Hw; [by apply head_Some_elem_of|by apply last_Some_elem_of].
Qed.

(** The label of any connector is one that every check of a label takes. *)
Lemma source_label_good connector :
  ~ bad_label 64 (sanitize_source_label connector) /\ Forall is_label_char (sanitize_source_label connector).
Proof.
  assert (Forall is_label_char (sanitize_source_label connector) /\
    (length (sanitize_source_label connector) <= 64)%nat /\ sanitize_source_label connector <> []) as (Hc & Hl & Hn).
  { unfold sanitize_source_label. case_decide as E.
    - split; [apply (bool_decide_unpack _); by vm_compute|]. split; [simpl; lia|done].
    - split; [|split; [|done]].
      + apply trim_dashes_chars, Forall_take, Forall_fmap, Forall_forall. intros c _. simpl.
        unfold replace_char. case_decide; [done|]. unfold is_label_char. lia.
      + etrans; [apply trim_dashes_length|]. rewrite length_take. lia. }
  split; [|done]. apply good_label. split; [done|]. split; [rewrite label_chars_len by done; lia|].
  split; [by apply label_chars_trim|]. eapply Forall_impl; [exact Hc|].
  intros c. unfold is_label_char, is_control. lia.
Qed.

Lemma trim_newline s : trim (s ++ [10]) = trim s.
Proof.
  assert (trim_start (s ++ [10]) = match trim_start s with [] => [] | s' => s' ++ [10] end) as E.
  { induction s as [|c s IH]; [done|]. simpl. by case_decide. }
  unfold trim. rewrite E. destruct (trim_start s) as [|c s']; [done|]. unfold trim_end. by rewrite reverse_snoc.
Qed.
(** A token that the portal gave is offered again exactly when it is one that
    [load] takes; one that is too long leaves the file as it is. *)
Lemma token_roundtrip token file :
  load_token (save_token token true file) =
  if decide (str_len token > MAX_PORTAL_RESTORE_TOKEN_LEN) then load_token file
  else if decide (acceptable_token (trim token)) then Some (trim token) else None.
Proof.
  unfold save_token. case_decide; [done|]. unfold load_token. cbn [mbind option_bind]. by rewrite trim_newline.
Qed.
