(* ===== verification/PublisherPolicy.v ===== *)
(** What configures a publisher: its client configuration and identity
    ([crates/publisher/src/lib.rs]), the viewer policy of [native_admin.rs] with
    the authority and the revocation list that it names, the turn of the
    approval worker that reads it again each time, and the numbers of the
    command lines.

    Parsing TOML, floating-point text and base64 keys are parameters. *)
From Stdlib Require Import ZArith Lia.
From Stdlib.Floats Require Import SpecFloat.
From S2P Require Import Prelude Bytes RustStr External Toy PrivateState KeyHistory KnownRelays.
From S2P Require Import Identity Credential Native Envelope Transport Pairing Codecs Wire RelayClient Keyed.
From S2P Require Import Float64 Approvals Runtime.

(** * Numbers *)

(** [str::parse::<f64>]. *)
Class ParseFloat : Type := parse_f64 : rstring -> option float.

Definition between (low high x : float) : Prop := SFleb low x = true /\ SFleb x high = true.
#[global] Instance between_dec low high x : Decision (between low high x).
Proof. unfold between. apply _. Defined.
(** 0.2 *)
Definition f64_fifth : float := f64_div (f64_of_Z 1) (f64_of_Z 5).

Definition is_number_char (c : Z) : Prop := 48 <= c <= 57 \/ c = 46.
#[global] Instance is_number_char_dec c : Decision (is_number_char c).
Proof. unfold is_number_char. apply _. Defined.
Fixpoint split_number (s : rstring) : rstring * rstring :=
  match s with
  | c :: s' => if decide (is_number_char c) then let '(a, b) := split_number s' in (c :: a, b) else ([], s)
  | [] => ([], [])
  end.
Definition unit_multiplier (unit : rstring) : option Z :=
  let any names := existsb (fun name => bool_decide (unit = ascii_str name)) names in
  if any [""; "b"]%string then Some 1
  else if any ["k"; "kb"]%string then Some 1000
  else if any ["m"; "mb"]%string then Some 1000000
  else if any ["g"; "gb"]%string then Some 1000000000
  else if any ["t"; "tb"]%string then Some 1000000000000
  else if any ["ki"; "kib"]%string then Some 1024
  else if any ["mi"; "mib"]%string then Some (1024 * 1024)
  else if any ["gi"; "gib"]%string then Some (1024 * 1024 * 1024)
  else if any ["ti"; "tib"]%string then Some (1024 * 1024 * 1024 * 1024)
  else None.
(** [x.round() as u64] *)
Definition f64_round_u64 (x : float) : Z :=
  match x with
  | S754_zero _ | S754_nan => 0
  | S754_infinity s => if s then 0 else u64_max
  | S754_finite s m e => Z.max 0 (Z.min u64_max (cond_Zopp s (round_magnitude (Zpos m) e)))
  end.

Section numbers.
Context `{floats : !ParseFloat}.

Definition parse_update_rate (value : rstring) : result string float :=
  let? fps := ok_or (parse_f64 (trim value)) "invalid update rate" in
  reject_if (~ between (f64_div (f64_of_Z 1) (f64_of_Z 2)) (f64_of_Z 15) fps)
    "update rate must be between 0.5 and 15 updates per second" then?
  Ok fps.
Definition parse_idle_heartbeat_seconds (value : rstring) : result string float :=
  let? seconds := ok_or (parse_f64 (trim value)) "invalid idle heartbeat" in
  reject_if (is_finite seconds = false \/ ~ between f64_fifth (f64_of_Z 300) seconds)
    "idle heartbeat must be between 0.2 and 300 seconds" then?
  Ok seconds.
Definition parse_human_bytes (value : rstring) : result string Z :=
  let value := trim value in
  reject_if (value = []) "byte size must not be empty" then?
  let '(number, unit) := split_number value in
  let? number := ok_or (parse_f64 number) "invalid byte size number" in
  reject_if (is_finite number = false \/ SFltb number (f64_of_Z 0) = true)
    "byte size must be a non-negative finite number" then?
  let? multiplier := ok_or (unit_multiplier (ascii_lowercase <$> trim unit)) "unsupported byte size unit" in
  let bytes := f64_mul number (f64_of_Z multiplier) in
  reject_if (SFltb (f64_of_Z u64_max) bytes = true) "byte size is too large" then?
  Ok (f64_round_u64 bytes).
End numbers.

(** * The client configuration *)

Record ClientConfig : Type := {
  cc_client_id : option rstring;
  cc_ingest_server_key : option rstring;
  cc_display_name : option rstring;
  cc_all_monitors : option bool;
  cc_history_bytes : option Z;
  cc_history_seconds : option Z;
}.
Definition default_client_config : ClientConfig := {|
  cc_client_id := None; cc_ingest_server_key := None; cc_display_name := None; cc_all_monitors := None;
  cc_history_bytes := None; cc_history_seconds := None |}.
Record ClientIdentity : Type := {
  ci_client_id : rstring;
  ci_ingest_server_key : option (array 32);
  ci_display_name : rstring;
  ci_config_path : option rstring;
  ci_all_monitors : bool;
}.
(** The arguments of the command line that override the configuration. *)
Record ClientArgs : Type := {
  ca_no_config : bool;
  ca_config : option rstring;
  ca_client_id : option rstring;
  ca_ingest_server_key : option rstring;
  ca_display_name : option rstring;
  ca_history_bytes : option Z;
  ca_history_seconds : option Z;
}.
Definition DEFAULT_HISTORY_BYTES : Z := 100 * 1024 * 1024.
Definition DEFAULT_HISTORY_SECONDS : Z := 24 * 60 * 60.

(** TOML, and the base64 text of a Noise key. *)
Class ClientText : Type := {
  parse_client_config : bytes -> result string ClientConfig;
  decode_noise_public_key : rstring -> option (array 32);
}.

Definition non_empty_trimmed (value : rstring) : result string rstring :=
  let value := trim value in
  reject_if (value = []) "must not be empty" then? Ok value.

Section client.
Context `{text : !ClientText}.

Definition load_client_config (path : option FileEntry) : result string ClientConfig :=
  match path with
  | None => Ok default_client_config
  | Some e =>
      reject_if (fe_kind e = SymbolicLink) "opening client config" then?
      reject_if (fe_kind e <> RegularFile \/ Z.land (fe_mode e) 63 <> 0)
        "client config must be a private regular file with mode 0600" then?
      context "parsing client config" (parse_client_config (fe_content e))
  end.
Definition load_client_config_from (files : Files) (source : ConfigSource) : result string ClientConfig :=
  match source_path source with
  | None => Ok default_client_config
  | Some path =>
      reject_if (must_exist source = true /\ path_exists files path = false) "client config does not exist" then?
      load_client_config (entry_at files path)
  end.
Definition client_source (args : ClientArgs) (files : Files) (user_dir : option rstring) : ConfigSource :=
  if ca_no_config args then Defaults
  else resolve_from files user_dir (ca_config args) (ascii_str "client.toml").
Definition resolve_client_identity (args : ClientArgs) (files : Files) (user_dir : option rstring)
    (hostname : rstring) : result string ClientIdentity :=
  let source := client_source args files user_dir in
  let? config := load_client_config_from files source in
  let? client_id := non_empty_trimmed (default hostname (or_else (ca_client_id args) (cc_client_id config))) in
  let? key := opt_traverse (fun key => ok_or (decode_noise_public_key key) "ingest_server_key must be URL-safe base64 for a 32-byte Noise public key")
                (or_else (ca_ingest_server_key args) (cc_ingest_server_key config)) in
  let? display_name := non_empty_trimmed
    (default (ascii_str "GlacialCast publisher") (or_else (ca_display_name args) (cc_display_name config))) in
  Ok {| ci_client_id := client_id; ci_ingest_server_key := key; ci_display_name := display_name;
        ci_config_path := source_path source; ci_all_monitors := default false (cc_all_monitors config) |}.
(** The bounds of the key history that [run] settles on. *)
Definition history_bounds (args : ClientArgs) (config : ClientConfig) : result string (Z * Z) :=
  let history_bytes := default DEFAULT_HISTORY_BYTES (or_else (ca_history_bytes args) (cc_history_bytes config)) in
  let history_seconds := default DEFAULT_HISTORY_SECONDS (or_else (ca_history_seconds args) (cc_history_seconds config)) in
  reject_if (history_bytes = 0 \/ history_seconds = 0) "history byte and time limits must be positive" then?
  Ok (history_bytes, history_seconds).
End client.

(** * The viewer policy *)

Definition MAX_CREDENTIAL_BYTES : Z := 64 * 1024.
Record ViewerConfig : Type := {
  vc_policy : ViewerPolicy;
  vc_trusted_authority_file : option rstring;
  vc_trusted_revocations_file : option rstring;
}.
Definition default_viewer_config : ViewerConfig := {|
  vc_policy := PolicyRequired; vc_trusted_authority_file := None; vc_trusted_revocations_file := None |}.
(** UTF-8 and TOML: the [viewers] table of the publisher's configuration. *)
Class PublisherToml : Type := parse_publisher_config : bytes -> result string ViewerConfig.

Section policy.
Context `{crypto : !Crypto, toml : !PublisherToml}.
Context `{!Postcard CertificateAuthorityPublic, !Postcard RevocationListBody, !Postcard RevocationList}.

Definition load_config (files : Files) (path : option rstring) (state_dir : rstring) : result string ViewerConfig :=
  let path := default (path_join state_dir (ascii_str "config.toml")) path in
  if decide (path_exists files path = false) then Ok default_viewer_config
  else
    let? content := context "reading publisher config" (read_private (entry_at files path) (1024 * 1024)) in
    context "parsing publisher config" (parse_publisher_config content).
Definition load_policy (files : Files) (now_ms : Z) (mode : ViewerPolicy) (config : ViewerConfig) :
    result string ApprovalPolicy :=
  let? authority := opt_traverse (fun path =>
    let? content := context "I/O" (read_private (entry_at files path) MAX_CREDENTIAL_BYTES) in
    context "credential" (authority_decode content)) (vc_trusted_authority_file config) in
  let? revocations := opt_traverse (fun path =>
    let? content := context "I/O" (read_private (entry_at files path) MAX_CREDENTIAL_BYTES) in
    context "credential" (revocation_decode content)) (vc_trusted_revocations_file config) in
  reject_if (mode = PolicyTrustedCa /\ authority = None) "trusted_ca policy requires viewers.trusted_authority_file" then?
  match authority, revocations with
  | Some authority, Some list => context "credential" (revocation_verify_at list authority now_ms)
  | _, _ => Ok tt
  end then?
  Ok {| pol_mode := mode; pol_authority := authority; pol_revocations := revocations |}.

(** A policy that was loaded trusts only an authority that it has, with a list
    that this authority signed and that was current. *)
Lemma load_policy_Ok files now_ms mode config policy :
  load_policy files now_ms mode config = Ok policy ->
  pol_mode policy = mode /\ (mode = PolicyTrustedCa -> is_Some (pol_authority policy)) /\
  (vc_trusted_revocations_file config = None <-> pol_revocations policy = None) /\
  forall authority list, pol_authority policy = Some authority -> pol_revocations policy = Some list ->
    revocations_accepted list authority now_ms.
Proof.
  unfold load_policy. intros H. apply bind_Ok_inv in H as (authority & Ha & H).
  apply bind_Ok_inv in H as (revocations & Hr & H). rewrite guard_bind in H. destruct H as [Hm H].
  rewrite unit_bind in H. destruct H as [Hv [= <-]]. cbn [pol_mode pol_authority pol_revocations].
  split; [done|]. split; [|split].
  - intros ->. destruct authority; [by eexists|]. tauto.
  - destruct (vc_trusted_revocations_file config); simpl in Hr; [|by injection Hr as [= <-]].
    by apply fmap_Ok_inv in Hr as (? & _ & <-).
  - intros a l -> ->. by apply map_err_Ok, revocation_verify_at_Ok in Hv.
Qed.
End policy.

(** * The approval worker *)

Section worker.
Context `{crypto : !Crypto, addrs : !SocketAddrs, ports : !SocketPorts, codecs : !Codecs}.
Context `{relay_file : !Postcard KnownRelayFile, history_file : !Postcard KeyHistory}.
Context `{state_file : !Postcard PublisherState, state_file_v2 : !Postcard PublisherStateV2}.
Context `{toml : !PublisherToml}.
Context (env : ClientEnv PublisherDisk RelayPublisherMessage).

(** One turn of [run_live_approvals]: the configuration and the policy are read
    again, and then the relay is visited. *)
Definition worker_turn (files : Files) (state_dir : rstring) (p : Profile) :
    client PublisherDisk PublisherMessage RelayPublisherMessage unit :=
  let? config := lift (load_config files None state_dir) in
  let? now := client_now env in
  let? policy := lift (load_policy files now (vc_policy config) config) in
  live_turn env p policy.

(** Without a policy that loads, a turn does nothing but fail. *)
Lemma worker_turn_closed files state_dir p c r c' :
  (forall config now, load_config files None state_dir = Ok config ->
     is_ok (load_policy files now (vc_policy config) config) = false) ->
  worker_turn files state_dir p c = (r, c') ->
  is_ok r = false /\ (c' = c \/ exists now, client_now env c = (Ok now, c')).
Proof.
  unfold worker_turn. intros Hno H.
  apply io_bind_run in H as [(e & [= _ <-] & ->)|(config & c1 & [Hc ->]%lift_Ok & H)]; [auto|].
  apply io_bind_run in H as [(e & [= ] & ->)|(now & c2 & Hnow & H)].
  specialize (Hno config now Hc). destruct (load_policy _ _ _ _) as [policy|e] eqn:E; [done|].
  apply io_bind_run in H as [(e' & [= _ <-] & ->)|(policy & c3 & [[=] _]%lift_Ok & H)]. eauto.
Qed.
End worker.

(** ** Examples *)

#[local] Instance digits_only : ParseFloat := fun s =>
  if decide (s <> [] /\ Forall (fun c => 48 <= c <= 57) s)
  then Some (f64_of_Z (foldl (fun n c => 10 * n + (c - 48)) 0 s)) else None.
Example human_sizes :
  (parse_human_bytes (ascii_str " 100 MiB "), parse_human_bytes (ascii_str "20000000 tb")) =
  (Ok (100 * 1024 * 1024), Err "byte size is too large").
Proof. vm_compute. reflexivity. Qed.
