(* ===== verification/Negotiation.v ===== *)
(** What the publisher asks of PipeWire ([crates/publisher/src/lib.rs]): the
    formats that it offers for the ones that a node advertises, the buffers that
    it asks for once a format is negotiated, and its answer to a negotiated
    size that is not the portal's.

    Reading and writing the bytes of a pod is libspa's. *)
From Stdlib Require Import ZArith Lia.
From Stdlib.Floats Require Import SpecFloat.
From S2P Require Import Prelude Bytes RustStr Float64 Encoder PublisherCursor Frames FrameThread PublisherRun.

Definition PIPEWIRE_CURSOR_MIN_BITMAP_SIDE : Z := 1.
Definition PIPEWIRE_CURSOR_DEFAULT_BITMAP_SIDE : Z := 64.
Definition PIPEWIRE_CURSOR_NEGOTIATED_MAX_BITMAP_SIDE : Z := 384.

(** * Pods *)

(** [spa::utils::ChoiceEnum] *)
Inductive Choice (A : Type) : Type :=
| ChoiceNone (value : A)
| ChoiceRange (default min max : A)
| ChoiceStep (default min max step : A)
| ChoiceEnum (default : A) (alternatives : list A)
| ChoiceFlags (default : A) (flags : list A).
Arguments ChoiceNone {A}. Arguments ChoiceRange {A}. Arguments ChoiceStep {A}.
Arguments ChoiceEnum {A}. Arguments ChoiceFlags {A}.

(** [spa::pod::Value], as far as the publisher writes or reads it. *)
Inductive PodValue : Type :=
| PodId (value : Z)
| PodInt (value : Z)
| PodLong (value : Z)
| PodMedia (name : string)
| PodFormat (format : VideoFormat)
| PodFormats (choice : Choice VideoFormat)
| PodRectangle (width height : Z)
| PodFraction (num denom : Z)
| PodInts (choice : Choice Z)
| PodLongs (choice : Choice Z)
| PodRectangles (choice : Choice (Z * Z))
| PodFractions (choice : Choice (Z * Z))
| PodOther.

(** The keys of the properties that the publisher writes. *)
Inductive PropertyKey : Type :=
| MediaType | MediaSubtype | VideoFormatKey | VideoSize | VideoFramerate | VideoMaxFramerate | VideoModifier
| MetaType | MetaSize
| BuffersBuffers | BuffersBlocks | BuffersSize | BuffersStride | BuffersAlign | BuffersDataType.
Record Property : Type := { pr_key : PropertyKey; pr_mandatory : bool; pr_value : PodValue }.
Definition property (key : PropertyKey) (value : PodValue) : Property :=
  {| pr_key := key; pr_mandatory := false; pr_value := value |}.

Inductive PodKind : Type := ObjectParamFormat | ObjectParamMeta | ObjectParamBuffers.
Record PodObject : Type := { po_kind : PodKind; po_properties : list Property }.

(** libspa: whether bytes are a pod, what [parse_format] and [VideoInfoRaw::parse]
    read from one, the value of a pod's modifier if it has the property, and
    writing an object.  A parse that fails may have changed the format. *)
Class SpaPods : Type := {
  pod_from_bytes : bytes -> bool;
  parse_format : bytes -> option (string * string);
  parse_video_info : bytes -> VideoInfo -> bool * VideoInfo;
  find_modifier : bytes -> option (option PodValue);
  serialize_pod_object : PodObject -> result string bytes;
}.

(** * Modifiers *)

(** [value as u64] and [value as i64] *)
Definition cast_u64 (z : Z) : Z := z mod 2 ^ 64.
Definition cast_i64 (z : Z) : Z := if decide (z < 2 ^ 63) then z else z - 2 ^ 64.

Definition modifier_values_from_choice (choice : Choice Z) : list Z :=
  match choice with
  | ChoiceNone value => [cast_u64 value]
  | ChoiceRange default min max | ChoiceStep default min max _ =>
      [cast_u64 default; cast_u64 min; cast_u64 max]
  | ChoiceEnum default alternatives => cast_u64 <$> (alternatives ++ [default])
  | ChoiceFlags default flags => cast_u64 <$> (flags ++ [default])
  end.
Definition modifier_values_from_pod_value (value : PodValue) : list Z :=
  match value with
  | PodLong value => [cast_u64 value]
  | PodLongs choice => modifier_values_from_choice choice
  | _ => []
  end.

Section pods.
Context `{pods : !SpaPods}.

Definition format_param_has_video_modifier (param : bytes) : bool :=
  match find_modifier param with Some _ => true | None => false end.
Definition video_modifier_values (param : bytes) : list Z :=
  match find_modifier param with
  | Some (Some value) => modifier_values_from_pod_value value
  | _ => []
  end.
Definition preferred_safe_readback_modifier (param : bytes) : option Z :=
  preferred_safe_readback_modifier_from_values (video_modifier_values param).
End pods.

(** * Offers *)

(** The properties of every offered format but its format, size and modifier;
    the framerate is the fraction of the capture rate. *)
Definition rate_properties (fps : Z * Z) : list Property :=
  [property VideoFramerate (PodFractions (ChoiceRange fps (0, 1) (240, 1)));
   property VideoMaxFramerate (PodFractions (ChoiceRange fps (1, 1) fps))].
Definition video_raw : list Property :=
  [property MediaType (PodMedia "video"); property MediaSubtype (PodMedia "raw")].

Definition exact_cpu_format (format : VideoFormat) (width height : Z) (fps : Z * Z) (modifier : option Z) :
    PodObject := {|
  po_kind := ObjectParamFormat;
  po_properties :=
    video_raw ++
    [property VideoFormatKey (PodFormat format);
     property VideoSize (PodRectangle (Z.max width 1) (Z.max height 1))] ++
    rate_properties fps ++
    match modifier with
    | Some modifier =>
        [{| pr_key := VideoModifier; pr_mandatory := true;
            pr_value := PodLongs (ChoiceEnum (cast_i64 modifier) [cast_i64 modifier]) |}]
    | None => []
    end |}.
Definition default_formats : Choice VideoFormat :=
  ChoiceEnum VideoRGB
    [VideoRGB; VideoBGR; VideoRGBA; VideoBGRA; VideoRGBx; VideoBGRx; VideoxRGB; VideoxBGR; VideoARGB;
     VideoABGR; VideoYUY2; VideoI420].
Definition default_format (width height : Z) (fps : Z * Z) : PodObject := {|
  po_kind := ObjectParamFormat;
  po_properties :=
    video_raw ++
    [property VideoFormatKey (PodFormats default_formats);
     property VideoSize (PodRectangles (ChoiceRange (Z.max width 1, Z.max height 1) (1, 1) (16384, 16384)))] ++
    rate_properties fps |}.

(** [VideoInfoRaw::new()] *)
Definition new_video_info : VideoInfo :=
  {| vi_format := VideoOther 0; vi_width := 0; vi_height := 0; vi_modifier := 0 |}.

Section offers.
Context `{pods : !SpaPods}.

Definition fraction_of (fps : float) : result string (Z * Z) := ok_or (fps_fraction fps) "out of fuel".
Definition build_exact_cpu_pipewire_format_pod (format : VideoFormat) (width height : Z) (fps : float)
    (modifier : option Z) : result string bytes :=
  let? fps := fraction_of fps in
  serialize_pod_object (exact_cpu_format format width height fps modifier).
Definition build_default_pipewire_format_pod (width height : Z) (fps : float) : result string bytes :=
  let? fps := fraction_of fps in serialize_pod_object (default_format width height fps).

(** A raw video format among the advertised pods. *)
Definition advertised_video (bytes : bytes) : option VideoInfo :=
  if pod_from_bytes bytes then
    media ← parse_format bytes;
    if decide (media = ("video", "raw")%string) then
      match parse_video_info bytes new_video_info with (true, info) => Some info | (false, _) => None end
    else None
  else None.

(** One turn of the loop: the modifier of the second offer, if there is one, or
    nothing for a format that is skipped. *)
Definition readable_format (info : VideoInfo) (bytes : bytes) : option (option Z) :=
  match raw_frame_format_for_video_format (vi_format info) with
  | None => None
  | Some _ =>
      if decide (vi_width info = 0 \/ vi_height info = 0) then None
      else if format_param_has_video_modifier bytes then Some <$> preferred_safe_readback_modifier bytes
      else Some None
  end.
Definition offers_for (fps : float) (bytes : bytes) : result string (list Bytes.bytes) :=
  match info ← advertised_video bytes; modifier ← readable_format info bytes; Some (info, modifier) with
  | None => Ok []
  | Some (info, modifier) =>
      let exact := build_exact_cpu_pipewire_format_pod (vi_format info) (vi_width info) (vi_height info) fps in
      let? plain := exact None in
      match modifier with
      | None => Ok [plain]
      | Some _ => let? with_modifier := exact modifier in Ok [plain; with_modifier]
      end
  end.
Definition build_pipewire_format_pods_from_node_formats (advertised_pods : list bytes) (fps : float) :
    result string (list bytes) :=
  let? offers := mapR (offers_for fps) advertised_pods in Ok (concat offers).

(** The same for buffers that stay on the GPU. *)
Definition build_pipewire_video_format_pods_from_node_formats (advertised_pods : list bytes) : list bytes :=
  filter (fun bytes => is_Some (info ← advertised_video bytes; drm_fourcc_for_video_format (vi_format info)))
    advertised_pods.

(** What [run_pipewire_loop] offers. *)
Definition format_offers (advertised_pods : list bytes) (width height : Z) (frame_fps : float) (cursor_hz : Z) :
    result string (list bytes) :=
  let pipewire_fps := pipewire_capture_rate frame_fps cursor_hz in
  let? derived := build_pipewire_format_pods_from_node_formats advertised_pods pipewire_fps in
  let? offered := match derived with
    | [] => let? default := build_default_pipewire_format_pod width height pipewire_fps in Ok [default]
    | _ => Ok derived
    end in
  reject_if (~ Forall (fun bytes => pod_from_bytes bytes = true) offered) "failed to build PipeWire format pod" then?
  Ok offered.
End offers.

(** * Buffers *)

(** The numbers of libspa's data types. *)
Definition data_mask (raw : Z) : Z := Z.shiftl 1 raw.
Class SpaDataTypes : Type := { MemPtr : Z; MemFd : Z; DmaBuf : Z }.

Definition i32_max : Z := 2 ^ 31 - 1.
(** [value as i32] of a [u32]. *)
Definition cast_i32 (z : Z) : Z := if decide (z < 2 ^ 31) then z else z - 2 ^ 32.
Definition u32_saturating_mul (a b : Z) : Z := Z.min u32_max (a * b).

Section buffers.
Context `{pods : !SpaPods, libspa : !Libspa, types : !SpaDataTypes}.

(** The size and stride, and the kinds of memory, that are asked for. *)
Definition buffer_extent (format : VideoFormat) (width height : Z) : Z * Z :=
  let stride := default (u32_saturating_mul width 4) (expected_frame_stride format width) in
  (default (Z.min (u32_saturating_mul (Z.max stride 1) (Z.max height 1)) i32_max)
     (expected_frame_size format width height), stride).
Definition buffer_data_types (modifier : Z) : Choice Z :=
  if decide (modifier <> DRM_FORMAT_MOD_LINEAR) then ChoiceFlags (data_mask DmaBuf) [data_mask DmaBuf]
  else ChoiceFlags (data_mask MemFd) [data_mask MemFd; data_mask MemPtr; data_mask DmaBuf].
Definition build_buffers_param_pod (format : VideoFormat) (width height modifier : Z) : result string bytes :=
  let '(size, stride) := buffer_extent format width height in
  serialize_pod_object {|
    po_kind := ObjectParamBuffers;
    po_properties :=
      [property BuffersBuffers (PodInts (ChoiceRange 8 2 16));
       property BuffersBlocks (PodInt 1);
       property BuffersSize (PodInt (cast_i32 size));
       property BuffersStride (PodInt (cast_i32 stride));
       property BuffersAlign (PodInt 16);
       property BuffersDataType (PodInts (buffer_data_types modifier))] |}.

Definition pipewire_cursor_meta_size (bitmap_side : Z) : Z :=
  Z.min i32_max
    (u64_saturating_add (u64_saturating_add size_of_cursor size_of_bitmap)
       (u64_saturating_mul (u64_saturating_mul bitmap_side bitmap_side) 4)).
Definition build_pipewire_cursor_meta_param_pod : result string bytes :=
  serialize_pod_object {|
    po_kind := ObjectParamMeta;
    po_properties :=
      [property MetaType (PodId SPA_META_Cursor);
       property MetaSize (PodInts (ChoiceRange (pipewire_cursor_meta_size PIPEWIRE_CURSOR_DEFAULT_BITMAP_SIDE)
                                     (pipewire_cursor_meta_size PIPEWIRE_CURSOR_MIN_BITMAP_SIDE)
                                     (pipewire_cursor_meta_size PIPEWIRE_CURSOR_NEGOTIATED_MAX_BITMAP_SIDE)))] |}.
(** The parameters that [update_pipewire_buffer_params_with_metadata] sets. *)
Definition buffer_params_with_metadata (buffer_param : bytes) : list bytes :=
  filter (fun bytes => pod_from_bytes bytes = true)
    (buffer_param :: match build_pipewire_cursor_meta_param_pod with Ok bytes => [bytes] | Err _ => [] end).

(** * The [param_changed] callback *)

(** The negotiated format, the capture thread, and the parameters set so far. *)
Record Negotiation : Type := {
  ng_format : VideoInfo;
  ng_thread : FrameThread;
  ng_updates : list (list bytes);
}.
Definition param_changed (expected_width expected_height : Z) (is_format : bool) (param : option bytes)
    (n : Negotiation) : Negotiation :=
  match param with
  | None => n
  | Some param =>
      if negb is_format then n
      else if decide (parse_format param = Some ("video", "raw")%string) then
        let '(parsed, info) := parse_video_info param (ng_format n) in
        let n := {| ng_format := info; ng_thread := ng_thread n; ng_updates := ng_updates n |} in
        if negb parsed then n
        else if decide (vi_width info <> expected_width \/ vi_height info <> expected_height) then
          {| ng_format := info;
             ng_thread := fail_stream "PipeWire negotiated another size; refusing likely wrong source" (ng_thread n);
             ng_updates := ng_updates n |}
        else
          match build_buffers_param_pod (vi_format info) (vi_width info) (vi_height info) (vi_modifier info) with
          | Ok param => {| ng_format := info; ng_thread := ng_thread n;
                           ng_updates := ng_updates n ++ [buffer_params_with_metadata param] |}
          | Err _ => n
          end
      else n
  end.
End buffers.

(** * Theorems *)

Section theorems.
Context `{pods : !SpaPods, libspa : !Libspa, types : !SpaDataTypes}.

Lemma preferred_modifier_advertised modifiers m :
  preferred_safe_readback_modifier_from_values modifiers = Some m -> m ∈ modifiers.
Proof using Type.
  unfold preferred_safe_readback_modifier_from_values. case_decide; [by intros [= <-]|].
  destruct (list_find _ _) as [[i x]|] eqn:E.
  - intros [= <-]. apply list_find_Some in E as (Hx & _). by eapply list_elem_of_lookup_2.
  - case_decide; [by intros [= <-]|done].
Qed.

(** An offer for an advertised pod is one of its own format and size, which the
    conversion understands, with no modifier or one that the pod advertises. *)
Definition exact_offer (fps : float) (pod offer : bytes) : Prop :=
  exists info fraction modifier,
    advertised_video pod = Some info /\ is_Some (raw_frame_format_for_video_format (vi_format info)) /\
    0 <> vi_width info /\ 0 <> vi_height info /\ fps_fraction fps = Some fraction /\
    serialize_pod_object (exact_cpu_format (vi_format info) (vi_width info) (vi_height info) fraction modifier) = Ok offer /\
    (forall m, modifier = Some m -> m ∈ video_modifier_values pod).

Lemma readable_format_Some info pod m :
  readable_format info pod = Some m ->
  is_Some (raw_frame_format_for_video_format (vi_format info)) /\ 0 <> vi_width info /\ 0 <> vi_height info /\
  (forall x, m = Some x -> x ∈ video_modifier_values pod).
Proof using Type.
  unfold readable_format. destruct (raw_frame_format_for_video_format _); [|done]. case_decide as Hd; [done|].
  apply not_or_and in Hd as [Hw Hh]. destruct (format_param_has_video_modifier pod).
  - intros (x & Hx%preferred_modifier_advertised & ->)%fmap_Some. split_and!; [by eexists|done..|].
    by intros ? [= <-].
  - intros [= <-]. by split_and!.
Qed.

Lemma exact_pod_Ok f w h fps m o :
  build_exact_cpu_pipewire_format_pod f w h fps m = Ok o ->
  exists fraction, fps_fraction fps = Some fraction /\ serialize_pod_object (exact_cpu_format f w h fraction m) = Ok o.
Proof using Type. unfold build_exact_cpu_pipewire_format_pod. intros (fr & Hf%ok_or_Ok & H)%bind_Ok_inv. by exists fr. Qed.

Lemma offers_for_exact fps pod offers o : offers_for fps pod = Ok offers -> o ∈ offers -> exact_offer fps pod o.
Proof using Type.
  unfold offers_for. destruct (advertised_video pod) as [info|] eqn:Ei; cbn [mbind option_bind]; [|by intros [= <-] []%elem_of_nil].
  destruct (readable_format info pod) as [m|] eqn:Em; cbn [mbind option_bind]; [|by intros [= <-] []%elem_of_nil].
  apply readable_format_Some in Em as (Hf & Hw & Hh & Hm).
  assert (forall m' o', build_exact_cpu_pipewire_format_pod (vi_format info) (vi_width info) (vi_height info) fps m' = Ok o' ->
            (forall x, m' = Some x -> x ∈ video_modifier_values pod) -> exact_offer fps pod o') as Hexact.
  { intros m' o' (fr & Hfr & Hs)%exact_pod_Ok Hm'. by exists info, fr, m'. }
  intros (plain & Hp & H)%bind_Ok_inv. apply Hexact in Hp; [|done]. destruct m as [x|].
  - apply bind_Ok_inv in H as (wm & Hwm & [= <-]). apply Hexact in Hwm; [|done].
    intros [->|[->|[]%elem_of_nil]%elem_of_cons]%elem_of_cons; done.
  - injection H as <-. by intros ->%list_elem_of_singleton.
Qed.

(** What the publisher offers PipeWire is readable: either the offers are those
    for the advertised formats, each of which the conversion understands, at its
    own size and under a modifier that was advertised or none, and each such
    format is also offered without a modifier, so that the compositor can always
    deliver memory that the processor reads; or no advertised format is
    readable, and the one offer is the default, all of whose formats the
    conversion understands. *)
Theorem offered_formats_readable advertised width height fps hz offers :
  format_offers advertised width height fps hz = Ok offers ->
  let rate := pipewire_capture_rate fps hz in
  (Forall (fun o => Exists (fun pod => exact_offer rate pod o) advertised) offers /\ offers <> [] /\
   forall pod info m, pod ∈ advertised -> advertised_video pod = Some info -> readable_format info pod = Some m ->
     exists o fraction, o ∈ offers /\ fps_fraction rate = Some fraction /\
       serialize_pod_object (exact_cpu_format (vi_format info) (vi_width info) (vi_height info) fraction None) = Ok o) \/
  (exists o fraction, offers = [o] /\ fps_fraction rate = Some fraction /\
     serialize_pod_object (default_format width height fraction) = Ok o /\
     (forall pod info, pod ∈ advertised -> advertised_video pod = Some info -> readable_format info pod = None) /\
     match default_formats with
     | ChoiceEnum f fs => Forall (fun f => is_Some (raw_frame_format_for_video_format f)) (f :: fs)
     | _ => False
     end).
Proof using Type.
  unfold format_offers. intros (derived & Hd & H)%bind_Ok_inv. apply bind_Ok_inv in H as (offered & Ho & H).
  rewrite guard_bind in H. destruct H as [_ [= <-]]. cbv zeta.
  unfold build_pipewire_format_pods_from_node_formats in Hd. apply bind_Ok_inv in Hd as (all & Hall & [= <-]).
  apply mapR_Ok in Hall.
  assert (forall pod info m, pod ∈ advertised -> advertised_video pod = Some info -> readable_format info pod = Some m ->
     exists o fraction, o ∈ concat all /\ fps_fraction (pipewire_capture_rate fps hz) = Some fraction /\
       serialize_pod_object (exact_cpu_format (vi_format info) (vi_width info) (vi_height info) fraction None) = Ok o) as Hplain.
  { intros pod info m [i Hi]%list_elem_of_lookup Hv Hm.
    destruct (Forall2_lookup_l _ _ _ _ _ Hall Hi) as (os & Hos & Hoff). unfold offers_for in Hoff.
    rewrite Hv in Hoff. cbn [mbind option_bind] in Hoff. rewrite Hm in Hoff. cbn [mbind option_bind] in Hoff.
    apply bind_Ok_inv in Hoff as (plain & (fr & Hfr & Hs)%exact_pod_Ok & Hoff).
    exists plain, fr. split; [|done]. apply list_elem_of_In, in_concat. exists os.
    split; apply list_elem_of_In; [by eapply list_elem_of_lookup_2|].
    destruct m; [apply bind_Ok_inv in Hoff as (? & _ & [= <-])|injection Hoff as <-]; by left. }
  destruct (concat all) as [|o os] eqn:E.
  - right. apply bind_Ok_inv in Ho as (d & Hd & [= <-]). unfold build_default_pipewire_format_pod in Hd.
    apply bind_Ok_inv in Hd as (fr & Hfr%ok_or_Ok & Hs). exists d, fr. split_and!; try done.
    + intros pod info Hpod Hv. destruct (readable_format info pod) as [m|] eqn:Em; [|done].
      destruct (Hplain pod info m Hpod Hv Em) as (? & ? & []%elem_of_nil & _).
    + simpl. repeat constructor; by eexists.
  - left. injection Ho as <-. split_and!; [|done|exact Hplain].
    apply Forall_forall. intros x Hx. rewrite <-E in Hx.
    apply list_elem_of_In, in_concat in Hx as (os' & [i Hi]%list_elem_of_In%list_elem_of_lookup & Hx%list_elem_of_In).
    destruct (Forall2_lookup_r _ _ _ _ _ Hall Hi) as (pod & Hpod & Hoff).
    apply Exists_exists. exists pod. split; [by eapply list_elem_of_lookup_2|]. by eapply offers_for_exact.
Qed.

(** A negotiated format reaches the buffers only at the size of the source; any
    other size fails the stream, with an error after which the publisher tries
    again. *)
Theorem other_size_fails_stream w h param n info :
  parse_format param = Some ("video", "raw")%string -> parse_video_info param (ng_format n) = (true, info) ->
  let n' := param_changed w h true (Some param) n in
  (vi_width info <> w \/ vi_height info <> h ->
   ng_updates n' = ng_updates n /\
   exists message, ng_thread n' = fail_stream message (ng_thread n) /\
     ~ is_fatal_publisher_error ["PipeWire stream failed"%string; message]) /\
  (vi_width info = w -> vi_height info = h -> ng_thread n' = ng_thread n /\ ng_format n' = info).
Proof using Type.
  intros Hp Hi. unfold param_changed. simpl. rewrite decide_True by done. rewrite Hi. simpl.
  split.
  - intros Hne. rewrite decide_True by done. simpl. split; [done|]. eexists. split; [done|].
    refine (proj1 (bool_decide_eq_false _) _). by vm_compute.
  - intros Hw Hh. rewrite decide_False by (intros [?|?]; done). by destruct (build_buffers_param_pod _ _ _ _).
Qed.
End theorems.
