(* ===== verification/Sources.v ===== *)
(** The capture sources of a publisher ([crates/publisher/src/lib.rs]): which
    interface of the desktop is used, the monitors it lists, the sessions of the
    desktop portal and of Mutter, the targets of a process with their labels,
    how a target starts its capture again, and the test patterns.

    What the desktop answers is an argument. *)
From Stdlib Require Import ZArith Lia.
From Stdlib.Floats Require Import SpecFloat.
From S2P Require Import Prelude Bytes RustStr External Float64 KnownRelays Encoder PublisherCursor.
From S2P Require Import Frames FrameThread PublisherRun PublisherPolicy.

Inductive CaptureMode : Type := CaptureWayland | CaptureTest.
Inductive ScreenCastBackend : Type := BackendAuto | BackendPortal | BackendMutter.
Inductive PortalSourceMode : Type := SourceMonitor | SourceWindow | SourceAny.
#[global] Instance backend_eq_dec : EqDecision ScreenCastBackend.
Proof. solve_decision. Defined.
#[global] Instance source_mode_eq_dec : EqDecision PortalSourceMode.
Proof. solve_decision. Defined.

Definition PORTAL_SOURCE_MONITOR : Z := 1.
Definition PORTAL_SOURCE_WINDOW : Z := 2.
Definition PORTAL_PERSIST_DO_NOT : Z := 0.
Definition PORTAL_PERSIST_UNTIL_REVOKED : Z := 2.
Definition source_mask (mode : PortalSourceMode) : Z :=
  match mode with
  | SourceMonitor => PORTAL_SOURCE_MONITOR
  | SourceWindow => PORTAL_SOURCE_WINDOW
  | SourceAny => Z.lor PORTAL_SOURCE_MONITOR PORTAL_SOURCE_WINDOW
  end.

(** A capture that a session granted. *)
Record ScreenCastCapture : Type := {
  sc_node_id : Z;
  sc_width : Z;
  sc_height : Z;
  sc_backend : ScreenCastBackend;
}.
(** The extent of a stream from its [size] property, if it has one. *)
Definition stream_extent (size : option (Z * Z)) : Z * Z :=
  match size with Some (w, h) => (Z.max w 1, Z.max h 1) | None => (1, 1) end.
Definition capture_of (backend : ScreenCastBackend) (stream : Z * option (Z * Z)) : ScreenCastCapture :=
  let '(width, height) := stream_extent stream.2 in
  {| sc_node_id := stream.1; sc_width := width; sc_height := height; sc_backend := backend |}.

(** * The compositor's monitors *)

(** The parts of [MutterMonitorSpec] and [MutterLogicalMonitor] that are read. *)
Record MonitorSpec : Type := { ms_connector : rstring; ms_vendor : rstring; ms_product : rstring }.
Record LogicalMonitor : Type := { lm_primary : bool; lm_monitors : list MonitorSpec }.
Abbreviation DisplayState := (list MonitorSpec * list LogicalMonitor)%type.

Definition primary_monitor (logical : list LogicalMonitor) : option LogicalMonitor :=
  snd <$> list_find (fun l => lm_primary l = true) logical.
Definition primary_connector (logical : list LogicalMonitor) : option rstring :=
  ms_connector <$> (primary_monitor logical ≫= fun l => head (lm_monitors l)).

Definition default_mutter_connector (state : result string DisplayState) : result string rstring :=
  let? (monitors, logical) := state in
  let from_logical := ms_connector <$>
    ((match primary_monitor logical with Some l => Some l | None => head logical end)
       ≫= fun l => head (lm_monitors l)) in
  ok_or (match from_logical with Some c => Some c | None => ms_connector <$> head monitors end)
    "the compositor reported no connected monitor to record".

(** [slice::swap(0, index)] and [Vec::dedup] *)
Definition swap_front {A} (index : nat) (l : list A) : list A :=
  match l !! 0%nat, l !! index with
  | Some first, Some x => <[0%nat := x]> (<[index := first]> l)
  | _, _ => l
  end.
Fixpoint dedup (l : list rstring) : list rstring :=
  match l with
  | x :: l' => match dedup l' with
               | y :: rest => if decide (x = y) then y :: rest else x :: y :: rest
               | [] => [x]
               end
  | [] => []
  end.
Definition list_mutter_connectors (state : result string DisplayState) : result string (list rstring) :=
  let? (monitors, logical) := state in
  let connectors := logical ≫= fun l => ms_connector <$> lm_monitors l in
  let connectors :=
    match primary_connector logical with
    | Some primary => match list_find (fun c => c = primary) connectors with
                      | Some (index, _) => swap_front index connectors
                      | None => connectors
                      end
    | None => connectors
    end in
  Ok (dedup (if decide (connectors = []) then ms_connector <$> monitors else connectors)).

(** The rows of [--list-monitors]; the display state is read twice. *)
Definition monitor_rows (first second : result string DisplayState) : result string (list (rstring * rstring * bool)) :=
  let? (monitors, logical) := first in
  let? connectors := list_mutter_connectors second in
  let described (connector : rstring) : rstring :=
    match list_find (fun m => ms_connector m = connector) monitors with
    | Some (_, m) => ms_vendor m ++ [32] ++ ms_product m
    | None => []
    end in
  Ok (map (fun connector => (connector, described connector,
                             bool_decide (primary_connector logical = Some connector))) connectors).

(** * What the desktop answers *)

(** The [Response] to a request of the portal: its code and results, or a call
    that failed, a closed request or a malformed answer. *)
Inductive PortalResponse (A : Type) : Type := Responded (code : Z) (results : A) | NoResponse.
Arguments Responded {A}. Arguments NoResponse {A}.
Definition wait_portal_response {A} (r : PortalResponse A) : result string A :=
  match r with
  | Responded code results =>
      reject_if (code <> 0) "portal request failed or was cancelled" then? Ok results
  | NoResponse => Err "portal request closed without a Response signal"
  end.
Record StartResults : Type := {
  sr_restore_token : option rstring;
  sr_streams : option (list (Z * option (Z * Z)));
}.
Record Portal : Type := {
  pa_connected : bool;
  pa_source_types : option Z;
  pa_cursor_modes : option Z;
  pa_create_session : PortalResponse (option rstring);
  pa_select_sources : PortalResponse unit;
  pa_start : PortalResponse StartResults;
  pa_open_remote : bool;
}.
(** The desktop at one time: the names in [XDG_CURRENT_DESKTOP], Mutter's version
    and displays, its answer to recording a connector with a cursor mode, and the
    portal. *)
Record Desktop : Type := {
  dk_current_desktop : option rstring;
  dk_mutter_version : option Z;
  dk_displays : result string DisplayState;
  dk_record_monitor : rstring -> Z -> bool -> result string (Z * option (Z * Z));
  dk_portal : Portal;
}.

(** [str::split(':')] *)
Fixpoint split_colons (s : rstring) : list rstring :=
  match s with
  | [] => [[]]
  | c :: s => if decide (c = 58) then [] :: split_colons s
              else match split_colons s with x :: xs => (c :: x) :: xs | [] => [[c]] end
  end.
Definition session_desktop_is_niri (d : Desktop) : bool :=
  existsb (fun entry => bool_decide (ascii_lowercase <$> entry = ascii_str "niri"))
    (split_colons (default [] (dk_current_desktop d))).
Definition resolve_screencast_backend (mode : PortalSourceMode) (d : Desktop) : ScreenCastBackend :=
  if decide (mode <> SourceMonitor \/ session_desktop_is_niri d = false) then BackendPortal
  else match dk_mutter_version d with Some _ => BackendMutter | None => BackendPortal end.
Definition selected_backend (backend : ScreenCastBackend) (mode : PortalSourceMode) (d : Desktop) :
    ScreenCastBackend :=
  match backend with BackendAuto => resolve_screencast_backend mode d | selected => selected end.
Definition monitor_list (backend : ScreenCastBackend) (mode : PortalSourceMode) (d : Desktop)
    (second : result string DisplayState) : result string (option (list (rstring * rstring * bool))) :=
  if decide (selected_backend backend mode d <> BackendMutter) then Ok None
  else Some <$> monitor_rows (dk_displays d) second.

(** * Sessions *)

(** What a session does to the desktop and to the remembered grant. *)
Inductive SessionEffect : Type :=
| SelectSources (types cursor_mode persist_mode : Z) (restore_token : option rstring)
| SaveToken (token : rstring)
| RecordMonitor (connector : rstring) (cursor_mode : Z) (is_recording : bool).
Definition session (A : Type) : Type := io string (list SessionEffect) A.
Definition effect (e : SessionEffect) : session unit := fun effects => (Ok tt, effects ++ [e]).

Section sessions.
(** Whether a text is a D-Bus object path. *)
Context (is_object_path : rstring -> bool).

(** [restore_token] is the grant's store with the token that it loaded. *)
Definition open_screencast_portal_sources (mode : PortalSourceMode) (preference : PortalCursorMode)
    (restore_token : option (option rstring)) (p : Portal) : session (list ScreenCastCapture) :=
  lift (reject_if (pa_connected p = false) "connecting to the desktop portal") then?
  let types := default (Z.lor PORTAL_SOURCE_MONITOR PORTAL_SOURCE_WINDOW) (pa_source_types p) in
  let modes := default PORTAL_CURSOR_HIDDEN (pa_cursor_modes p) in
  let mask := Z.land (source_mask mode) types in
  lift (reject_if (mask = 0) "portal source mode is not available") then?
  let? cursor_mode := lift (select_portal_cursor_mode modes preference) in
  let? created := lift (wait_portal_response (pa_create_session p)) in
  let? handle := lift (ok_or created "CreateSession response did not include session_handle") in
  lift (reject_if (is_object_path handle = false) "portal returned invalid session object path") then?
  effect (SelectSources mask cursor_mode
            (if restore_token then PORTAL_PERSIST_UNTIL_REVOKED else PORTAL_PERSIST_DO_NOT)
            (restore_token ≫= id)) then?
  lift (wait_portal_response (pa_select_sources p)) then?
  let? results := lift (wait_portal_response (pa_start p)) in
  (match restore_token, sr_restore_token results with
   | Some _, Some token => if decide (token = []) then mret tt else effect (SaveToken token)
   | _, _ => mret tt
   end) then?
  let? streams := lift (ok_or (sr_streams results) "Start response did not include streams") in
  lift (reject_if (streams = []) "portal returned no PipeWire streams") then?
  lift (reject_if (pa_open_remote p = false) "opening the PipeWire remote") then?
  mret (capture_of BackendPortal <$> streams).

(** [remove(0)] of an empty list would panic; there is always a capture. *)
Definition open_screencast_portal (mode : PortalSourceMode) (preference : PortalCursorMode) (p : Portal) :
    session ScreenCastCapture :=
  let? captures := open_screencast_portal_sources mode preference None p in
  lift (ok_or (head captures) "panic: removal index (is 0) should be < len (is 0)").

Definition open_mutter_screencast (mode : PortalSourceMode) (monitor_name : option rstring)
    (preference : PortalCursorMode) (d : Desktop) : session ScreenCastCapture :=
  lift (reject_if (mode <> SourceMonitor)
    "--screencast-backend mutter currently requires --portal-source monitor") then?
  let requested := name ← monitor_name; let name := trim name in if decide (name = []) then None else Some name in
  let? connector := lift (match requested with
    | Some name => Ok name
    | None => default_mutter_connector (dk_displays d)
    end) in
  let version := default 1 (dk_mutter_version d) in
  let? cursor_mode := lift (select_mutter_cursor_mode version preference) in
  let is_recording := bool_decide (version >= 4) in
  effect (RecordMonitor connector cursor_mode is_recording) then?
  let? stream := lift (dk_record_monitor d connector cursor_mode is_recording) in
  mret (capture_of BackendMutter stream).

Definition open_screencast_capture (backend : ScreenCastBackend) (mode : PortalSourceMode)
    (monitor_name : option rstring) (preference : PortalCursorMode) (d : Desktop) : session ScreenCastCapture :=
  match selected_backend backend mode d with
  | BackendPortal | BackendAuto => open_screencast_portal mode preference (dk_portal d)
  | BackendMutter => open_mutter_screencast mode monitor_name preference d
  end.

(** * Targets *)

Record PublishTarget : Type := {
  tg_label : option rstring;
  tg_backend : ScreenCastBackend;
  tg_connector : option rstring;
  tg_opened : option ScreenCastCapture;
}.
(** The arguments of the command line that select sources; the token is the one
    that the grant's file holds. *)
Record SourceArgs : Type := {
  sa_capture : CaptureMode;
  sa_screencast_backend : ScreenCastBackend;
  sa_portal_source : PortalSourceMode;
  sa_portal_cursor : PortalCursorMode;
  sa_monitor_name : list rstring;
  sa_all_monitors : bool;
  sa_restore_token : option rstring;
}.
(** [format!("source-{}", index + 1)] *)
Definition source_label (index : nat) : rstring :=
  ascii_str "source-" ++ decimal (S (S index)) (Z.of_nat (S index)).

Definition portal_targets (backend : ScreenCastBackend) (captures : list ScreenCastCapture) : list PublishTarget :=
  let labelled := bool_decide (1 < length captures)%nat in
  imap (fun index capture =>
    {| tg_label := if labelled then Some (source_label index) else None; tg_backend := backend;
       tg_connector := None; tg_opened := Some capture |}) captures.
Definition mutter_targets (backend : ScreenCastBackend) (connectors : list rstring) : list PublishTarget :=
  zip_with (fun label connector =>
    {| tg_label := label; tg_backend := backend; tg_connector := Some connector; tg_opened := None |})
    (mutter_labels connectors) connectors.

Definition resolve_publish_targets (args : SourceArgs) (identity : ClientIdentity) (d : Desktop) :
    session (list PublishTarget) :=
  match sa_capture args with
  | CaptureTest => mret [{| tg_label := None; tg_backend := sa_screencast_backend args; tg_connector := None;
                            tg_opened := None |}]
  | CaptureWayland =>
      let backend := selected_backend (sa_screencast_backend args) (sa_portal_source args) d in
      if decide (backend <> BackendMutter) then
        lift (reject_if (sa_monitor_name args <> [])
          "--monitor-name needs the compositor's ScreenCast interface") then?
        let? captures := open_screencast_portal_sources (sa_portal_source args) (sa_portal_cursor args)
                           (Some (sa_restore_token args)) (dk_portal d) in
        mret (portal_targets backend captures)
      else
        let? connectors := lift (
          if sa_all_monitors args || ci_all_monitors identity then
            let? all := list_mutter_connectors (dk_displays d) in
            reject_if (all = []) "--all-monitors found no connected monitor to record" then? Ok all
          else if decide (sa_monitor_name args = []) then
            let? connector := default_mutter_connector (dk_displays d) in Ok [connector]
          else Ok (sa_monitor_name args)) in
        mret (mutter_targets backend connectors)
  end.

(** * The capture of a target *)

(** [WaylandPipewireCapture], with the capture that its PipeWire thread reads. *)
Record WaylandPipewireCapture : Type := {
  wc_opened : option ScreenCastCapture;
  wc_portal_source : PortalSourceMode;
  wc_screencast_backend : ScreenCastBackend;
  wc_monitor_name : option rstring;
  wc_portal_cursor : PortalCursorMode;
  wc_inner : option ScreenCastCapture;
}.
Definition wayland_capture_new (args : SourceArgs) (target : PublishTarget) : WaylandPipewireCapture := {|
  wc_opened := tg_opened target; wc_portal_source := sa_portal_source args;
  wc_screencast_backend := tg_backend target; wc_monitor_name := tg_connector target;
  wc_portal_cursor := sa_portal_cursor args; wc_inner := None |}.
Definition with_inner (opened inner : option ScreenCastCapture) (c : WaylandPipewireCapture) :
    WaylandPipewireCapture := {|
  wc_opened := opened; wc_portal_source := wc_portal_source c; wc_screencast_backend := wc_screencast_backend c;
  wc_monitor_name := wc_monitor_name c; wc_portal_cursor := wc_portal_cursor c; wc_inner := inner |}.

(** [ensure_started] on a desktop; [thread] is whether the PipeWire thread
    starts. *)
Definition ensure_started (d : Desktop) (thread : bool) (c : WaylandPipewireCapture)
    (effects : list SessionEffect) :
    result string ScreenCastCapture * WaylandPipewireCapture * list SessionEffect :=
  match wc_inner c with
  | Some inner => (Ok inner, c, effects)
  | None =>
      let '(started, effects) :=
        match wc_opened c with
        | Some capture => (Ok capture, effects)
        | None => open_screencast_capture (wc_screencast_backend c) (wc_portal_source c) (wc_monitor_name c)
                    (wc_portal_cursor c) d effects
        end in
      match started with
      | Ok capture =>
          if thread then (Ok capture, with_inner None (Some capture) c, effects)
          else (Err "PipeWire thread failed to start", with_inner None None c, effects)
      | Err e => (Err e, with_inner None None c, effects)
      end
  end.
(** [capture_frame], whose frame is what the thread gives: a failure stops the
    capture. *)
Definition capture_frame {A} (d : Desktop) (thread : bool) (frame : result string A) (c : WaylandPipewireCapture)
    (effects : list SessionEffect) :
    result string A * WaylandPipewireCapture * list SessionEffect :=
  let '(started, c, effects) := ensure_started d thread c effects in
  match started, frame with
  | Err e, _ => (Err e, c, effects)
  | Ok _, Ok frame => (Ok frame, c, effects)
  | Ok _, Err e => (Err e, with_inner (wc_opened c) None c, effects)
  end.
End sessions.

(** * Test patterns *)

Inductive TestPatternMode : Type := PatternStatic | PatternTyping | PatternScroll | PatternMotion.
Definition u32_wrap (z : Z) : Z := z mod 2 ^ 32.
Definition pixel (r g b : Z) : rgb := (byte_of_Z (r mod 256), byte_of_Z (g mod 256), byte_of_Z (b mod 256)).
(** Sums and products that the code leaves to the build are those of a release
    build, which wraps. *)
Definition test_pattern_pixel (mode : TestPatternMode) (tick x y : Z) : rgb :=
  match mode with
  | PatternStatic => pixel (x mod 251) (y mod 241) (u32_wrap (x / 8 + y / 8) mod 239)
  | PatternTyping =>
      let typed := Z.min u32_max (tick / 4 * 24) in
      if decide (64 <= y < 88 /\ 64 <= x < Z.min u32_max (64 + typed)) then pixel 235 235 225 else pixel 24 28 34
  | PatternScroll =>
      let shifted_y := u32_wrap (y + Z.min u32_max (tick * 12)) in
      let band := (shifted_y / 48) mod 4 in
      pixel (40 + band * 35) (u32_wrap (x / 8 + band * 17) mod 255) (90 + band * 25)
  | PatternMotion =>
      pixel (u32_wrap (x + tick * 17) mod 255) (u32_wrap (y + tick * 29) mod 255)
        (u32_wrap (x / 8 + y / 8 + tick * 11) mod 255)
  end.
(** [next_rgb]: the rows of the image and the next tick. *)
Definition next_rgb (mode : TestPatternMode) (width height tick : Z) : list (list rgb) * Z :=
  let tick := u32_wrap (tick + 1) in
  ((fun y => (fun x => test_pattern_pixel mode tick x y) <$> seqZ 0 width) <$> seqZ 0 height, tick).
Definition test_pattern_cursor_visible (sequence : Z) : bool := bool_decide (sequence mod 30 < 20).

(** * Theorems *)

Lemma dedup_NoDup l : NoDup l -> dedup l = l.
Proof.
  induction 1 as [|x l Hx _ IH]; [done|]. simpl. rewrite IH. destruct l as [|y l]; [done|].
  rewrite decide_False; [done|]. intros ->. apply Hx. by left.
Qed.

Lemma swap_front_perm {A} i (l : list A) : swap_front i l ≡ₚ l.
Proof.
  unfold swap_front. destruct (l !! 0%nat) as [first|] eqn:E0; [|done].
  destruct (l !! i) as [x|] eqn:Ei; [|done]. destruct l as [|a l]; [done|]. injection E0 as ->.
  destruct i as [|i]; simpl in *; [by injection Ei as ->|].
  apply list_elem_of_split_length in Ei as (l1 & l2 & -> & ->).
  rewrite insert_app_r_alt, Nat.sub_diag by done. simpl. rewrite <-!Permutation_middle. apply Permutation_swap.
Qed.

Lemma swap_front_head {A} i (l : list A) x : l !! i = Some x -> head (swap_front i l) = Some x.
Proof.
  intros Hi. unfold swap_front. rewrite Hi. destruct l as [|a l]; [by destruct i|]. simpl.
  destruct i; [done|]. done.
Qed.

(** [--all-monitors] records every laid-out monitor once, the first monitor of
    the primary output first; the connected ones when nothing is laid out. *)
Theorem mutter_connectors_complete monitors logical connectors :
  list_mutter_connectors (Ok (monitors, logical)) = Ok connectors ->
  let laid_out := logical ≫= fun l => ms_connector <$> lm_monitors l in
  NoDup laid_out -> NoDup (ms_connector <$> monitors) ->
  connectors ≡ₚ (if decide (laid_out = []) then ms_connector <$> monitors else laid_out) /\
  NoDup connectors /\ (forall primary, primary_connector logical = Some primary -> head connectors = Some primary).
Proof.
  intros H laid_out Hl Hm. unfold list_mutter_connectors in H. cbn [mbind result_bind] in H. injection H as <-.
  fold laid_out.
  destruct (primary_connector logical) as [primary|] eqn:Ep.
  2: { rewrite dedup_NoDup by (by case_decide). split_and!; [done|by case_decide|done]. }
  assert (primary ∈ laid_out) as Hin.
  { unfold primary_connector in Ep. apply fmap_Some in Ep as (m & (l & Hl' & Hh)%bind_Some & ->).
    unfold primary_monitor in Hl'. apply fmap_Some in Hl' as ([i l'] & (Hi & _)%list_find_Some & ->).
    apply list_elem_of_bind. exists l'. split; [|by eapply list_elem_of_lookup_2].
    apply list_elem_of_fmap_2. simpl in Hh. destruct (lm_monitors l') as [|m' ms]; [done|]. injection Hh as ->. by left. }
  assert (laid_out <> []) as Hne by (intros E; rewrite E in Hin; by apply elem_of_nil in Hin).
  destruct (list_find _ _) as [[i x]|] eqn:Ef.
  2: { apply list_find_None in Ef. rewrite Forall_forall in Ef. by destruct (Ef _ Hin). }
  apply list_find_Some in Ef as (Hi & -> & _). pose proof (swap_front_perm i laid_out) as Hperm.
  assert (swap_front i laid_out <> []) as Hne'.
  { intros E. rewrite E in Hperm. by apply Permutation_nil_l in Hperm. }
  rewrite !decide_False by done.
  assert (NoDup (swap_front i laid_out)) as Hnd by (by rewrite Hperm).
  rewrite dedup_NoDup by done. split_and!; [done|done|]. intros ? [= <-]. by apply swap_front_head.
Qed.

Lemma source_label_inj i j : source_label i = source_label j -> i = j.
Proof.
  unfold source_label. intros H%app_inj_1; [|done]. destruct H as [_ H].
  assert (forall k, digits_value (decimal (S (S k)) (Z.of_nat (S k))) = Z.of_nat (S k)) as Hv.
  { intros k. apply decimal_spec; [done|]. split; [lia|]. pose proof (Z.pow_gt_lin_r 10 (Z.of_nat (S (S k)))). lia. }
  apply (f_equal digits_value) in H. rewrite !Hv in H. lia.
Qed.

Section sessions.
Context (is_object_path : rstring -> bool).

Lemma wait_portal_response_Ok {A} (r : PortalResponse A) v : wait_portal_response r = Ok v <-> r = Responded 0 v.
Proof.
  destruct r as [code results|]; [|done]. simpl. rewrite guard_bind. split.
  - intros [->%dec_stable [= <-]]. done.
  - intros [= -> ->]. by split; [intros []|].
Qed.

Lemma portal_sources_Ok mode preference restore p effects captures effects' :
  open_screencast_portal_sources is_object_path mode preference restore p effects = (Ok captures, effects') ->
  exists results streams, pa_start p = Responded 0 results /\ sr_streams results = Some streams /\
    captures = capture_of BackendPortal <$> streams.
Proof using Type.
  unfold open_screencast_portal_sources. cbv zeta.
  do 8 (intros (? & ? & _ & H)%io_bind_Ok; revert H).
  intros (results & ? & [Hs%wait_portal_response_Ok ->]%lift_Ok & H)%io_bind_Ok.
  apply io_bind_Ok in H as (? & ? & _ & H). apply io_bind_Ok in H as (streams & ? & [Hst%ok_or_Ok ->]%lift_Ok & H).
  apply io_bind_Ok in H as (? & ? & _ & H). apply io_bind_Ok in H as (? & ? & _ & H). injection H as <- _.
  by exists results, streams.
Qed.

(** The targets of one process that go through the portal have distinct labels,
    and a single one has none. *)
Theorem portal_labels_distinct backend captures :
  NoDup (tg_label <$> portal_targets backend captures) /\
  (length captures <= 1 -> Forall (fun t => tg_label t = None) (portal_targets backend captures))%nat.
Proof using Type.
  unfold portal_targets. split.
  - rewrite fmap_imap. apply NoDup_alt. intros i j x Hi Hj.
    rewrite list_lookup_imap in Hi, Hj. apply fmap_Some in Hi as (ci & Hci & ->), Hj as (cj & Hcj & Hx). simpl in Hx.
    apply lookup_lt_Some in Hci, Hcj. case_bool_decide; [|lia]. apply source_label_inj. congruence.
  - intros Hlen. rewrite bool_decide_eq_false_2 by lia. apply Forall_forall.
    intros t (i & c & -> & _)%elem_of_lookup_imap. done.
Qed.

(** Once the captures of two portal targets failed, they start again alike: each
    opens a session of its own, without the remembered grant, and records the
    first source that it grants, whatever its label is. *)
Theorem restarted_portal_targets_coincide args t1 t2 d thread effects c1 c2 :
  tg_backend t1 = BackendPortal -> tg_backend t2 = BackendPortal ->
  tg_connector t1 = None -> tg_connector t2 = None ->
  (exists e d1 th1 ef1, (capture_frame (A:=unit) is_object_path d1 th1 (Err e) (wayland_capture_new args t1) ef1).1.2 = c1) ->
  (exists e d2 th2 ef2, (capture_frame (A:=unit) is_object_path d2 th2 (Err e) (wayland_capture_new args t2) ef2).1.2 = c2) ->
  c1 = c2 /\
  let '(started, _, _) := ensure_started is_object_path d thread c1 effects in
  forall capture, started = Ok capture ->
    exists streams stream, pa_start (dk_portal d) = Responded 0 streams /\
      (sr_streams streams ≫= head) = Some stream /\ capture = capture_of BackendPortal stream.
Proof using Type.
  intros Hb1 Hb2 Hn1 Hn2 (e1 & d1 & th1 & ef1 & <-) (e2 & d2 & th2 & ef2 & <-).
  assert (forall t e d th ef, tg_backend t = BackendPortal -> tg_connector t = None ->
    (capture_frame (A:=unit) is_object_path d th (Err e) (wayland_capture_new args t) ef).1.2 =
    {| wc_opened := None; wc_portal_source := sa_portal_source args; wc_screencast_backend := BackendPortal;
       wc_monitor_name := None; wc_portal_cursor := sa_portal_cursor args; wc_inner := None |}) as Hfail.
  { intros t e d' th ef Hb Hn. unfold capture_frame, ensure_started, wayland_capture_new, with_inner. simpl.
    rewrite Hb, Hn.
    destruct (tg_opened t); [by destruct th|].
    destruct (open_screencast_capture _ _ _ _ _ _ ef) as [[c|] ef']; [|done]. by destruct th. }
  rewrite !Hfail by done. split; [done|]. unfold ensure_started. cbn [wc_inner wc_opened wc_screencast_backend wc_portal_source wc_monitor_name wc_portal_cursor].
  unfold open_screencast_capture. cbn [selected_backend].
  destruct (open_screencast_portal is_object_path _ _ _ effects) as [[c|e] ef'] eqn:E; [|done].
  destruct thread; [|done]. intros ? [= <-].
  unfold open_screencast_portal in E.
  apply io_bind_Ok in E as (captures & ef1' & E & Hc%lift_Ok). destruct Hc as [Hc%ok_or_Ok ->].
  apply portal_sources_Ok in E as (results & streams & Hs & Hstreams & ->).
  destruct streams as [|stream streams]; [done|]. injection Hc as <-. exists results, stream. by rewrite Hstreams.
Qed.
End sessions.
