(* ===== verification/FramesInv.v ===== *)
(** The pictures of the capture, proved: every layout converts back to the
    picture that it shows, the sizes that reach the encoder, and that the
    conversion of a delivered frame panics only for an image that no vector can
    hold. *)
From Stdlib Require Import ZArith Lia.
From Stdlib.Floats Require Import SpecFloat.
From S2P Require Import Prelude Bytes Float64 Cursor Encoder PublisherCursor Frames FrameThread PublisherRun.

(** * Planes *)

Lemma concat_lookup {A} (ls : list (list A)) (n i j : nat) l :
  Forall (fun l => length l = n) ls -> ls !! i = Some l -> (j < n)%nat ->
  concat ls !! (i * n + j)%nat = l !! j.
Proof.
  intros Hn. revert i. induction Hn as [|l' ls Hl _ IH]; intros [|i] Hi Hj; try done; simpl in *.
  - injection Hi as [= ->]. by rewrite lookup_app_l by lia.
  - rewrite lookup_app_r by lia. rewrite <-(IH i) by done. f_equal. lia.
Qed.
Lemma concat_length {A} (ls : list (list A)) n :
  Forall (fun l => length l = n) ls -> length (concat ls) = (length ls * n)%nat.
Proof. induction 1 as [|l ls Hl _ IH]; simpl; [done|]. rewrite length_app, IH. lia. Qed.

(** [rows] rows of [stride] bytes, each of [cells] cells and padding. *)
Definition plane_row (stride cells : Z) (pad : byte) (cell : Z -> bytes) : bytes :=
  let row := concat (cell <$> seqZ 0 cells) in row ++ replicate (Z.to_nat stride - length row) pad.
Definition plane (stride rows cells : Z) (pad : byte) (cell : Z -> Z -> bytes) : bytes :=
  concat ((fun y => plane_row stride cells pad (cell y)) <$> seqZ 0 rows).

Section plane.
Context (stride rows cells k : Z) (pad : byte) (cell : Z -> Z -> bytes).
Context (Hk : 0 <= k) (Hcells : 0 <= cells) (Hrow : k * cells <= stride).
Context (Hcell : forall y x, zlen (cell y x) = k).

Lemma cells_length y : length (concat (cell y <$> seqZ 0 cells)) = Z.to_nat (k * cells).
Proof using Hk Hcells Hcell.
  rewrite (concat_length _ (Z.to_nat k)), length_fmap, length_seqZ; [lia|].
  apply Forall_fmap, Forall_forall. intros x _. simpl. specialize (Hcell y x). lia.
Qed.
Lemma plane_row_length y : length (plane_row stride cells pad (cell y)) = Z.to_nat stride.
Proof using Hk Hcells Hcell Hrow. unfold plane_row. rewrite length_app, length_replicate, cells_length. lia. Qed.
Lemma plane_rows_length :
  Forall (fun l => length l = Z.to_nat stride) ((fun y => plane_row stride cells pad (cell y)) <$> seqZ 0 rows).
Proof using Hk Hcells Hcell Hrow. apply Forall_fmap, Forall_forall. intros y _. apply plane_row_length. Qed.
Lemma plane_length : 0 <= rows -> zlen (plane stride rows cells pad cell) = stride * rows.
Proof using Hk Hcells Hcell Hrow.
  intros Hr. unfold plane. rewrite (concat_length _ (Z.to_nat stride)) by apply plane_rows_length.
  rewrite length_fmap, length_seqZ. nia.
Qed.

Lemma plane_lookup y x j :
  0 <= y < rows -> 0 <= x < cells -> 0 <= j < k ->
  plane stride rows cells pad cell !! Z.to_nat (y * stride + x * k + j) = cell y x !! Z.to_nat j.
Proof using Hk Hcells Hcell Hrow.
  intros Hy Hx Hj. assert (x * k + j < k * cells) by nia.
  replace (Z.to_nat (y * stride + x * k + j)) with (Z.to_nat y * Z.to_nat stride + Z.to_nat (x * k + j))%nat by nia.
  unfold plane. erewrite concat_lookup; [|apply plane_rows_length| |lia].
  2: rewrite list_lookup_fmap, lookup_seqZ_lt by lia; simpl; reflexivity.
  rewrite Z.add_0_l, Z2Nat.id by lia. unfold plane_row. rewrite lookup_app_l by (rewrite cells_length; lia).
  replace (Z.to_nat (x * k + j)) with (Z.to_nat x * Z.to_nat k + Z.to_nat j)%nat by nia.
  erewrite concat_lookup; [reflexivity| |rewrite list_lookup_fmap, lookup_seqZ_lt by lia; simpl|lia].
  - apply Forall_fmap, Forall_forall. intros x' _. simpl. specialize (Hcell y x'). lia.
  - by rewrite Z.add_0_l, Z2Nat.id by lia.
Qed.
End plane.

(** * Layouts *)

(** A picture, in colours and in samples. *)
Record Picture : Type := {
  pc_rgb : Z -> Z -> rgb;
  pc_luma : Z -> Z -> byte;
  pc_chroma : Z -> Z -> byte * byte;
}.
(** The colour that a format shows at a position. *)
Definition shown_rgb (f : RawFrameFormat) (p : Picture) (x y : Z) : rgb :=
  match f with
  | RawYuy2 => let '(u, v) := pc_chroma p (x / 2) y in yuv_to_rgb (pc_luma p x y) u v
  | RawI420 => let '(u, v) := pc_chroma p (x / 2) (y / 2) in yuv_to_rgb (pc_luma p x y) u v
  | _ => pc_rgb p x y
  end.
Definition shown_image (f : RawFrameFormat) (p : Picture) (width height : Z) : RgbImage :=
  image_of width height ((fun y => (fun x => shown_rgb f p x y) <$> seqZ 0 width) <$> seqZ 0 height).

Definition packed_pixel (f : RawFrameFormat) (pad : byte) (c : rgb) : bytes :=
  let '(r, g, b) := c in
  match f with
  | RawRgb => [r; g; b]
  | RawBgr => [b; g; r]
  | RawRgba | RawRgbx => [r; g; b; pad]
  | RawBgra | RawBgrx => [b; g; r; pad]
  | RawXrgb | RawArgb => [pad; r; g; b]
  | RawXbgr | RawAbgr => [pad; b; g; r]
  | RawYuy2 | RawI420 => []
  end.
Definition yuy2_pair (p : Picture) (y k : Z) : bytes :=
  let '(u, v) := pc_chroma p k y in [pc_luma p (2 * k) y; u; pc_luma p (2 * k + 1) y; v].
(** The bytes of a row that hold samples, and the buffer of a picture. *)
Definition row_bytes (f : RawFrameFormat) (width : Z) : Z :=
  match f with RawYuy2 => 4 * half_up width | _ => bytes_per_pixel f * width end.
Definition layout (f : RawFrameFormat) (stride width height : Z) (pad : byte) (p : Picture) : bytes :=
  match f with
  | RawYuy2 => plane stride height (half_up width) pad (yuy2_pair p)
  | RawI420 =>
      plane stride height width pad (fun y x => [pc_luma p x y]) ++
      plane (half_up stride) (half_up height) (half_up width) pad (fun y x => [(pc_chroma p x y).1]) ++
      plane (half_up stride) (half_up height) (half_up width) pad (fun y x => [(pc_chroma p x y).2])
  | _ => plane stride height width pad (fun y x => packed_pixel f pad (pc_rgb p x y))
  end.

Lemma index_Ok data i b : index data i = Ok b <-> data !! Z.to_nat i = Some b.
Proof. apply ok_or_Ok. Qed.
Lemma lookup_lt_zlen {A} (l : list A) i x : 0 <= i -> l !! Z.to_nat i = Some x -> i < zlen l.
Proof. intros Hi H%lookup_lt_Some. lia. Qed.
Lemma half_up_bounds n : 0 <= n -> n <= 2 * half_up n <= n + 1.
Proof. unfold half_up. intros. pose proof (Z.div_mod (n + 1) 2). pose proof (Z.mod_pos_bound (n + 1) 2). lia. Qed.
Lemma half_lt n x : 0 <= x < n -> 0 <= x / 2 < half_up n.
Proof.
  intros. pose proof (half_up_bounds n). pose proof (Z.div_mod x 2). pose proof (Z.mod_pos_bound x 2). lia.
Qed.
Lemma u64_mul_Some a b : a * b <= u64_max -> u64_checked_mul a b = Some (a * b).
Proof. intros. unfold u64_checked_mul. by rewrite decide_True by lia. Qed.
Lemma u64_add_Some a b : a + b <= u64_max -> u64_checked_add a b = Some (a + b).
Proof. intros. unfold u64_checked_add. by rewrite decide_True by lia. Qed.
Lemma usize_add_Ok a b : a + b <= u64_max -> usize_add a b = Ok (a + b).
Proof. intros. unfold usize_add. by rewrite decide_True by lia. Qed.

Definition packed (f : RawFrameFormat) : Prop := f <> RawYuy2 /\ f <> RawI420.

Lemma packed_pixel_channels f pad r g b :
  packed f -> let '(c0, c1, c2) := channels_of f in let px := packed_pixel f pad (r, g, b) in
  px !! Z.to_nat c0 = Some r /\ px !! Z.to_nat c1 = Some g /\ px !! Z.to_nat c2 = Some b /\
  0 <= c0 < bytes_per_pixel f /\ 0 <= c1 < bytes_per_pixel f /\ 0 <= c2 < bytes_per_pixel f /\
  zlen px = bytes_per_pixel f.
Proof. intros []. destruct f; try done; simpl; split_and!; done || lia. Qed.

Lemma packed_rgb_shown f data stride x y r g b pad :
  packed f -> 0 <= x -> 0 <= y -> 0 <= stride -> zlen data <= u64_max ->
  (forall j, 0 <= j < bytes_per_pixel f ->
     data !! Z.to_nat (y * stride + x * bytes_per_pixel f + j) = packed_pixel f pad (r, g, b) !! Z.to_nat j) ->
  packed_rgb data y stride x (bytes_per_pixel f) (channels_of f) = Ok (Some (r, g, b)).
Proof.
  intros Hf Hx Hy Hs Hlen Hdata.
  pose proof (packed_pixel_channels f pad r g b Hf) as H. destruct (channels_of f) as [[c0 c1] c2].
  destruct H as (H0 & H1 & H2 & Hc0 & Hc1 & Hc2 & _). unfold packed_rgb.
  set (base := y * stride + x * bytes_per_pixel f) in *.
  assert (0 < bytes_per_pixel f) by lia. assert (0 <= y * stride) by nia. assert (0 <= x * bytes_per_pixel f) by nia.
  assert (forall c v, 0 <= c < bytes_per_pixel f -> packed_pixel f pad (r, g, b) !! Z.to_nat c = Some v ->
    index data (base + c) = Ok v /\ base + c < zlen data) as Hidx.
  { intros c v Hc Hv. assert (data !! Z.to_nat (base + c) = Some v) as Hd by (by rewrite Hdata).
    split; [by apply index_Ok|]. eapply lookup_lt_zlen; [lia|exact Hd]. }
  destruct (Hidx _ _ Hc0 H0) as [I0 L0], (Hidx _ _ Hc1 H1) as [I1 L1], (Hidx _ _ Hc2 H2) as [I2 L2].
  rewrite !u64_mul_Some by lia. cbn [mbind option_bind]. rewrite !u64_add_Some by lia. cbn [mbind option_bind].
  fold base. rewrite u64_add_Some by lia. cbn [mbind option_bind]. rewrite decide_False by lia. by rewrite I0, I1, I2.
Qed.

(** A buffer of a layout, and the reads of its samples. *)
Definition layout_frame (serial : Z) (f : RawFrameFormat) (stride width height : Z) (pad : byte) (p : Picture) :
    RawFrame := {|
  rf_serial := serial; rf_width := width; rf_height := height; rf_stride := stride; rf_format := f;
  rf_data := layout f stride width height pad p |}.

Section layouts.
Context (serial stride width height : Z) (pad : byte) (p : Picture).
Context (Hwidth : 0 <= width <= u32_max) (Hheight : 0 <= height <= u32_max).

Lemma packed_layout_rgb f x y :
  packed f -> bytes_per_pixel f * width <= stride -> stride * height <= u64_max ->
  0 <= x < width -> 0 <= y < height ->
  raw_pixel_rgb (layout_frame serial f stride width height pad p) x y = Ok (Some (pc_rgb p x y)).
Proof using Hwidth Hheight.
  intros Hf Hrow Hsize Hx Hy. destruct (pc_rgb p x y) as [[r g] b] eqn:Ec.
  assert (forall y x, zlen (packed_pixel f pad (pc_rgb p x y)) = bytes_per_pixel f) as Hcell.
  { intros y' x'. destruct (pc_rgb p x' y') as [[r' g'] b'].
    pose proof (packed_pixel_channels f pad r' g' b' Hf) as H. destruct (channels_of f) as [[? ?] ?]. apply H. }
  assert (0 < bytes_per_pixel f) by (destruct f; simpl; lia).
  assert (layout f stride width height pad p =
    plane stride height width pad (fun y x => packed_pixel f pad (pc_rgb p x y))) as Hl
    by (destruct Hf; by destruct f).
  transitivity (packed_rgb (layout f stride width height pad p) y stride x (bytes_per_pixel f) (channels_of f)).
  { destruct Hf. by destruct f. }
  rewrite Hl. apply packed_rgb_shown with pad; [done|lia|lia|nia| |].
  - rewrite (plane_length stride height width (bytes_per_pixel f)); [done|lia|lia|done|done|lia].
  - intros j Hj. rewrite (plane_lookup stride height width (bytes_per_pixel f)); try done; try lia.
    by rewrite Ec.
Qed.

Lemma yuy2_layout_rgb x y :
  4 * half_up width <= stride -> stride * height <= u64_max -> 0 <= x < width -> 0 <= y < height ->
  raw_pixel_rgb (layout_frame serial RawYuy2 stride width height pad p) x y = Ok (Some (shown_rgb RawYuy2 p x y)).
Proof using Hwidth Hheight.
  intros Hrow Hsize Hx Hy. pose proof (half_lt width x Hx) as Hk. pose proof (half_up_bounds width).
  unfold raw_pixel_rgb, layout_frame, yuy2_rgb. cbn [rf_format rf_stride rf_data layout].
  assert (forall y x, zlen (yuy2_pair p y x) = 4) as Hcell
    by (intros y' x'; unfold yuy2_pair; by destruct (pc_chroma p x' y')).
  set (data := plane stride height (half_up width) pad (yuy2_pair p)).
  assert (zlen data = stride * height) as Hlen by (apply (plane_length _ _ _ 4); try done; lia).
  assert (forall j v, 0 <= j < 4 -> yuy2_pair p y (x / 2) !! Z.to_nat j = Some v ->
    index data (y * stride + x / 2 * 4 + j) = Ok v) as Hidx.
  { intros j v Hj Hv. apply index_Ok. unfold data. rewrite (plane_lookup _ _ _ 4); try done; lia. }
  assert (y * stride + x / 2 * 4 + 4 <= stride * height) as Hfit by nia.
  assert (0 <= y * stride) by nia.
  rewrite !u64_mul_Some by lia. cbn [mbind option_bind]. rewrite u64_add_Some by lia.
  rewrite usize_add_Ok by lia. cbn [mbind result_bind].
  rewrite (decide_False (P := _ >= zlen data)) by lia.
  unfold yuy2_pair in Hidx. destruct (pc_chroma p (x / 2) y) as [u v] eqn:Ec.
  rewrite (Hidx 1 u), (Hidx 3 v) by (done || lia). cbn [shown_rgb]. rewrite Ec.
  pose proof (Z.div_mod x 2). pose proof (Z.mod_pos_bound x 2).
  rewrite (Hidx _ (pc_luma p x y)); [done|case_decide; lia|].
  case_decide; simpl; repeat f_equal; lia.
Qed.

Lemma i420_layout_rgb x y :
  width <= stride ->
  stride * height + half_up stride * half_up height * 2 <= u64_max -> 0 <= x < width -> 0 <= y < height ->
  raw_pixel_rgb (layout_frame serial RawI420 stride width height pad p) x y = Ok (Some (shown_rgb RawI420 p x y)).
Proof using Hwidth Hheight.
  intros Hrow Hsize Hx Hy. pose proof (half_lt width x Hx). pose proof (half_lt height y Hy).
  pose proof (half_up_bounds width). pose proof (half_up_bounds height). pose proof (half_up_bounds stride).
  assert (half_up width <= half_up stride) by (unfold half_up; apply Z.div_le_mono; lia).
  unfold raw_pixel_rgb, layout_frame, i420_rgb, i420_offsets.
  cbn [rf_format rf_stride rf_width rf_height rf_data layout]. rewrite Z.max_l by lia.
  set (us := half_up stride) in *. set (uh := half_up height) in *.
  set (yp := plane stride height width pad (fun y x => [pc_luma p x y])).
  set (up := plane us uh (half_up width) pad (fun y x => [(pc_chroma p x y).1])).
  set (vp := plane us uh (half_up width) pad (fun y x => [(pc_chroma p x y).2])).
  assert (zlen yp = stride * height) as Hy0 by (apply (plane_length _ _ _ 1); try done; lia).
  assert (zlen up = us * uh) as Hu0 by (apply (plane_length _ _ _ 1); try done; lia).
  assert (zlen vp = us * uh) as Hv0 by (apply (plane_length _ _ _ 1); try done; lia).
  assert (index (yp ++ up ++ vp) (y * stride + x) = Ok (pc_luma p x y)) as Iy.
  { apply index_Ok. rewrite lookup_app_l by nia. replace (y * stride + x) with (y * stride + x * 1 + 0) by lia.
    unfold yp. rewrite (plane_lookup _ _ _ 1); try done; lia. }
  assert (forall ch (f : byte * byte -> byte), ch = plane us uh (half_up width) pad (fun y x => [f (pc_chroma p x y)]) ->
    ch !! Z.to_nat (y / 2 * us + x / 2) = Some (f (pc_chroma p (x / 2) (y / 2)))) as Hch.
  { intros ch f ->. replace (y / 2 * us + x / 2) with (y / 2 * us + x / 2 * 1 + 0) by lia.
    rewrite (plane_lookup _ _ _ 1); try done; lia. }
  assert (0 <= y / 2 * us + x / 2 < us * uh) as Hoff by nia.
  assert (index (yp ++ up ++ vp) (stride * height + (y / 2 * us + x / 2)) = Ok (pc_chroma p (x / 2) (y / 2)).1) as Iu.
  { apply index_Ok. rewrite lookup_app_r by nia. rewrite lookup_app_l by nia.
    rewrite <-(Hch up fst) by done. f_equal. nia. }
  assert (index (yp ++ up ++ vp) (stride * height + us * uh + (y / 2 * us + x / 2)) =
    Ok (pc_chroma p (x / 2) (y / 2)).2) as Iv.
  { apply index_Ok. rewrite lookup_app_r by nia. rewrite lookup_app_r by nia.
    rewrite <-(Hch vp snd) by done. f_equal. nia. }
  assert (0 <= y * stride + x < stride * height) by nia.
  repeat first [rewrite u64_mul_Some by nia | rewrite u64_add_Some by nia | progress cbn [mbind option_bind]].
  rewrite !zlen_app. rewrite decide_False by lia. rewrite Iy, Iu, Iv. cbn [mbind result_bind shown_rgb].
  by destruct (pc_chroma p (x / 2) (y / 2)).
Qed.

Lemma layout_length f :
  row_bytes f width <= stride ->
  zlen (layout f stride width height pad p) =
    match f with RawI420 => stride * height + half_up stride * half_up height * 2 | _ => stride * height end.
Proof using Hwidth Hheight.
  intros Hrow. pose proof (half_up_bounds width). pose proof (half_up_bounds height).
  destruct (decide (f = RawYuy2)) as [->|]; [|destruct (decide (f = RawI420)) as [->|]]; simpl in Hrow.
  - apply (plane_length _ _ _ 4); [lia..| |lia]. intros y x. unfold yuy2_pair. by destruct (pc_chroma p x y).
  - pose proof (half_up_bounds stride).
    assert (half_up width <= half_up stride) by (unfold half_up; apply Z.div_le_mono; lia).
    simpl. rewrite !zlen_app, !(plane_length _ _ _ 1); done || lia.
  - transitivity (stride * height); [|by destruct f].
    transitivity (zlen (plane stride height width pad (fun y x => packed_pixel f pad (pc_rgb p x y)))); [by destruct f|].
    apply (plane_length _ _ _ (bytes_per_pixel f)); [destruct f; simpl; lia|lia|by destruct f| |lia].
    intros y x. destruct (pc_rgb p x y) as [[r g] b].
    pose proof (packed_pixel_channels f pad r g b) as H1. destruct (channels_of f) as [[? ?] ?]. by apply H1.
Qed.
End layouts.

Lemma mapR_all_Ok {E A B} (f : A -> result E B) (g : A -> B) l :
  (forall x, x ∈ l -> f x = Ok (g x)) -> mapR f l = Ok (g <$> l).
Proof.
  intros H. apply mapR_Ok. induction l as [|x l IH]; [constructor|]. constructor; [apply H; left|].
  apply IH. intros. apply H. by right.
Qed.

(** C28: every layout reads back: the buffer of a picture in any of the twelve
    formats, with rows of any sufficient stride and any padding, has exactly the
    size that the capture computes for it, and is converted to the image of the
    picture: for a packed format its colours, for the others the colours of its
    samples, whatever the parity of the width and the height.  The one exception
    is a picture whose image exceeds the limit of a vector, 2^63 - 1 bytes: the
    conversion panics then. *)
Theorem layout_roundtrip serial f stride width height pad p size :
  0 <= width <= u32_max -> 0 <= height <= u32_max -> row_bytes f width <= stride ->
  expected_frame_size_from_stride f stride width height = Some size ->
  let frame := layout_frame serial f stride width height pad p in
  zlen (rf_data frame) = size /\
  raw_frame_to_rgb_image frame =
    if decide (3 * width * height <= i64_max) then Ok (shown_image f p width height)
    else Err CapacityOverflow.
Proof.
  intros Hw Hh Hrow Hsize frame. pose proof (half_up_bounds width). pose proof (half_up_bounds height).
  assert (zlen (rf_data frame) = size /\ size <= u64_max) as [Hlen Hmax].
  { unfold frame. cbn [layout_frame rf_data]. rewrite layout_length by done.
    destruct f; try (simpl in Hsize |- *; int_inv; lia). unfold row_bytes, bytes_per_pixel in Hrow.
    assert (half_up width <= half_up stride) by (unfold half_up; apply Z.div_le_mono; lia).
    cbn [expected_frame_size_from_stride] in Hsize. rewrite Z.max_l in Hsize by done.
    repeat (apply bind_Some in Hsize as (? & ? & Hsize)). int_inv. lia. }
  split; [done|]. unfold frame in Hlen. cbn [layout_frame rf_data] in Hlen. rewrite layout_length in Hlen by done.
  assert (forall x y, 0 <= x < width -> 0 <= y < height ->
    raw_pixel_rgb frame x y = Ok (Some (shown_rgb f p x y))) as Hpx.
  { intros x y Hx Hy. destruct (decide (f = RawYuy2)) as [->|]; [|destruct (decide (f = RawI420)) as [->|]].
    - apply yuy2_layout_rgb; done || lia.
    - simpl in Hrow. apply i420_layout_rgb; lia.
    - assert (shown_rgb f p x y = pc_rgb p x y) as -> by (by destruct f).
      apply packed_layout_rgb; try done; [by destruct f|]. destruct f; try done; simpl in Hlen |- *; lia. }
  unfold raw_frame_to_rgb_image, image_new. cbn [frame layout_frame rf_width rf_height].
  case_decide; [rewrite reject_if_false by lia|unfold reject_if; by rewrite decide_True by lia].
  cbn [mbind result_bind]. erewrite mapR_all_Ok; [reflexivity|]. intros y Hy%elem_of_seqZ. apply mapR_all_Ok.
  intros x Hx%elem_of_seqZ. simpl. unfold frame in Hpx. by rewrite Hpx by lia.
Qed.

(** * When the conversion panics *)

(** The conversion of any frame whose extents are those of the types gives an
    image of its size; only the unchecked sum of the YUY2 reader needs the row
    length. *)
Record frame_ok (f : RawFrame) : Prop := {
  fo_width : 0 <= rf_width f <= u32_max;
  fo_height : 0 <= rf_height f <= u32_max;
  fo_stride : 0 <= rf_stride f;
  fo_yuy2 : rf_format f = RawYuy2 -> rf_stride f <= u32_max;
}.

Lemma index_in_range data i : (0 <= i < zlen data) -> exists b, index data i = Ok b.
Proof.
  intros Hi. destruct (lookup_lt_is_Some_2 data (Z.to_nat i)) as [b Hb]; [lia|]. exists b. by apply index_Ok.
Qed.

Lemma packed_rgb_total data y stride x n c0 c1 c2 :
  0 <= y -> 0 <= stride -> 0 <= x -> 0 <= n -> 0 <= c0 -> 0 <= c1 -> 0 <= c2 ->
  exists o, packed_rgb data y stride x n (c0, c1, c2) = Ok o.
Proof.
  intros. unfold packed_rgb. case_match eqn:E; [|by eexists]. destruct p as [base last].
  repeat (apply bind_Some in E as (? & ? & E)). int_inv. injection E as [= <- <-].
  case_decide; [by eexists|]. assert (0 <= y * stride) by nia. assert (0 <= x * n) by nia.
  destruct (index_in_range data (y * stride + x * n + c0)) as [r ->]; [lia|].
  destruct (index_in_range data (y * stride + x * n + c1)) as [g ->]; [lia|].
  destruct (index_in_range data (y * stride + x * n + c2)) as [b ->]; [lia|]. by eexists.
Qed.
Lemma yuy2_rgb_total f x y :
  frame_ok f -> rf_format f = RawYuy2 -> 0 <= x < rf_width f -> 0 <= y < rf_height f ->
  exists o, yuy2_rgb f x y = Ok o.
Proof.
  intros [Hw Hh Hs Hy] Hf Hx Hyy. specialize (Hy Hf). unfold yuy2_rgb. case_match eqn:E; [|by eexists].
  repeat (apply bind_Some in E as (? & ? & E)). int_inv.
  pose proof (Z.div_mod x 2). pose proof (Z.mod_pos_bound x 2). assert (0 <= y * rf_stride f) by nia.
  assert (y * rf_stride f <= (u32_max - 1) * u32_max) by (unfold u32_max in *; nia).
  rewrite usize_add_Ok by ints. cbn [mbind result_bind]. case_decide; [by eexists|].
  set (base := y * rf_stride f + x / 2 * 4) in *.
  destruct (index_in_range (rf_data f) (base + (if decide (x mod 2 = 0) then 0 else 2))) as [a ->]; [case_decide; lia|].
  destruct (index_in_range (rf_data f) (base + 1)) as [u ->]; [lia|].
  destruct (index_in_range (rf_data f) (base + 3)) as [v ->]; [lia|]. by eexists.
Qed.
Lemma i420_rgb_total f x y :
  frame_ok f -> 0 <= x < rf_width f -> 0 <= y < rf_height f -> exists o, i420_rgb f x y = Ok o.
Proof.
  intros [Hw Hh Hs _] Hx Hy. unfold i420_rgb, i420_offsets. set (ys := Z.max (rf_stride f) (rf_width f)).
  assert (0 <= ys) by lia. pose proof (half_up_bounds ys). pose proof (half_up_bounds (rf_height f)).
  pose proof (half_lt _ x Hx). pose proof (half_lt _ y Hy).
  case_match eqn:E; [|by eexists]. destruct p as [[yo uo] vo].
  repeat (apply bind_Some in E as (? & ? & E)). int_inv. injection E as [= <- <- <-].
  case_decide; [by eexists|].
  assert (0 <= y * ys) by nia. assert (0 <= ys * rf_height f) by nia.
  assert (0 <= half_up ys * half_up (rf_height f)) by nia. assert (0 <= y / 2 * half_up ys) by nia.
  edestruct index_in_range as [a ->]; [|edestruct index_in_range as [u ->]; [|edestruct index_in_range as [v ->]]];
    [lia..|]. by eexists.
Qed.
Lemma raw_pixel_total f x y :
  frame_ok f -> 0 <= x < rf_width f -> 0 <= y < rf_height f -> exists o, raw_pixel_rgb f x y = Ok o.
Proof.
  intros Hf Hx Hy. unfold raw_pixel_rgb. pose proof (fo_stride _ Hf).
  destruct (rf_format f) eqn:E; try (apply packed_rgb_total; simpl; lia);
    [by apply yuy2_rgb_total|by apply i420_rgb_total].
Qed.

Lemma image_raw_length w h rows :
  length rows = Z.to_nat h -> Forall (fun row => length row = Z.to_nat w) rows -> 0 <= w -> 0 <= h ->
  zlen (im_raw (image_of w h rows)) = 3 * w * h.
Proof.
  intros Hl Hr Hw Hh. unfold image_of. cbn [im_raw].
  rewrite (concat_length _ 3).
  2: { apply Forall_forall. intros l (row & Hl' & _)%list_elem_of_bind.
       apply list_elem_of_fmap in Hl' as ([[? ?] ?] & -> & _). done. }
  assert (length (rows ≫= fun row => rgb_bytes <$> row) = (Z.to_nat h * Z.to_nat w)%nat) as ->; [|nia].
  rewrite <-Hl. clear Hl. induction Hr as [|row rows Hrow _ IH]; [done|].
  rewrite bind_cons, length_app, length_fmap, IH. simpl. lia.
Qed.

Lemma conversion_total f :
  frame_ok f -> 3 * rf_width f * rf_height f <= i64_max -> exists image, raw_frame_to_rgb_image f = Ok image /\
    im_width image = rf_width f /\ im_height image = rf_height f /\
    zlen (im_raw image) = 3 * rf_width f * rf_height f.
Proof.
  intros Hf Hfit. unfold raw_frame_to_rgb_image, image_new.
  rewrite reject_if_false by lia. cbn [mbind result_bind].
  destruct (mapR_total (fun y => mapR (fun x => default black <$> raw_pixel_rgb f x y) (seqZ 0 (rf_width f)))
              (seqZ 0 (rf_height f))) as [rows Hrows].
  { intros y Hy%elem_of_seqZ. apply mapR_total. intros x Hx%elem_of_seqZ.
    destruct (raw_pixel_total f x y) as [o ->]; [done|lia|lia|]. by eexists. }
  rewrite Hrows. eexists. split; [reflexivity|]. split; [done|]. split; [done|].
  apply mapR_Ok in Hrows. destruct (fo_width _ Hf), (fo_height _ Hf).
  apply image_raw_length; [|apply Forall_forall|lia|lia].
  - apply Forall2_length in Hrows. rewrite length_seqZ in Hrows. lia.
  - intros row Hrow. apply list_elem_of_lookup in Hrow as [i Hi].
    apply (Forall2_lookup_r _ _ _ _ _ Hrows) in Hi as (y & _ & Hy).
    apply mapR_Ok, Forall2_length in Hy. rewrite length_seqZ in Hy. lia.
Qed.

Lemma conversion_too_large f :
  3 * rf_width f * rf_height f > i64_max -> raw_frame_to_rgb_image f = Err CapacityOverflow.
Proof. intros H. unfold raw_frame_to_rgb_image, image_new, reject_if. by rewrite decide_True. Qed.

(** * The read-back paths *)

Section readback.
Context `{drivers : !ReadbackDrivers}.

(** A run of requests, each with its target size. *)
Fixpoint readback_run (call : nat) (requests : list (ReadbackRequest * (Z * Z))) (g : GpuReadback) :
    list (result string DmaBufReadback) :=
  match requests with
  | [] => []
  | (q, (w, h)) :: requests =>
      let '(r, g) := copy_dmabuf_scaled call q w h g in r :: readback_run (S call) requests g
  end.

(** Pixels that a driver gave, by its path. *)
Definition from_gbm (r : result string DmaBufReadback) : Prop :=
  exists call plane data stride, gbm_map call plane = Ok (data, stride) /\
    exists width height format, r = Ok {| dr_data := data; dr_stride := stride; dr_width := width;
      dr_height := height; dr_format := format; dr_path := "gbm" |}.
Definition from_egl (r : result string DmaBufReadback) : Prop :=
  exists call plane w h b, egl_read call plane w h = Ok b /\
    r = Ok {| dr_data := rb_data b; dr_stride := rb_stride b; dr_width := rb_width b; dr_height := rb_height b;
              dr_format := match rb_layout b with LayoutRgba => RawRgbx | LayoutBgra => RawBgrx end;
              dr_path := "egl" |}.

Lemma fourcc_has_raw_format f fourcc :
  drm_fourcc_for_video_format f = Some fourcc -> is_Some (raw_frame_format_for_video_format f).
Proof. destruct f; try done; intros _; by eexists. Qed.

(** What one request does to the latches. *)
Lemma copy_dmabuf_cases call q w h g r g' :
  copy_dmabuf_scaled call q w h g = (r, g') ->
  (gbm_unusable g = false /\ g' = g /\ from_gbm r /\
     forall x, r = Ok x -> dr_width x = rq_width q /\ dr_height x = rq_height q) \/
  (egl_unusable g = false /\ gbm_unusable g' = true /\ egl_unusable g' = false /\ from_egl r) \/
  (gbm_unusable g' = true /\ egl_unusable g' = true /\ is_ok r = false).
Proof.
  assert (forall failed g, gbm_unusable g = true ->
    (if egl_unusable g then (Err "no driver-backed readback path remains", g)
     else match copy_dmabuf_with_egl call q w h with
          | Ok readback => (Ok readback, g)
          | Err _ => (Err (if failed : bool then "GBM readback also failed" else "EGL readback failed"),
                      {| gbm_unusable := gbm_unusable g; egl_unusable := true |})
          end) = (r, g') ->
    (egl_unusable g = false /\ gbm_unusable g' = true /\ egl_unusable g' = false /\ from_egl r) \/
    (gbm_unusable g' = true /\ egl_unusable g' = true /\ is_ok r = false)) as Hegl.
  { intros failed g1 Hg. destruct (egl_unusable g1) eqn:Ee; [intros [= <- <-]; auto|].
    destruct (copy_dmabuf_with_egl call q w h) as [b|] eqn:E; intros [= <- <-]; [left|right; auto].
    split; [done|]. split; [done|]. split; [done|]. unfold copy_dmabuf_with_egl in E.
    repeat (apply bind_Ok_inv in E as (? & ? & E)). injection E as [= <-]. unfold from_egl. eauto 10. }
  unfold copy_dmabuf_scaled. destruct (gbm_unusable g) eqn:Eg.
  { intros H. right. apply (Hegl false g Eg). by rewrite Eg. }
  destruct (copy_dmabuf_with_gbm call q) as [[data stride]|e] eqn:E.
  - intros H. left. unfold copy_dmabuf_with_gbm in E. rewrite guard_bind in E. destruct E as [_ E].
    apply bind_Ok_inv in E as (fourcc & Hf%ok_or_Ok & E). rewrite guard_bind in E. destruct E as [_ E].
    apply bind_Ok_inv in E as (? & _ & E). rewrite unit_bind in E. destruct E as [_ E].
    destruct (fourcc_has_raw_format _ _ Hf) as [format Hfmt]. rewrite Hfmt in H. injection H as [= <- <-].
    split; [done|]. split; [done|]. split; [unfold from_gbm; eauto 10|]. by intros ? [= <-].
  - intros H. right. destruct (Hegl true {| gbm_unusable := true; egl_unusable := egl_unusable g |} eq_refl H) as [(? & ? & ? & ?)|?]; auto.
Qed.

(** Pixels of a GPU buffer only ever come from a driver: the results of a run
    of read-backs are first those that GBM gave, from its first failure on those
    that EGL gave, and from the first failure of EGL on errors; no path is tried
    again, and the bytes of the buffer itself are never used. *)
Theorem readback_paths requests call :
  exists gbm egl failed, readback_run call requests gpu_readback_new = gbm ++ egl ++ failed /\
    Forall from_gbm gbm /\ Forall from_egl egl /\ Forall (fun r => is_ok r = false) failed.
Proof.
  assert (forall requests call g, gbm_unusable g = true -> egl_unusable g = true ->
    Forall (fun r => is_ok r = false) (readback_run call requests g)) as Hfailed.
  { clear. intros requests. induction requests as [|[q [w h]] requests IH]; intros call g Hg He; [constructor|].
    simpl. destruct (copy_dmabuf_scaled call q w h g) as [r g'] eqn:E.
    apply copy_dmabuf_cases in E as [(? & _)|[(? & _)|(? & ? & ?)]]; [congruence..|]. constructor; [done|]. by apply IH. }
  assert (forall requests call g, gbm_unusable g = true -> egl_unusable g = false ->
    exists egl failed, readback_run call requests g = egl ++ failed /\ Forall from_egl egl /\
      Forall (fun r => is_ok r = false) failed) as Hegl.
  { clear requests call. intros requests. induction requests as [|[q [w h]] requests IH]; intros call g Hg He;
      [by exists [], []|].
    simpl. destruct (copy_dmabuf_scaled call q w h g) as [r g'] eqn:E.
    apply copy_dmabuf_cases in E as [(? & _)|[(_ & Hg' & He' & Hr)|(Hg' & He' & Hr)]]; [congruence| |].
    - destruct (IH (S call) g' Hg' He') as (egl & failed & -> & ? & ?). exists (r :: egl), failed. auto.
    - eexists [], _. split; [reflexivity|]. split; [done|]. constructor; [done|]. by apply Hfailed. }
  generalize gpu_readback_new, (eq_refl : gbm_unusable gpu_readback_new = false).
  revert call. induction requests as [|[q [w h]] requests IH]; intros call g Hg; [by exists [], [], []|].
  simpl. destruct (copy_dmabuf_scaled call q w h g) as [r g'] eqn:E.
  apply copy_dmabuf_cases in E as [(_ & -> & Hr & _)|[(_ & Hg' & He' & Hr)|(Hg' & He' & Hr)]].
  - destruct (IH (S call) g Hg) as (gbm & egl & failed & -> & ? & ? & ?). exists (r :: gbm), egl, failed. auto.
  - destruct (Hegl requests (S call) g' Hg' He') as (egl & failed & -> & ? & ?).
    exists [], (r :: egl), failed. auto.
  - eexists [], [], _. split; [reflexivity|]. split; [done|]. split; [done|]. constructor; [done|]. by apply Hfailed.
Qed.
End readback.

(** * From a buffer to the encoder *)

Class ReadbackDriversLaws `{!ReadbackDrivers} : Prop := {
  gbm_map_stride call plane data stride : gbm_map call plane = Ok (data, stride) -> 0 <= stride <= u32_max;
  egl_read_extent call plane w h b : egl_read call plane w h = Ok b ->
    0 <= rb_width b <= u32_max /\ 0 <= rb_height b <= u32_max /\ 0 <= rb_stride b;
}.

Section process.
Context `{libspa : !Libspa, files : !FileMapping, drivers : !ReadbackDrivers}.
Context `{drivers_laws : !ReadbackDriversLaws}.

(** A delivered buffer: the negotiated format, its metadata and data blocks, and
    the instants.  The extents have the types of libspa. *)
Record Delivery : Type := {
  dl_info : VideoInfo;
  dl_metas : list SpaMeta;
  dl_datas : list SpaData;
  dl_cursor_now : Z;
  dl_now : Z;
}.
Definition delivery_ok (d : Delivery) : Prop :=
  u32_ok (vi_width (dl_info d)) /\ u32_ok (vi_height (dl_info d)) /\
  Forall (fun s => i32_ok (sd_stride s)) (dl_datas d).
Fixpoint process_run (call : nat) (deliveries : list Delivery) (t : FrameThread) : FrameThread :=
  match deliveries with
  | [] => t
  | d :: deliveries =>
      process_run (S call) deliveries
        (process_buffer call (dl_info d) (dl_metas d) (dl_datas d) (dl_cursor_now d) (dl_now d) t).2
  end.

Definition latest_ok (t : FrameThread) : Prop := forall f, ft_latest t = Some f -> frame_ok f.

Lemma deliver_ok data stride format width height t :
  u32_ok width -> u32_ok height -> 0 <= stride -> (format = RawYuy2 -> stride <= u32_max) ->
  latest_ok (deliver data stride format width height t).
Proof. intros Hw Hh Hs Hy f [= <-]. by split. Qed.

Lemma copy_frame_ok call i format d size t :
  u32_ok (vi_width i) -> u32_ok (vi_height i) -> 0 < sd_stride d -> i32_ok (sd_stride d) ->
  latest_ok t -> latest_ok (copy_frame call i format d size t).
Proof using drivers_laws.
  intros Hw Hh Hs Hi Ht. unfold copy_frame. case_match.
  - case_match; [|done]. destruct (fit_even_dimensions _ _ _ _) as [tw th].
    destruct (copy_dmabuf_scaled _ _ _ _ _) as [r g] eqn:E. destruct r as [r|]; [|by intros f Hf; apply Ht].
    apply copy_dmabuf_cases in E as [(_ & _ & Hr & Hq)|[(_ & _ & _ & Hr)|(_ & _ & [=])]].
    + destruct (Hq _ eq_refl) as [Ew Eh]. destruct Hr as (? & ? & ? & stride & Hmap & w & h & f & [= ->]).
      simpl in Ew, Eh. subst. apply gbm_map_stride in Hmap as []. apply deliver_ok; simpl; [done..|]. by intros _.
    + destruct Hr as (? & ? & ? & ? & b & Hread & [= ->]). apply egl_read_extent in Hread as (? & ? & ?).
      apply deliver_ok; simpl; [done..|]. by destruct (rb_layout b).
  - case_match; [|done]. case_match; [|by intros f Hf; apply Ht].
    apply deliver_ok; [done|done|lia|]. intros _. unfold i32_ok, u32_max in *. lia.
Qed.

Lemma process_buffer_ok call d t :
  delivery_ok d -> latest_ok t ->
  latest_ok (process_buffer call (dl_info d) (dl_metas d) (dl_datas d) (dl_cursor_now d) (dl_now d) t).2.
Proof using drivers_laws.
  intros (Hw & Hh & Hd) Ht. unfold process_buffer. case_decide; [done|].
  destruct (maybe_emit_pipewire_cursor _ _ _ _ _) as [emitted u].
  assert (latest_ok (set_frame_cursor u t)) as Hu by (intros f Hf; by apply Ht).
  destruct emitted as [[]|]; [|done|done]. destruct (dl_datas d) as [|s datas]; [done|].
  destruct (raw_frame_format_for_video_format _) as [format|]; [|done]. case_decide; [done|].
  destruct (if decide _ then _ else _); [|done]. case_decide; [done|]. inversion_clear Hd.
  apply copy_frame_ok; [done|done|lia|done|]. intros f Hf. by apply Ht.
Qed.
Lemma process_run_ok call deliveries t :
  Forall delivery_ok deliveries -> latest_ok t -> latest_ok (process_run call deliveries t).
Proof using drivers_laws.
  intros Hd. revert call t. induction Hd as [|d deliveries Hd _ IH]; intros call t Ht; [done|].
  simpl. apply IH. by apply process_buffer_ok.
Qed.

Lemma next_frame_spec looks last r last' :
  next_frame looks last = (r, last') ->
  match r with
  | Ok f => exists look, look ∈ looks /\ lk_latest look = Some f /\ rf_serial f <> last /\ last' = rf_serial f
  | Err _ => last' = last
  end.
Proof using Type.
  induction looks as [|look looks IH]; simpl; [by intros [= <- <-]|].
  destruct (lk_error look); [by intros [= <- <-]|].
  destruct (lk_latest look) as [f|] eqn:E; [case_decide as Hs|].
  - intros H%IH. destruct r; [|done]. destruct H as (? & ? & ?). eexists. split; [by right|done].
  - intros [= <- <-]. exists look. split; [by left|done].
  - intros H%IH. destruct r; [|done]. destruct H as (? & ? & ?). eexists. split; [by right|done].
Qed.

(** C27: a captured frame becomes a picture.  Whatever buffers the compositor
    delivers and whatever the drivers and the kernel answer, a frame that the
    capture takes from the stream is a new one.  If the image fits a vector, at
    most 2^63 - 1 bytes, the conversion reads nothing out of range, does not
    overflow and gives an image of the frame's size, and if that fits the bounds,
    the encoder gets exactly this image; extents whose image would be larger,
    which the types allow, make the conversion panic. *)
Theorem captured_frame_converts `{scaler : !ImageScaler} t looks last f last' max_width max_height :
  ft_latest t = None ->
  Forall (fun look => exists call deliveries, Forall delivery_ok deliveries /\
            lk_latest look = ft_latest (process_run call deliveries t)) looks ->
  next_frame looks last = (Ok f, last') ->
  rf_serial f <> last /\ last' = rf_serial f /\
  (3 * rf_width f * rf_height f <= i64_max ->
   exists image, raw_frame_to_rgb_image f = Ok image /\
     im_width image = rf_width f /\ im_height image = rf_height f /\
     zlen (im_raw image) = 3 * rf_width f * rf_height f /\
     is_ok (encoder_frame f max_width max_height) = true /\
     (rf_width f <= max_width -> rf_height f <= max_height ->
      encoder_frame f max_width max_height = Ok (FrameRgb (rf_width f) (rf_height f) (im_raw image)))) /\
  (3 * rf_width f * rf_height f > i64_max ->
   encoder_frame f max_width max_height = Err CapacityOverflow).
Proof using drivers_laws.
  intros Ht Hlooks Hnext. apply next_frame_spec in Hnext as (look & Hlook & Hf & Hs & ->).
  rewrite Forall_forall in Hlooks. destruct (Hlooks _ Hlook) as (call & deliveries & Hd & Hl).
  assert (frame_ok f) as Hok.
  { rewrite Hf in Hl. eapply process_run_ok; [exact Hd| |by symmetry]. intros f1. by rewrite Ht. }
  split; [done|]. split; [done|]. split.
  - intros Hfit. destruct (conversion_total f Hok Hfit) as (image & Hi & Hw & Hh & Hz).
    exists image. split_and!; try done.
    + unfold encoder_frame. by rewrite Hi.
    + intros Hmw Hmh. unfold encoder_frame. rewrite Hi. cbn [mbind result_bind].
      unfold resize_rgb_image_to_fit. rewrite decide_True by lia. by rewrite Hw, Hh.
  - intros Hbig. unfold encoder_frame. by rewrite conversion_too_large.
Qed.
End process.

(** * Sizes that the encoder takes *)

Lemma ldiff_1 x : Z.ldiff x 1 = 2 * (x / 2).
Proof.
  change 1 with (Z.ones 1). rewrite Z.ldiff_ones_r by lia.
  rewrite Z.shiftr_div_pow2, Z.shiftl_mul_pow2 by lia. change (2 ^ 1) with 2. lia.
Qed.

Lemma float_min_or x y : float_min x y = x \/ float_min x y = y.
Proof. unfold float_min. destruct x; [destruct (SFltb _ _)|destruct (SFltb _ _)| |destruct (SFltb _ _)]; auto. Qed.

Lemma float_min_le x :
  (forall s m e, x = S754_finite s m e -> Zpos m < 2 ^ 53) ->
  match float_min x (f64_of_Z 1) with
  | S754_nan => False
  | S754_infinity s => s = true
  | S754_finite false m e => le_int (Zpos m) e 1
  | _ => True
  end.
Proof.
  intros Hx. pose proof (f64_clamp_le x 1 ltac:(lia) Hx) as H.
  destruct x as [?|[]| |[] m e]; [done|done|..].
  - vm_compute. by intros.
  - vm_compute. by intros.
  - done.
  - unfold float_min. unfold f64_clamp in H.
    replace (SFltb (S754_finite false m e) (f64_of_Z 0)) with false in H by done. destruct (SFltb _ _).
    + by vm_compute.
    + by destruct H.
Qed.

Lemma floor_le_int m e M : 0 <= m -> le_int m e M ->
  (if decide (0 <= e) then m * 2 ^ e else m / 2 ^ (- e)) <= M.
Proof.
  unfold le_int. intros Hm H. case_decide.
  - rewrite Z.max_l, Z.max_r in H by lia. change (2 ^ 0) with 1 in H. lia.
  - rewrite Z.max_r, Z.max_l in H by lia. change (2 ^ 0) with 1 in H.
    assert (0 < 2 ^ (- e)) by (apply Z.pow_pos_nonneg; lia). apply Z.div_le_upper_bound; lia.
Qed.

Lemma scaled_extent n x :
  0 < n <= u32_max -> (forall s m e, x = S754_finite s m e -> Zpos m < 2 ^ 53) ->
  f64_floor_u32 (f64_mul (f64_of_Z n) (float_min x (f64_of_Z 1))) <= n.
Proof.
  intros Hn Hx. pose proof (float_min_le x Hx) as Hs.
  destruct (f64_of_Z_pos n) as (p & Hf & Hp & Hd); [unfold u32_max in *; lia|]. rewrite Hf.
  assert (le_int (Zpos p) (digits n - 53) n) as Hpn.
  { unfold le_int. rewrite Z.max_r, Z.max_l, Hp by lia. replace (- (digits n - 53)) with (53 - digits n) by lia.
    change (2 ^ 0) with 1. lia. }
  destruct (float_min x _) as [s|s| |s m e]; [simpl; lia|by subst; simpl; lia|done|].
  cbn [f64_mul SFmul xorb]. destruct s.
  - assert (forall mx ex l, match round_aux true mx ex l with S754_finite s _ _ | S754_infinity s => s = true | _ => True end)
      as Hneg.
    { intros mx ex l. unfold binary_round_aux. destruct (shr_fexp _ _ _ _ _). destruct (shr_fexp _ _ _ _ _).
      destruct (shr_m _); [done| |done]. by destruct (_ <=? _). }
    specialize (Hneg (Zpos (p * m)) (digits n - 53 + e) loc_Exact). destruct (round_aux _ _ _ _); simpl; subst; lia.
  - pose proof (round_aux_le false (Zpos (p * m)) (digits n - 53 + e) (n * 1)) as Hr.
    destruct (round_aux _ _ _ _) as [?|?| |s' m' e'].
    + simpl. lia.
    + exfalso. apply Hr; [lia|unfold u32_max in *; lia|]. rewrite Pos2Z.inj_mul. apply le_int_mul; [lia|lia|done|done].
    + simpl. lia.
    + destruct Hr as [-> Hr]; [lia|unfold u32_max in *; lia|rewrite Pos2Z.inj_mul; apply le_int_mul; [lia|lia|done|done]|].
      apply floor_le_int in Hr; [|lia]. cbn [f64_floor_u32]. unfold u32_clamp. lia.
Qed.

(** C29: a size for the GPU always suits the encoder: for every source and every
    bounds of at most 65,535, the fitted size is even, at least 2, within the
    bounds and never larger than the source, and a software encoder is created
    for it whenever OpenH264 can be. *)
Theorem fitted_size_encodes `{library : !OpenH264} width height max_width max_height w h mode encoder :
  u32_ok width -> u32_ok height -> u32_ok max_width -> u32_ok max_height ->
  max_width <= u16_max -> max_height <= u16_max ->
  fit_even_dimensions width height max_width max_height = (w, h) ->
  (w mod 2 = 0 /\ 2 <= w <= Z.max 2 max_width /\ w <= Z.max 2 width) /\
  (h mod 2 = 0 /\ 2 <= h <= Z.max 2 max_height /\ h <= Z.max 2 height) /\
  (mode <> ModeVaapi -> oh_new w h = Ok encoder ->
   encoder_new mode w h =
     Ok {| se_encoder := encoder; se_width := w; se_height := h; se_parameter_sets := None |}).
Proof.
  intros Hw Hh Hmw Hmh Hmw' Hmh'. unfold fit_even_dimensions.
  set (x := float_min (f64_div _ _) (f64_div _ _)). intros [= <- <-].
  assert (forall s m e, x = S754_finite s m e -> Zpos m < 2 ^ 53) as Hx.
  { intros s m e E. unfold x in E. destruct (float_min_or (f64_div (f64_of_Z (Z.max max_width 2)) (f64_of_Z (Z.max width 1)))
      (f64_div (f64_of_Z (Z.max max_height 2)) (f64_of_Z (Z.max height 1)))) as [E1|E1]; rewrite E1 in E;
      exact (f64_div_digits _ _ _ _ _ E). }
  clearbody x.
  assert (forall n max, u32_ok n -> u32_ok max -> max <= u16_max ->
    let r := Z.max (Z.ldiff (Z.min (Z.max (f64_floor_u32 (f64_mul (f64_of_Z (Z.max n 1))
               (float_min x (f64_of_Z 1)))) 2) (Z.max max 2)) 1) 2 in
    r mod 2 = 0 /\ 2 <= r <= Z.max 2 max /\ r <= Z.max 2 n) as Hfit.
  { intros n max Hn Hm Hm' r. pose proof (scaled_extent (Z.max n 1) x) as Hs. unfold r. rewrite ldiff_1.
    set (q := f64_floor_u32 _) in *. set (v := Z.min (Z.max q 2) (Z.max max 2)) in *.
    assert (q <= Z.max n 1) by (apply Hs; [unfold u32_ok, u32_max in *; lia|done]).
    pose proof (Z.div_mod v 2). pose proof (Z.mod_pos_bound v 2).
    assert (Z.max (2 * (v / 2)) 2 = 2 * (v / 2)) as -> by lia.
    split; [rewrite Z.mul_comm; by apply Z.mod_mul|]. lia. }
  destruct (Hfit width max_width) as (E1 & B1 & U1); [done..|].
  destruct (Hfit height max_height) as (E2 & B2 & U2); [done..|].
  set (w := Z.max _ _) in *. set (h := Z.max _ _) in E2, B2, U2 |- *.
  split; [done|]. split; [done|]. intros Hmode Hnew.
  assert (forall backend, validate_dimensions w h backend = Ok tt) as Hv.
  { intros backend. apply reject_if_false. unfold u16_max in *. lia. }
  unfold encoder_new, software_new. rewrite !Hv. cbn [mbind result_bind]. destruct mode; [|done|];
    by rewrite Hnew.
Qed.

(** C30: an odd picture ends the publisher: a frame in main memory keeps the parity
    of its size, or gets that of the rounded scaling, on the way to the encoder;
    when it is odd there, no encoder can be created, and the error is one that
    stops the publisher for good.  A display of 3840 by 1600 under the default
    bounds is such a case, although a GPU buffer of that size is fitted to even
    extents. *)
Theorem odd_picture_is_fatal `{library : !OpenH264} `{scaler_laws : ImageScalerLaws} f max_width max_height w h raw mode :
  frame_ok f -> encoder_frame f max_width max_height = Ok (FrameRgb w h raw) ->
  w mod 2 <> 0 \/ h mod 2 <> 0 ->
  (exists message, encoder_new mode w h = Err message /\
     forall chain, message ∈ chain -> is_fatal_publisher_error chain) /\
  (forall g, frame_ok g -> rf_width g = 3840 -> rf_height g = 1600 ->
     exists raw, encoder_frame g 2560 1440 = Ok (FrameRgb 2560 1067 raw)) /\
  fit_even_dimensions 3840 1600 2560 1440 = (2560, 1066).
Proof.
  intros Hf He Hodd. split; [|split].
  - exists "H.264 requires non-zero, even dimensions that fit in 16 bits"%string. split.
    + unfold encoder_new, validate_dimensions. unfold reject_if at 1. rewrite decide_True by tauto. done.
    + intros chain Hc. unfold is_fatal_publisher_error. apply Exists_exists. eexists. split; [exact Hc|].
      apply (bool_decide_unpack _). by vm_compute.
  - intros g Hg Hw Hh. destruct (conversion_total g Hg) as (image & Hi & Hiw & Hih & _);
      [rewrite Hw, Hh; unfold i64_max; lia|].
    unfold encoder_frame. rewrite Hi. cbn [mbind result_bind]. unfold resize_rgb_image_to_fit.
    rewrite decide_False by lia. rewrite Hiw, Hih, Hw, Hh.
    assert (resize_target 3840 1600 (Z.max 2560 1) (Z.max 1440 1) = (2560, 1067)) as -> by (vm_compute; reflexivity).
    rewrite resize_width, resize_height. eauto.
  - by vm_compute.
Qed.

(** ** Witnesses *)

#[local] Existing Instance le_libspa.
#[local] Existing Instance le_libspa_laws.
(** No descriptor can be mapped; GBM maps any buffer of two rows of eight bytes. *)
#[local] Instance no_mapping : FileMapping := {|
  fstat_size _ := None; page_size_of_system := 4096; mmap _ _ _ := None |}.
#[local] Instance gbm_drivers : ReadbackDrivers := {|
  gbm_recognizes _ := true; gbm_map _ _ := Ok (replicate 16 x20, 8); egl_read _ _ _ _ := Err "no display" |}.
#[local] Instance gbm_drivers_laws : ReadbackDriversLaws.
Proof. split; [|done]. intros call plane data stride [= <- <-]. unfold u32_max. lia. Qed.
#[local] Instance black_scaler : ImageScaler := fun _ w h =>
  {| im_width := w; im_height := h; im_raw := [] |}.
#[local] Instance black_scaler_laws : ImageScalerLaws.
Proof. by split. Qed.
#[local] Instance unit_encoder : OpenH264 := {|
  OhEncoder := unit; oh_new _ _ := Ok tt; oh_force_intra_frame e := e; oh_encode e _ := (None, e) |}.

Definition sample_picture : Picture := {|
  pc_rgb x y := (byte_of_Z x, byte_of_Z y, x80);
  pc_luma x y := byte_of_Z (16 * x + y);
  pc_chroma x y := (byte_of_Z (128 + x), byte_of_Z (128 + y)) |}.
Lemma layout_roundtrip_witness :
  let frame := layout_frame 1 RawI420 4 3 3 xff sample_picture in
  expected_frame_size_from_stride RawI420 4 3 3 = Some 20 /\
  zlen (rf_data frame) = 20 /\ raw_frame_to_rgb_image frame = Ok (shown_image RawI420 sample_picture 3 3).
Proof.
  split; [reflexivity|].
  apply (layout_roundtrip 1 RawI420 4 3 3 xff sample_picture 20); [unfold u32_max; lia..|simpl; lia|reflexivity].
Defined.

Definition sample_delivery : Delivery := {|
  dl_info := {| vi_format := VideoBGRx; vi_width := 2; vi_height := 2; vi_modifier := 7 |};
  dl_metas := sample_metas;
  dl_datas := [{| sd_offset := 0; sd_size := 16; sd_stride := 8; sd_is_dmabuf := true; sd_mappable := false;
                  sd_fd := 5; sd_map_offset := 0; sd_mapped := None |}];
  dl_cursor_now := 100; dl_now := 100 |}.
Definition idle_thread : FrameThread := {|
  ft_cursor := initial_user_data; ft_last_frame_copied_at := None; ft_min_frame_interval := 10;
  ft_target_width := 2560; ft_target_height := 1440; ft_gpu_readback := gpu_readback_new; ft_serial := 0;
  ft_latest := None |}.
Definition sample_look : Look := {|
  lk_error := None; lk_latest := ft_latest (process_run 0 [sample_delivery] idle_thread) |}.
Definition sample_frame : RawFrame := {|
  rf_serial := 1; rf_width := 2; rf_height := 2; rf_stride := 8; rf_format := RawBgrx;
  rf_data := replicate 16 x20 |}.
Lemma captured_frame_converts_witness :
  next_frame [sample_look] 0 = (Ok sample_frame, 1) /\
  exists image, raw_frame_to_rgb_image sample_frame = Ok image /\ zlen (im_raw image) = 12.
Proof.
  assert (next_frame [sample_look] 0 = (Ok sample_frame, 1)) as E by (vm_compute; reflexivity).
  split; [exact E|].
  destruct (captured_frame_converts idle_thread [sample_look] 0 sample_frame 1 2560 1440)
    as (_ & _ & Hfit & _); [reflexivity| |exact E|].
  - constructor; [|constructor]. exists 0%nat, [sample_delivery]. split; [|reflexivity].
    constructor; [|constructor]. split; [|split]; [split; simpl; unfold u32_max; lia..|].
    constructor; [|constructor]. split; simpl; unfold_ints; lia.
  - destruct Hfit as (image & Hi & _ & _ & Hl & _); [vm_compute; discriminate|].
    exists image. split; [exact Hi|exact Hl].
Defined.

Lemma fitted_size_encodes_witness :
  fit_even_dimensions 3441 1441 2560 1440 = (2560, 1072) /\
  encoder_new ModeAuto 2560 1072 =
    Ok {| se_encoder := tt; se_width := 2560; se_height := 1072; se_parameter_sets := None |}.
Proof.
  assert (fit_even_dimensions 3441 1441 2560 1440 = (2560, 1072)) as E by (vm_compute; reflexivity).
  split; [exact E|].
  refine (proj2 (proj2 (fitted_size_encodes 3441 1441 2560 1440 2560 1072 ModeAuto tt _ _ _ _ _ _ E)) _ _);
    [split; unfold_ints; lia..|unfold_ints; lia|unfold_ints; lia|discriminate|reflexivity].
Defined.

Definition odd_frame : RawFrame := {|
  rf_serial := 1; rf_width := 3; rf_height := 2; rf_stride := 12; rf_format := RawBgrx; rf_data := [] |}.
Lemma odd_picture_is_fatal_witness :
  exists message, encoder_new ModeAuto 3 2 = Err message /\ is_fatal_publisher_error [message].
Proof.
  destruct (odd_picture_is_fatal odd_frame 2560 1440 3 2 (replicate 18 x00) ModeAuto) as [(message & E & Hf) _].
  - split; simpl; unfold_ints; done || lia.
  - vm_compute. reflexivity.
  - by left.
  - exists message. split; [exact E|]. apply Hf. by left.
Defined.
