(* ===== verification/Upload.v ===== *)
(** The upload session of a publisher, [run_native_client] of
    [crates/publisher/src/native_publish.rs]: resuming a stream at the relay, and
    the loop that rotates group keys, delivers them to the approved viewers and
    publishes epochs, media and cursor objects.

    The relay, the clock, the entropy source and the files are those of
    [RelayClient]; what the screen capture gives in each turn is a list of ticks.
    The encoder is that of [Encoder]. *)
From Stdlib Require Import ZArith Lia.
From S2P Require Import Prelude Bytes RustStr External Toy Identity Credential Native Envelope Cursor.
From S2P Require Import Transport Pairing Codecs Wire PrivateState KeyHistory KnownRelays RelayClient Approvals.
From S2P Require Import Encoder Float64 PublisherCursor.

Definition MEDIA_TIMESCALE : Z := 90000.

(** * Settings *)

(** [((fps * 4.0).round() as u64).clamp(1, u16::MAX)] and
    [((MEDIA_TIMESCALE / fps).round() as u64).clamp(1, u32::MAX)]: the cast to
    [u64] and that to [i64] agree on what the clamp leaves. *)
Definition group_frames_of (fps : float) : Z :=
  Z.max 1 (Z.min (f64_round_i64 (f64_mul fps (f64_of_Z 4))) u16_max).
Definition duration_of (fps : float) : Z :=
  Z.max 1 (Z.min (f64_round_i64 (f64_div (f64_of_Z MEDIA_TIMESCALE) fps)) u32_max).

(** [(bytes[6] & 0x0f) | 0x40] and [(bytes[8] & 0x3f) | 0x80]: the version and
    variant of a random UUID. *)
Definition map_byte (f : Z -> Z) (b : byte) : byte := byte_of_Z (f (Z_of_byte b)).
Definition uuid_v4_bits (l : bytes) : bytes :=
  alter (map_byte (fun b => Z.lor (Z.land b 63) 128)) 8%nat
    (alter (map_byte (fun b => Z.lor (Z.land b 15) 64)) 6%nat l).
(** Sixteen bytes as a UUID; shorter and longer lists do not occur. *)
Definition uuid_of (l : bytes) : uuid := default uuid_nil (array_try_from 16 l).
(** [Uuid::new_v4] *)
Definition uuid_new_v4 (draws : list (array 16)) : option uuid :=
  (fun draw => uuid_of (uuid_v4_bits (slice draw))) <$> head draws.

(** [str::as_bytes] *)
Definition utf8_char (c : Z) : bytes :=
  byte_of_Z <$>
  (if decide (c < 128) then [c]
   else if decide (c < 2048) then [192 + c / 64; 128 + c mod 64]
   else if decide (c < 65536) then [224 + c / 4096; 128 + (c / 64) mod 64; 128 + c mod 64]
   else [240 + c / 262144; 128 + (c / 4096) mod 64; 128 + (c / 64) mod 64; 128 + c mod 64]).
Definition utf8 (s : rstring) : bytes := s ≫= utf8_char.

Record UploadConfig : Type := {
  up_identity : IdentitySecret;
  up_credential : option NativeCredential;
  up_ingest_addr : rstring;
  up_pin : option (array 32);
  up_label : option rstring;
  up_display_name : rstring;
  up_backend : rstring;
  up_encoder : EncoderMode;
  up_fps : float;
  up_history_bytes : option Z;
  up_history_seconds : option Z;
}.

(** What a turn of the capture gives: the flag of the shutdown channel, the
    frame or a shutdown while it was awaited, and the cursor. *)
Inductive CaptureOutcome : Type := Captured (frame : EncoderInputFrame) | CaptureShutdown | CaptureFailed.
Record Tick : Type := {
  tick_shutdown : bool;
  tick_frame : CaptureOutcome;
  tick_cursor : result string (option CursorMessage);
}.

Section upload.
Context `{crypto : !Crypto, addrs : !SocketAddrs, ports : !SocketPorts, codecs : !Codecs}.
Context `{relay_file : !Postcard KnownRelayFile, history_file : !Postcard KeyHistory}.
Context `{state_file : !Postcard PublisherState, state_file_v2 : !Postcard PublisherStateV2}.
Context `{library : !OpenH264}.

Definition stable_stream_id (publisher : IdentitySecret) (label : rstring) : result string uuid :=
  let? public := context "identity" (identity_public publisher) in
  let? id := context "identity" (identity_id public) in
  let digest := sha256 (byte_string "glacialcast-native-stream-id-v1" ++ slice id ++ utf8 label) in
  Ok (uuid_of (uuid_v4_bits (take 16 (slice digest)))).

Abbreviation admin := (client PublisherDisk PublisherMessage RelayPublisherMessage).
Context (env : ClientEnv PublisherDisk RelayPublisherMessage).

(** What stays fixed during the loop, and what it changes. *)
Record UploadStream : Type := {
  st_identity : IdentitySecret;
  st_stream_id : uuid;
  st_epoch_id : uuid;
  st_width : Z;
  st_height : Z;
  st_group_frames : Z;
  st_duration : Z;
  st_history_bytes : Z;
  st_history_age_ms : Z;
}.
Record UploadState : Type := {
  us_encoder : SoftwareH264Encoder;
  us_approved : list IdentityPublic;
  us_history : list RetainedGroupKey;
  us_sequence : Z;
  us_timestamp : Z;
  us_frame_index : Z;
  us_next_frame : option EncoderInputFrame;
  us_group_id : Z;
  us_group : option GroupEncryptor;
  us_cursor : CursorBitmapState;
}.

(** [publish]: an object and its acknowledgement. *)
Definition publish (object : NativeObject) (expected : Z) : admin unit :=
  let stream_id := h_stream_id (header object) in
  write_relay env (PubObject object) then?
  let? reply := read_relay in
  match reply with
  | RpPublishAck acknowledged committed_through =>
      lift (reject_if (acknowledged <> stream_id \/ committed_through <> expected)
        "unexpected publication acknowledgement")
  | RpError _ => lift (Err "relay refused object")
  | _ => lift (Err "unexpected publication acknowledgement")
  end.

(** Envelopes of the current group, one after the other. *)
Definition send_envelopes (st : UploadStream) (group_id : Z) (group : GroupEncryptor)
    (viewers : list IdentityPublic) : admin unit :=
  for_each (fun viewer =>
    let? envelope := with_entropy env (fun entropy =>
      Some (context "envelope" (envelope_seal (st_identity st) viewer (st_stream_id st) (st_epoch_id st)
        group_id (group_key_id group) (group_content_key group) (draw_bytes entropy)))) in
    write_relay env (PubKeyEnvelope envelope)) viewers.

Definition checked_ids (viewers : list IdentityPublic) : result string (list (array 32)) :=
  mapR (fun viewer => context "identity" (identity_id viewer)) viewers.

(** The start of a turn: the approved viewers, whether one of the previous ones
    is missing, and those who are new. *)
Record Approval : Type := {
  latest_approved : list IdentityPublic;
  some_revoked : bool;
  newly_approved : list IdentityPublic;
}.
Definition read_approved (st : UploadStream) (approved : list IdentityPublic) : admin Approval :=
  let? latest := disk_call env (fun d => (approved_viewers (disk_state d) (st_stream_id st), d)) in
  let? previous_ids := lift (checked_ids approved) in
  let? latest_ids := lift (checked_ids latest) in
  mret {| latest_approved := latest;
          some_revoked := bool_decide (Exists (fun id => id ∉ latest_ids) previous_ids);
          newly_approved := filter (fun viewer => match viewer_id viewer with
                                                  | Some id => id ∉ previous_ids
                                                  | None => False
                                                  end) latest |}.

(** [GroupEncryptor::generate] for the next group. *)
Definition next_group (st : UploadStream) (group_id sequence : Z) : admin GroupEncryptor :=
  let? public := lift (context "identity" (identity_public (st_identity st))) in
  with_entropy env (fun entropy =>
    context "group" <$> group_generate public (st_stream_id st) (st_epoch_id st) group_id sequence
      (draws16 entropy) (draw4 entropy) (draws32 entropy)).

(** Sealing with the current group, which the encryptor's state follows. *)
Definition seal_object (st : UploadStream) (group : GroupEncryptor) (sequence timestamp duration : Z)
    (kind : NativeObjectKind) (random_access : bool) (codec : option CodecId) (payload : bytes) :
    admin (NativeObject * GroupEncryptor) :=
  lift (context "seal" (seal group (st_identity st) {|
    new_sequence := sequence; new_timestamp := timestamp; new_duration := duration;
    new_kind := kind; new_random_access := random_access; new_codec := codec |} payload)).

Definition retained_key (st : UploadStream) (group_id : Z) (group : GroupEncryptor) (now : Z) :
    RetainedGroupKey := {|
  rk_stream_id := st_stream_id st; rk_epoch_id := st_epoch_id st; rk_key_group_id := group_id;
  rk_key_id := group_key_id group; rk_content_key := group_content_key group;
  rk_created_at_ms := now; rk_content_bytes := 0 |}.

(** Pruning the stream's keys and writing them to the shared file. *)
Definition store_history (st : UploadStream) (history : list RetainedGroupKey) :
    admin (list RetainedGroupKey) :=
  let? now := client_now env in
  let history := prune_key_history history now (st_history_bytes st) (st_history_age_ms st) in
  disk_write env (fun disk d =>
    let '(r, path) := replace_stream_key_history disk (st_stream_id st) history (disk_history d) in
    (r, {| disk_known := disk_known d; disk_state := disk_state d;
           disk_history := path; disk_output := disk_output d |})) then?
  mret history.

(** The first object of a group, its retained key, and the envelopes of all
    approved viewers. *)
Definition publish_epoch (st : UploadStream) (approved : list IdentityPublic) (group_id : Z)
    (group : GroupEncryptor) (encoded : EncodedH264Frame) (sequence timestamp : Z)
    (history : list RetainedGroupKey) : admin (GroupEncryptor * Z * list RetainedGroupKey) :=
  let? c := lift (ok_or (config encoded) "IDR omitted SPS/PPS") in
  let sequence := u64_saturating_add sequence 1 in
  let? payload := lift (context "epoch" (epoch_encode {|
    epoch_width := st_width st; epoch_height := st_height st; codec_config := annex_b_config c |})) in
  let? (epoch, group) := seal_object st group sequence timestamp 1 Epoch true (Some H264AnnexB) payload in
  publish epoch sequence then?
  let? now := client_now env in
  let? history := store_history st (history ++ [retained_key st group_id group now]) in
  send_envelopes st group_id group approved then?
  mret (group, sequence, history).

(** A cursor object, if the capture has a new cursor. *)
Definition publish_cursor (st : UploadStream) (group : GroupEncryptor) (cursor : CursorMessage)
    (sequence timestamp : Z) (bitmaps : CursorBitmapState) :
    admin (GroupEncryptor * Z * Z * CursorBitmapState) :=
  let '(event, bitmaps) := cursor_to_event cursor timestamp (st_width st) (st_height st) bitmaps in
  let? event := lift event in
  let? sequence := lift (ok_or (u64_checked_add sequence 1) "native cursor sequence space exhausted") in
  let? payload := lift (context "cursor" (encode_cursor_batch
    {| ctx_stream_id := st_stream_id st; ctx_epoch_id := st_epoch_id st; ctx_sequence := sequence;
       ctx_start_timestamp := timestamp; ctx_source_width := st_width st;
       ctx_source_height := st_height st |}
    {| source_width := st_width st; source_height := st_height st; events := [event] |})) in
  let? (object, group) := seal_object st group sequence timestamp 1 Cursor false None payload in
  publish object sequence then?
  mret (group, sequence, zlen payload, bitmaps).

(** The published bytes are added to the key of the current group, if it is the
    last one of the history. *)
Definition add_content (st : UploadStream) (group_id content_bytes : Z) (history : list RetainedGroupKey) :
    list RetainedGroupKey :=
  match last history with
  | Some retained =>
      if decide (rk_stream_id retained = st_stream_id st /\ rk_epoch_id retained = st_epoch_id st /\
                 rk_key_group_id retained = group_id)
      then removelast history ++ [{|
        rk_stream_id := rk_stream_id retained; rk_epoch_id := rk_epoch_id retained;
        rk_key_group_id := rk_key_group_id retained; rk_key_id := rk_key_id retained;
        rk_content_key := rk_content_key retained; rk_created_at_ms := rk_created_at_ms retained;
        rk_content_bytes := u64_saturating_add (rk_content_bytes retained) content_bytes |}]
      else history
  | None => history
  end.

(** The group of a turn: the next one, or the current one, whose key the new
    viewers get. *)
Definition turn_group (st : UploadStream) (s : UploadState) (starts_group : bool) (a : Approval) :
    admin (Z * GroupEncryptor) :=
  match starts_group, us_group s with
  | false, Some group =>
      send_envelopes st (us_group_id s) group (newly_approved a) then?
      mret (us_group_id s, group)
  | _, _ =>
      let group_id := u64_saturating_add (us_group_id s) 1 in
      let? group := next_group st group_id (us_sequence s) in
      mret (group_id, group)
  end.

(** The objects of a frame: an epoch where a group starts, the media object and
    perhaps a cursor object. *)
Definition publish_frame (st : UploadStream) (s : UploadState) (tick : Tick) (starts_group : bool)
    (approved : list IdentityPublic) (group_id : Z) (group : GroupEncryptor)
    (encoder : SoftwareH264Encoder) (encoded : EncodedH264Frame) : admin UploadState :=
  let timestamp := us_timestamp s in
  let? (started, history) :=
    if starts_group then
      let? (sealed, history) :=
        publish_epoch st approved group_id group encoded (us_sequence s) timestamp (us_history s) in
      mret (sealed, history)
    else mret ((group, us_sequence s), us_history s) in
  let '(group, sequence) := started in
  let sequence := u64_saturating_add sequence 1 in
  let? (media, group) := seal_object st group sequence timestamp (st_duration st) Media (keyframe encoded)
                           (Some H264AnnexB) (annex_b encoded) in
  publish media sequence then?
  let content_bytes := zlen (annex_b encoded) in
  let? cursor := lift (tick_cursor tick) in
  let? (after, bitmaps) :=
    match cursor with
    | Some cursor =>
        let? (sealed, bitmaps) := publish_cursor st group cursor sequence timestamp (us_cursor s) in
        mret (sealed, bitmaps)
    | None => mret ((group, sequence, 0), us_cursor s)
    end in
  let '(group, sequence, cursor_bytes) := after in
  let history := add_content st group_id (u64_saturating_add content_bytes cursor_bytes) history in
  let? history := store_history st history in
  mret {| us_encoder := encoder; us_approved := approved; us_history := history;
          us_sequence := sequence; us_timestamp := u64_saturating_add timestamp (st_duration st);
          us_frame_index := u64_saturating_add (us_frame_index s) 1; us_next_frame := None;
          us_group_id := group_id; us_group := Some group; us_cursor := bitmaps |}.

(** A turn of the loop; [None] is a shutdown. *)
Definition upload_turn (st : UploadStream) (s : UploadState) (tick : Tick) : admin (option UploadState) :=
  if tick_shutdown tick then mret None
  else
    let? a := read_approved st (us_approved s) in
    let starts_group := bool_decide (us_group s = None \/ some_revoked a = true \/
                                     us_frame_index s mod st_group_frames st = 0) in
    let? (group_id, group) := turn_group st s starts_group a in
    match us_next_frame s, tick_frame tick with
    | None, CaptureShutdown => mret None
    | None, CaptureFailed => lift (Err "capturing a frame")
    | Some frame, _ | None, Captured frame =>
        let '(encoded, encoder) := encode_request (us_encoder s) frame starts_group in
        let? encoded := lift encoded in
        lift (reject_if (starts_group = true /\ keyframe encoded = false)
          "H.264 key group did not begin with an IDR") then?
        let? s := publish_frame st s tick starts_group (latest_approved a) group_id group encoder encoded in
        mret (Some s)
    end.

(** The loop over the ticks so far; it only ends with a shutdown or an error. *)
Fixpoint upload_loop (st : UploadStream) (s : UploadState) (ticks : list Tick) : admin unit :=
  match ticks with
  | [] => mret tt
  | tick :: ticks =>
      let? next := upload_turn st s tick in
      match next with
      | Some s => upload_loop st s ticks
      | None => mret tt
      end
  end.

(** * The session *)

Definition resume_stream (c : UploadConfig) (stream_id epoch_id : uuid) : admin Z :=
  let? public := lift (context "identity" (identity_public (up_identity c))) in
  let? id := lift (context "identity" (identity_id public)) in
  write_relay env (PubResume id [{| prs_stream_id := stream_id; prs_next_sequence := 1;
                                    prs_epoch_id := epoch_id; prs_key_group := 1 |}]) then?
  let? reply := read_relay in
  match reply with
  | RpResumeState states =>
      match states with
      | state :: _ =>
          lift (reject_if (rrs_stream_id state <> stream_id) "relay omitted resumed stream") then?
          mret (rrs_committed_through state)
      | [] => lift (Err "relay omitted resumed stream")
      end
  | RpError _ => lift (Err "resume rejected")
  | _ => lift (Err "unexpected resume response")
  end.

Definition stream_name (c : UploadConfig) : rstring :=
  match up_label c with
  | Some label => up_display_name c ++ ascii_str " (" ++ label ++ ascii_str ")"
  | None => up_display_name c
  end.

(** [run_native_client] from the connection on; [first] is the first captured
    frame. *)
Definition run_native_client (c : UploadConfig) (first : option EncoderInputFrame) (ticks : list Tick) :
    admin unit :=
  let endpoint := normalize_endpoint (up_ingest_addr c) in
  publisher_handshake env endpoint (up_pin c) then?
  greet env (up_identity c) (up_credential c) then?
  let? stream_id := lift (stable_stream_id (up_identity c) (default (ascii_str "default") (up_label c))) in
  let? epoch_id := with_entropy env (fun entropy => Ok <$> uuid_new_v4 (draws16 entropy)) in
  let? committed := resume_stream c stream_id epoch_id in
  let? now := client_now env in
  let? descriptor := lift (context "descriptor"
    (descriptor_new (up_identity c) stream_id (stream_name c) (up_backend c) true now)) in
  write_relay env (PubDescriptor descriptor) then?
  let? first := lift (ok_or first "capturing a frame") in
  let width := frame_width first in
  let height := frame_height first in
  let? encoder := lift (encoder_new (up_encoder c) width height) in
  let? approved := disk_call env (fun d => (approved_viewers (disk_state d) stream_id, d)) in
  let? keys := disk_call env (fun d => (load_key_history (disk_history d), d)) in
  let? history_bytes := lift (ok_or (up_history_bytes c) "history byte limit was not resolved") in
  let? history_seconds := lift (ok_or (up_history_seconds c) "history time limit was not resolved") in
  upload_loop
    {| st_identity := up_identity c; st_stream_id := stream_id; st_epoch_id := epoch_id;
       st_width := width; st_height := height; st_group_frames := group_frames_of (up_fps c);
       st_duration := duration_of (up_fps c); st_history_bytes := history_bytes;
       st_history_age_ms := default i64_max (i64_try_from (u64_saturating_mul history_seconds 1000)) |}
    {| us_encoder := encoder; us_approved := approved;
       us_history := filter (fun key => rk_stream_id key = stream_id) keys;
       us_sequence := committed; us_timestamp := 0; us_frame_index := 0; us_next_frame := Some first;
       us_group_id := 0; us_group := None; us_cursor := cursor_bitmap_state_default |} ticks.
End upload.
