(* ===== verification/ClientTrace.v ===== *)
(** Reasoning about what a client writes and reads: a program logic whose
    assertions speak of the messages that a run added to those written before and
    of the replies that it took from those of the connection. *)
From Stdlib Require Import ZArith Lia.
From S2P Require Import Prelude Bytes RustStr External PrivateState KnownRelays RelayClient.

Section trace.
Context {D Snd R : Type} (env : ClientEnv D R).
Abbreviation prog := (client D Snd R).
Abbreviation post A := (result string A -> list Snd -> list (option R) -> Prop).

Definition emits_from {A} (c : Client D Snd R) (m : prog A) (Q : post A) : Prop :=
  forall r c', m c = (r, c') ->
    exists sent used, cl_sent c' = cl_sent c ++ sent /\ cl_replies c = used ++ cl_replies c' /\ Q r sent used.
Definition emits {A} (m : prog A) (Q : post A) : Prop := forall c, emits_from c m Q.

(** Steps that neither write nor read. *)
Definition quiet {A} (m : prog A) (P : A -> Prop) : Prop := forall c r c', m c = (r, c') ->
  cl_sent c' = cl_sent c /\ cl_replies c' = cl_replies c /\ forall a, r = Ok a -> P a.

Lemma emits_mono {A} (m : prog A) (Q Q' : post A) c :
  emits_from c m Q -> (forall r sent used, Q r sent used -> Q' r sent used) -> emits_from c m Q'.
Proof. intros H HQ r c' Hr. destruct (H r c' Hr) as (sent & used & ? & ? & ?). eauto 10. Qed.

Lemma trace_bind {A B} (m : prog A) (k : A -> prog B) (Q1 : post A) (Q : post B) c :
  emits_from c m Q1 ->
  (forall e sent used, Q1 (Err e) sent used -> Q (Err e) sent used) ->
  (forall a sent used, Q1 (Ok a) sent used ->
     emits (k a) (fun r sent' used' => Q r (sent ++ sent') (used ++ used'))) ->
  emits_from c (mbind k m) Q.
Proof.
  intros Hm Herr Hk r c' [(e & H & ->)|(a & c1 & H & Hr)]%io_bind_run.
  - destruct (Hm _ _ H) as (sent & used & Hs & Hu & HQ). exists sent, used. eauto.
  - destruct (Hm _ _ H) as (sent & used & Hs & Hu & HQ).
    destruct (Hk _ _ _ HQ _ _ _ Hr) as (sent' & used' & Hs' & Hu' & HQ').
    exists (sent ++ sent'), (used ++ used'). rewrite Hs', Hs, Hu, Hu', <-!app_assoc. done.
Qed.

Lemma emits_quiet_bind {A B} (m : prog A) (k : A -> prog B) (P : A -> Prop) (Q : post B) c :
  quiet m P -> (forall e, Q (Err e) [] []) -> (forall a, P a -> emits (k a) Q) ->
  emits_from c (mbind k m) Q.
Proof.
  intros Hm Herr Hk. apply (trace_bind m k (fun r sent used => sent = [] /\ used = [] /\ forall a, r = Ok a -> P a)).
  - intros r c' H. destruct (Hm _ _ _ H) as (Hs & Hr & HP). exists [], []. by rewrite app_nil_r.
  - by intros e ? ? (-> & -> & _).
  - intros a ? ? (-> & -> & HP). by apply Hk, HP.
Qed.

Lemma emits_quiet {A} (m : prog A) (P : A -> Prop) (Q : post A) c :
  quiet m P -> (forall e, Q (Err e) [] []) -> (forall a, P a -> Q (Ok a) [] []) -> emits_from c m Q.
Proof.
  intros Hm Herr Hok r c' H. destruct (Hm _ _ _ H) as (Hs & Hr & HP). exists [], [].
  rewrite app_nil_r. split_and!; [done..|]. destruct r; auto.
Qed.

Lemma quiet_ret {A} (a : A) : quiet (mret a) (fun x => x = a).
Proof. intros c r c' [= <- <-]. split_and!; [done..|]. congruence. Qed.
Lemma quiet_lift {A} (x : result string A) : quiet (lift x) (fun a => x = Ok a).
Proof. intros c r c' [= <- <-]. by split_and!. Qed.
Lemma quiet_now : quiet (client_now env) (fun _ => True).
Proof. intros c r c' [= <- <-]. by split_and!. Qed.
Lemma quiet_entropy {A} (f : Entropy -> option (result string A)) :
  quiet (with_entropy env f) (fun a => exists entropy, f entropy = Some (Ok a)).
Proof.
  intros c r c'. unfold with_entropy. intros [= Hr <-]. split_and!; [done..|]. intros a ->.
  exists (env_entropy env (cl_step c)). by destruct (f _) as [[|]|]; simplify_eq.
Qed.
Lemma quiet_disk {A} (f : D -> result string A * D) :
  quiet (disk_call env f) (fun a => exists d, (f d).1 = Ok a).
Proof.
  intros c r c'. unfold disk_call. destruct (f _) as [x d] eqn:E. intros [= <- <-].
  split_and!; [done..|]. intros a ->. eexists. by rewrite E.
Qed.
Lemma quiet_disk_write {A} (f : disk_outcome -> D -> result string A * D) :
  quiet (disk_write env f) (fun a => exists disk d, (f disk d).1 = Ok a).
Proof. intros c r c' (? & ? & Ha)%quiet_disk. split_and!; eauto. Qed.
Lemma quiet_then {A B} (m : prog A) (k : A -> prog B) (P : A -> Prop) (Q : B -> Prop) :
  quiet m P -> (forall a, P a -> quiet (k a) Q) -> quiet (mbind k m) Q.
Proof.
  intros Hm Hk c r c' [(e & H & ->)|(a & c1 & H & Hr)]%io_bind_run.
  - destruct (Hm _ _ _ H) as (? & ? & _). by split_and!.
  - destruct (Hm _ _ _ H) as (Hs & Hu & HP). destruct (Hk a (HP a eq_refl) _ _ _ Hr) as (Hs' & Hu' & HQ).
    rewrite Hs', Hu'. by split_and!.
Qed.
Lemma quiet_mono {A} (m : prog A) (P Q : A -> Prop) : quiet m P -> (forall a, P a -> Q a) -> quiet m Q.
Proof. intros Hm HPQ c r c' H. destruct (Hm _ _ _ H) as (? & ? & ?). eauto. Qed.

Lemma trace_write message c :
  emits_from c (write_relay env message) (fun r sent used =>
    used = [] /\ (sent = [message] \/ (sent = [] /\ is_ok r = false))).
Proof.
  intros r c'. unfold write_relay. destruct (env_write env (cl_step c)); intros [= <- <-].
  - exists [message], []. split_and!; [done..|by left].
  - exists [], []. cbn [cl_sent advance]. rewrite app_nil_r. split_and!; [done..|by right].
  - exists [message], []. split_and!; [done..|by left].
Qed.
Lemma emits_read_exact c :
  emits_from c read_relay (fun r sent used => sent = [] /\
    match r with Ok m => used = [Some m] | Err _ => used = [] \/ used = [None] end).
Proof.
  intros r c'. unfold read_relay. destruct (cl_replies c) as [|[m|] rest] eqn:E; intros [= <- <-];
    cbn [set_replies cl_sent cl_replies]; rewrite ?E; cbn [tail].
  - exists [], []. rewrite app_nil_r. auto.
  - exists [], [Some m]. by rewrite app_nil_r.
  - exists [], [None]. rewrite app_nil_r. auto.
Qed.
Lemma trace_read c :
  emits_from c read_relay (fun r sent used => sent = [] /\ forall m, r = Ok m -> used = [Some m]).
Proof. eapply emits_mono; [apply emits_read_exact|]. intros r sent used [-> H]. split; [done|]. by intros m ->. Qed.

(** A loop that writes a message for each element in turn. *)
Lemma trace_for_each {A} (f : A -> prog unit) (P : A -> Snd -> Prop) l :
  (forall x, emits (f x) (fun r sent used => used = [] /\
     ((exists m, sent = [m] /\ P x m) \/ (sent = [] /\ is_ok r = false)))) ->
  emits (for_each f l) (fun r sent used => used = [] /\
    forall m, m ∈ sent -> exists x, x ∈ l /\ P x m).
Proof.
  intros Hf. induction l as [|x l IH]; intros c; cbn [for_each].
  - eapply emits_quiet; [apply quiet_ret|..]; intros; (split; [done|]); by intros m ?%elem_of_nil.
  - eapply trace_bind; [apply Hf|..].
    + intros e sent used (-> & [(m & -> & Hm)|[-> _]]); (split; [done|]).
      * intros m' ->%list_elem_of_singleton. exists x. split; [by left|done].
      * by intros m ?%elem_of_nil.
    + intros [] sent used (-> & [(m & -> & Hm)|[-> Hr]]); [|done]. intros c1. eapply emits_mono; [apply IH|].
      intros r sent used (-> & Hs). split; [done|]. intros m' [->|(y & Hy & ?)%Hs]%elem_of_cons.
      * exists x. split; [by left|done].
      * exists y. split; [by right|done].
Qed.
End trace.
