(* ===== verification/UploadInv.v ===== *)
(** The theorems of the upload session: what it publishes, in which order, and
    who gets the keys. *)
From Stdlib Require Import ZArith Lia.
From S2P Require Import Prelude Bytes RustStr External Toy Identity Credential Native Envelope Cursor.
From S2P Require Import Transport Pairing Codecs Wire NativeTables NativeStore PrivateState KeyHistory KnownRelays.
From S2P Require Import RelayClient Approvals Outbox Encoder Float64 PublisherCursor Upload ClientTrace.

(** The objects and envelopes among the messages of a session. *)
Definition sent_object (m : PublisherMessage) : option NativeObject :=
  match m with PubObject o => Some o | _ => None end.
Definition sent_envelope (m : PublisherMessage) : option KeyEnvelope :=
  match m with PubKeyEnvelope e => Some e | _ => None end.
Abbreviation objects_of := (omap sent_object).
Abbreviation envelopes_of := (omap sent_envelope).

Section publication.
Context `{crypto : !Crypto, crypto_laws : !CryptoLaws, addrs : !SocketAddrs, codecs : !Codecs}.
Context `{history_file : !Postcard KeyHistory, library : !OpenH264}.
Context `{state_file : !Postcard PublisherState, state_file_v2 : !Postcard PublisherStateV2}.
Context (st : UploadStream) (public : IdentityPublic).

(** A position in a publication: the last sequence, and the group of the last
    object with its key identifier. *)
Record Position : Type := { pos_sequence : Z; pos_group : option (Z * array 16) }.
Definition after (o : NativeObject) : Position :=
  {| pos_sequence := h_sequence (header o);
     pos_group := Some (h_key_group (header o), h_key_id (header o)) |}.

(** The object that may come next: verifiable, of the stream and epoch, at the
    next sequence, and of the same group under the same key, or starting a group
    where the relay's rule lets one start. *)
Definition follows (p : Position) (o : NativeObject) : Prop :=
  h_stream_id (header o) = st_stream_id st /\ h_epoch_id (header o) = st_epoch_id st /\
  verify_public o public = Ok tt /\ h_sequence (header o) = pos_sequence p + 1 /\
  match pos_group p with
  | Some (group, key_id) =>
      (h_key_group (header o) = group /\ h_key_id (header o) = key_id) \/
      (h_kind (header o) = Epoch /\
       validate_group_progression (Some (st_epoch_id st)) (Some group) (st_epoch_id st)
         (h_key_group (header o)) o = Ok tt)
  | None =>
      h_kind (header o) = Epoch /\
      forall active_epoch active_group, active_epoch <> Some (st_epoch_id st) ->
        validate_group_progression active_epoch active_group (st_epoch_id st)
          (h_key_group (header o)) o = Ok tt
  end.
Fixpoint publication (p : Position) (objects : list NativeObject) : Prop :=
  match objects with
  | [] => True
  | o :: objects => follows p o /\ publication (after o) objects
  end.
Definition end_position (p : Position) (objects : list NativeObject) : Position :=
  match last objects with Some o => after o | None => p end.

Lemma end_position_cons p o objects : end_position p (o :: objects) = end_position (after o) objects.
Proof. unfold end_position. rewrite last_cons. by destruct (last objects). Qed.
Lemma publication_app p l k : publication p (l ++ k) <-> publication p l /\ publication (end_position p l) k.
Proof.
  revert p. induction l as [|o l IH]; intros p; [by unfold end_position; naive_solver|].
  simpl. rewrite end_position_cons, IH. naive_solver.
Qed.
Lemma end_position_app p l k : end_position p (l ++ k) = end_position (end_position p l) k.
Proof. unfold end_position. rewrite last_app. by destruct (last k). Qed.

(** The encryptor of a group whose last object has a sequence. *)
Definition group_ok (group_id sequence : Z) (g : GroupEncryptor) : Prop :=
  ge_stream_id g = st_stream_id st /\ ge_epoch_id g = st_epoch_id st /\
  ge_key_group g = group_id /\ ge_last_sequence g = sequence.

Abbreviation admin := (client PublisherDisk PublisherMessage RelayPublisherMessage).
Context (env : ClientEnv PublisherDisk RelayPublisherMessage).
Context (Hpublic : identity_public (st_identity st) = Ok public).

(** What sealing gives. *)
Definition sealed_as (g : GroupEncryptor) (sequence : Z) (kind : NativeObjectKind) (ra : bool)
    (o : NativeObject) : Prop :=
  h_stream_id (header o) = st_stream_id st /\ h_epoch_id (header o) = st_epoch_id st /\
  verify_public o public = Ok tt /\ h_sequence (header o) = sequence /\
  h_key_group (header o) = ge_key_group g /\ h_key_id (header o) = ge_key_id g /\
  h_kind (header o) = kind /\ h_random_access (header o) = ra.
Lemma quiet_seal group_id prior g sequence timestamp duration kind ra codec payload :
  group_ok group_id prior g ->
  quiet (seal_object st g sequence timestamp duration kind ra codec payload : admin _)
    (fun r => prior < sequence /\ sealed_as g sequence kind ra r.1 /\ group_ok group_id sequence r.2 /\
              ge_key_id r.2 = ge_key_id g).
Proof using Hpublic crypto_laws.
  intros (Hs & He & Hg & Hl). eapply quiet_mono; [apply quiet_lift|]. intros [o g'] H%context_Ok.
  pose proof (seal_verifies _ _ _ _ _ _ _ Hpublic H) as Hv.
  apply seal_Ok in H as (Hlt & -> & Hh & _). cbn [fst snd new_sequence] in *. unfold sealed_as, group_ok.
  rewrite Hh. cbn. rewrite <-Hl. by split_and!.
Qed.

(** The acknowledgement of an object, and its publication. *)
Definition ack (o : NativeObject) : option RelayPublisherMessage :=
  Some (RpPublishAck (h_stream_id (header o)) (h_sequence (header o))).
Lemma emits_publish o sequence :
  h_sequence (header o) = sequence ->
  emits (publish env o sequence) (fun r sent used =>
    match r with
    | Ok _ => sent = [PubObject o] /\ used = [ack o]
    | Err _ => sent = [PubObject o] \/ sent = []
    end).
Proof using Type.
  intros Hseq c. unfold publish. eapply trace_bind; [apply trace_write|..].
  { intros e sent used (_ & [->|[-> _]]); auto. }
  intros [] sent used (-> & [->|[_ ?]]); [|done]. intros c1. eapply trace_bind; [apply trace_read|..].
  { intros e sent used [-> _]. by left. }
  intros reply sent used [-> Hu] c2. specialize (Hu reply eq_refl) as ->.
  destruct reply; try (eapply emits_quiet; [apply quiet_lift|..]; [by intros; left|done]).
  eapply emits_quiet; [apply quiet_lift|by intros; left|].
  intros [] H%reject_if_Ok. simpl. split; [done|]. unfold ack. rewrite Hseq. nor_inv.
  by subst.
Qed.

(** Envelopes go to viewers of a list, for the group. *)
Definition addressed (group_id : Z) (viewers : list IdentityPublic) (e : KeyEnvelope) : Prop :=
  eh_stream_id (env_header e) = st_stream_id st /\ eh_epoch_id (env_header e) = st_epoch_id st /\
  eh_key_group_id (env_header e) = group_id /\
  exists viewer, viewer ∈ viewers /\ viewer_id viewer = Some (eh_recipient_id (env_header e)).
Lemma emits_envelopes group_id g viewers :
  emits (send_envelopes env st group_id g viewers) (fun r sent used => used = [] /\
    forall m, m ∈ sent -> exists e, m = PubKeyEnvelope e /\ addressed group_id viewers e /\
      eh_key_id (env_header e) = group_key_id g).
Proof using Type.
  intros c. unfold send_envelopes. eapply emits_mono.
  { apply (trace_for_each _ (fun viewer m => exists e, m = PubKeyEnvelope e /\
      eh_stream_id (env_header e) = st_stream_id st /\ eh_epoch_id (env_header e) = st_epoch_id st /\
      eh_key_group_id (env_header e) = group_id /\ eh_key_id (env_header e) = group_key_id g /\
      viewer_id viewer = Some (eh_recipient_id (env_header e)))).
    intros viewer c1. eapply emits_quiet_bind; [apply quiet_entropy|..].
    { intros e. split; [done|]. by right. }
    intros e (entropy & [= H%context_Ok]) c2. eapply emits_mono; [apply trace_write|].
    intros r sent used (-> & Hs). split; [done|]. destruct Hs as [->|Hs]; [left|by right].
    eexists. split; [done|]. exists e. split; [done|].
    pose proof H as (-> & -> & -> & ->)%envelope_seal_group. split_and!; try done.
    apply envelope_seal_Ok in H as (_ & pub & aad & kem & _ & _ & Hrec & _).
    unfold viewer_id. by rewrite Hrec. }
  intros r sent used (-> & Hs). split; [done|]. intros m (viewer & Hv & e & -> & H)%Hs.
  exists e. split; [done|]. destruct H as (? & ? & ? & ? & ?). split; [|done]. split_and!; eauto.
Qed.

(** ** A turn

    The log of a part of a turn: its objects, all of one group, continue the
    publication, and all but perhaps the last were acknowledged; its envelopes are
    for that group and for viewers of the list. *)
Record log_ok (p : Position) (group_id : Z) (viewers : list IdentityPublic) {A} (r : result string A)
    (sent : list PublisherMessage) (used : list (option RelayPublisherMessage)) : Prop := {
  log_publication : publication p (objects_of sent);
  log_group : Forall (fun o => h_key_group (header o) = group_id) (objects_of sent);
  log_acked : exists acked pending failed, objects_of sent = acked ++ pending /\
    (length pending <= 1)%nat /\ used = (ack <$> acked) ++ failed /\
    (is_ok r = true -> pending = [] /\ failed = []);
  log_envelopes : Forall (addressed group_id viewers) (envelopes_of sent);
}.

Lemma log_nil p group_id viewers {A} (r : result string A) used :
  (is_ok r = true -> used = []) -> log_ok p group_id viewers r [] used.
Proof using Type.
  intros H. split; [done|constructor| |constructor]. exists [], [], used. split_and!; simpl; auto.
Qed.
Lemma log_mono p group_id viewers {A B} (r : result string A) (r' : result string B) sent used :
  (is_ok r' = true -> is_ok r = true) -> log_ok p group_id viewers r sent used ->
  log_ok p group_id viewers r' sent used.
Proof using Type.
  intros Hr [L1 L2 (a & b & f & ? & ? & ? & Hok) L4]. split; [done..| |done]. exists a, b, f. by split_and!; auto.
Qed.
Lemma log_app p group_id viewers {A B} (a : A) sent used (r : result string B) sent' used' :
  log_ok p group_id viewers (Ok a : result string A) sent used ->
  log_ok (end_position p (objects_of sent)) group_id viewers r sent' used' ->
  log_ok p group_id viewers r (sent ++ sent') (used ++ used').
Proof using Type.
  intros [P1 G1 (acked & pending & failed & Ho & _ & Hu & Hok) E1] [P2 G2 (acked' & pending' & failed' & Ho' & Hl' & Hu' & Hok') E2].
  destruct (Hok eq_refl) as [-> ->]. rewrite app_nil_r in Ho, Hu.
  split; rewrite ?omap_app.
  - by apply publication_app.
  - by apply Forall_app.
  - exists (acked ++ acked'), pending', failed'. rewrite Ho, Ho', Hu, Hu', fmap_app, <-!app_assoc. by split_and!.
  - by apply Forall_app.
Qed.
Lemma log_envelopes_only p group_id viewers {A} (r : result string A) sent :
  (forall m, m ∈ sent -> exists e, m = PubKeyEnvelope e /\ addressed group_id viewers e) ->
  log_ok p group_id viewers r sent [] /\ objects_of sent = [].
Proof using Type.
  intros H. assert (objects_of sent = []) as Hno.
  { induction sent as [|m sent IH]; [done|]. destruct (H m) as (e & -> & _); [by left|].
    simpl. apply IH. intros m' Hm. apply H. by right. }
  split; [|done]. split; rewrite ?Hno; [done|constructor| |].
  - exists [], [], []. by split_and!; simpl; auto.
  - apply Forall_forall. intros e (m & Hm & He)%list_elem_of_omap. destruct (H m Hm) as (e' & -> & Ha).
    by injection He as <-.
Qed.

(** Sealing and publishing the next object of a group. *)
Lemma emits_object {A} p group_id g sequence timestamp duration kind ra codec payload viewers
    (k : GroupEncryptor -> admin A) (Q : A -> Position -> Prop) :
  group_ok group_id (pos_sequence p) g -> sequence = u64_saturating_add (pos_sequence p) 1 ->
  (forall o, pos_sequence p < sequence -> sealed_as g sequence kind ra o -> follows p o) ->
  (forall o g', sealed_as g sequence kind ra o -> group_ok group_id sequence g' -> ge_key_id g' = ge_key_id g ->
     emits (k g') (fun r sent used => log_ok (after o) group_id viewers r sent used /\
       forall a, r = Ok a -> Q a (end_position (after o) (objects_of sent)))) ->
  emits (let? (o, g) := seal_object st g sequence timestamp duration kind ra codec payload in
         publish env o sequence then? k g)
    (fun r sent used => log_ok p group_id viewers r sent used /\
       (is_ok r = true -> exists o, objects_of sent = o :: tail (objects_of sent) /\ sealed_as g sequence kind ra o) /\
       forall a, r = Ok a -> Q a (end_position p (objects_of sent))).
Proof using Hpublic crypto_laws.
  intros Hg Hseq Hfollows Hk c. eapply emits_quiet_bind; [by apply (quiet_seal group_id (pos_sequence p))|..].
  { intros e. split; [by apply log_nil|]. by split. }
  intros [o g'] (Hlt & Ho & Hg' & Hkey) c1. cbn [fst snd] in *.
  pose proof (Hfollows o Hlt Ho) as Hf. pose proof Ho as (_ & _ & _ & Hos & Hgroup & _).
  destruct Hg as (_ & _ & Hgid & _).
  assert (log_ok p group_id viewers (Ok tt) [PubObject o] [ack o]) as Hlog.
  { split; simpl; [by split|constructor; [congruence|constructor]| |constructor].
    exists [o], [], []. split_and!; [done|simpl; lia|done|done]. }
  eapply trace_bind; [by apply emits_publish|..].
  - intros e sent used [-> | ->]; (split; [|by split]); [|by apply log_nil].
    split; simpl; [by split|constructor; [congruence|constructor]| |constructor].
    exists [], [o], used. split_and!; [done|simpl; lia|done|done].
  - intros [] sent used [-> ->] c2. eapply emits_mono; [by apply Hk|].
    intros r sent used [Hl HQ]. split; [by eapply log_app|]. split.
    + intros _. by exists o.
    + intros a Ha. cbn. rewrite end_position_cons. by apply HQ.
Qed.

Lemma quiet_store_history history : quiet (store_history env st history) (fun _ => True).
Proof using Type.
  unfold store_history. eapply quiet_then; [apply quiet_now|]. intros now _. cbv zeta.
  eapply quiet_then; [apply quiet_disk_write|]. intros [] _. eapply quiet_mono; [apply quiet_ret|done].
Qed.

(** The position that a group is at. *)
Definition at_group (group_id sequence : Z) (g : GroupEncryptor) (p : Position) : Prop :=
  group_ok group_id sequence g /\ p = {| pos_sequence := sequence; pos_group := Some (group_id, ge_key_id g) |}.
(** The position that a new group may start at. *)
Definition before_group (group_id : Z) (p : Position) : Prop :=
  match pos_group p with Some (active, _) => active < group_id | None => True end.

Lemma at_group_after group_id sequence g kind ra o g' :
  ge_key_group g = group_id -> sealed_as g sequence kind ra o -> group_ok group_id sequence g' ->
  ge_key_id g' = ge_key_id g -> at_group group_id sequence g' (after o).
Proof using Type.
  intros <- (_ & _ & _ & Hs & Hg & Hk & _) Hg' Hkey. split; [done|]. unfold after. by rewrite Hs, Hg, Hk, Hkey.
Qed.
Lemma sealed_follows group_id sequence g p kind ra o next :
  at_group group_id sequence g p -> next = u64_saturating_add sequence 1 -> sequence < next ->
  sealed_as g next kind ra o -> follows p o.
Proof using Type.
  intros [(_ & _ & Hg & _) ->] -> Hlt (Hs & He & Hv & Hseq & Hkg & Hk & _). unfold follows. cbn.
  split_and!; [done..| |left; by rewrite Hkg, Hk]. rewrite Hseq. unfold u64_saturating_add in *. lia.
Qed.
Lemma epoch_follows group_id g p o next :
  ge_key_group g = group_id -> before_group group_id p ->
  next = u64_saturating_add (pos_sequence p) 1 -> pos_sequence p < next ->
  sealed_as g next Epoch true o -> follows p o.
Proof using Type.
  intros Hg Hb -> Hlt (Hs & He & Hv & Hseq & Hkg & _ & Hkind & Hra). unfold follows.
  split_and!; [done..| |].
  { rewrite Hseq. unfold u64_saturating_add in *. lia. }
  unfold before_group in Hb. destruct (pos_group p) as [[active key]|]; [right|]; (split; [done|]).
  - unfold validate_group_progression. rewrite guard_bind, reject_if_Ok, Hkind, Hra, Hkg, Hg. split; [lia|].
    by intros [|].
  - intros active_epoch active_group Hne. unfold validate_group_progression.
    assert ((match active_epoch, active_group with
      | Some e, Some g => reject_if (e = st_epoch_id st /\ h_key_group (header o) <= g)
          "native key group regressed within one epoch"
      | _, _ => Ok tt end) = Ok tt) as ->.
    { destruct active_epoch as [e|]; [|done]. destruct active_group; [|done]. apply reject_if_Ok. naive_solver. }
    cbn [mbind result_bind]. apply reject_if_Ok. rewrite Hkind, Hra. by intros [|].
Qed.

(** The epoch object of a new group. *)
Lemma emits_epoch p approved group_id g encoded timestamp history :
  group_ok group_id (pos_sequence p) g -> before_group group_id p ->
  emits (publish_epoch env st approved group_id g encoded (pos_sequence p) timestamp history)
    (fun r sent used => log_ok p group_id approved r sent used /\
       forall x, r = Ok x -> at_group group_id x.1.2 x.1.1 (end_position p (objects_of sent))).
Proof using Hpublic crypto_laws.
  intros Hg Hb c. unfold publish_epoch. pose proof Hg as (_ & _ & Hgid & _).
  eapply emits_quiet_bind; [apply quiet_lift|by intros e; split; [apply log_nil|]|]. intros config _ c1. cbv zeta.
  eapply emits_quiet_bind; [apply quiet_lift|by intros e; split; [apply log_nil|]|]. intros payload _ c2.
  eapply emits_mono.
  { eapply (emits_object p group_id g _ timestamp 1 Epoch true (Some H264AnnexB) payload approved _
      (fun x pos => at_group group_id x.1.2 x.1.1 pos)); [done|done| |].
    - intros o Hlt Ho. by eapply epoch_follows.
    - intros o g' Ho Hg' Hkey c3.
      eapply emits_quiet_bind; [apply quiet_now|by intros e; split; [apply log_nil|]|]. intros now _ c4.
      eapply emits_quiet_bind; [apply quiet_store_history|by intros e; split; [apply log_nil|]|]. intros history' _ c5.
      assert (forall sent, (forall m, m ∈ sent -> exists e, m = PubKeyEnvelope e /\
        addressed group_id approved e /\ eh_key_id (env_header e) = group_key_id g') ->
        forall A (r : result string A), log_ok (after o) group_id approved r sent [] /\ objects_of sent = []) as Henv.
      { intros sent Hs A r. apply log_envelopes_only. intros m (e & -> & ? & _)%Hs. eauto. }
      eapply trace_bind; [apply emits_envelopes|..].
      + intros e sent used [-> Hs]. split; [by apply Henv|done].
      + intros [] sent used [-> Hs]. intros c6. eapply emits_quiet; [apply quiet_ret|..].
        * intros e. rewrite app_nil_r. split; [by apply Henv|done].
        * intros x ->. rewrite app_nil_r. split; [by apply Henv|]. intros ? [= <-].
          destruct (Henv sent Hs unit (Ok tt)) as [_ ->]. by eapply at_group_after. }
  intros r sent used (H1 & _ & H2). done.
Qed.

(** A cursor object, behind the objects of its group. *)
Lemma emits_cursor p group_id g cursor sequence timestamp bitmaps viewers :
  at_group group_id sequence g p ->
  emits (publish_cursor env st g cursor sequence timestamp bitmaps)
    (fun r sent used => log_ok p group_id viewers r sent used /\
       forall x, r = Ok x -> at_group group_id x.1.1.2 x.1.1.1 (end_position p (objects_of sent))).
Proof using Hpublic crypto_laws.
  intros Hat c. unfold publish_cursor. destruct (cursor_to_event _ _ _ _ _) as [event bitmaps'].
  pose proof Hat as [Hg Hp]. pose proof Hg as (_ & _ & Hgid & _).
  eapply emits_quiet_bind; [apply quiet_lift|by intros e; split; [apply log_nil|]|]. intros ev _ c1.
  eapply emits_quiet_bind; [apply quiet_lift|by intros e; split; [apply log_nil|]|].
  intros next Hnext%ok_or_Ok c2. apply u64_checked_add_Some in Hnext as [-> Hmax].
  eapply emits_quiet_bind; [apply quiet_lift|by intros e; split; [apply log_nil|]|]. intros payload _ c3.
  assert (sequence + 1 = u64_saturating_add sequence 1) as Hsat by (unfold u64_saturating_add, u64_ok in *; lia).
  eapply emits_mono.
  { eapply (emits_object p group_id g (sequence + 1) timestamp 1 Cursor false None payload viewers _
      (fun x pos => at_group group_id x.1.1.2 x.1.1.1 pos)); [by rewrite Hp|by rewrite Hp| |].
    - intros o Hlt Ho. eapply sealed_follows; [done|done| |done]. by rewrite Hp in Hlt.
    - intros o g' Ho Hg' Hkey c4. eapply emits_quiet; [apply quiet_ret|by intros e; split; [apply log_nil|]|].
      intros x ->. split; [by apply log_nil|]. intros ? [= <-]. by eapply at_group_after. }
  intros r sent used (H1 & _ & H2). done.
Qed.

(** ** The state of the loop *)

Definition state_position (s : UploadState) : Position := {|
  pos_sequence := us_sequence s;
  pos_group := (fun g => (ge_key_group g, ge_key_id g)) <$> us_group s |}.
Definition state_ok (s : UploadState) : Prop :=
  forall g, us_group s = Some g -> group_ok (us_group_id s) (us_sequence s) g.

Definition turn_post (p : Position) (viewers : list IdentityPublic) (group_id : Z)
    (r : result string UploadState) (sent : list PublisherMessage)
    (used : list (option RelayPublisherMessage)) : Prop :=
  log_ok p group_id viewers r sent used /\
  forall s, r = Ok s -> state_position s = end_position p (objects_of sent) /\ state_ok s /\
    us_approved s = viewers /\ us_group_id s = group_id /\ is_Some (us_group s) /\ objects_of sent <> [].

Lemma emits_frame s tick (starts : bool) approved group_id g encoder encoded :
  (if starts then group_ok group_id (us_sequence s) g /\ before_group group_id (state_position s)
   else at_group group_id (us_sequence s) g (state_position s)) ->
  emits (publish_frame env st s tick starts approved group_id g encoder encoded)
    (turn_post (state_position s) approved group_id).
Proof using Hpublic crypto_laws.
  intros Hpre c. unfold publish_frame. set (p := state_position s) in *.
  eapply (trace_bind _ _ (fun r sent used => log_ok p group_id approved r sent used /\
    forall x, r = Ok x -> at_group group_id x.1.2 x.1.1 (end_position p (objects_of sent)))).
  { destruct starts.
    - destruct Hpre as [Hg Hb]. eapply trace_bind; [by apply (emits_epoch p)|..].
      + intros e sent used [Hl _]. split; [|done]. by eapply log_mono; [|exact Hl].
      + intros [sealed history] sent used [Hl Hat] c1. specialize (Hat _ eq_refl).
        eapply emits_quiet; [apply quiet_ret|..].
        * intros e. rewrite !app_nil_r. split; [|done]. by eapply log_mono; [|exact Hl].
        * intros x ->. rewrite !app_nil_r. split; [by eapply log_mono; [|exact Hl]|by intros ? [= <-]].
    - eapply emits_quiet; [apply quiet_ret|by intros e; split; [apply log_nil|]|].
      intros x ->. split; [by apply log_nil|]. by intros ? [= <-]. }
  { intros e sent used [Hl _]. split; [|done]. by eapply log_mono; [|exact Hl]. }
  intros [[g1 sequence] history] sent used [Hl Hat]. specialize (Hat _ eq_refl). cbn [fst snd] in Hat.
  set (p1 := end_position p (objects_of sent)) in *. intros c1. pose proof Hat as [Hg1 Hp1].
  pose proof Hg1 as (_ & _ & Hgid1 & _).
  eapply emits_mono.
  { eapply (emits_object p1 group_id g1 _ _ _ Media _ _ _ approved _
      (fun s' pos => state_position s' = pos /\ state_ok s' /\ us_approved s' = approved /\
         us_group_id s' = group_id /\ is_Some (us_group s'))); [by rewrite Hp1|by rewrite Hp1| |].
    - intros o Hlt Ho. eapply sealed_follows; [done|done| |done]. by rewrite Hp1 in Hlt.
    - intros o g2 Ho Hg2 Hkey c2.
      pose proof (at_group_after _ _ _ _ _ _ _ Hgid1 Ho Hg2 Hkey) as Hat2.
      eapply emits_quiet_bind; [apply quiet_lift|by intros e; split; [apply log_nil|]|]. intros cursor _ c3.
      eapply (trace_bind _ _ (fun r sent used => log_ok (after o) group_id approved r sent used /\
        forall x, r = Ok x -> at_group group_id x.1.1.2 x.1.1.1 (end_position (after o) (objects_of sent)))).
      { destruct cursor as [cursor|].
        - eapply trace_bind; [by eapply emits_cursor|..].
          + intros e sent' used' [Hl' _]. split; [|done]. by eapply log_mono; [|exact Hl'].
          + intros [sealed bitmaps] sent' used' [Hl' Hat'] c4. specialize (Hat' _ eq_refl).
            eapply emits_quiet; [apply quiet_ret|..].
            * intros e. rewrite !app_nil_r. split; [|done]. by eapply log_mono; [|exact Hl'].
            * intros x ->. rewrite !app_nil_r. split; [by eapply log_mono; [|exact Hl']|]. by intros ? [= <-].
        - eapply emits_quiet; [apply quiet_ret|by intros e; split; [apply log_nil|]|].
          intros x ->. split; [by apply log_nil|]. by intros ? [= <-]. }
      { intros e sent' used' [Hl' _]. split; [|done]. by eapply log_mono; [|exact Hl']. }
      intros [[[g3 sequence3] cursor_bytes] bitmaps] sent' used' [Hl' Hat'] c4. specialize (Hat' _ eq_refl).
      cbn [fst snd] in Hat'.
      assert (forall A (r : result string A), log_ok (after o) group_id approved r sent' used') as Hlog
        by (intros A r; by eapply log_mono; [|exact Hl']).
      eapply emits_quiet_bind; [apply quiet_store_history|intros e; rewrite !app_nil_r; by split|].
      intros history' _ c5. eapply emits_quiet; [apply quiet_ret|intros e; rewrite !app_nil_r; by split|].
      intros s' ->. rewrite !app_nil_r. split; [done|]. intros s' [= <-]. destruct Hat' as [Hg3 Hp3].
      pose proof Hg3 as (_ & _ & Hgid3 & _). rewrite Hp3. unfold state_position, state_ok. cbn. rewrite Hgid3.
      split_and!; [done| |done|done|by eexists]. by intros ? [= <-]. }
  intros r sent' used' (H1 & H2 & H3). split; [by eapply log_app|]. intros s' ->. destruct (H3 s' eq_refl) as (? & ? & ? & ? & ?).
  rewrite omap_app, end_position_app. split_and!; try done.
  destruct (H2 eq_refl) as (o & Ho & _). rewrite Ho. by destruct (objects_of sent).
Qed.

(** ** Reading the approvals *)

Lemma group_generate_Ok identity stream epoch group_id sequence ids prefix keys g :
  group_generate identity stream epoch group_id sequence ids prefix keys = Some (Ok g) ->
  ge_stream_id g = stream /\ ge_epoch_id g = epoch /\ ge_key_group g = group_id /\ ge_last_sequence g = sequence.
Proof using Type.
  unfold group_generate. case_decide; [done|]. intros (key_id & _ & (key & _ & [= Hg])%bind_Some)%bind_Some.
  unfold group_restore in Hg. rewrite guard_bind in Hg. destruct Hg as [_ Hg].
  apply bind_Ok_inv in Hg as (id & _ & Hg). by apply bind_Ok_inv in Hg as (k & _ & [= <-]).
Qed.
Lemma quiet_next_group group_id sequence :
  quiet (next_group env st group_id sequence) (group_ok group_id sequence).
Proof using Type.
  unfold next_group. eapply quiet_then; [apply quiet_lift|]. intros identity _.
  eapply quiet_mono; [apply quiet_entropy|]. intros g (entropy & H). unfold group_ok.
  destruct (group_generate _ _ _ _ _ _ _ _) as [x|] eqn:E; [|done]. injection H as ->%context_Ok.
  by eapply group_generate_Ok.
Qed.

Lemma checked_ids_Ok viewers ids :
  checked_ids viewers = Ok ids -> Forall2 (fun viewer id => viewer_id viewer = Some id) viewers ids.
Proof using Type.
  unfold checked_ids. intros H%mapR_Ok. eapply Forall2_impl; [exact H|]. intros viewer id Hid%context_Ok.
  unfold viewer_id. by rewrite Hid.
Qed.
(** The viewers of a list with a fingerprint. *)
Definition approves (viewers : list IdentityPublic) (id : array 32) : Prop :=
  exists viewer, viewer ∈ viewers /\ viewer_id viewer = Some id.
Lemma approves_ids viewers ids id : checked_ids viewers = Ok ids -> approves viewers id <-> id ∈ ids.
Proof using Type.
  intros H%checked_ids_Ok. split.
  - intros (v & Hv & Hid). apply list_elem_of_lookup in Hv as [i Hi].
    destruct (Forall2_lookup_l _ _ _ _ _ H Hi) as (id' & Hid' & ?).
    apply list_elem_of_lookup. exists i. congruence.
  - intros [i Hi]%list_elem_of_lookup. destruct (Forall2_lookup_r _ _ _ _ _ H Hi) as (v & Hv & ?).
    exists v. split; [by eapply list_elem_of_lookup_2|done].
Qed.

Lemma read_approved_run approved c a c' :
  read_approved env st approved c = (Ok a, c') ->
  cl_sent c' = cl_sent c /\ cl_replies c' = cl_replies c /\
  approved_viewers (disk_state (env_disk env (cl_step c) (cl_disk c))) (st_stream_id st) = Ok (latest_approved a) /\
  (forall viewer, viewer ∈ newly_approved a -> viewer ∈ latest_approved a) /\
  (some_revoked a = false -> forall id, approves approved id -> approves (latest_approved a) id).
Proof using Type.
  unfold read_approved. intros (latest & c1 & Hd & H)%io_bind_Ok. unfold disk_call in Hd. injection Hd as Hd <-.
  apply io_bind_Ok in H as (previous & c2 & [Hp ->]%lift_Ok & H).
  apply io_bind_Ok in H as (ids & c3 & [Hl ->]%lift_Ok & [= <- <-]). cbn.
  split_and!; try done.
  - by intros viewer [_ Hv]%list_elem_of_filter.
  - intros Hr%bool_decide_eq_false id Hid. rewrite (approves_ids _ _ _ Hl). rewrite (approves_ids _ _ _ Hp) in Hid.
    rewrite <-Forall_Exists_neg, Forall_forall in Hr. specialize (Hr id Hid). by apply dec_stable in Hr.
Qed.

Lemma quiet_read_approved approved : quiet (read_approved env st approved) (fun _ => True).
Proof using Type.
  unfold read_approved. eapply quiet_then; [apply quiet_disk|]. intros latest _.
  eapply quiet_then; [apply quiet_lift|]. intros previous _. eapply quiet_then; [apply quiet_lift|]. intros ids _.
  eapply quiet_mono; [apply quiet_ret|done].
Qed.

(** The outcome of a turn that read these viewers. *)
Definition turn_result (s : UploadState) (viewers : list IdentityPublic) (group_id : Z)
    (r : result string (option UploadState)) (sent : list PublisherMessage)
    (used : list (option RelayPublisherMessage)) : Prop :=
  log_ok (state_position s) group_id viewers r sent used /\
  (group_id = us_group_id s + 1 \/
   (group_id = us_group_id s /\ is_Some (us_group s) /\
    forall id, approves (us_approved s) id -> approves viewers id)) /\
  forall s', r = Ok (Some s') -> state_position s' = end_position (state_position s) (objects_of sent) /\
    state_ok s' /\ us_approved s' = viewers /\ us_group_id s' = group_id /\ is_Some (us_group s') /\
    objects_of sent <> [].


(** The rest of a turn, from the choice of the group on. *)
Lemma emits_turn_group s starts a p :
  p = state_position s -> state_ok s -> us_group_id s < u64_max ->
  (starts = false -> is_Some (us_group s)) ->
  (forall viewer, viewer ∈ newly_approved a -> viewer ∈ latest_approved a) ->
  emits (turn_group env st s starts a) (fun r sent used => objects_of sent = [] /\ used = [] /\
    exists group_id, Forall (addressed group_id (latest_approved a)) (envelopes_of sent) /\
      group_id = us_group_id s + Z.b2z starts /\
      forall x, r = Ok x -> x.1 = group_id /\
        (if starts then group_ok group_id (us_sequence s) x.2 /\ before_group group_id p
         else at_group group_id (us_sequence s) x.2 p)).
Proof using Hpublic.
  intros -> Hs Hmax Hgroup Hnew c. unfold turn_group. destruct starts.
  - assert (u64_saturating_add (us_group_id s) 1 = us_group_id s + 1) as -> by (unfold u64_saturating_add; lia).
    eapply emits_quiet_bind; [apply quiet_next_group|..].
    { intros e. split_and!; [done..|]. exists (us_group_id s + 1). split_and!; [constructor|done|done]. }
    intros g Hg c1. eapply emits_quiet; [apply quiet_ret|..].
    { intros e. split_and!; [done..|]. exists (us_group_id s + 1). split_and!; [constructor|done|done]. }
    intros x ->. split_and!; [done..|]. exists (us_group_id s + 1). split_and!; [constructor|done|].
    intros ? [= <-]. split_and!; [done..|]. unfold before_group, state_position. cbn.
    destruct (us_group s) as [g0|] eqn:E; [|done]. cbn. destruct (Hs g0 E) as (_ & _ & -> & _). lia.
  - destruct (Hgroup eq_refl) as [g Eg]. rewrite Eg. simpl. rewrite Z.add_0_r.
    assert (at_group (us_group_id s) (us_sequence s) g (state_position s)) as Hat.
    { split; [by apply Hs|]. unfold state_position. rewrite Eg. cbn. by destruct (Hs g Eg) as (_ & _ & -> & _). }
    assert (forall sent, (forall m, m ∈ sent -> exists e, m = PubKeyEnvelope e /\
      addressed (us_group_id s) (newly_approved a) e /\ eh_key_id (env_header e) = group_key_id g) ->
      objects_of sent = [] /\ Forall (addressed (us_group_id s) (latest_approved a)) (envelopes_of sent)) as Henv.
    { intros sent Hm. destruct (log_envelopes_only (state_position s) (us_group_id s) (latest_approved a)
        (Ok tt : result string unit) sent) as [[_ _ _ L4] Hno]; [|done].
      intros m (e & -> & (? & ? & ? & v & Hv & ?) & _)%Hm. exists e. split; [done|]. split_and!; try done.
      exists v. split; [by apply Hnew|done]. }
    eapply trace_bind; [apply emits_envelopes|..].
    + intros e sent used [-> Hm]. destruct (Henv sent Hm). split_and!; [done..|]. by exists (us_group_id s).
    + intros [] sent used [-> Hm] c1. destruct (Henv sent Hm). eapply emits_quiet; [apply quiet_ret|..].
      * intros e. rewrite app_nil_r. split_and!; [done..|]. by exists (us_group_id s).
      * intros x ->. rewrite app_nil_r. split_and!; [done..|]. exists (us_group_id s). split_and!; [done..|].
        by intros ? [= <-].
Qed.

Lemma upload_turn_log s tick c r c' :
  state_ok s -> us_group_id s < u64_max -> upload_turn env st s tick c = (r, c') ->
  exists sent used, cl_sent c' = cl_sent c ++ sent /\ cl_replies c = used ++ cl_replies c' /\
    ((sent = [] /\ used = [] /\ forall s', r <> Ok (Some s')) \/
     exists viewers group_id,
       approved_viewers (disk_state (env_disk env (cl_step c) (cl_disk c))) (st_stream_id st) = Ok viewers /\
       turn_result s viewers group_id r sent used).
Proof using Hpublic crypto_laws.
  intros Hs Hmax. unfold upload_turn. destruct (tick_shutdown tick).
  { intros [= <- <-]. exists [], []. rewrite app_nil_r. split_and!; auto. }
  intros [(e & H & ->)|(a & c1 & H & Hr)]%io_bind_run.
  { destruct (quiet_read_approved _ _ _ _ H) as (-> & -> & _). exists [], []. rewrite app_nil_r. split_and!; auto. }
  apply read_approved_run in H as (Hs1 & Hr1 & Hview & Hnew & Hkeep). rewrite <-Hs1, <-Hr1.
  set (starts := bool_decide (us_group s = None \/ some_revoked a = true \/
    us_frame_index s mod st_group_frames st = 0)) in *.
  assert (starts = false -> is_Some (us_group s) /\ some_revoked a = false) as Hstarts.
  { intros H%bool_decide_eq_false. split; [apply not_eq_None_Some; tauto|]. destruct (some_revoked a); tauto. }
  set (gid := us_group_id s + Z.b2z starts).
  assert (gid = us_group_id s + 1 \/ (gid = us_group_id s /\ is_Some (us_group s) /\
    forall id, approves (us_approved s) id -> approves (latest_approved a) id)) as Hgid.
  { unfold gid. destruct starts; [by left|right]. destruct (Hstarts eq_refl). simpl. rewrite Z.add_0_r. auto. }
  enough (emits_from c1 (let? (group_id, group) := turn_group env st s starts a in
    match us_next_frame s, tick_frame tick with
    | None, CaptureShutdown => mret None
    | None, CaptureFailed => lift (Err "capturing a frame")
    | Some frame, _ | None, Captured frame =>
        let '(encoded, encoder) := encode_request (us_encoder s) frame starts in
        let? encoded := lift encoded in
        lift (reject_if (starts = true /\ keyframe encoded = false)
          "H.264 key group did not begin with an IDR") then?
        let? s := publish_frame env st s tick starts (latest_approved a) group_id group encoder encoded in
        mret (Some s)
    end) (turn_result s (latest_approved a) gid)) as Hem.
  { destruct (Hem _ _ Hr) as (sent & used & ? & ? & ?). exists sent, used. split_and!; [done..|]. right. eauto. }
  clear Hr. assert (forall sent, objects_of sent = [] ->
    Forall (addressed gid (latest_approved a)) (envelopes_of sent) -> forall A (r : result string A),
    log_ok (state_position s) gid (latest_approved a) r sent []) as Hlog.
  { intros sent Ho He A r0. split; rewrite ?Ho; [done|constructor| |done]. exists [], [], []. split_and!; simpl; auto. }
  assert (forall sent r0, objects_of sent = [] -> Forall (addressed gid (latest_approved a)) (envelopes_of sent) ->
    (forall s', r0 <> Ok (Some s')) -> turn_result s (latest_approved a) gid r0 sent []) as Hnone.
  { intros sent r0 Ho He Hno. split; [by apply Hlog|]. split; [done|]. intros s' ->. by destruct (Hno s'). }
  eapply trace_bind; [apply (emits_turn_group s starts a _ eq_refl); [done|done|by intros H; apply Hstarts|done]|..].
  { intros e sent used (Ho & -> & gid' & He & -> & _). by apply Hnone. }
  intros [group_id group] sent used (Ho & -> & gid' & He & Hg' & Hx) c2.
  destruct (Hx _ eq_refl) as [Hgid' Hpre]. cbn [fst snd] in *. fold gid in Hg'. subst gid' group_id.
  assert (forall frame, emits_from c2 (let '(encoded, encoder) := encode_request (us_encoder s) frame starts in
        let? encoded := lift encoded in
        lift (reject_if (starts = true /\ keyframe encoded = false)
          "H.264 key group did not begin with an IDR") then?
        let? s := publish_frame env st s tick starts (latest_approved a) gid group encoder encoded in
        mret (Some s)) (fun r sent' used' => turn_result s (latest_approved a) gid r (sent ++ sent') ([] ++ used'))) as Hframe.
  { intros frame. destruct (encode_request _ _ _) as [encoded encoder].
    eapply emits_quiet_bind; [apply quiet_lift|by intros e; rewrite app_nil_r; apply Hnone|]. intros enc _ c3.
    eapply emits_quiet_bind; [apply quiet_lift|by intros e; rewrite app_nil_r; apply Hnone|]. intros [] _ c4.
    eapply trace_bind; [by apply emits_frame|..].
    - intros e sent' used' [Hl _]. split; [|by split].
      apply (log_app _ _ _ tt); [by apply Hlog|]. unfold end_position. rewrite Ho. by eapply log_mono; [|exact Hl].
    - intros s' sent' used' [Hl Hpost] c5. eapply emits_quiet; [apply quiet_ret|..].
      + intros e. rewrite !app_nil_r. split; [|by split].
        apply (log_app _ _ _ tt); [by apply Hlog|]. unfold end_position. rewrite Ho. by eapply log_mono; [|exact Hl].
      + intros x ->. rewrite !app_nil_r. split; [|split; [done|]].
        * apply (log_app _ _ _ tt); [by apply Hlog|]. unfold end_position. rewrite Ho. by eapply log_mono; [|exact Hl].
        * intros ? [= <-]. rewrite omap_app, Ho. by apply Hpost. }
  destruct (us_next_frame s) as [frame|]; [apply Hframe|].
  destruct (tick_frame tick) as [frame| |]; [apply Hframe|..].
  - eapply emits_quiet; [apply quiet_ret|by intros e; rewrite app_nil_r; apply Hnone|].
    intros x ->. rewrite app_nil_r. by apply Hnone.
  - eapply emits_quiet; [apply quiet_lift|by intros e; rewrite app_nil_r; apply Hnone|done].
Qed.
End publication.

(** * The session *)

Section session.
Context `{crypto : !Crypto, crypto_laws : !CryptoLaws, addrs : !SocketAddrs, ports : !SocketPorts}.
Context `{codecs : !Codecs, relay_file : !Postcard KnownRelayFile, history_file : !Postcard KeyHistory}.
Context `{state_file : !Postcard PublisherState, state_file_v2 : !Postcard PublisherStateV2}.
Context `{library : !OpenH264}.
Context (env : ClientEnv PublisherDisk RelayPublisherMessage).
Abbreviation admin_client := (Client PublisherDisk PublisherMessage RelayPublisherMessage).

(** What a session wrote and read of a publication from a position on: all
    objects but perhaps the last were acknowledged, in their order. *)
Definition published (st : UploadStream) (public : IdentityPublic) (p : Position) {A} (r : result string A)
    (sent : list PublisherMessage) (used : list (option RelayPublisherMessage)) : Prop :=
  publication st public p (objects_of sent) /\
  exists acked pending failed, objects_of sent = acked ++ pending /\ (length pending <= 1)%nat /\
    used = (ack <$> acked) ++ failed /\ (is_ok r = true -> pending = [] /\ failed = []).

Lemma published_nil st public p {A} (r : result string A) used :
  (is_ok r = true -> used = []) -> published st public p r [] used.
Proof using Type. intros H. split; [done|]. exists [], [], used. split_and!; simpl; auto. Qed.
Lemma published_turn st public p group_id viewers {A B} (r : result string A) (r' : result string B) sent used :
  (is_ok r' = true -> is_ok r = true) -> log_ok st public p group_id viewers r sent used ->
  published st public p r' sent used.
Proof using Type.
  intros Hr [L1 _ (a & b & f & ? & ? & ? & Hok) _]. split; [done|]. exists a, b, f. by split_and!; auto.
Qed.
Lemma published_mono st public p {A B} (r : result string A) (r' : result string B) sent used :
  (is_ok r' = true -> is_ok r = true) -> published st public p r sent used -> published st public p r' sent used.
Proof using Type.
  intros Hr [? (a & b & f & ? & ? & ? & Hok)]. split; [done|]. exists a, b, f. by split_and!; auto.
Qed.
Lemma published_app st public p {A B} (a : A) sent used (r : result string B) sent' used' :
  published st public p (Ok a : result string A) sent used ->
  published st public (end_position p (objects_of sent)) r sent' used' ->
  published st public p r (sent ++ sent') (used ++ used').
Proof using Type.
  intros [P1 (acked & pending & failed & Ho & _ & Hu & Hok)] [P2 (acked' & pending' & failed' & Ho' & Hl' & Hu' & Hok')].
  destruct (Hok eq_refl) as [-> ->]. rewrite app_nil_r in Ho, Hu. split; rewrite ?omap_app.
  - by apply publication_app.
  - exists (acked ++ acked'), pending', failed'. rewrite Ho, Ho', Hu, Hu', fmap_app, <-!app_assoc. by split_and!.
Qed.

Lemma emits_loop st public ticks s :
  identity_public (st_identity st) = Ok public ->
  state_ok st s -> us_group_id s + zlen ticks <= u64_max ->
  emits (upload_loop env st s ticks) (published st public (state_position s)).
Proof using crypto_laws.
  intros Hpub. revert s. induction ticks as [|tick ticks IH]; intros s Hs Hmax c; cbn [upload_loop].
  { eapply emits_quiet; [apply quiet_ret|..]; intros; by apply published_nil. }
  assert (zlen (tick :: ticks) = zlen ticks + 1) as Hlen by (cbn [length]; lia). cbn [length] in Hmax.
  eapply (trace_bind _ _ (fun r sent used => match r with
    | Ok (Some next) => published st public (state_position s) r sent used /\
        state_position next = end_position (state_position s) (objects_of sent) /\
        state_ok st next /\ us_group_id next <= us_group_id s + 1
    | _ => published st public (state_position s) r sent used
    end)).
  - intros r c' H'.
    destruct (upload_turn_log st public env Hpub s tick c r c' Hs ltac:(lia) H')
      as (sent & used & Hsent & Hused & Hcase).
    exists sent, used. split_and!; [done..|].
    destruct Hcase as [(-> & -> & Hno)|(viewers & gid & _ & Hl & Hgid & Hok)].
    + destruct r as [[s'|]|]; [by destruct (Hno s')|by apply published_nil..].
    + destruct r as [[s'|]|]; [|by eapply published_turn; [|exact Hl]..].
      destruct (Hok s' eq_refl) as (Hpos & Hs' & _ & Hg & _). split_and!; [by eapply published_turn|done|done|lia].
  - intros e sent used Hp. done.
  - intros [next|] sent used Hp c1.
    + destruct Hp as (Hp & Hpos & Hnext & Hgid). eapply emits_mono; [apply IH; [done|lia]|].
      intros r sent' used' Hp'. eapply published_app; [done|]. by rewrite <-Hpos.
    + eapply emits_quiet; [apply quiet_ret|..]; intros; rewrite !app_nil_r; by eapply published_mono; [|exact Hp].
Qed.

Lemma handshake_quiet endpoint pin (c : admin_client) r c' :
  publisher_handshake env endpoint pin c = (r, c') ->
  cl_sent c' = cl_sent c /\ cl_replies c' = conn_replies (env_connection env (cl_step c)).
Proof using Type.
  unfold publisher_handshake, open_connection. intros [(e & [=] & _)|(remote & c1 & [= <- <-] & H)]%io_bind_run.
  assert (quiet (let? known := get_known env endpoint in
    let? actual := lift (check_remote (match pin with Some key => Some key | None => known end)
      (conn_remote (env_connection env (cl_step c)))) in
    learn_unpinned env endpoint pin actual then? mret actual : client PublisherDisk PublisherMessage _ _) (fun _ => True)) as Hq.
  { eapply quiet_then; [apply quiet_disk|]. intros known _. eapply quiet_then; [apply quiet_lift|]. intros actual _.
    eapply (quiet_then _ _ (fun _ => True)).
    { unfold learn_unpinned. destruct pin; [eapply quiet_mono; [apply quiet_ret|]|eapply quiet_mono; [apply quiet_disk_write|]]; done. }
    intros [] _. eapply quiet_mono; [apply quiet_ret|done]. }
  by apply Hq in H as (? & ? & _).
Qed.

(** The whole conversation of a session: greeting, resumption and descriptor,
    then a publication that continues what the relay has in a fresh epoch. *)
Definition conversation (config : UploadConfig) (public : IdentityPublic) {A} (r : result string A)
    (sent : list PublisherMessage) (used : list (option RelayPublisherMessage)) : Prop :=
  (objects_of sent = [] /\ envelopes_of sent = [] /\ is_ok r = false) \/
  exists st draws publisher hello descriptor welcome state states body replies,
    st_identity st = up_identity config /\
    stable_stream_id (up_identity config) (default (ascii_str "default") (up_label config)) = Ok (st_stream_id st) /\
    uuid_new_v4 draws = Some (st_epoch_id st) /\ identity_id public = Ok publisher /\
    sent = [PubHello hello;
            PubResume publisher [{| prs_stream_id := st_stream_id st; prs_next_sequence := 1;
                                    prs_epoch_id := st_epoch_id st; prs_key_group := 1 |}];
            PubDescriptor descriptor] ++ body /\
    used = [Some (RpWelcome welcome); Some (RpResumeState (state :: states))] ++ replies /\
    rrs_stream_id state = st_stream_id st /\
    published st public {| pos_sequence := rrs_committed_through state; pos_group := None |} r body replies.

Lemma emits_greet identity credential :
  emits (greet env identity credential : client PublisherDisk _ _ _) (fun r sent used =>
    match r with
    | Ok _ => exists hello welcome, sent = [PubHello hello] /\ used = [Some (RpWelcome welcome)]
    | Err _ => objects_of sent = [] /\ envelopes_of sent = []
    end).
Proof using Type.
  intros c. unfold greet. eapply emits_quiet_bind; [apply quiet_lift|done|]. intros public _ c1.
  eapply trace_bind; [apply trace_write|..].
  { by intros e sent used (_ & [->|[-> _]]). }
  intros [] sent used (-> & [->|[_ ?]]); [|done]. intros c2. eapply trace_bind; [apply trace_read|..].
  { by intros e sent used [-> _]. }
  intros reply sent used [-> Hu] c3. specialize (Hu reply eq_refl) as ->.
  destruct reply; try (eapply emits_quiet; [apply quiet_lift|done|done]).
  eapply emits_quiet; [apply quiet_ret|done|]. intros [] _. by eexists _, _.
Qed.
Lemma emits_resume config stream epoch public :
  identity_public (up_identity config) = Ok public ->
  emits (resume_stream env config stream epoch : client PublisherDisk _ _ _) (fun r sent used =>
    match r with
    | Ok committed => exists publisher state states, identity_id public = Ok publisher /\
        sent = [PubResume publisher [{| prs_stream_id := stream; prs_next_sequence := 1;
                                        prs_epoch_id := epoch; prs_key_group := 1 |}]] /\
        used = [Some (RpResumeState (state :: states))] /\ rrs_stream_id state = stream /\
        committed = rrs_committed_through state
    | Err _ => objects_of sent = [] /\ envelopes_of sent = []
    end).
Proof using Type.
  intros Hpub c. unfold resume_stream.
  eapply emits_quiet_bind; [apply quiet_lift|done|]. intros public' H%context_Ok c1. rewrite Hpub in H. injection H as <-.
  eapply emits_quiet_bind; [apply quiet_lift|done|]. intros id Hid%context_Ok c2.
  eapply trace_bind; [apply trace_write|..].
  { by intros e sent used (_ & [->|[-> _]]). }
  intros [] sent used (-> & [->|[_ ?]]); [|done]. intros c3. eapply trace_bind; [apply trace_read|..].
  { by intros e sent used [-> _]. }
  intros reply sent used [-> Hu] c4. specialize (Hu reply eq_refl) as ->.
  destruct reply; try (eapply emits_quiet; [apply quiet_lift|done|done]).
  destruct streams as [|state states]; [eapply emits_quiet; [apply quiet_lift|done|done]|].
  eapply emits_quiet_bind; [apply quiet_lift|done|]. intros [] Hs%reject_if_Ok c5. apply dec_stable in Hs.
  eapply emits_quiet; [apply quiet_ret|done|]. intros committed ->. 
  simpl. exists id, state, states. by split_and!.
Qed.

(** C3: against every relay, entropy source, clock and failing write, an upload
    session sends a greeting, a resumption and a descriptor, and then objects
    that start behind what the relay acknowledged for the stream, under a fresh
    epoch: each is signed by the publisher, has the next sequence and continues
    the group of the one before or starts one in a way that the relay's rule for
    groups accepts; and an object is only sent once the relay has acknowledged
    all the objects before it. *)
Theorem upload_conversation config first ticks public (c : admin_client) r c' :
  identity_public (up_identity config) = Ok public ->
  zlen ticks <= u64_max ->
  run_native_client env config first ticks c = (r, c') ->
  exists sent used, cl_sent c' = cl_sent c ++ sent /\
    conn_replies (env_connection env (cl_step c)) = used ++ cl_replies c' /\
    conversation config public r sent used.
Proof using crypto_laws.
  intros Hpub Hmax. unfold run_native_client. cbv zeta.
  intros [(e & H & ->)|(remote & c1 & H & Hr)]%io_bind_run.
  { apply handshake_quiet in H as [-> <-]. exists [], []. rewrite app_nil_r. split_and!; [done..|by left]. }
  apply handshake_quiet in H as [<- <-].
  match type of Hr with ?m c1 = _ => cut (emits_from c1 m (conversation config public));
    [intros Hem; exact (Hem _ _ Hr)|] end.
  clear Hr. eapply trace_bind; [apply emits_greet|..].
  { intros e sent used [? ?]. by left. }
  intros [] sent used (hello & welcome & -> & ->) c2.
  eapply emits_quiet_bind; [apply quiet_lift|by left|]. intros stream Hstream c3.
  eapply emits_quiet_bind; [apply quiet_entropy|by left|]. intros epoch (entropy & Hepoch) c4.
  destruct (uuid_new_v4 (draws16 entropy)) as [epoch'|] eqn:Euuid; [|done]. injection Hepoch as ->.
  eapply trace_bind; [by apply emits_resume|..].
  { intros e sent used [Ho He]. left. by rewrite !omap_app, Ho, He. }
  intros committed sent used (publisher & state & states & Hid & -> & -> & Hstate & ->) c5. simpl.
  eapply emits_quiet_bind; [apply quiet_now|by left|]. intros now _ c6.
  eapply emits_quiet_bind; [apply quiet_lift|by left|]. intros descriptor _ c7.
  eapply trace_bind; [apply trace_write|..].
  { by intros e sent used (-> & [->|[-> _]]); left. }
  intros [] sent used (-> & [->|[_ ?]]) c8; [|done]. simpl.
  eapply emits_quiet_bind; [apply quiet_lift|by left|]. intros frame _ c9.
  eapply emits_quiet_bind; [apply quiet_lift|by left|]. intros encoder _ c10.
  eapply emits_quiet_bind; [apply quiet_disk|by left|]. intros approved _ c11.
  eapply emits_quiet_bind; [apply quiet_disk|by left|]. intros keys _ c12.
  eapply emits_quiet_bind; [apply quiet_lift|by left|]. intros history_bytes _ c13.
  eapply emits_quiet_bind; [apply quiet_lift|by left|]. intros history_seconds _ c14.
  eapply emits_mono; [by eapply emits_loop|].
  intros r' sent used Hp. right. do 10 eexists. split_and!; [..|exact Hp]; done.
Qed.

(** The turns of a session so far, with what they sent. *)
Inductive turns (st : UploadStream) : UploadState -> admin_client -> list PublisherMessage ->
    UploadState -> admin_client -> Prop :=
| turns_nil s c : turns st s c [] s c
| turns_step s0 c0 log s c tick s' c' sent :
    turns st s0 c0 log s c -> us_group_id s < u64_max ->
    upload_turn env st s tick c = (Ok (Some s'), c') -> cl_sent c' = cl_sent c ++ sent ->
    turns st s0 c0 (log ++ sent) s' c'.

(** The envelopes so far are for groups up to the current one, and those of the
    current one are for viewers that are still approved. *)
Definition keys_confined (s : UploadState) (log : list PublisherMessage) : Prop :=
  Forall (fun e => eh_key_group_id (env_header e) <= us_group_id s /\
    (eh_key_group_id (env_header e) = us_group_id s ->
     approves (us_approved s) (eh_recipient_id (env_header e)))) (envelopes_of log).

Lemma turn_keys st public s log viewers group_id r sent used :
  turn_result st public s viewers group_id r sent used -> keys_confined s log ->
  Forall (fun e => eh_key_group_id (env_header e) <= group_id /\
    (eh_key_group_id (env_header e) = group_id -> approves viewers (eh_recipient_id (env_header e))))
    (envelopes_of (log ++ sent)).
Proof using Type.
  intros ([_ _ _ L4] & Hgid & _) Hlog. rewrite omap_app. apply Forall_app. split.
  - eapply Forall_impl; [exact Hlog|]. intros e [Hle Heq]. destruct Hgid as [->|(-> & _ & Hkeep)]; [split; [lia|lia]|].
    split; [done|]. intros H. by apply Hkeep, Heq.
  - eapply Forall_impl; [exact L4|]. intros e (_ & _ & -> & v & Hv & Hid). split; [done|]. intros _. by exists v.
Qed.
Lemma turns_confined st public s0 c0 log s c :
  identity_public (st_identity st) = Ok public -> state_ok st s0 -> turns st s0 c0 log s c ->
  state_ok st s /\ keys_confined s log.
Proof using crypto_laws.
  intros Hpub Hs0. induction 1 as [s c|s0 c0 log s c tick s' c' sent Hturns IH Hmax Hturn Hsent].
  { split; [done|]. apply Forall_nil_2. }
  destruct (IH Hs0) as [Hs Hlog].
  destruct (upload_turn_log st public env Hpub s tick c _ c' Hs Hmax Hturn)
    as (sent' & used & Hsent' & _ & [(_ & _ & Hno)|(viewers & gid & _ & Hres)]); [by destruct (Hno s')|].
  rewrite Hsent in Hsent'. apply app_inv_head in Hsent' as <-.
  destruct (proj2 (proj2 Hres) s' eq_refl) as (_ & Hs' & Hv & Hg & _). split; [done|].
  unfold keys_confined. rewrite Hv, Hg. by eapply turn_keys.
Qed.

(** C4: group keys stay with the approved viewers: in a session that started
    without a group, whatever the relay, the clock and other processes do, the
    key of a group has only been sent in envelopes for viewers that the state
    file, as the current turn read it, approves for the stream, if the turn
    sends any object of that group; so a viewer that a revocation has removed
    gets no key of a later object. *)
Theorem group_keys_confined st public s0 c0 log s c tick r c' sent o e :
  identity_public (st_identity st) = Ok public ->
  us_group s0 = None ->
  turns st s0 c0 log s c ->
  us_group_id s < u64_max ->
  upload_turn env st s tick c = (r, c') ->
  cl_sent c' = cl_sent c ++ sent ->
  o ∈ objects_of sent ->
  e ∈ envelopes_of (log ++ sent) ->
  eh_key_group_id (env_header e) = h_key_group (header o) ->
  exists viewers,
    approved_viewers (disk_state (env_disk env (cl_step c) (cl_disk c))) (st_stream_id st) = Ok viewers /\
    approves viewers (eh_recipient_id (env_header e)).
Proof using crypto_laws.
  intros Hpub Hfresh Hturns Hmax Hturn Hsent Ho He Hgroup.
  apply (turns_confined st public) in Hturns as [Hs Hlog]; [|done|by intros g; rewrite Hfresh].
  destruct (upload_turn_log st public env Hpub s tick c _ c' Hs Hmax Hturn)
    as (sent' & used & Hsent' & _ & [(-> & _)|(viewers & gid & Hview & Hres)]);
    rewrite Hsent in Hsent'; apply app_inv_head in Hsent' as ->; [by apply elem_of_nil in Ho|].
  exists viewers. split; [done|].
  pose proof (turn_keys _ _ _ _ _ _ _ _ _ Hres Hlog) as Hkeys. rewrite Forall_forall in Hkeys.
  apply (Hkeys e He). rewrite Hgroup. destruct Hres as ([_ L2 _ _] & _). rewrite Forall_forall in L2. by apply L2.
Qed.
End session.

(** ** Witnesses *)

(** An encoder that answers every request with an IDR picture. *)
#[local] Instance idr_encoder : OpenH264 := {|
  OhEncoder := unit;
  oh_new _ _ := Ok tt;
  oh_force_intra_frame e := e;
  oh_encode e _ := (Some (FrameIDR, sample_unit), e) |}.
#[local] Existing Instance one_addr.
#[local] Existing Instance one_port.

Definition upload_env (replies : list (option RelayPublisherMessage)) :
    ClientEnv PublisherDisk RelayPublisherMessage := {|
  env_clock _ := 5000;
  env_entropy n := {| draws32 := [Vector.const x07 32]; draws16 := [Vector.const x09 16]; draw4 := zeros 4;
                      draw_bytes := slice (Vector.const x0b 64) |};
  env_write _ := WriteOk;
  env_connection _ := {| conn_remote := Some (pin_key x05); conn_replies := replies |};
  env_disk _ d := d; env_sync _ := DiskOk |}.
Definition sample_frame : EncoderInputFrame := FrameRgb 2 2 (replicate 16 x00).
Definition sample_config : UploadConfig := {|
  up_identity := sample_secret; up_credential := None; up_ingest_addr := raw_relay; up_pin := None;
  up_label := None; up_display_name := ascii_str "desk"; up_backend := ascii_str "test";
  up_encoder := ModeOpenh264; up_fps := f64_of_Z 30; up_history_bytes := Some 1000000;
  up_history_seconds := Some 3600 |}.
Definition sample_ticks : list Tick :=
  [{| tick_shutdown := false; tick_frame := CaptureFailed; tick_cursor := Ok None |};
   {| tick_shutdown := false; tick_frame := Captured sample_frame; tick_cursor := Ok None |};
   {| tick_shutdown := true; tick_frame := CaptureFailed; tick_cursor := Ok None |}].
Definition sample_stream_of : uuid :=
  match stable_stream_id sample_secret (ascii_str "default") with Ok id => id | Err _ => uuid_nil end.
Definition upload_replies (id : uuid) : list (option RelayPublisherMessage) :=
  [Some sample_welcome;
   Some (RpResumeState [{| rrs_stream_id := id; rrs_committed_through := 41 |}]);
   Some (RpPublishAck id 42); Some (RpPublishAck id 43); Some (RpPublishAck id 44)].
Definition upload_run :=
  run_native_client (upload_env (upload_replies sample_stream_of)) sample_config (Some sample_frame) sample_ticks
    (admin_start sample_grants).
Lemma upload_run_ok :
  is_ok upload_run.1 = true /\ length (objects_of (cl_sent upload_run.2)) = 3%nat.
Proof. vm_compute. done. Qed.
Lemma upload_conversation_witness :
  match identity_public sample_secret with
  | Ok public => exists sent used, cl_sent upload_run.2 = sent /\
      conn_replies (env_connection (upload_env (upload_replies sample_stream_of)) 0) = used ++ cl_replies upload_run.2 /\
      conversation sample_config public upload_run.1 sent used
  | Err _ => False
  end.
Proof.
  destruct (identity_public sample_secret) as [public|] eqn:E;
    [|apply (f_equal is_ok) in E; vm_compute in E; discriminate].
  exact (upload_conversation (upload_env (upload_replies sample_stream_of)) sample_config (Some sample_frame)
    sample_ticks public (admin_start sample_grants) upload_run.1 upload_run.2 E ltac:(simpl; unfold_ints; lia)
    (surjective_pairing _)).
Defined.

(** Two turns of a stream that one viewer is approved for. *)
Definition sample_upload : UploadStream := {|
  st_identity := sample_secret; st_stream_id := Pairing.sample_stream; st_epoch_id := Vector.const x03 16;
  st_width := 2; st_height := 2; st_group_frames := 1; st_duration := 3000;
  st_history_bytes := 1000000; st_history_age_ms := 3600000 |}.
Definition sample_upload_state : UploadState := {|
  us_encoder := {| se_encoder := tt; se_width := 2; se_height := 2; se_parameter_sets := None |};
  us_approved := []; us_history := []; us_sequence := 0; us_timestamp := 0; us_frame_index := 0;
  us_next_frame := Some sample_frame; us_group_id := 0; us_group := None;
  us_cursor := cursor_bitmap_state_default |}.
Definition turn_env := upload_env [].
Definition frame_tick : Tick :=
  {| tick_shutdown := false; tick_frame := Captured sample_frame; tick_cursor := Ok None |}.
Definition turn_start : Client PublisherDisk PublisherMessage RelayPublisherMessage := {|
  cl_disk := cl_disk (admin_start sample_grants); cl_step := 0;
  cl_replies := map (fun n => Some (RpPublishAck Pairing.sample_stream n)) [1; 2; 3; 4]; cl_sent := [] |}.
Definition first_turn := upload_turn turn_env sample_upload sample_upload_state frame_tick turn_start.
Definition first_state : UploadState :=
  match first_turn.1 with Ok (Some s) => s | _ => sample_upload_state end.
Definition second_turn := upload_turn turn_env sample_upload first_state frame_tick first_turn.2.
Definition second_sent : list PublisherMessage := drop 3 (cl_sent second_turn.2).
Lemma two_turns_run :
  upload_turn turn_env sample_upload sample_upload_state frame_tick turn_start =
    (Ok (Some first_state), first_turn.2) /\
  cl_sent first_turn.2 = cl_sent turn_start ++ cl_sent first_turn.2 /\
  cl_sent second_turn.2 = cl_sent first_turn.2 ++ second_sent /\ us_group_id first_state = 1 /\
  match head (objects_of second_sent), last (envelopes_of (cl_sent first_turn.2 ++ second_sent)) with
  | Some o, Some e => eh_key_group_id (env_header e) = h_key_group (header o)
  | _, _ => False
  end.
Proof. vm_compute. by split_and!. Qed.
Lemma second_turn_pair :
  upload_turn turn_env sample_upload first_state frame_tick first_turn.2 = (second_turn.1, second_turn.2).
Proof. unfold second_turn. by destruct (upload_turn _ _ _ _ _). Qed.

Lemma group_keys_confined_witness :
  match last (envelopes_of (cl_sent first_turn.2 ++ second_sent)) with
  | Some e => exists viewers,
      approved_viewers (disk_state (cl_disk first_turn.2)) Pairing.sample_stream = Ok viewers /\
      approves viewers (eh_recipient_id (env_header e))
  | None => False
  end.
Proof.
  destruct two_turns_run as (H1 & Hs1 & Hs2 & Hgid & Hgroup).
  destruct (head (objects_of second_sent)) as [o|] eqn:Eo; [|contradiction].
  destruct (last (envelopes_of (cl_sent first_turn.2 ++ second_sent))) as [e|] eqn:Ee; [|contradiction].
  destruct (identity_public sample_secret) as [public|] eqn:Epub;
    [|apply (f_equal is_ok) in Epub; vm_compute in Epub; discriminate].
  apply (group_keys_confined turn_env sample_upload public sample_upload_state turn_start (cl_sent first_turn.2)
    first_state first_turn.2 frame_tick second_turn.1 second_turn.2 second_sent o e).
  - exact Epub.
  - reflexivity.
  - apply (turns_step turn_env sample_upload sample_upload_state turn_start [] sample_upload_state turn_start
      frame_tick first_state first_turn.2 (cl_sent first_turn.2)).
    + apply turns_nil.
    + reflexivity.
    + exact H1.
    + exact Hs1.
  - rewrite Hgid. reflexivity.
  - exact second_turn_pair.
  - exact Hs2.
  - apply head_Some_elem_of. exact Eo.
  - apply last_Some_elem_of. exact Ee.
  - exact Hgroup.
Defined.
