(* ===== verification/ViewerState.v ===== *)
(** What a viewer keeps ([crates/viewer/src/lib.rs]): the bounded cache of group
    keys, and the private files of verified publishers and of pending pairings. *)
From Stdlib Require Import ZArith Lia.
From S2P Require Import Prelude Bytes RustStr External Toy PrivateState Identity Credential Native Pairing Codecs.
From S2P Require Import Keyed.

Definition PAIRING_STATE_VERSION : Z := 1.
Definition MAX_PAIRING_STATE_BYTES : Z := 4 * 1024 * 1024.
Definition MAX_PENDING_OBJECTS : Z := 256.
Definition MAX_PENDING_CIPHERTEXT_BYTES : Z := 32 * 1024 * 1024.
Definition MAX_CACHED_KEYS : Z := 8192.
Definition VERIFIED_PUBLISHERS_VERSION : Z := 1.
Definition MAX_VERIFIED_PUBLISHERS_BYTES : Z := 4 * 1024 * 1024.

(** * The key cache *)

Record GroupKey : Type := {
  gk_stream_id : uuid;
  gk_epoch_id : uuid;
  gk_key_group : Z;
  gk_key_id : array 16;
}.
#[global] Instance GroupKey_eq_dec : EqDecision GroupKey.
Proof. solve_decision. Defined.
#[global] Instance GroupKey_countable : Countable GroupKey.
Proof.
  refine (inj_countable' (fun g => (gk_stream_id g, gk_epoch_id g, gk_key_group g, gk_key_id g))
    (fun '(s, e, g, k) =>
       {| gk_stream_id := s; gk_epoch_id := e; gk_key_group := g; gk_key_id := k |}) _).
  by intros [].
Defined.

(** [GroupKey::for_object] *)
Definition for_object (o : NativeObject) : GroupKey := {|
  gk_stream_id := h_stream_id (header o); gk_epoch_id := h_epoch_id (header o);
  gk_key_group := h_key_group (header o); gk_key_id := h_key_id (header o) |}.

Record KeyCache : Type := {
  kc_keys : gmap GroupKey (array 32);
  kc_order : list GroupKey;
}.
(** [KeyCache::default] *)
Definition key_cache_default : KeyCache := {| kc_keys := ∅; kc_order := [] |}.

(** The loop that drops the oldest groups; [None] where it would not end. *)
Fixpoint evict (keys : gmap GroupKey (array 32)) (order : list GroupKey) : option KeyCache :=
  if decide (Z.of_nat (size keys) > MAX_CACHED_KEYS) then
    match order with
    | oldest :: order => evict (delete oldest keys) order
    | [] => None
    end
  else Some {| kc_keys := keys; kc_order := order |}.
(** [KeyCache::insert] *)
Definition cache_insert (group : GroupKey) (key : array 32) (c : KeyCache) : option KeyCache :=
  let order := if decide (kc_keys c !! group = None) then kc_order c ++ [group] else kc_order c in
  evict (<[group := key]> (kc_keys c)) order.
(** [KeyCache::get] *)
Definition cache_get (c : KeyCache) (group : GroupKey) : option (array 32) := kc_keys c !! group.

(** * Private files *)

Record VerifiedPublishersState : Type := {
  vps_version : Z;
  vps_publishers : list (uuid * IdentityPublic);
}.
Abbreviation PendingPairings := (gmap (array 32) (PairRequest * option PairOffer)).
Record PairingState : Type := {
  pst_version : Z;
  pst_pending : list (PairRequest * option PairOffer);
}.

Section files.
Context `{crypto : !Crypto, codecs : !Codecs}.
Context `{publishers_file : !Postcard VerifiedPublishersState, pairing_file : !Postcard PairingState}.

(** The loop over the entries of the file. *)
Fixpoint read_publishers (previous : option uuid) (entries : list (uuid * IdentityPublic))
    (publishers : gmap uuid IdentityPublic) : result string (gmap uuid IdentityPublic) :=
  match entries with
  | [] => Ok publishers
  | (stream_id, publisher) :: entries =>
      reject_if (is_some_and (fun previous => array_le stream_id previous) previous \/
                 publishers !! stream_id <> None)
        "verified publisher state is not strictly ordered" then?
      read_publishers (Some stream_id) entries (<[stream_id := publisher]> publishers)
  end.

(** [load_verified_publishers_unlocked] and [verified_publishers] *)
Definition verified_publishers (path : option FileEntry) : result string (gmap uuid IdentityPublic) :=
  let? content := context "reading verified publishers" (read_optional path MAX_VERIFIED_PUBLISHERS_BYTES) in
  match content with
  | None => Ok ∅
  | Some content =>
      let? (state, remainder) := context "postcard" (take_from_bytes content) in
      let? canonical :=
        if decide (remainder <> [] \/ vps_version state <> VERIFIED_PUBLISHERS_VERSION \/
                   zlen (vps_publishers state) > 65536) then Ok false
        else let? encoded := context "postcard" (to_stdvec state) in
             Ok (bool_decide (encoded = content)) in
      reject_if (canonical = false) "verified publisher state is invalid or non-canonical" then?
      read_publishers None (vps_publishers state) ∅
  end.

Definition publishers_state (publishers : gmap uuid IdentityPublic) : VerifiedPublishersState := {|
  vps_version := VERIFIED_PUBLISHERS_VERSION; vps_publishers := ordered_entries publishers |}.

(** [remember_verified_publisher] under its lock *)
Definition remember_verified_publisher (disk : disk_outcome) (stream_id : uuid) (publisher : IdentityPublic) :
    io string (option FileEntry) unit := fun path =>
  (let? publishers := lift (verified_publishers path) in
   lift match publishers !! stream_id with
        | Some existing =>
            let? existing := context "identity" (identity_id existing) in
            let? id := context "identity" (identity_id publisher) in
            reject_if (existing <> id) "verified publisher identity changed"
        | None => Ok tt
        end then?
   let? encoded := lift (context "postcard"
     (to_stdvec (publishers_state (<[stream_id := publisher]> publishers)))) in
   lift (reject_if (zlen encoded > MAX_VERIFIED_PUBLISHERS_BYTES)
     "verified publisher state exceeds its file bound") then?
   in_context "writing verified publishers"
     (replace_private disk encoded MAX_VERIFIED_PUBLISHERS_BYTES)) path.

(** [forget_verified_publisher] under its lock *)
Definition forget_verified_publisher (disk : disk_outcome) (stream_id : uuid) :
    io string (option FileEntry) unit := fun path =>
  (let? publishers := lift (verified_publishers path) in
   let? encoded := lift (context "postcard"
     (to_stdvec (publishers_state (delete stream_id publishers)))) in
   in_context "writing verified publishers"
     (replace_private disk encoded MAX_VERIFIED_PUBLISHERS_BYTES)) path.

(** The loop of [load_pairing_state]. *)
Fixpoint read_pending (entries : list (PairRequest * option PairOffer)) (pending : PendingPairings) :
    result string PendingPairings :=
  match entries with
  | [] => Ok pending
  | entry :: entries =>
      let? id := context "pairing" (pair_request_id entry.1) in
      reject_if (pending !! id <> None) "pending pairing state contains duplicate requests" then?
      read_pending entries (<[id := entry]> pending)
  end.
Definition load_pairing_state (path : option FileEntry) : result string PendingPairings :=
  let? content := context "reading pending pairings" (read_optional path MAX_PAIRING_STATE_BYTES) in
  match content with
  | None => Ok ∅
  | Some content =>
      let? (state, remainder) := context "postcard" (take_from_bytes content) in
      let? canonical :=
        if decide (remainder <> [] \/ pst_version state <> PAIRING_STATE_VERSION) then Ok false
        else let? encoded := context "postcard" (to_stdvec state) in
             Ok (bool_decide (encoded = content)) in
      reject_if (canonical = false) "pending pairing state is invalid or non-canonical" then?
      read_pending (pst_pending state) ∅
  end.

(** The key that the entries are sorted by: [request.id().unwrap_or([0; 32])]. *)
Definition request_order (entry : PairRequest * option PairOffer) : array 32 :=
  match pair_request_id entry.1 with Ok id => id | Err _ => zeros 32 end.
Definition save_pairing_state (disk : disk_outcome) (pending : PendingPairings) :
    io string (option FileEntry) unit :=
  let? encoded := lift (context "postcard" (to_stdvec {|
    pst_version := PAIRING_STATE_VERSION;
    pst_pending := sort_by (by_key request_order) (map_to_list pending).*2 |})) in
  in_context "writing pending pairings" (replace_private disk encoded MAX_PAIRING_STATE_BYTES).
End files.

(** * The cache is a bounded queue

    The reference is a queue of groups with their keys in the order in which the
    groups were first inserted: a group that it has gets its key replaced, a new
    one goes to the end, and the oldest ones leave beyond the bound. *)
Abbreviation queue := (list (GroupKey * array 32)).
Definition queue_insert (group : GroupKey) (key : array 32) (q : queue) : queue :=
  let q := if decide (group ∈ q.*1)
           then (fun x => if decide (x.1 = group) then (group, key) else x) <$> q
           else q ++ [(group, key)] in
  drop (length q - Z.to_nat MAX_CACHED_KEYS) q.
Definition queue_run (inserts : list (GroupKey * array 32)) : queue :=
  foldl (fun q x => queue_insert x.1 x.2 q) [] inserts.
Definition cache_run (inserts : list (GroupKey * array 32)) : option KeyCache :=
  foldl (fun c x => c ≫= cache_insert x.1 x.2) (Some key_cache_default) inserts.

(** A cache that holds a queue. *)
Definition holds (c : KeyCache) (q : queue) : Prop :=
  NoDup q.*1 /\ Z.of_nat (length q) <= MAX_CACHED_KEYS /\
  c = {| kc_keys := list_to_map q; kc_order := q.*1 |}.

Lemma size_list_to_map (q : queue) : NoDup q.*1 -> size (list_to_map q : gmap GroupKey (array 32)) = length q.
Proof.
  induction q as [|[g k] q IH]; simpl; [by rewrite map_size_empty|]. intros [Hg Hnd]%NoDup_cons.
  rewrite map_size_insert_None; [by rewrite IH|]. by apply not_elem_of_list_to_map_1.
Qed.
Lemma evict_queue (q : queue) :
  NoDup q.*1 ->
  evict (list_to_map q) q.*1 =
  let q := drop (length q - Z.to_nat MAX_CACHED_KEYS) q in
  Some {| kc_keys := list_to_map q; kc_order := q.*1 |}.
Proof.
  assert (0 <= MAX_CACHED_KEYS) as Hmax by done. intros Hnd.
  induction q as [|[g k] q IH]; cbn [fmap list_fmap fst evict]; rewrite size_list_to_map by done.
  { rewrite decide_False by (cbn [length]; lia). by rewrite drop_nil. }
  pose proof Hnd as [Hg Hnd']%NoDup_cons. case_decide as Hsize.
  - change (list_to_map ((g, k) :: q)) with (<[g := k]> (list_to_map q) : gmap GroupKey (array 32)).
    rewrite delete_insert_id by (by apply not_elem_of_list_to_map_1). rewrite IH by done. cbn [length] in *.
    by replace (S (length q) - Z.to_nat MAX_CACHED_KEYS)%nat with (S (length q - Z.to_nat MAX_CACHED_KEYS)) by lia.
  - replace (length ((g, k) :: q) - Z.to_nat MAX_CACHED_KEYS)%nat with 0%nat by lia. done.
Qed.

Lemma replace_keys (group : GroupKey) (key : array 32) (q : queue) :
  ((fun x => if decide (x.1 = group) then (group, key) else x) <$> q).*1 = q.*1.
Proof.
  induction q as [|[g k] q IH]; [done|]. cbn [fmap list_fmap fst]. f_equal; [|exact IH]. by case_decide.
Qed.
Lemma replace_map (group : GroupKey) (key : array 32) (q : queue) :
  NoDup q.*1 -> group ∈ q.*1 ->
  list_to_map ((fun x => if decide (x.1 = group) then (group, key) else x) <$> q) =
  (<[group := key]> (list_to_map q) : gmap GroupKey (array 32)).
Proof.
  induction q as [|[g k] q IH]; [intros _ []%elem_of_nil|]. cbn [fmap list_fmap fst].
  intros [Hg Hnd]%NoDup_cons Hin. case_decide as Heq.
  - subst g. assert (((fun x => if decide (x.1 = group) then (group, key) else x) <$> q) = q) as ->.
    { rewrite <-(list_fmap_id q) at 2. apply list_fmap_ext. intros i [g k'] Hi. rewrite decide_False; [done|].
      simpl. intros ->. apply Hg. apply list_elem_of_fmap. exists (group, k'). split; [done|by eapply list_elem_of_lookup_2]. }
    cbn. by rewrite insert_insert_eq.
  - apply elem_of_cons in Hin as [->|Hin]; [done|]. cbn. rewrite IH by done. by apply insert_insert_ne.
Qed.

Lemma drop_keys n (q : queue) : (drop n q).*1 = drop n q.*1.
Proof. apply fmap_drop. Qed.
Lemma queue_insert_keys group key (q : queue) :
  NoDup q.*1 ->
  let q' := if decide (group ∈ q.*1)
            then (fun x => if decide (x.1 = group) then (group, key) else x) <$> q
            else q ++ [(group, key)] in
  NoDup q'.*1 /\ list_to_map q' = (<[group := key]> (list_to_map q) : gmap GroupKey (array 32)) /\
  q'.*1 = if decide ((list_to_map q : gmap GroupKey (array 32)) !! group = None) then q.*1 ++ [group] else q.*1.
Proof.
  intros Hnd. cbv zeta. case_decide as Hin.
  - rewrite replace_keys, replace_map by done. split_and!; [done..|]. rewrite decide_False; [done|].
    by intros H%not_elem_of_list_to_map.
  - assert (NoDup (q ++ [(group, key)]).*1) as Hnd'.
    { rewrite fmap_app. apply NoDup_app. split_and!; [done| |apply NoDup_singleton].
      intros g Hg ->%list_elem_of_singleton. done. }
    split_and!; [done| |].
    + rewrite (list_to_map_proper (M := gmap GroupKey) _ ((group, key) :: q) Hnd'); [done|].
      by rewrite Permutation_app_comm.
    + rewrite decide_True by (by apply not_elem_of_list_to_map). by rewrite fmap_app.
Qed.

Lemma cache_insert_queue group key c q :
  holds c q -> exists c', cache_insert group key c = Some c' /\ holds c' (queue_insert group key q).
Proof.
  intros (Hnd & Hlen & ->). unfold cache_insert, queue_insert. cbn [kc_keys kc_order].
  destruct (queue_insert_keys group key q Hnd) as (Hnd' & Hmap & Hkeys). cbv zeta in *.
  set (q' := if decide (group ∈ q.*1) then _ else _) in *.
  rewrite <-Hmap, <-Hkeys, evict_queue by done. eexists. split; [done|]. split_and!; [| |done].
  - rewrite drop_keys. eapply sublist_NoDup; [exact Hnd'|]. apply sublist_drop.
  - rewrite length_drop. lia.
Qed.

Lemma queue_insert_elem group key (q : queue) :
  Z.of_nat (length q) <= MAX_CACHED_KEYS -> (group, key) ∈ queue_insert group key q.
Proof.
  intros Hlen. unfold queue_insert. case_decide as Hin.
  - rewrite length_fmap. replace (length q - Z.to_nat MAX_CACHED_KEYS)%nat with 0%nat by lia. cbn [drop].
    apply list_elem_of_fmap in Hin as ([g k] & -> & Hin). apply list_elem_of_fmap. exists (g, k).
    by rewrite decide_True.
  - assert (0 < MAX_CACHED_KEYS) by done. rewrite length_app, drop_app_le by (cbn [length]; lia).
    apply elem_of_app. right. by left.
Qed.

(** C13: the key cache refines a queue of at most 8,192 keys: every run of
    insertions ends, and then its lookups and its order are those of the queue,
    which holds the newest groups, each with the key inserted last, and the key
    just inserted among them. *)
Theorem key_cache_refines_queue inserts :
  exists c, cache_run inserts = Some c /\
    (forall group, cache_get c group = (list_to_map (queue_run inserts) : gmap GroupKey (array 32)) !! group) /\
    kc_order c = (queue_run inserts).*1 /\ NoDup (kc_order c) /\
    size (kc_keys c) = length (kc_order c) /\ zlen (kc_order c) <= MAX_CACHED_KEYS /\
    forall group key, last inserts = Some (group, key) -> cache_get c group = Some key.
Proof.
  assert (exists c, cache_run inserts = Some c /\ holds c (queue_run inserts) /\
    forall group key, last inserts = Some (group, key) -> cache_get c group = Some key) as (c & Hrun & Hc & Hlast).
  { induction inserts as [|[group key] inserts IH] using rev_ind.
    - exists key_cache_default. split_and!; [done| |done]. split_and!; [constructor|done|done].
    - destruct IH as (c & Hrun & Hc & _). destruct (cache_insert_queue group key c _ Hc) as (c' & Hins & Hc').
      exists c'. unfold cache_run, queue_run in *. rewrite !foldl_app, Hrun. cbn. split_and!; [done..|].
      rewrite last_snoc. intros ? ? [= <- <-].
      destruct Hc as (_ & Hlen & _). pose proof (queue_insert_elem group key _ Hlen) as Hin.
      destruct Hc' as (Hnd & _ & ->). by apply elem_of_list_to_map_1. }
  destruct Hc as (Hnd & Hlen & ->). eexists. split_and!; [done..| | |done]; cbn [kc_keys kc_order].
  - by rewrite size_list_to_map, length_fmap.
  - by rewrite length_fmap.
Qed.

Example queue_replaces :
  let g n := {| gk_stream_id := zeros 16; gk_epoch_id := zeros 16; gk_key_group := n; gk_key_id := zeros 16 |} in
  queue_run [(g 1, zeros 32); (g 2, zeros 32); (g 1, Vector.const x01 32)] =
    [(g 1, Vector.const x01 32); (g 2, zeros 32)].
Proof. vm_compute. reflexivity. Qed.

(** * The file of verified publishers *)

(** What Postcard's format ensures of the file: an entry takes sixteen bytes for
    the stream and at least forty-eight for the keys, and leaving entries out
    makes the file no longer. *)
Class PublishersFileLaws `{!Postcard VerifiedPublishersState} : Prop := {
  publishers_file_laws :: PostcardLaws VerifiedPublishersState;
  publishers_entry_len s enc : to_stdvec s = Ok enc -> 64 * zlen (vps_publishers s) <= zlen enc;
  publishers_shorter s s' enc : to_stdvec s = Ok enc -> vps_version s' = vps_version s ->
    sublist (vps_publishers s') (vps_publishers s) ->
    exists enc', to_stdvec s' = Ok enc' /\ zlen enc' <= zlen enc;
  publishers_empty_len enc : to_stdvec (publishers_state ∅) = Ok enc -> zlen enc <= 64;
}.

Section publishers.
Context `{crypto : !Crypto, codecs : !Codecs}.
Context `{publishers_file : !Postcard VerifiedPublishersState, laws : !PublishersFileLaws}.

Lemma read_publishers_ordered l previous m :
  keyed fst l -> is_none_or (fun p => Forall (array_lt p) l.*1) previous ->
  (forall s, s ∈ l.*1 -> m !! s = None) ->
  read_publishers previous l m = Ok (list_to_map l ∪ m).
Proof using Type.
  revert previous m. induction l as [|[s p] l IH]; intros previous m Hs Hp Hm.
  { by rewrite list_to_map_nil, (left_id_L ∅ (∪)). }
  unfold keyed in Hs. cbn [fmap list_fmap fst] in *. inversion Hs as [|?? Hs' Hall]; subst. cbn [read_publishers].
  rewrite reject_if_false.
  2: { intros [Hle|Hin]; [|by rewrite Hm in Hin by left].
       destruct previous as [q|]; [|done]. simpl in *. inversion Hp. by apply array_not_lt in Hle. }
  assert (s ∉ l.*1) as Hnot.
  { intros Hin. rewrite Forall_forall in Hall. by destruct (irreflexivity array_lt s (Hall _ Hin)). }
  cbn [mbind result_bind]. rewrite IH; [|done|done|].
  - f_equal. cbn. by rewrite <-insert_union_l, insert_union_r by (by apply not_elem_of_list_to_map_1).
  - intros s' Hs''. rewrite lookup_insert_ne by (by intros <-). apply Hm. by right.
Qed.
Lemma read_publishers_sound l previous m m' :
  read_publishers previous l m = Ok m' ->
  keyed fst l /\ is_none_or (fun p => Forall (array_lt p) l.*1) previous /\ (forall s, s ∈ l.*1 -> m !! s = None).
Proof using Type.
  revert previous m. induction l as [|[s p] l IH]; intros previous m; cbn [read_publishers].
  { intros _. split; [constructor|]. split; [|by intros s ?%elem_of_nil]. destruct previous; simpl; constructor. }
  rewrite guard_bind. intros [Hg H]. nor_inv. apply IH in H as (Hs & Hall & Hm). unfold keyed. cbn [fmap list_fmap fst is_none_or] in *.
  split_and!.
  - by constructor.
  - destruct previous as [q|]; [|done]. simpl in *. rewrite <-array_not_lt in *.
    assert (array_lt q s) as Hqs by (by apply dec_stable). constructor; [done|].
    eapply Forall_impl; [exact Hall|]. intros s'. by transitivity s.
  - intros s' [->|Hin]%elem_of_cons; [done|]. specialize (Hm s' Hin). apply lookup_insert_None in Hm. tauto.
Qed.

(** What a file that loads holds, and how a map is stored. *)
Lemma verified_publishers_content path m :
  verified_publishers path = Ok m -> m = ∅ \/
  exists content, to_stdvec (publishers_state m) = Ok content /\
    zlen content <= MAX_VERIFIED_PUBLISHERS_BYTES.
Proof using Type.
  unfold verified_publishers. intros H. apply bind_Ok_inv in H as (content & Hread & H).
  destruct content as [content|]; [|left; by injection H as <-]. right. exists content.
  apply bind_Ok_inv in H as ([state remainder] & _ & H). apply bind_Ok_inv in H as (canonical & Hc & H).
  rewrite guard_bind in H. destruct H as [Hcan H]. case_decide as Hd; [by injection Hc as <-|].
  apply bind_Ok_inv in Hc as (encoded & Henc%context_Ok & [= <-]).
  apply not_false_iff_true, bool_decide_eq_true in Hcan as ->. nor_inv.
  pose proof H as (Hs & _ & _)%read_publishers_sound.
  rewrite read_publishers_ordered in H by done. injection H as <-. rewrite (right_id_L ∅ (∪)). split.
  - unfold publishers_state. rewrite keyed_ordered by done. by destruct state; simpl in *; subst.
  - apply context_Ok in Hread. unfold read_optional in Hread. unfold read_private, validate_private_metadata in Hread.
    destruct path as [e|]; [|done]. destruct (fe_kind e); [|done|]; 
      repeat case_match; res_inv; simplify_eq; lia.
Qed.
Lemma publishers_load_stored m encoded :
  to_stdvec (publishers_state m) = Ok encoded -> zlen encoded <= MAX_VERIFIED_PUBLISHERS_BYTES ->
  verified_publishers (Some (stage_private encoded)) = Ok m.
Proof using laws.
  intros Henc Hlen. unfold verified_publishers.
  destruct (stage_private_read encoded MAX_VERIFIED_PUBLISHERS_BYTES Hlen) as [_ ->].
  cbn [context map_err mbind result_bind]. rewrite (take_to_stdvec_nil _ _ Henc).
  cbn [context map_err mbind result_bind]. rewrite decide_False.
  2: { apply publishers_entry_len in Henc. unfold MAX_VERIFIED_PUBLISHERS_BYTES in *. intros [|[|]]; [done..|lia]. }
  rewrite Henc. cbn [context map_err mbind result_bind]. rewrite bool_decide_eq_true_2 by done.
  cbn [publishers_state vps_publishers]. rewrite reject_if_false by done. cbn [mbind result_bind].
  rewrite read_publishers_ordered; [|apply ordered_entries_keyed|done|done].
  by rewrite (right_id_L ∅ (∪)), ordered_entries_map.
Qed.

(** Operations on the file, and on the map that it holds. *)
Inductive TrustOp : Type :=
| OpRemember (stream_id : uuid) (publisher : IdentityPublic)
| OpForgetPublisher (stream_id : uuid).
Definition run_trust_op (disk : disk_outcome) (op : TrustOp) : io string (option FileEntry) unit :=
  match op with
  | OpRemember stream_id publisher => remember_verified_publisher disk stream_id publisher
  | OpForgetPublisher stream_id => forget_verified_publisher disk stream_id
  end.
Definition run_trust_ops (ops : list (disk_outcome * TrustOp)) (path : option FileEntry) : option FileEntry :=
  foldl (fun path op => (run_trust_op op.1 op.2 path).2) path ops.
Definition same_identity (p q : IdentityPublic) : Prop := exists id, identity_id p = Ok id /\ identity_id q = Ok id.
Inductive trust_step (m : gmap uuid IdentityPublic) : TrustOp -> gmap uuid IdentityPublic -> Prop :=
| step_remember stream_id publisher :
    (forall existing, m !! stream_id = Some existing -> same_identity existing publisher) ->
    trust_step m (OpRemember stream_id publisher) (<[stream_id := publisher]> m)
| step_forget stream_id : trust_step m (OpForgetPublisher stream_id) (delete stream_id m).

(** What replacing the file leaves. *)
Lemma publishers_replace disk path m encoded r path' :
  to_stdvec (publishers_state m) = Ok encoded -> zlen encoded <= MAX_VERIFIED_PUBLISHERS_BYTES ->
  in_context "writing verified publishers"
    (replace_private disk encoded MAX_VERIFIED_PUBLISHERS_BYTES) path = (r, path') ->
  verified_publishers path' = Ok m \/ path' = path /\ is_ok r = false.
Proof using laws.
  intros Henc Hlen (r0 & [->|[-> Hr]]%replace_private_run & ->)%in_context_run.
  - left. by apply publishers_load_stored.
  - right. split; [done|]. by destruct r0.
Qed.

(** The file refines the abstract store: an operation makes a step between the
    maps, as every success does, or it fails and leaves the file as it was. *)
Lemma trust_op_refines disk op path m r path' :
  verified_publishers path = Ok m -> run_trust_op disk op path = (r, path') ->
  (exists m', verified_publishers path' = Ok m' /\ trust_step m op m') \/ path' = path /\ is_ok r = false.
Proof using laws.
  intros Hm. destruct op as [s p|s]; cbn [run_trust_op].
  - unfold remember_verified_publisher.
    intros [(e & [= _ <-] & ->)|(m0 & p0 & [Hm0 ->]%lift_Ok & H)]%io_bind_run; [by right|].
    rewrite Hm in Hm0. injection Hm0 as <-.
    apply io_bind_run in H as [(e & [= _ <-] & ->)|([] & p1 & [Hid ->]%lift_Ok & H)]; [by right|].
    apply io_bind_run in H as [(e & [= _ <-] & ->)|(encoded & p2 & [Henc%context_Ok ->]%lift_Ok & H)]; [by right|].
    apply io_bind_run in H as [(e & [= _ <-] & ->)|([] & p3 & [Hlen%reject_if_Ok ->]%lift_Ok & H)]; [by right|].
    apply (publishers_replace _ _ _ _ _ _ Henc) in H as [Hl|H]; [left|by right|lia].
    exists (<[s := p]> m). split; [done|]. destruct (m !! s) as [q|] eqn:Es.
    + res_inv. nor_inv.
      subst. constructor. rewrite Es. intros ? [= <-]. apply context_Ok in H, H0. eexists. by split.
    + constructor. by rewrite Es.
  - unfold forget_verified_publisher.
    intros [(e & [= _ <-] & ->)|(m0 & p0 & [Hm0 ->]%lift_Ok & H)]%io_bind_run; [by right|].
    rewrite Hm in Hm0. injection Hm0 as <-.
    apply io_bind_run in H as [(e & [= _ <-] & ->)|(encoded & p2 & [Henc%context_Ok ->]%lift_Ok & H)]; [by right|].
    apply (publishers_replace _ _ _ _ _ _ Henc) in H as [Hl|H]; [left; exists (delete s m)|by right|].
    { split; [done|constructor]. }
    destruct (verified_publishers_content path m Hm) as [->|(content & Hc & Hlen)].
    + rewrite delete_empty in Henc. apply publishers_empty_len in Henc. unfold MAX_VERIFIED_PUBLISHERS_BYTES. lia.
    + destruct (publishers_shorter (publishers_state m) (publishers_state (delete s m)) content Hc)
        as (enc' & He & Hle); [done|apply ordered_entries_delete|]. rewrite He in Henc. injection Henc as <-. lia.
Qed.

Lemma trust_ops_keep ops path m s p :
  verified_publishers path = Ok m -> m !! s = Some p -> is_Some (result_ok (identity_id p)) ->
  OpForgetPublisher s ∉ ops.*2 ->
  exists m' q, verified_publishers (run_trust_ops ops path) = Ok m' /\ m' !! s = Some q /\ same_identity p q.
Proof using laws.
  intros Hm Hp Hid. revert path m p Hm Hp Hid. induction ops as [|[disk op] ops IH]; intros path m p Hm Hp Hid Hops.
  { exists m, p. split_and!; [done..|]. destruct (identity_id p) as [id|] eqn:E; [by exists id|by destruct Hid]. }
  apply not_elem_of_cons in Hops as [Hop Hops]. cbn [fst snd] in Hop. cbn [run_trust_ops foldl fst snd].
  destruct (run_trust_op disk op path) as [r path1] eqn:Hrun.
  assert (exists m1 p1, verified_publishers path1 = Ok m1 /\ m1 !! s = Some p1 /\ same_identity p p1)
    as (m1 & p1 & Hm1 & Hp1 & id & Hi & Hi1).
  { assert (same_identity p p) as Hrefl by (destruct (identity_id p) as [id|] eqn:E; [by exists id|by destruct Hid]).
    destruct (trust_op_refines _ _ _ _ _ _ Hm Hrun) as [(m1 & Hm1 & Hr)|[-> _]]; [exists m1|by exists m, p].
    inversion Hr as [s' p' Hex|s']; subst.
    - destruct (decide (s = s')) as [<-|Hne]; [rewrite lookup_insert_eq; eauto|rewrite lookup_insert_ne by done; eauto].
    - rewrite lookup_delete_ne by congruence. eauto. }
  destruct (IH path1 m1 p1 Hm1 Hp1) as (m' & q & Hm' & Hq & id' & Hi1' & Hq'); [by rewrite Hi1|done|].
  exists m', q. split_and!; [done..|]. exists id. split; [done|]. congruence.
Qed.

(** C14: the publisher of a stream never changes under a viewer: once it
    remembers one for a stream, then whatever is remembered or forgotten since,
    other than by forgetting that stream, and whatever the disk does to the writes,
    the file loads and holds a publisher with the same fingerprint for it, and
    another publisher is refused for the stream and leaves the file as it is. *)
Theorem verified_publisher_kept disk disk' path m s p path1 ops impostor :
  verified_publishers path = Ok m ->
  run_trust_op disk (OpRemember s p) path = (Ok tt, path1) ->
  is_ok (identity_id p) = true ->
  OpForgetPublisher s ∉ ops.*2 ->
  let path2 := run_trust_ops ops path1 in
  (exists m' q, verified_publishers path2 = Ok m' /\ m' !! s = Some q /\ same_identity p q) /\
  (~ same_identity p impostor ->
     is_ok (run_trust_op disk' (OpRemember s impostor) path2).1 = false /\
     (run_trust_op disk' (OpRemember s impostor) path2).2 = path2).
Proof using laws.
  intros Hm Hrun Hid Hops path2.
  destruct (trust_op_refines _ _ _ _ _ _ Hm Hrun) as [(m1 & Hm1 & Hstep)|[_ [=]]].
  inversion Hstep as [? ? Hex|]; subst.
  destruct (trust_ops_keep ops path1 _ s p Hm1 (lookup_insert_eq _ _ _)) as (m' & q & Hm' & Hq & Hsame);
    [by destruct (identity_id p)|done|]. split; [by exists m', q|].
  intros Himp. destruct (run_trust_op disk' (OpRemember s impostor) path2) as [r path3] eqn:Hrun'. cbn [fst snd].
  destruct (trust_op_refines _ _ _ _ _ _ Hm' Hrun') as [(m3 & Hm3 & Hr)|[-> Hr]]; [|done].
  inversion Hr as [? ? Hex'|]; subst. destruct Himp. destruct (Hex' q Hq) as (id & Hq1 & Hi), Hsame as (id' & Hp & Hq2).
  exists id. split; [congruence|done].
Qed.
End publishers.

(** * The file of pending pairings *)

Section pending.
Context `{crypto : !Crypto, codecs : !Codecs}.
Context `{pairing_file : !Postcard PairingState, pairing_laws : !PostcardLaws PairingState}.

(** Each pairing is stored under the identifier of its request. *)
Definition pending_ok (pending : PendingPairings) : Prop :=
  map_Forall (fun id entry => pair_request_id entry.1 = Ok id) pending.

Lemma read_pending_ok l m m' : read_pending l m = Ok m' -> pending_ok m -> pending_ok m'.
Proof using Type.
  revert m. induction l as [|entry l IH]; intros m; cbn [read_pending]; [by intros [= <-]|].
  intros (id & Hid%context_Ok & H)%bind_Ok_inv. rewrite guard_bind in H. destruct H as [_ H]. intros Hm.
  apply (IH _ H). by apply map_Forall_insert_2.
Qed.
Lemma read_pending_complete l m :
  NoDup (request_order <$> l) -> Forall (fun entry => is_ok (pair_request_id entry.1) = true) l ->
  (forall entry, entry ∈ l -> m !! request_order entry = None) ->
  read_pending l m = Ok (list_to_map ((fun entry => (request_order entry, entry)) <$> l) ∪ m).
Proof using Type.
  revert m. induction l as [|entry l IH]; intros m; cbn [fmap list_fmap read_pending].
  { by rewrite list_to_map_nil, (left_id_L ∅ (∪)). }
  intros [Hnot Hnd]%NoDup_cons [Hid Hall]%Forall_cons Hm.
  assert (m !! request_order entry = None) as Hnew by (apply Hm; by left).
  assert (pair_request_id entry.1 = Ok (request_order entry)) as Hent.
  { unfold request_order. by destruct (pair_request_id entry.1). }
  rewrite Hent. cbn [context map_err mbind result_bind]. rewrite Hnew, reject_if_false by tauto. cbn [mbind result_bind].
  rewrite IH; [|done|done|].
  - f_equal. cbn. rewrite <-insert_union_l, insert_union_r; [done|]. apply not_elem_of_list_to_map_1.
    by rewrite <-list_fmap_compose.
  - intros e He. rewrite lookup_insert_ne; [apply Hm; by right|]. intros Heq. apply Hnot. rewrite Heq.
    by apply list_elem_of_fmap_2.
Qed.

Lemma pending_values (pending : PendingPairings) :
  pending_ok pending ->
  (fun entry => (request_order entry, entry)) <$> (map_to_list pending).*2 = map_to_list pending.
Proof using Type.
  intros Hok. rewrite <-list_fmap_compose. rewrite <-(list_fmap_id (map_to_list pending)) at 2.
  apply list_fmap_ext. intros i [id entry] Hi. cbn. f_equal.
  assert (pending !! id = Some entry) as Hin by (apply elem_of_map_to_list; by eapply list_elem_of_lookup_2).
  unfold request_order. by rewrite (Hok _ _ Hin).
Qed.

(** Pending pairings survive a restart: what the viewer saved, if it fits
    the bound that reading checks, is loaded as the same pairings, each with the
    offer it had, and everything that is ever loaded is stored under the
    identifier of its request. *)
Theorem pending_pairings_roundtrip disk path pending e :
  pending_ok pending ->
  save_pairing_state disk pending path = (Ok tt, Some e) ->
  zlen (fe_content e) <= MAX_PAIRING_STATE_BYTES ->
  load_pairing_state (Some e) = Ok pending /\
  forall path' pending', load_pairing_state path' = Ok pending' -> pending_ok pending'.
Proof using pairing_laws.
  intros Hok Hsave Hlen. split.
  - unfold save_pairing_state in Hsave.
    apply io_bind_Ok in Hsave as (encoded & p1 & [Henc%context_Ok ->]%lift_Ok & Hrep).
    apply in_context_run in Hrep as (r0 & Hrep & Hr0). destruct r0; [|done].
    apply replace_private_run in Hrep as [[= ->]|[_ [=]]]. cbn [fe_content stage_private] in Hlen. unfold load_pairing_state.
    destruct (stage_private_read _ _ Hlen) as [_ ->]. cbn [context map_err mbind result_bind].
    rewrite (take_to_stdvec_nil _ _ Henc). cbn [context map_err mbind result_bind].
    rewrite decide_False by (intros [|]; done). rewrite Henc. cbn [context map_err mbind result_bind].
    rewrite bool_decide_eq_true_2, reject_if_false by done. cbn [mbind result_bind pst_pending].
    assert (sort_by (by_key request_order) (map_to_list pending).*2 ≡ₚ (map_to_list pending).*2) as Hperm
      by apply sort_by_Permutation.
    assert (NoDup (request_order <$> (map_to_list pending).*2)) as Hnd.
    { pose proof (NoDup_fst_map_to_list pending) as Hnd. rewrite <-(pending_values pending Hok) in Hnd.
      by rewrite <-list_fmap_compose in Hnd. }
    rewrite read_pending_complete.
    + rewrite (right_id_L ∅ (∪)). f_equal.
      rewrite (list_to_map_proper _ (map_to_list pending)); [apply list_to_map_to_list| |].
      * rewrite <-list_fmap_compose. cbn. by rewrite Hperm.
      * by rewrite Hperm, pending_values.
    + by rewrite Hperm.
    + rewrite Hperm. apply Forall_forall. intros entry ([id x] & -> & Hin%elem_of_map_to_list)%list_elem_of_fmap.
      specialize (Hok _ _ Hin). cbn in *. by rewrite Hok.
    + done.
  - intros path' pending'. unfold load_pairing_state. intros (content & _ & H)%bind_Ok_inv.
    destruct content; [|injection H as <-; apply map_Forall_empty]. apply bind_Ok_inv in H as ([state rest] & _ & H).
    apply bind_Ok_inv in H as (canonical & _ & H). rewrite guard_bind in H. destruct H as [_ H].
    eapply read_pending_ok; [exact H|]. apply map_Forall_empty.
Qed.
End pending.

(** ** Witnesses *)

Definition f_publisher_entry : format (uuid * IdentityPublic) := f_pair (f_array 16) f_identity_public.
Definition f_publishers_state : format VerifiedPublishersState :=
  f_iso (f_pair f_Z (f_list f_publisher_entry)) (fun s => (vps_version s, vps_publishers s))
    (fun '(v, l) => Some {| vps_version := v; vps_publishers := l |}).
#[export] Instance toy_publishers_file : Postcard VerifiedPublishersState := postcard_of f_publishers_state.

Lemma publisher_entry_len x : 64 <= zlen (f_enc f_publisher_entry x).
Proof.
  destruct x as [s p]. cbn. rewrite !length_app, !length_vec_to_list. lia.
Qed.
Lemma enc_pos_len p q : (p <= q)%positive -> (length (enc_pos p) <= length (enc_pos q))%nat.
Proof.
  assert (forall p, length (enc_pos p) = Pos.size_nat p) as Hlen by (intros r; induction r; simpl; congruence).
  intros Hle. rewrite !Hlen. apply Pos.lt_eq_cases in Hle as [Hlt| ->]; [|done]. by apply Pos.size_nat_monotone.
Qed.
Lemma sublist_concat_len {A} (f : A -> bytes) l k :
  sublist l k -> (length (concat (f <$> l)) <= length (concat (f <$> k)))%nat.
Proof. induction 1; cbn [fmap list_fmap concat]; rewrite ?length_app; lia. Qed.
Lemma publishers_state_len s :
  zlen (f_enc f_publishers_state s) =
  zlen (f_enc f_Z (vps_version s)) + zlen (enc_pos (Pos.of_succ_nat (length (vps_publishers s)))) +
  zlen (concat (f_enc f_publisher_entry <$> vps_publishers s)).
Proof.
  change (f_enc f_publishers_state s) with (f_enc f_Z (vps_version s) ++
    enc_pos (Pos.of_succ_nat (length (vps_publishers s))) ++ concat (f_enc f_publisher_entry <$> vps_publishers s)).
  rewrite !length_app. lia.
Qed.
Lemma publishers_state_enc s enc : to_stdvec s = Ok enc <-> zlen (f_enc f_publishers_state s) <= u64_max /\ enc = f_enc f_publishers_state s.
Proof.
  unfold to_stdvec, toy_publishers_file, postcard_of. rewrite guard_bind. split; [intros [? [= <-]]|intros [? ->]]; split; try done; lia.
Qed.
#[export] Instance toy_publishers_laws : PublishersFileLaws.
Proof.
  split.
  - apply postcard_of_laws, f_iso_ok; [by intros []|]. apply f_pair_ok; [auto with toy|].
    apply f_list_ok, f_pair_ok; auto with toy.
  - intros s enc [_ ->]%publishers_state_enc. rewrite publishers_state_len.
    assert (64 * zlen (vps_publishers s) <= zlen (concat (f_enc f_publisher_entry <$> vps_publishers s))); [|lia].
    induction (vps_publishers s) as [|x l IH]; [done|]. rewrite fmap_cons. cbn [concat]. rewrite length_app.
    pose proof (publisher_entry_len x). cbn [length]. lia.
  - intros s s' enc [Hlen ->]%publishers_state_enc Hv Hsub.
    assert (zlen (f_enc f_publishers_state s') <= zlen (f_enc f_publishers_state s)) as Hle.
    { rewrite !publishers_state_len, Hv. pose proof (sublist_concat_len (f_enc f_publisher_entry) _ _ Hsub).
      apply sublist_length in Hsub.
      pose proof (enc_pos_len (Pos.of_succ_nat (length (vps_publishers s'))) (Pos.of_succ_nat (length (vps_publishers s)))).
      lia. }
    eexists. split; [apply publishers_state_enc; split; [lia|done]|done].
  - intros enc. vm_compute. intros [= <-]. discriminate.
Qed.

Definition f_pairing_state : format PairingState :=
  f_iso (f_pair f_Z (f_list (f_pair f_pair_request (f_option f_offer)))) (fun s => (pst_version s, pst_pending s))
    (fun '(v, l) => Some {| pst_version := v; pst_pending := l |}).
#[export] Instance toy_pairing_file : Postcard PairingState := postcard_of f_pairing_state.
#[export] Instance toy_pairing_laws : PostcardLaws PairingState.
Proof. apply postcard_of_laws, f_iso_ok; [by intros []|auto 10 with toy]. Qed.

Definition other_public : IdentityPublic :=
  match identity_public sample_viewer with Ok p => p | Err _ => sample_public end.
Definition trust_file : option FileEntry := (run_trust_op DiskOk (OpRemember sample_stream sample_public) None).2.
Lemma trust_file_run :
  run_trust_op DiskOk (OpRemember sample_stream sample_public) None = (Ok tt, trust_file) /\
  match identity_id sample_public, identity_id other_public with
  | Ok id, Ok id' => bool_decide (id <> id')
  | _, _ => false
  end = true.
Proof. vm_compute. done. Qed.
Lemma verified_publisher_kept_witness :
  let path := run_trust_ops [(DiskUnsynced, OpForgetPublisher uuid_nil); (DiskOk, OpRemember sample_stream other_public)] trust_file in
  is_ok (run_trust_op DiskUnsynced (OpRemember sample_stream other_public) path).1 = false.
Proof.
  destruct trust_file_run as [Hrun Hids].
  destruct (verified_publisher_kept DiskOk DiskUnsynced None ∅ sample_stream sample_public trust_file
    [(DiskUnsynced, OpForgetPublisher uuid_nil); (DiskOk, OpRemember sample_stream other_public)] other_public) as [_ H].
  - reflexivity.
  - exact Hrun.
  - destruct (identity_id sample_public); [reflexivity|discriminate].
  - intros [[= Hs]|[H|[]%elem_of_nil]%elem_of_cons]%elem_of_cons; discriminate.
  - apply H. intros (id & Hp & Hv). rewrite Hp, Hv in Hids. apply bool_decide_eq_true in Hids. by apply Hids.
Defined.

Definition pending_entry (r : PairRequest) (o : PairOffer) : PendingPairings :=
  match pair_request_id r with Ok id => <[ id := (r, Some o) ]> ∅ | Err _ => ∅ end.
Definition sample_pending : PendingPairings :=
  default ∅ ((fun x => pending_entry x.1.1.1 x.1.1.2) <$> sample_pairing).
Definition saved_pending : FileEntry :=
  default (stage_private []) (save_pairing_state DiskOk sample_pending None).2.
Lemma saved_pending_run :
  save_pairing_state DiskOk sample_pending None = (Ok tt, Some saved_pending) /\
  bool_decide (zlen (fe_content saved_pending) <= MAX_PAIRING_STATE_BYTES) = true /\
  size sample_pending = 1%nat.
Proof. vm_compute. done. Qed.
Lemma pending_pairings_roundtrip_witness : load_pairing_state (Some saved_pending) = Ok sample_pending.
Proof.
  destruct saved_pending_run as (Hsave & Hlen & _). apply bool_decide_eq_true in Hlen.
  apply (pending_pairings_roundtrip DiskOk None sample_pending saved_pending); [|exact Hsave|exact Hlen].
  unfold sample_pending. destruct sample_pairing as [[[[r o] c] d]|]; [|apply map_Forall_empty]. unfold pending_entry; simpl.
  destruct (pair_request_id r) as [id|] eqn:Hid; [|apply map_Forall_empty]. apply map_Forall_insert_2; [exact Hid|apply map_Forall_empty].
Defined.
