(* ===== verification/ViewerSession.v ===== *)
(** The connections of a viewer ([crates/viewer/src/lib.rs]): refreshing the
    catalog and the key cache, pairing, and subscriptions, which verify, decrypt
    and decode the objects of a stream.

    The relay, the clock and the failures are those of [RelayClient].  The files
    and the key cache are shared: other tasks and processes may change them
    between two steps, as the environment says.  What a client writes is one trace
    of the messages to the relay and the events for the window, so that their
    order is kept.  The texts of statuses and errors are only named. *)
From Stdlib Require Import ZArith Lia.
From S2P Require Import Prelude Bytes RustStr External Toy Identity Credential Native Envelope Cursor.
From S2P Require Import Transport Pairing Codecs Wire PrivateState KnownRelays RelayClient Keyed ViewerState.

(** * The world of a viewer *)

Record ViewerDisk : Type := {
  vd_known : option FileEntry;
  vd_publishers : option FileEntry;
  vd_pairing : option FileEntry;
  vd_keys : KeyCache;
}.
#[global] Instance viewer_state_dir : StateDir ViewerDisk := {|
  known_relays := vd_known;
  set_known_relays e d := {| vd_known := e; vd_publishers := vd_publishers d; vd_pairing := vd_pairing d;
                             vd_keys := vd_keys d |} |}.
#[global] Instance viewer_state_dir_laws : StateDirLaws ViewerDisk.
Proof. by split. Qed.
Definition set_publishers (e : option FileEntry) (d : ViewerDisk) : ViewerDisk := {|
  vd_known := vd_known d; vd_publishers := e; vd_pairing := vd_pairing d; vd_keys := vd_keys d |}.
Definition set_pairing (e : option FileEntry) (d : ViewerDisk) : ViewerDisk := {|
  vd_known := vd_known d; vd_publishers := vd_publishers d; vd_pairing := e; vd_keys := vd_keys d |}.
Definition set_keys (k : KeyCache) (d : ViewerDisk) : ViewerDisk := {|
  vd_known := vd_known d; vd_publishers := vd_publishers d; vd_pairing := vd_pairing d; vd_keys := k |}.

Record ConnectionProfile : Type := {
  cp_endpoint : rstring;
  cp_identity : IdentitySecret;
  cp_credential : option NativeCredential;
  cp_explicit_pin : option (array 32);
}.

Record Frame : Type := {
  fr_stream_id : uuid;
  fr_width : Z;
  fr_height : Z;
  fr_rgb : bytes;
  fr_sequence : Z;
  fr_key_group : Z;
}.
Record CursorUpdate : Type := {
  cu_stream_id : uuid;
  cu_x_micropixels : Z;
  cu_y_micropixels : Z;
  cu_visible : bool;
  cu_bitmap : option CursorBitmap;
}.
Inductive Event : Type :=
| EvStatus (status : string)
| EvCatalog (entries : list CatalogEntry)
| EvFrame (frame : Frame)
| EvCursor (update : CursorUpdate)
| EvStreamStatus (stream_id : uuid) (status : string)
| EvStreamError (stream_id : uuid) (error : string)
| EvPairingPrompt (request_id : array 32) (authentication : string)
| EvPairingApproved (stream_id : uuid) (publisher : IdentityPublic).
Inductive Output : Type := ToRelay (message : ViewerMessage) | ToUi (event : Event).

(** [openh264]'s decoder: splitting a stream into its units and decoding a unit,
    which may give a picture. *)
Class H264Decoder : Type := {
  Decoder : Type;
  decoder_new : result string Decoder;
  decoder_units : bytes -> list bytes;
  decoder_decode : Decoder -> bytes -> result string (option (Z * Z * bytes)) * Decoder;
}.

Section viewer.
Context `{crypto : !Crypto, addrs : !SocketAddrs, ports : !SocketPorts, codecs : !Codecs}.
Context `{relay_file : !Postcard KnownRelayFile, publishers_file : !Postcard VerifiedPublishersState}.
Context `{pairing_file : !Postcard PairingState, library : !H264Decoder}.
Abbreviation viewer := (client ViewerDisk Output RelayViewerMessage).
Context (env : ClientEnv ViewerDisk RelayViewerMessage).

(** [events.send]: the window takes an event even if it is gone. *)
Definition send_event (e : Event) : viewer unit := fun c =>
  (Ok tt, {| cl_disk := cl_disk c; cl_step := cl_step c; cl_replies := cl_replies c;
             cl_sent := cl_sent c ++ [ToUi e] |}).
Definition write_viewer (message : ViewerMessage) : viewer unit := write_relay env (ToRelay message).
Definition read_viewer : viewer RelayViewerMessage := read_relay.

(** [keys.lock()] and an operation on the cache; an insertion always ends, by
    [key_cache_refines_queue]. *)
Definition get_key (group : GroupKey) : viewer (option (array 32)) :=
  disk_call env (fun d => (Ok (cache_get (vd_keys d) group), d)).
Definition insert_key (group : GroupKey) (key : array 32) : viewer unit :=
  disk_call env (fun d => match cache_insert group key (vd_keys d) with
                          | Some k => (Ok tt, set_keys k d)
                          | None => (Err "key cache eviction", d)
                          end).
Definition read_publishers_file : viewer (gmap uuid IdentityPublic) :=
  disk_call env (fun d => (verified_publishers (vd_publishers d), d)).
Definition remember_publisher (stream_id : uuid) (publisher : IdentityPublic) : viewer unit :=
  disk_write env (fun disk d =>
    let '(r, path) := remember_verified_publisher disk stream_id publisher (vd_publishers d) in
    (r, set_publishers path d)).
Definition save_pending (pending : PendingPairings) : viewer unit :=
  disk_write env (fun disk d =>
    let '(r, path) := save_pairing_state disk pending (vd_pairing d) in (r, set_pairing path d)).

(** [connect] *)
Definition viewer_connect (p : ConnectionProfile) : viewer unit :=
  viewer_handshake env (cp_endpoint p) (cp_explicit_pin p) then?
  let? public := lift (context "identity" (identity_public (cp_identity p))) in
  write_viewer (VwHello {|
    hello_protocol_version := PROTOCOL_VERSION; hello_role := RoleViewer;
    hello_identity := public; hello_credential := cp_credential p |}) then?
  let? reply := read_viewer in
  match reply with
  | RvWelcome _ => mret tt
  | RvError _ => lift (Err "relay rejected viewer")
  | _ => lift (Err "relay did not send a welcome first")
  end.

Definition envelope_group (stream_id : uuid) (e : KeyEnvelope) : GroupKey := {|
  gk_stream_id := stream_id; gk_epoch_id := eh_epoch_id (env_header e);
  gk_key_group := eh_key_group_id (env_header e); gk_key_id := eh_key_id (env_header e) |}.

(** * Refreshing *)

(** Whether the publisher of an entry is the one verified for its stream, if one
    is: both fingerprints are compared as [id().ok()]. *)
Definition entry_publisher (entry : CatalogEntry) : IdentityPublic := desc_publisher (desc_body (ce_descriptor entry)).
Definition entry_stream (entry : CatalogEntry) : uuid := desc_stream_id (desc_body (ce_descriptor entry)).
Definition entry_matches (verified : gmap uuid IdentityPublic) (entry : CatalogEntry) : Prop :=
  is_none_or (fun expected => result_ok (identity_id expected) = result_ok (identity_id (entry_publisher entry)))
    (verified !! entry_stream entry).
#[global] Instance entry_matches_dec verified entry : Decision (entry_matches verified entry).
Proof. unfold entry_matches. apply _. Defined.

(** The loop that reads the inbox; [fuel] bounds its turns. *)
Fixpoint refresh_inbox (p : ConnectionProfile) (publishers : gmap (array 32) IdentityPublic) (fuel : nat) :
    viewer unit :=
  match fuel with
  | O => lift (Err "out of fuel")
  | S fuel =>
      let? reply := read_viewer in
      match reply with
      | RvKeyEnvelope envelope =>
          match publishers !! eh_publisher_id (env_header envelope) with
          | Some publisher =>
              let? content_key := lift (context "envelope" (envelope_open envelope (cp_identity p) publisher)) in
              insert_key (envelope_group (eh_stream_id (env_header envelope)) envelope) content_key
          | None => mret tt
          end then?
          refresh_inbox p publishers fuel
      | RvInboxComplete => mret tt
      | RvPairOffer _ | RvPairDecision _ => refresh_inbox p publishers fuel
      | RvError _ => lift (Err "inbox rejected")
      | _ => lift (Err "unexpected inbox response")
      end
  end.
(** A read takes a reply, so that the replies bound the turns. *)
Definition with_replies {A} (m : nat -> viewer A) : viewer A := fun c => m (S (length (cl_replies c))) c.

Definition refresh (p : ConnectionProfile) : viewer unit :=
  viewer_connect p then?
  write_viewer VwCatalog then?
  let? reply := read_viewer in
  let? catalog := match reply with
    | RvCatalog catalog => mret catalog
    | RvError _ => lift (Err "catalog rejected")
    | _ => lift (Err "unexpected catalog response")
    end in
  let? verified := read_publishers_file in
  let hidden := filter (fun entry => ~ entry_matches verified entry) catalog in
  let catalog := filter (entry_matches verified) catalog in
  let? publishers := lift (mapR (fun entry =>
    let? id := context "identity" (identity_id (entry_publisher entry)) in
    Ok (id, entry_publisher entry)) catalog) in
  let publishers := foldl (fun m x => <[x.1 := x.2]> m) ∅ publishers in
  write_viewer VwFetchInbox then?
  with_replies (refresh_inbox p publishers) then?
  send_event (EvCatalog catalog) then?
  if decide (hidden <> []) then send_event (EvStatus "Hidden streams whose publisher identity changed")
  else mret tt.

(** * Pairing *)

Definition PAIR_LIFETIME : Z := 24 * 60 * 60 * 1000.

(** [begin_pairing]; the request identifier is compared with the answer's. *)
Definition begin_pairing (p : ConnectionProfile) (stream_id : uuid) (publisher : IdentityPublic) :
    viewer PairRequest :=
  let? verified := read_publishers_file in
  match verified !! stream_id with
  | Some expected =>
      let? expected := lift (context "identity" (identity_id expected)) in
      let? id := lift (context "identity" (identity_id publisher)) in
      lift (reject_if (expected <> id) "refusing to pair with a changed publisher identity")
  | None => mret tt
  end then?
  let? now := client_now env in
  let? request := with_entropy env (fun entropy =>
    context "pairing" <$> new_with_credential (cp_identity p) publisher stream_id (ascii_str "gcview device")
      (cp_credential p) now (i64_saturating_add now PAIR_LIFETIME) (draws32 entropy)) in
  viewer_connect p then?
  write_viewer (VwPairRequest request) then?
  let? reply := read_viewer in
  match reply with
  | RvPairingQueued request_id =>
      let? id := lift (context "pairing" (pair_request_id request)) in
      lift (reject_if (request_id <> id) "unexpected pairing response") then?
      mret request
  | RvError _ => lift (Err "relay rejected pairing")
  | _ => lift (Err "unexpected pairing response")
  end.

(** [confirm_pairing] *)
Definition confirm_pairing (p : ConnectionProfile) (request : PairRequest) (offer : PairOffer) : viewer unit :=
  let? now := client_now env in
  let? confirmation := lift (context "pairing" (confirmation_approve (cp_identity p) request offer now)) in
  viewer_connect p then?
  write_viewer (VwPairConfirmation confirmation) then?
  let? reply := read_viewer in
  match reply with
  | RvPairingQueued request_id =>
      let? id := lift (context "pairing" (pair_request_id request)) in
      lift (reject_if (request_id <> id) "unexpected confirmation response")
  | RvError _ => lift (Err "relay rejected confirmation")
  | _ => lift (Err "unexpected confirmation response")
  end.

(** The pairings are changed in place, so that they keep what an operation did
    before it failed. *)
Abbreviation with_pending A := (viewer (result string A * PendingPairings)).

(** The answers to an offer and to a decision in [refresh_pairing]. *)
Definition receive_offer (offer : PairOffer) (pending : PendingPairings) : with_pending unit :=
  let request_id := off_request_id (off_body offer) in
  match pending !! request_id with
  | None => mret (Ok tt, pending)
  | Some (request, _) =>
      let? now := client_now env in
      match (context "pairing" (offer_verify offer request now PAIR_LIFETIME) then?
             context "pairing" (authentication_string request offer)) with
      | Err e => mret (Err e, pending)
      | Ok authentication =>
          let pending := <[request_id := (request, Some offer)]> pending in
          let? prompted := attempt (
            let? id := lift (context "pairing" (pair_request_id request)) in
            save_pending pending then?
            send_event (EvPairingPrompt id authentication)) in
          mret (prompted, pending)
      end
  end.
Definition receive_decision (decision : PublisherDecision) (pending : PendingPairings) : with_pending unit :=
  let body := dec_body decision in
  let? decided := attempt (
    match pending !! dec_request_id body with
    | Some (request, _) =>
        let stream_id := prq_stream_id (prq_body request) in
        let publisher := prq_publisher (prq_body request) in
        lift (context "pairing" (decision_verify decision request publisher)) then?
        (if dec_approved body then remember_publisher stream_id publisher else mret tt) then?
        send_event (EvStatus (if dec_approved body then "Publisher approved this viewer"
                              else "Publisher rejected this viewer")) then?
        if dec_approved body then send_event (EvPairingApproved stream_id publisher) else mret tt
    | None => mret tt
    end) in
  match decided with
  | Err e => mret (Err e, pending)
  | Ok _ =>
      let pending := delete (dec_request_id body) pending in
      let? saved := attempt (save_pending pending) in
      mret (saved, pending)
  end.

(** The loop of [refresh_pairing]. *)
Fixpoint pairing_inbox (fuel : nat) (pending : PendingPairings) : with_pending unit :=
  match fuel with
  | O => mret (Err "out of fuel", pending)
  | S fuel =>
      let? reply := attempt read_viewer in
      let continue (handled : result string unit * PendingPairings) :=
        match handled with
        | (Ok _, pending) => pairing_inbox fuel pending
        | (Err e, pending) => mret (Err e, pending)
        end in
      match reply with
      | Err e => mret (Err e, pending)
      | Ok (RvPairOffer offer) => let? handled := receive_offer offer pending in continue handled
      | Ok (RvPairDecision decision) => let? handled := receive_decision decision pending in continue handled
      | Ok RvInboxComplete => mret (Ok tt, pending)
      | Ok (RvKeyEnvelope _) => pairing_inbox fuel pending
      | Ok (RvError _) => mret (Err "pairing inbox rejected", pending)
      | Ok _ => mret (Err "unexpected pairing inbox response", pending)
      end
  end.
Definition refresh_pairing (p : ConnectionProfile) (pending : PendingPairings) : with_pending unit :=
  let? connected := attempt (viewer_connect p then? write_viewer VwFetchInbox) in
  match connected with
  | Err e => mret (Err e, pending)
  | Ok _ => with_replies (fun fuel => pairing_inbox fuel pending)
  end.

(** [refresh_all] *)
Definition refresh_all (p : ConnectionProfile) (pending : PendingPairings) : viewer PendingPairings :=
  let? refreshed := attempt (refresh p) in
  (if is_ok refreshed then mret tt else send_event (EvStatus "Connection failed")) then?
  let? (paired, pending) := refresh_pairing p pending in
  (if is_ok paired then mret tt else send_event (EvStatus "Pairing refresh failed")) then?
  mret pending.

(** * Subscriptions *)

(** [decode_object]: the decoder and the source size after it. *)
Fixpoint decode_units (o : NativeObject) (units : list bytes) (decoder : Decoder) : viewer Decoder :=
  match units with
  | [] => mret decoder
  | unit :: units =>
      let '(r, decoder) := decoder_decode decoder unit in
      let? yuv := lift r in
      match yuv with
      | Some ((width, height), rgb) =>
          send_event (EvFrame {| fr_stream_id := h_stream_id (header o); fr_width := width; fr_height := height;
                                 fr_rgb := rgb; fr_sequence := h_sequence (header o);
                                 fr_key_group := h_key_group (header o) |})
      | None => mret tt
      end then?
      decode_units o units decoder
  end.
Fixpoint send_cursors (o : NativeObject) (events : list CursorEvent) : viewer unit :=
  match events with
  | [] => mret tt
  | cursor :: events =>
      send_event (EvCursor {| cu_stream_id := h_stream_id (header o);
        cu_x_micropixels := x_micropixels cursor; cu_y_micropixels := y_micropixels cursor;
        cu_visible := visible cursor; cu_bitmap := bitmap cursor |}) then?
      send_cursors o events
  end.
Definition decode_object (publisher : IdentityPublic) (o : NativeObject) (key : array 32)
    (decoder : Decoder) (source_size : option (Z * Z)) : viewer (Decoder * option (Z * Z)) :=
  let? content_key := lift (context "content key" (content_key_from_bytes key)) in
  let? plaintext := lift (context "object" (object_open o publisher content_key (h_key_id (header o)))) in
  match h_kind (header o), h_codec (header o) with
  | Cursor, _ =>
      let? (source_width, source_height) := lift (ok_or source_size "cursor arrived before epoch") in
      let? batch := lift (context "cursor" (decode_cursor_batch
        {| ctx_stream_id := h_stream_id (header o); ctx_epoch_id := h_epoch_id (header o);
           ctx_sequence := h_sequence (header o); ctx_start_timestamp := h_timestamp (header o);
           ctx_source_width := source_width; ctx_source_height := source_height |} plaintext)) in
      send_cursors o (events batch) then?
      mret (decoder, source_size)
  | Epoch, Some H264AnnexB =>
      let? epoch := lift (context "epoch" (epoch_decode plaintext)) in
      let? decoder := decode_units o (decoder_units (codec_config epoch)) decoder in
      mret (decoder, Some (epoch_width epoch, epoch_height epoch))
  | Media, Some H264AnnexB =>
      let? decoder := decode_units o (decoder_units plaintext) decoder in
      mret (decoder, source_size)
  | _, _ => mret (decoder, source_size)
  end.

(** The variables of [subscribe_once]. *)
Record Playback : Type := {
  pl_guard : LiveSequenceGuard;
  pl_decoder : Decoder;
  pl_source_size : option (Z * Z);
  pl_pending : list NativeObject;
  pl_pending_bytes : Z;
  pl_last_decrypted : Z;
}.

(** [drain_pending_objects]: the playback after it, with the sequence of the last
    object that it decrypted. *)
Fixpoint drain_objects (publisher : IdentityPublic) (pending : list NativeObject) (pending_bytes : Z)
    (decoder : Decoder) (source_size : option (Z * Z)) (last_decrypted : option Z) :
    viewer (list NativeObject * Z * Decoder * option (Z * Z) * option Z) :=
  match pending with
  | [] => mret ([], pending_bytes, decoder, source_size, last_decrypted)
  | object :: rest =>
      let? key := get_key (for_object object) in
      match key with
      | None => mret (object :: rest, pending_bytes, decoder, source_size, last_decrypted)
      | Some key =>
          let? (decoder, source_size) := decode_object publisher object key decoder source_size in
          drain_objects publisher rest (u64_saturating_sub pending_bytes (zlen (ciphertext object)))
            decoder source_size (Some (h_sequence (header object)))
      end
  end.
Definition drain_pending_objects (publisher : IdentityPublic) (s : Playback) : viewer Playback :=
  let? drained := drain_objects publisher (pl_pending s) (pl_pending_bytes s) (pl_decoder s)
                    (pl_source_size s) None in
  let '(pending, pending_bytes, decoder, source_size, last_decrypted) := drained in
  mret {| pl_guard := pl_guard s; pl_decoder := decoder; pl_source_size := source_size;
          pl_pending := pending; pl_pending_bytes := pending_bytes;
          pl_last_decrypted := default (pl_last_decrypted s) last_decrypted |}.

(** A message of the subscription. *)
Definition receive_object (publisher : IdentityPublic) (object : NativeObject) (s : Playback) : viewer Playback :=
  let? guard := lift (context "sequence guard" (live_guard_accept (pl_guard s) object)) in
  let pending_bytes := u64_saturating_add (pl_pending_bytes s) (zlen (ciphertext object)) in
  let pending := pl_pending s ++ [object] in
  lift (reject_if (zlen pending > MAX_PENDING_OBJECTS \/ pending_bytes > MAX_PENDING_CIPHERTEXT_BYTES)
    "publisher key envelope did not arrive within buffer limits") then?
  drain_pending_objects publisher
    {| pl_guard := guard; pl_decoder := pl_decoder s; pl_source_size := pl_source_size s;
       pl_pending := pending; pl_pending_bytes := pending_bytes; pl_last_decrypted := pl_last_decrypted s |}.
Definition receive_envelope (p : ConnectionProfile) (stream_id : uuid) (publisher_id : array 32)
    (publisher : IdentityPublic) (envelope : KeyEnvelope) (s : Playback) : viewer Playback :=
  let? recipient_id :=
    if decide (eh_publisher_id (env_header envelope) <> publisher_id \/
               eh_stream_id (env_header envelope) <> stream_id) then mret None
    else lift (context "identity" (let? public := identity_public (cp_identity p) in
                                   Some <$> identity_id public)) in
  lift (reject_if (Some (eh_recipient_id (env_header envelope)) <> recipient_id)
    "subscription delivered a misrouted key envelope") then?
  let? content_key := lift (context "envelope" (envelope_open envelope (cp_identity p) publisher)) in
  insert_key (envelope_group stream_id envelope) content_key then?
  drain_pending_objects publisher s.
Definition play_message (p : ConnectionProfile) (stream_id : uuid) (publisher_id : array 32)
    (publisher : IdentityPublic) (message : RelayViewerMessage) (s : Playback) : viewer Playback :=
  match message with
  | RvObject object => receive_object publisher object s
  | RvKeyEnvelope envelope => receive_envelope p stream_id publisher_id publisher envelope s
  | RvLive _ => send_event (EvStreamStatus stream_id "Live") then? mret s
  | RvPong _ => mret s
  | RvError _ => lift (Err "relay stream error")
  | _ => lift (Err "unexpected subscription message")
  end.

(** The loop, which only ends with an error; with it goes the sequence of the
    last object that was decrypted. *)
Fixpoint play (p : ConnectionProfile) (stream_id : uuid) (publisher_id : array 32)
    (publisher : IdentityPublic) (fuel : nat) (s : Playback) : viewer (string * Z) :=
  match fuel with
  | O => mret ("out of fuel", pl_last_decrypted s)
  | S fuel =>
      let? r := attempt (let? message := read_viewer in
                         play_message p stream_id publisher_id publisher message s) in
      match r with
      | Ok s => play p stream_id publisher_id publisher fuel s
      | Err e => mret (e, pl_last_decrypted s)
      end
  end.

(** [subscribe_once] up to its loop. *)
Definition start_playback (p : ConnectionProfile) (stream_id : uuid) (publisher : IdentityPublic)
    (start : SubscriptionStart) (last_decrypted : Z) : viewer (array 32 * Playback) :=
  let? verified := read_publishers_file in
  match verified !! stream_id with
  | Some expected =>
      let? expected := lift (context "identity" (identity_id expected)) in
      let? id := lift (context "identity" (identity_id publisher)) in
      lift (reject_if (expected <> id) "catalog publisher does not match the verified stream identity")
  | None => mret tt
  end then?
  viewer_connect p then?
  let? publisher_id := lift (context "identity" (identity_id publisher)) in
  write_viewer (VwSubscribe publisher_id stream_id start) then?
  let? reply := read_viewer in
  let? (first_sequence, starts_live) := match reply with
    | RvSubscriptionStarted first_sequence _ live => mret (first_sequence, live)
    | RvError _ => lift (Err "subscription rejected")
    | _ => lift (Err "unexpected subscription response")
    end in
  send_event (EvStreamStatus stream_id (if starts_live : bool then "Waiting for live media"
                                        else "Playing retained history")) then?
  let? decoder := lift decoder_new in
  mret (publisher_id, {|
    pl_guard := live_guard_new publisher_id stream_id (u64_saturating_sub first_sequence 1);
    pl_decoder := decoder; pl_source_size := None; pl_pending := []; pl_pending_bytes := 0;
    pl_last_decrypted := last_decrypted |}).
Definition subscribe_once (p : ConnectionProfile) (stream_id : uuid) (publisher : IdentityPublic)
    (start : SubscriptionStart) (last_decrypted : Z) : viewer (string * Z) :=
  let? started := attempt (start_playback p stream_id publisher start last_decrypted) in
  match started with
  | Err e => mret (e, last_decrypted)
  | Ok (publisher_id, s) =>
      with_replies (fun fuel => play p stream_id publisher_id publisher fuel s)
  end.

(** [reconnect_delay] in milliseconds *)
Definition reconnect_delay (attempt : Z) : Z :=
  u64_saturating_mul 250 (Z.shiftl 1 (Z.min attempt 5)).

(** [subscribe] for its first [attempts] connections; it goes on until its task
    is aborted.  What it sleeps between them is given back. *)
Fixpoint subscribe (p : ConnectionProfile) (stream_id : uuid) (publisher : IdentityPublic)
    (start : SubscriptionStart) (attempts : nat) (attempt_count last_decrypted : Z) : viewer (list Z) :=
  match attempts with
  | O => mret []
  | S attempts =>
      let resume := if decide (last_decrypted = 0) then start
                    else StartSequence (u64_saturating_add last_decrypted 1) in
      let? (error, last) := subscribe_once p stream_id publisher resume last_decrypted in
      let attempt_count := if decide (last > last_decrypted) then 0 else attempt_count in
      let delay := reconnect_delay attempt_count in
      send_event (EvStreamError stream_id "Disconnected; retrying") then?
      attempt (refresh p) then?
      let? delays := subscribe p stream_id publisher start attempts (Z.min u32_max (attempt_count + 1)) last in
      mret (delay :: delays)
  end.
End viewer.
