(* ===== verification/ViewerHeadless.v ===== *)
(** The start of a viewer and its modes without a window
    ([crates/viewer/src/lib.rs]): the relay of an invite, the credential and the
    request for one, listing the catalog, and verifying a stream, which pairs,
    waits for the publisher's approval and watches for pictures of two key
    groups.

    The base64 text of a Noise key is a parameter.  The two timeouts end a wait
    after what has happened so far. *)
From Stdlib Require Import ZArith Lia.
From S2P Require Import Prelude Bytes RustStr External Toy Identity Credential Native Envelope Cursor.
From S2P Require Import Transport Pairing Codecs Wire PrivateState KnownRelays RelayClient Keyed ViewerState.
From S2P Require Import ViewerSession.

(** * The relay *)

Definition DEFAULT_VIEWER_PORT : Z := 8899.
Definition MAX_CREDENTIAL_FILE : Z := 64 * 1024.

(** [str::strip_prefix], [str::split_once] and [str::split] *)
Fixpoint strip_text (prefix s : rstring) : option rstring :=
  match prefix, s with
  | [], _ => Some s
  | p :: prefix, c :: s => if decide (p = c) then strip_text prefix s else None
  | _ :: _, [] => None
  end.
Fixpoint split_once (separator : Z) (s : rstring) : option (rstring * rstring) :=
  match s with
  | [] => None
  | c :: s => if decide (c = separator) then Some ([], s)
              else '(before, after) ← split_once separator s; Some (c :: before, after)
  end.
Fixpoint split_all (separator : Z) (s : rstring) : list rstring :=
  match s with
  | [] => [[]]
  | c :: s => if decide (c = separator) then [] :: split_all separator s
              else match split_all separator s with x :: xs => (c :: x) :: xs | [] => [[c]] end
  end.

Section relay.
Context `{addrs : !SocketAddrs, ports : !SocketPorts} (decode_noise_public_key : rstring -> option (array 32)).

Definition parse_relay (input : rstring) : result string (rstring * option (array 32)) :=
  let value := default input (strip_text (ascii_str "glacialcast://") input) in
  let '(authority, query) := default (value, []) (split_once 63 value) in
  let endpoint := if decide (58 ∈ authority) then authority
                  else authority ++ [58] ++ decimal 5 DEFAULT_VIEWER_PORT in
  let? _ := context "relay endpoint" (canonical_relay_endpoint endpoint) in
  let? pin := opt_traverse (fun text => ok_or (decode_noise_public_key text) "invalid Noise public key")
                (head (omap (strip_text (ascii_str "key=")) (split_all 38 query))) in
  Ok (endpoint, pin).

(** The pin that [run] connects with: the one of the command line, or that of
    the invite. *)
Definition explicit_pin (server_key : option rstring) (invite_pin : option (array 32)) :
    result string (option (array 32)) :=
  let? pin := opt_traverse (fun text => ok_or (decode_noise_public_key text) "invalid Noise public key") server_key in
  Ok (match pin with Some pin => Some pin | None => invite_pin end).
End relay.

(** * Credentials *)

Section credentials.
Context `{crypto : !Crypto, codecs : !Codecs}.

(** The file of the request, written for the viewer's own identity. *)
Definition credential_request_file (disk : disk_outcome) (identity : IdentitySecret) (subject : rstring)
    (noise_key : array 32) (now : Z) (draws : list (array 16)) (output : option FileEntry) :
    option (result string unit * option FileEntry) :=
  (fun request =>
     (let? request := lift (context "credential request" request) in
      let? encoded := lift (context "credential request" (request_encode request)) in
      in_context "credential request" (create_private disk encoded)) output) <$>
  request_new identity subject RoleViewer noise_key now (i64_saturating_add now (24 * 60 * 60 * 1000)) draws.
Definition load_viewer_credential (path : option (option FileEntry)) : result string (option NativeCredential) :=
  opt_traverse (fun file =>
    let? content := context "credential" (read_private file MAX_CREDENTIAL_FILE) in
    context "credential" (credential_decode content)) path.
End credentials.

(** * Without a window *)

Section headless.
Context `{crypto : !Crypto, addrs : !SocketAddrs, ports : !SocketPorts, codecs : !Codecs}.
Context `{relay_file : !Postcard KnownRelayFile, publishers_file : !Postcard VerifiedPublishersState}.
Context `{library : !H264Decoder}.
Abbreviation viewer := (client ViewerDisk Output RelayViewerMessage).
Context (env : ClientEnv ViewerDisk RelayViewerMessage).

Definition fetch_catalog (p : ConnectionProfile) : viewer (list CatalogEntry) :=
  viewer_connect env p then?
  write_viewer env VwCatalog then?
  let? reply := read_viewer in
  match reply with
  | RvCatalog catalog => mret catalog
  | RvError _ => lift (Err "catalog rejected")
  | _ => lift (Err "unexpected catalog response")
  end.
(** [headless_catalog]: the rows that it prints. *)
Definition headless_catalog (p : ConnectionProfile) : viewer (list (uuid * bool * rstring)) :=
  let? catalog := fetch_catalog p in
  mret ((fun entry => (entry_stream entry, ce_publisher_online entry, desc_name (desc_body (ce_descriptor entry))))
          <$> catalog).

(** The reading loop for one connection: whether the publisher approved. *)
Fixpoint approval_inbox (request : PairRequest) (request_id : array 32) (publisher : IdentityPublic)
    (stream_id : uuid) (approved : bool) (fuel : nat) : viewer bool :=
  match fuel with
  | O => lift (Err "out of fuel")
  | S fuel =>
      let? reply := read_viewer in
      match reply with
      | RvPairDecision decision =>
          if decide (dec_request_id (dec_body decision) = request_id) then
            lift (context "pairing" (decision_verify decision request publisher)) then?
            lift (reject_if (dec_approved (dec_body decision) = false \/ dec_stream_id (dec_body decision) <> stream_id)
              "publisher rejected stream verification request") then?
            remember_publisher env stream_id publisher then?
            approval_inbox request request_id publisher stream_id true fuel
          else approval_inbox request request_id publisher stream_id approved fuel
      | RvPairOffer _ | RvKeyEnvelope _ => approval_inbox request request_id publisher stream_id approved fuel
      | RvInboxComplete => mret approved
      | RvError _ => lift (Err "pairing inbox rejected")
      | _ => lift (Err "unexpected pairing inbox response")
      end
  end.
(** Fetching the inbox until the approval, at most [tries] times before the
    timeout. *)
Fixpoint await_approval (p : ConnectionProfile) (request : PairRequest) (request_id : array 32)
    (publisher : IdentityPublic) (stream_id : uuid) (tries : nat) : viewer unit :=
  match tries with
  | O => lift (Err "timed out waiting for automatic publisher approval")
  | S tries =>
      viewer_connect env p then?
      write_viewer env VwFetchInbox then?
      let? approved := with_replies (approval_inbox request request_id publisher stream_id false) in
      if approved : bool then mret tt
      else await_approval p request request_id publisher stream_id tries
  end.

(** The events, until there were pictures of two key groups. *)
Fixpoint watch_frames (stream_id : uuid) (first_group : option Z) (events : list Event) : result string Frame :=
  match events with
  | [] => Err "timed out waiting for a decoded stream frame"
  | EvFrame frame :: events =>
      if decide (fr_stream_id frame = stream_id /\ fr_rgb frame <> []) then
        if decide (is_some_and (fun group => group <> fr_key_group frame) first_group) then Ok frame
        else watch_frames stream_id (Some (default (fr_key_group frame) first_group)) events
      else watch_frames stream_id first_group events
  | EvStreamError _ error :: _ => Err error
  | _ :: events => watch_frames stream_id first_group events
  end.
(** What a program sends to the window while it runs. *)
Definition sent_events {A} (m : viewer A) : viewer (list Event) := fun c =>
  let '(_, c') := m c in
  (Ok (omap (fun o => match o with ToUi e => Some e | ToRelay _ => None end)
         (drop (length (cl_sent c)) (cl_sent c'))), c').

(** [headless_verify_stream], which goes on for [attempts] connections of the
    subscription at most; the cache of keys is its own. *)
Definition headless_verify_stream (p : ConnectionProfile) (stream_id : uuid) (tries attempts : nat) : viewer Frame :=
  let? catalog := fetch_catalog p in
  let? publisher := lift (ok_or (entry_publisher <$> head (filter (fun entry => entry_stream entry = stream_id) catalog))
                            "requested verification stream is not in the catalog") in
  let? request := begin_pairing env p stream_id publisher in
  let? request_id := lift (context "pairing" (pair_request_id request)) in
  await_approval p request request_id publisher stream_id tries then?
  let? events := sent_events (subscribe env p stream_id publisher Live attempts 0 0) in
  lift (watch_frames stream_id None events).

(** * Theorems *)

(** An approval is a decision of the publisher for this very request and stream,
    which the publisher signed. *)
Lemma approval_inbox_decided request request_id publisher stream_id fuel c c' approved :
  approval_inbox request request_id publisher stream_id approved fuel c = (Ok true, c') ->
  approved = true \/ exists decision, Some (RvPairDecision decision) ∈ cl_replies c /\
    decision_verify decision request publisher = Ok tt /\ dec_request_id (dec_body decision) = request_id /\
    dec_approved (dec_body decision) = true /\ dec_stream_id (dec_body decision) = stream_id.
Proof using Type.
  revert c approved. induction fuel as [|fuel IH]; intros c approved; simpl; [done|].
  intros (reply & c1 & Hr & H)%io_bind_Ok.
  assert (exists rest, cl_replies c = Some reply :: rest /\ cl_replies c1 = rest) as (rest & Hc & Hc1).
  { unfold read_viewer, read_relay in Hr. destruct (cl_replies c) as [|[m|] rest] eqn:E; [done| |done].
    injection Hr as -> <-. by exists rest. }
  assert (forall b, approval_inbox request request_id publisher stream_id b fuel c1 = (Ok true, c') ->
    b = true \/ exists decision, Some (RvPairDecision decision) ∈ cl_replies c /\
      decision_verify decision request publisher = Ok tt /\ dec_request_id (dec_body decision) = request_id /\
      dec_approved (dec_body decision) = true /\ dec_stream_id (dec_body decision) = stream_id) as Hnext.
  { intros b [?|(d & Hd & Hrest)]%IH; [by left|]. right. exists d. split; [|done]. rewrite Hc. right. by rewrite <-Hc1. }
  destruct reply; try done; try (by apply Hnext); [|by injection H as <-; left].
  case_decide as Hid; [|by apply Hnext].
  apply io_bind_Ok in H as ([] & c2 & [Hv%context_Ok ->]%lift_Ok & H).
  apply io_bind_Ok in H as ([] & c3 & [Hok%reject_if_Ok ->]%lift_Ok & _).
  apply not_or_and in Hok as [Happ Hs%dec_stable]. right. exists decision. rewrite Hc.
  split_and!; try done; [by left|]. by destruct (dec_approved _).
Qed.

(** The frame that ends the watch is of the stream and of another key group than
    an earlier one. *)
Lemma watch_frames_rotated stream_id first events frame :
  watch_frames stream_id first events = Ok frame ->
  EvFrame frame ∈ events /\ fr_stream_id frame = stream_id /\ fr_rgb frame <> [] /\
  exists group, group <> fr_key_group frame /\
    (first = Some group \/
     exists earlier, EvFrame earlier ∈ events /\ fr_stream_id earlier = stream_id /\ fr_key_group earlier = group).
Proof using Type.
  revert first. induction events as [|e events IH]; intros first; [done|].
  assert (forall first', watch_frames stream_id first' events = Ok frame ->
    (first' = first \/ exists f, e = EvFrame f /\ fr_stream_id f = stream_id /\ first' = Some (default (fr_key_group f) first)) ->
    EvFrame frame ∈ e :: events /\ fr_stream_id frame = stream_id /\ fr_rgb frame <> [] /\
    exists group, group <> fr_key_group frame /\
      (first = Some group \/
       exists earlier, EvFrame earlier ∈ e :: events /\ fr_stream_id earlier = stream_id /\ fr_key_group earlier = group)) as Hnext.
  { intros first' (Hin & Hs & Hrgb & group & Hg & Hfirst)%IH Hf. split_and!; [by right|done..|].
    exists group. split; [done|]. destruct Hfirst as [->|(earlier & ? & ? & ?)].
    - destruct Hf as [<-|(f & -> & Hfs & Hf)]; [by left|]. injection Hf as ->.
      destruct first as [g|]; [by left|]. right. exists f. by split; [left|].
    - right. exists earlier. split_and!; [by right|done..]. }
  destruct e as [| |f| | | | |]; simpl; try done; try (by intros H; apply (Hnext first); auto).
  case_decide as Hd; [|by intros H; apply (Hnext first); auto].
  case_decide as Hg.
  - intros [= <-]. destruct Hd as [Hs Hrgb], first as [g|]; [|done]. split_and!; [by left|done..|].
    exists g. split; [done|by left].
  - intros H. eapply Hnext; [exact H|]. right. exists f. by destruct Hd.
Qed.

(** [--verify-stream] succeeds only for a stream that its publisher approved this
    viewer for, and whose pictures it decrypted under two keys. *)
Theorem verified_stream_rotated p stream_id tries attempts c frame c' :
  headless_verify_stream p stream_id tries attempts c = (Ok frame, c') ->
  fr_stream_id frame = stream_id /\ fr_rgb frame <> [] /\
  (exists earlier, fr_stream_id earlier = stream_id /\ fr_key_group earlier <> fr_key_group frame) /\
  exists publisher request decision,
    decision_verify decision request publisher = Ok tt /\ pair_request_id request = Ok (dec_request_id (dec_body decision)) /\
    dec_approved (dec_body decision) = true /\ dec_stream_id (dec_body decision) = stream_id.
Proof using Type.
  unfold headless_verify_stream. intros (catalog & c1 & _ & H)%io_bind_Ok.
  apply io_bind_Ok in H as (publisher & c2 & _ & H). apply io_bind_Ok in H as (request & c3 & _ & H).
  apply io_bind_Ok in H as (request_id & c4 & [Hid%context_Ok ->]%lift_Ok & H).
  apply io_bind_Ok in H as ([] & c5 & Ha & H). apply io_bind_Ok in H as (events & c6 & _ & [Hw ->]%lift_Ok).
  apply watch_frames_rotated in Hw as (_ & Hs & Hrgb & group & Hg & [?|(earlier & _ & He & <-)]); [done|].
  split_and!; [done|done|by exists earlier|]. exists publisher, request. clear -Ha Hid.
  revert c3 Ha. induction tries as [|tries IH]; intros c3; simpl; [done|].
  intros ([] & c4 & _ & H)%io_bind_Ok. apply io_bind_Ok in H as ([] & c6 & _ & H).
  apply io_bind_Ok in H as (approved & c7 & Hinbox & H). destruct approved; [|by eapply IH].
  apply approval_inbox_decided in Hinbox as [?|(d & _ & Hv & Hreq & Happ & Hst)]; [done|].
  exists d. by rewrite Hreq.
Qed.
End headless.
