(* ===== verification/ViewerInv.v ===== *)
(** The theorems of the viewer's connections: what a subscription shows and keeps,
    and how it follows the publisher's group keys. *)
From Stdlib Require Import ZArith Lia.
From S2P Require Import Prelude Bytes RustStr External Toy Identity Credential Native Envelope Cursor.
From S2P Require Import Transport Pairing Codecs Wire PrivateState KnownRelays RelayClient Keyed ViewerState.
From S2P Require Import ViewerSession ClientTrace.

(** The pictures and cursors among the outputs, and the objects among what the
    relay delivered. *)
Definition shown_event (x : Output) : option Event :=
  match x with
  | ToUi (EvFrame f) => Some (EvFrame f)
  | ToUi (EvCursor u) => Some (EvCursor u)
  | _ => None
  end.
Abbreviation shown := (omap shown_event).
Definition delivered_object (x : option RelayViewerMessage) : option NativeObject :=
  match x with Some (RvObject o) => Some o | _ => None end.
Abbreviation delivered := (omap delivered_object).

(** What an object may show. *)
Definition of_object (o : NativeObject) (e : Event) : Prop :=
  match e with
  | EvFrame f => fr_stream_id f = h_stream_id (header o) /\ fr_sequence f = h_sequence (header o) /\
                 fr_key_group f = h_key_group (header o)
  | EvCursor u => cu_stream_id u = h_stream_id (header o)
  | _ => False
  end.

Section viewer.
Context `{crypto : !Crypto, addrs : !SocketAddrs, ports : !SocketPorts, codecs : !Codecs}.
Context `{relay_file : !Postcard KnownRelayFile, publishers_file : !Postcard VerifiedPublishersState}.
Context `{pairing_file : !Postcard PairingState, library : !H264Decoder}.
Context (env : ClientEnv ViewerDisk RelayViewerMessage).
Abbreviation viewer := (client ViewerDisk Output RelayViewerMessage).
Abbreviation viewer_client := (Client ViewerDisk Output RelayViewerMessage).

(** Objects and what they show, in order; an object shows nothing unless the
    publisher signed it. *)
Definition shows (publisher : IdentityPublic) (objects : list NativeObject) (events : list Event) : Prop :=
  exists parts, events = concat parts /\
    Forall2 (fun o part => Forall (of_object o) part /\
      (part <> [] -> verify_public o publisher = Ok tt)) objects parts.

Lemma shows_nil publisher : shows publisher [] [].
Proof using Type. exists []. split; [done|constructor]. Qed.
Lemma shows_one publisher o events :
  Forall (of_object o) events -> (events <> [] -> verify_public o publisher = Ok tt) -> shows publisher [o] events.
Proof using Type. intros He Hv. exists [events]. split; [by rewrite concat_cons, app_nil_r|by repeat constructor]. Qed.
Lemma shows_app publisher l k events events' :
  shows publisher l events -> shows publisher k events' -> shows publisher (l ++ k) (events ++ events').
Proof using Type.
  intros (parts & -> & Hp) (parts' & -> & Hp'). exists (parts ++ parts'). split; [by rewrite concat_app|].
  by apply Forall2_app.
Qed.

(** ** Single steps *)

Lemma emits_event e c :
  emits_from c (send_event e : viewer unit) (fun r sent used => used = [] /\ sent = [ToUi e] /\ r = Ok tt).
Proof using Type. intros r c' [= <- <-]. by exists [ToUi e], []. Qed.
Lemma emits_attempt {A} (m : viewer A) (Q : result string A -> list Output -> list (option RelayViewerMessage) -> Prop) c :
  emits_from c m Q ->
  emits_from c (attempt m) (fun r sent used => exists r0, r = Ok r0 /\ Q r0 sent used).
Proof using Type.
  intros Hm r c'. unfold attempt. destruct (m c) as [r0 c1] eqn:E. intros [= <- <-].
  destruct (Hm r0 c1 E) as (sent & used & ? & ? & ?). exists sent, used. eauto.
Qed.
Lemma quiet_key group : quiet (get_key env group) (fun _ => True).
Proof using Type. eapply quiet_mono; [apply quiet_disk|done]. Qed.
Lemma quiet_insert group key : quiet (insert_key env group key) (fun _ => True).
Proof using Type. eapply quiet_mono; [apply quiet_disk|done]. Qed.

(** ** Decoding *)

Definition decodes (o : NativeObject) {A} (m : viewer A) : Prop :=
  emits m (fun _ sent used => used = [] /\ Forall (of_object o) (shown sent)).

Lemma decodes_units o units decoder : decodes o (decode_units o units decoder).
Proof using Type.
  unfold decodes. revert decoder. induction units as [|u units IH]; intros decoder c; cbn [decode_units].
  { eapply emits_quiet; [apply quiet_ret|done|]. intros; by split; [|constructor]. }
  destruct (decoder_decode decoder u) as [r decoder1].
  eapply emits_quiet_bind; [apply quiet_lift|by intros e; split; [|constructor]|]. intros yuv _ c1.
  eapply (trace_bind _ _ (fun _ sent used => used = [] /\ Forall (of_object o) (shown sent))).
  - destruct yuv as [[[width height] rgb]|].
    + eapply emits_mono; [apply emits_event|]. intros r0 sent used (-> & -> & _). split; [done|].
      by repeat constructor.
    + eapply emits_quiet; [apply quiet_ret|done|]. intros; by split; [|constructor].
  - done.
  - intros [] sent used [-> Hs] c2. eapply emits_mono; [apply IH|]. intros r1 sent' used' [-> Hs'].
    split; [done|]. rewrite omap_app. by apply Forall_app.
Qed.
Lemma decodes_cursors o evs : decodes o (send_cursors o evs).
Proof using Type.
  unfold decodes. induction evs as [|cursor evs IH]; intros c; cbn [send_cursors].
  { eapply emits_quiet; [apply quiet_ret|done|]. intros; by split; [|constructor]. }
  eapply trace_bind; [apply emits_event|by intros e sent used (_ & _ & ?)|].
  intros [] sent used (-> & -> & _) c1. eapply emits_mono; [apply IH|]. intros r sent' used' [-> Hs].
  split; [done|]. cbn. by constructor.
Qed.

Lemma emits_decode publisher o key decoder size :
  emits (decode_object publisher o key decoder size)
    (fun r sent used => used = [] /\ shows publisher [o] (shown sent)).
Proof using Type.
  intros c. unfold decode_object.
  assert (forall e : string, @nil (option RelayViewerMessage) = [] /\ shows publisher [o] (shown (@nil Output))) as Hnil
    by (intros e; split; [done|by apply shows_one]).
  eapply emits_quiet_bind; [apply quiet_lift|exact Hnil|]. intros content_key _ c1.
  eapply emits_quiet_bind; [apply quiet_lift|exact Hnil|]. intros plaintext Hopen%context_Ok c2.
  assert (verify_public o publisher = Ok tt) as Hver.
  { unfold object_open in Hopen. by rewrite unit_bind in Hopen; destruct Hopen. }
  assert (forall A (m : viewer A), decodes o m -> forall B (k : A -> viewer B),
    (forall a, quiet (k a) (fun _ => True)) ->
    emits (mbind k m) (fun r sent used => used = [] /\ shows publisher [o] (shown sent))) as Hdec.
  { intros A m Hm B k Hk c3. eapply trace_bind; [apply Hm|..].
    - intros e sent used [-> Hs]. split; [done|]. by apply shows_one.
    - intros a sent used [-> Hs] c4. eapply emits_quiet; [apply Hk|..]; intros; rewrite !app_nil_r;
        (split; [done|by apply shows_one]). }
  assert (forall A (a : A), quiet (mret a : viewer A) (fun _ => True)) as Hret
    by (intros A a; eapply quiet_mono; [apply quiet_ret|done]).
  destruct (h_kind (header o)), (h_codec (header o)) as [[]|];
    try (eapply emits_quiet; [apply Hret|exact Hnil|intros; exact (Hnil "")]).
  all: try (eapply emits_quiet_bind; [apply quiet_lift|exact Hnil|]; intros epoch _ c3).
  all: try (apply Hdec; [apply decodes_units|intros; apply Hret]).
  all: destruct epoch as [width height].
  all: eapply emits_quiet_bind; [apply quiet_lift|exact Hnil|]; intros batch _ c4.
  all: apply Hdec; [apply decodes_cursors|intros; apply Hret].
Qed.

(** ** Playing *)

(** Draining shows a prefix of the pending objects and keeps the rest. *)
Lemma emits_drain publisher pending bytes decoder size last :
  emits (drain_objects env publisher pending bytes decoder size last)
    (fun r sent used => used = [] /\ exists played rest, pending = played ++ rest /\
       shows publisher played (shown sent) /\
       forall x, r = Ok x -> x.1.1.1.1 = rest /\
         (x.2 = last \/ exists o, o ∈ played /\ x.2 = Some (h_sequence (header o)))).
Proof using Type.
  revert bytes decoder size last. induction pending as [|o pending IH]; intros bytes decoder size last c; cbn [drain_objects].
  { eapply emits_quiet; [apply quiet_ret|..].
    - intros e. split; [done|]. exists [], []. split_and!; [done|apply shows_nil|done].
    - intros x ->. split; [done|]. exists [], []. split_and!; [done|apply shows_nil|]. intros ? [= <-]. auto. }
  eapply emits_quiet_bind; [apply quiet_key|..].
  { intros e. split; [done|]. exists [], (o :: pending). split_and!; [done|apply shows_nil|done]. }
  intros key _ c1. destruct key as [key|].
  - eapply trace_bind; [apply emits_decode|..].
    + intros e sent used [-> Hs]. split; [done|]. exists [o], pending. by split_and!.
    + intros [decoder1 size1] sent used [-> Hs] c2. eapply emits_mono; [apply IH|].
      intros r sent' used' (-> & played & rest & -> & Hs' & Hr). split; [done|].
      exists (o :: played), rest. split_and!; [done|rewrite omap_app; by apply (shows_app _ [o])|].
      intros x Hx. destruct (Hr x Hx) as [? [?|(o' & ? & ?)]]; (split; [done|]); right;
        [exists o; split; [by left|done]|exists o'; split; [by right|done]].
  - eapply emits_quiet; [apply quiet_ret|..].
    + intros e. split; [done|]. exists [], (o :: pending). split_and!; [done|apply shows_nil|done].
    + intros x ->. split; [done|]. exists [], (o :: pending). split_and!; [done|apply shows_nil|].
      intros ? [= <-]. auto.
Qed.

Definition played_by (publisher : IdentityPublic) (s : Playback) (objects : list NativeObject)
    (r : result string Playback) (sent : list Output) : Prop :=
  exists played rest, pl_pending s ++ objects = played ++ rest /\ shows publisher played (shown sent) /\
    forall s', r = Ok s' -> pl_pending s' = rest /\
      (pl_last_decrypted s' = pl_last_decrypted s \/
       exists o, o ∈ played /\ h_sequence (header o) = pl_last_decrypted s').
Lemma emits_drain_pending publisher s :
  emits (drain_pending_objects env publisher s) (fun r sent used => used = [] /\
    played_by publisher s [] r sent /\ forall s', r = Ok s' -> pl_guard s' = pl_guard s).
Proof using Type.
  intros c. unfold drain_pending_objects, played_by. rewrite app_nil_r. eapply trace_bind; [apply emits_drain|..].
  - intros e sent used (-> & played & rest & Hp & Hs & _). split_and!; [done| |done]. by exists played, rest.
  - intros [[[[pending bytes] decoder] size] last] sent used (-> & played & rest & Hp & Hs & Hx) c1.
    destruct (Hx _ eq_refl) as [Hrest Hlast]. cbn [fst snd] in *.
    eapply emits_quiet; [apply quiet_ret|..].
    + intros e. rewrite !app_nil_r. split_and!; [done| |done]. by exists played, rest.
    + intros s' ->. rewrite !app_nil_r. split_and!; [done| |by intros ? [= <-]]. exists played, rest.
      split_and!; [done..|]. intros ? [= <-]. split; [done|]. cbn.
      destruct Hlast as [->|(o & Ho & ->)]; [by left|right; by exists o].
Qed.

(** A message: an object that the guard accepts is played behind the pending
    ones, in their order. *)
Definition message_post (publisher : IdentityPublic) (s : Playback) (message : RelayViewerMessage)
    (r : result string Playback) (sent : list Output) (used : list (option RelayViewerMessage)) : Prop :=
  used = [] /\ exists accepted, played_by publisher s accepted r sent /\
    Forall (guard_passes (pl_guard s)) accepted /\
    (delivered [Some message] = accepted \/ (accepted = [] /\ is_ok r = false)) /\
    forall s', r = Ok s' -> guard_publisher_id (pl_guard s') = guard_publisher_id (pl_guard s) /\
      guard_stream_id (pl_guard s') = guard_stream_id (pl_guard s) /\
      guard_last_sequence (pl_guard s) <= guard_last_sequence (pl_guard s') /\
      Forall (fun o => h_sequence (header o) <= guard_last_sequence (pl_guard s')) accepted.

Lemma played_none publisher s objects (e : string) sent :
  shown sent = [] -> played_by publisher s objects (Err e) sent.
Proof using Type. intros Hs. exists [], (pl_pending s ++ objects). rewrite Hs. split_and!; [done|apply shows_nil|done]. Qed.
Lemma message_fails publisher s message (e : string) sent :
  shown sent = [] -> message_post publisher s message (Err e) sent [].
Proof using Type.
  intros Hs. split; [done|]. exists []. split_and!; [by apply played_none|constructor|right; done|done].
Qed.
Lemma message_keeps publisher s message sent :
  shown sent = [] -> delivered [Some message] = [] -> message_post publisher s message (Ok s) sent [].
Proof using Type.
  intros Hs Hd. split; [done|]. exists []. split_and!; [|constructor|by left|by intros s' [= <-]].
  exists [], (pl_pending s). rewrite Hs, app_nil_r. split_and!; [done|apply shows_nil|]. intros ? [= <-]. auto.
Qed.
Lemma message_drains publisher s message :
  delivered [Some message] = [] ->
  emits (drain_pending_objects env publisher s) (message_post publisher s message).
Proof using Type.
  intros Hd c. eapply emits_mono; [apply emits_drain_pending|]. intros r sent used (-> & Hp & Hg).
  split; [done|]. exists []. split_and!; [done|constructor|by left|]. intros s' Hs'. rewrite (Hg s' Hs'). by split_and!.
Qed.

Lemma emits_received publisher object s :
  emits (receive_object env publisher object s) (message_post publisher s (RvObject object)).
Proof using Type.
  intros c. unfold receive_object. eapply emits_quiet_bind; [apply quiet_lift|by intros e; apply message_fails|].
  intros guard [Hpass ->]%context_Ok%live_guard_accept_Ok c1.
  assert (forall (r : result string Playback) sent, played_by publisher s [object] r sent ->
    (forall s', r = Ok s' -> pl_guard s' = live_guard_new (guard_publisher_id (pl_guard s)) (guard_stream_id (pl_guard s))
      (h_sequence (header object))) ->
    message_post publisher s (RvObject object) r sent []) as Hpost.
  { intros r sent Hp Hg. split; [done|]. exists [object]. split_and!; [done|by constructor; [|constructor]|by left|].
    intros s' Hs'. rewrite (Hg s' Hs'). cbn. destruct Hpass as (_ & _ & Hlt). split_and!; [done..|lia|by constructor; [|constructor]]. }
  eapply emits_quiet_bind; [apply quiet_lift|by intros e; apply Hpost; [apply played_none|]|]. intros [] _ c2.
  eapply emits_mono; [apply emits_drain_pending|]. intros r sent used (-> & (played & rest & Hp & Hs & Hr) & Hg).
  apply Hpost; [|done]. cbn [pl_pending pl_guard pl_last_decrypted] in *. rewrite app_nil_r in Hp. by exists played, rest.
Qed.
Lemma emits_envelope p stream publisher_id publisher envelope s :
  emits (receive_envelope env p stream publisher_id publisher envelope s)
    (message_post publisher s (RvKeyEnvelope envelope)).
Proof using Type.
  intros c. unfold receive_envelope.
  eapply (emits_quiet_bind _ _ (fun _ => True)).
  { case_decide; eapply quiet_mono; [apply quiet_ret|done|apply quiet_lift|done]. }
  { intros e. by apply message_fails. }
  intros recipient _ c1. eapply emits_quiet_bind; [apply quiet_lift|by intros e; apply message_fails|]. intros [] _ c2.
  eapply emits_quiet_bind; [apply quiet_lift|by intros e; apply message_fails|]. intros key _ c3.
  eapply emits_quiet_bind; [apply quiet_insert|by intros e; apply message_fails|]. intros [] _ c4.
  by apply message_drains.
Qed.
Lemma emits_message p stream publisher_id publisher message s :
  emits (play_message env p stream publisher_id publisher message s) (message_post publisher s message).
Proof using Type.
  destruct message; intros c; cbn [play_message];
    try (eapply emits_quiet; [apply quiet_lift|by intros e; apply message_fails|done]).
  - apply emits_envelope.
  - apply emits_received.
  - eapply trace_bind; [apply emits_event|by intros e sent used (_ & _ & ?)|].
    intros [] sent used (-> & -> & _) c1. eapply emits_quiet; [apply quiet_ret|..].
    + intros e. by apply message_fails.
    + intros a ->. by apply message_keeps.
  - eapply emits_quiet; [apply quiet_ret|by intros e; apply message_fails|]. intros a ->. by apply message_keeps.
Qed.

Definition play_post (publisher : IdentityPublic) (s : Playback) (r : result string (string * Z))
    (sent : list Output) (used : list (option RelayViewerMessage)) : Prop :=
  exists accepted refused played rest,
    delivered used = accepted ++ refused /\ (length refused <= 1)%nat /\
    pl_pending s ++ accepted = played ++ rest /\
    StronglySorted sequence_lt accepted /\ Forall (guard_passes (pl_guard s)) accepted /\
    shows publisher played (shown sent) /\
    forall x, r = Ok x -> x.2 = pl_last_decrypted s \/ exists o, o ∈ played /\ h_sequence (header o) = x.2.

Lemma delivered_one message :
  StronglySorted sequence_lt (delivered [Some message]) /\ (length (delivered [Some message]) <= 1)%nat.
Proof using Type. destruct message; simpl; (split; [repeat constructor|lia]). Qed.
Lemma guard_passes_later g g' o :
  guard_publisher_id g' = guard_publisher_id g -> guard_stream_id g' = guard_stream_id g ->
  guard_last_sequence g <= guard_last_sequence g' -> guard_passes g' o -> guard_passes g o.
Proof using Type. intros Hp Hs Hl (? & ? & ?). unfold guard_passes. rewrite <-Hp, <-Hs. split_and!; [done..|lia]. Qed.

Lemma emits_play p stream publisher_id publisher fuel s :
  emits (play env p stream publisher_id publisher fuel s) (play_post publisher s).
Proof using Type.
  revert s. induction fuel as [|fuel IH]; intros s c; cbn [play].
  { eapply emits_quiet; [apply quiet_ret|..].
    - intros e. exists [], [], [], (pl_pending s). rewrite (app_nil_r (pl_pending s)).
      split_and!; [done|simpl; lia|done|constructor|constructor|apply shows_nil|done].
    - intros a ->. exists [], [], [], (pl_pending s). rewrite (app_nil_r (pl_pending s)).
      split_and!; [done|simpl; lia|done|constructor|constructor|apply shows_nil|]. intros ? [= <-]. by left. }
  eapply (trace_bind _ _ (fun r0 sent used => exists r, r0 = Ok r /\
    ((exists message, used = [Some message] /\ message_post publisher s message r sent []) \/
     (delivered used = [] /\ sent = [] /\ is_ok r = false)))).
  { apply emits_attempt. eapply trace_bind; [apply emits_read_exact|..].
    - intros e sent used [-> Hu]. right. by destruct Hu as [->| ->].
    - intros message sent used [-> ->] c1. eapply emits_mono; [apply emits_message|].
      intros r sent' used' Hm. left. exists message. pose proof Hm as [-> _]. done. }
  { by intros e sent used (r & ? & _). }
  intros res sent used (r0 & [= <-] & Hcase) c1.
  destruct Hcase as [(message & -> & _ & acc & (played & rest & Hp & Hs & Hnext) & Hpass & Hacc & Hguard)|(Hu & -> & Hr)].
  - destruct res as [s'|e].
    + destruct (Hnext s' eq_refl) as [Hrest Hlast]. destruct (Hguard s' eq_refl) as (Hgp & Hgs & Hgl & Hle).
      destruct Hacc as [Hacc|[_ ?]]; [|done].
      eapply emits_mono; [apply IH|].
      intros r sent' used' (acc' & refused & played' & rest' & Hd & Hlen & Hp' & Hsort & Hpass' & Hs' & Hx).
      exists (acc ++ acc'), refused, (played ++ played'), rest'. rewrite !omap_app, Hacc, Hd, <-app_assoc.
      split_and!; [done..| | | |by apply shows_app|].
      * rewrite app_assoc, Hp, <-app_assoc, <-Hrest, Hp'. by rewrite app_assoc.
      * apply StronglySorted_app. split_and!; [| |done].
        -- intros x y Hx1 Hy1. unfold sequence_lt. rewrite Forall_forall in Hle, Hpass'.
           specialize (Hle x Hx1). destruct (Hpass' y Hy1) as (_ & _ & Hlt). lia.
        -- rewrite <-Hacc. apply delivered_one.
      * apply Forall_app. split; [done|]. eapply Forall_impl; [exact Hpass'|]. intros o. by apply guard_passes_later.
      * intros x Hrx. destruct (Hx x Hrx) as [->|(o & Ho & <-)].
        -- destruct Hlast as [->|(o & Ho & <-)]; [by left|]. right. exists o. split; [apply elem_of_app; by left|done].
        -- right. exists o. split; [apply elem_of_app; by right|done].
    + assert (exists refused, delivered [Some message] = acc ++ refused /\ (length refused <= 1)%nat /\ StronglySorted sequence_lt acc)
        as (refused & Hd & Hlen & Hsort).
      { destruct Hacc as [Hacc|[-> _]].
        - exists []. rewrite app_nil_r. split_and!; [done|simpl; lia|]. rewrite <-Hacc. apply delivered_one.
        - exists (delivered [Some message]). split_and!; [done|apply delivered_one|constructor]. }
      eapply emits_quiet; [apply quiet_ret|..].
      * intros e'. rewrite !app_nil_r. by exists acc, refused, played, rest.
      * intros a ->. rewrite !app_nil_r. exists acc, refused, played, rest. split_and!; [done..|].
        intros ? [= <-]. by left.
  - destruct res as [|e]; [done|]. eapply emits_quiet; [apply quiet_ret|..].
    + intros e'. rewrite !app_nil_r. cbn [app]. exists [], [], [], (pl_pending s). rewrite Hu, (app_nil_r (pl_pending s)).
      split_and!; [done|simpl; lia|done|constructor|constructor|apply shows_nil|done].
    + intros a ->. rewrite !app_nil_r. cbn [app]. exists [], [], [], (pl_pending s). rewrite Hu, (app_nil_r (pl_pending s)).
      split_and!; [done|simpl; lia|done|constructor|constructor|apply shows_nil|]. intros ? [= <-]. by left.
Qed.

(** ** Connecting *)

Lemma viewer_handshake_quiet endpoint pin (c : viewer_client) r c' :
  viewer_handshake env endpoint pin c = (r, c') ->
  cl_sent c' = cl_sent c /\ cl_replies c' = conn_replies (env_connection env (cl_step c)).
Proof using Type.
  unfold viewer_handshake, open_connection. intros [(e & [=] & _)|(remote & c1 & [= <- <-] & H)]%io_bind_run.
  assert (quiet (let? expected := match pin with Some key => mret (Some key) | None => get_known env endpoint end in
    let? actual := lift (check_remote expected (conn_remote (env_connection env (cl_step c)))) in
    learn_unpinned env endpoint pin actual then? mret actual : viewer _) (fun _ => True)) as Hq.
  { eapply (quiet_then _ _ (fun _ => True)).
    { destruct pin; eapply quiet_mono; [apply quiet_ret|done|apply quiet_disk|done]. }
    intros expected _. eapply quiet_then; [apply quiet_lift|]. intros actual _.
    eapply (quiet_then _ _ (fun _ => True)).
    { unfold learn_unpinned. destruct pin; eapply quiet_mono; [apply quiet_ret|done|apply quiet_disk_write|done]. }
    intros [] _. eapply quiet_mono; [apply quiet_ret|done]. }
  by apply Hq in H as (? & ? & _).
Qed.

(** What follows the handshake: nothing is shown and no object is taken. *)
Definition plain {A} (r : result string A) (sent : list Output) (used : list (option RelayViewerMessage)) : Prop :=
  shown sent = [] /\ (is_ok r = true -> delivered used = []).

Lemma emits_hello p :
  emits (let? public := lift (context "identity" (identity_public (cp_identity p))) in
    write_viewer env (VwHello {|
      hello_protocol_version := PROTOCOL_VERSION; hello_role := RoleViewer;
      hello_identity := public; hello_credential := cp_credential p |}) then?
    let? reply := read_viewer in
    match reply with
    | RvWelcome _ => mret tt
    | RvError _ => lift (Err "relay rejected viewer")
    | _ => lift (Err "relay did not send a welcome first")
    end) plain.
Proof using Type.
  intros c. eapply emits_quiet_bind; [apply quiet_lift|done|]. intros public _ c1.
  eapply trace_bind; [apply trace_write|..].
  { by intros e sent used (_ & [->|[-> _]]). }
  intros [] sent used (-> & [->|[_ ?]]); [|done]. intros c2. eapply trace_bind; [apply trace_read|..].
  { by intros e sent used [-> _]. }
  intros reply sent used [-> Hu] c3. specialize (Hu reply eq_refl) as ->.
  destruct reply; try (eapply emits_quiet; [apply quiet_lift|done|done]).
Qed.

(** What a subscription shows, if it shows anything: the publisher is the one
    verified for the stream, if one is, and what is shown comes from a prefix of
    the objects that the guard accepted. *)
Definition authentic (p : ConnectionProfile) (stream_id : uuid) (publisher : IdentityPublic) (last : Z)
    (c : viewer_client) (r : string * Z) (sent : list Output) (c' : viewer_client) : Prop :=
  exists verified used publisher_id accepted refused played rest,
    verified_publishers (vd_publishers (env_disk env (cl_step c) (cl_disk c))) = Ok verified /\
    (forall expected, verified !! stream_id = Some expected -> same_identity expected publisher) /\
    identity_id publisher = Ok publisher_id /\
    conn_replies (env_connection env (S (cl_step c))) = used ++ cl_replies c' /\
    delivered used = accepted ++ refused /\ (length refused <= 1)%nat /\
    StronglySorted sequence_lt accepted /\
    Forall (fun o => h_publisher_id (header o) = publisher_id /\ h_stream_id (header o) = stream_id) accepted /\
    accepted = played ++ rest /\ shows publisher played (shown sent) /\
    (r.2 = last \/ exists o, o ∈ played /\ h_sequence (header o) = r.2).

Lemma viewer_connect_run p (c : viewer_client) r c' :
  viewer_connect env p c = (r, c') ->
  exists sent used, cl_sent c' = cl_sent c ++ sent /\
    conn_replies (env_connection env (cl_step c)) = used ++ cl_replies c' /\ plain r sent used.
Proof using Type.
  unfold viewer_connect. intros [(e & H & ->)|(remote & c1 & H & Hr)]%io_bind_run;
    apply viewer_handshake_quiet in H as [<- <-].
  - exists [], []. by rewrite app_nil_r.
  - exact (emits_hello p c1 r c' Hr).
Qed.
Lemma publisher_checked (verified : gmap uuid IdentityPublic) stream_id publisher what :
  quiet (match verified !! stream_id with
    | Some expected =>
        let? expected := lift (context "identity" (identity_id expected)) in
        let? id := lift (context "identity" (identity_id publisher)) in
        lift (reject_if (expected <> id) what)
    | None => mret tt
    end : viewer unit)
    (fun _ => forall expected, verified !! stream_id = Some expected -> same_identity expected publisher).
Proof using Type.
  destruct (verified !! stream_id) as [expected|]; [|eapply quiet_mono; [apply quiet_ret|done]].
  eapply quiet_then; [apply quiet_lift|]. intros id Hid%context_Ok.
  eapply quiet_then; [apply quiet_lift|]. intros id' Hid'%context_Ok.
  eapply quiet_mono; [apply quiet_lift|]. intros [] Hsame%reject_if_Ok%dec_stable ? [= <-]. subst. by exists id'.
Qed.

Lemma start_playback_run p stream_id publisher start last (c : viewer_client) r c' :
  start_playback env p stream_id publisher start last c = (r, c') ->
  exists sent, cl_sent c' = cl_sent c ++ sent /\ shown sent = [] /\
    forall id s, r = Ok (id, s) -> exists verified used,
      verified_publishers (vd_publishers (env_disk env (cl_step c) (cl_disk c))) = Ok verified /\
      (forall expected, verified !! stream_id = Some expected -> same_identity expected publisher) /\
      identity_id publisher = Ok id /\
      conn_replies (env_connection env (S (cl_step c))) = used ++ cl_replies c' /\ delivered used = [] /\
      pl_pending s = [] /\ pl_last_decrypted s = last /\
      guard_publisher_id (pl_guard s) = id /\ guard_stream_id (pl_guard s) = stream_id.
Proof using Type.
  unfold start_playback. intros [(e & E & ->)|(verified & c1 & E & Er)]%io_bind_run;
    unfold read_publishers_file, disk_call in E; injection E as Hverified <-.
  { exists []. rewrite app_nil_r. by split_and!. }
  set (c1 := set_disk _ c) in *. change (cl_sent c) with (cl_sent c1).
  change (S (cl_step c)) with (cl_step c1). apply io_bind_run in Er as [(e & E & ->)|([] & c2 & E & Er)].
  { apply publisher_checked in E as (-> & _). exists []. rewrite app_nil_r. by split_and!. }
  assert (cl_step c2 = cl_step c1) as Hstep.
  { clear -E. destruct (verified !! stream_id); [|by injection E as <-].
    apply io_bind_Ok in E as (? & ? & [_ ->]%lift_Ok & E). apply io_bind_Ok in E as (? & ? & [_ ->]%lift_Ok & E).
    by apply lift_Ok in E as [_ ->]. }
  apply publisher_checked in E as (<- & _ & Hsame). rewrite <-Hstep. specialize (Hsame tt eq_refl).
  apply io_bind_run in Er as [(e & E & ->)|([] & c3 & E & Er)];
    apply viewer_connect_run in E as (sent & used & Hsent & Hused & Hshown & Hplain).
  { exists sent. by split_and!. }
  specialize (Hplain eq_refl).
  match type of Er with ?m c3 = _ => cut (emits_from c3 m (fun r sent' used' => shown sent' = [] /\
    forall id s, r = Ok (id, s) -> delivered used' = [] /\ identity_id publisher = Ok id /\ pl_pending s = [] /\
      pl_last_decrypted s = last /\ guard_publisher_id (pl_guard s) = id /\ guard_stream_id (pl_guard s) = stream_id)) end.
  { intros Hem. destruct (Hem _ _ Er) as (sent' & used' & Hsent' & Hused' & Hshown' & Hok).
    exists (sent ++ sent'). rewrite Hsent', Hsent, omap_app, Hshown, Hshown', app_assoc. split_and!; [done..|].
    intros id s Hr. destruct (Hok id s Hr) as (Hd & ? & ? & ? & ? & ?). exists verified, (used ++ used').
    rewrite Hused, Hused', omap_app, Hplain, Hd, app_assoc. by split_and!. }
  clear Er. eapply emits_quiet_bind; [apply quiet_lift|done|]. intros id Hid%context_Ok c4.
  eapply trace_bind; [apply trace_write|..].
  { by intros e sent' used' (_ & [->|[-> _]]). }
  intros [] sent' used' (-> & [->|[_ ?]]); [|done]. intros c5. eapply trace_bind; [apply trace_read|..].
  { by intros e sent' used' [-> _]. }
  intros reply sent' used' [-> Hu] c6. specialize (Hu reply eq_refl) as ->.
  eapply (emits_quiet_bind _ _ (fun _ => delivered [Some reply] = [])); [|done|].
  { destruct reply; try (eapply quiet_mono; [apply quiet_lift|done]). }
  intros [first_sequence starts_live] Hreply c7. cbn in Hreply. 
  eapply trace_bind; [apply emits_event|by intros e sent' used' (_ & _ & ?)|].
  intros [] sent' used' (-> & -> & _) c8. eapply emits_quiet_bind; [apply quiet_lift|done|]. intros decoder _ c9.
  eapply emits_quiet; [apply quiet_ret|done|]. intros x ->. split; [done|]. intros ? ? [= <- <-]. cbn.
  by rewrite Hreply.
Qed.

(** C2: authenticity of what a viewer sees: whatever the relay delivers,
    a subscription shows only pictures and cursors of objects that the publisher
    signed, of the stream, in the order in which the relay delivered them and
    with strictly increasing sequences, leaving none of them out before a later
    one; and it shows nothing if the file of verified publishers has another
    publisher for the stream. *)
Theorem playback_authentic p stream_id publisher start last (c : viewer_client) r c' :
  subscribe_once env p stream_id publisher start last c = (Ok r, c') ->
  exists sent, cl_sent c' = cl_sent c ++ sent /\
    (shown sent = [] \/ authentic p stream_id publisher last c r sent c').
Proof using Type.
  unfold subscribe_once. intros (started & c1 & Hstart & H)%io_bind_Ok.
  unfold attempt in Hstart. destruct (start_playback env p stream_id publisher start last c) as [r0 c0] eqn:E.
  injection Hstart as <- <-. apply start_playback_run in E as (sent & Hsent & Hshown & Hok).
  destruct r0 as [[id s]|e]; [|injection H as _ <-; exists sent; auto].
  destruct (Hok id s eq_refl) as (verified & used & Hv & Hsame & Hid & Hused & Hd & Hpend & Hlast & Hgp & Hgs).
  unfold with_replies in H. destruct (emits_play _ _ _ _ _ _ _ _ _ H) as (sent' & used' & Hsent' & Hused' &
    accepted & refused & played & rest & Hd' & Hlen & Hp & Hsort & Hpass & Hs & Hr).
  exists (sent ++ sent'). rewrite Hsent', Hsent, app_assoc. split; [done|]. right.
  exists verified, (used ++ used'), id, accepted, refused, played, rest.
  rewrite Hused, Hused', !omap_app, Hd, Hd', Hshown, app_assoc. rewrite Hpend in Hp. split_and!; try done.
  - eapply Forall_impl; [exact Hpass|]. intros o (Ho1 & Ho2 & _). by rewrite Ho1, Ho2.
  - rewrite <-Hlast. by apply Hr.
Qed.

(** ** The buffer *)

Definition ciphertext_bytes (objects : list NativeObject) : Z :=
  foldr (fun o n => zlen (ciphertext o) + n) 0 objects.
(** The front object, if there is one, has no key in the cache that was seen last. *)
Definition waiting (pending : list NativeObject) (c : viewer_client) : Prop :=
  match pending with
  | o :: _ => cache_get (vd_keys (cl_disk c)) (for_object o) = None
  | [] => True
  end.
Record buffer_ok (s : Playback) (c : viewer_client) : Prop := {
  buffer_count : zlen (pl_pending s) <= MAX_PENDING_OBJECTS;
  buffer_bytes : pl_pending_bytes s = ciphertext_bytes (pl_pending s) /\
                 pl_pending_bytes s <= MAX_PENDING_CIPHERTEXT_BYTES;
  buffer_sorted : StronglySorted sequence_lt (pl_pending s);
  buffer_guarded : Forall (fun o => h_sequence (header o) <= guard_last_sequence (pl_guard s)) (pl_pending s);
  buffer_waiting : waiting (pl_pending s) c;
}.

Lemma ciphertext_bytes_app l k : ciphertext_bytes (l ++ k) = ciphertext_bytes l + ciphertext_bytes k.
Proof using Type. unfold ciphertext_bytes. induction l as [|o l IH]; simpl; lia. Qed.
Lemma ciphertext_bytes_nonneg l : 0 <= ciphertext_bytes l.
Proof using Type. unfold ciphertext_bytes. induction l as [|o l IH]; simpl; lia. Qed.

Lemma drain_run publisher pending bytes decoder size last c x c' :
  bytes = ciphertext_bytes pending ->
  drain_objects env publisher pending bytes decoder size last c = (Ok x, c') ->
  exists played, pending = played ++ x.1.1.1.1 /\ x.1.1.1.2 = ciphertext_bytes x.1.1.1.1 /\
    waiting x.1.1.1.1 c'.
Proof using Type.
  revert bytes decoder size last c. induction pending as [|o pending IH]; intros bytes decoder size last c Hb;
    cbn [drain_objects].
  { intros [= <- <-]. exists []. by split_and!. }
  intros (key & c1 & Hk & H)%io_bind_Ok. unfold get_key, disk_call in Hk. injection Hk as Hkey <-.
  destruct key as [key|].
  - apply io_bind_Ok in H as ([decoder1 size1] & c2 & _ & H). apply IH in H as (played & -> & Hx & Hw).
    + exists (o :: played). by split_and!.
    + pose proof (ciphertext_bytes_nonneg pending). subst bytes. unfold ciphertext_bytes in *. simpl.
      unfold u64_saturating_sub. lia.
  - injection H as <- <-. exists []. split_and!; [done..|]. exact Hkey.
Qed.
Lemma drain_buffer publisher s c s' c' :
  pl_pending_bytes s = ciphertext_bytes (pl_pending s) -> zlen (pl_pending s) <= MAX_PENDING_OBJECTS ->
  pl_pending_bytes s <= MAX_PENDING_CIPHERTEXT_BYTES -> StronglySorted sequence_lt (pl_pending s) ->
  Forall (fun o => h_sequence (header o) <= guard_last_sequence (pl_guard s)) (pl_pending s) ->
  drain_pending_objects env publisher s c = (Ok s', c') -> buffer_ok s' c'.
Proof using Type.
  intros Hb Hn Hm Hs Hg. unfold drain_pending_objects. intros (x & c1 & H & Hr)%io_bind_Ok.
  destruct (drain_run _ _ _ _ _ _ _ _ _ Hb H) as (played & Hp & Hbytes & Hw).
  destruct x as [[[[pending bytes] decoder] size] last]. injection Hr as <- <-. cbn [fst snd] in *.
  rewrite Hp in *. rewrite length_app in Hn. rewrite Hb, ciphertext_bytes_app in Hm.
  pose proof (ciphertext_bytes_nonneg played). apply StronglySorted_app in Hs as (_ & _ & Hs). apply Forall_app in Hg as [_ Hg].
  split; cbn [pl_pending pl_pending_bytes pl_guard]; [lia|split; [done|lia]|done..].
Qed.

(** C12: the buffer of a subscription stays within its bounds: every message
    leaves at most 256 pending objects of at most 32 MiB of ciphertext, with the
    counted bytes those of the objects, in the order of their sequences, and
    nothing that could be decrypted is held back: the first pending object has no
    key in the cache. *)
Theorem buffer_invariant p stream_id publisher_id publisher message s (c : viewer_client) s' c' :
  buffer_ok s c ->
  play_message env p stream_id publisher_id publisher message s c = (Ok s', c') ->
  buffer_ok s' c'.
Proof using Type.
  intros [Hn [Hb Hm] Hs Hg Hw]. destruct message; cbn [play_message]; try (intros H; by apply lift_Ok in H as [? _]).
  - unfold receive_envelope. intros (? & c1 & _ & H)%io_bind_Ok. apply io_bind_Ok in H as (? & c2 & _ & H).
    apply io_bind_Ok in H as (? & c3 & _ & H). apply io_bind_Ok in H as (? & c4 & _ & H).
    by eapply drain_buffer in H.
  - unfold receive_object. intros (guard & c1 & [Hguard ->]%lift_Ok & H)%io_bind_Ok.
    apply context_Ok, live_guard_accept_Ok in Hguard as [(_ & _ & Hlt) ->].
    apply io_bind_Ok in H as ([] & c2 & [Hbound ->]%lift_Ok & H). apply reject_if_Ok in Hbound. nor_inv.
    pose proof (ciphertext_bytes_nonneg (pl_pending s)).
    apply drain_buffer in H; [done|..]; cbn [pl_pending pl_pending_bytes pl_guard live_guard_new guard_last_sequence] in *.
    + rewrite ciphertext_bytes_app, <-Hb. unfold ciphertext_bytes at 1. cbn [foldr].
      revert Hbound. unfold u64_saturating_add, MAX_PENDING_CIPHERTEXT_BYTES, u64_max in *. lia.
    + lia.
    + lia.
    + apply StronglySorted_app. split_and!; [|done|repeat constructor]. intros x y Hx ->%list_elem_of_singleton.
      rewrite Forall_forall in Hg. specialize (Hg x Hx). unfold sequence_lt. lia.
    + apply Forall_app. split; [|by constructor; [|constructor]]. eapply Forall_impl; [exact Hg|]. cbn. intros. lia.
  - intros ([] & c1 & [= <-] & [= <- <-])%io_bind_Ok. by split.
  - intros [= <- <-]. by split.
Qed.
End viewer.
