(* ===== verification/EndToEnd.v ===== *)
(** From the publisher to the window of a viewer: objects that a group encryptor
    sealed are decoded to what was sealed, wherever among them the envelope with
    the group key arrives. *)
From Stdlib Require Import ZArith Lia.
From S2P Require Import Prelude Bytes RustStr External Toy Identity Credential Native Envelope Cursor.
From S2P Require Import Transport Pairing Codecs Wire PrivateState KnownRelays RelayClient Keyed ViewerState.
From S2P Require Import ViewerSession ClientTrace ViewerInv.

(** * What is sealed *)

Section sealed.
Context `{crypto : !Crypto, crypto_laws : !CryptoLaws, codecs : !Codecs}.

(** Sealing one payload after the other. *)
Fixpoint seal_all (g : GroupEncryptor) (identity : IdentitySecret) (payloads : list (NewNativeObject * bytes)) :
    result NativeStreamError (list NativeObject) :=
  match payloads with
  | [] => Ok []
  | (spec, payload) :: payloads =>
      let? (o, g) := seal g identity spec payload in
      let? objects := seal_all g identity payloads in
      Ok (o :: objects)
  end.

Definition encryptor_group (g : GroupEncryptor) : GroupKey := {|
  gk_stream_id := ge_stream_id g; gk_epoch_id := ge_epoch_id g;
  gk_key_group := ge_key_group g; gk_key_id := ge_key_id g |}.
(** An object that opens to a payload under the key of its group. *)
Definition opens_to (public : IdentityPublic) (g : GroupEncryptor) (o : NativeObject) (payload : bytes) : Prop :=
  object_open o public (ge_key g) (h_key_id (header o)) = Ok payload /\
  for_object o = encryptor_group g /\ h_publisher_id (header o) = ge_publisher_id g.

Lemma seal_all_opens g identity public payloads objects :
  identity_public identity = Ok public -> seal_all g identity payloads = Ok objects ->
  Forall2 (fun o x => opens_to public g o x.2) objects payloads /\
  StronglySorted sequence_lt objects /\ Forall (fun o => ge_last_sequence g < h_sequence (header o)) objects.
Proof.
  intros Hpub. revert g objects. induction payloads as [|[spec payload] payloads IH]; intros g objects; cbn [seal_all].
  { intros [= <-]. by split_and!; constructor. }
  intros ([o g'] & Hseal & H)%bind_Ok_inv. apply bind_Ok_inv in H as (rest & Hrest & [= <-]).
  pose proof (seal_open _ _ _ _ _ _ _ Hpub Hseal) as [_ Hopen].
  apply seal_Ok in Hseal as (Hlt & -> & Hh & _). apply IH in Hrest as (Hall & Hsort & Hafter).
  assert (h_sequence (header o) = new_sequence spec) as Hseq by (by rewrite Hh).
  assert (h_key_id (header o) = ge_key_id g) as Hid by (by rewrite Hh). split_and!.
  - constructor; [|done]. split_and!; [by rewrite Hid|unfold for_object; by rewrite Hh|by rewrite Hh].
  - constructor; [done|]. eapply Forall_impl; [exact Hafter|]. unfold sequence_lt. cbn. intros. lia.
  - constructor; [lia|]. eapply Forall_impl; [exact Hafter|]. cbn. intros. lia.
Qed.
End sealed.

(** * Output-only programs *)

Section outputs.
Context `{crypto : !Crypto, codecs : !Codecs, library : !H264Decoder}.
Abbreviation viewer := (client ViewerDisk Output RelayViewerMessage).
Abbreviation viewer_client := (Client ViewerDisk Output RelayViewerMessage).

Definition add_sent (delta : list Output) (c : viewer_client) : viewer_client := {|
  cl_disk := cl_disk c; cl_step := cl_step c; cl_replies := cl_replies c; cl_sent := cl_sent c ++ delta |}.
(** A program whose result and outputs do not depend on where it runs. *)
Definition outputs {A} (m : viewer A) (r : result string A) (delta : list Output) : Prop :=
  forall c, m c = (r, add_sent delta c).

Lemma add_sent_nil c : add_sent [] c = c.
Proof using Type. destruct c. unfold add_sent. cbn. by rewrite app_nil_r. Qed.
Lemma add_sent_app delta delta' c : add_sent delta' (add_sent delta c) = add_sent (delta ++ delta') c.
Proof using Type. unfold add_sent. cbn. by rewrite app_assoc. Qed.
Lemma outputs_lift {A} (r : result string A) : outputs (lift r) r [].
Proof using Type. intros c. by rewrite add_sent_nil. Qed.
Lemma outputs_bind {A B} (m : viewer A) (k : A -> viewer B) a delta r delta' :
  outputs m (Ok a) delta -> outputs (k a) r delta' -> outputs (mbind k m) r (delta ++ delta').
Proof using Type. intros Hm Hk c. unfold mbind, io_bind. by rewrite Hm, Hk, add_sent_app. Qed.
Lemma outputs_bind_err {A B} (m : viewer A) (k : A -> viewer B) e delta :
  outputs m (Err e) delta -> outputs (mbind k m) (Err e) delta.
Proof using Type. intros Hm c. unfold mbind, io_bind. by rewrite Hm. Qed.
(** Every such program that binds others has a result. *)
Definition outputs_some {A} (m : viewer A) : Prop := exists r delta, outputs m r delta.
Lemma outputs_some_bind {A B} (m : viewer A) (k : A -> viewer B) :
  outputs_some m -> (forall a, outputs_some (k a)) -> outputs_some (mbind k m).
Proof using Type.
  intros ([a|e] & delta & Hm) Hk.
  - destruct (Hk a) as (r & delta' & Hr). exists r, (delta ++ delta'). by eapply outputs_bind.
  - exists (Err e), delta. by apply outputs_bind_err.
Qed.
Lemma outputs_some_lift {A} (r : result string A) : outputs_some (lift r).
Proof using Type. eexists _, _. apply outputs_lift. Qed.
Lemma outputs_some_event e : outputs_some (send_event e : viewer unit).
Proof using Type. by exists (Ok tt), [ToUi e]. Qed.

(** ** The reference: decoding payloads in their order *)

Definition decode_plain (o : NativeObject) (plaintext : bytes) (decoder : Decoder) (source_size : option (Z * Z)) :
    viewer (Decoder * option (Z * Z)) :=
  match h_kind (header o), h_codec (header o) with
  | Cursor, _ =>
      let? (source_width, source_height) := lift (ok_or source_size "cursor arrived before epoch") in
      let? batch := lift (context "cursor" (decode_cursor_batch
        {| ctx_stream_id := h_stream_id (header o); ctx_epoch_id := h_epoch_id (header o);
           ctx_sequence := h_sequence (header o); ctx_start_timestamp := h_timestamp (header o);
           ctx_source_width := source_width; ctx_source_height := source_height |} plaintext)) in
      send_cursors o (events batch) then?
      mret (decoder, source_size)
  | Epoch, Some H264AnnexB =>
      let? epoch := lift (context "epoch" (epoch_decode plaintext)) in
      let? decoder := decode_units o (decoder_units (codec_config epoch)) decoder in
      mret (decoder, Some (epoch_width epoch, epoch_height epoch))
  | Media, Some H264AnnexB =>
      let? decoder := decode_units o (decoder_units plaintext) decoder in
      mret (decoder, source_size)
  | _, _ => mret (decoder, source_size)
  end.
Fixpoint decode_all (payloads : list (NativeObject * bytes)) (decoder : Decoder) (source_size : option (Z * Z)) :
    viewer (Decoder * option (Z * Z)) :=
  match payloads with
  | [] => mret (decoder, source_size)
  | (o, payload) :: payloads =>
      let? (decoder, source_size) := decode_plain o payload decoder source_size in
      decode_all payloads decoder source_size
  end.

Lemma outputs_units o units decoder : outputs_some (decode_units o units decoder : viewer _).
Proof using Type.
  revert decoder. induction units as [|u units IH]; intros decoder; cbn [decode_units]; [apply outputs_some_lift|].
  destruct (decoder_decode decoder u) as [r decoder1]. apply outputs_some_bind; [apply outputs_some_lift|].
  intros yuv. apply outputs_some_bind; [|done].
  destruct yuv as [[[width height] rgb]|]; [apply outputs_some_event|apply outputs_some_lift].
Qed.
Lemma outputs_cursors o evs : outputs_some (send_cursors o evs : viewer _).
Proof using Type.
  induction evs as [|cursor evs IH]; cbn [send_cursors]; [apply outputs_some_lift|].
  apply outputs_some_bind; [apply outputs_some_event|done].
Qed.
Lemma outputs_plain o payload decoder size : outputs_some (decode_plain o payload decoder size).
Proof using Type.
  unfold decode_plain. destruct (h_kind (header o)), (h_codec (header o)) as [[]|];
    repeat first [apply outputs_some_lift | apply outputs_some_bind; [|intros] | apply outputs_units
                 | apply outputs_cursors | case_match].
Qed.
Lemma outputs_all payloads decoder size : outputs_some (decode_all payloads decoder size).
Proof using Type.
  revert decoder size. induction payloads as [|[o payload] payloads IH]; intros decoder size; cbn [decode_all];
    [apply outputs_some_lift|]. apply outputs_some_bind; [apply outputs_plain|]. intros [decoder1 size1]. apply IH.
Qed.
Lemma outputs_bind_inv {A B} (m : viewer A) (k : A -> viewer B) b delta (c : viewer_client) :
  outputs_some m -> (forall a, outputs_some (k a)) -> outputs (mbind k m) (Ok b) delta ->
  exists a delta1 delta2, outputs m (Ok a) delta1 /\ outputs (k a) (Ok b) delta2 /\ delta = delta1 ++ delta2.
Proof using Type.
  intros ([a|e] & delta1 & Hm) Hk Hout.
  - destruct (Hk a) as (r & delta2 & Hr). pose proof (outputs_bind _ _ _ _ _ _ Hm Hr c) as Hc.
    rewrite Hout in Hc. injection Hc as <- Hsent. apply app_inv_head in Hsent as ->. eauto 10.
  - pose proof (outputs_bind_err m k e delta1 Hm c) as Hc. by rewrite Hout in Hc.
Qed.
End outputs.

(** * The subscription *)

Section play.
Context `{crypto : !Crypto, crypto_laws : !CryptoLaws, codecs : !Codecs, library : !H264Decoder}.
Context (env : ClientEnv ViewerDisk RelayViewerMessage).
Abbreviation viewer := (client ViewerDisk Output RelayViewerMessage).
Abbreviation viewer_client := (Client ViewerDisk Output RelayViewerMessage).
(** No other task changes the key cache. *)
Context (Hkeys : forall n d, vd_keys (env_disk env n d) = vd_keys d).

Context (g : GroupEncryptor) (public : IdentityPublic).
Context (Hcontent : content_key_from_bytes (group_content_key g) = Ok (ge_key g)).

Lemma decode_opens o payload decoder size (c : viewer_client) :
  opens_to public g o payload ->
  decode_object public o (group_content_key g) decoder size c = decode_plain o payload decoder size c.
Proof using Hcontent.
  intros (Hopen & _). unfold decode_object. rewrite Hcontent. cbn [context map_err].
  unfold mbind at 1, io_bind, lift at 1. rewrite Hopen. reflexivity.
Qed.

(** The sequence of the last of some objects. *)
Definition last_sequence (objects : list NativeObject) : option Z :=
  (fun o => h_sequence (header o)) <$> last objects.

Lemma drain_decodes objects payloads keys bytes decoder size prior decoder' size' delta (c : viewer_client) :
  Forall2 (opens_to public g) objects payloads ->
  cache_get keys (encryptor_group g) = Some (group_content_key g) -> vd_keys (cl_disk c) = keys ->
  bytes = ciphertext_bytes objects ->
  outputs (decode_all (zip objects payloads) decoder size) (Ok (decoder', size')) delta ->
  exists c', drain_objects env public objects bytes decoder size prior c =
      (Ok ([], 0, decoder', size', match last_sequence objects with Some n => Some n | None => prior end), c') /\
    vd_keys (cl_disk c') = keys /\ cl_sent c' = cl_sent c ++ delta.
Proof using Hkeys Hcontent.
  intros Hopens Hget. revert bytes decoder size prior delta c.
  induction Hopens as [|o payload objects payloads Ho Hopens IH]; intros bytes decoder size prior delta c Hc Hb Hout.
  { specialize (Hout c). injection Hout as -> -> Hc'. exists c. subst bytes. split_and!; [done..|].
    by rewrite Hc' at 1. }
  cbn [zip zip_with decode_all drain_objects] in *.
  apply (outputs_bind_inv _ _ _ _ c) in Hout as ([decoder1 size1] & delta1 & delta2 & Hplain & Hrest & ->);
    [|apply outputs_plain|intros []; apply outputs_all].
  set (c1 := set_disk (env_disk env (cl_step c) (cl_disk c)) c).
  assert (vd_keys (cl_disk c1) = keys) as Hc1 by (cbn; by rewrite Hkeys).
  assert (get_key env (for_object o) c = (Ok (Some (group_content_key g)), c1)) as Hkey.
  { unfold get_key, disk_call. rewrite Hkeys, Hc. destruct Ho as (_ & -> & _). by rewrite Hget. }
  assert (u64_saturating_sub bytes (zlen (ciphertext o)) = ciphertext_bytes objects) as Hsub.
  { subst bytes. pose proof (ciphertext_bytes_nonneg objects). unfold ciphertext_bytes in *. cbn [foldr].
    unfold u64_saturating_sub. lia. }
  destruct (IH _ decoder1 size1 (Some (h_sequence (header o))) delta2 (add_sent delta1 c1) Hc1 Hsub Hrest)
    as (c' & Hrun & Hk' & Hs'). exists c'.
  unfold mbind at 1, io_bind. rewrite Hkey. cbn [mbind]. unfold mbind at 1, io_bind.
  rewrite (decode_opens _ _ _ _ _ Ho), Hplain, Hrun. split_and!; [|done|].
  - f_equal. f_equal. unfold last_sequence. rewrite last_cons. by destruct (last objects).
  - rewrite Hs'. cbn. by rewrite app_assoc.
Qed.

(** ** Messages in a row *)

Context (p : ConnectionProfile) (stream_id : uuid) (publisher_id : array 32).
Fixpoint play_messages (messages : list RelayViewerMessage) (s : Playback) : viewer Playback :=
  match messages with
  | [] => mret s
  | message :: messages =>
      let? s := play_message env p stream_id publisher_id public message s in
      play_messages messages s
  end.
Lemma play_messages_app l k s c s1 c1 :
  play_messages l s c = (Ok s1, c1) -> play_messages (l ++ k) s c = play_messages k s1 c1.
Proof using Type.
  revert s c. induction l as [|m l IH]; intros s c; cbn [app play_messages]; [by intros [= -> ->]|].
  unfold mbind, io_bind. destruct (play_message _ _ _ _ _ m s c) as [[s2|e] c2]; [apply IH|done].
Qed.

Definition of_group (o : NativeObject) : Prop :=
  for_object o = encryptor_group g /\ h_publisher_id (header o) = ge_publisher_id g.
Definition guard_at (sequence : Z) : LiveSequenceGuard := live_guard_new (ge_publisher_id g) (ge_stream_id g) sequence.
Lemma guard_next sequence o :
  of_group o -> sequence < h_sequence (header o) ->
  live_guard_accept (guard_at sequence) o = Ok (guard_at (h_sequence (header o))).
Proof using Type.
  intros [Hg Hp] Hlt. apply live_guard_accept_Ok. split; [|done]. split_and!; [done|by injection Hg|done].
Qed.

(** The playback with other objects in its buffer and its guard behind them. *)
Definition buffered (s : Playback) (sequence : Z) (objects : list NativeObject) : Playback := {|
  pl_guard := guard_at sequence; pl_decoder := pl_decoder s; pl_source_size := pl_source_size s;
  pl_pending := objects; pl_pending_bytes := ciphertext_bytes objects; pl_last_decrypted := pl_last_decrypted s |}.

(** Pushing an object that fits. *)
Lemma push_object s sequence held o c :
  of_group o -> sequence < h_sequence (header o) ->
  zlen (held ++ [o]) <= MAX_PENDING_OBJECTS -> ciphertext_bytes (held ++ [o]) <= MAX_PENDING_CIPHERTEXT_BYTES ->
  receive_object env public o (buffered s sequence held) c =
  drain_pending_objects env public (buffered s (h_sequence (header o)) (held ++ [o])) c.
Proof using Type.
  intros Ho Hlt Hn Hb. unfold receive_object. cbn [buffered pl_guard pl_pending pl_pending_bytes].
  rewrite (guard_next _ _ Ho Hlt). cbn [context map_err].
  assert (u64_saturating_add (ciphertext_bytes held) (zlen (ciphertext o)) = ciphertext_bytes (held ++ [o])) as Hadd.
  { rewrite ciphertext_bytes_app in *. unfold ciphertext_bytes in *. cbn [foldr] in *.
    unfold u64_saturating_add, MAX_PENDING_CIPHERTEXT_BYTES, u64_max in *. lia. }
  unfold mbind at 1, io_bind, lift at 1. rewrite Hadd, reject_if_false by lia. reflexivity.
Qed.

(** While the key is missing the objects pile up. *)
Lemma play_before objects s sequence held c :
  Forall of_group (held ++ objects) -> StronglySorted sequence_lt objects ->
  Forall (fun o => sequence < h_sequence (header o)) objects ->
  zlen (held ++ objects) <= MAX_PENDING_OBJECTS ->
  ciphertext_bytes (held ++ objects) <= MAX_PENDING_CIPHERTEXT_BYTES ->
  cache_get (vd_keys (cl_disk c)) (encryptor_group g) = None ->
  exists sequence' c', play_messages (RvObject <$> objects) (buffered s sequence held) c =
      (Ok (buffered s sequence' (held ++ objects)), c') /\
    vd_keys (cl_disk c') = vd_keys (cl_disk c) /\ cl_sent c' = cl_sent c /\
    sequence' = default sequence (last_sequence objects).
Proof using Hkeys.
  revert sequence held c. induction objects as [|o objects IH]; intros sequence held c Hof Hsort Hlt Hn Hb Hmiss.
  { exists sequence, c. by rewrite app_nil_r. }
  inversion Hsort as [|?? Hsort' Hafter]; subst. apply Forall_cons in Hlt as [Hlt _].
  replace (held ++ o :: objects) with ((held ++ [o]) ++ objects) in * by by rewrite <-app_assoc.
  assert (of_group o) as Ho.
  { rewrite !Forall_app, Forall_singleton in Hof. tauto. }
  pose proof (ciphertext_bytes_nonneg objects). rewrite ciphertext_bytes_app in Hb. rewrite length_app in Hn.
  set (c1 := set_disk (env_disk env (cl_step c) (cl_disk c)) c).
  assert (drain_pending_objects env public (buffered s (h_sequence (header o)) (held ++ [o])) c =
    (Ok (buffered s (h_sequence (header o)) (held ++ [o])), c1)) as Hdrain.
  { assert (exists x l, held ++ [o] = x :: l /\ for_object x = encryptor_group g) as (x & l & Hl & Hx).
    { destruct held as [|x held]; [exists o, []; by destruct Ho|]. exists x, (held ++ [o]).
      rewrite !Forall_app in Hof. destruct Hof as [[[[Hx _] _]%Forall_cons _] _]. done. }
    unfold drain_pending_objects, buffered. cbn [pl_pending pl_pending_bytes pl_decoder pl_source_size].
    rewrite Hl. cbn [drain_objects]. unfold mbind, io_bind, get_key, disk_call.
    rewrite Hkeys, Hx, Hmiss. reflexivity. }
  destruct (IH (h_sequence (header o)) (held ++ [o]) c1) as (sequence' & c' & Hrun & Hk & Hs & Hseq).
  - done.
  - done.
  - eapply Forall_impl; [exact Hafter|]. by intros.
  - rewrite length_app. lia.
  - rewrite ciphertext_bytes_app. lia.
  - cbn. by rewrite Hkeys.
  - exists sequence', c'. cbn [fmap list_fmap play_messages play_message]. unfold mbind, io_bind.
    rewrite push_object by (done || lia). rewrite Hdrain, Hrun. split_and!; [done|rewrite Hk; cbn; by rewrite Hkeys|done|].
    rewrite Hseq. unfold last_sequence. rewrite last_cons. by destruct (last objects).
Qed.

Lemma last_sequence_cons o objects :
  last_sequence (o :: objects) = Some (default (h_sequence (header o)) (last_sequence objects)).
Proof using Type. unfold last_sequence. rewrite last_cons. by destruct (last objects). Qed.
(** Once the key is there, the buffer is decoded and left empty. *)
Lemma drain_buffered s sequence objects payloads decoder' size' delta c :
  Forall2 (opens_to public g) objects payloads ->
  cache_get (vd_keys (cl_disk c)) (encryptor_group g) = Some (group_content_key g) ->
  outputs (decode_all (zip objects payloads) (pl_decoder s) (pl_source_size s)) (Ok (decoder', size')) delta ->
  exists s' c', drain_pending_objects env public (buffered s sequence objects) c = (Ok (buffered s' sequence []), c') /\
    pl_decoder s' = decoder' /\ pl_source_size s' = size' /\
    pl_last_decrypted s' = default (pl_last_decrypted s) (last_sequence objects) /\
    vd_keys (cl_disk c') = vd_keys (cl_disk c) /\ cl_sent c' = cl_sent c ++ delta.
Proof using Hkeys Hcontent.
  intros Hopens Hget Hout.
  destruct (drain_decodes objects payloads _ (ciphertext_bytes objects) (pl_decoder s) (pl_source_size s) None
    decoder' size' delta c Hopens Hget eq_refl eq_refl Hout) as (c' & Hrun & Hk & Hs).
  exists {| pl_guard := pl_guard s; pl_decoder := decoder'; pl_source_size := size'; pl_pending := [];
            pl_pending_bytes := 0; pl_last_decrypted := default (pl_last_decrypted s) (last_sequence objects) |}, c'.
  unfold drain_pending_objects. cbn [buffered pl_pending pl_pending_bytes pl_decoder pl_source_size].
  unfold mbind, io_bind. rewrite Hrun. split_and!; try done.
  unfold buffered. cbn. by destruct (last_sequence objects).
Qed.

Lemma play_behind objects payloads s sequence decoder' size' delta c :
  Forall2 (opens_to public g) objects payloads -> Forall of_group objects ->
  StronglySorted sequence_lt objects -> Forall (fun o => sequence < h_sequence (header o)) objects ->
  Forall (fun o => zlen (ciphertext o) <= MAX_PENDING_CIPHERTEXT_BYTES) objects ->
  cache_get (vd_keys (cl_disk c)) (encryptor_group g) = Some (group_content_key g) ->
  outputs (decode_all (zip objects payloads) (pl_decoder s) (pl_source_size s)) (Ok (decoder', size')) delta ->
  exists sequence' s' c', play_messages (RvObject <$> objects) (buffered s sequence []) c =
      (Ok (buffered s' sequence' []), c') /\
    pl_decoder s' = decoder' /\ pl_source_size s' = size' /\
    pl_last_decrypted s' = default (pl_last_decrypted s) (last_sequence objects) /\
    cl_sent c' = cl_sent c ++ delta.
Proof using Hkeys Hcontent.
  intros Hopens. revert s sequence delta c. induction Hopens as [|o payload objects payloads Ho Hopens IH];
    intros s sequence delta c Hof Hsort Hlt Hsize Hget Hout.
  { specialize (Hout c). injection Hout as <- <- Hc. exists sequence, s, c. split_and!; [done..|]. by rewrite Hc at 1. }
  cbn [zip zip_with decode_all] in Hout.
  apply (outputs_bind_inv _ _ _ _ c) in Hout as ([decoder1 size1] & delta1 & delta2 & Hplain & Hrest & ->);
    [|apply outputs_plain|intros []; apply outputs_all].
  apply Forall_cons in Hof as [Hog Hof], Hlt as [Hlt _], Hsize as [Hsz Hsize]. inversion Hsort as [|?? Hsort' Hafter]; subst.
  assert (outputs (decode_all (zip [o] [payload]) (pl_decoder s) (pl_source_size s)) (Ok (decoder1, size1)) delta1) as Hone.
  { rewrite <-(app_nil_r delta1). eapply outputs_bind; [exact Hplain|apply outputs_lift]. }
  assert (Forall2 (opens_to public g) [o] [payload]) as Hopen1 by (constructor; [done|constructor]).
  destruct (drain_buffered s (h_sequence (header o)) [o] [payload] decoder1 size1 delta1 c
    Hopen1 Hget Hone) as (s1 & c1 & Hrun & Hd1 & Hz1 & Hl1 & Hk1 & Hs1).
  rewrite <-Hk1 in Hget. rewrite <-Hd1, <-Hz1 in Hrest.
  destruct (IH s1 (h_sequence (header o)) delta2 c1 Hof Hsort' Hafter Hsize Hget Hrest)
    as (sequence' & s' & c' & Hrun' & Hd & Hz & Hl & Hs).
  exists sequence', s', c'. cbn [fmap list_fmap play_messages play_message]. unfold mbind, io_bind.
  rewrite push_object; [|done|done|..].
  2: { unfold MAX_PENDING_OBJECTS. simpl. lia. }
  2: { unfold ciphertext_bytes. simpl. lia. }
  cbn [app]. rewrite Hrun, Hrun'. split_and!; [done..| |].
  - by rewrite Hl, Hl1, !last_sequence_cons.
  - by rewrite Hs, Hs1, app_assoc.
Qed.
End play.

Section end_to_end.
Context `{crypto : !Crypto, crypto_laws : !CryptoLaws, codecs : !Codecs, library : !H264Decoder}.
Context (env : ClientEnv ViewerDisk RelayViewerMessage).
Abbreviation viewer_client := (Client ViewerDisk Output RelayViewerMessage).

(** What a new group's encryptor has. *)
Lemma group_generate_key identity stream epoch group_id sequence ids prefix keys g :
  group_generate identity stream epoch group_id sequence ids prefix keys = Some (Ok g) ->
  identity_id identity = Ok (ge_publisher_id g) /\ ge_stream_id g = stream /\ ge_epoch_id g = epoch /\
  ge_key_group g = group_id /\ ge_last_sequence g = sequence /\
  content_key_from_bytes (group_content_key g) = Ok (ge_key g).
Proof using Type.
  unfold group_generate. case_decide; [done|]. intros (key_id & _ & (key & _ & [= Hg])%bind_Some)%bind_Some.
  unfold group_restore in Hg. rewrite guard_bind in Hg. destruct Hg as [_ Hg].
  apply bind_Ok_inv in Hg as (id & Hid%map_err_Ok & Hg). apply bind_Ok_inv in Hg as (k & Hk & [= <-]). split_and!; try done.
  unfold group_content_key, content_key_to_bytes in *. cbn. unfold content_key_from_bytes in *.
  rewrite guard_bind in Hk. destruct Hk as [Hne [= <-]]. cbn. by rewrite reject_if_false.
Qed.

Lemma decode_all_app l k decoder size (c : viewer_client) :
  decode_all (l ++ k) decoder size c =
  (let? (decoder, size) := decode_all l decoder size in decode_all k decoder size) c.
Proof using Type.
  revert decoder size c. induction l as [|[o payload] l IH]; intros decoder size c; [done|]. cbn [app decode_all].
  unfold mbind, io_bind. destruct (decode_plain o payload decoder size c) as [[[d1 s1]|e] c1]; [apply IH|done].
Qed.

(** The envelope is accepted and its key is put into the cache. *)
Lemma play_envelope identity public viewer_public stream_id epoch_id group_id g rnd envelope p s c q :
  identity_public identity = Ok public -> identity_public (cp_identity p) = Ok viewer_public ->
  identity_id public = Ok (ge_publisher_id g) ->
  ge_stream_id g = stream_id -> ge_epoch_id g = epoch_id -> ge_key_group g = group_id ->
  envelope_seal identity viewer_public stream_id epoch_id group_id (group_key_id g) (group_content_key g) rnd =
    Ok envelope ->
  (forall n d, vd_keys (env_disk env n d) = vd_keys d) -> holds (vd_keys (cl_disk c)) q ->
  exists c', play_message env p stream_id (ge_publisher_id g) public (RvKeyEnvelope envelope) s c =
      drain_pending_objects env public s c' /\
    cache_get (vd_keys (cl_disk c')) (encryptor_group g) = Some (group_content_key g) /\ cl_sent c' = cl_sent c.
Proof using crypto_laws.
  intros Hpub Hvpub Hid Hgs Hge Hgg Henv Hkeys Hholds. cbn [play_message]. unfold receive_envelope.
  pose proof (envelope_seal_Ok _ _ _ _ _ _ _ _ _ Henv) as (_ & pub & _ & _ & Hpub' & Hpid & Hrid & _).
  rewrite Hpub in Hpub'. injection Hpub' as <-. rewrite Hid in Hpid. injection Hpid as Hpid.
  pose proof (envelope_seal_group _ _ _ _ _ _ _ _ _ Henv) as (Hstream & Hepoch & Hgroup & Hkid).
  destruct (envelope_seal_open _ _ _ _ _ _ _ _ _ _ _ _ _ Henv Hpub Hvpub Hrid) as [Hopen _]. specialize (Hopen eq_refl).
  destruct (cache_insert_queue (encryptor_group g) (group_content_key g) _ q Hholds) as (k & Hins & Hk).
  assert (envelope_group stream_id envelope = encryptor_group g) as Hgk.
  { unfold envelope_group, encryptor_group. rewrite Hepoch, Hgroup, Hkid. by subst. }
  exists (set_disk (set_keys k (env_disk env (cl_step c) (cl_disk c))) c). split_and!.
  - rewrite decide_False by (intros [|]; congruence). rewrite Hvpub. cbn [mbind result_bind]. rewrite Hrid.
    unfold mbind at 1, io_bind, lift at 1. cbn [fmap result_fmap context map_err].
    unfold mbind at 1, io_bind, lift at 1. rewrite reject_if_false by (intros H; by apply H).
    unfold mbind at 1, io_bind, lift at 1. rewrite Hopen. cbn [context map_err].
    unfold mbind at 1, io_bind, insert_key, disk_call. rewrite Hkeys, Hgk, Hins. reflexivity.
  - cbn. destruct Hk as (Hnd & _ & ->). unfold cache_get. cbn. apply elem_of_list_to_map_1; [done|].
    apply queue_insert_elem. by destruct Hholds as (_ & ? & _).
  - done.
Qed.

(** C1: the publisher's pictures reach the window: when a publisher seals
    payloads under the key of a new group and an envelope with that key for a
    viewer, then the viewer, given the objects in their order and the envelope
    anywhere among them, ends with an empty buffer, its decoder was fed exactly
    the sealed payloads in that order, and the window is shown exactly what
    decoding them shows, no matter how many objects had to wait for the key, as
    long as those fit the buffer. *)
Theorem sealed_stream_plays identity public viewer_public stream_id epoch_id group_id prior ids prefix keys g
    payloads before behind rnd envelope p s q (c : viewer_client) decoder' size' delta :
  identity_public identity = Ok public ->
  identity_public (cp_identity p) = Ok viewer_public ->
  group_generate public stream_id epoch_id group_id prior ids prefix keys = Some (Ok g) ->
  seal_all g identity payloads = Ok (before ++ behind) ->
  envelope_seal identity viewer_public stream_id epoch_id group_id (group_key_id g) (group_content_key g) rnd =
    Ok envelope ->
  (forall n d, vd_keys (env_disk env n d) = vd_keys d) ->
  holds (vd_keys (cl_disk c)) q -> encryptor_group g ∉ q.*1 ->
  pl_guard s = live_guard_new (ge_publisher_id g) stream_id prior ->
  pl_pending s = [] -> pl_pending_bytes s = 0 ->
  zlen before <= MAX_PENDING_OBJECTS -> ciphertext_bytes before <= MAX_PENDING_CIPHERTEXT_BYTES ->
  Forall (fun o => zlen (ciphertext o) <= MAX_PENDING_CIPHERTEXT_BYTES) behind ->
  outputs (decode_all (zip (before ++ behind) payloads.*2) (pl_decoder s) (pl_source_size s))
    (Ok (decoder', size')) delta ->
  exists s' c', play_messages env public p stream_id (ge_publisher_id g)
      ((RvObject <$> before) ++ [RvKeyEnvelope envelope] ++ (RvObject <$> behind)) s c = (Ok s', c') /\
    pl_decoder s' = decoder' /\ pl_source_size s' = size' /\ pl_pending s' = [] /\
    pl_last_decrypted s' = default (pl_last_decrypted s) (last_sequence (before ++ behind)) /\
    cl_sent c' = cl_sent c ++ delta.
Proof using crypto_laws.
  intros Hpub Hvpub Hgen Hseal Henv Hkeys Hholds Hnew Hguard Hpend Hbytes Hn Hb Hsize Hout.
  apply group_generate_key in Hgen as (Hid & Hgs & Hge & Hgg & Hgl & Hcontent).
  destruct (seal_all_opens _ _ _ _ _ Hpub Hseal) as (Hopens & Hsort & Hafter). rewrite Hgl in Hafter.
  assert (Forall2 (opens_to public g) (before ++ behind) payloads.*2) as Hopens'.
  { apply Forall2_fmap_r. eapply Forall2_impl; [exact Hopens|done]. }
  assert (Forall (of_group g) (before ++ behind)) as Hof.
  { apply Forall_forall. intros o Ho. apply list_elem_of_lookup in Ho as [i Hi].
    destruct (Forall2_lookup_l _ _ _ _ _ Hopens Hi) as (x & _ & _ & ? & ?). done. }
  apply StronglySorted_app in Hsort as (Hcross & Hsort1 & Hsort2). apply Forall_app in Hafter as [Hafter1 Hafter2].
  assert (cache_get (vd_keys (cl_disk c)) (encryptor_group g) = None) as Hmiss.
  { destruct Hholds as (_ & _ & ->). by apply not_elem_of_list_to_map_1. }
  assert (s = buffered g s prior []) as Hs0.
  { unfold buffered, guard_at. rewrite Hgs, <-Hguard. destruct s; cbn in *. by subst. }
  destruct (play_before env Hkeys g public p stream_id (ge_publisher_id g) before s prior [] c) as (seq1 & c1 & Hrun1 & Hk1 & Hs1 & Hseq1);
    [by apply Forall_app in Hof as [? _]|done..|]. cbn [app] in Hrun1.
  apply Forall2_app_inv_l in Hopens' as (payloads1 & payloads2 & Hopens1 & Hopens2 & Hpayloads).
  rewrite Hpayloads, zip_with_app in Hout by (by eapply Forall2_length).
  assert (outputs (let? (decoder, size) := decode_all (zip before payloads1) (pl_decoder s) (pl_source_size s) in
    decode_all (zip behind payloads2) decoder size) (Ok (decoder', size')) delta) as Hsplit
    by (intros c0; rewrite <-Hout; symmetry; apply decode_all_app).
  apply (outputs_bind_inv _ _ _ _ c) in Hsplit as ([decoder1 size1] & delta1 & delta2 & Hout1 & Hout2 & ->);
    [|apply outputs_all|intros []; apply outputs_all].
  rewrite <-Hk1 in Hholds.
  destruct (play_envelope identity public viewer_public stream_id epoch_id group_id g rnd envelope p
    (buffered g s seq1 before) c1 q Hpub Hvpub Hid Hgs Hge Hgg Henv Hkeys Hholds) as (c2 & Hrun2 & Hget2 & Hs2).
  destruct (drain_buffered env Hkeys g public Hcontent s seq1 before payloads1 decoder1 size1 delta1 c2 Hopens1 Hget2 Hout1)
    as (s3 & c3 & Hrun3 & Hd3 & Hz3 & Hl3 & Hk3 & Hs3).
  rewrite <-Hk3 in Hget2. rewrite <-Hd3, <-Hz3 in Hout2. apply Forall_app in Hof as [_ Hof2].
  destruct (play_behind env Hkeys g public Hcontent p stream_id (ge_publisher_id g) behind payloads2 s3 seq1 decoder' size'
    delta2 c3 Hopens2 Hof2 Hsort2) as (seq4 & s4 & c4 & Hrun4 & Hd4 & Hz4 & Hl4 & Hs4); [|done..|].
  { rewrite Hseq1. unfold last_sequence. destruct (last before) as [x|] eqn:Elast; cbn; [|exact Hafter2].
    apply Forall_forall. intros y Hy. apply Hcross; [by apply last_Some_elem_of|done]. }
  exists (buffered g s4 seq4 []), c4. rewrite Hs0 at 1.
  rewrite (play_messages_app _ _ _ _ _ _ _ _ _ _ _ Hrun1). cbn [app play_messages].
  unfold mbind, io_bind. rewrite Hrun2, Hrun3, Hrun4. cbn [buffered pl_decoder pl_source_size pl_pending pl_last_decrypted].
  split_and!; [done..| |].
  - rewrite Hl4, Hl3. unfold last_sequence. rewrite last_app. by destruct (last behind).
  - by rewrite Hs4, Hs3, Hs2, Hs1, app_assoc.
Qed.
End end_to_end.

(** ** Witnesses *)

(** A decoder that shows every unit as a picture of one row. *)
#[local] Instance unit_decoder : H264Decoder := {|
  Decoder := nat;
  decoder_new := Ok 0%nat;
  decoder_units l := [l];
  decoder_decode n u := (Ok (Some (zlen u, 1, u)), S n) |}.
Definition sample_decoder : @Decoder unit_decoder := 0%nat.
#[local] Existing Instance one_addr.
#[local] Existing Instance one_port.

Definition viewer_env (replies : list (option RelayViewerMessage)) : ClientEnv ViewerDisk RelayViewerMessage := {|
  env_clock _ := 5000;
  env_entropy _ := {| draws32 := []; draws16 := []; draw4 := zeros 4; draw_bytes := [] |};
  env_write _ := WriteOk;
  env_connection _ := {| conn_remote := Some (pin_key x05); conn_replies := replies |};
  env_disk _ d := d; env_sync _ := DiskOk |}.
Definition viewer_start : Client ViewerDisk Output RelayViewerMessage := {|
  cl_disk := {| vd_known := None; vd_publishers := None; vd_pairing := None; vd_keys := key_cache_default |};
  cl_step := 0; cl_replies := []; cl_sent := [] |}.
Definition viewer_profile : ConnectionProfile :=
  {| cp_endpoint := raw_relay; cp_identity := sample_viewer; cp_credential := None; cp_explicit_pin := None |}.
Definition sample_payloads : list (NewNativeObject * bytes) :=
  match epoch_encode {| epoch_width := 2; epoch_height := 2; codec_config := sample_idr |} with
  | Ok epoch =>
      [({| new_sequence := 1; new_timestamp := 0; new_duration := 1; new_kind := Epoch;
           new_random_access := true; new_codec := Some H264AnnexB |}, epoch);
       (sample_media 2 true, sample_idr); (sample_media 3 false, [x00; x00; x01; x61])]
  | Err _ => []
  end.
Definition sealed_objects : list NativeObject :=
  match seal_all sample_group sample_secret sample_payloads with Ok l => l | Err _ => [] end.
Definition sealed_envelope : KeyEnvelope :=
  match envelope_seal sample_secret other_public Native.sample_stream sample_epoch 1 (group_key_id sample_group)
          (group_content_key sample_group) [] with
  | Ok e => e
  | Err _ => sample_envelope
  end.
Definition sealed_playback : Playback := {|
  pl_guard := live_guard_new (ge_publisher_id sample_group) Native.sample_stream 0; pl_decoder := sample_decoder;
  pl_source_size := None; pl_pending := []; pl_pending_bytes := 0; pl_last_decrypted := 0 |}.

Lemma sealed_setup :
  identity_public sample_secret = Ok sample_public /\ identity_public (cp_identity viewer_profile) = Ok other_public /\
  group_generate sample_public Native.sample_stream sample_epoch 1 0 [Vector.const x0c 16] (Vector.const x0d 4)
    [Vector.const x0e 32] = Some (Ok sample_group) /\
  seal_all sample_group sample_secret sample_payloads = Ok (take 2 sealed_objects ++ drop 2 sealed_objects) /\
  envelope_seal sample_secret other_public Native.sample_stream sample_epoch 1 (group_key_id sample_group)
    (group_content_key sample_group) [] = Ok sealed_envelope.
Proof. by vm_compute. Qed.
Lemma sealed_sizes :
  length sealed_objects = 3%nat /\
  bool_decide (zlen (take 2 sealed_objects) <= MAX_PENDING_OBJECTS) &&
  bool_decide (ciphertext_bytes (take 2 sealed_objects) <= MAX_PENDING_CIPHERTEXT_BYTES) &&
  bool_decide (Forall (fun o => zlen (ciphertext o) <= MAX_PENDING_CIPHERTEXT_BYTES) (drop 2 sealed_objects)) = true /\
  is_ok (decode_all (zip (take 2 sealed_objects ++ drop 2 sealed_objects) sample_payloads.*2) sample_decoder None
    viewer_start).1 = true.
Proof. by vm_compute. Qed.

Lemma sealed_stream_plays_witness :
  exists decoder' size' delta s' c',
    outputs (decode_all (zip (take 2 sealed_objects ++ drop 2 sealed_objects) sample_payloads.*2) sample_decoder None)
      (Ok (decoder', size')) delta /\
    play_messages (viewer_env []) sample_public viewer_profile Native.sample_stream (ge_publisher_id sample_group)
      ((RvObject <$> take 2 sealed_objects) ++ [RvKeyEnvelope sealed_envelope] ++ (RvObject <$> drop 2 sealed_objects))
      sealed_playback viewer_start = (Ok s', c') /\
    pl_pending s' = [] /\ cl_sent c' = delta.
Proof.
  destruct sealed_setup as (Hpub & Hvpub & Hgen & Hseal & Henv). destruct sealed_sizes as (_ & Hsizes & Hdec).
  apply andb_prop in Hsizes as [[Hn Hb]%andb_prop Hs]. apply bool_decide_eq_true in Hn, Hb, Hs.
  destruct (outputs_all (library := unit_decoder) (zip (take 2 sealed_objects ++ drop 2 sealed_objects) sample_payloads.*2) sample_decoder None)
    as ([[decoder' size']|e] & delta & Hout); [|rewrite Hout in Hdec; discriminate].
  destruct (sealed_stream_plays (viewer_env []) sample_secret sample_public other_public Native.sample_stream sample_epoch
    1 0 _ _ _ sample_group sample_payloads (take 2 sealed_objects) (drop 2 sealed_objects) [] sealed_envelope viewer_profile
    sealed_playback [] viewer_start decoder' size' delta Hpub Hvpub Hgen Hseal Henv)
    as (s' & c' & Hrun & _ & _ & Hpend & _ & Hsent).
  - reflexivity.
  - split; [constructor|]. split; [discriminate|reflexivity].
  - apply not_elem_of_nil.
  - reflexivity.
  - reflexivity.
  - reflexivity.
  - exact Hn.
  - exact Hb.
  - exact Hs.
  - exact Hout.
  - exists decoder', size', delta, s', c'. split; [exact Hout|]. split; [exact Hrun|]. split; [exact Hpend|exact Hsent].
Defined.

Definition playback_replies : list (option RelayViewerMessage) :=
  [Some (RvWelcome {| wel_protocol_version := PROTOCOL_VERSION; access_mode := AccessPublic; relay_time_ms := 0;
                      credential_expires_at_ms := None |});
   Some (RvSubscriptionStarted 1 None true)] ++
  (Some ∘ RvObject <$> take 2 sealed_objects) ++ [Some (RvKeyEnvelope sealed_envelope)] ++
  (Some ∘ RvObject <$> drop 2 sealed_objects).
Definition playback_run :=
  subscribe_once (viewer_env playback_replies) viewer_profile Native.sample_stream sample_public Live 0 viewer_start.
Lemma playback_run_ok :
  match playback_run with
  | (Ok r, c) => bool_decide (length (shown (cl_sent c)) = 3%nat /\ r.2 = 3)
  | _ => false
  end = true.
Proof. by vm_compute. Qed.
Lemma playback_authentic_witness :
  exists r sent c, playback_run = (Ok r, c) /\ length (shown sent) = 3%nat /\
    authentic (viewer_env playback_replies) viewer_profile Native.sample_stream sample_public 0 viewer_start r sent c.
Proof.
  pose proof playback_run_ok as Hok. destruct playback_run as [[r|e] c] eqn:Hrun; [|discriminate Hok].
  apply bool_decide_eq_true in Hok as [Hshown _].
  destruct (playback_authentic (viewer_env playback_replies) viewer_profile Native.sample_stream sample_public Live 0
    viewer_start r c Hrun) as (sent & Hsent & Hcase).
  rewrite Hsent, omap_app in Hshown. destruct Hcase as [Hnone|Hauth]; [rewrite Hnone in Hshown; discriminate Hshown|].
  exists r, sent, c. split; [reflexivity|]. split; [exact Hshown|exact Hauth].
Defined.

Definition buffer_step :=
  match sealed_objects with
  | o :: _ => play_message (viewer_env []) viewer_profile Native.sample_stream (ge_publisher_id sample_group) sample_public
                (RvObject o) sealed_playback viewer_start
  | [] => (Err EmptyString, viewer_start)
  end.
Lemma buffer_step_ok :
  match buffer_step with (Ok s, _) => bool_decide (length (pl_pending s) = 1%nat) | _ => false end = true.
Proof. by vm_compute. Qed.
Lemma buffer_invariant_witness :
  exists s c, buffer_step = (Ok s, c) /\ length (pl_pending s) = 1%nat /\ buffer_ok s c.
Proof.
  pose proof buffer_step_ok as Hone. destruct buffer_step as [[s|e] c] eqn:E; [|discriminate].
  apply bool_decide_eq_true in Hone. exists s, c. split; [reflexivity|]. split; [exact Hone|].
  unfold buffer_step in E. destruct sealed_objects as [|o l]; [discriminate|].
  apply (buffer_invariant (viewer_env []) viewer_profile Native.sample_stream (ge_publisher_id sample_group) sample_public
    (RvObject o) sealed_playback viewer_start s c); [|exact E].
  split; try constructor; unfold MAX_PENDING_OBJECTS, MAX_PENDING_CIPHERTEXT_BYTES; simpl; lia.
Defined.
