(* ===== verification/ViewerUi.v ===== *)
(** The window of a viewer and its worker ([crates/viewer/src/lib.rs]):
    [ViewerApp], whose tiles follow the events of the connections, its keys, and
    [command_worker], which runs the commands.  Drawing is [egui]'s: a texture is
    the image it was loaded from.  [None] is a panic. *)
From Stdlib Require Import ZArith Lia.
From Stdlib.Floats Require Import SpecFloat.
From stdpp Require Import pretty.
From S2P Require Import Prelude Bytes RustStr External Toy Identity Credential Native Envelope Cursor.
From S2P Require Import Transport Pairing Codecs Wire PrivateState KnownRelays RelayClient Keyed ViewerState.
From S2P Require Import Float64 ViewerSession.

(** * The window *)

Inductive Command : Type :=
| CmdRefresh
| CmdSubscribe (stream_id : uuid) (publisher : IdentityPublic) (start : SubscriptionStart)
| CmdPair (stream_id : uuid) (publisher : IdentityPublic)
| CmdConfirmPairing (request_id : array 32) (approved : bool).

(** [x as f32 / 1_000_000.0] *)
Definition micropixels_f32 (x : Z) : float := SFdiv 24 128 (f32_of_Z x) (f32_of_Z 1000000).

Record Tile : Type := {
  tl_catalog : CatalogEntry;
  tl_texture : option (Z * Z * bytes);
  tl_frame_size : Z * Z;
  tl_cursor_texture : option (Z * Z * bytes);
  tl_cursor_size : Z * Z;
  tl_cursor_hotspot : Z * Z;
  tl_cursor_position : float * float;
  tl_cursor_visible : bool;
  tl_sequence : Z;
  tl_status : string;
  tl_seek_timestamp : Z;
}.
Definition tile_stream (t : Tile) : uuid := entry_stream (tl_catalog t).

(** What an entry of the catalog and an event change of a tile. *)
Definition set_tile_status (status : string) (t : Tile) : Tile := {|
  tl_catalog := tl_catalog t; tl_texture := tl_texture t; tl_frame_size := tl_frame_size t;
  tl_cursor_texture := tl_cursor_texture t; tl_cursor_size := tl_cursor_size t;
  tl_cursor_hotspot := tl_cursor_hotspot t; tl_cursor_position := tl_cursor_position t;
  tl_cursor_visible := tl_cursor_visible t; tl_sequence := tl_sequence t; tl_status := status;
  tl_seek_timestamp := tl_seek_timestamp t |}.
(** [u64::clamp] panics on an empty range. *)
Definition u64_clamp (x low high : Z) : option Z :=
  if decide (low <= high) then Some (Z.max low (Z.min x high)) else None.
Definition update_tile (entry : CatalogEntry) (t : Tile) : option Tile :=
  seek ← match ce_retained entry with
         | Some bounds => u64_clamp (tl_seek_timestamp t) (rb_oldest_timestamp bounds) (rb_newest_timestamp bounds)
         | None => Some (tl_seek_timestamp t)
         end;
  Some {| tl_catalog := entry; tl_texture := tl_texture t; tl_frame_size := tl_frame_size t;
          tl_cursor_texture := tl_cursor_texture t; tl_cursor_size := tl_cursor_size t;
          tl_cursor_hotspot := tl_cursor_hotspot t; tl_cursor_position := tl_cursor_position t;
          tl_cursor_visible := tl_cursor_visible t; tl_sequence := tl_sequence t;
          tl_status := if ce_publisher_online entry then
                         (if decide (tl_status t = "Retained; publisher offline"%string) then "Available live"
                          else tl_status t)
                       else "Retained; publisher offline";
          tl_seek_timestamp := seek |}.
Definition new_tile (entry : CatalogEntry) : Tile := {|
  tl_catalog := entry; tl_texture := None; tl_frame_size := (0, 0); tl_cursor_texture := None;
  tl_cursor_size := (0, 0); tl_cursor_hotspot := (0, 0);
  tl_cursor_position := (S754_zero false, S754_zero false); tl_cursor_visible := false; tl_sequence := 0;
  tl_status := if ce_publisher_online entry then "Available live" else "Retained; publisher offline";
  tl_seek_timestamp := match ce_retained entry with Some bounds => rb_newest_timestamp bounds | None => 0 end |}.
(** [egui::ColorImage::from_rgb] and [from_rgba_unmultiplied] panic when the
    bytes are not those of the size. *)
Definition color_image (channels width height : Z) (pixels : bytes) : option (Z * Z * bytes) :=
  if decide (zlen pixels = channels * width * height) then Some (width, height, pixels) else None.
Definition frame_tile (f : Frame) (t : Tile) : option Tile :=
  image ← color_image 3 (fr_width f) (fr_height f) (fr_rgb f);
  Some {| tl_catalog := tl_catalog t; tl_texture := Some image; tl_frame_size := (fr_width f, fr_height f);
          tl_cursor_texture := tl_cursor_texture t; tl_cursor_size := tl_cursor_size t;
          tl_cursor_hotspot := tl_cursor_hotspot t; tl_cursor_position := tl_cursor_position t;
          tl_cursor_visible := tl_cursor_visible t; tl_sequence := fr_sequence f; tl_status := tl_status t;
          tl_seek_timestamp := tl_seek_timestamp t |}.
Definition cursor_tile (u : CursorUpdate) (t : Tile) : option Tile :=
  shown ← match cu_bitmap u with
          | Some b =>
              image ← color_image 4 (bitmap_width b) (bitmap_height b) (rgba b);
              Some (Some image, (bitmap_width b, bitmap_height b), (hotspot_x b, hotspot_y b))
          | None => Some (tl_cursor_texture t, tl_cursor_size t, tl_cursor_hotspot t)
          end;
  let '(texture, size, hotspot) := shown in
  Some {| tl_catalog := tl_catalog t; tl_texture := tl_texture t; tl_frame_size := tl_frame_size t;
          tl_cursor_texture := texture; tl_cursor_size := size; tl_cursor_hotspot := hotspot;
          tl_cursor_position := (micropixels_f32 (cu_x_micropixels u), micropixels_f32 (cu_y_micropixels u));
          tl_cursor_visible := cu_visible u; tl_sequence := tl_sequence t; tl_status := tl_status t;
          tl_seek_timestamp := tl_seek_timestamp t |}.

(** [tiles.iter_mut().find] by the stream, and a change of what it finds. *)
Fixpoint alter_tile (stream_id : uuid) (f : Tile -> option Tile) (tiles : list Tile) : option (list Tile) :=
  match tiles with
  | [] => Some []
  | t :: tiles =>
      if decide (tile_stream t = stream_id) then (fun t => t :: tiles) <$> f t
      else cons t <$> alter_tile stream_id f tiles
  end.

Record ViewerApp : Type := {
  va_tiles : list Tile;
  va_status : string;
  va_selected : nat;
  va_fullscreen : option uuid;
  va_layout : Z;
  va_pairing_prompt : option (array 32 * string);
  va_commands : list Command;
}.
(** [ViewerApp::new]; [va_commands] is what the window has sent to the worker. *)
Definition app_new : ViewerApp := {|
  va_tiles := []; va_status := "Connecting…"; va_selected := 0; va_fullscreen := None; va_layout := 4;
  va_pairing_prompt := None; va_commands := [CmdRefresh] |}.
Definition set_tiles (tiles : list Tile) (a : ViewerApp) : ViewerApp := {|
  va_tiles := tiles; va_status := va_status a; va_selected := va_selected a; va_fullscreen := va_fullscreen a;
  va_layout := va_layout a; va_pairing_prompt := va_pairing_prompt a; va_commands := va_commands a |}.
Definition set_app (status : string) (selected : nat) (fullscreen : option uuid)
    (prompt : option (array 32 * string)) (commands : list Command) (a : ViewerApp) : ViewerApp := {|
  va_tiles := va_tiles a; va_status := status; va_selected := selected; va_fullscreen := fullscreen;
  va_layout := va_layout a; va_pairing_prompt := prompt; va_commands := commands |}.

(** An entry of a new catalog. *)
Definition place_entry (tiles : list Tile) (entry : CatalogEntry) : option (list Tile) :=
  if decide (entry_stream entry ∈ tile_stream <$> tiles)
  then alter_tile (entry_stream entry) (update_tile entry) tiles
  else Some (tiles ++ [new_tile entry]).
Fixpoint place_entries (tiles : list Tile) (entries : list CatalogEntry) : option (list Tile) :=
  match entries with
  | [] => Some tiles
  | entry :: entries => tiles ← place_entry tiles entry; place_entries tiles entries
  end.

(** An event in [drain_events]. *)
Definition drain_event (a : ViewerApp) (e : Event) : option ViewerApp :=
  match e with
  | EvStatus status =>
      Some (set_app status (va_selected a) (va_fullscreen a) (va_pairing_prompt a) (va_commands a) a)
  | EvCatalog entries =>
      tiles ← place_entries (va_tiles a) entries;
      let tiles := filter (fun t => tile_stream t ∈ entry_stream <$> entries) tiles in
      let tiles := sort_by (by_key tile_stream) tiles in
      Some (set_app (pretty (length tiles) +:+ " stream(s) visible") (Nat.min (va_selected a) (length tiles - 1)) (va_fullscreen a)
              (va_pairing_prompt a) (va_commands a) (set_tiles tiles a))
  | EvFrame f => (fun tiles => set_tiles tiles a) <$> alter_tile (fr_stream_id f) (frame_tile f) (va_tiles a)
  | EvCursor u => (fun tiles => set_tiles tiles a) <$> alter_tile (cu_stream_id u) (cursor_tile u) (va_tiles a)
  | EvStreamStatus stream_id status | EvStreamError stream_id status =>
      (fun tiles => set_tiles tiles a) <$>
        alter_tile stream_id (fun t => Some (set_tile_status status t)) (va_tiles a)
  | EvPairingPrompt request_id authentication =>
      Some (set_app (va_status a) (va_selected a) (va_fullscreen a) (Some (request_id, authentication))
              (va_commands a) a)
  | EvPairingApproved stream_id publisher =>
      Some (set_app (va_status a) (va_selected a) (va_fullscreen a) (va_pairing_prompt a)
              (va_commands a ++ [CmdSubscribe stream_id publisher Live]) a)
  end.

(** [keyboard]: the stream of the selected tile; indexing panics out of range. *)
Inductive Key : Type := KeyEscape | KeyEnter | KeyArrowRight | KeyArrowLeft.
Definition selected_stream (a : ViewerApp) : option uuid := tile_stream <$> va_tiles a !! va_selected a.
Definition select (selected : nat) (fullscreen : option uuid) (a : ViewerApp) : ViewerApp :=
  set_app (va_status a) selected fullscreen (va_pairing_prompt a) (va_commands a) a.
Definition press (a : ViewerApp) (k : Key) : option ViewerApp :=
  let move (selected : nat) :=
    match va_fullscreen a with
    | Some _ => (fun s => select selected (Some s) a) <$> selected_stream (select selected None a)
    | None => Some (select selected None a)
    end in
  match k with
  | KeyEscape => Some (select (va_selected a) None a)
  | KeyEnter => if decide (va_tiles a = []) then Some a
                else (fun s => select (va_selected a) (Some s) a) <$> selected_stream a
  | KeyArrowRight => if decide (va_tiles a = []) then Some a
                     else move (S (va_selected a) mod length (va_tiles a))%nat
  | KeyArrowLeft => if decide (va_tiles a = []) then Some a
                    else move (match va_selected a with
                               | O => length (va_tiles a) - 1
                               | S n => n
                               end)%nat
  end.

(** The tiles that [ui] lays out, and in how many columns. *)
Definition visible_tiles (a : ViewerApp) : list nat :=
  match va_fullscreen a with
  | Some stream_id =>
      match list_find (fun t => tile_stream t = stream_id) (va_tiles a) with Some (i, _) => [i] | None => [] end
  | None => seq 0 (Nat.min (length (va_tiles a)) (Z.to_nat (va_layout a)))
  end.
Definition grid_columns (visible : list nat) : nat :=
  match length visible with 0 | 1 => 1 | 2 | 3 | 4 => 2 | _ => 3 end%nat.
(** [visible.len().div_ceil(columns).max(1)] *)
Definition grid_rows (visible : list nat) : nat :=
  let columns := grid_columns visible in Nat.max 1 ((length visible + columns - 1) / columns).

(** The buttons of a tile, of the bar and of the pairing window. *)
Inductive Click : Type :=
| ClickLayout (count : Z)
| ClickRefresh
| ClickSelect (index : nat)
| ClickHistory (index : nat)
| ClickLive (index : nat)
| ClickPair (index : nat)
| ClickFullscreen (index : nat)
| ClickSeek (index : nat) (timestamp : Z)
| ClickGo (index : nat)
| ClickConfirm (approved : bool).
Definition send_command (command : Command) (a : ViewerApp) : ViewerApp :=
  set_app (va_status a) (va_selected a) (va_fullscreen a) (va_pairing_prompt a) (va_commands a ++ [command]) a.
Definition set_layout (count : Z) (a : ViewerApp) : ViewerApp := {|
  va_tiles := va_tiles a; va_status := va_status a; va_selected := va_selected a;
  va_fullscreen := va_fullscreen a; va_layout := count; va_pairing_prompt := va_pairing_prompt a;
  va_commands := va_commands a |}.
Definition seek_tile (timestamp : Z) (t : Tile) : Tile := {|
  tl_catalog := tl_catalog t; tl_texture := tl_texture t; tl_frame_size := tl_frame_size t;
  tl_cursor_texture := tl_cursor_texture t; tl_cursor_size := tl_cursor_size t;
  tl_cursor_hotspot := tl_cursor_hotspot t; tl_cursor_position := tl_cursor_position t;
  tl_cursor_visible := tl_cursor_visible t; tl_sequence := tl_sequence t; tl_status := tl_status t;
  tl_seek_timestamp := timestamp |}.
(** A button is there for the tiles that are laid out; seeking only moves within
    the retained bounds. *)
Definition click (a : ViewerApp) (b : Click) : ViewerApp :=
  let on_tile index (k : Tile -> ViewerApp) :=
    if decide (index ∈ visible_tiles a) then match va_tiles a !! index with Some t => k t | None => a end else a in
  let subscribe_tile index (t : Tile) status start :=
    send_command (CmdSubscribe (tile_stream t) (entry_publisher (tl_catalog t)) start)
      (set_tiles (<[index := set_tile_status status t]> (va_tiles a)) a) in
  match b with
  | ClickLayout count => if decide (count ∈ [1; 2; 4; 6]) then set_layout count a else a
  | ClickRefresh => send_command CmdRefresh a
  | ClickSelect index => on_tile index (fun _ => select index (va_fullscreen a) a)
  | ClickHistory index => on_tile index (fun t => subscribe_tile index t "Connecting…" OldestRetained)
  | ClickLive index => on_tile index (fun t => subscribe_tile index t "Connecting to live edge…" Live)
  | ClickPair index =>
      on_tile index (fun t => send_command (CmdPair (tile_stream t) (entry_publisher (tl_catalog t))) a)
  | ClickFullscreen index => on_tile index (fun t => select (va_selected a) (Some (tile_stream t)) a)
  | ClickSeek index timestamp =>
      on_tile index (fun t =>
        match ce_retained (tl_catalog t) with
        | Some bounds =>
            if decide (rb_oldest_timestamp bounds <= timestamp <= rb_newest_timestamp bounds)
            then set_tiles (<[index := seek_tile timestamp t]> (va_tiles a)) a else a
        | None => a
        end)
  | ClickGo index =>
      on_tile index (fun t =>
        match ce_retained (tl_catalog t) with
        | Some _ => subscribe_tile index t "Seeking retained history…" (StartTimestamp (tl_seek_timestamp t))
        | None => a
        end)
  | ClickConfirm approved =>
      match va_pairing_prompt a with
      | Some (request_id, _) =>
          set_app (va_status a) (va_selected a) (va_fullscreen a) None
            (va_commands a ++ [CmdConfirmPairing request_id approved]) a
      | None => a
      end
  end.

(** * The worker *)

Section worker.
Context `{crypto : !Crypto, addrs : !SocketAddrs, ports : !SocketPorts, codecs : !Codecs}.
Context `{relay_file : !Postcard KnownRelayFile, publishers_file : !Postcard VerifiedPublishersState}.
Context `{pairing_file : !Postcard PairingState, library : !H264Decoder}.
Abbreviation viewer := (client ViewerDisk Output RelayViewerMessage).
Context (env : ClientEnv ViewerDisk RelayViewerMessage).

(** The pending pairings and the subscription tasks, of which a stream has at
    most one: starting another aborts it. *)
Record Worker : Type := {
  wk_pending : PendingPairings;
  wk_subscriptions : gmap uuid (IdentityPublic * SubscriptionStart);
}.
(** The start of [command_worker]. *)
Definition worker_start : viewer Worker :=
  let? loaded := attempt (disk_call env (fun d => (load_pairing_state (vd_pairing d), d))) in
  match loaded with
  | Ok pending => mret {| wk_pending := pending; wk_subscriptions := ∅ |}
  | Err _ =>
      send_event (EvStatus "Pending pairing state is unusable") then?
      mret {| wk_pending := ∅; wk_subscriptions := ∅ |}
  end.
Definition set_pending (pending : PendingPairings) (w : Worker) : Worker :=
  {| wk_pending := pending; wk_subscriptions := wk_subscriptions w |}.

(** A turn of its loop: a command, or [None] for the timer. *)
Definition worker_turn (p : ConnectionProfile) (command : option Command) (w : Worker) : viewer Worker :=
  match command with
  | None | Some CmdRefresh =>
      let? pending := refresh_all env p (wk_pending w) in
      mret (set_pending pending w)
  | Some (CmdSubscribe stream_id publisher start) =>
      mret {| wk_pending := wk_pending w;
              wk_subscriptions := <[stream_id := (publisher, start)]> (wk_subscriptions w) |}
  | Some (CmdPair stream_id publisher) =>
      let? paired := attempt (begin_pairing env p stream_id publisher) in
      match paired with
      | Ok request =>
          match pair_request_id request with
          | Ok request_id =>
              let pending := <[request_id := (request, None)]> (wk_pending w) in
              attempt (save_pending env pending) then?
              send_event (EvStatus "Pairing request queued; waiting for publisher") then?
              mret (set_pending pending w)
          | Err _ => mret w
          end
      | Err _ => send_event (EvStatus "Pairing failed") then? mret w
      end
  | Some (CmdConfirmPairing request_id true) =>
      let? confirmed := attempt (
        let? (request, offer) := lift (ok_or (wk_pending w !! request_id) "pairing request is no longer pending") in
        let? offer := lift (ok_or offer "publisher offer is not available") in
        confirm_pairing env p request offer) in
      send_event (EvStatus (match confirmed with
                            | Ok _ => "Viewer confirmation queued; waiting for publisher approval"
                            | Err _ => "Pair confirmation failed"
                            end)) then?
      mret w
  | Some (CmdConfirmPairing request_id false) =>
      let pending := delete request_id (wk_pending w) in
      attempt (save_pending env pending) then?
      send_event (EvStatus "Pairing comparison rejected") then?
      mret (set_pending pending w)
  end.
End worker.

(** * The window's invariant *)

Inductive WindowStep : Type := StepEvent (e : Event) | StepKey (k : Key) | StepClick (b : Click).
Definition window_step (a : ViewerApp) (s : WindowStep) : option ViewerApp :=
  match s with
  | StepEvent e => drain_event a e
  | StepKey k => press a k
  | StepClick b => Some (click a b)
  end.
Fixpoint run_window (a : ViewerApp) (steps : list WindowStep) : option ViewerApp :=
  match steps with
  | [] => Some a
  | s :: steps => a ← window_step a s; run_window a steps
  end.

(** The events that the connections send: entries as the wire accepts them, and
    pictures and bitmaps of their size, as the decoders give them. *)
Definition entry_ok (entry : CatalogEntry) : Prop :=
  match ce_retained entry with Some bounds => bounds_validate bounds = Ok tt | None => True end.
Definition step_ok (s : WindowStep) : Prop :=
  match s with
  | StepEvent (EvCatalog entries) => Forall entry_ok entries
  | StepEvent (EvFrame f) => zlen (fr_rgb f) = 3 * fr_width f * fr_height f
  | StepEvent (EvCursor u) =>
      match cu_bitmap u with
      | Some b => zlen (rgba b) = 4 * bitmap_width b * bitmap_height b
      | None => True
      end
  | _ => True
  end.

Record window_ok (a : ViewerApp) : Prop := {
  window_sorted : keyed tile_stream (va_tiles a);
  window_selected : va_tiles a = [] \/ (va_selected a < length (va_tiles a))%nat;
}.

Lemma alter_tile_streams stream_id f tiles :
  (forall t, tile_stream t = stream_id -> exists t', f t = Some t' /\ tile_stream t' = stream_id) ->
  exists tiles', alter_tile stream_id f tiles = Some tiles' /\ tile_stream <$> tiles' = tile_stream <$> tiles.
Proof.
  intros Hf. induction tiles as [|t tiles (tiles' & IH & Hs)]; [by exists []|]. cbn [alter_tile].
  case_decide as Ht.
  - destruct (Hf t Ht) as (t' & -> & Ht'). exists (t' :: tiles). split; [done|]. cbn. by rewrite Ht', Ht.
  - rewrite IH. exists (t :: tiles'). split; [done|]. cbn. by rewrite Hs.
Qed.
Lemma update_tile_ok entry t :
  entry_ok entry -> exists t', update_tile entry t = Some t' /\ tile_stream t' = entry_stream entry.
Proof.
  unfold entry_ok, update_tile. destruct (ce_retained entry) as [bounds|] eqn:E; intros Hok.
  - apply reject_if_Ok in Hok. nor_inv.
    assert (forall x, exists y, u64_clamp x (rb_oldest_timestamp bounds) (rb_newest_timestamp bounds) = Some y) as Hc.
    { intros x. unfold u64_clamp. rewrite decide_True by lia. by eexists. }
    destruct (Hc (tl_seek_timestamp t)) as [y ->]. cbn. eexists. by split.
  - cbn. eexists. by split.
Qed.
Lemma place_entry_ok tiles entry :
  entry_ok entry -> NoDup (tile_stream <$> tiles) ->
  exists tiles', place_entry tiles entry = Some tiles' /\ NoDup (tile_stream <$> tiles') /\
    forall s, s ∈ tile_stream <$> tiles' <-> s ∈ tile_stream <$> tiles \/ s = entry_stream entry.
Proof.
  intros Hok Hnd. unfold place_entry. case_decide as Hin.
  - destruct (alter_tile_streams (entry_stream entry) (update_tile entry) tiles) as (tiles' & -> & Hs).
    { intros t _. by apply update_tile_ok. }
    exists tiles'. rewrite Hs. split_and!; [done..|]. intros s. split; [by left|]. by intros [?| ->].
  - exists (tiles ++ [new_tile entry]). rewrite fmap_app. split_and!; [done| |].
    + apply NoDup_app. split_and!; [done| |apply NoDup_singleton]. intros s Hs ->%list_elem_of_singleton. done.
    + intros s. rewrite elem_of_app. cbn. by rewrite list_elem_of_singleton.
Qed.
Lemma place_entries_ok tiles entries :
  Forall entry_ok entries -> NoDup (tile_stream <$> tiles) ->
  exists tiles', place_entries tiles entries = Some tiles' /\ NoDup (tile_stream <$> tiles') /\
    forall s, s ∈ tile_stream <$> tiles' <-> s ∈ tile_stream <$> tiles \/ s ∈ entry_stream <$> entries.
Proof.
  intros Hok. revert tiles. induction Hok as [|entry entries He Hok IH]; intros tiles Hnd; cbn [place_entries].
  { exists tiles. split_and!; [done..|]. intros s. cbn. rewrite elem_of_nil. tauto. }
  destruct (place_entry_ok tiles entry He Hnd) as (tiles1 & -> & Hnd1 & Hs1). cbn [mbind option_bind].
  destruct (IH tiles1 Hnd1) as (tiles2 & -> & Hnd2 & Hs2). exists tiles2. split_and!; [done..|].
  intros s. rewrite Hs2, Hs1. cbn. rewrite elem_of_cons. tauto.
Qed.

(** Steps that keep the streams of the tiles and the selection in range. *)
Lemma window_ok_streams a a' :
  window_ok a -> tile_stream <$> va_tiles a' = tile_stream <$> va_tiles a ->
  (va_tiles a = [] \/ (va_selected a' < length (va_tiles a))%nat) -> window_ok a'.
Proof.
  intros [Hs _] Ht Hsel. assert (length (va_tiles a') = length (va_tiles a)) as Hlen
    by (by rewrite <-(length_fmap tile_stream), Ht, length_fmap).
  split; [unfold keyed in *; by rewrite Ht|]. destruct Hsel as [Hnil|Hlt]; [left|right; lia].
  rewrite Hnil in Hlen. by destruct (va_tiles a').
Qed.
Lemma alter_step a stream_id f :
  window_ok a ->
  (forall t, tile_stream t = stream_id -> exists t', f t = Some t' /\ tile_stream t' = stream_id) ->
  exists a', ((fun tiles => set_tiles tiles a) <$> alter_tile stream_id f (va_tiles a)) = Some a' /\ window_ok a' /\
    tile_stream <$> va_tiles a' = tile_stream <$> va_tiles a.
Proof.
  intros Ha Hf. destruct (alter_tile_streams stream_id f (va_tiles a) Hf) as (tiles & -> & Hs).
  eexists. split; [done|]. split; [|done]. eapply window_ok_streams; [exact Ha|done|]. apply Ha.
Qed.
Lemma image_ok channels width height pixels :
  zlen pixels = channels * width * height -> color_image channels width height pixels = Some (width, height, pixels).
Proof. intros H. unfold color_image. by rewrite decide_True. Qed.

Lemma drain_event_ok a e :
  window_ok a -> step_ok (StepEvent e) ->
  exists a', drain_event a e = Some a' /\ window_ok a' /\
    match e with
    | EvCatalog entries => forall s, s ∈ tile_stream <$> va_tiles a' <-> s ∈ entry_stream <$> entries
    | _ => tile_stream <$> va_tiles a' = tile_stream <$> va_tiles a
    end.
Proof.
  intros Ha He. destruct e; cbn [drain_event step_ok] in *.
  - eexists. split; [done|]. split; [|done]. by apply (window_ok_streams a); [|done|apply Ha].
  - pose proof Ha as [Hs Hsel]. apply keyed_NoDup in Hs.
    destruct (place_entries_ok _ _ He Hs) as (tiles & -> & Hnd & Hin). cbn [mbind option_bind].
    eexists. split; [done|]. cbn [set_app set_tiles va_tiles va_selected].
    set (kept := filter (fun t => tile_stream t ∈ entry_stream <$> entries) tiles).
    assert (forall s, s ∈ tile_stream <$> kept <-> s ∈ entry_stream <$> entries) as Hkept.
    { intros s. rewrite list_elem_of_fmap. unfold kept. setoid_rewrite list_elem_of_filter. split.
      - by intros (t & -> & ? & _).
      - intros Hs1. assert (s ∈ tile_stream <$> tiles) as (t & -> & Ht)%list_elem_of_fmap by (apply Hin; by right).
        by exists t. }
    split.
    + split; cbn.
      * apply keyed_sort. eapply sublist_NoDup; [exact Hnd|]. apply fmap_sublist, sublist_filter.
      * destruct (sort_by (by_key tile_stream) kept); [by left|right; simpl; lia].
    + intros s. cbn. rewrite (sort_by_Permutation (by_key tile_stream) kept). apply Hkept.
  - apply alter_step; [done|]. intros t Ht. unfold frame_tile. rewrite image_ok by done. cbn. eexists. by split.
  - apply alter_step; [done|]. intros t Ht. unfold cursor_tile. destruct (cu_bitmap update) as [b|];
      [rewrite image_ok by done|]; cbn; eexists; by split.
  - apply alter_step; [done|]. intros t Ht. eexists. by split.
  - apply alter_step; [done|]. intros t Ht. eexists. by split.
  - eexists. split; [done|]. split; [|done]. by apply (window_ok_streams a); [|done|apply Ha].
  - eexists. split; [done|]. split; [|done]. by apply (window_ok_streams a); [|done|apply Ha].
Qed.

Lemma press_ok a k :
  window_ok a -> exists a', press a k = Some a' /\ window_ok a' /\ va_tiles a' = va_tiles a.
Proof.
  intros Ha. assert (forall n, (va_tiles a = [] \/ (n < length (va_tiles a))%nat) -> forall f, window_ok (select n f a)) as Hsel
    by (intros n Hn f; by apply (window_ok_streams a)).
  assert (va_tiles a <> [] -> forall n, (n < length (va_tiles a))%nat -> exists s,
    selected_stream (select n None a) = Some s) as Hstream.
  { intros _ n Hn. unfold selected_stream. cbn. destruct (lookup_lt_is_Some_2 _ _ Hn) as [t ->]. by eexists. }
  assert (forall n, va_tiles a <> [] -> (n < length (va_tiles a))%nat -> exists a',
    match va_fullscreen a with
    | Some _ => (fun s => select n (Some s) a) <$> selected_stream (select n None a)
    | None => Some (select n None a)
    end = Some a' /\ window_ok a' /\ va_tiles a' = va_tiles a) as Hmove.
  { intros n Hne Hn. destruct (Hstream Hne n Hn) as [s ->].
    destruct (va_fullscreen a); (eexists; split; [done|]); (split; [apply Hsel; by right|done]). }
  destruct k; cbn [press].
  - eexists. split; [done|]. split; [apply Hsel, Ha|done].
  - case_decide as Hnil; [by exists a|]. destruct Ha as [_ [?|Hlt]]; [done|].
    destruct (Hstream Hnil _ Hlt) as [s Hs]. change (selected_stream (select (va_selected a) None a)) with (selected_stream a) in Hs.
    rewrite Hs. eexists. split; [done|]. split; [apply Hsel; by right|done].
  - case_decide as Hnil; [by exists a|]. apply Hmove; [done|]. apply Nat.mod_upper_bound. by destruct (va_tiles a).
  - case_decide as Hnil; [by exists a|]. apply Hmove; [done|]. destruct Ha as [_ [?|Hlt]]; [done|].
    destruct (va_selected a); lia.
Qed.

Lemma visible_in_range a i : i ∈ visible_tiles a -> (i < length (va_tiles a))%nat.
Proof.
  unfold visible_tiles. destruct (va_fullscreen a) as [s|].
  - destruct (list_find _ _) as [[j t]|] eqn:E; [|by intros ?%elem_of_nil]. intros ->%list_elem_of_singleton.
    apply list_find_Some in E as (H & _). by eapply lookup_lt_Some.
  - rewrite elem_of_seq. lia.
Qed.
Lemma click_ok a b :
  window_ok a -> window_ok (click a b) /\ tile_stream <$> va_tiles (click a b) = tile_stream <$> va_tiles a.
Proof.
  intros Ha.
  assert (forall a', va_tiles a' = va_tiles a -> va_selected a' = va_selected a ->
    window_ok a' /\ tile_stream <$> va_tiles a' = tile_stream <$> va_tiles a) as Hsame.
  { intros a' Ht Hs. split; [|by rewrite Ht]. apply (window_ok_streams a); [done|by rewrite Ht|rewrite Hs; apply Ha]. }
  assert (forall i t t' a', va_tiles a !! i = Some t -> tile_stream t' = tile_stream t ->
    va_tiles a' = <[i := t']> (va_tiles a) -> va_selected a' = va_selected a ->
    window_ok a' /\ tile_stream <$> va_tiles a' = tile_stream <$> va_tiles a) as Hinsert.
  { intros i t t' a' Hi Ht Htiles Hs. assert (tile_stream <$> va_tiles a' = tile_stream <$> va_tiles a) as Hstreams.
    { rewrite Htiles, list_fmap_insert, Ht, list_insert_id; [done|]. by rewrite list_lookup_fmap, Hi. }
    split; [|done]. apply (window_ok_streams a); [done..|rewrite Hs; apply Ha]. }
  destruct b; cbn [click]; repeat case_match; try (by apply Hsame).
  all: try (eapply Hinsert; [eassumption| |reflexivity|reflexivity]; reflexivity).
  split; [|done]. apply (window_ok_streams a); [done..|]. right. by apply visible_in_range.
Qed.

Lemma window_step_ok a step :
  window_ok a -> step_ok step -> exists a', window_step a step = Some a' /\ window_ok a' /\
    match step with
    | StepEvent (EvCatalog entries) => forall s, s ∈ tile_stream <$> va_tiles a' <-> s ∈ entry_stream <$> entries
    | _ => tile_stream <$> va_tiles a' = tile_stream <$> va_tiles a
    end.
Proof.
  intros Ha Hstep. destruct step as [e|k|b]; cbn [window_step].
  - destruct (drain_event_ok a e Ha Hstep) as (a' & -> & Ha' & Hs). exists a'. split_and!; [done..|]. by destruct e.
  - destruct (press_ok a k Ha) as (a' & -> & Ha' & Hs). exists a'. split_and!; [done..|]. by rewrite Hs.
  - destruct (click_ok a b Ha) as [Ha' Hs]. by exists (click a b).
Qed.
Lemma run_window_app a l k : run_window a (l ++ k) = run_window a l ≫= fun a => run_window a k.
Proof. revert a. induction l as [|s l IH]; intros a; [done|]. cbn. destruct (window_step a s); [apply IH|done]. Qed.

(** C15: the window never panics and follows the catalog: whatever events arrive
    from the connections, keys are pressed and buttons clicked, the window's
    tiles are one for each stream, in the order of the streams, and the selection
    is one of them if there are any; so no index or image is out of range; and
    after a catalog its streams are exactly those of the catalog. *)
Theorem window_follows_catalog steps :
  Forall step_ok steps ->
  exists a, run_window app_new steps = Some a /\ window_ok a /\
    (forall i, i ∈ visible_tiles a -> is_Some (va_tiles a !! i)) /\
    forall earlier entries later, steps = earlier ++ StepEvent (EvCatalog entries) :: later ->
      (forall entries', StepEvent (EvCatalog entries') ∉ later) ->
      forall s, s ∈ tile_stream <$> va_tiles a <-> s ∈ entry_stream <$> entries.
Proof.
  intros Hsteps. assert (exists a, run_window app_new steps = Some a /\ window_ok a /\
    forall earlier entries later, steps = earlier ++ StepEvent (EvCatalog entries) :: later ->
      (forall entries', StepEvent (EvCatalog entries') ∉ later) ->
      forall s, s ∈ tile_stream <$> va_tiles a <-> s ∈ entry_stream <$> entries) as (a & Hrun & Ha & Hcat).
  2: { exists a. split_and!; [done..| |done]. intros i Hi. by apply lookup_lt_is_Some_2, visible_in_range. }
  induction steps as [|step steps IH] using rev_ind.
  { exists app_new. split_and!; [done| |by intros [] ?].
    split; [constructor|by left]. }
  apply Forall_app in Hsteps as [Hsteps [Hstep _]%Forall_cons]. destruct (IH Hsteps) as (a & Hrun & Ha & Hcat).
  destruct (window_step_ok a step Ha Hstep) as (a' & Hrun' & Ha' & Hstreams). exists a'.
  split_and!; [by rewrite run_window_app, Hrun; cbn; rewrite Hrun'|done|].
  intros earlier entries later Hsplit Hlast. destruct later as [|last later _] using rev_ind.
  - apply app_inj_tail in Hsplit as [_ ->]. exact Hstreams.
  - rewrite app_comm_cons, app_assoc in Hsplit. apply app_inj_tail in Hsplit as [Hsplit ->].
    intros s. assert (tile_stream <$> va_tiles a' = tile_stream <$> va_tiles a) as ->.
    { destruct last as [[]| |]; try exact Hstreams. destruct (Hlast entries0). apply elem_of_app. right. by left. }
    eapply Hcat; [exact Hsplit|]. intros entries' Hin. apply (Hlast entries'). apply elem_of_app. by left.
Qed.

Definition sample_entry (stream_id : uuid) : CatalogEntry := {|
  ce_descriptor := {|
    desc_body := {| desc_version := 1; desc_publisher := sample_public; desc_stream_id := stream_id;
                    desc_name := []; desc_source_label := []; desc_codecs := []; desc_cursor := false;
                    desc_created_at_ms := 0 |};
    desc_signature := {| first := zeros 32; second := zeros 32 |} |};
  ce_publisher_online := true;
  ce_retained := Some {| rb_oldest_sequence := 1; rb_newest_sequence := 5; rb_oldest_timestamp := 0;
                         rb_newest_timestamp := 90 |} |}.
Definition sample_steps : list WindowStep :=
  [StepEvent (EvCatalog [sample_entry (Vector.const x02 16); sample_entry (Vector.const x01 16)]);
   StepKey KeyArrowRight; StepKey KeyEnter; StepClick (ClickGo 1); StepKey KeyArrowRight;
   StepEvent (EvCatalog [sample_entry (Vector.const x02 16)]); StepKey KeyArrowLeft].
Lemma window_follows_catalog_witness :
  exists a, run_window app_new sample_steps = Some a /\ (va_selected a < 1)%nat /\
    (Vector.const x02 16 ∈ tile_stream <$> va_tiles a) /\ length (va_commands a) = 2%nat.
Proof.
  destruct (window_follows_catalog sample_steps) as (a & Hrun & Hok & _ & Hcat).
  - repeat constructor.
  - exists a. split; [exact Hrun|]. assert (a = default app_new (run_window app_new sample_steps)) as Ha
      by (rewrite Hrun; reflexivity). split; [|split].
    + rewrite Ha. vm_compute. constructor.
    + apply (Hcat (take 5 sample_steps) [sample_entry (Vector.const x02 16)] [StepKey KeyArrowLeft]); [reflexivity| |by left].
      intros entries [H|H%elem_of_nil]%elem_of_cons; [discriminate H|exact H].
    + rewrite Ha. vm_compute. reflexivity.
Defined.
